(* ===== verification/_CoqProject ===== *)
-Q . S2P
Prelude.v
Multiaddr.v
PublicAddresses.v
AddressStore.v
PeerState.v
ConnectionLimits.v
TransportManager.v
TransportManagerFacts.v
TransportManagerSafety.v
TransportManagerDial.v
TransportManagerLive.v
TransportManagerHandle.v
TransportContext.v
TransportManagerApi.v
BTreeMap.v
KademliaTypes.v
KBucket.v
RoutingTable.v
RoutingTableClosest.v
RoutingTableInvariant.v
KademliaStore.v
KademliaStoreFacts.v
KademliaCommands.v
KademliaMessage.v
KademliaQuery.v
QueryEngine.v
QueryFrontier.v
FindNodeFacts.v
GetRecordFacts.v
GetProvidersFacts.v
QueryEngineFacts.v
Varint.v
Multistream.v
LengthDelimited.v
Negotiation.v
NegotiationFacts.v
WebRtcNegotiation.v
ProtocolTypes.v
ProtocolSet.v
ProtocolSetFacts.v
TransportService.v
TransportServiceFacts.v
TransportServiceRuns.v
KeepAliveFacts.v
KademliaExecutor.v
KademliaHandle.v
Kademlia.v
KademliaLookups.v
KademliaFacts.v
KademliaRequests.v
KademliaSystem.v
KademliaStalled.v
KademliaService.v
KademliaRuns.v
HandshakeService.v
Notification.v
NotificationFacts.v
NotificationRuns.v
NotificationService.v
RequestResponse.v
RequestResponseFacts.v
RequestResponseHandle.v
RequestResponseService.v
WebRtcSubstream.v
WebRtcFraming.v
WebRtcStream.v
WebRtcTeardown.v
AsyncIo.v
FramedSubstream.v
FramedSubstreamFacts.v
FramedWebRtc.v
NoiseSocket.v
NoiseSocketFacts.v
NoiseStream.v
