(* ===== verification/Prelude.v ===== *)
(** * A verification of litep2p

    litep2p ([src/src/]) is a peer-to-peer networking library. A transport manager owns the
    connections: it chooses addresses to dial, runs a state machine per peer, enforces
    connection limits and turns the events of the transports (TCP, QUIC, WebSocket, WebRTC)
    into events for the protocols. Each protocol holds a transport service, by which it opens
    substreams and learns of connections. Of the protocols, Kademlia, the distributed hash table,
    keeps a routing table, a store of records and providers, and an engine of iterative queries;
    notifications and requests with responses are generic protocols for the user. Every
    connection and substream starts with multistream-select, by which the two ends agree on a
    protocol; bytes pass through encrypted sockets and through substreams that cut them into
    frames. This library models these subsystems as executable functions, composes them as the
    code does, and proves what makes them correct.

    ** Conventions

    A Rust function is a function of the same name (with a prefix where two components use
    the same one). [&mut self] is state passing. [Result] is [result]; a function that can
    panic ([expect], [panic!], indexing) returns an [outcome], whose [Panic] is that panic, so
    "never panics" is a theorem and not an assumption. Whether [debug_assert!] is compiled in is a
    flag of the components that use it ([DebugAssertions] for the manager, the argument [debug]
    elsewhere). Commands a component sends on channels
    are returned as lists of effects. The clock, random identifiers and the answers of other
    tasks are arguments. The iteration order of [HashMap] and [HashSet] is a parameter of
    which only "every entry once" is known ([HashOrder]). Integers are [Z] or [N] with their
    width written out where the code saturates, wraps or compares against it. Third-party
    code is a type class with what the code relies on as laws: [MultihashLib], [IpNetwork],
    [Sha256], [MultiaddrBytes], [MessageCodec], [Transports], [CommandChannel],
    [UnsignedVarint], [WebRtcSchema], [NoiseTransport], and the byte streams of the operating
    system and of the multiplexers, [AsyncIo]; each has a concrete instance, with which the witnesses of the theorems are computed.

    ** The transport manager ([src/src/transport/manager/], [peer_id.rs], [addresses.rs])

    - [Multiaddr]: multiaddresses and peer identifiers. An identifier survives its bytes and
      matches the key it was made from.
    - [PublicAddresses]: the public addresses of the node ([addresses.rs]).
    - [AddressStore]: scored addresses of a peer ([address.rs]). Insertion on every branch, the
      capacity bound, and that [addresses] returns the best ones.
    - [PeerState]: the state machine of a peer ([peer_state.rs]). It refines a specification with
      two connection slots and one pending dial; the transitions are characterised exactly.
    - [ConnectionLimits]: the limits ([limits.rs]) are never exceeded and the dial capacity is exact.
    - [TransportManager]: the manager's state, its operations and one turn of its event loop
      ([mod.rs], [TransportManager::next]).
    - [TransportManagerFacts], [TransportManagerSafety]: the invariant of the manager, that every
      run of the event loop keeps it, and when a run panics: never in a build without debug
      assertions, as long as the transports and the dialed addresses meet their contract; with
      them, exactly when it reaches one of the three failing assertions, which a race between an
      inbound connection and a dial does.
    - [TransportManagerDial]: what happens to a dialed peer whose connection the limits reject.
    - [TransportManagerLive]: the live connections of all peers stay within the limits.
    - [TransportManagerHandle]: the handle given to protocols ([handle.rs]): known addresses, local
      addresses, dialing.
    - [TransportContext]: polling the transports in turn is fair.
    - [TransportManagerApi]: dialing a peer, closing connections, registering protocols.

    ** Kademlia ([src/src/protocol/libp2p/kademlia/])

    - [BTreeMap]: ordered maps as sorted lists.
    - [KademliaTypes]: keys, XOR distance, peers and their schema form ([types.rs]).
    - [KBucket], [RoutingTable]: buckets, the routing table and the iterator over buckets in order
      of distance ([bucket.rs], [routing_table.rs]).
    - [RoutingTableClosest]: [closest] returns the closest nodes of the table, in order.
    - [RoutingTableInvariant]: every sequence of operations keeps the table well formed; adding a
      peer on every branch; a lookup can cost a known peer its place.
    - [KademliaStore], [KademliaStoreFacts]: records and providers ([record.rs], [store.rs]): bounds
      (for at least one provider per key, without which there is none), the
      binary-search insertion against a reference insertion, expiry, refresh timers.
    - [KademliaCommands]: the targets of [PutRecordToPeers] ([mod.rs]).
    - [KademliaMessage]: messages and their decoding ([message.rs]); the round trip of records.
    - [KademliaQuery], [QueryEngine]: the query contexts and the engine ([query/]).
    - [QueryFrontier]: the invariant the iterative queries share.
    - [FindNodeFacts], [GetRecordFacts], [GetProvidersFacts]: for any interleaving of responses,
      failures and polls, a query asks no peer twice, is never stuck, ends only when it should
      and returns the closest responders, one record per peer, or all providers.
    - [QueryEngineFacts]: the engine never panics and ends each query once; quorums.
    - [KademliaExecutor], [KademliaHandle]: the exchanges over substreams ([executor.rs]), the
      configuration and the user's handle ([config.rs], [handle.rs]).
    - [Kademlia]: the event loop ([mod.rs]), every handler and every branch of its [select!], over any
      transport service.
    - [KademliaLookups], [KademliaFacts], [KademliaRequests]: what the loop keeps of the queries, its
      own invariant, and for every peer a query waits for the dial, substream or exchange that
      will answer, or the branch that lost it.
    - [KademliaSystem], [KademliaService], [KademliaStalled], [KademliaRuns]: the loop, the user's handle and
      the transport service, composed. Every query is accounted for, a query that is not answered
      waits for something under way, no turn panics or goes on for ever, and a reply that does
      not decode stalls a lookup.

    ** Multistream-select ([src/src/multistream_select/])

    - [Varint]: the unsigned-varint crate, as a class with LEB128 as the reference encoding.
    - [Multistream]: the messages ([protocol.rs]). Decoding accepts exactly the encodings of
      well-formed messages.
    - [LengthDelimited]: the framed reader and writer ([length_delimited.rs]) over an arbitrary
      sequence of answers of the underlying stream. What is sent is read, however the bytes
      are split.
    - [Negotiation]: the futures of the dialer and of the listener and the poll of a lazily
      negotiated stream ([dialer_select.rs], [listener_select.rs], [negotiated.rs]), one
      iteration of their loops at a time, over the messages of the framing.
    - [NegotiationFacts]: a dialer and a listener joined by two reliable channels. In every
      interleaving of their iterations, in both versions of the protocol, they stop without
      panicking and agree on the first protocol of the dialer that the listener supports.
    - [WebRtcNegotiation]: the variant over WebRTC data channels and the rounds the connection
      runs with it ([src/src/transport/webrtc/connection.rs]). The two ends agree likewise.

    ** Protocols and the transport service ([src/src/protocol/])

    - [ProtocolTypes]: the events of the service and its contract, against which the protocols are
      proved.
    - [ProtocolSet], [ProtocolSetFacts]: connection handles and what a connection offers and reports
      ([connection.rs], [protocol_set.rs]).
    - [TransportService], [TransportServiceFacts], [TransportServiceRuns]: the service
      ([transport_service.rs]) refines the contract, and every substream it is asked for gets one
      result. [KeepAliveFacts]: idle connections are let go, and only those.
    - [HandshakeService], [Notification], [NotificationFacts], [NotificationRuns]: the notification protocol and
      its handshakes ([notification/]): none of its assertions fails, what the user is told, and
      runs that go wrong. [NotificationService]: over the transport service.
    - [RequestResponse], [RequestResponseFacts], [RequestResponseHandle], [RequestResponseService]: requests
      and responses ([request_response/]): safety and the account of every request, from the user's
      handle down to the transport service.

    ** Byte streams ([src/src/transport/webrtc/], [src/src/substream/], [src/src/crypto/noise/])

    - [WebRtcSubstream], [WebRtcFraming], [WebRtcStream], [WebRtcTeardown]: both halves of a WebRTC substream,
      its messages on the wire, two ends joined by a data channel, and the end of a substream that
      its protocol dropped, whatever messages still arrive.
    - [AsyncIo]: what the layers above ask of a byte stream, with the history of what was read and
      written.
    - [FramedSubstream], [FramedSubstreamFacts]: the substream of a protocol ([substream/mod.rs]). With an
      identity codec of at most 1024 bytes or a varint codec with a limit, frames arrive as they
      were sent, over any stream, and the bytes that wait are bounded.
    - [FramedWebRtc]: a WebRTC substream is such a stream, and frames arrive over it.
    - [NoiseSocket], [NoiseSocketFacts], [NoiseStream]: the encrypted socket ([noise/mod.rs]). What is
      written at one end is read at the other, nothing the remote sends makes it panic, and
      a write of a whole chunk is refused; a read-ahead factor of zero is not usable.

    ** Bounds and fuel

    [RoutingTable.iter_collect] collects the bucket iterator with fuel [ITER_FUEL] = 514:
    the iterator yields at most the 256 buckets on the way in and 256 on the way out, and
    [RoutingTableClosest] proves that the fuel is not exhausted. [KademliaStore.search_loop]
    has the length of the slice as fuel, more than the halvings it makes, and
    [binary_search_spec] shows the result. [Multistream.decode_protocols] makes at most
    [MAX_PROTOCOLS] + 1 rounds, which [decode_protocols_fuel] shows to be enough.
    [LengthDelimited.read_loop] has one more than the bytes left as fuel, and
    [WebRtcNegotiation.register_loop] one more than the bytes of the response: each round
    consumes at least one ([ld_poll_next_total], [wd_register_response_total]).
    [WebRtcNegotiation.handshake] makes one round per name. [HandshakeService] polls an entry at most
    [ENTRY_FUEL] = 4 times, since each time its state advances. [WebRtcFraming.extract_frames] has one more than
    the bytes of the buffer. Loops over streams take their fuel from what is left to do, and
    their theorems are for any fuel above it: [Kademlia.k_poll_engine] above [engine_measure],
    [FramedSubstream.fs_poll_next] above the bytes that can be read ([io_ready]), [NoiseSocket.ns_poll_read] above
    [read_measure]; [fs_poll_flush] and [ns_drain_all] compute it from the bytes that wait.
    [NoiseSocket.chunks] has the length of what it cuts. All other recursion is structural.

    ** Not modelled

    Socket I/O, task spawning, wakers, logging and metrics; the cryptographic handshakes and the
    arithmetic of ciphers; protobuf and multiaddress encodings (parameters). The read and write
    pass-through of a negotiated stream and of a substream, the setters of the configuration
    builders, the notification protocol's handle and connection task, yamux, and the bitswap,
    identify, ping and mDNS protocols are not part of the library. *)

(** ** Prelude

    Results and outcomes, machine integers, hash containers, sorting, and the lemmas and
    tactics the components share. *)

From stdpp Require Import base tactics option list gmap strings sorting.
From Stdlib Require Import ZArith NArith Lia Init.Byte Strings.Byte.

#[export] Set Default Proof Using "Type".

(** ** Fallible computations *)

(** Rust's [Result<A, E>]. *)
Inductive result (E A : Type) : Type :=
| Ok (a : A)
| Err (e : E).
Arguments Ok {E A} a.
Arguments Err {E A} e.

(** A computation that either returns or panics ([expect], [panic!], [assert!],
    an out-of-range index). *)
Inductive outcome (A : Type) : Type :=
| Done (a : A)
| Panic.
Arguments Done {A} a.
Arguments Panic {A}.

(** Rust's [Poll]. *)
Inductive Poll (A : Type) : Type := Pending | Ready (a : A).
Arguments Pending {A}.
Arguments Ready {A} a.

#[export] Instance Poll_eq_dec `{EqDecision A} : EqDecision (Poll A).
Proof. solve_decision. Defined.

Definition result_bind {E A B} (m : result E A) (k : A → result E B) : result E B :=
  match m with Ok a => k a | Err e => Err e end.

Definition outcome_bind {A B} (m : outcome A) (k : A → outcome B) : outcome B :=
  match m with Done a => k a | Panic => Panic end.

Definition is_ok {E A} (r : result E A) : bool :=
  match r with Ok _ => true | Err _ => false end.

Definition is_done {A} (m : outcome A) : bool :=
  match m with Done _ => true | Panic => false end.

Definition ok {E A} (r : result E A) : option A :=
  match r with Ok a => Some a | Err _ => None end.

Declare Scope litep2p_scope.
Delimit Scope litep2p_scope with litep2p.

Notation "'try' x '<-' m ';;' k" := (result_bind m (λ x, k))
  (at level 100, x pattern, m at level 90, k at level 200,
   format "'try'  x  '<-'  m  ';;' '//' k") : litep2p_scope.
Notation "'run' x '<-' m ';;' k" := (outcome_bind m (λ x, k))
  (at level 100, x pattern, m at level 90, k at level 200,
   format "'run'  x  '<-'  m  ';;' '//' k") : litep2p_scope.

#[export] Instance result_eq_dec `{EqDecision E, EqDecision A} : EqDecision (result E A).
Proof. solve_decision. Defined.
#[export] Instance outcome_eq_dec `{EqDecision A} : EqDecision (outcome A).
Proof. solve_decision. Defined.

(** A check of [debug_assert!]: a panic when debug assertions are compiled in. *)
Definition debug_assert {A} (debug : bool) (P : Prop) `{Decision P} (m : outcome A) : outcome A :=
  if debug then (if decide P then m else Panic) else m.

(** [outcome_fold f xs a] threads [a] through a loop whose body may panic. *)
Fixpoint outcome_fold {A B} (f : B → A → outcome B) (xs : list A) (b : B) : outcome B :=
  match xs with
  | [] => Done b
  | x :: xs => outcome_bind (f b x) (outcome_fold f xs)
  end.

(** ** Machine integers *)

Definition i32_min : Z := (- 2 ^ 31)%Z.
Definition i32_max : Z := (2 ^ 31 - 1)%Z.
Definition i32 (z : Z) : Prop := (i32_min ≤ z ≤ i32_max)%Z.
(** [i32::saturating_add] *)
Definition i32_saturating_add (a b : Z) : Z := (Z.max i32_min (Z.min i32_max (a + b)))%Z.

Definition usize_max : N := (2 ^ 64 - 1)%N.
(** Wrapping addition on [usize], as [AtomicUsize::fetch_add] performs it. *)
Definition usize_wrapping_add (a b : N) : N := ((a + b) mod 2 ^ 64)%N.

Lemma wrapping_succ n : (n < usize_max)%N → usize_wrapping_add n 1 = (n + 1)%N.
Proof. unfold usize_wrapping_add, usize_max. intros. apply N.mod_small. lia. Qed.
Lemma wrapping_le n : (usize_wrapping_add n 1 ≤ n + 1)%N.
Proof. unfold usize_wrapping_add. apply N.Div0.mod_le. Qed.

Lemma i32_saturating_add_range a b : i32 (i32_saturating_add a b).
Proof. unfold i32, i32_saturating_add, i32_min, i32_max. lia. Qed.

Lemma i32_saturating_add_mono a b : i32 a → (0 ≤ b)%Z → (a ≤ i32_saturating_add a b)%Z.
Proof. unfold i32, i32_saturating_add, i32_min, i32_max. lia. Qed.

(** ** Bytes *)

#[export] Instance byte_eq_dec : EqDecision byte := Byte.byte_eq_dec.
#[export] Program Instance byte_countable : Countable byte :=
  inj_countable Byte.to_N Byte.of_N _.
Next Obligation. intros b. apply Byte.of_to_N. Qed.

(** ** Buffers *)

(** [buf[pos..pos + n] = bs], where [n] is the length of [bs]. *)
Definition overwrite (buf : list byte) (pos : nat) (bs : list byte) : list byte :=
  take pos buf ++ bs ++ drop (pos + length bs) buf.

Lemma overwrite_length buf pos bs : pos + length bs ≤ length buf → length (overwrite buf pos bs) = length buf.
Proof. intros Hl. unfold overwrite. rewrite !length_app, length_take, length_drop. lia. Qed.

(** What was written before the position stays, and what is written follows it. *)
Lemma overwrite_take buf pos bs : pos ≤ length buf →
  take (pos + length bs) (overwrite buf pos bs) = take pos buf ++ bs.
Proof.
  intros Hl. unfold overwrite. rewrite app_assoc. apply take_app_length'. rewrite length_app, length_take. lia.
Qed.

(** ** Hash containers

    The iteration order of [HashMap] and [HashSet] is unspecified: it is a parameter of
    the model, of which only "every entry exactly once" is assumed. *)
Class HashOrder : Type := {
  map_order : ∀ {K A} `{Countable K}, gmap K A → list (K * A);
  map_order_perm : ∀ {K A} `{Countable K} (m : gmap K A), map_order m ≡ₚ map_to_list m;
}.

(** One concrete order, used where a model is run. *)
Definition canonical_order : HashOrder := {|
  map_order K A _ _ m := map_to_list m;
  map_order_perm K A _ _ m := reflexivity _;
|}.

Lemma map_order_elem `{HashOrder} {K A} `{Countable K} (m : gmap K A) i x :
  (i, x) ∈ map_order m ↔ m !! i = Some x.
Proof. rewrite map_order_perm. apply elem_of_map_to_list. Qed.

Lemma map_order_values_elem `{HashOrder} {K A} `{Countable K} (m : gmap K A) x :
  x ∈ (map_order m).*2 ↔ ∃ i, m !! i = Some x.
Proof.
  rewrite list_elem_of_fmap. setoid_rewrite <- map_order_elem.
  split; [intros ([i y] & -> & ?); eauto|intros [i ?]; exists (i, x); eauto].
Qed.

Lemma map_order_keys_nodup `{HashOrder} {K A} `{Countable K} (m : gmap K A) :
  NoDup (map_order m).*1.
Proof. rewrite map_order_perm. apply NoDup_fst_map_to_list. Qed.

Lemma map_order_length `{HashOrder} {K A} `{Countable K} (m : gmap K A) :
  length (map_order m) = size m.
Proof. by rewrite map_order_perm, length_map_to_list. Qed.

(** The elements of a [HashSet] in iteration order. *)
Definition set_order `{HashOrder} {A} `{Countable A} (s : gset A) : list A :=
  (map_order (gset_to_gmap tt s)).*1.

Lemma set_order_elem `{HashOrder} {A} `{Countable A} (s : gset A) x : x ∈ set_order s ↔ x ∈ s.
Proof.
  unfold set_order. rewrite list_elem_of_fmap. split.
  - intros ([y []] & -> & Hin%map_order_elem%lookup_gset_to_gmap_Some). naive_solver.
  - intros Hx. exists (x, tt). split; [done|]. by apply map_order_elem, lookup_gset_to_gmap_Some.
Qed.

Lemma set_order_nodup `{HashOrder} {A} `{Countable A} (s : gset A) : NoDup (set_order s).
Proof. apply map_order_keys_nodup. Qed.

Lemma set_order_length `{HashOrder} {A} `{Countable A} (s : gset A) :
  length (set_order s) = size s.
Proof. unfold set_order. by rewrite length_fmap, map_order_length, <- size_dom, dom_gset_to_gmap. Qed.

(** ** Sorting

    [slice::sort_by_key], a stable sort by an integer key. *)
Section sort_by_key.
Context {A : Type} (key : A → Z).
Implicit Types (l : list A) (x y : A).

Fixpoint insert_by_key x l : list A :=
  match l with
  | [] => [x]
  | y :: l' => if (key x <=? key y)%Z then x :: l else y :: insert_by_key x l'
  end.

Fixpoint sort_by_key l : list A :=
  match l with
  | [] => []
  | x :: l => insert_by_key x (sort_by_key l)
  end.

Definition key_le x y : Prop := (key x ≤ key y)%Z.

Lemma insert_by_key_perm x l : insert_by_key x l ≡ₚ x :: l.
Proof.
  induction l as [|y l IH]; simpl; [done|].
  destruct (_ <=? _)%Z; [done|]. rewrite IH. by constructor.
Qed.

Lemma sort_by_key_perm l : sort_by_key l ≡ₚ l.
Proof. induction l as [|x l IH]; simpl; [done|]. by rewrite insert_by_key_perm, IH. Qed.

Lemma sort_by_key_length l : length (sort_by_key l) = length l.
Proof. by rewrite sort_by_key_perm. Qed.

Lemma sort_by_key_elem x l : x ∈ sort_by_key l ↔ x ∈ l.
Proof. by rewrite sort_by_key_perm. Qed.

Lemma insert_by_key_sorted x l :
  StronglySorted key_le l → StronglySorted key_le (insert_by_key x l).
Proof.
  induction 1 as [|y l Hl IH Hy]; simpl; [repeat constructor|].
  destruct (Z.leb_spec (key x) (key y)).
  - constructor; [by constructor|]. constructor; [done|].
    eapply Forall_impl; [done|]. unfold key_le. intros; lia.
  - constructor; [done|]. rewrite insert_by_key_perm.
    constructor; [unfold key_le; lia|done].
Qed.

Lemma sort_by_key_sorted l : StronglySorted key_le (sort_by_key l).
Proof. induction l; simpl; [constructor|]. by apply insert_by_key_sorted. Qed.

(** Stability: the elements of any one key keep their order. *)
Lemma sort_by_key_stable k l :
  filter (λ x, key x = k) (sort_by_key l) = filter (λ x, key x = k) l.
Proof.
  assert (∀ x l, filter (λ x, key x = k) (insert_by_key x l) =
                 filter (λ x, key x = k) (x :: l)) as Hins.
  { intros x l'. induction l' as [|y l' IH]; [done|]. simpl.
    destruct (Z.leb_spec (key x) (key y)); [done|].
    rewrite !filter_cons, IH, filter_cons. repeat case_decide; lia || done. }
  induction l as [|x l IH]; [done|]. simpl. rewrite Hins, !filter_cons, IH. done.
Qed.

Lemma sorted_take_drop n l :
  StronglySorted key_le l → ∀ x y, x ∈ take n l → y ∈ drop n l → (key x ≤ key y)%Z.
Proof.
  intros Hs. revert n. induction Hs as [|z l Hl IH Hz]; intros [|n] x y; simpl;
    try (intros Hx; by inversion Hx).
  intros [->|Hx]%elem_of_cons Hy; [|by eapply IH].
  rewrite Forall_forall in Hz. apply Hz, (subseteq_drop n), Hy.
Qed.
End sort_by_key.

Lemma StronglySorted_take {A} (R : relation A) n l :
  StronglySorted R l → StronglySorted R (take n l).
Proof.
  intros Hs. revert n. induction Hs as [|x l Hl IH Hx]; intros [|n]; simpl; constructor; auto.
  by apply Forall_take.
Qed.

Lemma StronglySorted_fmap {A B} (f : A → B) (R : relation B) (l : list A) :
  StronglySorted (λ x y, R (f x) (f y)) l → StronglySorted R (f <$> l).
Proof.
  induction 1 as [|x l Hl IH Hx]; simpl; constructor; [done|]. by apply Forall_fmap.
Qed.

Lemma StronglySorted_impl_elem {A} (R R' : relation A) (l : list A) :
  (∀ x y, x ∈ l → y ∈ l → R x y → R' x y) → StronglySorted R l → StronglySorted R' l.
Proof.
  intros HR Hs. induction Hs as [|x l Hl IH Hx]; constructor.
  - apply IH. intros; apply HR; [by right..|done].
  - rewrite Forall_forall in *. intros y Hy. apply HR; [left|by right|auto].
Qed.

Lemma StronglySorted_filter {A} (R : relation A) (P : A → Prop) `{∀ x, Decision (P x)} l :
  StronglySorted R l → StronglySorted R (filter P l).
Proof.
  induction 1 as [|x l Hl IH Hx]; [constructor|]. rewrite filter_cons. case_decide; [|done].
  constructor; [done|]. rewrite Forall_forall in *. intros y [_ ?]%list_elem_of_filter. auto.
Qed.

(** Sorted parts, each before the next. *)
Lemma StronglySorted_mjoin {A B} (f : A → list B) (R : relation B) (l : list A) :
  (∀ x, x ∈ l → StronglySorted R (f x)) →
  StronglySorted (λ x y, ∀ a b, a ∈ f x → b ∈ f y → R a b) l →
  StronglySorted R (mjoin (f <$> l)).
Proof.
  intros Hf Hs. induction Hs as [|x l Hl IH Hx]; simpl; [constructor|].
  apply StronglySorted_app_2; [|apply Hf; by left|apply IH; intros; apply Hf; by right].
  intros a b Ha (bs & Hb & (y & -> & Hy)%list_elem_of_fmap)%list_elem_of_join.
  rewrite Forall_forall in Hx. by eapply Hx.
Qed.

Lemma seq_sorted i n : StronglySorted lt (seq i n).
Proof.
  revert i. induction n as [|n IH]; intros i; simpl; constructor; [done|].
  apply Forall_forall. intros y Hy%elem_of_seq. lia.
Qed.

Lemma rev_sorted {A} (R : relation A) (l : list A) :
  StronglySorted R l → StronglySorted (λ x y, R y x) (rev l).
Proof.
  induction 1 as [|x l Hl IH Hx]; simpl; [constructor|].
  apply StronglySorted_app_2; [|done|repeat constructor].
  intros a b Ha ->%list_elem_of_singleton. rewrite Forall_forall in Hx. apply Hx.
  by apply list_elem_of_In, in_rev, list_elem_of_In.
Qed.

Lemma StronglySorted_lookup {A} (R : relation A) (l : list A) i j x y :
  StronglySorted R l → l !! i = Some x → l !! j = Some y → i < j → R x y.
Proof.
  intros Hs. revert i j. induction Hs as [|z l Hl IH Hz]; intros i j Hi Hj Hlt; [done|].
  destruct j as [|j]; [lia|]. destruct i as [|i]; simpl in *; [|eapply IH; [done..|lia]].
  injection Hi as <-. rewrite Forall_forall in Hz. apply Hz. by eapply list_elem_of_lookup_2.
Qed.

(** [Iterator::take] with a [usize] count; counts larger than the list are cut down to it
    first, so that [usize::MAX] evaluates. *)
Definition take_N {A} (n : N) (l : list A) : list A :=
  take (N.to_nat (N.min n (N.of_nat (length l)))) l.

Lemma take_N_take {A} n (l : list A) : take_N n l = take (N.to_nat n) l.
Proof.
  unfold take_N. destruct (N.le_gt_cases n (N.of_nat (length l))).
  - by rewrite N.min_l.
  - rewrite N.min_r, Nat2N.id by lia. rewrite !take_ge by lia. done.
Qed.

(** [Iterator::min] by key: the first least element. *)
Definition min_by_key {A} (key : A → Z) (l : list A) : option A :=
  match l with
  | [] => None
  | x :: l => Some (foldl (λ m y, if (key y <? key m)%Z then y else m) x l)
  end.

Lemma min_by_key_spec {A} (key : A → Z) (l : list A) m :
  min_by_key key l = Some m → m ∈ l ∧ ∀ x, x ∈ l → (key m ≤ key x)%Z.
Proof.
  destruct l as [|x l]; simpl; [done|]. intros [= <-].
  revert x. induction l as [|y l IH]; intros x; simpl.
  { split; [set_solver|]. intros z Hz. apply list_elem_of_singleton in Hz. subst; lia. }
  destruct (Z.ltb_spec (key y) (key x)) as [Hlt|Hge].
  - destruct (IH y) as [Hin Hmin]. split; [set_solver|]. intros z Hz.
    apply elem_of_cons in Hz as [->|Hz]; [|auto].
    specialize (Hmin y). set_unfold. specialize (Hmin (or_introl eq_refl)). lia.
  - destruct (IH x) as [Hin Hmin]. split; [set_solver|]. intros z Hz.
    set_unfold. destruct Hz as [->|[->|Hz]]; eauto.
    specialize (Hmin x (or_introl eq_refl)). lia.
Qed.

Lemma min_by_key_is_Some {A} (key : A → Z) (l : list A) :
  l ≠ [] → is_Some (min_by_key key l).
Proof. destruct l; simpl; [done|eauto]. Qed.

(** ** Automation *)

Lemma length_omap_le {A B} (f : A → option B) (l : list A) : length (omap f l) ≤ length l.
Proof. induction l as [|x l IH]; simpl; [done|]. destruct (f x); simpl; auto with arith. Qed.

Lemma filter_keep {A} (P : A → Prop) `{∀ x, Decision (P x)} (l : list A) :
  (∀ x, x ∈ l → P x) → filter P l = l.
Proof.
  induction l as [|x l IH]; intros Hl; [done|]. rewrite filter_cons_True by set_solver.
  rewrite IH; set_solver.
Qed.

(** What every step preserves, every run preserves. *)
Lemma rtc_invariant {A} (R : relation A) (P : A → Prop) :
  (∀ x y, R x y → P x → P y) → ∀ x y, rtc R x y → P x → P y.
Proof. intros HR x y Hxy. induction Hxy as [|x y z Hxy _ IH]; [done|]. eauto. Qed.

(** Runs of a labelled step relation, with their traces. *)
Inductive steps {S A} (R : S → A → S → Prop) : S → list A → S → Prop :=
| steps_nil s : steps R s [] s
| steps_cons s a s1 tr s2 : R s a s1 → steps R s1 tr s2 → steps R s (a :: tr) s2.

(** A forward simulation carries runs over, with the same trace. *)
Lemma steps_simulation {S T A} (R : S → A → S → Prop) (Q : T → A → T → Prop) (sim : S → T → Prop) :
  (∀ s a s' t, R s a s' → sim s t → ∃ t', Q t a t' ∧ sim s' t') →
  ∀ s tr s' t, steps R s tr s' → sim s t → ∃ t', steps Q t tr t' ∧ sim s' t'.
Proof.
  intros HR s tr s' t Hs. revert t. induction Hs as [s|s a s1 tr s2 Hs _ IH]; intros t Hsim.
  { exists t. split; [constructor|done]. }
  destruct (HR s a s1 t Hs Hsim) as (t1 & Ht1 & Hsim1). destruct (IH t1 Hsim1) as (t2 & Ht2 & ?).
  exists t2. split; [by econstructor|done].
Qed.

(** An invariant of the state and of what happened before. *)
Lemma steps_history {S A} (R : S → A → S → Prop) (P : list A → S → Prop) :
  (∀ tr s a s', P tr s → R s a s' → P (tr ++ [a]) s') →
  ∀ s tr s', P [] s → steps R s tr s' → P tr s'.
Proof.
  intros HR s tr s' HP Hs. change tr with ([] ++ tr). revert HP. generalize (@nil A).
  induction Hs as [s|s a s1 tr s2 Hs _ IH]; intros past HP; [by rewrite app_nil_r|].
  change (a :: tr) with ([a] ++ tr). rewrite app_assoc. eauto.
Qed.

(** The number of elements that satisfy a test. *)
Fixpoint count {A} (P : A → bool) (l : list A) : nat :=
  match l with
  | [] => 0
  | e :: l => (if P e then 1 else 0) + count P l
  end.

Lemma count_app {A} (P : A → bool) l l' : count P (l ++ l') = count P l + count P l'.
Proof. induction l; simpl; lia. Qed.

Lemma count_pos {A} (P : A → bool) l x : x ∈ l → P x = true → 1 ≤ count P l.
Proof.
  intros Hx HP. induction Hx as [l|x y l _ IH]; simpl; [rewrite HP; lia|]. specialize (IH HP). lia.
Qed.

(** A prefix of two lists ends in the first or in the second. *)
Lemma prefix_app_cases {A} (bs l1 l2 : list A) : bs `prefix_of` l1 ++ l2 →
  (bs `prefix_of` l1 ∧ bs ≠ l1) ∨ ∃ x, bs = l1 ++ x ∧ x `prefix_of` l2.
Proof.
  revert l1. induction bs as [|b bs IH]; intros [|a l1] Hp; cbn in *.
  - right. exists []. split; [done|apply prefix_nil].
  - left. split; [apply prefix_nil|done].
  - right. by exists (b :: bs).
  - pose proof (prefix_cons_inv_1 _ _ _ _ Hp) as ->. apply prefix_cons_inv_2 in Hp.
    destruct (IH _ Hp) as [[? ?]|(x & -> & ?)]; [left|right; eauto].
    split; [by apply prefix_cons|congruence].
Qed.

(** Lists of numbers are permutations of each other when they have the same elements as often;
    permutations in the context are used. *)
Lemma count_occ_cons_eq {A} (dec : ∀ x y : A, {x = y} + {x ≠ y}) a x l :
  count_occ dec (a :: l) x = (if dec a x then 1 else 0) + count_occ dec l x.
Proof. cbn. by destruct (dec a x). Qed.

Ltac solve_accounts :=
  apply (Permutation_count_occ N.eq_dec);
  let x := fresh "x" in intros x;
  repeat match goal with
  | H : _ ≡ₚ _ |- _ => pose proof (proj1 (Permutation_count_occ N.eq_dec _ _) H x); clear H
  end;
  rewrite ?omap_app, ?fmap_app, ?count_occ_app, ?count_occ_cons_eq in *; cbn [count_occ] in *; lia.

(** [alter] at a key that is present. *)
Lemma alter_present {A} `{Countable K} (f : A → A) (m : gmap K A) k x :
  m !! k = Some x → alter f k m = <[k := f x]> m.
Proof.
  intros Hk. apply map_eq. intros k'. destruct (decide (k' = k)) as [->|Hne].
  - by rewrite lookup_alter_eq, lookup_insert_eq, Hk.
  - by rewrite lookup_alter_ne, lookup_insert_ne.
Qed.

(** Take the [i]th entry out of a list. *)
Definition take_nth {A} (l : list A) (i : nat) : list A := take i l ++ drop (S i) l.

Lemma take_nth_elem {A} (l : list A) i x y : l !! i = Some x → y ∈ l → y = x ∨ y ∈ take_nth l i.
Proof.
  intros Hi Hy. unfold take_nth. rewrite <- (take_drop_middle l i x Hi) in Hy.
  rewrite elem_of_app, elem_of_cons in Hy. rewrite elem_of_app. naive_solver.
Qed.

Lemma take_nth_perm {A} (l : list A) i x : l !! i = Some x → l ≡ₚ x :: take_nth l i.
Proof.
  intros Hi. unfold take_nth. rewrite <- (take_drop_middle l i x Hi) at 1. symmetry. apply Permutation_middle.
Qed.

(** When a key identifies the entries, those that stay have other keys. *)
Lemma take_nth_other {A B} (key : A → B) (l : list A) i x y : NoDup (key <$> l) → l !! i = Some x →
  y ∈ take_nth l i → y ∈ l ∧ key y ≠ key x.
Proof.
  intros Hnd Hi Hy. pose proof (take_nth_perm l i x Hi) as Hl. rewrite Hl in Hnd. cbn in Hnd.
  apply NoDup_cons in Hnd as [Hnin _]. split; [rewrite Hl; by right|].
  intros Heq. apply Hnin. rewrite <- Heq. by apply list_elem_of_fmap_2.
Qed.

Lemma take_nth_length {A} (l : list A) i x : l !! i = Some x → S (length (take_nth l i)) = length l.
Proof.
  intros Hi. unfold take_nth. rewrite length_app, length_take, length_drop.
  apply lookup_lt_Some in Hi. lia.
Qed.

Lemma count_take_nth {A} (P : A → bool) l i x : l !! i = Some x →
  count P l = (if P x then 1 else 0) + count P (take_nth l i).
Proof.
  intros Hi. unfold take_nth. rewrite <- (take_drop_middle l i x Hi) at 1.
  rewrite !count_app. cbn. lia.
Qed.

Create HintDb litep2p.
#[export] Hint Resolve i32_saturating_add_range sort_by_key_sorted : litep2p.

(** Split every [match]/[if] of the goal, keeping the goals that are not contradictory. *)
Ltac split_matches :=
  repeat (case_match; simplify_eq/=); try done.
