(* ===== verification/Multiaddr.v ===== *)
(** * Multiaddresses and peer identifiers

    The data every component exchanges: multihashes, [PeerId] (src/src/peer_id.rs),
    and [Multiaddr], the sequence of protocol components of the [multiaddr] crate.
    The [multihash], [multihash-codetable] and [ip_network] crates are parameters
    ([MultihashLib], [IpNetwork]). *)

From stdpp Require Import base tactics option list gmap strings.
From Stdlib Require Import ZArith NArith Lia Init.Byte.
From S2P Require Import Prelude.

Local Open Scope litep2p_scope.

(** ** Multihashes *)

Record Multihash := mkMultihash { mh_code : N; mh_digest : list byte }.

#[export] Instance Multihash_eq_dec : EqDecision Multihash.
Proof. solve_decision. Defined.
#[export] Program Instance Multihash_countable : Countable Multihash :=
  inj_countable' (λ m, (mh_code m, mh_digest m)) (λ p, mkMultihash p.1 p.2) _.
Next Obligation. by intros []. Qed.

(** [u64::from(Code::Sha2_256)] *)
Definition SHA2_256_CODE : N := 18.
Definition MULTIHASH_IDENTITY_CODE : N := 0.
Definition MAX_INLINE_KEY_LENGTH : nat := 42.

(** The [multihash] crates: [Multihash::<64>::wrap], [from_bytes], [to_bytes] and the
    SHA2-256 digest of [multihash_codetable]. *)
Class MultihashLib : Type := {
  mh_wrap : N → list byte → option Multihash;
  mh_from_bytes : list byte → option Multihash;
  mh_to_bytes : Multihash → list byte;
  sha2_256 : list byte → Multihash;
}.

(** Their documented behaviour: [wrap] succeeds on digests of at most 64 bytes,
    [from_bytes] reads back what [to_bytes] writes, a SHA2-256 multihash has the code of
    the algorithm. *)
Class MultihashLaws (L : MultihashLib) : Prop := {
  mh_wrap_fits c d : length d ≤ 64 → mh_wrap c d = Some (mkMultihash c d);
  mh_from_to_bytes m : length (mh_digest m) ≤ 64 → mh_from_bytes (mh_to_bytes m) = Some m;
  sha2_256_code d : mh_code (sha2_256 d) = SHA2_256_CODE;
  sha2_256_length d : length (mh_digest (sha2_256 d)) = 32;
}.

(** ** Peer identifiers *)

Record PeerId := mkPeerId { multihash : Multihash }.

#[export] Instance PeerId_eq_dec : EqDecision PeerId.
Proof. solve_decision. Defined.
#[export] Program Instance PeerId_countable : Countable PeerId :=
  inj_countable' multihash mkPeerId _.
Next Obligation. by intros []. Qed.

(** [PeerId::from_multihash] *)
Definition from_multihash (m : Multihash) : result Multihash PeerId :=
  if decide (mh_code m = SHA2_256_CODE) then Ok (mkPeerId m)
  else if decide (mh_code m = MULTIHASH_IDENTITY_CODE ∧
                  length (mh_digest m) ≤ MAX_INLINE_KEY_LENGTH) then Ok (mkPeerId m)
  else Err m.

Section peer_id.
Context {L : MultihashLib}.

(** [PeerId::from_public_key_protobuf] *)
Definition from_public_key_protobuf (key_enc : list byte) : outcome PeerId :=
  if decide (length key_enc ≤ MAX_INLINE_KEY_LENGTH) then
    match mh_wrap MULTIHASH_IDENTITY_CODE key_enc with
    | Some m => Done (mkPeerId m)
    | None => Panic
    end
  else Done (mkPeerId (sha2_256 key_enc)).

Inductive PeerIdParseError := B58 | MultiHash.

(** [PeerId::from_bytes] *)
Definition PeerId_from_bytes (data : list byte) : result PeerIdParseError PeerId :=
  match mh_from_bytes data with
  | None => Err MultiHash
  | Some m =>
      match from_multihash m with
      | Ok p => Ok p
      | Err _ => Err MultiHash
      end
  end.

(** [PeerId::to_bytes] *)
Definition PeerId_to_bytes (p : PeerId) : list byte := mh_to_bytes (multihash p).

(** [PeerId::is_public_key], on the protobuf encoding of the key. *)
Definition is_public_key (p : PeerId) (enc : list byte) : outcome (option bool) :=
  if decide (mh_code (multihash p) = SHA2_256_CODE) then
    Done (Some (bool_decide (sha2_256 enc = multihash p)))
  else if decide (mh_code (multihash p) = MULTIHASH_IDENTITY_CODE) then
    match mh_wrap MULTIHASH_IDENTITY_CODE enc with
    | Some m => Done (Some (bool_decide (m = multihash p)))
    | None => Panic
    end
  else Done None.
End peer_id.

(** The multihashes a [PeerId] may hold. *)
Definition valid_peer_multihash (m : Multihash) : Prop :=
  mh_code m = SHA2_256_CODE ∨
  mh_code m = MULTIHASH_IDENTITY_CODE ∧ length (mh_digest m) ≤ MAX_INLINE_KEY_LENGTH.

Lemma from_multihash_valid m p :
  from_multihash m = Ok p ↔ valid_peer_multihash m ∧ p = mkPeerId m.
Proof.
  unfold from_multihash, valid_peer_multihash. repeat case_decide; naive_solver.
Qed.

(** ** Multiaddresses *)

(** [multiaddr::Protocol]. [P2p] carries a [multiaddr::PeerId], a multihash of one of the
    forms [valid_peer_multihash]; addresses are the bits of the IP address, big endian. *)
Inductive Protocol :=
| Ip4 (ip : N)
| Ip6 (ip : N)
| Dns (host : string)
| Dns4 (host : string)
| Dns6 (host : string)
| Tcp (port : N)
| Udp (port : N)
| QuicV1
| Ws (path : string)
| Wss (path : string)
| WebRTCDirect
| Certhash (hash : Multihash)
| P2p (peer : Multihash)
| OtherProtocol (code : N) (data : list byte).

#[export] Instance Protocol_eq_dec : EqDecision Protocol.
Proof. solve_decision. Defined.

Definition protocol_encode (p : Protocol) : N * (N + string + Multihash + list byte) :=
  match p with
  | Ip4 a => (0, inl (inl (inl a)))
  | Ip6 a => (1, inl (inl (inl a)))
  | Dns h => (2, inl (inl (inr h)))
  | Dns4 h => (3, inl (inl (inr h)))
  | Dns6 h => (4, inl (inl (inr h)))
  | Tcp a => (5, inl (inl (inl a)))
  | Udp a => (6, inl (inl (inl a)))
  | QuicV1 => (7, inl (inl (inl 0)))
  | Ws h => (8, inl (inl (inr h)))
  | Wss h => (9, inl (inl (inr h)))
  | WebRTCDirect => (10, inl (inl (inl 0)))
  | Certhash m => (11, inl (inr m))
  | P2p m => (12, inl (inr m))
  | OtherProtocol c d => (13 + c, inr d)
  end%N.

Definition protocol_decode (e : N * (N + string + Multihash + list byte)) : Protocol :=
  match e.2 with
  | inr d => OtherProtocol (e.1 - 13) d
  | inl (inr m) => if decide (e.1 = 11) then Certhash m else P2p m
  | inl (inl (inr h)) =>
      match e.1 with 2 => Dns h | 3 => Dns4 h | 4 => Dns6 h | 8 => Ws h | _ => Wss h end
  | inl (inl (inl a)) =>
      match e.1 with
      | 0 => Ip4 a | 1 => Ip6 a | 5 => Tcp a | 6 => Udp a | 7 => QuicV1 | _ => WebRTCDirect
      end
  end%N.

#[export] Program Instance Protocol_countable : Countable Protocol :=
  inj_countable' protocol_encode protocol_decode _.
Next Obligation. intros []; try done. unfold protocol_decode; simpl. f_equal. lia. Qed.

Notation Multiaddr := (list Protocol).

(** [std::matches!(p, Protocol::P2p(_))] *)
Definition is_p2p (p : Protocol) : bool := match p with P2p _ => true | _ => false end.

(** [Multiaddr::with]: append one component. *)
Definition with_protocol (a : Multiaddr) (p : Protocol) : Multiaddr := a ++ [p].

(** [std::matches!(address.iter().last(), Some(Protocol::P2p(_)))] *)
Definition ends_with_p2p (a : Multiaddr) : bool :=
  match last a with Some (P2p _) => true | _ => false end.

(** [PeerId::try_from_multiaddr] *)
Definition try_from_multiaddr (a : Multiaddr) : option PeerId :=
  match last a with
  | Some (P2p m) => ok (from_multihash m)
  | _ => None
  end.

(** The [ip_network] crate's classification of addresses. *)
Class IpNetwork : Type := {
  ip4_is_global : N → bool;
  ip6_is_global : N → bool;
}.

(** [is_global_multiaddr] *)
Fixpoint is_global_multiaddr `{IpNetwork} (a : Multiaddr) : bool :=
  match a with
  | [] => false
  | Ip4 ip :: _ => ip4_is_global ip
  | Ip6 ip :: _ => ip6_is_global ip
  | Dns _ :: _ | Dns4 _ :: _ | Dns6 _ :: _ => true
  | _ :: a => is_global_multiaddr a
  end.

Lemma last_with_protocol a p : last (with_protocol a p) = Some p.
Proof. apply last_snoc. Qed.

Lemma ends_with_p2p_with a m : ends_with_p2p (with_protocol a (P2p m)) = true.
Proof. unfold ends_with_p2p. by rewrite last_with_protocol. Qed.

Lemma ends_with_p2p_snoc a m : ends_with_p2p (a ++ [P2p m]) = true.
Proof. apply ends_with_p2p_with. Qed.

Lemma ends_with_p2p_elem a : ends_with_p2p a = true → ∃ m, P2p m ∈ a.
Proof.
  unfold ends_with_p2p. destruct (last a) as [[]|] eqn:E; try done.
  intros _. apply last_Some in E as [l ->]. exists peer. set_solver.
Qed.

Lemma try_from_multiaddr_with a p :
  valid_peer_multihash (multihash p) →
  try_from_multiaddr (with_protocol a (P2p (multihash p))) = Some p.
Proof.
  intros Hv. unfold try_from_multiaddr. rewrite last_with_protocol.
  destruct (from_multihash (multihash p)) as [q|] eqn:E.
  - apply from_multihash_valid in E as [_ ->]. by destruct p.
  - unfold from_multihash, valid_peer_multihash in *. repeat case_decide; naive_solver.
Qed.

#[export] Hint Resolve ends_with_p2p_with : litep2p.
#[export] Hint Rewrite last_with_protocol : litep2p.

(** ** Endpoints *)

(** [types::ConnectionId], a [usize]. *)
Notation ConnectionId := N.

(** [Endpoint] *)
Inductive Endpoint :=
| Dialer (address : Multiaddr) (connection_id : ConnectionId)
| Listener (address : Multiaddr) (connection_id : ConnectionId).

#[export] Instance Endpoint_eq_dec : EqDecision Endpoint.
Proof. solve_decision. Defined.

Definition endpoint_address (e : Endpoint) : Multiaddr :=
  match e with Dialer a _ | Listener a _ => a end.
Definition endpoint_connection_id (e : Endpoint) : ConnectionId :=
  match e with Dialer _ c | Listener _ c => c end.
Definition is_listener (e : Endpoint) : bool :=
  match e with Listener _ _ => true | _ => false end.

(** ** Peer identifiers and keys *)

Section peer_id_facts.
Context {L : MultihashLib} {Laws : MultihashLaws L}.

Lemma from_multihash_ok m : valid_peer_multihash m → from_multihash m = Ok (mkPeerId m).
Proof. intros. by apply from_multihash_valid. Qed.

Lemma PeerId_bytes_roundtrip m : valid_peer_multihash m → length (mh_digest m) ≤ 64 →
  PeerId_from_bytes (PeerId_to_bytes (mkPeerId m)) = Ok (mkPeerId m).
Proof using Laws.
  intros Hv Hl. unfold PeerId_from_bytes, PeerId_to_bytes. simpl.
  by rewrite mh_from_to_bytes, from_multihash_ok.
Qed.

Lemma from_public_key_cases key :
  from_public_key_protobuf key =
    Done (mkPeerId (if decide (length key ≤ MAX_INLINE_KEY_LENGTH)
                    then mkMultihash MULTIHASH_IDENTITY_CODE key else sha2_256 key)).
Proof using Laws.
  unfold from_public_key_protobuf, MAX_INLINE_KEY_LENGTH. case_decide; [|done].
  by rewrite mh_wrap_fits by lia.
Qed.
End peer_id_facts.

(** The identifier derived from a public key is a valid peer identifier, survives the
    round trip through bytes, and matches its key; when the key is short enough to be
    inlined, it matches no other key. *)
Theorem public_key_peer_id {L : MultihashLib} `{!MultihashLaws L} key :
  ∃ p, from_public_key_protobuf key = Done p ∧ valid_peer_multihash (multihash p) ∧
    PeerId_from_bytes (PeerId_to_bytes p) = Ok p ∧
    is_public_key p key = Done (Some true) ∧
    (length key ≤ MAX_INLINE_KEY_LENGTH → ∀ key', length key' ≤ 64 →
       is_public_key p key' = Done (Some (bool_decide (key' = key)))).
Proof.
  eexists. split; [apply from_public_key_cases|]. simpl.
  destruct (decide (length key ≤ MAX_INLINE_KEY_LENGTH)) as [Hk|Hk].
  - assert (length key ≤ 64) by (unfold MAX_INLINE_KEY_LENGTH in Hk; lia).
    assert (∀ key', length key' ≤ 64 →
      is_public_key (mkPeerId (mkMultihash MULTIHASH_IDENTITY_CODE key)) key' =
      Done (Some (bool_decide (key' = key)))) as Hi.
    { intros key' Hk'. unfold is_public_key. simpl. rewrite mh_wrap_fits by done.
      do 2 f_equal. apply bool_decide_ext. naive_solver. }
    split_and!; [by right|by apply PeerId_bytes_roundtrip; [right|]| |done].
    rewrite Hi by done. by rewrite bool_decide_true.
  - assert (valid_peer_multihash (sha2_256 key)) by (left; apply sha2_256_code).
    split_and!; [done| | |done].
    + apply PeerId_bytes_roundtrip; [done|]. rewrite sha2_256_length. lia.
    + unfold is_public_key. simpl. rewrite sha2_256_code. simpl. by rewrite bool_decide_true.
Qed.

(** A toy instance of the library: unary codes, constant digests. *)
Fixpoint toy_decode (code : N) (bs : list byte) : option Multihash :=
  match bs with
  | [] => None
  | Byte.x00 :: d => Some (mkMultihash code d)
  | _ :: bs => toy_decode (code + 1) bs
  end.

Definition toy_multihash : MultihashLib := {|
  mh_wrap c d := if decide (length d ≤ 64) then Some (mkMultihash c d) else None;
  mh_from_bytes := toy_decode 0;
  mh_to_bytes m := replicate (N.to_nat (mh_code m)) Byte.x01 ++ Byte.x00 :: mh_digest m;
  sha2_256 _ := mkMultihash SHA2_256_CODE (replicate 32 Byte.x00);
|}.

Lemma toy_decode_replicate n : ∀ c d,
  toy_decode c (replicate n Byte.x01 ++ Byte.x00 :: d) = Some (mkMultihash (c + N.of_nat n) d).
Proof.
  induction n as [|n IH]; intros c d; simpl; [by rewrite N.add_0_r|].
  rewrite IH. do 2 f_equal. lia.
Qed.

Lemma toy_multihash_laws : MultihashLaws toy_multihash.
Proof.
  split; simpl.
  - intros c d ?. by rewrite decide_True.
  - intros [c d] _. simpl. rewrite toy_decode_replicate. do 2 f_equal. lia.
  - done.
  - intros _. done.
Qed.

Lemma public_key_peer_id_witness :
  ∃ p, @from_public_key_protobuf toy_multihash [Byte.x08; Byte.x01] = Done p ∧
       @is_public_key toy_multihash p [Byte.x08; Byte.x01] = Done (Some true).
Proof.
  destruct (@public_key_peer_id toy_multihash toy_multihash_laws [Byte.x08; Byte.x01])
    as (p & H1 & _ & _ & H4 & _).
  by exists p.
Defined.
