(* ===== verification/PublicAddresses.v ===== *)
(** * Public addresses of the node

    [PublicAddresses] of [src/src/addresses.rs]: the set of addresses the identify protocol
    reports, each of which ends with the local peer. *)

From stdpp Require Import base tactics option list gmap strings.
From Stdlib Require Import NArith Lia Init.Byte.
From S2P Require Import Prelude Multiaddr.

Local Open Scope litep2p_scope.

Inductive InsertionError := EmptyAddress | DifferentPeerId.

Record PublicAddresses := mkPublicAddresses {
  inner : gset Multiaddr;
  local_peer : PeerId;
}.

(** [PublicAddresses::new] *)
Definition PublicAddresses_new (local : PeerId) : PublicAddresses := mkPublicAddresses ∅ local.

(** [ensure_local_peer] *)
Definition ensure_local_peer (a : Multiaddr) (local : PeerId) : result InsertionError Multiaddr :=
  match a with
  | [] => Err EmptyAddress
  | _ =>
      match try_from_multiaddr a with
      | Some p => if decide (p ≠ local) then Err DifferentPeerId else Ok a
      | None => Ok (with_protocol a (P2p (multihash local)))
      end
  end.

(** [PublicAddresses::add_address] *)
Definition add_address (pa : PublicAddresses) (a : Multiaddr) :
    PublicAddresses * result InsertionError bool :=
  match ensure_local_peer a (local_peer pa) with
  | Err e => (pa, Err e)
  | Ok a => (mkPublicAddresses ({[a]} ∪ inner pa) (local_peer pa),
             Ok (bool_decide (a ∉ inner pa)))
  end.

(** [PublicAddresses::remove_address] *)
Definition remove_address (pa : PublicAddresses) (a : Multiaddr) : PublicAddresses * bool :=
  (mkPublicAddresses (inner pa ∖ {[a]}) (local_peer pa), bool_decide (a ∈ inner pa)).

(** [PublicAddresses::get_addresses] *)
Definition public_addresses `{HashOrder} (pa : PublicAddresses) : list Multiaddr :=
  set_order (inner pa).

(** ** The calls of a user *)

Inductive PublicCall := AddAddress (a : Multiaddr) | RemoveAddress (a : Multiaddr).

Definition public_call (pa : PublicAddresses) (c : PublicCall) : PublicAddresses :=
  match c with AddAddress a => (add_address pa a).1 | RemoveAddress a => (remove_address pa a).1 end.

Lemma ensure_local_peer_spec a local a' :
  valid_peer_multihash (multihash local) → ensure_local_peer a local = Ok a' →
  try_from_multiaddr a' = Some local ∧ a ≠ [] ∧
  (a' = a ∨ try_from_multiaddr a = None ∧ a' = a ++ [P2p (multihash local)]).
Proof.
  intros Hv. unfold ensure_local_peer. destruct a as [|x a]; [done|].
  destruct (try_from_multiaddr (x :: a)) as [p|] eqn:E.
  - case_decide; [done|]. intros [= <-]. split_and!; [|done|by left].
    rewrite E. by destruct (decide (p = local)) as [->|].
  - intros [= <-]. split_and!; [by apply try_from_multiaddr_with|done|by right].
Qed.

(** Every address of the set names the local peer. *)
Definition public_wf (local : PeerId) (pa : PublicAddresses) : Prop :=
  local_peer pa = local ∧ ∀ a, a ∈ inner pa → try_from_multiaddr a = Some local.

Lemma public_call_wf local pa c :
  valid_peer_multihash (multihash local) → public_wf local pa → public_wf local (public_call pa c).
Proof.
  intros Hv [Hl Ha]. destruct c as [a|a]; simpl.
  - unfold add_address. rewrite Hl. destruct (ensure_local_peer a local) as [a'|] eqn:E; [|done].
    destruct (ensure_local_peer_spec _ _ _ Hv E) as [Ht _].
    split; [done|]. simpl. intros b. rewrite elem_of_union, elem_of_singleton. naive_solver.
  - split; [done|]. simpl. set_solver.
Qed.

(** Whatever the user adds and removes, every public address ends with the local peer; an
    added address is reported from then on (with the local peer appended when it had
    none), and [add_address] says whether it is new. *)
Theorem public_addresses_local `{HashOrder} local (calls : list PublicCall) a :
  valid_peer_multihash (multihash local) →
  let pa := foldl public_call (PublicAddresses_new local) calls in
  (∀ b, b ∈ public_addresses pa → try_from_multiaddr b = Some local) ∧
  match add_address pa a with
  | (pa', Err e) => pa' = pa ∧ (a = [] ∨ ∃ p, try_from_multiaddr a = Some p ∧ p ≠ local)
  | (pa', Ok new) => ∃ a', (a' = a ∨ a' = a ++ [P2p (multihash local)]) ∧
      a' ∈ public_addresses pa' ∧ (new = true ↔ a' ∉ public_addresses pa)
  end.
Proof.
  intros Hv pa. assert (public_wf local pa) as [Hl Hpa].
  { unfold pa. assert (public_wf local (PublicAddresses_new local)) as Hw by (split; set_solver).
    revert Hw. generalize (PublicAddresses_new local). induction calls as [|c calls IH]; [done|].
    intros pa0 Hw. apply IH. by apply public_call_wf. }
  split. { intros b Hb%set_order_elem. by apply Hpa. }
  unfold add_address. rewrite Hl. destruct (ensure_local_peer a local) as [a'|e] eqn:E.
  - destruct (ensure_local_peer_spec _ _ _ Hv E) as (_ & _ & Ha). exists a'.
    unfold public_addresses. rewrite !set_order_elem. simpl. rewrite bool_decide_eq_true.
    set_solver.
  - split; [done|]. unfold ensure_local_peer in E. destruct a as [|x a]; [by left|right].
    destruct (try_from_multiaddr (x :: a)) as [p|]; [|done]. case_decide; [|done]. eauto.
Qed.

Lemma public_addresses_local_witness :
  let local := mkPeerId (mkMultihash MULTIHASH_IDENTITY_CODE [Byte.x01]) in
  let pa := (add_address (PublicAddresses_new local) [Ip4 134744072; Tcp 30333]).1 in
  (add_address pa [Ip4 134744072; Tcp 30333; P2p (multihash local)]).2 = Ok false ∧
  ∀ b, b ∈ @public_addresses canonical_order pa → try_from_multiaddr b = Some local.
Proof.
  intros local pa. split; [by vm_compute|].
  apply (@public_addresses_local canonical_order local [AddAddress [Ip4 134744072; Tcp 30333]] []).
  right. split; [done|]. simpl. unfold MAX_INLINE_KEY_LENGTH. lia.
Defined.
