(* ===== verification/AddressStore.v ===== *)
(** * Address store of a peer

    src/src/transport/manager/address.rs: the scored, bounded set of addresses kept for
    every peer, shared by the transport manager ([PeerContext]) and by Kademlia
    ([KademliaPeer]). *)

From stdpp Require Import base tactics option list gmap strings sorting.
From Stdlib Require Import ZArith NArith Lia Init.Byte.
From S2P Require Import Prelude Multiaddr.

Local Open Scope litep2p_scope.

(** [MAX_ADDRESSES] *)
Definition MAX_ADDRESSES : nat := 64.

(** The [scores] module. *)
Module scores.
Definition CONNECTION_ESTABLISHED : Z := 100.
Definition CONNECTION_FAILURE : Z := -100.
Definition ADDRESS_FAILURE : Z := i32_min.
Definition PUBLIC_ADDRESS_BONUS : Z := 1.
End scores.

(** The classes of [DialError] (src/src/error.rs) the score depends on. *)
Inductive DialError :=
| DialError_Timeout
| DialError_AddressError
| DialError_DnsError
| DialError_NegotiationError.

#[export] Instance DialError_eq_dec : EqDecision DialError.
Proof. solve_decision. Defined.

Record AddressRecord := mkAddressRecord { score : Z; address : Multiaddr }.

#[export] Instance AddressRecord_eq_dec : EqDecision AddressRecord.
Proof. solve_decision. Defined.

(** [AddressRecord::from_raw_multiaddr_with_score] *)
Definition from_raw_multiaddr_with_score (a : Multiaddr) (s : Z) : AddressRecord :=
  {| score := s; address := a |}.

(** [AddressRecord::from_raw_multiaddr] *)
Definition from_raw_multiaddr (a : Multiaddr) : AddressRecord :=
  from_raw_multiaddr_with_score a 0.

(** [AddressRecord::new] *)
Definition AddressRecord_new (peer : PeerId) (a : Multiaddr) (s : Z) : AddressRecord :=
  let a := if negb (ends_with_p2p a) then with_protocol a (P2p (multihash peer)) else a in
  from_raw_multiaddr_with_score a s.

(** [AddressRecord::from_multiaddr] *)
Definition from_multiaddr (a : Multiaddr) : option AddressRecord :=
  if negb (ends_with_p2p a) then None
  else Some (from_raw_multiaddr_with_score a 0).

(** [AddressRecord::update_score] *)
Definition update_score (r : AddressRecord) (s : Z) : AddressRecord :=
  {| score := s; address := address r |}.

Record AddressStore := mkAddressStore {
  addresses : gmap Multiaddr AddressRecord;
  max_capacity : nat;
}.

(** [AddressStore::new] *)
Definition AddressStore_new : AddressStore := mkAddressStore ∅ MAX_ADDRESSES.

(** [AddressStore::error_score] *)
Definition error_score (e : DialError) : Z :=
  match e with
  | DialError_AddressError => scores.ADDRESS_FAILURE
  | _ => scores.CONNECTION_FAILURE
  end.

(** [AddressStore::is_empty] *)
Definition store_is_empty (st : AddressStore) : bool := bool_decide (size (addresses st) = 0).

Section address_store.
Context `{IpNetwork, HashOrder}.

(** [self.addresses.values().min()]: [Ord] on records compares scores only. *)
Definition min_record (st : AddressStore) : option AddressRecord :=
  min_by_key score (map_order (addresses st)).*2.

(** [AddressStore::insert] *)
Definition insert (st : AddressStore) (record : AddressRecord) : outcome AddressStore :=
  match addresses st !! address record with
  | Some old =>
      Done (if decide (score record ≠ 0%Z)
            then mkAddressStore
                   (<[address record := update_score old (score record)]> (addresses st))
                   (max_capacity st)
            else st)
  | None =>
      let s := score record in
      let record :=
        if is_global_multiaddr (address record)
        then {| score := i32_saturating_add (score record) scores.PUBLIC_ADDRESS_BONUS;
                address := address record |}
        else record in
      if decide (max_capacity st ≤ size (addresses st)) then
        match min_record st with
        | None => Panic
        | Some m =>
            if decide (s ≤ score m)%Z then Done st
            else Done (mkAddressStore
                         (<[address record := record]> (delete (address m) (addresses st)))
                         (max_capacity st))
        end
      else Done (mkAddressStore (<[address record := record]> (addresses st))
                                (max_capacity st))
  end.

(** [impl Extend<AddressRecord> for AddressStore] *)
Definition extend (st : AddressStore) (rs : list AddressRecord) : outcome AddressStore :=
  outcome_fold insert rs st.

(** [impl FromIterator<Multiaddr> for AddressStore] *)
Definition from_iter (l : list Multiaddr) : outcome AddressStore :=
  outcome_fold
    (λ st a, match from_multiaddr a with Some r => insert st r | None => Done st end)
    l AddressStore_new.

(** [AddressStore::retain] *)
Definition retain (st : AddressStore) (p : Multiaddr → bool) : AddressStore :=
  mkAddressStore (filter (λ kv, p kv.1 = true) (addresses st)) (max_capacity st).

(** The records sorted by [Reverse(score)], before [take]. *)
Definition sorted_records (st : AddressStore) : list AddressRecord :=
  sort_by_key (λ r, - score r)%Z (map_order (addresses st)).*2.

(** [AddressStore::addresses] *)
Definition get_addresses (st : AddressStore) (limit : N) : list Multiaddr :=
  address <$> take_N limit (sorted_records st).
End address_store.

(** ** Invariant *)

Record store_wf (st : AddressStore) : Prop := {
  store_keys a r : addresses st !! a = Some r → address r = a;
  store_scores a r : addresses st !! a = Some r → i32 (score r);
  store_bounded : size (addresses st) ≤ max_capacity st;
  store_capacity : 0 < max_capacity st;
}.

Lemma AddressStore_new_wf : store_wf AddressStore_new.
Proof. split; simpl; try done; unfold MAX_ADDRESSES; rewrite ?map_size_empty; lia. Qed.

Section address_store_proofs.
Context `{IpNetwork, HashOrder}.
Implicit Types (st : AddressStore) (r : AddressRecord).

(** The record [insert] stores for an address it does not know. *)
Definition with_bonus r : AddressRecord :=
  if is_global_multiaddr (address r)
  then {| score := i32_saturating_add (score r) scores.PUBLIC_ADDRESS_BONUS;
          address := address r |}
  else r.

Lemma with_bonus_address r : address (with_bonus r) = address r.
Proof. unfold with_bonus. by destruct (is_global_multiaddr _). Qed.

Lemma with_bonus_score r : i32 (score r) →
  i32 (score (with_bonus r)) ∧ (score r ≤ score (with_bonus r))%Z.
Proof.
  intros Hr. unfold with_bonus, scores.PUBLIC_ADDRESS_BONUS.
  destruct (is_global_multiaddr _); simpl; [|by split].
  split; [auto with litep2p|apply i32_saturating_add_mono; [done|lia]].
Qed.

Lemma min_record_spec st m : store_wf st → min_record st = Some m →
  addresses st !! address m = Some m ∧
  ∀ a r, addresses st !! a = Some r → (score m ≤ score r)%Z.
Proof.
  intros Hwf [Hin Hmin]%min_by_key_spec.
  apply map_order_values_elem in Hin as [a Ha]. split.
  - by rewrite (store_keys _ Hwf a m Ha).
  - intros a' r Hr. apply Hmin, map_order_values_elem. eauto.
Qed.

Lemma min_record_is_Some st : 0 < size (addresses st) → is_Some (min_record st).
Proof.
  intros Hs. apply min_by_key_is_Some. intros Hn.
  apply fmap_nil_inv in Hn. pose proof (map_order_length (addresses st)) as Hl.
  rewrite Hn in Hl. simpl in Hl. lia.
Qed.

(** What [insert] does, by cases: [insert_post st r st'] relates the store before to the
    store after. *)
Inductive insert_post st r : AddressStore → Prop :=
| insert_post_keep old :
    addresses st !! address r = Some old → score r = 0%Z → insert_post st r st
| insert_post_update old :
    addresses st !! address r = Some old → score r ≠ 0%Z →
    insert_post st r
      (mkAddressStore (<[address r := {| score := score r; address := address old |}]>
                         (addresses st)) (max_capacity st))
| insert_post_new :
    addresses st !! address r = None → size (addresses st) < max_capacity st →
    insert_post st r
      (mkAddressStore (<[address r := with_bonus r]> (addresses st)) (max_capacity st))
| insert_post_refused m :
    addresses st !! address r = None → size (addresses st) = max_capacity st →
    addresses st !! address m = Some m →
    (∀ a r', addresses st !! a = Some r' → (score m ≤ score r')%Z) →
    (score r ≤ score m)%Z → insert_post st r st
| insert_post_evict m :
    addresses st !! address r = None → size (addresses st) = max_capacity st →
    addresses st !! address m = Some m →
    (∀ a r', addresses st !! a = Some r' → (score m ≤ score r')%Z) →
    (score m < score r)%Z →
    insert_post st r
      (mkAddressStore (<[address r := with_bonus r]> (delete (address m) (addresses st)))
                      (max_capacity st)).

Lemma insert_post_complete st r : store_wf st →
  ∃ st', insert st r = Done st' ∧ insert_post st r st'.
Proof.
  intros Hwf. unfold insert. fold (with_bonus r). rewrite with_bonus_address.
  destruct (addresses st !! address r) as [old|] eqn:Hl.
  { eexists; split; [done|]. case_decide as Hs.
    - by eapply insert_post_update.
    - eapply insert_post_keep; [done|]. by destruct (Z.eq_dec (score r) 0). }
  pose proof (store_bounded _ Hwf). pose proof (store_capacity _ Hwf).
  case_decide; [|eexists; split; [done|]; apply insert_post_new; [done|lia]].
  destruct (min_record_is_Some st) as [m Hm]; [lia|]. rewrite Hm.
  destruct (min_record_spec st m Hwf Hm) as [Hin Hmin].
  case_decide; eexists; (split; [done|]).
  - eapply insert_post_refused; eauto; lia.
  - eapply insert_post_evict; eauto; lia.
Qed.

Lemma insert_post_wf st r st' : store_wf st → i32 (score r) →
  insert_post st r st' → store_wf st' ∧ max_capacity st' = max_capacity st.
Proof.
  intros Hwf Hr Hp. pose proof (with_bonus_score r Hr) as [Hb _].
  pose proof (with_bonus_address r) as Ha. destruct Hwf as [Hk Hs Hbd Hc].
  destruct Hp as [old Ho Hz|old Ho Hz|Hn Hlt|m Hn He Hm Hmin Hle|m Hn He Hm Hmin Hlt];
    (split; [|done]); split; simpl; try done.
  - intros a x. rewrite lookup_insert_Some. intros [[<- <-]|[_ ?]]; simpl; eauto.
  - intros a x. rewrite lookup_insert_Some. intros [[<- <-]|[_ ?]]; simpl; eauto.
  - by rewrite map_size_insert_Some.
  - intros a x. rewrite lookup_insert_Some. intros [[<- <-]|[_ ?]]; eauto.
  - intros a x. rewrite lookup_insert_Some. intros [[<- <-]|[_ ?]]; eauto.
  - rewrite map_size_insert_None by done. lia.
  - intros a x. rewrite lookup_insert_Some, lookup_delete_Some. naive_solver.
  - intros a x. rewrite lookup_insert_Some, lookup_delete_Some. naive_solver.
  - rewrite map_size_insert_None, map_size_delete_Some by
      (rewrite ?lookup_delete_None; eauto). lia.
Qed.

Lemma extend_wf rs st : store_wf st → Forall (λ r, i32 (score r)) rs →
  ∃ st', extend st rs = Done st' ∧ store_wf st' ∧ max_capacity st' = max_capacity st.
Proof.
  intros Hwf Hrs. revert st Hwf. unfold extend.
  induction Hrs as [|r rs Hr _ IH]; intros st Hwf; simpl; [eauto|].
  destruct (insert_post_complete st r Hwf) as (st' & -> & Hp).
  destruct (insert_post_wf _ _ _ Hwf Hr Hp) as [Hwf' Hc]. simpl.
  destruct (IH st' Hwf') as (st'' & -> & ? & ?). eexists; split_and!; [done|done|congruence].
Qed.

(** The records of a store, listed: addresses and records determine each other. *)
Lemma sorted_records_elem st r : store_wf st →
  r ∈ sorted_records st ↔ addresses st !! address r = Some r.
Proof.
  intros Hwf. unfold sorted_records. rewrite sort_by_key_elem, map_order_values_elem.
  split; [|eauto]. intros [a Ha]. by rewrite (store_keys _ Hwf a r Ha).
Qed.

Lemma sorted_records_addresses st : store_wf st →
  address <$> sorted_records st ≡ₚ (map_order (addresses st)).*1.
Proof.
  intros Hwf. unfold sorted_records. rewrite sort_by_key_perm, <- list_fmap_compose.
  apply Permutation_refl'. apply list_fmap_ext. intros i [a r] Hi. simpl.
  apply (store_keys _ Hwf), map_order_elem, list_elem_of_lookup. eauto.
Qed.

Lemma sorted_records_nodup st : store_wf st → NoDup (address <$> sorted_records st).
Proof. intros Hwf. rewrite sorted_records_addresses by done. apply map_order_keys_nodup. Qed.

Lemma sorted_records_length st : length (sorted_records st) = size (addresses st).
Proof. unfold sorted_records. by rewrite sort_by_key_length, length_fmap, map_order_length. Qed.
End address_store_proofs.

(** The score the store holds for an address. *)
Definition score_of (st : AddressStore) (a : Multiaddr) : Z :=
  from_option score 0%Z (addresses st !! a).

(** ** Properties *)

(** Inserting any sequence of records into a well-formed store never panics and leaves
    a well-formed store of the same capacity: entries are filed under their own address,
    scores stay in the range of [i32] and the number of addresses never exceeds the
    capacity. *)
Theorem insert_preserves_wf `{IpNetwork, HashOrder} (st : AddressStore)
    (rs : list AddressRecord) :
  store_wf st → Forall (λ r, i32 (score r)) rs →
  ∃ st', extend st rs = Done st' ∧ store_wf st' ∧ max_capacity st' = max_capacity st.
Proof. apply extend_wf. Qed.

(** The effect of one insertion, on every branch: a known address keeps its history when
    the record carries score 0 and takes the new score otherwise; an unknown address is
    stored with its public-address bonus while there is room; in a full store it is refused
    unless its score, judged without the bonus, is strictly greater than the least score,
    in which case it replaces exactly one entry of least score. *)
Theorem insert_cases `{IpNetwork, HashOrder} (st : AddressStore) (r : AddressRecord) :
  store_wf st → ∃ st', insert st r = Done st' ∧ insert_post st r st'.
Proof. apply insert_post_complete. Qed.

(** [addresses(limit)] returns distinct addresses of the store, as many as the limit
    allows, ordered by decreasing score, and no address left out has a better score than
    one returned. *)
Theorem get_addresses_best `{HashOrder} (st : AddressStore) (limit : N) :
  store_wf st →
  NoDup (get_addresses st limit) ∧
  length (get_addresses st limit) = min (N.to_nat limit) (size (addresses st)) ∧
  (∀ a, a ∈ get_addresses st limit → is_Some (addresses st !! a)) ∧
  StronglySorted (λ a b, (score_of st b ≤ score_of st a)%Z) (get_addresses st limit) ∧
  (∀ a b, a ∈ get_addresses st limit → is_Some (addresses st !! b) →
     b ∉ get_addresses st limit → (score_of st b ≤ score_of st a)%Z).
Proof.
  intros Hwf. unfold get_addresses. rewrite take_N_take.
  set (n := N.to_nat limit). set (l := sorted_records st).
  assert (∀ r, r ∈ l → score_of st (address r) = score r) as Hsc.
  { intros r Hr%sorted_records_elem; [|done]. unfold score_of. by rewrite Hr. }
  assert (∀ r, r ∈ take n l → r ∈ l) as Htk by (intros r; apply subseteq_take).
  split_and!.
  - rewrite fmap_take. eapply sublist_NoDup; [|apply sublist_take].
    by apply sorted_records_nodup.
  - rewrite length_fmap, length_take. unfold l. by rewrite sorted_records_length.
  - intros a (r & -> & Hr)%list_elem_of_fmap.
    apply Htk, sorted_records_elem in Hr; [eauto|done].
  - apply StronglySorted_fmap. eapply StronglySorted_impl_elem.
    2: { apply StronglySorted_take, sort_by_key_sorted. }
    intros x y Hx Hy. rewrite !Hsc by auto. unfold key_le. lia.
  - intros a b (r & -> & Hr)%list_elem_of_fmap [rb Hb] Hnb.
    assert (b = address rb) as -> by (by rewrite (store_keys _ Hwf _ _ Hb)).
    assert (rb ∈ l) as Hin by (by apply sorted_records_elem).
    rewrite !Hsc by auto.
    rewrite <- (take_drop n l), elem_of_app in Hin. destruct Hin as [Hin|Hin].
    { destruct Hnb. apply list_elem_of_fmap. eauto. }
    pose proof (sorted_take_drop _ n l (sort_by_key_sorted _ _) r rb Hr Hin). simpl in *. lia.
Qed.

(** ** Witnesses

    A network whose 10.0.0.0/8 addresses are private, and a store of capacity two. *)
Definition sample_network : IpNetwork :=
  {| ip4_is_global ip := negb (N.shiftr ip 24 =? 10)%N; ip6_is_global _ := true |}.

Definition sample_address (host port : N) : Multiaddr :=
  [Ip4 host; Tcp port; P2p (mkMultihash SHA2_256_CODE [])].

Definition sample_store : AddressStore :=
  mkAddressStore
    {[ sample_address 167772161 80 := mkAddressRecord (-100) (sample_address 167772161 80);
       sample_address 134744072 80 := mkAddressRecord 101 (sample_address 134744072 80) ]} 2.

Lemma sample_store_wf : store_wf sample_store.
Proof.
  split; unfold sample_store; simpl.
  - intros a r. rewrite lookup_insert_Some, lookup_singleton_Some. naive_solver.
  - intros a r. rewrite lookup_insert_Some, lookup_singleton_Some.
    unfold i32, i32_min, i32_max. naive_solver (simpl; lia).
  - by vm_compute; lia.
  - lia.
Qed.

Lemma insert_preserves_wf_witness :
  ∃ st', @extend sample_network canonical_order sample_store
           [mkAddressRecord 0 (sample_address 134744073 80)] = Done st' ∧
         store_wf st' ∧ max_capacity st' = 2.
Proof.
  apply (@insert_preserves_wf sample_network canonical_order sample_store).
  - apply sample_store_wf.
  - repeat constructor; simpl; unfold i32_min, i32_max; lia.
Defined.

Lemma insert_cases_witness :
  ∃ st', @insert sample_network canonical_order sample_store
           (mkAddressRecord 0 (sample_address 134744073 80)) = Done st' ∧
         @insert_post sample_network sample_store
           (mkAddressRecord 0 (sample_address 134744073 80)) st'.
Proof. apply (@insert_cases sample_network canonical_order), sample_store_wf. Defined.

Lemma get_addresses_best_witness :
  @get_addresses canonical_order sample_store 1 = [sample_address 134744072 80] ∧
  NoDup (@get_addresses canonical_order sample_store 1).
Proof.
  split; [by vm_compute|].
  apply (@get_addresses_best canonical_order sample_store 1 sample_store_wf).
Defined.
