(* ===== verification/PeerState.v ===== *)
(** * Peer state machine

    src/src/transport/manager/peer_state.rs: per-peer tracking of established connections
    and of the dial in progress, with the [Endpoint] of src/src/transport/mod.rs. *)

From stdpp Require Import base tactics option list gmap strings.
From Stdlib Require Import ZArith NArith Lia Init.Byte.
From S2P Require Import Prelude Multiaddr.

Local Open Scope litep2p_scope.


(** [SupportedTransport] (src/src/transport/manager/types.rs), every feature enabled. *)
Inductive SupportedTransport := TransportTcp | TransportQuic | TransportWebRtc | TransportWebSocket.

#[export] Instance SupportedTransport_eq_dec : EqDecision SupportedTransport.
Proof. solve_decision. Defined.

Definition transport_index (t : SupportedTransport) : nat :=
  match t with
  | TransportTcp => 0 | TransportQuic => 1 | TransportWebRtc => 2 | TransportWebSocket => 3
  end.
Definition transport_of_index (n : nat) : option SupportedTransport :=
  match n with
  | 0 => Some TransportTcp | 1 => Some TransportQuic | 2 => Some TransportWebRtc
  | 3 => Some TransportWebSocket | _ => None
  end.
#[export] Program Instance SupportedTransport_countable : Countable SupportedTransport :=
  inj_countable transport_index transport_of_index _.
Next Obligation. by intros []. Qed.

Record ConnectionRecord := mkConnectionRecord {
  record_address : Multiaddr;
  connection_id : ConnectionId;
}.

#[export] Instance ConnectionRecord_eq_dec : EqDecision ConnectionRecord.
Proof. solve_decision. Defined.

(** [ConnectionRecord::ensure_peer_id] *)
Definition ensure_peer_id (peer : PeerId) (address : Multiaddr) : Multiaddr :=
  match last address with
  | Some (P2p m) =>
      if decide (m ≠ multihash peer)
      then with_protocol (removelast address) (P2p (multihash peer))
      else address
  | _ => with_protocol address (P2p (multihash peer))
  end.

(** [ConnectionRecord::new] *)
Definition ConnectionRecord_new (peer : PeerId) (a : Multiaddr) (c : ConnectionId) :=
  mkConnectionRecord (ensure_peer_id peer a) c.

(** [ConnectionRecord::from_endpoint] *)
Definition from_endpoint (peer : PeerId) (e : Endpoint) : ConnectionRecord :=
  mkConnectionRecord (ensure_peer_id peer (endpoint_address e)) (endpoint_connection_id e).

Inductive SecondaryOrDialing :=
| Secondary (record : ConnectionRecord)
| SecondaryDialing (dial_record : ConnectionRecord).

#[export] Instance SecondaryOrDialing_eq_dec : EqDecision SecondaryOrDialing.
Proof. solve_decision. Defined.

Inductive PeerState :=
| Connected (record : ConnectionRecord) (secondary : option SecondaryOrDialing)
| Opening (addresses : gset Multiaddr) (connection_id : ConnectionId)
          (transports : gset SupportedTransport)
| Dialing (dial_record : ConnectionRecord)
| Disconnected (dial_record : option ConnectionRecord).

#[export] Instance PeerState_eq_dec : EqDecision PeerState.
Proof. solve_decision. Defined.

Inductive StateDialResult := AlreadyConnected | DialingInProgress | StateDialOk.

#[export] Instance StateDialResult_eq_dec : EqDecision StateDialResult.
Proof. solve_decision. Defined.

(** [PeerState::can_dial] *)
Definition can_dial (s : PeerState) : StateDialResult :=
  match s with
  | Connected _ _ => AlreadyConnected
  | Dialing _ | Opening _ _ _ | Disconnected (Some _) => DialingInProgress
  | Disconnected None => StateDialOk
  end.

(** [PeerState::dial_single_address] *)
Definition dial_single_address (s : PeerState) (r : ConnectionRecord) :
    PeerState * StateDialResult :=
  match can_dial s with
  | StateDialOk => (Dialing r, StateDialOk)
  | reason => (s, reason)
  end.

(** [PeerState::dial_addresses] *)
Definition dial_addresses (s : PeerState) (c : ConnectionId) (addresses : gset Multiaddr)
    (transports : gset SupportedTransport) : PeerState * StateDialResult :=
  match can_dial s with
  | StateDialOk => (Opening addresses c transports, StateDialOk)
  | reason => (s, reason)
  end.

(** [PeerState::on_dial_failure] *)
Definition on_dial_failure (s : PeerState) (c : ConnectionId) : PeerState * bool :=
  match s with
  | Dialing dial_record =>
      if decide (connection_id dial_record = c) then (Disconnected None, true) else (s, false)
  | Connected record (Some (SecondaryDialing dial_record)) =>
      if decide (connection_id dial_record = c) then (Connected record None, true)
      else (s, false)
  | Disconnected (Some dial_record) =>
      if decide (connection_id dial_record = c) then (Disconnected None, true) else (s, false)
  | Opening _ _ _ | Connected _ _ | Disconnected _ => (s, false)
  end.

(** [PeerState::on_connection_established] *)
Definition on_connection_established (s : PeerState) (connection : ConnectionRecord) :
    PeerState * bool :=
  match s with
  | Connected record (Some (SecondaryDialing dial_record)) =>
      if decide (connection_id dial_record = connection_id connection)
      then (Connected record (Some (Secondary connection)), true)
      else (s, false)
  | Connected record None => (Connected record (Some (Secondary connection)), true)
  | Dialing dial_record | Disconnected (Some dial_record) =>
      if decide (connection_id dial_record = connection_id connection)
      then (Connected connection None, true)
      else (Connected connection (Some (SecondaryDialing dial_record)), true)
  | Disconnected None => (Connected connection None, true)
  | Opening _ _ _ => (Connected connection None, true)
  | Connected _ (Some (Secondary _)) => (s, false)
  end.

(** [PeerState::on_connection_closed] *)
Definition on_connection_closed (s : PeerState) (c : ConnectionId) : PeerState * bool :=
  match s with
  | Connected record secondary =>
      if decide (connection_id record = c) then
        match secondary with
        | Some (Secondary secondary) => (Connected secondary None, false)
        | Some (SecondaryDialing dial_record) => (Disconnected (Some dial_record), true)
        | None => (Disconnected None, true)
        end
      else
        match secondary with
        | Some (Secondary secondary) =>
            if decide (connection_id secondary = c) then (Connected record None, false)
            else (s, false)
        | _ => (s, false)
        end
  | _ => (s, false)
  end.

(** [PeerState::on_open_failure] *)
Definition on_open_failure (s : PeerState) (t : SupportedTransport) : PeerState * bool :=
  match s with
  | Opening addresses c transports =>
      let transports := transports ∖ {[t]} in
      if decide (transports = ∅) then (Disconnected None, true)
      else (Opening addresses c transports, false)
  | _ => (s, false)
  end.

(** [PeerState::on_connection_opened] *)
Definition on_connection_opened (s : PeerState) (record : ConnectionRecord) :
    PeerState * bool :=
  match s with
  | Opening _ _ _ => (Dialing record, true)
  | _ => (s, false)
  end.

(** ** The operations as one step function *)

Inductive PeerEvent :=
| EvDialSingle (r : ConnectionRecord)
| EvDialMany (c : ConnectionId) (addresses : gset Multiaddr) (transports : gset SupportedTransport)
| EvDialFailure (c : ConnectionId)
| EvEstablished (r : ConnectionRecord)
| EvClosed (c : ConnectionId)
| EvOpenFailure (t : SupportedTransport)
| EvOpened (r : ConnectionRecord).

Definition peer_step (s : PeerState) (e : PeerEvent) : PeerState * (StateDialResult + bool) :=
  match e with
  | EvDialSingle r => prod_map id inl (dial_single_address s r)
  | EvDialMany c a t => prod_map id inl (dial_addresses s c a t)
  | EvDialFailure c => prod_map id inr (on_dial_failure s c)
  | EvEstablished r => prod_map id inr (on_connection_established s r)
  | EvClosed c => prod_map id inr (on_connection_closed s c)
  | EvOpenFailure t => prod_map id inr (on_open_failure s t)
  | EvOpened r => prod_map id inr (on_connection_opened s r)
  end.

Definition peer_run (s : PeerState) (es : list PeerEvent) : PeerState :=
  foldl (λ s e, (peer_step s e).1) s es.

(** ** Abstract specification

    A peer has two connection slots. [live] lists its established connections, the primary
    one first, and a pending dial reserves a slot, except while it is still opening. *)

Inductive Pending :=
| PendingOpen (c : ConnectionId) (transports : gset SupportedTransport)
| PendingDial (c : ConnectionId).

Record PeerSpec := mkPeerSpec {
  live : list ConnectionRecord;
  pending : option Pending;
}.

Definition abs (s : PeerState) : PeerSpec :=
  match s with
  | Connected r None => mkPeerSpec [r] None
  | Connected r (Some (Secondary r')) => mkPeerSpec [r; r'] None
  | Connected r (Some (SecondaryDialing d)) => mkPeerSpec [r] (Some (PendingDial (connection_id d)))
  | Opening _ c ts => mkPeerSpec [] (Some (PendingOpen c ts))
  | Dialing d | Disconnected (Some d) => mkPeerSpec [] (Some (PendingDial (connection_id d)))
  | Disconnected None => mkPeerSpec [] None
  end.

Definition spec_can_dial (s : PeerSpec) : StateDialResult :=
  match live s, pending s with
  | _ :: _, _ => AlreadyConnected
  | [], Some _ => DialingInProgress
  | [], None => StateDialOk
  end.

Definition spec_dial (s : PeerSpec) (p : Pending) : PeerSpec * StateDialResult :=
  (if decide (spec_can_dial s = StateDialOk) then mkPeerSpec (live s) (Some p) else s,
   spec_can_dial s).

Definition spec_dial_failure (s : PeerSpec) (c : ConnectionId) : PeerSpec * bool :=
  match pending s with
  | Some (PendingDial c') =>
      if decide (c' = c) then (mkPeerSpec (live s) None, true) else (s, false)
  | _ => (s, false)
  end.

(** What is left of the pending dial once connection [c] is established. *)
Definition spec_pending_after (p : option Pending) (c : ConnectionId) : option Pending :=
  match p with
  | Some (PendingDial c') => if decide (c' = c) then None else p
  | _ => None
  end.

(** The connection is accepted if a slot is free. *)
Definition spec_established (s : PeerSpec) (r : ConnectionRecord) : PeerSpec * bool :=
  let p := spec_pending_after (pending s) (connection_id r) in
  if decide (length (live s) + length (option_list p) < 2)
  then (mkPeerSpec (live s ++ [r]) p, true)
  else (s, false).

Fixpoint remove_first (c : ConnectionId) (l : list ConnectionRecord) : list ConnectionRecord :=
  match l with
  | [] => []
  | r :: l => if decide (connection_id r = c) then l else r :: remove_first c l
  end.

(** The peer is reported as disconnected when its last live connection goes. *)
Definition spec_closed (s : PeerSpec) (c : ConnectionId) : PeerSpec * bool :=
  let l := remove_first c (live s) in
  (mkPeerSpec l (pending s), bool_decide (live s ≠ [] ∧ l = [])).

Definition spec_open_failure (s : PeerSpec) (t : SupportedTransport) : PeerSpec * bool :=
  match pending s with
  | Some (PendingOpen c ts) =>
      if decide (ts ∖ {[t]} = ∅) then (mkPeerSpec (live s) None, true)
      else (mkPeerSpec (live s) (Some (PendingOpen c (ts ∖ {[t]}))), false)
  | _ => (s, false)
  end.

Definition spec_opened (s : PeerSpec) (r : ConnectionRecord) : PeerSpec * bool :=
  match pending s with
  | Some (PendingOpen _ _) => (mkPeerSpec (live s) (Some (PendingDial (connection_id r))), true)
  | _ => (s, false)
  end.

Definition spec_step (s : PeerSpec) (e : PeerEvent) : PeerSpec * (StateDialResult + bool) :=
  match e with
  | EvDialSingle r => prod_map id inl (spec_dial s (PendingDial (connection_id r)))
  | EvDialMany c _ t => prod_map id inl (spec_dial s (PendingOpen c t))
  | EvDialFailure c => prod_map id inr (spec_dial_failure s c)
  | EvEstablished r => prod_map id inr (spec_established s r)
  | EvClosed c => prod_map id inr (spec_closed s c)
  | EvOpenFailure t => prod_map id inr (spec_open_failure s t)
  | EvOpened r => prod_map id inr (spec_opened s r)
  end.

(** Case analysis on a peer state, its secondary slot and its dial record. *)
Ltac case_peer_state s :=
  destruct s as [? [[|]|]|? ? ?|?|[?|]].

Lemma spec_step_sound s e :
  prod_map abs id (peer_step s e) = spec_step (abs s) e.
Proof.
  destruct e; case_peer_state s; unfold peer_step, spec_step, dial_single_address,
    dial_addresses, spec_dial, on_dial_failure, spec_dial_failure,
    on_connection_established, spec_established, spec_pending_after, on_connection_closed,
    spec_closed, on_open_failure, spec_open_failure, on_connection_opened, spec_opened;
    simpl; repeat (case_decide || case_bool_decide || simplify_eq/=); try done; try lia;
    naive_solver.
Qed.

(** The four kinds of states. *)
Inductive StateKind := KConnected | KOpening | KDialing | KDisconnected.

Definition kind (s : PeerState) : StateKind :=
  match s with
  | Connected _ _ => KConnected
  | Opening _ _ _ => KOpening
  | Dialing _ => KDialing
  | Disconnected _ => KDisconnected
  end.

(** The kinds a state may move to, itself included. *)
Definition allowed (k k' : StateKind) : bool :=
  match k, k' with
  | KConnected, (KConnected | KDisconnected) => true
  | KOpening, _ => true
  | KDialing, (KDialing | KConnected | KDisconnected) => true
  | KDisconnected, _ => true
  | _, _ => false
  end.

Lemma peer_step_allowed s e : allowed (kind s) (kind (peer_step s e).1) = true.
Proof.
  destruct e; case_peer_state s; unfold peer_step, dial_single_address, dial_addresses,
    on_dial_failure, on_connection_established, on_connection_closed, on_open_failure,
    on_connection_opened; simpl; repeat (case_decide || simplify_eq/=); done.
Qed.

(** ** Properties *)

(** C27. The peer state machine implements the two-slot specification: on every state and
    every event the abstraction of the new state is the specification's new state, and the
    reported result (dial verdict, accepted, disconnected, handled) is the
    specification's. *)
Theorem peer_state_refines s e :
  prod_map abs id (peer_step s e) = spec_step (abs s) e.
Proof. apply spec_step_sound. Qed.

(** The transitions between the four kinds of states are exactly those of [allowed]:
    no operation makes another one, and each of them is made by some operation. *)
Theorem peer_state_transitions k k' :
  (∃ s e, kind s = k ∧ kind (peer_step s e).1 = k') ↔ allowed k k' = true.
Proof.
  split.
  - intros (s & e & <- & <-). apply peer_step_allowed.
  - pose (r c := mkConnectionRecord [] c).
    intros Ha. destruct k, k'; try discriminate Ha.
    + by exists (Connected (r 0%N) None), (EvOpened (r 0%N)).
    + by exists (Connected (r 0%N) None), (EvClosed 0%N).
    + by exists (Opening ∅ 0%N ∅), (EvEstablished (r 0%N)).
    + by exists (Opening ∅ 0%N ∅), (EvClosed 0%N).
    + by exists (Opening ∅ 0%N ∅), (EvOpened (r 0%N)).
    + by exists (Opening ∅ 0%N ∅), (EvOpenFailure TransportTcp).
    + by exists (Dialing (r 0%N)), (EvEstablished (r 0%N)).
    + by exists (Dialing (r 0%N)), (EvClosed 0%N).
    + by exists (Dialing (r 0%N)), (EvDialFailure 0%N).
    + by exists (Disconnected None), (EvEstablished (r 0%N)).
    + by exists (Disconnected None), (EvDialMany 0%N ∅ ∅).
    + by exists (Disconnected None), (EvDialSingle (r 0%N)).
    + by exists (Disconnected None), (EvClosed 0%N).
Qed.

(** [ensure_peer_id] yields an address that names the peer, whatever it named before:
    the peer can be read back, the operation is idempotent, the last writer wins, and every
    component but a trailing peer ID is kept. *)
Theorem ensure_peer_id_spec (p q : PeerId) (a : Multiaddr) :
  valid_peer_multihash (multihash p) →
  try_from_multiaddr (ensure_peer_id p a) = Some p ∧
  ensure_peer_id p (ensure_peer_id q a) = ensure_peer_id p a ∧
  (∃ b, ensure_peer_id p a = b ++ [P2p (multihash p)] ∧ (a = b ∨ ∃ m, a = b ++ [P2p m])).
Proof.
  intros Hv.
  assert (∀ p a, ∃ b, ensure_peer_id p a = b ++ [P2p (multihash p)] ∧
                      (a = b ∧ ends_with_p2p a = false ∨ ∃ m, a = b ++ [P2p m])) as Hb.
  { clear. intros p a. unfold ensure_peer_id, with_protocol, ends_with_p2p.
    destruct (last a) as [c|] eqn:E; [|eexists; eauto].
    destruct (is_p2p c) eqn:Ec; [|destruct c; eauto; done].
    destruct c; try done. apply last_Some in E as [l ->].
    exists l. split; [|eauto]. case_decide; [by rewrite removelast_last|].
    by destruct (decide (peer = multihash p)) as [->|]. }
  destruct (Hb p a) as (b & Hp & Ha). split_and!.
  - rewrite Hp. by apply try_from_multiaddr_with.
  - destruct (Hb q a) as (b' & Hq & Ha').
    assert (b = b') as <-.
    { destruct Ha as [[Hb1 Hn]|[m Hm]], Ha' as [[Hb2 Hn']|[m' Hm']]; [congruence|..].
      - by rewrite Hm', ends_with_p2p_snoc in Hn.
      - by rewrite Hm, ends_with_p2p_snoc in Hn'.
      - rewrite Hm in Hm'. by apply app_inj_tail in Hm' as [-> _]. }
    rewrite Hq, Hp. unfold ensure_peer_id, with_protocol. rewrite last_snoc.
    case_decide; [by rewrite removelast_last|].
    by destruct (decide (multihash q = multihash p)) as [->|].
  - exists b. split; [done|]. naive_solver.
Qed.

Lemma ensure_peer_id_spec_witness :
  try_from_multiaddr (ensure_peer_id (mkPeerId (mkMultihash 18 []))
                        [Tcp 80; P2p (mkMultihash 0 [])]) = Some (mkPeerId (mkMultihash 18 [])).
Proof.
  apply (ensure_peer_id_spec (mkPeerId (mkMultihash 18 [])) (mkPeerId (mkMultihash 18 []))
           [Tcp 80; P2p (mkMultihash 0 [])]). by left.
Defined.
