(* ===== verification/ConnectionLimits.v ===== *)
(** * Connection limits

    src/src/transport/manager/limits.rs: the sets of established incoming and outgoing
    connections, tracked only for the directions that have a limit. *)

From stdpp Require Import base tactics option list gmap relations.
From Stdlib Require Import ZArith NArith Lia.
From S2P Require Import Prelude Multiaddr PeerState.

Local Open Scope litep2p_scope.

Record ConnectionLimitsConfig := mkLimitsConfig {
  max_incoming_connections : option N;
  max_outgoing_connections : option N;
}.

Inductive ConnectionLimitsError :=
| MaxIncomingConnectionsExceeded
| MaxOutgoingConnectionsExceeded.

Record ConnectionLimits := mkLimits {
  config : ConnectionLimitsConfig;
  incoming_connections : gset ConnectionId;
  outgoing_connections : gset ConnectionId;
}.

(** [ConnectionLimits::new] *)
Definition ConnectionLimits_new (c : ConnectionLimitsConfig) : ConnectionLimits :=
  mkLimits c ∅ ∅.

(** [HashSet::len] *)
Definition set_len (s : gset ConnectionId) : N := N.of_nat (size s).

(** [ConnectionLimits::on_dial_address] *)
Definition on_dial_address (l : ConnectionLimits) : result ConnectionLimitsError N :=
  match max_outgoing_connections (config l) with
  | Some max =>
      if (max <=? set_len (outgoing_connections l))%N
      then Err MaxOutgoingConnectionsExceeded
      else Ok (max - set_len (outgoing_connections l))%N
  | None => Ok usize_max
  end.

(** [ConnectionLimits::on_incoming] *)
Definition on_incoming (l : ConnectionLimits) : result ConnectionLimitsError unit :=
  match max_incoming_connections (config l) with
  | Some max =>
      if (max <=? set_len (incoming_connections l))%N
      then Err MaxIncomingConnectionsExceeded
      else Ok tt
  | None => Ok tt
  end.

(** [ConnectionLimits::can_accept_connection] *)
Definition can_accept_connection (l : ConnectionLimits) (is_listener : bool) :
    result ConnectionLimitsError unit :=
  if is_listener then
    match max_incoming_connections (config l) with
    | Some max =>
        if (max <=? set_len (incoming_connections l))%N
        then Err MaxIncomingConnectionsExceeded else Ok tt
    | None => Ok tt
    end
  else
    match max_outgoing_connections (config l) with
    | Some max =>
        if (max <=? set_len (outgoing_connections l))%N
        then Err MaxOutgoingConnectionsExceeded else Ok tt
    | None => Ok tt
    end.

(** [ConnectionLimits::accept_established_connection] *)
Definition accept_established_connection (l : ConnectionLimits) (c : ConnectionId)
    (is_listener : bool) : ConnectionLimits :=
  if is_listener then
    match max_incoming_connections (config l) with
    | Some _ => mkLimits (config l) ({[c]} ∪ incoming_connections l) (outgoing_connections l)
    | None => l
    end
  else
    match max_outgoing_connections (config l) with
    | Some _ => mkLimits (config l) (incoming_connections l) ({[c]} ∪ outgoing_connections l)
    | None => l
    end.

(** [ConnectionLimits::on_connection_closed] *)
Definition limits_on_connection_closed (l : ConnectionLimits) (c : ConnectionId) :
    ConnectionLimits :=
  mkLimits (config l) (incoming_connections l ∖ {[c]}) (outgoing_connections l ∖ {[c]}).

(** ** Invariant *)

Definition within (max : option N) (s : gset ConnectionId) : Prop :=
  match max with Some m => (set_len s ≤ m)%N | None => s = ∅ end.

Definition limits_wf (l : ConnectionLimits) : Prop :=
  within (max_incoming_connections (config l)) (incoming_connections l) ∧
  within (max_outgoing_connections (config l)) (outgoing_connections l).

Lemma ConnectionLimits_new_wf c : limits_wf (ConnectionLimits_new c).
Proof.
  destruct c as [[] []]; split; simpl; unfold set_len; rewrite ?size_empty; done || lia.
Qed.

Lemma size_add_le (c : ConnectionId) (s : gset ConnectionId) : size ({[c]} ∪ s) ≤ S (size s).
Proof. rewrite size_union_alt, size_singleton. pose proof (subseteq_size (s ∖ {[c]}) s). set_solver by lia. Qed.

Lemma within_add max c s m : max = Some m → (set_len s < m)%N → within max ({[c]} ∪ s).
Proof. intros ->. unfold within, set_len. pose proof (size_add_le c s). lia. Qed.

Lemma within_remove max c s : within max s → within max (s ∖ {[c]}).
Proof.
  unfold within, set_len. destruct max; [|set_solver].
  pose proof (subseteq_size (s ∖ {[c]}) s). set_solver by lia.
Qed.

Lemma accept_wf l c b : limits_wf l → can_accept_connection l b = Ok tt →
  limits_wf (accept_established_connection l c b).
Proof.
  intros [Hi Ho]. unfold can_accept_connection, accept_established_connection.
  destruct b.
  - destruct (max_incoming_connections (config l)) as [m|] eqn:Hm; [|by intros _; split; rewrite ?Hm].
    destruct (N.leb_spec m (set_len (incoming_connections l))); [done|].
    intros _. split; simpl; [by eapply within_add|done].
  - destruct (max_outgoing_connections (config l)) as [m|] eqn:Hm; [|by intros _; split; rewrite ?Hm].
    destruct (N.leb_spec m (set_len (outgoing_connections l))); [done|].
    intros _. split; simpl; [done|by eapply within_add].
Qed.

Lemma closed_wf l c : limits_wf l → limits_wf (limits_on_connection_closed l c).
Proof. intros [? ?]. split; simpl; by apply within_remove. Qed.

Lemma accept_config l c b : config (accept_established_connection l c b) = config l.
Proof. unfold accept_established_connection. split_matches. Qed.

#[export] Hint Resolve ConnectionLimits_new_wf accept_wf closed_wf : litep2p.

(** The life of the tracker: connections are accepted after [can_accept_connection] allowed
    it, and closed at any time. *)
Inductive limits_step : ConnectionLimits → ConnectionLimits → Prop :=
| step_accept l c b :
    can_accept_connection l b = Ok tt → limits_step l (accept_established_connection l c b)
| step_close l c : limits_step l (limits_on_connection_closed l c).

(** Accept connections one after the other, each checked first. *)
Fixpoint accept_all (l : ConnectionLimits) (b : bool) (cs : list ConnectionId) :
    result ConnectionLimitsError ConnectionLimits :=
  match cs with
  | [] => Ok l
  | c :: cs =>
      try _ <- can_accept_connection l b ;;
      accept_all (accept_established_connection l c b) b cs
  end.

Lemma accept_all_outgoing cs : ∀ l m,
  max_outgoing_connections (config l) = Some m →
  NoDup cs → (∀ c, c ∈ cs → c ∉ outgoing_connections l) →
  accept_all l false cs =
    if decide (cs = [] ∨ (set_len (outgoing_connections l) + N.of_nat (length cs) ≤ m)%N)
    then Ok (mkLimits (config l) (incoming_connections l)
                      (list_to_set cs ∪ outgoing_connections l))
    else Err MaxOutgoingConnectionsExceeded.
Proof.
  induction cs as [|c cs IH]; intros l m Hm Hnd Hfresh; cbn [accept_all].
  { rewrite decide_True by auto. destruct l; simpl. f_equal. f_equal. set_solver. }
  apply NoDup_cons in Hnd as [Hc Hnd].
  unfold can_accept_connection at 1, accept_established_connection at 1. rewrite Hm.
  destruct (N.leb_spec m (set_len (outgoing_connections l))); simpl.
  { rewrite decide_False; [done|]. intros [?|?]; [done|lia]. }
  assert (set_len ({[c]} ∪ outgoing_connections l) =
          N.succ (set_len (outgoing_connections l))) as Hlen.
  { unfold set_len. rewrite size_union, size_singleton; [lia|]. set_solver. }
  rewrite (IH _ m); simpl; [|done..|].
  - rewrite Hlen, (decide_ext _
      ((c :: cs = []) ∨ (set_len (outgoing_connections l) + N.of_nat (length (c :: cs)) ≤ m)%N)).
    { repeat case_decide; try done. f_equal. f_equal. set_solver. }
    simpl. split; [|naive_solver lia].
    intros [->|?]; right; simpl; lia.
  - intros c' Hc'. set_solver.
Qed.

(** ** Properties *)

(** In every state the connection tracker reaches, the established connections of a
    limited direction stay within its limit (and none are kept for an unlimited
    direction). *)
Theorem limits_respected c l :
  rtc limits_step (ConnectionLimits_new c) l →
  config l = c ∧ limits_wf l.
Proof.
  intros Hr. remember (ConnectionLimits_new c) as l0 eqn:E0.
  assert (config l0 = c ∧ limits_wf l0) as H0 by (subst; auto with litep2p).
  clear E0. induction Hr as [l|l1 l2 l3 Hs _ IH]; [done|].
  apply IH. destruct H0 as [Hc Hwf], Hs; rewrite ?accept_config; auto with litep2p.
Qed.

(** The capacity [on_dial_address] reports is exact: it is at least one, that many
    fresh outgoing connections can be accepted one after the other, and one more is
    refused. When it reports an error, not even one can. *)
Theorem dial_capacity_exact l m cs :
  max_outgoing_connections (config l) = Some m →
  NoDup cs → (∀ c, c ∈ cs → c ∉ outgoing_connections l) →
  match on_dial_address l with
  | Ok n => (1 ≤ n)%N ∧ is_ok (accept_all l false cs) = (N.of_nat (length cs) <=? n)%N
  | Err e => cs ≠ [] → accept_all l false cs = Err e
  end.
Proof.
  intros Hm Hnd Hf. unfold on_dial_address. rewrite (accept_all_outgoing cs l m), Hm by done.
  destruct (N.leb_spec m (set_len (outgoing_connections l))).
  - intros Hne. rewrite decide_False; [done|].
    destruct cs; [done|]. simpl. naive_solver lia.
  - split; [lia|]. case_decide as Hd; simpl; symmetry.
    + apply N.leb_le. destruct Hd as [->|?]; simpl; lia.
    + apply N.leb_gt. destruct (N.le_gt_cases (N.of_nat (length cs))
        (m - set_len (outgoing_connections l))); [|done]. exfalso. apply Hd. right. lia.
Qed.

Definition sample_config : ConnectionLimitsConfig := mkLimitsConfig (Some 1%N) (Some 2%N).

Lemma limits_respected_witness :
  limits_wf (accept_established_connection (ConnectionLimits_new sample_config) 7 true).
Proof.
  apply (limits_respected sample_config). apply rtc_once. by constructor.
Defined.

Lemma dial_capacity_exact_witness :
  on_dial_address (ConnectionLimits_new sample_config) = Ok 2%N ∧
  is_ok (accept_all (ConnectionLimits_new sample_config) false [1%N; 2%N]) = true.
Proof.
  split; [done|].
  refine (proj2 (dial_capacity_exact (ConnectionLimits_new sample_config) 2%N [1%N; 2%N]
                   eq_refl _ _)).
  - by apply (bool_decide_unpack _).
  - set_solver.
Defined.
