(* ===== verification/TransportManager.v ===== *)
(** * Transport manager

    src/src/transport/manager/mod.rs: the component that owns the peers, dials them,
    decides which connections to accept and reports connection events. One handler of the
    source is one definition; [handle] is one turn of [TransportManager::next].

    The transports (TCP, QUIC, WebSocket, WebRTC) are behind the [Transport] trait: the calls
    a handler makes are listed in its effects and the results of the fallible ones are the
    parameter [Transports]. Whether [debug_assert!] is compiled in is the
    parameter [DebugAssertions]. *)

From stdpp Require Import base tactics option list gmap strings.
From Stdlib Require Import ZArith NArith Lia Init.Byte.
From S2P Require Import Prelude Multiaddr AddressStore PeerState ConnectionLimits.

Local Open Scope litep2p_scope.

(** ** State *)

(** [PeerContext] (src/src/transport/manager/types.rs) *)
Record PeerContext := mkPeerContext {
  peer_state : PeerState;
  peer_addresses : AddressStore;
}.

(** [PeerContext::default] *)
Definition PeerContext_default : PeerContext :=
  mkPeerContext (Disconnected None) AddressStore_new.

Inductive InboundProtocol := AcceptInbound | DenyInbound.

#[export] Instance InboundProtocol_eq_dec : EqDecision InboundProtocol.
Proof. solve_decision. Defined.

(** [ProtocolContext], without its codec, channel and keep-alive flag. *)
Record ProtocolContext := mkProtocolContext {
  fallback_names : list string;
  inbound : InboundProtocol;
}.

Record TransportManager := mkTransportManager {
  local_peer_id : PeerId;
  protocols : gmap string ProtocolContext;
  protocol_names : gset string;
  listen_addresses : gset Multiaddr;
  next_connection_id : N;
  transports : list SupportedTransport;
  peers : gmap PeerId PeerContext;
  pending_connections : gmap ConnectionId PeerId;
  connection_limits : ConnectionLimits;
  opening_errors : gmap ConnectionId (list (Multiaddr * DialError));
  pending_accept : list (PeerId * Endpoint);
}.

Definition set_peers (tm : TransportManager) x := mkTransportManager (local_peer_id tm)
  (protocols tm) (protocol_names tm) (listen_addresses tm) (next_connection_id tm)
  (transports tm) x (pending_connections tm) (connection_limits tm) (opening_errors tm)
  (pending_accept tm).
Definition set_pending (tm : TransportManager) x := mkTransportManager (local_peer_id tm)
  (protocols tm) (protocol_names tm) (listen_addresses tm) (next_connection_id tm)
  (transports tm) (peers tm) x (connection_limits tm) (opening_errors tm) (pending_accept tm).
Definition set_limits (tm : TransportManager) x := mkTransportManager (local_peer_id tm)
  (protocols tm) (protocol_names tm) (listen_addresses tm) (next_connection_id tm)
  (transports tm) (peers tm) (pending_connections tm) x (opening_errors tm)
  (pending_accept tm).
Definition set_next_id (tm : TransportManager) x := mkTransportManager (local_peer_id tm)
  (protocols tm) (protocol_names tm) (listen_addresses tm) x (transports tm) (peers tm)
  (pending_connections tm) (connection_limits tm) (opening_errors tm) (pending_accept tm).
Definition set_errors (tm : TransportManager) x := mkTransportManager (local_peer_id tm)
  (protocols tm) (protocol_names tm) (listen_addresses tm) (next_connection_id tm)
  (transports tm) (peers tm) (pending_connections tm) (connection_limits tm) x
  (pending_accept tm).
Definition set_accepting (tm : TransportManager) x := mkTransportManager (local_peer_id tm)
  (protocols tm) (protocol_names tm) (listen_addresses tm) (next_connection_id tm)
  (transports tm) (peers tm) (pending_connections tm) (connection_limits tm)
  (opening_errors tm) x.
Definition set_protocols (tm : TransportManager) x y := mkTransportManager (local_peer_id tm)
  x y (listen_addresses tm) (next_connection_id tm) (transports tm) (peers tm)
  (pending_connections tm) (connection_limits tm) (opening_errors tm) (pending_accept tm).
Definition set_listen (tm : TransportManager) x := mkTransportManager (local_peer_id tm)
  (protocols tm) (protocol_names tm) x (next_connection_id tm) (transports tm) (peers tm)
  (pending_connections tm) (connection_limits tm) (opening_errors tm) (pending_accept tm).
Definition set_transports (tm : TransportManager) x := mkTransportManager (local_peer_id tm)
  (protocols tm) (protocol_names tm) (listen_addresses tm) (next_connection_id tm) x
  (peers tm) (pending_connections tm) (connection_limits tm) (opening_errors tm)
  (pending_accept tm).

(** [peers.entry(peer).or_default()] *)
Definition entry (tm : TransportManager) (p : PeerId) : PeerContext :=
  default PeerContext_default (peers tm !! p).
Definition put (tm : TransportManager) (p : PeerId) (c : PeerContext) : TransportManager :=
  set_peers tm (<[p := c]> (peers tm)).

(** ** Interface to the transports *)

(** Calls made through the [Transport] trait, and notifications to protocols
    ([InnerTransportEvent::DialFailure]). *)
Inductive Effect :=
| CallDial (t : SupportedTransport) (c : ConnectionId) (a : Multiaddr)
| CallOpen (t : SupportedTransport) (c : ConnectionId) (l : list Multiaddr)
| CallNegotiate (t : SupportedTransport) (c : ConnectionId)
| CallCancel (t : SupportedTransport) (c : ConnectionId)
| CallAccept (t : SupportedTransport) (c : ConnectionId)
| CallReject (t : SupportedTransport) (c : ConnectionId)
| CallAcceptPending (t : SupportedTransport) (c : ConnectionId)
| CallRejectPending (t : SupportedTransport) (c : ConnectionId)
| NotifyDialFailure (protocol : string) (p : PeerId) (l : list Multiaddr).

(** Whether the fallible calls whose result the manager inspects succeed. *)
Class Transports : Type := {
  dial_succeeds : SupportedTransport → ConnectionId → Multiaddr → bool;
  open_succeeds : SupportedTransport → ConnectionId → list Multiaddr → bool;
  negotiate_succeeds : SupportedTransport → ConnectionId → bool;
  accept_succeeds : SupportedTransport → ConnectionId → bool;
}.

(** Whether the manager is compiled with debug assertions. *)
Class DebugAssertions : Type := debug_assertions : bool.

(** The errors of [error::Error] the handlers return. *)
Inductive Error :=
| ErrConnectionLimit (e : ConnectionLimitsError)
| ErrTriedToDialSelf
| ErrAlreadyConnected
| ErrNoAddressAvailable (p : PeerId)
| ErrPeerIdMissing
| ErrTransportNotSupported (a : Multiaddr)
| ErrTransport
| ErrInvalidState.

(** [TransportEvent] (src/src/transport/mod.rs) *)
Inductive TransportEvent :=
| ConnectionEstablished (p : PeerId) (e : Endpoint)
| PendingInboundConnection (c : ConnectionId)
| ConnectionOpened (c : ConnectionId) (a : Multiaddr) (errors : list (Multiaddr * DialError))
| ConnectionClosed (p : PeerId) (c : ConnectionId)
| DialFailure (c : ConnectionId) (a : Multiaddr) (error : DialError)
| OpenFailure (c : ConnectionId) (errors : list (Multiaddr * DialError)).

Inductive ConnectionEstablishedResult := Accept | Reject.

(** ** Construction and registration *)

(** [TransportManagerBuilder::build] *)
Definition build (local : PeerId) (limits : ConnectionLimitsConfig) : TransportManager :=
  mkTransportManager local ∅ ∅ ∅ 0 [] ∅ ∅ (ConnectionLimits_new limits) ∅ [].

(** [TransportManager::register_protocol] *)
Definition register_protocol (tm : TransportManager) (protocol : string)
    (fallbacks : list string) (inb : InboundProtocol) : outcome TransportManager :=
  if decide (protocol ∈ protocol_names tm) then Panic
  else if decide (Exists (λ f, f ∈ protocol_names tm) fallbacks) then Panic
  else Done (set_protocols tm
               (<[protocol := mkProtocolContext fallbacks inb]> (protocols tm))
               (list_to_set fallbacks ∪ ({[protocol]} ∪ protocol_names tm))).

(** [TransportManager::unregister_protocol] *)
Definition unregister_protocol (tm : TransportManager) (protocol : string) :
    TransportManager :=
  match protocols tm !! protocol with
  | None => tm
  | Some context =>
      set_protocols tm (delete protocol (protocols tm))
        (foldl (λ s f, s ∖ {[f]}) (protocol_names tm) (fallback_names context))
  end.

(** [TransportManager::advertised_protocols] *)
Definition advertised_protocols `{HashOrder} (tm : TransportManager) : list string :=
  (filter (λ kv, inbound kv.2 = AcceptInbound) (map_order (protocols tm))).*1.

(** [TransportManager::register_transport] *)
Definition register_transport (tm : TransportManager) (t : SupportedTransport) :
    outcome TransportManager :=
  if decide (t ∈ transports tm) then Panic else Done (set_transports tm (transports tm ++ [t])).

(** [TransportManager::register_listen_address] *)
Definition register_listen_address (tm : TransportManager) (a : Multiaddr) :
    outcome TransportManager :=
  if existsb is_p2p a then Panic
  else Done (set_listen tm
               ({[with_protocol a (P2p (multihash (local_peer_id tm)))]} ∪
                ({[a]} ∪ listen_addresses tm))).

(** [TransportManager::next_connection_id] *)
Definition take_connection_id (tm : TransportManager) : ConnectionId * TransportManager :=
  (next_connection_id tm, set_next_id tm (usize_wrapping_add (next_connection_id tm) 1)).

(** ** Dialing *)

Definition is_quic (p : Protocol) : bool := match p with QuicV1 => true | _ => false end.
Definition is_websocket (p : Protocol) : bool :=
  match p with Ws _ | Wss _ => true | _ => false end.

(** The transport [supported_transports_addresses] files an address under. *)
Definition address_transport (a : Multiaddr) : SupportedTransport :=
  if existsb is_quic a then TransportQuic
  else if existsb is_websocket a then TransportWebSocket
  else TransportTcp.

(** [TransportManager::supported_transports_addresses] *)
Definition supported_transports_addresses (l : list Multiaddr) :
    gmap SupportedTransport (list Multiaddr) :=
  foldl (λ m a, <[address_transport a :=
                    default [] (m !! address_transport a) ++ [a]]> m) ∅ l.

Section manager.
Context `{IpNetwork, HashOrder, DebugAssertions}.

(** The loop of [dial] over the transports: stops at the first failing [open]. *)
Fixpoint open_all `{Transports} (installed : list SupportedTransport) (c : ConnectionId)
    (ts : list (SupportedTransport * list Multiaddr)) : list Effect * result Error unit :=
  match ts with
  | [] => ([], Ok tt)
  | (t, l) :: ts =>
      if decide (l = []) then open_all installed c ts
      else if decide (t ∈ installed) then
        if open_succeeds t c l
        then let '(es, r) := open_all installed c ts in (CallOpen t c l :: es, r)
        else ([CallOpen t c l], Err ErrTransport)
      else open_all installed c ts
  end.

(** [TransportManager::dial] *)
Definition dial `{Transports} (tm : TransportManager) (peer : PeerId) :
    TransportManager * list Effect * result Error unit :=
  match on_dial_address (connection_limits tm) with
  | Err e => (tm, [], Err (ErrConnectionLimit e))
  | Ok available_capacity =>
      if decide (peer = local_peer_id tm) then (tm, [], Err ErrTriedToDialSelf)
      else
        let context := entry tm peer in
        let tm := put tm peer context in
        match can_dial (peer_state context) with
        | AlreadyConnected => (tm, [], Err ErrAlreadyConnected)
        | DialingInProgress => (tm, [], Ok tt)
        | StateDialOk =>
            let dial_addrs := get_addresses (peer_addresses context) available_capacity in
            match dial_addrs with
            | [] => (tm, [], Err (ErrNoAddressAvailable peer))
            | _ =>
                let '(c, tm) := take_connection_id tm in
                let ts := supported_transports_addresses dial_addrs in
                let '(st, _) := dial_addresses (peer_state context) c
                                  (list_to_set dial_addrs) (dom ts) in
                let tm := put tm peer (mkPeerContext st (peer_addresses context)) in
                let '(es, r) := open_all (transports tm) c (map_order ts) in
                match r with
                | Err e => (tm, es, Err e)
                | Ok _ => (set_pending tm (<[c := peer]> (pending_connections tm)), es, Ok tt)
                end
            end
        end
  end.

(** The transport [dial_address] selects for an address, [None] if it is not supported. *)
Definition dial_transport (a : Multiaddr) : option SupportedTransport :=
  match a with
  | (Ip4 _ | Ip6 _ | Dns _ | Dns4 _ | Dns6 _) :: rest =>
      match rest with
      | Tcp _ :: rest =>
          match rest with
          | (Ws _ | Wss _) :: _ => Some TransportWebSocket
          | P2p _ :: _ => Some TransportTcp
          | _ => None
          end
      | Udp _ :: rest => match rest with QuicV1 :: _ => Some TransportQuic | _ => None end
      | _ => None
      end
  | _ => None
  end.

(** [TransportManager::dial_address] *)
Definition dial_address `{Transports} (tm : TransportManager) (a : Multiaddr) :
    outcome (TransportManager * list Effect * result Error unit) :=
  match on_dial_address (connection_limits tm) with
  | Err e => Done (tm, [], Err (ErrConnectionLimit e))
  | Ok _ =>
      match from_multiaddr a with
      | None => Done (tm, [], Err ErrPeerIdMissing)
      | Some record =>
          if decide (address record ∈ listen_addresses tm)
          then Done (tm, [], Err ErrTriedToDialSelf)
          else
            match dial_transport (address record) with
            | None => Done (tm, [], Err (ErrTransportNotSupported (address record)))
            | Some t =>
                match try_from_multiaddr (address record) with
                | None => Panic
                | Some peer =>
                    let '(c, tm) := take_connection_id tm in
                    let dial_record := mkConnectionRecord (address record) c in
                    let context := entry tm peer in
                    run addrs <- insert (peer_addresses context) record ;;
                    let '(st, r) := dial_single_address (peer_state context) dial_record in
                    let tm := put tm peer (mkPeerContext st addrs) in
                    match r with
                    | AlreadyConnected => Done (tm, [], Err ErrAlreadyConnected)
                    | DialingInProgress => Done (tm, [], Ok tt)
                    | StateDialOk =>
                        if decide (t ∈ transports tm) then
                          if dial_succeeds t c (address record)
                          then Done (set_pending tm (<[c := peer]> (pending_connections tm)),
                                     [CallDial t c (address record)], Ok tt)
                          else Done (tm, [CallDial t c (address record)], Err ErrTransport)
                        else Done (tm, [], Err (ErrTransportNotSupported (address record)))
                    end
                end
            end
      end
  end.

(** ** Transport events *)

(** [TransportManager::update_address_on_dial_failure] *)
Definition update_address_on_dial_failure (tm : TransportManager) (a : Multiaddr)
    (e : DialError) : outcome TransportManager :=
  match try_from_multiaddr a with
  | None => Done tm
  | Some peer =>
      let context := entry tm peer in
      run addrs <- insert (peer_addresses context) (AddressRecord_new peer a (error_score e)) ;;
      Done (put tm peer (mkPeerContext (peer_state context) addrs))
  end.

(** The loops [for (addr, error) in &errors] of [next]. *)
Definition update_addresses (tm : TransportManager) (errors : list (Multiaddr * DialError)) :
    outcome TransportManager :=
  outcome_fold (λ tm ae, update_address_on_dial_failure tm ae.1 ae.2) errors tm.

(** [TransportManager::on_dial_failure] *)
Definition tm_on_dial_failure (tm : TransportManager) (c : ConnectionId) :
    TransportManager * result Error unit :=
  match pending_connections tm !! c with
  | None => (tm, Err ErrInvalidState)
  | Some peer =>
      let tm := set_pending tm (delete c (pending_connections tm)) in
      let context := entry tm peer in
      let '(st, _) := on_dial_failure (peer_state context) c in
      (put tm peer (mkPeerContext st (peer_addresses context)), Ok tt)
  end.

(** [TransportManager::on_pending_incoming_connection] *)
Definition on_pending_incoming_connection (tm : TransportManager) : result Error unit :=
  match on_incoming (connection_limits tm) with
  | Ok _ => Ok tt
  | Err e => Err (ErrConnectionLimit e)
  end.

(** [TransportManager::on_connection_closed] *)
Definition tm_on_connection_closed (tm : TransportManager) (peer : PeerId)
    (c : ConnectionId) : TransportManager * option TransportEvent :=
  let tm := set_limits tm (limits_on_connection_closed (connection_limits tm) c) in
  let context := entry tm peer in
  let '(st, closed) := on_connection_closed (peer_state context) c in
  (put tm peer (mkPeerContext st (peer_addresses context)),
   if closed then Some (ConnectionClosed peer c) else None).

(** [TransportManager::update_address_on_connection_established] *)
Definition update_address_on_connection_established (tm : TransportManager) (peer : PeerId)
    (e : Endpoint) : outcome TransportManager :=
  if is_listener e then Done tm
  else
    let record := AddressRecord_new peer (endpoint_address e) scores.CONNECTION_ESTABLISHED in
    let context := entry tm peer in
    run addrs <- insert (peer_addresses context) record ;;
    Done (put tm peer (mkPeerContext (peer_state context) addrs)).

(** [transports.get_mut(t).expect("transport to exist").cancel(c)] for each transport. *)
Fixpoint cancel_all (installed : list SupportedTransport) (c : ConnectionId)
    (ts : list SupportedTransport) : outcome (list Effect) :=
  match ts with
  | [] => Done []
  | t :: ts =>
      if decide (t ∈ installed)
      then run es <- cancel_all installed c ts ;; Done (CallCancel t c :: es)
      else Panic
  end.

(** [TransportManager::on_connection_established] *)
Definition tm_on_connection_established (tm : TransportManager) (peer : PeerId)
    (e : Endpoint) :
    outcome (TransportManager * list Effect * result Error ConnectionEstablishedResult) :=
  run tm <- update_address_on_connection_established tm peer e ;;
  let c := endpoint_connection_id e in
  let mismatch := match pending_connections tm !! c with
                  | Some dialed_peer => bool_decide (dialed_peer ≠ peer)
                  | None => false
                  end in
  let tm := set_pending tm (delete c (pending_connections tm)) in
  if mismatch : bool
  then debug_assert debug_assertions False (Done (tm, [], Err ErrInvalidState))
  else
    match can_accept_connection (connection_limits tm) (is_listener e) with
    | Err _ => Done (tm, [], Ok Reject)
    | Ok _ =>
        let context := entry tm peer in
        let previous := peer_state context in
        let '(st, accepted) := on_connection_established previous (from_endpoint peer e) in
        let tm := put tm peer (mkPeerContext st (peer_addresses context)) in
        if accepted then
          let tm := set_limits tm (accept_established_connection (connection_limits tm) c
                                     (is_listener e)) in
          match previous with
          | Opening _ opening_id ts =>
              run es <- cancel_all (transports tm) opening_id (set_order ts) ;;
              Done (set_pending tm (delete opening_id (pending_connections tm)), es, Ok Accept)
          | _ => Done (tm, [], Ok Accept)
          end
        else Done (tm, [], Ok Reject)
    end.

(** [TransportManager::on_connection_opened] *)
Definition tm_on_connection_opened `{Transports} (tm : TransportManager)
    (t : SupportedTransport) (c : ConnectionId) (a : Multiaddr) :
    outcome (TransportManager * list Effect * result Error unit) :=
  match pending_connections tm !! c with
  | None => debug_assert debug_assertions False (Done (tm, [], Err ErrInvalidState))
  | Some peer =>
      let tm := set_pending tm (delete c (pending_connections tm)) in
      let context := entry tm peer in
      run addrs <- insert (peer_addresses context)
                     (AddressRecord_new peer a scores.CONNECTION_ESTABLISHED) ;;
      let previous := peer_state context in
      let '(st, advanced) := on_connection_opened previous (ConnectionRecord_new peer a c) in
      let tm := put tm peer (mkPeerContext st addrs) in
      if negb advanced then Done (tm, [], Err ErrInvalidState)
      else
        match previous with
        | Opening _ c ts =>
            run es <- cancel_all (transports tm) c (set_order ts) ;;
            if decide (t ∈ transports tm) then
              let es := es ++ [CallNegotiate t c] in
              if negotiate_succeeds t c
              then Done (set_pending tm (<[c := peer]> (pending_connections tm)), es, Ok tt)
              else Done (put tm peer (mkPeerContext (Disconnected None) addrs), es,
                         Err ErrInvalidState)
            else Panic
        | _ => Done (tm, [], Err ErrInvalidState)
        end
  end.

(** [TransportManager::on_open_failure] *)
Definition tm_on_open_failure (tm : TransportManager) (t : SupportedTransport)
    (c : ConnectionId) : TransportManager * result Error (option PeerId) :=
  match pending_connections tm !! c with
  | None => (tm, Err ErrInvalidState)
  | Some peer =>
      let context := entry tm peer in
      let previous := peer_state context in
      let '(st, last_transport) := on_open_failure previous t in
      let tm := put tm peer (mkPeerContext st (peer_addresses context)) in
      if decide (st = previous) then (tm, Err ErrInvalidState)
      else if last_transport
      then (set_pending tm (delete c (pending_connections tm)), Ok (Some peer))
      else (tm, Ok None)
  end.

(** Inform every protocol of a dial failure. *)
Definition notify_protocols (tm : TransportManager) (p : PeerId) (l : list Multiaddr) :
    list Effect :=
  (λ kv, NotifyDialFailure kv.1 p l) <$> map_order (protocols tm).

(** ** The event loop *)

(** What [next] waits for: a finished accept future, an event or a command of its
    channels, an event of transport [t]. In between, a transport may take a connection ID
    for an inbound connection from the shared counter ([TransportHandle::next_connection_id]). *)
Inductive Input :=
| InAccepted (p : PeerId) (e : Endpoint) (succeeded : bool)
| InConnectionClosed (p : PeerId) (c : ConnectionId)
| InDialPeer (p : PeerId)
| InDialAddress (a : Multiaddr)
| InUnregister (protocol : string)
| InTransport (t : SupportedTransport) (e : TransportEvent)
| InAllocateId.

(** The future that finished leaves [pending_accept]. *)
Fixpoint remove_accept (p : PeerId) (e : Endpoint) (l : list (PeerId * Endpoint)) :
    list (PeerId * Endpoint) :=
  match l with
  | [] => []
  | x :: l => if decide (x = (p, e)) then l else x :: remove_accept p e l
  end.

(** The arms of [next] for the events of a transport [t], one per [TransportEvent]. *)
Definition handle_dial_failure (tm : TransportManager) (c : ConnectionId) (a : Multiaddr)
    (error : DialError) : outcome (TransportManager * list Effect * option TransportEvent) :=
  run tm <- update_address_on_dial_failure tm a error ;;
  let '(tm, r) := tm_on_dial_failure tm c in
  match r with
  | Err _ => Done (tm, [], None)
  | Ok _ =>
      match try_from_multiaddr a with
      | Some peer => Done (tm, notify_protocols tm peer [a], Some (DialFailure c a error))
      | None => debug_assert debug_assertions False (Done (tm, [], Some (DialFailure c a error)))
      end
  end.

Definition handle_connection_established `{Transports} (tm : TransportManager)
    (t : SupportedTransport) (peer : PeerId) (endpoint : Endpoint) :
    outcome (TransportManager * list Effect * option TransportEvent) :=
  let c := endpoint_connection_id endpoint in
  let tm := set_errors tm (delete c (opening_errors tm)) in
  run (tm, es, r) <- tm_on_connection_established tm peer endpoint ;;
  if decide (t ∈ transports tm) then
    match r with
    | Err _ | Ok Reject => Done (tm, es ++ [CallReject t c], None)
    | Ok Accept =>
        let es := es ++ [CallAccept t c] in
        if accept_succeeds t c
        then Done (set_accepting tm (pending_accept tm ++ [(peer, endpoint)]), es, None)
        else Done ((tm_on_connection_closed tm peer c).1, es, None)
    end
  else Panic.

Definition handle_connection_opened `{Transports} (tm : TransportManager)
    (t : SupportedTransport) (c : ConnectionId) (a : Multiaddr)
    (errors : list (Multiaddr * DialError)) :
    outcome (TransportManager * list Effect * option TransportEvent) :=
  let tm := set_errors tm (delete c (opening_errors tm)) in
  run tm <- update_addresses tm errors ;;
  run (tm, es, _) <- tm_on_connection_opened tm t c a ;;
  Done (tm, es, None).

Definition handle_open_failure (tm : TransportManager) (t : SupportedTransport)
    (c : ConnectionId) (errors : list (Multiaddr * DialError)) :
    outcome (TransportManager * list Effect * option TransportEvent) :=
  run tm <- update_addresses tm errors ;;
  let '(tm, r) := tm_on_open_failure tm t c in
  match r with
  | Err _ => Done (tm, [], None)
  | Ok (Some peer) =>
      let es := notify_protocols tm peer errors.*1 in
      let grouped := default [] (opening_errors tm !! c) ++ errors in
      Done (set_errors tm (delete c (opening_errors tm)), es, Some (OpenFailure c grouped))
  | Ok None =>
      Done (set_errors tm
              (<[c := default [] (opening_errors tm !! c) ++ errors]> (opening_errors tm)),
            [], None)
  end.

Definition handle_pending_inbound (tm : TransportManager) (t : SupportedTransport)
    (c : ConnectionId) : outcome (TransportManager * list Effect * option TransportEvent) :=
  if decide (t ∈ transports tm) then
    if is_ok (on_pending_incoming_connection tm)
    then Done (tm, [CallAcceptPending t c], None)
    else Done (tm, [CallRejectPending t c], None)
  else Panic.

Definition handle_transport_event `{Transports} (tm : TransportManager)
    (t : SupportedTransport) (e : TransportEvent) :
    outcome (TransportManager * list Effect * option TransportEvent) :=
  match e with
  | DialFailure c a error => handle_dial_failure tm c a error
  | ConnectionEstablished peer endpoint => handle_connection_established tm t peer endpoint
  | ConnectionOpened c a errors => handle_connection_opened tm t c a errors
  | OpenFailure c errors => handle_open_failure tm t c errors
  | PendingInboundConnection c => handle_pending_inbound tm t c
  | ConnectionClosed _ _ => Panic
  end.

(** One turn of [TransportManager::next]. *)
Definition handle `{Transports} (tm : TransportManager) (i : Input) :
    outcome (TransportManager * list Effect * option TransportEvent) :=
  match i with
  | InAccepted p e succeeded =>
      let tm := set_accepting tm (remove_accept p e (pending_accept tm)) in
      if succeeded then Done (tm, [], Some (ConnectionEstablished p e))
      else Done ((tm_on_connection_closed tm p (endpoint_connection_id e)).1, [], None)
  | InConnectionClosed p c =>
      let '(tm, ev) := tm_on_connection_closed tm p c in Done (tm, [], ev)
  | InDialPeer p => let '(tm, es, _) := dial tm p in Done (tm, es, None)
  | InDialAddress a => run (tm, es, _) <- dial_address tm a ;; Done (tm, es, None)
  | InUnregister protocol => Done (unregister_protocol tm protocol, [], None)
  | InTransport t e => handle_transport_event tm t e
  | InAllocateId => Done ((take_connection_id tm).2, [], None)
  end.
End manager.

Arguments handle_dial_failure {_ _ _} _ _ _ _ /.
Arguments handle_connection_established {_ _ _ _} _ _ _ _ /.
Arguments handle_connection_opened {_ _ _ _} _ _ _ _ _ /.
Arguments handle_open_failure {_ _} _ _ _ _ /.
Arguments handle_pending_inbound _ _ _ /.
