(* ===== verification/TransportManagerFacts.v ===== *)
(** * Correctness of the transport manager

    Invariants of [TransportManager.handle] and the behaviour of its handlers. *)

From stdpp Require Import base tactics option list gmap strings.
From Stdlib Require Import ZArith NArith Lia Init.Byte.
From S2P Require Import Prelude Multiaddr AddressStore PeerState ConnectionLimits.
From S2P Require Import TransportManager.

Local Open Scope litep2p_scope.

(** ** Dial bookkeeping of a peer state *)

(** The connection a peer state is waiting for. *)
Definition pending_id (s : PeerState) : option ConnectionId :=
  match pending (abs s) with
  | Some (PendingOpen c _) | Some (PendingDial c) => Some c
  | None => None
  end.

(** The transports a peer is being opened on. *)
Definition opening_transports (s : PeerState) : gset SupportedTransport :=
  match s with Opening _ _ ts => ts | _ => ∅ end.

Lemma on_dial_failure_pending s c c' :
  pending_id s = Some c' → c' ≠ c → pending_id (on_dial_failure s c).1 = Some c'.
Proof.
  unfold pending_id. intros. case_peer_state s; simpl in *; try case_decide; by simplify_eq/=.
Qed.

Lemma on_connection_closed_pending s c : pending_id (on_connection_closed s c).1 = pending_id s.
Proof. unfold pending_id. case_peer_state s; simpl; repeat case_decide; done. Qed.

Lemma on_connection_established_pending s r c :
  pending_id s = Some c → c ≠ connection_id r → (∀ a i t, s ≠ Opening a i t) →
  pending_id (on_connection_established s r).1 = Some c.
Proof.
  unfold pending_id. intros.
  case_peer_state s; simpl in *; try case_decide; simplify_eq/=; done || naive_solver.
Qed.

Lemma on_open_failure_pending s t :
  (on_open_failure s t).2 = false → pending_id (on_open_failure s t).1 = pending_id s.
Proof. unfold pending_id. case_peer_state s; simpl; try case_decide; done. Qed.

Lemma opening_transports_step s e :
  (∀ c a t, e ≠ EvDialMany c a t) →
  opening_transports (peer_step s e).1 ⊆ opening_transports s.
Proof.
  intros. destruct e; case_peer_state s; unfold peer_step, dial_single_address, dial_addresses,
    on_dial_failure, on_connection_established, on_connection_closed, on_open_failure,
    on_connection_opened; simpl; repeat case_decide; simpl; set_solver.
Qed.

(** ** The invariant, on the parts of the state it speaks of *)

Definition context_of (ps : gmap PeerId PeerContext) (p : PeerId) : PeerContext :=
  default PeerContext_default (ps !! p).

Record wf (ps : gmap PeerId PeerContext) (pend : gmap ConnectionId PeerId)
    (l : ConnectionLimits) : Prop := {
  wf_stores p c : ps !! p = Some c → store_wf (peer_addresses c);
  wf_limits : limits_wf l;
  wf_pending cid p : pend !! cid = Some p → pending_id (peer_state (context_of ps p)) = Some cid;
}.

(** Every address store is well formed, the connection limits hold, and every pending
    connection is the one its peer's state is waiting for. *)
Definition tm_wf (tm : TransportManager) : Prop :=
  wf (peers tm) (pending_connections tm) (connection_limits tm).

Lemma context_of_insert ps p c q :
  context_of (<[p := c]> ps) q = if decide (q = p) then c else context_of ps q.
Proof.
  unfold context_of. destruct (decide (q = p)) as [->|Hne].
  - by rewrite lookup_insert_eq.
  - by rewrite lookup_insert_ne.
Qed.

Lemma wf_context ps pend l p : wf ps pend l → store_wf (peer_addresses (context_of ps p)).
Proof.
  intros Hwf. unfold context_of. destruct (ps !! p) eqn:E; simpl; [by eapply wf_stores|].
  apply AddressStore_new_wf.
Qed.

(** One peer's context, the pending connections and the limits change. *)
Lemma wf_step ps pend l p c pend' l' :
  wf ps pend l → store_wf (peer_addresses c) → limits_wf l' →
  (∀ cid q, q ≠ p → pend' !! cid = Some q → pend !! cid = Some q) →
  (∀ cid, pend' !! cid = Some p → pending_id (peer_state c) = Some cid) →
  wf (<[p := c]> ps) pend' l'.
Proof.
  intros Hwf Hst Hl Hother Hp. split; [|done|].
  - intros q x [[<- <-]|[_ ?]]%lookup_insert_Some; [done|by eapply wf_stores].
  - intros cid q Hq. rewrite context_of_insert.
    destruct (decide (q = p)) as [->|Hne]; [auto|]. eapply wf_pending; eauto.
Qed.

(** Only addresses of a peer change. *)
Lemma wf_step_addresses ps pend l p st :
  wf ps pend l → store_wf st →
  wf (<[p := mkPeerContext (peer_state (context_of ps p)) st]> ps) pend l.
Proof.
  intros Hwf Hst. eapply wf_step; eauto using wf_limits. simpl.
  intros cid Hc. by eapply wf_pending.
Qed.

Lemma wf_delete ps pend l c : wf ps pend l → wf ps (delete c pend) l.
Proof.
  intros Hwf. split; [apply Hwf|apply Hwf|].
  intros cid p [_ ?]%lookup_delete_Some. by eapply wf_pending.
Qed.

Lemma wf_with_limits ps pend l l' : wf ps pend l → limits_wf l' → wf ps pend l'.
Proof. intros Hwf Hl. split; [apply Hwf|done|apply Hwf]. Qed.

#[export] Hint Resolve wf_context wf_limits wf_step_addresses wf_delete : litep2p.

(** [insert] on the store of a well-formed manager. *)
Lemma insert_total `{IpNetwork, HashOrder} st r : store_wf st → i32 (score r) →
  ∃ st', insert st r = Done st' ∧ store_wf st'.
Proof.
  intros Hwf Hr. destruct (insert_post_complete st r Hwf) as (st' & ? & Hp).
  exists st'. split; [done|]. by apply (insert_post_wf st r).
Qed.

Lemma error_score_i32 e : i32 (error_score e).
Proof. destruct e; split; by vm_compute. Qed.

Lemma AddressRecord_new_score p a s : score (AddressRecord_new p a s) = s.
Proof. done. Qed.

(** [m] panics or its result satisfies [P]. *)
Definition outcome_post {A} (m : outcome A) (P : A → Prop) : Prop :=
  match m with Done a => P a | Panic => True end.

Lemma outcome_post_bind {A B} (m : outcome A) (k : A → outcome B) (P : B → Prop) :
  outcome_post m (λ a, outcome_post (k a) P) → outcome_post (outcome_bind m k) P.
Proof. by destruct m. Qed.

Lemma outcome_post_impl {A} (m : outcome A) (P Q : A → Prop) :
  outcome_post m P → (∀ a, P a → Q a) → outcome_post m Q.
Proof. destruct m; simpl; auto. Qed.

Lemma outcome_post_assert {A} debug (Q : Prop) `{Decision Q} (m : outcome A) (P : A → Prop) :
  outcome_post m P → outcome_post (debug_assert debug Q m) P.
Proof. unfold debug_assert. by repeat case_match. Qed.

Section invariant.
Context `{IpNetwork, HashOrder, DebugAssertions, Transports}.
Implicit Types (tm : TransportManager).

Lemma insert_post_outcome st r : store_wf st → i32 (score r) →
  outcome_post (insert st r) store_wf.
Proof. intros Hwf Hr. by destruct (insert_total st r Hwf Hr) as (st' & -> & ?). Qed.

Lemma update_address_wf tm a e :
  tm_wf tm → outcome_post (update_address_on_dial_failure tm a e) tm_wf.
Proof.
  intros Hwf. unfold update_address_on_dial_failure. case_match; [|done].
  apply outcome_post_bind. eapply outcome_post_impl.
  { apply insert_post_outcome; [by eapply wf_context|apply error_score_i32]. }
  intros st Hst. simpl. by apply wf_step_addresses.
Qed.

Lemma update_addresses_wf errors : ∀ tm,
  tm_wf tm → outcome_post (update_addresses tm errors) tm_wf.
Proof.
  unfold update_addresses. induction errors as [|[a e] errors IH]; intros tm Hwf; simpl; [done|].
  apply outcome_post_bind. eapply outcome_post_impl; [by apply update_address_wf|].
  intros tm' Hwf'. by apply IH.
Qed.

Lemma tm_on_dial_failure_wf tm c : tm_wf tm → tm_wf (tm_on_dial_failure tm c).1.
Proof.
  intros Hwf. unfold tm_on_dial_failure.
  destruct (pending_connections tm !! c) as [p|] eqn:Hc; [|done].
  change (entry _ p) with (context_of (peers tm) p).
  destruct (on_dial_failure _ c) as [st b] eqn:Hst. unfold tm_wf; simpl.
  eapply wf_step; eauto with litep2p.
  - by intros cid q _ [_ ?]%lookup_delete_Some.
  - intros cid [? Hp]%lookup_delete_Some. simpl.
    pose proof (on_dial_failure_pending _ c cid (wf_pending _ _ _ Hwf _ _ Hp)) as Hx.
    rewrite Hst in Hx. by apply Hx.
Qed.

Lemma tm_on_connection_closed_wf tm p c : tm_wf tm → tm_wf (tm_on_connection_closed tm p c).1.
Proof.
  intros Hwf. unfold tm_on_connection_closed.
  change (entry _ p) with (context_of (peers tm) p).
  destruct (on_connection_closed _ c) as [st b] eqn:Hst. unfold tm_wf; simpl.
  eapply wf_step; eauto with litep2p.
  intros cid Hp. simpl. pose proof (on_connection_closed_pending
    (peer_state (context_of (peers tm) p)) c) as Hx. rewrite Hst in Hx. simpl in Hx.
  rewrite Hx. by eapply wf_pending.
Qed.

Lemma update_established_wf tm p e :
  tm_wf tm → outcome_post (update_address_on_connection_established tm p e) tm_wf.
Proof.
  intros Hwf. unfold update_address_on_connection_established.
  destruct (is_listener e); [done|].
  apply outcome_post_bind. eapply outcome_post_impl.
  { apply insert_post_outcome; [by eapply wf_context|]. split; by vm_compute. }
  intros st Hst. simpl. by apply wf_step_addresses.
Qed.

Lemma can_accept_unit l b u : can_accept_connection l b = Ok u →
  can_accept_connection l b = Ok tt.
Proof. by destruct u. Qed.

Lemma tm_on_connection_established_wf tm p e :
  tm_wf tm →
  outcome_post (tm_on_connection_established tm p e) (λ r, tm_wf r.1.1).
Proof.
  intros Hwf. unfold tm_on_connection_established.
  apply outcome_post_bind. eapply outcome_post_impl; [by apply update_established_wf|].
  clear tm Hwf. intros tm Hwf. set (c := endpoint_connection_id e).
  assert (tm_wf (set_pending tm (delete c (pending_connections tm)))) as Hdel
    by (by apply wf_delete).
  destruct (match _ with Some _ => _ | None => _ end) eqn:Hmis; [by apply outcome_post_assert|].
  destruct (can_accept_connection _ _) eqn:Hacc; [|done]. apply can_accept_unit in Hacc.
  change (entry _ p) with (context_of (peers tm) p).
  set (s := peer_state (context_of (peers tm) p)) in *.
  destruct (on_connection_established s (from_endpoint p e)) as [st b] eqn:Hst.
  assert (∀ cid, delete c (pending_connections tm) !! cid = Some p →
    (∀ a i t, s ≠ Opening a i t) → pending_id st = Some cid) as Hkeep.
  { intros cid [Hne Hp]%lookup_delete_Some Hno.
    change st with (st, b).1. rewrite <- Hst. apply on_connection_established_pending.
    - exact (wf_pending _ _ _ Hwf _ _ Hp).
    - simpl. intros ->. by apply Hne.
    - done. }
  assert (limits_wf (accept_established_connection (connection_limits tm) c (is_listener e)))
    as Hl by (apply accept_wf; [apply Hwf|done]).
  destruct b; simpl.
  - destruct s as [| xa i ts | |] eqn:Hs; simpl;
      try (eapply wf_step; [exact Hdel|by eapply wf_context|done|naive_solver|];
           intros cid Hp; apply Hkeep; [done|naive_solver]).
    apply outcome_post_bind. destruct (cancel_all _ _ _); simpl; [|done].
    eapply wf_step; [exact Hdel|by eapply wf_context|done|..]; simpl.
    + by intros cid q _ [_ ?]%lookup_delete_Some.
    + intros cid [Hne [_ Hp]%lookup_delete_Some]%lookup_delete_Some. exfalso.
      apply (wf_pending _ _ _ Hwf) in Hp. fold s in Hp. rewrite Hs in Hp.
      by injection Hp.
  - eapply wf_step; [exact Hdel|by eapply wf_context|apply Hwf|naive_solver|].
    intros cid Hp. apply Hkeep; [done|]. intros xa i t Hs. rewrite Hs in Hst. done.
Qed.

Lemma tm_on_connection_opened_wf tm t c a :
  tm_wf tm → outcome_post (tm_on_connection_opened tm t c a) (λ r, tm_wf r.1.1).
Proof.
  intros Hwf. unfold tm_on_connection_opened.
  destruct (pending_connections tm !! c) as [p|] eqn:Hc; [|by apply outcome_post_assert].
  change (entry _ p) with (context_of (peers tm) p).
  apply outcome_post_bind. eapply outcome_post_impl.
  { apply insert_post_outcome; [by eapply wf_context|]. split; by vm_compute. }
  intros addrs Haddrs. pose proof (wf_pending _ _ _ Hwf _ _ Hc) as Hid.
  set (s := peer_state (context_of (peers tm) p)) in *.
  assert (∀ st, tm_wf (put (set_pending tm (delete c (pending_connections tm))) p
                          (mkPeerContext st addrs))) as Hput.
  { intros st. eapply wf_step; [exact Hwf|done|apply Hwf|..]; simpl.
    - by intros cid q _ [_ ?]%lookup_delete_Some.
    - intros cid [? Hp]%lookup_delete_Some. exfalso.
      apply (wf_pending _ _ _ Hwf) in Hp. fold s in Hp. congruence. }
  destruct s as [| x i ts | |] eqn:Hs; simpl; try apply Hput.
  apply outcome_post_bind. destruct (cancel_all _ _ _) as [es|]; simpl; [|done].
  case_decide; [|done]. destruct (negotiate_succeeds t i); simpl.
  - eapply wf_step; [exact Hwf|done|apply Hwf|..]; simpl.
    + intros cid q Hne [[<- <-]|[_ [_ ?]%lookup_delete_Some]]%lookup_insert_Some; done.
    + unfold pending_id in Hid. simpl in Hid. injection Hid as ->.
      intros cid [[<- _]|[? [? Hp]%lookup_delete_Some]]%lookup_insert_Some; [done|].
      apply (wf_pending _ _ _ Hwf) in Hp. fold s in Hp. rewrite Hs in Hp. by injection Hp.
  - unfold tm_wf; simpl. rewrite insert_insert_eq. apply (Hput (Disconnected None)).
Qed.

Lemma tm_on_open_failure_wf tm t c : tm_wf tm → tm_wf (tm_on_open_failure tm t c).1.
Proof.
  intros Hwf. unfold tm_on_open_failure.
  destruct (pending_connections tm !! c) as [p|] eqn:Hc; [|done].
  change (entry _ p) with (context_of (peers tm) p).
  pose proof (wf_pending _ _ _ Hwf _ _ Hc) as Hid.
  set (s := peer_state (context_of (peers tm) p)) in *.
  pose proof (on_open_failure_pending s t) as Hpend.
  destruct (on_open_failure s t) as [st b]. simpl in Hpend. destruct b.
  - case_decide as Heq; simpl.
    + subst st. apply wf_step_addresses; [done|by eapply wf_context].
    + eapply wf_step; [exact Hwf|by eapply wf_context|apply Hwf|..]; simpl.
      * by intros cid q _ [_ ?]%lookup_delete_Some.
      * intros cid [? Hp]%lookup_delete_Some. exfalso.
        apply (wf_pending _ _ _ Hwf) in Hp. fold s in Hp. congruence.
  - assert (tm_wf (put tm p (mkPeerContext st (peer_addresses (context_of (peers tm) p))))).
    { eapply wf_step; [exact Hwf|by eapply wf_context|apply Hwf|done|].
      intros cid Hp. simpl. rewrite Hpend by done. by eapply wf_pending. }
    by case_decide.
Qed.

Lemma can_dial_pending s : can_dial s = StateDialOk → pending_id s = None.
Proof. case_peer_state s; done. Qed.

(** Nothing is pending for a peer that can be dialed. *)
Lemma wf_idle ps pend l p cid :
  wf ps pend l → can_dial (peer_state (context_of ps p)) = StateDialOk →
  pend !! cid ≠ Some p.
Proof.
  intros Hwf Hd%can_dial_pending Hp. apply (wf_pending _ _ _ Hwf) in Hp. congruence.
Qed.

(** A peer that can be dialed starts waiting for connection [c]. *)
Lemma wf_start_dial ps pend l p st addrs :
  wf ps pend l → can_dial (peer_state (context_of ps p)) = StateDialOk → store_wf addrs →
  wf (<[p := mkPeerContext st addrs]> ps) pend l ∧
  ∀ c, pending_id st = Some c → wf (<[p := mkPeerContext st addrs]> ps) (<[c := p]> pend) l.
Proof.
  intros Hwf Hd Ha. split.
  - eapply wf_step; eauto with litep2p. intros cid Hc. exfalso. by eapply wf_idle.
  - intros c Hc. eapply wf_step; eauto with litep2p.
    + by intros cid q Hne [[_ <-]|[_ ?]]%lookup_insert_Some.
    + intros cid [[<- _]|[_ Hp]]%lookup_insert_Some; [done|]. exfalso. by eapply wf_idle.
Qed.

Lemma dial_wf tm p : tm_wf tm → tm_wf (dial tm p).1.1.
Proof.
  intros Hwf. unfold dial. destruct (on_dial_address _) as [cap|]; [|done].
  case_decide; [done|]. change (entry _ p) with (context_of (peers tm) p).
  assert (tm_wf (put tm p (context_of (peers tm) p))) as Hput.
  { eapply wf_step; [exact Hwf|by eapply wf_context|apply Hwf|done|].
    intros cid Hc. exact (wf_pending _ _ _ Hwf _ _ Hc). }
  destruct (can_dial _) eqn:Hd; [done..|].
  destruct (get_addresses _ _) as [|x xs] eqn:Hx; [done|].
  unfold dial_addresses. rewrite Hd. simpl.
  destruct (open_all _ _ _) as [es r].
  destruct (wf_start_dial _ _ _ p
    (Opening (list_to_set (x :: xs)) (next_connection_id tm)
       (dom (supported_transports_addresses (x :: xs))))
    (peer_addresses (context_of (peers tm) p)) Hwf Hd) as [Hw1 Hw2]; [by eapply wf_context|].
  destruct r; unfold tm_wf; simpl; rewrite insert_insert_eq; [by apply Hw2|done].
Qed.

Lemma dial_address_wf tm a :
  tm_wf tm → outcome_post (dial_address tm a) (λ r, tm_wf r.1.1).
Proof.
  intros Hwf. unfold dial_address. destruct (on_dial_address _); [|done].
  destruct (from_multiaddr a) as [r|] eqn:Hr; [|done]. case_decide; [done|].
  destruct (dial_transport _) as [t|]; [|done].
  destruct (try_from_multiaddr _) as [p|]; [|done]. simpl.
  change (entry _ p) with (context_of (peers tm) p).
  assert (i32 (score r)) as Hsc.
  { unfold from_multiaddr in Hr. destruct (negb _); simplify_eq. split; by vm_compute. }
  apply outcome_post_bind. eapply outcome_post_impl.
  { apply insert_post_outcome; [by eapply wf_context|done]. }
  intros addrs Haddrs. unfold dial_single_address.
  destruct (can_dial _) eqn:Hd; simpl; [by apply wf_step_addresses..|].
  destruct (wf_start_dial _ _ _ p
    (Dialing (mkConnectionRecord (address r) (next_connection_id tm))) addrs Hwf Hd Haddrs)
    as [Hw1 Hw2].
  case_decide; [destruct (dial_succeeds _ _ _)|]; simpl; [by apply Hw2|done..].
Qed.

Lemma handle_transport_event_wf tm t e :
  tm_wf tm → outcome_post (handle_transport_event tm t e) (λ r, tm_wf r.1.1).
Proof.
  intros Hwf. destruct e as [p e|c|c a errs|p c|c a err|c errs]; simpl.
  - apply outcome_post_bind. eapply outcome_post_impl.
    { by apply tm_on_connection_established_wf. }
    intros [[tm' es] r] Hwf'. simpl in *. case_decide; [|done].
    destruct r as [[]|]; [destruct (accept_succeeds _ _)|..]; simpl; try done.
    by apply tm_on_connection_closed_wf.
  - case_decide; [|done]. by destruct (is_ok _).
  - apply outcome_post_bind. eapply outcome_post_impl; [by apply update_addresses_wf|].
    intros tm' Hwf'. apply outcome_post_bind. eapply outcome_post_impl.
    { by apply tm_on_connection_opened_wf. }
    by intros [[tm'' es] r].
  - done.
  - apply outcome_post_bind. eapply outcome_post_impl; [by apply update_address_wf|].
    intros tm' Hwf'. pose proof (tm_on_dial_failure_wf tm' c Hwf').
    destruct (tm_on_dial_failure tm' c) as [tm'' []]; [|done].
    destruct (try_from_multiaddr a); [done|by apply outcome_post_assert].
  - apply outcome_post_bind. eapply outcome_post_impl; [by apply update_addresses_wf|].
    intros tm' Hwf'. pose proof (tm_on_open_failure_wf tm' t c Hwf').
    destruct (tm_on_open_failure tm' t c) as [tm'' [[]|]]; done.
Qed.

Lemma handle_wf tm i : tm_wf tm → outcome_post (handle tm i) (λ r, tm_wf r.1.1).
Proof.
  intros Hwf. destruct i as [p e b|p c|p|a|protocol|t e|]; simpl.
  - destruct b; simpl; [done|]. by apply tm_on_connection_closed_wf.
  - pose proof (tm_on_connection_closed_wf tm p c Hwf).
    by destruct (tm_on_connection_closed tm p c).
  - pose proof (dial_wf tm p Hwf). by destruct (dial tm p) as [[] ?].
  - apply outcome_post_bind. eapply outcome_post_impl; [by apply dial_address_wf|].
    by intros [[] ?].
  - unfold unregister_protocol. by case_match.
  - by apply handle_transport_event_wf.
  - done.
Qed.
End invariant.

#[export] Hint Resolve handle_wf : litep2p.
