(* ===== verification/TransportManagerSafety.v ===== *)
(** * Panic freedom of the transport manager

    Under the contract of the transports and for dialed addresses of installed transports, a turn
    of the event loop panics only in a build with debug assertions, and exactly if the event
    violates one; without the condition on dialed addresses every build panics. *)

From stdpp Require Import base tactics option list gmap strings.
From Stdlib Require Import ZArith NArith Lia Init.Byte.
From S2P Require Import Prelude Multiaddr AddressStore PeerState ConnectionLimits.
From S2P Require Import TransportManager TransportManagerFacts.

Local Open Scope litep2p_scope.

(** ** Installed transports *)

(** The addresses of a peer, and the transports it is being opened on, belong to
    transports of [ts]. *)
Record context_installed (ts : list SupportedTransport) (c : PeerContext) : Prop := {
  installed_addresses a : is_Some (addresses (peer_addresses c) !! a) → address_transport a ∈ ts;
  installed_opening t : t ∈ opening_transports (peer_state c) → t ∈ ts;
}.

Definition installed (tm : TransportManager) : Prop :=
  map_Forall (λ _ c, context_installed (transports tm) c) (peers tm).

(** What the manager relies on: transports report events about addresses they can dial, and
    a dialed address belongs to an installed transport and names a valid peer. *)
Definition event_ok (ts : list SupportedTransport) (t : SupportedTransport)
    (e : TransportEvent) : Prop :=
  t ∈ ts ∧
  match e with
  | ConnectionEstablished _ (Dialer a _) => address_transport a ∈ ts
  | ConnectionEstablished _ (Listener _ _) => True
  | ConnectionOpened _ a errors =>
      address_transport a ∈ ts ∧ Forall (λ ae, address_transport ae.1 ∈ ts) errors
  | DialFailure _ a _ => address_transport a ∈ ts
  | OpenFailure _ errors => Forall (λ ae, address_transport ae.1 ∈ ts) errors
  | PendingInboundConnection _ => True
  | ConnectionClosed _ _ => False
  end.

Definition input_ok (tm : TransportManager) (i : Input) : Prop :=
  match i with
  | InDialAddress a =>
      address_transport a ∈ transports tm ∧ ∀ m, last a = Some (P2p m) → valid_peer_multihash m
  | InTransport t e => event_ok (transports tm) t e
  | _ => True
  end.

(** What the debug assertions of the manager check: a transport reports a connection only with the
    peer that was dialed, an opened connection only while its dial is pending, and the failure
    of a pending dial only with an address that names a peer. *)
Definition asserted (tm : TransportManager) (i : Input) : Prop :=
  match i with
  | InTransport _ (ConnectionEstablished p e) =>
      pending_connections tm !! endpoint_connection_id e ∈ [None; Some p]
  | InTransport _ (ConnectionOpened c _ _) => is_Some (pending_connections tm !! c)
  | InTransport _ (DialFailure c a _) =>
      pending_connections tm !! c = None ∨ is_Some (try_from_multiaddr a)
  | _ => True
  end.

#[export] Instance asserted_dec tm i : Decision (asserted tm i).
Proof. destruct i as [| | | | |t []|]; cbn; apply _. Defined.

(** [m] returns and its result satisfies [P]. *)
Definition outcome_total {A} (m : outcome A) (P : A → Prop) : Prop := ∃ a, m = Done a ∧ P a.

Lemma outcome_total_done {A} (a : A) (P : A → Prop) : P a → outcome_total (Done a) P.
Proof. intros. by exists a. Qed.

Lemma outcome_total_bind {A B} (m : outcome A) (k : A → outcome B) (Q : A → Prop)
    (P : B → Prop) :
  outcome_total m Q → (∀ a, m = Done a → Q a → outcome_total (k a) P) →
  outcome_total (outcome_bind m k) P.
Proof. intros (a & Hm & Ha) Hk. rewrite Hm. simpl. by apply Hk. Qed.

Lemma outcome_total_post {A} (m : outcome A) (P Q : A → Prop) :
  outcome_total m P → outcome_post m Q → outcome_total m (λ a, P a ∧ Q a).
Proof. intros (a & -> & ?) ?. by exists a. Qed.

Lemma address_transport_with a m :
  address_transport (with_protocol a (P2p m)) = address_transport a.
Proof. unfold address_transport, with_protocol. by rewrite !existsb_app, !orb_false_r. Qed.

Lemma address_transport_record p a s :
  address_transport (address (AddressRecord_new p a s)) = address_transport a.
Proof.
  unfold AddressRecord_new. simpl. destruct (negb _); [apply address_transport_with|done].
Qed.

Lemma try_from_multiaddr_valid a :
  ends_with_p2p a = true → (∀ m, last a = Some (P2p m) → valid_peer_multihash m) →
  is_Some (try_from_multiaddr a).
Proof.
  unfold ends_with_p2p, try_from_multiaddr. destruct (last a) as [[]|]; try done.
  intros _ Hv. specialize (Hv _ eq_refl).
  assert (from_multihash peer = Ok (mkPeerId peer)) as -> by (by apply from_multihash_valid).
  by eexists.
Qed.

Lemma PeerContext_default_installed ts : context_installed ts PeerContext_default.
Proof. split; simpl; [intros a [? ?]; done|set_solver]. Qed.

Lemma context_of_installed tm p :
  installed tm → context_installed (transports tm) (context_of (peers tm) p).
Proof.
  intros Hi. unfold context_of. destruct (peers tm !! p) eqn:E; [by apply (Hi p)|].
  apply PeerContext_default_installed.
Qed.

(** Replace one peer's context. *)
Lemma installed_put (ps : gmap PeerId PeerContext) ts p c :
  map_Forall (λ _ c, context_installed ts c) ps → context_installed ts c →
  map_Forall (λ _ c, context_installed ts c) (<[p := c]> ps).
Proof. intros. by apply map_Forall_insert_2. Qed.

Section panic_freedom.
Context `{IpNetwork, HashOrder, DebugAssertions, Transports}.
Implicit Types (tm : TransportManager).

Lemma insert_dom st r st' a : store_wf st → insert st r = Done st' →
  is_Some (addresses st' !! a) → is_Some (addresses st !! a) ∨ a = address r.
Proof.
  intros Hwf Hins. destruct (insert_post_complete st r Hwf) as (st'' & Heq & Hp).
  rewrite Hins in Heq. injection Heq as <-.
  destruct Hp; simpl; auto; rewrite lookup_insert_is_Some; try naive_solver.
  intros [<-|[_ ?]]; [auto|]. left. by eapply lookup_delete_is_Some.
Qed.

(** Insert an address of an installed transport and change the state without opening
    new transports. *)
Lemma insert_installed ts c r s :
  store_wf (peer_addresses c) → i32 (score r) → address_transport (address r) ∈ ts →
  context_installed ts c → opening_transports s ⊆ opening_transports (peer_state c) →
  outcome_total (insert (peer_addresses c) r)
    (λ addrs, store_wf addrs ∧ context_installed ts (mkPeerContext s addrs)).
Proof.
  intros Hwf Hsc Ht [Ha Ho] Hs. destruct (insert_total _ r Hwf Hsc) as (st' & Heq & Hwf').
  exists st'. split_and!; [done..|]. split; simpl; [|set_solver].
  intros a Ha'. destruct (insert_dom _ _ _ a Hwf Heq Ha') as [?| ->]; auto.
Qed.

Lemma cancel_all_total ts c l : (∀ t, t ∈ l → t ∈ ts) → outcome_total (cancel_all ts c l) (λ _, True).
Proof.
  induction l as [|t l IH]; intros Hl; simpl; [by exists []|].
  rewrite decide_True by (apply Hl; by left).
  destruct IH as (es & -> & _); [intros; apply Hl; by right|]. by eexists.
Qed.

Definition same_transports (tm tm' : TransportManager) : Prop :=
  transports tm' = transports tm ∧ installed tm'.

Lemma update_address_total tm a e :
  tm_wf tm → installed tm → address_transport a ∈ transports tm →
  outcome_total (update_address_on_dial_failure tm a e) (same_transports tm).
Proof.
  intros Hwf Hi Ha. unfold update_address_on_dial_failure.
  destruct (try_from_multiaddr a) as [p|]; [|by exists tm].
  eapply outcome_total_bind.
  { eapply (insert_installed (transports tm) (context_of (peers tm) p)
              _ (peer_state (context_of (peers tm) p))); [by eapply wf_context|..|done].
    - apply error_score_i32.
    - by rewrite address_transport_record.
    - by apply (context_of_installed tm). }
  intros addrs _ [_ Hc]. apply outcome_total_done. split; [done|]. by apply installed_put.
Qed.

Lemma update_addresses_total errors : ∀ tm,
  tm_wf tm → installed tm → Forall (λ ae, address_transport ae.1 ∈ transports tm) errors →
  outcome_total (update_addresses tm errors) (λ tm', same_transports tm tm' ∧ tm_wf tm').
Proof.
  unfold update_addresses. induction errors as [|[a e] errors IH]; intros tm Hwf Hi Hf; simpl.
  { by exists tm. }
  apply Forall_cons in Hf as [Ha Hf]. eapply outcome_total_bind.
  { by apply outcome_total_post; [apply update_address_total|apply update_address_wf]. }
  intros tm' _ [[Ht Hi'] Hwf']. destruct (IH tm') as (tm'' & -> & [Ht'' Hi''] & Hwf'');
    [done..|by rewrite Ht|]. exists tm''. split; [done|]. split; [split; [congruence|done]|done].
Qed.

Lemma context_installed_state ts c s :
  context_installed ts c → opening_transports s ⊆ opening_transports (peer_state c) →
  context_installed ts (mkPeerContext s (peer_addresses c)).
Proof. intros [Ha Ho] Hs. split; simpl; [done|set_solver]. Qed.

Lemma tm_on_dial_failure_installed tm c :
  installed tm → same_transports tm (tm_on_dial_failure tm c).1.
Proof.
  intros Hi. unfold tm_on_dial_failure. destruct (_ !! c) as [p|]; [|done].
  pose proof (opening_transports_step (peer_state (context_of (peers tm) p)) (EvDialFailure c))
    as Hs. simpl in Hs. change (entry _ p) with (context_of (peers tm) p).
  destruct (on_dial_failure _ c) as [st b]. split; [done|].
  apply installed_put; [done|]. apply context_installed_state; [by apply (context_of_installed tm)|].
  by apply Hs.
Qed.

Lemma tm_on_connection_closed_installed tm p c :
  installed tm → same_transports tm (tm_on_connection_closed tm p c).1.
Proof.
  intros Hi. unfold tm_on_connection_closed. change (entry _ p) with (context_of (peers tm) p).
  pose proof (opening_transports_step (peer_state (context_of (peers tm) p)) (EvClosed c))
    as Hs. simpl in Hs.
  destruct (on_connection_closed _ c) as [st b]. split; [done|].
  apply installed_put; [done|]. apply context_installed_state; [by apply (context_of_installed tm)|].
  by apply Hs.
Qed.

Lemma tm_on_open_failure_installed tm t c :
  installed tm → same_transports tm (tm_on_open_failure tm t c).1.
Proof.
  intros Hi. unfold tm_on_open_failure. destruct (_ !! c) as [p|]; [|done].
  pose proof (opening_transports_step (peer_state (context_of (peers tm) p)) (EvOpenFailure t))
    as Hs. simpl in Hs. change (entry _ p) with (context_of (peers tm) p).
  destruct (on_open_failure _ t) as [st b].
  assert (same_transports tm
    (put tm p (mkPeerContext st (peer_addresses (context_of (peers tm) p))))) as Hput.
  { split; [done|]. apply installed_put; [done|].
    apply context_installed_state; [by apply (context_of_installed tm)|by apply Hs]. }
  case_decide; [done|]. by destruct b.
Qed.

Lemma update_established_total tm p e :
  tm_wf tm → installed tm → (∃ t, event_ok (transports tm) t (ConnectionEstablished p e)) →
  outcome_total (update_address_on_connection_established tm p e) (same_transports tm).
Proof.
  intros Hwf Hi Hev. unfold update_address_on_connection_established.
  destruct e as [a c|a c]; simpl; [|by exists tm].
  assert (address_transport a ∈ transports tm) as Ha by (by destruct Hev as [? [? ?]]).
  eapply outcome_total_bind.
  { eapply (insert_installed (transports tm) (context_of (peers tm) p)
              _ (peer_state (context_of (peers tm) p))); [by eapply wf_context|..|done].
    - split; by vm_compute.
    - by rewrite address_transport_record.
    - by apply (context_of_installed tm). }
  intros addrs _ [_ Hc]. apply outcome_total_done. split; [done|]. by apply installed_put.
Qed.

(** Addresses are updated apart from the pending connections. *)
Lemma update_address_pending tm a e tm' :
  update_address_on_dial_failure tm a e = Done tm' → pending_connections tm' = pending_connections tm.
Proof.
  unfold update_address_on_dial_failure. destruct (try_from_multiaddr a); [|by intros [= <-]].
  destruct (insert _ _); [|done]. by intros [= <-].
Qed.

Lemma update_addresses_pending errors : ∀ tm tm',
  update_addresses tm errors = Done tm' → pending_connections tm' = pending_connections tm.
Proof.
  unfold update_addresses. induction errors as [|ae errors IH]; intros tm tm'; cbn; [by intros [= <-]|].
  destruct (update_address_on_dial_failure _ _ _) as [tm1|] eqn:E; [|done]. cbn. intros ->%IH.
  by eapply update_address_pending.
Qed.

Lemma update_established_pending tm p e tm' :
  update_address_on_connection_established tm p e = Done tm' → pending_connections tm' = pending_connections tm.
Proof.
  unfold update_address_on_connection_established. destruct (is_listener e); [by intros [= <-]|].
  destruct (insert _ _); [|done]. by intros [= <-].
Qed.

(** Either [m] returns, or the input violates an assertion that is compiled in. *)
Definition checked {A} (tm : TransportManager) (i : Input) (m : outcome A) (P : A → Prop) : Prop :=
  (asserted tm i ∨ debug_assertions = false) ∧ outcome_total m P ∨
  (¬ asserted tm i ∧ debug_assertions = true) ∧ m = Panic.

Lemma checked_assert {A} tm i (m : outcome A) P : ¬ asserted tm i → outcome_total m P →
  checked tm i (debug_assert debug_assertions False m) P.
Proof. intros Hno Hm. unfold checked, debug_assert. destruct debug_assertions; [by right|]. left. auto. Qed.

Lemma checked_ok {A} tm i (m : outcome A) P : asserted tm i → outcome_total m P → checked tm i m P.
Proof. intros. left. auto. Qed.

Lemma checked_bind {A B} tm i (m : outcome A) (k : A → outcome B) Q P :
  checked tm i m Q → (∀ a, m = Done a → Q a → outcome_total (k a) P) → checked tm i (outcome_bind m k) P.
Proof.
  intros [[Ha Hm]|[Ha ->]] Hk; [|by right]. left. split; [done|]. by eapply outcome_total_bind.
Qed.

Lemma checked_after {A B} tm i (m : outcome A) (k : A → outcome B) Q P :
  outcome_total m Q → (∀ a, m = Done a → Q a → checked tm i (k a) P) → checked tm i (outcome_bind m k) P.
Proof. intros (a & -> & Ha) Hk. by apply Hk. Qed.

Lemma tm_on_connection_established_total tm p e t :
  tm_wf tm → installed tm → event_ok (transports tm) t (ConnectionEstablished p e) →
  checked tm (InTransport t (ConnectionEstablished p e)) (tm_on_connection_established tm p e) (λ r, same_transports tm r.1.1).
Proof.
  intros Hwf Hi Hev. unfold tm_on_connection_established. eapply checked_after.
  { apply update_established_total; eauto. }
  intros tm' Hupd [Ht Hi']. apply update_established_pending in Hupd.
  destruct (match _ with Some _ => _ | None => _ end) eqn:Hmis.
  { apply checked_assert; [|by apply outcome_total_done]. cbn. rewrite <- Hupd. case_match; [|done].
    apply bool_decide_eq_true in Hmis. set_solver. }
  apply checked_ok.
  { cbn. rewrite <- Hupd. case_match; [|set_solver]. apply bool_decide_eq_false, dec_stable in Hmis. set_solver. }
  destruct (can_accept_connection _ _); [|by apply outcome_total_done].
  change (entry _ p) with (context_of (peers tm') p).
  set (s := peer_state (context_of (peers tm') p)).
  pose proof (opening_transports_step s (EvEstablished (from_endpoint p e))) as Hs. simpl in Hs.
  pose proof (context_of_installed tm' p Hi') as Hctx.
  destruct (on_connection_established s _) as [st b].
  assert (∀ m l, same_transports tm (set_pending (set_limits (put (set_pending tm'
      (delete (endpoint_connection_id e) (pending_connections tm'))) p
      (mkPeerContext st (peer_addresses (context_of (peers tm') p)))) l) m)) as Hput.
  { intros m l. split; [done|]. apply installed_put; [done|].
    apply context_installed_state; [done|by apply Hs]. }
  destruct b; [|by apply outcome_total_done; split; [|apply (Hput ∅ (connection_limits tm))]].
  destruct s as [|x c' ts| |] eqn:Hcs;
    try (apply outcome_total_done; by split; [|apply (Hput ∅ (connection_limits tm))]).
  eapply outcome_total_bind.
  { apply cancel_all_total. intros t' Ht'%set_order_elem. simpl.
    apply (installed_opening _ _ Hctx). fold s. by rewrite Hcs. }
  intros es _ _. apply outcome_total_done. apply Hput.
Qed.

Lemma tm_on_connection_opened_total tm t c a errors :
  tm_wf tm → installed tm → t ∈ transports tm → address_transport a ∈ transports tm →
  checked tm (InTransport t (ConnectionOpened c a errors)) (tm_on_connection_opened tm t c a) (λ r, same_transports tm r.1.1).
Proof.
  intros Hwf Hi Ht Ha. unfold tm_on_connection_opened.
  destruct (pending_connections tm !! c) as [p|] eqn:Hc.
  2: { apply checked_assert; [|by apply outcome_total_done]. cbn. rewrite Hc. by intros []. }
  apply checked_ok; [cbn; by rewrite Hc|].
  change (entry _ p) with (context_of (peers tm) p).
  pose proof (context_of_installed tm p Hi) as Hctx.
  eapply outcome_total_bind.
  { eapply (insert_installed (transports tm) (context_of (peers tm) p) _ (Disconnected None));
      [by eapply wf_context|split; by vm_compute| |done|set_solver].
    by rewrite address_transport_record. }
  intros addrs _ [_ Hnew].
  assert (∀ st m, opening_transports st = ∅ ∨ st = peer_state (context_of (peers tm) p) →
    same_transports tm (set_pending (put tm p (mkPeerContext st addrs)) m)) as Hput.
  { intros st m Hst. split; [done|]. apply installed_put; [done|].
    split; simpl; [apply Hnew|]. destruct Hst as [Hst| ->]; [set_solver|apply Hctx]. }
  destruct (peer_state (context_of (peers tm) p)) as [|x c' ts| |] eqn:Hs; simpl;
    try (apply outcome_total_done; apply Hput; by right).
  eapply outcome_total_bind.
  { apply cancel_all_total. intros t' Ht'%set_order_elem. simpl.
    apply (installed_opening _ _ Hctx). by rewrite Hs. }
  intros es _ _. rewrite decide_True by done.
  destruct (negotiate_succeeds t c'); apply outcome_total_done; simpl.
  - apply Hput. by left.
  - split; [done|]. simpl. unfold installed; simpl. rewrite insert_insert_eq.
    by apply (Hput (Disconnected None) ∅), or_introl.
Qed.

Lemma supported_transports_elem l t :
  t ∈ dom (supported_transports_addresses l) ↔ ∃ a, a ∈ l ∧ address_transport a = t.
Proof.
  unfold supported_transports_addresses.
  assert (∀ m, t ∈ dom (foldl (λ m a, <[address_transport a :=
      default [] (m !! address_transport a) ++ [a]]> m) m l) ↔
    t ∈ dom (m : gmap _ (list Multiaddr)) ∨ ∃ a, a ∈ l ∧ address_transport a = t) as Hgen.
  { induction l as [|a l IH]; intros m; simpl; [set_solver|].
    rewrite IH, dom_insert_L. set_solver. }
  rewrite Hgen. set_solver.
Qed.

Lemma dial_installed tm p : tm_wf tm → installed tm → same_transports tm (dial tm p).1.1.
Proof.
  intros Hwf Hi. unfold dial. destruct (on_dial_address _) as [cap|]; [|done].
  case_decide; [done|]. change (entry _ p) with (context_of (peers tm) p).
  pose proof (context_of_installed tm p Hi) as Hctx.
  assert (same_transports tm (put tm p (context_of (peers tm) p))) as Hput.
  { split; [done|]. by apply installed_put. }
  destruct (can_dial _) eqn:Hd; [done..|].
  destruct (get_addresses _ _) as [|x xs] eqn:Hx; [done|].
  unfold dial_addresses. rewrite Hd. simpl.
  destruct (open_all _ _ _) as [es r]. 
  assert (context_installed (transports tm) (mkPeerContext
    (Opening (list_to_set (x :: xs)) (next_connection_id tm)
       (dom (supported_transports_addresses (x :: xs))))
    (peer_addresses (context_of (peers tm) p)))) as Hnew.
  { split; simpl; [apply Hctx|]. intros t (a & Ha & <-)%supported_transports_elem.
    apply (installed_addresses _ _ Hctx). rewrite <- Hx in Ha.
    unfold get_addresses in Ha. rewrite take_N_take in Ha.
    apply list_elem_of_fmap in Ha as (r' & -> & Hr%subseteq_take).
    apply sorted_records_elem in Hr; [eauto|by eapply wf_context]. }
  destruct r; (split; [done|]); unfold installed; simpl;
    apply installed_put; try done; by apply installed_put.
Qed.

Lemma dial_address_total tm a :
  tm_wf tm → installed tm → input_ok tm (InDialAddress a) →
  outcome_total (dial_address tm a) (λ r, same_transports tm r.1.1).
Proof.
  intros Hwf Hi [Ha Hv]. unfold dial_address.
  destruct (on_dial_address _); [|by apply outcome_total_done].
  unfold from_multiaddr. destruct (ends_with_p2p a) eqn:Hends; simpl;
    [|by apply outcome_total_done].
  case_decide; [by apply outcome_total_done|].
  destruct (dial_transport a) as [t|]; [|by apply outcome_total_done].
  destruct (try_from_multiaddr_valid a Hends Hv) as [p ->]. simpl.
  change (entry _ p) with (context_of (peers tm) p).
  pose proof (context_of_installed tm p Hi) as Hctx.
  eapply outcome_total_bind.
  { eapply (insert_installed (transports tm) (context_of (peers tm) p)
              (from_raw_multiaddr_with_score a 0) (Disconnected None));
      [by eapply wf_context|split; by vm_compute|done|done|set_solver]. }
  intros addrs _ [_ Hnew]. unfold dial_single_address.
  assert (∀ st, opening_transports st = ∅ ∨ st = peer_state (context_of (peers tm) p) →
    map_Forall (λ _ c, context_installed (transports tm) c)
      (<[p := mkPeerContext st addrs]> (peers tm))) as Hput.
  { intros st Hst. apply installed_put; [done|].
    split; simpl; [apply Hnew|]. destruct Hst as [Hst| ->]; [set_solver|apply Hctx]. }
  destruct (can_dial _) eqn:Hd; simpl; [apply outcome_total_done; split; [done|];
    apply Hput; by right..|].
  case_decide; [destruct (dial_succeeds _ _ _)|]; apply outcome_total_done; (split; [done|]);
    apply Hput; by left.
Qed.

Lemma handle_transport_event_total tm t e :
  tm_wf tm → installed tm → event_ok (transports tm) t e →
  checked tm (InTransport t e) (handle_transport_event tm t e) (λ r, same_transports tm r.1.1).
Proof.
  intros Hwf Hi Hev. pose proof Hev as [Ht Hev'].
  destruct e as [p e|c|c a errs|p c|c a err|c errs]; simpl in *.
  - eapply checked_bind.
    { by eapply (tm_on_connection_established_total (set_errors tm _)). }
    intros [[tm' es] r] _ [Ht' Hi']. simpl in *. rewrite decide_True by congruence.
    destruct r as [[]|]; [destruct (accept_succeeds _ _)|..]; apply outcome_total_done;
      try by split. simpl.
    destruct (tm_on_connection_closed_installed tm' p (endpoint_connection_id e) Hi').
    split; [congruence|done].
  - apply checked_ok; [done|]. rewrite decide_True by done. destruct (is_ok _); by apply outcome_total_done.
  - destruct Hev' as [Ha Hf]. eapply checked_after; [by apply update_addresses_total|].
    intros tm' Hupd [[Ht' Hi'] Hwf']. apply update_addresses_pending in Hupd. eapply checked_bind.
    { unfold checked, asserted. cbn in Hupd. rewrite <- Hupd.
      apply (tm_on_connection_opened_total _ _ _ _ errs); simpl in *; congruence || done. }
    intros [[tm'' es] r] _ [Ht'' Hi'']. apply outcome_total_done. split; simpl in *; [congruence|done].
  - done.
  - eapply checked_after; [by apply update_address_total|].
    intros tm' Hupd [Ht' Hi']. apply update_address_pending in Hupd.
    destruct (tm_on_dial_failure_installed tm' c Hi') as [Ht'' Hi''].
    assert (is_ok (tm_on_dial_failure tm' c).2 = bool_decide (is_Some (pending_connections tm !! c))) as Hok.
    { unfold tm_on_dial_failure. rewrite Hupd. destruct (pending_connections tm !! c); [|done]. cbn. by case_match. }
    destruct (tm_on_dial_failure tm' c) as [tm'' [u|k]]; cbn in Hok.
    2: { apply checked_ok; [left; by apply eq_None_not_Some, (bool_decide_eq_false_1 _ (eq_sym Hok))|].
         apply outcome_total_done. split; simpl in *; congruence || done. }
    assert (outcome_total (Done (tm'', [] : list Effect, Some (DialFailure c a err))) (λ r, same_transports tm r.1.1)) as Hdone.
    { apply outcome_total_done. split; simpl in *; congruence || done. }
    destruct (try_from_multiaddr a) as [q|] eqn:Ea.
    + apply checked_ok; [right; by rewrite Ea|]. apply outcome_total_done. split; simpl in *; congruence || done.
    + apply checked_assert; [|done]. cbn. rewrite Ea. symmetry in Hok. apply bool_decide_eq_true in Hok as [? Hok].
      rewrite Hok. by intros [?|[]].
  - apply checked_ok; [done|]. eapply outcome_total_bind; [by apply update_addresses_total|].
    intros tm' _ [[Ht' Hi'] _].
    destruct (tm_on_open_failure_installed tm' t c Hi') as [Ht'' Hi''].
    destruct (tm_on_open_failure tm' t c) as [tm'' [[]|]]; apply outcome_total_done;
      split; simpl in *; congruence || done.
Qed.

Lemma handle_total tm i :
  tm_wf tm → installed tm → input_ok tm i →
  checked tm i (handle tm i) (λ r, same_transports tm r.1.1).
Proof.
  intros Hwf Hi Hok. destruct i as [p e b|p c|p|a|protocol|t e|]; simpl; [..|by apply handle_transport_event_total|];
    (apply checked_ok; [done|]).
  - destruct b; apply outcome_total_done; [by split|].
    by apply (tm_on_connection_closed_installed (set_accepting tm _)).
  - pose proof (tm_on_connection_closed_installed tm p c Hi).
    destruct (tm_on_connection_closed tm p c). by apply outcome_total_done.
  - pose proof (dial_installed tm p Hwf Hi). destruct (dial tm p) as [[] ?].
    by apply outcome_total_done.
  - eapply outcome_total_bind; [by apply dial_address_total|].
    intros [[] ?] _ ?. by apply outcome_total_done.
  - apply outcome_total_done. unfold unregister_protocol. by case_match.
  - by apply outcome_total_done.
Qed.
End panic_freedom.

(** ** Runs of the event loop *)

Fixpoint tm_run `{IpNetwork, HashOrder, DebugAssertions, Transports} (tm : TransportManager) (inputs : list Input) :
    outcome TransportManager :=
  match inputs with
  | [] => Done tm
  | i :: inputs => run r <- handle tm i ;; tm_run r.1.1 inputs
  end.

Lemma build_wf local limits ts :
  tm_wf (set_transports (build local limits) ts) ∧
  installed (set_transports (build local limits) ts).
Proof.
  split; [|apply map_Forall_empty]. split; simpl.
  - intros p c Hp. by rewrite lookup_empty in Hp.
  - apply ConnectionLimits_new_wf.
  - intros cid p Hp. by rewrite lookup_empty in Hp.
Qed.

Section runs.
Context `{IpNetwork, HashOrder, DebugAssertions, Transports}.

Lemma tm_run_wf inputs : ∀ tm, tm_wf tm → outcome_post (tm_run tm inputs) tm_wf.
Proof.
  induction inputs as [|i inputs IH]; intros tm Hwf; simpl; [done|].
  apply outcome_post_bind. eapply outcome_post_impl; [by apply handle_wf|].
  intros [[tm' es] ev] Hwf'. by apply IH.
Qed.

Lemma input_ok_transports tm tm' i : transports tm' = transports tm → input_ok tm i → input_ok tm' i.
Proof. unfold input_ok. by intros ->. Qed.

(** An input of a run that violates an assertion when it arrives. *)
Definition violates (tm : TransportManager) (inputs : list Input) : Prop :=
  ∃ before i after tm', inputs = before ++ i :: after ∧ tm_run tm before = Done tm' ∧ ¬ asserted tm' i.

Lemma violates_now tm i inputs : ¬ asserted tm i → violates tm (i :: inputs).
Proof. intros Hno. by exists [], i, inputs, tm. Qed.

Lemma violates_later tm i inputs tm' es ev : asserted tm i → handle tm i = Done (tm', es, ev) →
  violates tm (i :: inputs) ↔ violates tm' inputs.
Proof.
  intros Has He. split; intros (before & j & after & tm1 & Heq & Hrun & Hno).
  - destruct before as [|i' before]; cbn in *; [injection Hrun as <-; injection Heq as <- ->; done|].
    injection Heq as <- ->. rewrite He in Hrun. cbn in Hrun. by exists before, j, after, tm1.
  - exists (i :: before), j, after, tm1. rewrite Heq. split; [done|]. split; [|done]. cbn. by rewrite He.
Qed.

Lemma tm_run_total inputs : ∀ tm,
  tm_wf tm → installed tm → Forall (input_ok tm) inputs →
  outcome_total (tm_run tm inputs) (λ tm', tm_wf tm' ∧ installed tm') ∧
    (debug_assertions = true → ¬ violates tm inputs) ∨
  tm_run tm inputs = Panic ∧ debug_assertions = true ∧ violates tm inputs.
Proof.
  induction inputs as [|i inputs IH]; intros tm Hwf Hi Hf; simpl.
  { left. split; [by exists tm|]. intros _ ([|] & ? & ? & ? & ? & _); done. }
  apply Forall_cons in Hf as [Hi1 Hf]. pose proof (handle_wf tm i Hwf) as Hpost.
  destruct (handle_total tm i Hwf Hi Hi1) as [[Ha (r & Hr & Hs)]|[[Ha Hd] ->]].
  2: { right. split; [done|]. split; [done|]. by apply violates_now. }
  destruct r as [[tm' es] ev]. rewrite Hr in Hpost |- *. cbn in *. destruct Hs as [Ht Hi'].
  assert (Forall (input_ok tm') inputs) as Hf'.
  { eapply Forall_impl; [done|]. intros. by eapply input_ok_transports. }
  destruct (IH tm' Hpost Hi' Hf') as [[Hok Hno]|(Hp & Hd & Hv)].
  - left. split; [done|]. intros Hd. destruct Ha as [Ha|Ha]; [|congruence]. rewrite violates_later by done. by apply Hno.
  - right. split; [done|]. split; [done|]. destruct Ha as [Ha|Ha]; [|congruence]. by eapply violates_later.
Qed.
End runs.

(** ** Properties *)

(** C1. Whatever the transports, protocols and users do, the manager keeps its invariant as
    long as it runs: every address store is well formed and within its capacity, the tracked
    connections respect the connection limits, and every pending connection is the one the
    state of its peer is waiting for. *)
Theorem manager_invariant `{IpNetwork, HashOrder, DebugAssertions, Transports}
    (tm tm' : TransportManager) (inputs : list Input) :
  tm_wf tm → tm_run tm inputs = Done tm' → tm_wf tm'.
Proof. intros Hwf Hr. pose proof (tm_run_wf inputs tm Hwf) as Hp. by rewrite Hr in Hp. Qed.

(** C2. Panics of the manager: if the transports report events about addresses they support and the
    dialed addresses belong to installed transports, then a build without debug assertions never
    panics, whatever the sequence of inputs. A build with them panics exactly if an
    input violates one when it arrives: a connection is reported with another peer than the
    one that was dialed, or opened without a pending dial, or a pending dial fails with an
    address without a peer. *)
Theorem manager_no_panic `{IpNetwork, HashOrder, DebugAssertions, Transports}
    (tm : TransportManager) (inputs : list Input) :
  tm_wf tm → installed tm → Forall (input_ok tm) inputs →
  (tm_run tm inputs = Panic ↔ debug_assertions = true ∧ violates tm inputs) ∧
  (∀ tm', tm_run tm inputs = Done tm' → tm_wf tm' ∧ installed tm').
Proof.
  intros Hwf Hi Hf. destruct (tm_run_total inputs tm Hwf Hi Hf) as [[(tm1 & -> & Hok) Hno]|(-> & Hd & Hv)].
  - split; [|by intros tm' [= <-]]. split; [done|]. intros [Hd Hv]. by destruct (Hno Hd).
  - by split.
Qed.

(** ** A run that panics *)

Definition sample_transports : Transports := {|
  dial_succeeds _ _ _ := true;
  open_succeeds _ _ _ := true;
  negotiate_succeeds _ _ := true;
  accept_succeeds _ _ := true;
|}.

Definition sample_peer (n : N) : PeerId :=
  mkPeerId (mkMultihash MULTIHASH_IDENTITY_CODE (replicate (N.to_nat n) Byte.x00)).

(** A manager with the TCP transport only. *)
Definition tcp_manager (limits : ConnectionLimitsConfig) : TransportManager :=
  set_transports (build (sample_peer 0) limits) [TransportTcp].

Definition quic_address (p : PeerId) : Multiaddr := [Ip4 134744072; Udp 30333; QuicV1; P2p (multihash p)].
Definition tcp_address (p : PeerId) : Multiaddr := [Ip4 134744072; Tcp 30333; P2p (multihash p)].

(** The peer connects, its QUIC address is dialed (and refused with [AlreadyConnected], but
    remembered), the connection closes, the peer is dialed by its identifier, and connects
    again. *)
Definition uninstalled_run : list Input :=
  [ InTransport TransportTcp (ConnectionEstablished (sample_peer 1)
      (Listener (tcp_address (sample_peer 1)) 7));
    InDialAddress (quic_address (sample_peer 1));
    InConnectionClosed (sample_peer 1) 7;
    InDialPeer (sample_peer 1);
    InTransport TransportTcp (ConnectionEstablished (sample_peer 1)
      (Listener (tcp_address (sample_peer 1)) 8)) ].

(** The condition on dialed addresses is needed: with only the TCP transport installed,
    dialing a QUIC address of a connected peer plants the address in the peer's store, and a
    later dial of the peer puts the missing transport into its [Opening] state; the next
    inbound connection of that peer panics the manager ("transport to exist"). *)
Theorem uninstalled_transport_panics :
  @tm_run sample_network canonical_order false sample_transports
    (tcp_manager (mkLimitsConfig None None)) uninstalled_run = Panic.
Proof. by vm_compute. Qed.

(** A race: the peer of a pending dial connects by itself, so that the dial is canceled; a transport that had opened
    the connection already reports it afterwards. *)
Definition race : list Input :=
  [ InDialAddress (tcp_address (sample_peer 1));
    InTransport TransportTcp (DialFailure 0 (tcp_address (sample_peer 1)) DialError_Timeout);
    InDialPeer (sample_peer 1);
    InTransport TransportTcp (ConnectionEstablished (sample_peer 1) (Listener (tcp_address (sample_peer 1)) 7));
    InTransport TransportTcp (ConnectionOpened 1 (tcp_address (sample_peer 1)) []) ].

(** Transports that keep to their contract make a build with debug assertions panic. *)
Theorem opened_race_panics :
  @tm_run sample_network canonical_order true sample_transports (tcp_manager (mkLimitsConfig None None)) race = Panic.
Proof. by vm_compute. Qed.

Lemma manager_no_panic_witness :
  @tm_run sample_network canonical_order false sample_transports
    (tcp_manager (mkLimitsConfig (Some 1%N) None))
    [ InDialAddress (tcp_address (sample_peer 1));
      InTransport TransportTcp (ConnectionEstablished (sample_peer 1)
        (Dialer (tcp_address (sample_peer 1)) 0)) ] ≠ Panic.
Proof.
  intros Hp. eapply (@manager_no_panic sample_network canonical_order false sample_transports) in Hp as [Hd _]; [done|..].
  - apply build_wf.
  - apply build_wf.
  - apply Forall_cons; split; [split|apply Forall_cons; split; [split|by apply Forall_nil]].
    + by apply list_elem_of_singleton.
    + intros m [= <-]. right. split; [done|]. simpl. unfold MAX_INLINE_KEY_LENGTH. lia.
    + by apply list_elem_of_singleton.
    + by apply list_elem_of_singleton.
Defined.

Lemma manager_invariant_witness :
  match @tm_run sample_network canonical_order false sample_transports
          (tcp_manager (mkLimitsConfig (Some 1%N) None)) (take 4 uninstalled_run) with
  | Done tm' => tm_wf tm'
  | Panic => False
  end.
Proof.
  assert (is_done (@tm_run sample_network canonical_order false sample_transports
            (tcp_manager (mkLimitsConfig (Some 1%N) None)) (take 4 uninstalled_run)) = true)
    as Hd by (by vm_compute).
  destruct (@tm_run _ _ _ _ _ _) as [tm'|] eqn:E; [|discriminate Hd].
  exact (@manager_invariant sample_network canonical_order false sample_transports
           (tcp_manager (mkLimitsConfig (Some 1%N) None)) tm' _ (proj1 (build_wf _ _ _)) E).
Defined.
