(* ===== verification/TransportManagerDial.v ===== *)
(** * Dialing: what a dial does, and dials that are never concluded *)

From stdpp Require Import base tactics option list gmap strings.
From Stdlib Require Import ZArith NArith Lia Init.Byte.
From S2P Require Import Prelude Multiaddr AddressStore PeerState ConnectionLimits.
From S2P Require Import TransportManager TransportManagerFacts TransportManagerSafety.

Local Open Scope litep2p_scope.

(** ** Stranded dials *)

(** The dial a peer state waits for once its connection was opened. *)
Definition waiting (s : PeerState) : option ConnectionId :=
  match pending (abs s) with Some (PendingDial c) => Some c | _ => None end.

Lemma waiting_pending_id s c : waiting s = Some c → pending_id s = Some c.
Proof. unfold waiting, pending_id. case_match; [case_match|]; done. Qed.

(** Peer [p] waits for connection [c] but the manager no longer tracks the dial. *)
Record stranded_in (ps : gmap PeerId PeerContext) (pend : gmap ConnectionId PeerId) (next : N)
    (p : PeerId) (c : ConnectionId) : Prop := {
  stranded_waiting : waiting (peer_state (context_of ps p)) = Some c;
  stranded_untracked : pend !! c = None;
  stranded_allocated : (c < next)%N;
}.

Definition stranded (tm : TransportManager) : PeerId → ConnectionId → Prop :=
  stranded_in (peers tm) (pending_connections tm) (next_connection_id tm).

Lemma stranded_put ps pend next p c q x pend' :
  stranded_in ps pend next p c → (q = p → waiting (peer_state x) = Some c) →
  pend' !! c = None → stranded_in (<[q := x]> ps) pend' next p c.
Proof.
  intros [Hw _ Ha] Hx Hp. split; [|done..]. rewrite context_of_insert.
  case_decide; [by apply Hx|done].
Qed.

Lemma stranded_delete ps pend next p c d :
  stranded_in ps pend next p c → stranded_in ps (delete d pend) next p c.
Proof. intros [? ? ?]. split; [done| |done]. by apply lookup_delete_None; right. Qed.

(** A tracked dial belongs to another peer. *)
Lemma stranded_other ps pend l next p c q d :
  wf ps pend l → stranded_in ps pend next p c → pend !! d = Some q → q ≠ p ∧ d ≠ c.
Proof.
  intros Hwf [Hw Hu _] Hd. split; [|naive_solver]. intros ->.
  apply (wf_pending _ _ _ Hwf) in Hd as Hid. apply waiting_pending_id in Hw. congruence.
Qed.

Lemma on_connection_closed_waiting s c : waiting (on_connection_closed s c).1 = waiting s.
Proof. unfold waiting. case_peer_state s; simpl; repeat case_decide; done. Qed.

Lemma on_connection_established_waiting s r c :
  waiting s = Some c → connection_id r ≠ c → waiting (on_connection_established s r).1 = Some c.
Proof.
  unfold waiting. intros. case_peer_state s; simpl in *; try case_decide; by simplify_eq/=.
Qed.

Lemma waiting_not_dialable s c : waiting s = Some c → can_dial s ≠ StateDialOk.
Proof. by case_peer_state s. Qed.

Lemma waiting_not_opening s c : waiting s = Some c → ∀ a i t, s ≠ Opening a i t.
Proof. by case_peer_state s. Qed.

Section stranded.
Context `{IpNetwork, HashOrder, DebugAssertions, Transports}.
Context (p : PeerId) (c : ConnectionId).
Implicit Types (tm : TransportManager).

Lemma update_address_stranded tm a e :
  stranded tm p c →
  outcome_post (update_address_on_dial_failure tm a e) (λ tm', stranded tm' p c).
Proof.
  intros Hs. unfold update_address_on_dial_failure. case_match; [|done].
  apply outcome_post_bind. destruct (insert _ _); simpl; [|done].
  eapply stranded_put; [done|intros ->; apply Hs|apply Hs].
Qed.

Lemma update_addresses_stranded errors : ∀ tm,
  stranded tm p c → outcome_post (update_addresses tm errors) (λ tm', stranded tm' p c).
Proof.
  unfold update_addresses. induction errors as [|[a e] errors IH]; intros tm Hs; simpl; [done|].
  apply outcome_post_bind. eapply outcome_post_impl; [by apply update_address_stranded|].
  intros tm' Hs'. by apply IH.
Qed.

Lemma tm_on_dial_failure_stranded tm d :
  tm_wf tm → stranded tm p c → stranded (tm_on_dial_failure tm d).1 p c.
Proof.
  intros Hwf Hs. unfold tm_on_dial_failure. destruct (_ !! d) as [q|] eqn:Hd; [|done].
  destruct (on_dial_failure _ _). simpl.
  destruct (stranded_other _ _ _ _ _ _ _ _ Hwf Hs Hd) as [Hq _].
  eapply stranded_put; [done|done|]. apply lookup_delete_None. right. apply Hs.
Qed.

Lemma tm_on_connection_closed_stranded tm q d :
  stranded tm p c → stranded (tm_on_connection_closed tm q d).1 p c.
Proof.
  intros Hs. unfold tm_on_connection_closed. change (entry _ q) with (context_of (peers tm) q).
  pose proof (on_connection_closed_waiting (peer_state (context_of (peers tm) q)) d) as Hw.
  destruct (on_connection_closed _ _) as [st b]. simpl in *.
  eapply stranded_put; [done| |apply Hs]. intros ->. simpl. rewrite Hw. apply Hs.
Qed.

Lemma tm_on_connection_established_stranded tm q e :
  stranded tm p c → endpoint_connection_id e ≠ c →
  outcome_post (tm_on_connection_established tm q e) (λ r, stranded r.1.1 p c).
Proof.
  intros Hs Hne. unfold tm_on_connection_established. apply outcome_post_bind.
  eapply (outcome_post_impl _ (λ tm', stranded tm' p c)).
  { unfold update_address_on_connection_established. destruct (is_listener e); [done|].
    apply outcome_post_bind. destruct (insert _ _); simpl; [|done].
    eapply stranded_put; [done|intros ->; apply Hs|apply Hs]. }
  clear tm Hs. intros tm Hs.
  assert (stranded (set_pending tm (delete (endpoint_connection_id e)
            (pending_connections tm))) p c) as Hdel by (by apply stranded_delete).
  destruct (match _ with Some _ => _ | None => _ end); [by apply outcome_post_assert|].
  destruct (can_accept_connection _ _); [|done].
  change (entry _ q) with (context_of (peers tm) q).
  set (s := peer_state (context_of (peers tm) q)).
  pose proof (on_connection_established_waiting s (from_endpoint q e) c) as Hw.
  destruct (on_connection_established s (from_endpoint q e)) as [st b]. simpl in Hw.
  assert (q = p → waiting st = Some c) as Hst.
  { intros ->. apply Hw; [apply Hs|done]. }
  destruct b; simpl.
  - destruct s eqn:Hsq; simpl; try (by eapply stranded_put; [exact Hdel|..]; [done|apply Hdel]).
    apply outcome_post_bind. destruct (cancel_all _ _ _); simpl; [|done].
    eapply stranded_put; [exact Hdel|done|]. apply lookup_delete_None. right. apply Hdel.
  - eapply stranded_put; [exact Hdel|done|apply Hdel].
Qed.

Lemma tm_on_connection_opened_stranded tm t d a :
  tm_wf tm → stranded tm p c →
  outcome_post (tm_on_connection_opened tm t d a) (λ r, stranded r.1.1 p c).
Proof.
  intros Hwf Hs. unfold tm_on_connection_opened.
  destruct (pending_connections tm !! d) as [q|] eqn:Hd; [|by apply outcome_post_assert].
  destruct (stranded_other _ _ _ _ _ _ _ _ Hwf Hs Hd) as [Hq Hdc].
  change (entry _ q) with (context_of (peers tm) q).
  apply outcome_post_bind. destruct (insert _ _) as [addrs|]; simpl; [|done].
  assert (∀ x pend', pend' !! c = None →
    stranded (set_pending (put tm q x) pend') p c) as Hput.
  { intros x pend' Hp. by eapply stranded_put. }
  assert (delete d (pending_connections tm) !! c = None) as Hnone.
  { apply lookup_delete_None. right. apply Hs. }
  pose proof (wf_pending _ _ _ Hwf _ _ Hd) as Hid.
  destruct (peer_state (context_of (peers tm) q)) as [|x i ts| |] eqn:Hsq; simpl;
    try (by apply Hput).
  apply outcome_post_bind. destruct (cancel_all _ _ _); simpl; [|done].
  case_decide; [|done]. injection Hid as ->. destruct (negotiate_succeeds t d); simpl.
  - apply Hput. by rewrite lookup_insert_ne.
  - unfold stranded; simpl. rewrite insert_insert_eq. by apply Hput.
Qed.

Lemma tm_on_open_failure_stranded tm t d :
  tm_wf tm → stranded tm p c → stranded (tm_on_open_failure tm t d).1 p c.
Proof.
  intros Hwf Hs. unfold tm_on_open_failure. destruct (_ !! d) as [q|] eqn:Hd; [|done].
  destruct (stranded_other _ _ _ _ _ _ _ _ Hwf Hs Hd) as [Hq _].
  destruct (on_open_failure _ _) as [st b].
  assert (∀ x pend', pend' !! c = None → stranded (set_pending (put tm q x) pend') p c) as Hput.
  { intros x pend' Hp. by eapply stranded_put. }
  case_decide; [by apply Hput, Hs|]. destruct b; [|by apply Hput, Hs].
  apply Hput, lookup_delete_None. right. apply Hs.
Qed.

Lemma stranded_next tm n :
  stranded tm p c → (next_connection_id tm ≤ n)%N → stranded (set_next_id tm n) p c.
Proof. intros [? ? ?] Hn. split; simpl; try done. lia. Qed.

Lemma dial_stranded tm q :
  stranded tm p c → (next_connection_id tm < usize_max)%N → stranded (dial tm q).1.1 p c.
Proof.
  intros Hs Hn. unfold dial. destruct (on_dial_address _) as [cap|]; [|done].
  case_decide; [done|]. change (entry _ q) with (context_of (peers tm) q).
  assert (stranded (put tm q (context_of (peers tm) q)) p c) as Hput.
  { eapply stranded_put; [done|intros ->; apply Hs|apply Hs]. }
  destruct (can_dial _) eqn:Hd; [done..|].
  assert (q ≠ p) as Hqp.
  { intros ->. by eapply waiting_not_dialable; [apply Hs|]. }
  destruct (get_addresses _ _) as [|x xs] eqn:Hx; [done|].
  unfold dial_addresses. rewrite Hd. simpl. destruct (open_all _ _ _) as [es r].
  pose proof (stranded_allocated _ _ _ _ _ Hs).
  destruct r; simpl; unfold stranded; simpl; rewrite insert_insert_eq, wrapping_succ by done;
    (split; simpl; [rewrite context_of_insert, decide_False by done; apply Hs| |lia]).
  - rewrite lookup_insert_ne by lia. apply Hs.
  - apply Hs.
Qed.

Lemma dial_address_stranded tm a :
  stranded tm p c → (next_connection_id tm < usize_max)%N →
  outcome_post (dial_address tm a) (λ r, stranded r.1.1 p c).
Proof.
  intros Hs Hn. unfold dial_address. destruct (on_dial_address _); [|done].
  destruct (from_multiaddr a) as [r|]; [|done]. case_decide; [done|].
  destruct (dial_transport _) as [t|]; [|done].
  destruct (try_from_multiaddr _) as [q|]; [|done]. simpl.
  change (entry _ q) with (context_of (peers tm) q).
  apply outcome_post_bind. destruct (insert _ _) as [addrs|]; simpl; [|done].
  pose proof (stranded_allocated _ _ _ _ _ Hs).
  assert (∀ st pend', (q = p → waiting st = Some c) → pend' !! c = None →
    stranded_in (<[q := mkPeerContext st addrs]> (peers tm)) pend'
      (next_connection_id tm + 1)%N p c) as Hput.
  { intros st pend' Hw Hp. eapply stranded_put; [split; [apply Hs|apply Hs|lia]|done|done]. }
  unfold dial_single_address. unfold stranded.
  destruct (can_dial _) eqn:Hd; simpl; rewrite ?wrapping_succ by done;
    [apply Hput; [intros ->; apply Hs|apply Hs]..|].
  assert (q ≠ p) as Hqp.
  { intros ->. by eapply waiting_not_dialable; [apply Hs|]. }
  case_decide; [destruct (dial_succeeds _ _ _)|]; simpl; rewrite ?wrapping_succ by done;
    apply Hput; try done; [|apply Hs..].
  rewrite lookup_insert_ne by lia. apply Hs.
Qed.

(** Connection [c] is not established. *)
Definition not_established (i : Input) : Prop :=
  match i with
  | InTransport _ (ConnectionEstablished _ e) => endpoint_connection_id e ≠ c
  | _ => True
  end.

Lemma handle_stranded tm i :
  tm_wf tm → stranded tm p c → (next_connection_id tm < usize_max)%N → not_established i →
  outcome_post (handle tm i) (λ r, stranded r.1.1 p c).
Proof.
  intros Hwf Hs Hn Hi. destruct i as [q e b|q d|q|a|protocol|t e|]; simpl in *.
  - destruct b; simpl; [done|]. by apply tm_on_connection_closed_stranded.
  - pose proof (tm_on_connection_closed_stranded tm q d Hs).
    by destruct (tm_on_connection_closed tm q d).
  - pose proof (dial_stranded tm q Hs Hn). by destruct (dial tm q) as [[] ?].
  - apply outcome_post_bind. eapply outcome_post_impl; [by apply dial_address_stranded|].
    by intros [[] ?].
  - unfold unregister_protocol. by case_match.
  - destruct e as [q e|d|d a errs|q d|d a err|d errs]; simpl.
    + apply outcome_post_bind. eapply outcome_post_impl.
      { by apply (tm_on_connection_established_stranded (set_errors tm _)). }
      intros [[tm' es] r] Hs'. simpl in *. case_decide; [|done].
      destruct r as [[]|]; [destruct (accept_succeeds _ _)|..]; simpl; try done.
      by apply tm_on_connection_closed_stranded.
    + case_decide; [|done]. by destruct (is_ok _).
    + apply outcome_post_bind. set (tm0 := set_errors tm _).
      assert (outcome_post (update_addresses tm0 errs) (λ tm', tm_wf tm' ∧ stranded tm' p c)) as Hu.
      { pose proof (update_addresses_wf errs tm0 Hwf).
        pose proof (update_addresses_stranded errs tm0 Hs).
        by destruct (update_addresses tm0 errs). }
      eapply outcome_post_impl; [exact Hu|]. intros tm' [Hwf' Hs'].
      apply outcome_post_bind. eapply outcome_post_impl.
      { by apply tm_on_connection_opened_stranded. }
      by intros [[tm'' es] r].
    + done.
    + apply outcome_post_bind.
      pose proof (update_address_wf tm a err Hwf) as Hu.
      pose proof (update_address_stranded tm a err Hs) as Hu'.
      destruct (update_address_on_dial_failure tm a err) as [tm'|]; [|done]. simpl in *.
      pose proof (tm_on_dial_failure_stranded tm' d Hu Hu').
      destruct (tm_on_dial_failure tm' d) as [tm'' []]; [|done].
      destruct (try_from_multiaddr a); [done|by apply outcome_post_assert].
    + apply outcome_post_bind.
      pose proof (update_addresses_wf errs tm Hwf) as Hu.
      pose proof (update_addresses_stranded errs tm Hs) as Hu'.
      destruct (update_addresses tm errs) as [tm'|]; [|done]. simpl in *.
      pose proof (tm_on_open_failure_stranded tm' t d Hu Hu').
      by destruct (tm_on_open_failure tm' t d) as [tm'' [[]|]].
  - apply stranded_next; [done|]. rewrite wrapping_succ by done. lia.
Qed.
End stranded.

(** ** Connection identifiers *)

Section next_id.
Context `{IpNetwork, HashOrder, DebugAssertions, Transports}.
Implicit Types (tm : TransportManager).

(** One turn takes at most one identifier. *)
Definition next_le tm (tm' : TransportManager) : Prop :=
  (next_connection_id tm' ≤ next_connection_id tm + 1)%N.
Definition next_same tm (tm' : TransportManager) : Prop :=
  next_connection_id tm' = next_connection_id tm.

Lemma update_address_next tm a e :
  outcome_post (update_address_on_dial_failure tm a e) (next_same tm).
Proof. unfold update_address_on_dial_failure. case_match; [|done]. by destruct (insert _ _). Qed.

Lemma update_addresses_next errors : ∀ tm,
  outcome_post (update_addresses tm errors) (next_same tm).
Proof.
  unfold update_addresses. induction errors as [|[a e] errors IH]; intros tm; simpl; [done|].
  apply outcome_post_bind. eapply outcome_post_impl; [apply update_address_next|].
  intros tm' Hn. eapply outcome_post_impl; [apply IH|]. unfold next_same in *. congruence.
Qed.

Lemma tm_on_connection_established_next tm p e :
  outcome_post (tm_on_connection_established tm p e) (λ r, next_same tm r.1.1).
Proof.
  unfold tm_on_connection_established. apply outcome_post_bind.
  eapply (outcome_post_impl _ (next_same tm)).
  { unfold update_address_on_connection_established. case_match; [done|].
    by destruct (insert _ _). }
  intros tm' Hn. destruct (match _ with Some _ => _ | None => _ end); [by apply outcome_post_assert|].
  destruct (can_accept_connection _ _); [|done].
  destruct (on_connection_established _ _) as [st []]; [|done].
  case_match; try done. by destruct (cancel_all _ _ _).
Qed.

Lemma tm_on_connection_opened_next tm t c a :
  outcome_post (tm_on_connection_opened tm t c a) (λ r, next_same tm r.1.1).
Proof.
  unfold tm_on_connection_opened. case_match; [|by apply outcome_post_assert]. apply outcome_post_bind.
  destruct (insert _ _); [|done]. simpl. destruct (on_connection_opened _ _) as [st []]; [|done].
  simpl. case_match; try done. destruct (cancel_all _ _ _); [|done]. simpl.
  case_decide; [|done]. by case_match.
Qed.

Lemma dial_next tm p : next_le tm (dial tm p).1.1.
Proof.
  unfold dial, next_le, take_connection_id.
  repeat case_match; simplify_eq/=; try lia; apply wrapping_le.
Qed.

Lemma dial_address_next tm a : outcome_post (dial_address tm a) (λ r, next_le tm r.1.1).
Proof.
  unfold dial_address, next_le, take_connection_id.
  repeat (case_match; simplify_eq/=; try (simpl; lia));
    apply outcome_post_bind; destruct (insert _ _); simpl; try done;
    repeat case_match; simplify_eq/=; apply wrapping_le.
Qed.

Lemma handle_next tm i : outcome_post (handle tm i) (λ r, next_le tm r.1.1).
Proof.
  destruct i as [p e b|p c|p|a|protocol|t e|]; simpl.
  - unfold next_le. destruct b; simpl; [lia|]. unfold tm_on_connection_closed.
    destruct (on_connection_closed _ _). simpl. lia.
  - unfold next_le, tm_on_connection_closed. destruct (on_connection_closed _ _). simpl. lia.
  - pose proof (dial_next tm p). by destruct (dial tm p) as [[] ?].
  - apply outcome_post_bind. eapply outcome_post_impl; [apply dial_address_next|].
    by intros [[] ?].
  - unfold unregister_protocol, next_le. case_match; simpl; lia.
  - destruct e as [p e|d|d a errs|p d|d a err|d errs]; simpl.
    + apply outcome_post_bind. eapply outcome_post_impl.
      { apply tm_on_connection_established_next. }
      intros [[tm' es] r] Hn. simpl in *. case_decide; [|done].
      destruct r as [[]|]; [destruct (accept_succeeds _ _)|..]; unfold next_le, next_same in *;
        simpl in *; rewrite ?Hn; try lia.
      unfold tm_on_connection_closed. destruct (on_connection_closed _ _). simpl. lia.
    + unfold next_le. case_decide; [|done]. destruct (is_ok _); simpl; lia.
    + apply outcome_post_bind. eapply outcome_post_impl; [apply update_addresses_next|].
      intros tm' Hn. apply outcome_post_bind. eapply outcome_post_impl.
      { apply tm_on_connection_opened_next. }
      intros [[tm'' es] r] Hn'. unfold next_le, next_same in *. simpl in *. lia.
    + done.
    + apply outcome_post_bind. eapply outcome_post_impl; [apply update_address_next|].
      intros tm' Hn. unfold next_le, next_same, tm_on_dial_failure, debug_assert in *.
      case_match; simplify_eq/=; repeat case_match; simplify_eq/=; lia || done.
    + apply outcome_post_bind. eapply outcome_post_impl; [apply update_addresses_next|].
      intros tm' Hn. unfold next_le, next_same, tm_on_open_failure in *.
      repeat case_match; simplify_eq/=; lia.
  - unfold next_le. simpl. apply wrapping_le.
Qed.
End next_id.

Lemma tm_run_stranded `{IpNetwork, HashOrder, DebugAssertions, Transports} p c inputs : ∀ tm,
  tm_wf tm → stranded tm p c →
  (next_connection_id tm + N.of_nat (length inputs) ≤ usize_max)%N →
  Forall (not_established c) inputs →
  outcome_post (tm_run tm inputs) (λ tm', stranded tm' p c).
Proof.
  induction inputs as [|i inputs IH]; intros tm Hwf Hs Hn Hf; simpl in *; [done|].
  apply Forall_cons in Hf as [Hi Hf]. apply outcome_post_bind.
  pose proof (handle_wf tm i Hwf) as Hwf'.
  pose proof (handle_stranded p c tm i Hwf Hs) as Hs'.
  pose proof (handle_next tm i) as Hn'.
  destruct (handle tm i) as [[[tm' es] ev]|]; [|done]. simpl in *.
  unfold next_le in Hn'. simpl in Hn'. apply IH; [done|apply Hs'; [lia|done]|lia|done].
Qed.

(** ** Properties *)

(** When a dialed connection is established while the limit on outgoing connections is
    reached, the manager rejects it and strands the peer: the peer's state still waits for
    the rejected connection, which the manager no longer tracks. *)
Theorem limit_reject_strands `{IpNetwork, HashOrder, DebugAssertions, Transports}
    (tm : TransportManager) (t : SupportedTransport) (p : PeerId) (e : Endpoint) err r :
  pending_connections tm !! endpoint_connection_id e = Some p →
  waiting (peer_state (entry tm p)) = Some (endpoint_connection_id e) →
  (endpoint_connection_id e < next_connection_id tm)%N →
  can_accept_connection (connection_limits tm) (is_listener e) = Err err →
  handle tm (InTransport t (ConnectionEstablished p e)) = Done r →
  stranded r.1.1 p (endpoint_connection_id e) ∧
  r.1.2 = [CallReject t (endpoint_connection_id e)] ∧ r.2 = None.
Proof.
  intros Hp Hw Hn Hacc. simpl. unfold tm_on_connection_established.
  set (tm0 := set_errors tm _).
  assert (∀ tm1, update_address_on_connection_established tm0 p e = Done tm1 →
    waiting (peer_state (context_of (peers tm1) p)) = Some (endpoint_connection_id e) ∧
    tm1 = set_peers tm0 (peers tm1)) as Hup.
  { unfold update_address_on_connection_established. intros tm1.
    destruct (is_listener e); [intros [= <-]; by destruct tm|].
    destruct (insert _ _) as [addrs|]; simpl; [|done]. intros [= <-]. split; [|done].
    simpl. rewrite context_of_insert, decide_True by done. exact Hw. }
  destruct (update_address_on_connection_established tm0 p e) as [tm1|]; simpl; [|done].
  destruct (Hup tm1 eq_refl) as [Hw1 ->]. simpl.
  rewrite Hp, bool_decide_false, Hacc by auto. simpl. case_decide; [|done].
  intros [= <-]. split; [|done]. split; simpl; [done|apply lookup_delete_eq|done].
Qed.

(** A stranded peer stays stranded: as long as the connection it waits for is not
    established after all, no event, command, failure or close lets the manager dial the
    peer again; every dial of it makes no transport call. *)
Theorem stranded_forever `{IpNetwork, HashOrder, DebugAssertions, Transports}
    (tm tm' : TransportManager) (p : PeerId) (c : ConnectionId) (inputs : list Input) :
  tm_wf tm → stranded tm p c →
  (next_connection_id tm + N.of_nat (length inputs) ≤ usize_max)%N →
  Forall (not_established c) inputs →
  tm_run tm inputs = Done tm' →
  stranded tm' p c ∧ (dial tm' p).1.2 = [].
Proof.
  intros Hwf Hs Hn Hf Hr. pose proof (tm_run_stranded p c inputs tm Hwf Hs Hn Hf) as Hs'.
  rewrite Hr in Hs'. split; [done|]. unfold dial.
  pose proof (waiting_not_dialable _ _ (stranded_waiting _ _ _ _ _ Hs')) as Hd.
  change (entry tm' p) with (context_of (peers tm') p).
  destruct (on_dial_address _); [|done]. case_decide; [done|].
  by destruct (can_dial _).
Qed.

(** ** Witnesses

    At most one outgoing connection: peers 1 and 2 are dialed together, both dials succeed. *)
Definition two_dials : list Input :=
  [ InDialAddress (tcp_address (sample_peer 1)); InDialAddress (tcp_address (sample_peer 2));
    InTransport TransportTcp (ConnectionEstablished (sample_peer 1)
      (Dialer (tcp_address (sample_peer 1)) 0)) ].

Definition second_established : Input :=
  InTransport TransportTcp (ConnectionEstablished (sample_peer 2)
    (Dialer (tcp_address (sample_peer 2)) 1)).

Definition after (inputs : list Input) : TransportManager :=
  match @tm_run sample_network canonical_order false sample_transports
          (tcp_manager (mkLimitsConfig None (Some 1%N))) inputs with
  | Done tm => tm
  | Panic => tcp_manager (mkLimitsConfig None None)
  end.

Lemma after_wf inputs : tm_wf (after inputs).
Proof.
  unfold after. pose proof (@tm_run_wf sample_network canonical_order false sample_transports inputs
    (tcp_manager (mkLimitsConfig None (Some 1%N))) (proj1 (build_wf _ _ _))) as Hwf.
  destruct (tm_run _ _); [done|apply build_wf].
Qed.

Lemma limit_reject_strands_witness :
  match @handle sample_network canonical_order false sample_transports (after two_dials)
          second_established with
  | Done r => stranded r.1.1 (sample_peer 2) 1
  | Panic => False
  end.
Proof.
  assert (is_done (@handle sample_network canonical_order false sample_transports (after two_dials)
            second_established) = true) as Hd by (by vm_compute).
  destruct (handle _ _) as [r|] eqn:E; [|discriminate Hd].
  refine (proj1 (@limit_reject_strands sample_network canonical_order false sample_transports
    (after two_dials) TransportTcp (sample_peer 2) (Dialer (tcp_address (sample_peer 2)) 1)
    MaxOutgoingConnectionsExceeded r _ _ _ _ E)); by vm_compute.
Defined.

Lemma stranded_forever_witness :
  match @tm_run sample_network canonical_order false sample_transports
          (after (two_dials ++ [second_established]))
          [ InConnectionClosed (sample_peer 1) 0; InDialPeer (sample_peer 2) ] with
  | Done tm' => stranded tm' (sample_peer 2) 1
  | Panic => False
  end.
Proof.
  assert (is_done (@tm_run sample_network canonical_order false sample_transports
          (after (two_dials ++ [second_established]))
          [ InConnectionClosed (sample_peer 1) 0; InDialPeer (sample_peer 2) ]) = true) as Hd
    by (by vm_compute).
  destruct (tm_run _ _) as [tm'|] eqn:E; [|discriminate Hd].
  refine (proj1 (@stranded_forever sample_network canonical_order false sample_transports
    (after (two_dials ++ [second_established])) tm' (sample_peer 2) 1 _ (after_wf _) _ _ _ E)).
  - split; by vm_compute.
  - by vm_compute.
  - repeat constructor.
Defined.
