(* ===== verification/TransportManagerLive.v ===== *)
(** * Connection limits of the transport manager

    The limits bound the connections of the peers, not only the sets of the tracker: every
    live connection of every peer is tracked. *)

From stdpp Require Import base tactics option list gmap strings relations.
From Stdlib Require Import ZArith NArith Lia Init.Byte.
From S2P Require Import Prelude Multiaddr AddressStore PeerState ConnectionLimits.
From S2P Require Import TransportManager TransportManagerFacts TransportManagerSafety.

Local Open Scope litep2p_scope.

(** The live connections of a peer. *)
Definition live_ids (ps : gmap PeerId PeerContext) (p : PeerId) : list ConnectionId :=
  connection_id <$> live (abs (peer_state (context_of ps p))).

Definition tracked (l : ConnectionLimits) : gset ConnectionId :=
  incoming_connections l ∪ outgoing_connections l.

Record live_wf (ps : gmap PeerId PeerContext) (l : ConnectionLimits) : Prop := {
  live_nodup p : NoDup (live_ids ps p);
  live_owner p q c : c ∈ live_ids ps p → c ∈ live_ids ps q → p = q;
  live_tracked p c : c ∈ live_ids ps p → c ∈ tracked l;
}.

(** The same live connections and the same tracker. *)
Definition live_frame (tm tm' : TransportManager) : Prop :=
  (∀ p, live_ids (peers tm') p = live_ids (peers tm) p) ∧
  connection_limits tm' = connection_limits tm.

#[export] Instance frame_preorder : PreOrder live_frame.
Proof.
  split; [by intros tm|]. intros tm1 tm2 tm3 [H1 L1] [H2 L2].
  split; [intros p; by rewrite H2|congruence].
Qed.

Lemma frame_live_wf tm tm' :
  live_frame tm tm' → live_wf (peers tm) (connection_limits tm) →
  live_wf (peers tm') (connection_limits tm').
Proof.
  intros [Hf Hl] [Hn Ho Ht]. split.
  - intros p. by rewrite Hf.
  - intros p q c. rewrite !Hf. apply Ho.
  - intros p c. rewrite Hf, Hl. apply Ht.
Qed.

Lemma frame_put tm tm' p st addrs :
  peers tm' = <[p := mkPeerContext st addrs]> (peers tm) →
  connection_limits tm' = connection_limits tm →
  live (abs st) = live (abs (peer_state (context_of (peers tm) p))) → live_frame tm tm'.
Proof.
  intros Hp Hl Hst. split; [|done]. intros q. unfold live_ids. rewrite Hp, context_of_insert.
  destruct (decide (q = p)) as [->|]; [|done]. simpl. by rewrite Hst.
Qed.

(** Events other than [EvEstablished] and [EvClosed] leave the live connections alone. *)
Lemma live_step s e :
  (∀ r, e ≠ EvEstablished r) → (∀ c, e ≠ EvClosed c) →
  live (abs (peer_step s e).1) = live (abs s).
Proof.
  intros Hne Hnc. pose proof (f_equal (λ x, live x.1) (spec_step_sound s e)) as Hs.
  simpl in Hs. rewrite Hs.
  destruct e; simpl; unfold spec_dial_failure, spec_open_failure, spec_opened;
    repeat case_match; naive_solver.
Qed.

Section frames.
Context `{IpNetwork, HashOrder, DebugAssertions, Transports}.
Implicit Types (tm : TransportManager).

Lemma update_address_frame tm a e :
  outcome_post (update_address_on_dial_failure tm a e) (live_frame tm).
Proof.
  unfold update_address_on_dial_failure. case_match; [|done].
  destruct (insert _ _); simpl; [|done]. by eapply frame_put.
Qed.

Lemma update_addresses_frame errors : ∀ tm,
  outcome_post (update_addresses tm errors) (live_frame tm).
Proof.
  unfold update_addresses. induction errors as [|[a e] errors IH]; intros tm; simpl; [done|].
  apply outcome_post_bind. eapply outcome_post_impl; [apply update_address_frame|].
  intros tm' Hn. eapply outcome_post_impl; [apply IH|]. intros tm''. by apply transitivity.
Qed.

Lemma tm_on_dial_failure_frame tm c : live_frame tm (tm_on_dial_failure tm c).1.
Proof.
  unfold tm_on_dial_failure. destruct (_ !! c) as [p|]; [|done].
  change (entry _ p) with (context_of (peers tm) p).
  pose proof (live_step (peer_state (context_of (peers tm) p)) (EvDialFailure c)) as Hl.
  simpl in Hl. destruct (on_dial_failure _ _) as [st b]. simpl in *.
  by eapply frame_put; [| |apply Hl].
Qed.

Lemma tm_on_open_failure_frame tm t c : live_frame tm (tm_on_open_failure tm t c).1.
Proof.
  unfold tm_on_open_failure. destruct (_ !! c) as [p|]; [|done].
  change (entry _ p) with (context_of (peers tm) p).
  pose proof (live_step (peer_state (context_of (peers tm) p)) (EvOpenFailure t)) as Hl.
  simpl in Hl. destruct (on_open_failure _ _) as [st b]. simpl in *.
  case_decide; [|destruct b]; by eapply frame_put; [| |apply Hl].
Qed.

Lemma tm_on_connection_opened_frame tm t c a :
  outcome_post (tm_on_connection_opened tm t c a) (λ r, live_frame tm r.1.1).
Proof.
  unfold tm_on_connection_opened. destruct (_ !! c) as [p|]; [|by apply outcome_post_assert].
  change (entry _ p) with (context_of (peers tm) p).
  destruct (insert _ _) as [addrs|]; simpl; [|done].
  destruct (peer_state (context_of (peers tm) p)) eqn:Hs; simpl;
    try (eapply frame_put; [done|done|by rewrite Hs]).
  destruct (cancel_all _ _ _); simpl; [|done]. case_decide; [|done].
  case_match; simpl; (eapply frame_put; [|done|]); simpl;
    rewrite ?insert_insert_eq; [done|by rewrite Hs|done|by rewrite Hs].
Qed.

Lemma frame_refresh tm p : live_frame tm (put tm p (context_of (peers tm) p)).
Proof.
  eapply (frame_put _ _ p (peer_state (context_of (peers tm) p))
            (peer_addresses (context_of (peers tm) p))); [|done|done].
  simpl. by destruct (context_of (peers tm) p).
Qed.

Lemma can_dial_live s : can_dial s = StateDialOk → live (abs s) = [].
Proof. by case_peer_state s. Qed.

Lemma dial_frame tm p : live_frame tm (dial tm p).1.1.
Proof.
  unfold dial. destruct (on_dial_address _); [|done]. case_decide; [done|].
  change (entry tm p) with (context_of (peers tm) p).
  pose proof (frame_refresh tm p) as Hr.
  destruct (can_dial _) eqn:Hd; [done..|].
  destruct (get_addresses _ _); [done|]. simpl. unfold dial_addresses. rewrite Hd.
  destruct (open_all _ _ _) as [es []]; simpl; eapply frame_put; simpl;
    [by rewrite insert_insert_eq|done|symmetry; by apply can_dial_live|
     by rewrite insert_insert_eq|done|symmetry; by apply can_dial_live].
Qed.

Lemma dial_address_frame tm a : outcome_post (dial_address tm a) (λ r, live_frame tm r.1.1).
Proof.
  unfold dial_address. destruct (on_dial_address _); [|done].
  destruct (from_multiaddr a); [|done]. case_decide; [done|].
  destruct (dial_transport _); [|done]. destruct (try_from_multiaddr _) as [p|]; [|done]. simpl.
  change (entry _ p) with (context_of (peers tm) p).
  destruct (insert _ _); simpl; [|done]. unfold dial_single_address.
  destruct (can_dial _) eqn:Hd; simpl; [by eapply frame_put..|].
  case_decide; [case_match|]; (eapply frame_put; [done|done|]); symmetry; by apply can_dial_live.
Qed.

Lemma update_established_frame tm p e :
  outcome_post (update_address_on_connection_established tm p e) (live_frame tm).
Proof.
  unfold update_address_on_connection_established. case_match; [done|].
  destruct (insert _ _); simpl; [|done]. by eapply frame_put.
Qed.
End frames.

(** ** Accepting and closing *)

(** Both directions are limited. *)
Definition limited (mi mo : N) (l : ConnectionLimits) : Prop :=
  config l = mkLimitsConfig (Some mi) (Some mo).

Lemma accept_tracked mi mo l c b : limited mi mo l →
  tracked (accept_established_connection l c b) = {[c]} ∪ tracked l.
Proof.
  unfold limited, accept_established_connection, tracked. intros ->. destruct b; set_solver.
Qed.

Lemma accept_limited mi mo l c b :
  limited mi mo l → limited mi mo (accept_established_connection l c b).
Proof. unfold limited. by rewrite accept_config. Qed.

Lemma tracked_size mi mo l :
  limits_wf l → limited mi mo l → (N.of_nat (size (tracked l)) ≤ mi + mo)%N.
Proof.
  unfold limits_wf, limited, within, set_len, tracked. intros [Hi Ho] Hc. rewrite Hc in *.
  simpl in *. rewrite size_union_alt.
  pose proof (subseteq_size (outgoing_connections l ∖ incoming_connections l)
    (outgoing_connections l)). set_solver by lia.
Qed.

Lemma established_live s r :
  live (abs (on_connection_established s r).1) =
    if (on_connection_established s r).2 then live (abs s) ++ [r] else live (abs s).
Proof.
  pose proof (spec_step_sound s (EvEstablished r)) as Hs. simpl in Hs.
  destruct (on_connection_established s r) as [st b]. simpl in *.
  unfold spec_established in Hs. case_decide; by injection Hs as -> ->.
Qed.

Lemma closed_live s c :
  live (abs (on_connection_closed s c).1) = remove_first c (live (abs s)).
Proof.
  pose proof (spec_step_sound s (EvClosed c)) as Hs. simpl in Hs.
  destruct (on_connection_closed s c) as [st b]. simpl in *. by injection Hs as -> _.
Qed.

Lemma remove_first_ids c l : NoDup (connection_id <$> l) →
  connection_id <$> remove_first c l = filter (λ x, x ≠ c) (connection_id <$> l).
Proof.
  induction l as [|r l IH]; simpl; [done|]. intros [Hr Hn]%NoDup_cons.
  rewrite filter_cons. destruct (decide (connection_id r = c)) as [<-|Hne]; simpl.
  - rewrite decide_False by auto. symmetry. apply filter_keep. set_solver.
  - rewrite decide_True by done. f_equal. by apply IH.
Qed.

(** ** The invariant *)

Section live.
Context `{IpNetwork, HashOrder, DebugAssertions, Transports}.
Implicit Types (tm : TransportManager).

(** Connection identifiers are unique: an established connection carries an identifier no
    live connection has, and a connection is closed at the peer that owns it. *)
Definition owned (tm : TransportManager) (p : PeerId) (c : ConnectionId) : Prop :=
  ∀ q, c ∈ live_ids (peers tm) q → q = p.

Definition ids_ok (tm : TransportManager) (i : Input) : Prop :=
  match i with
  | InAccepted p e false => owned tm p (endpoint_connection_id e)
  | InConnectionClosed p c => owned tm p c
  | InTransport _ (ConnectionEstablished _ e) =>
      ∀ q, endpoint_connection_id e ∉ live_ids (peers tm) q
  | _ => True
  end.

Context (mi mo : N).

Definition tm_live tm : Prop :=
  live_wf (peers tm) (connection_limits tm) ∧ limited mi mo (connection_limits tm).

Lemma frame_live tm tm' : live_frame tm tm' → tm_live tm → tm_live tm'.
Proof.
  intros Hf [Hl Hlim]. split; [by eapply frame_live_wf|]. destruct Hf as [_ Hc]. by rewrite Hc.
Qed.

Lemma tm_on_connection_closed_live tm p c :
  tm_live tm → owned tm p c → tm_live (tm_on_connection_closed tm p c).1.
Proof.
  intros [[Hn Ho Ht] Hlim] Hown. unfold tm_on_connection_closed.
  change (entry _ p) with (context_of (peers tm) p).
  pose proof (closed_live (peer_state (context_of (peers tm) p)) c) as Hcl.
  destruct (on_connection_closed _ _) as [st b]. simpl in *.
  assert (∀ q, live_ids (<[p := mkPeerContext st (peer_addresses (context_of (peers tm) p))]>
      (peers tm)) q = filter (λ x, x ≠ c) (live_ids (peers tm) q)) as Hids.
  { intros q. unfold live_ids. rewrite context_of_insert.
    destruct (decide (q = p)) as [->|Hne]; simpl.
    - rewrite Hcl. apply remove_first_ids, Hn.
    - symmetry. apply filter_keep. intros x Hx ->. by apply Hne, Hown. }
  split; [|exact Hlim]. split; simpl.
  - intros q. rewrite Hids. apply NoDup_filter, Hn.
  - intros q q' x. rewrite !Hids, !list_elem_of_filter. intros [_ ?] [_ ?]. eauto.
  - intros q x. rewrite Hids, list_elem_of_filter. intros [Hx Hq].
    specialize (Ht q x Hq). unfold tracked in *. simpl. set_solver.
Qed.

Lemma accept_live tm p e st addrs pend :
  tm_live tm → (∀ q, endpoint_connection_id e ∉ live_ids (peers tm) q) →
  live (abs st) = live (abs (peer_state (context_of (peers tm) p))) ++ [from_endpoint p e] →
  tm_live (set_pending (set_limits (put tm p (mkPeerContext st addrs))
    (accept_established_connection (connection_limits tm) (endpoint_connection_id e)
       (is_listener e))) pend).
Proof.
  intros [[Hn Ho Ht] Hlim] Hfresh Hst.
  split; [|by apply accept_limited].
  assert (∀ q, live_ids (<[p := mkPeerContext st addrs]> (peers tm)) q =
    live_ids (peers tm) q ++ if decide (q = p) then [endpoint_connection_id e] else []) as Hids.
  { intros q. unfold live_ids. rewrite context_of_insert.
    destruct (decide (q = p)) as [->|Hne]; simpl; [|by rewrite app_nil_r].
    by rewrite Hst, fmap_app. }
  split; simpl.
  - intros q. rewrite Hids. apply NoDup_app. split_and!; [apply Hn| |];
      case_decide; [set_solver|set_solver|apply NoDup_singleton|apply NoDup_nil_2].
  - intros q q' x. rewrite !Hids, !elem_of_app. specialize (Ho q q' x).
    repeat case_decide; set_solver.
  - intros q x. rewrite Hids, elem_of_app, (accept_tracked mi mo) by done. specialize (Ht q x).
    case_decide; set_solver.
Qed.

(** An accepted connection is live at its peer only. *)
Lemma tm_on_connection_established_live tm p e :
  tm_live tm → (∀ q, endpoint_connection_id e ∉ live_ids (peers tm) q) →
  outcome_post (tm_on_connection_established tm p e)
    (λ r, tm_live r.1.1 ∧ owned r.1.1 p (endpoint_connection_id e)).
Proof.
  intros Hl Hfresh. unfold tm_on_connection_established. apply outcome_post_bind.
  eapply outcome_post_impl; [apply update_established_frame|]. intros tm' Hf.
  assert (tm_live tm') as Hl' by (by eapply frame_live).
  assert (∀ q, endpoint_connection_id e ∉ live_ids (peers tm') q) as Hfresh'.
  { intros q. destruct Hf as [Hf _]. rewrite Hf. apply Hfresh. }
  assert (owned tm' p (endpoint_connection_id e)) as Hown'.
  { intros q Hq. by destruct (Hfresh' q). }
  clear tm Hl Hfresh Hf. rename tm' into tm.
  destruct (match _ with Some _ => _ | None => _ end); [by apply outcome_post_assert|].
  destruct (can_accept_connection _ _); [|done].
  change (entry _ p) with (context_of (peers tm) p).
  pose proof (established_live (peer_state (context_of (peers tm) p)) (from_endpoint p e)) as He.
  destruct (on_connection_established _ _) as [st b]. simpl in He. destruct b.
  - assert (∀ pend, tm_live (set_pending (set_limits (put tm p
        (mkPeerContext st (peer_addresses (context_of (peers tm) p))))
      (accept_established_connection (connection_limits tm) (endpoint_connection_id e)
       (is_listener e))) pend)) as Hacc by (intros; by apply accept_live).
    assert (∀ q, endpoint_connection_id e ∈ live_ids (<[p := mkPeerContext st
      (peer_addresses (context_of (peers tm) p))]> (peers tm)) q → q = p) as Hown.
    { intros q. unfold live_ids. rewrite context_of_insert. case_decide; [done|].
      intros Hq. by destruct (Hfresh' q). }
    case_match; try (split; [apply (Hacc (delete _ _))|exact Hown]).
    apply outcome_post_bind. destruct (cancel_all _ _ _); simpl; [|done].
    split; [apply Hacc|exact Hown].
  - assert (live_frame tm (put (set_pending tm (delete (endpoint_connection_id e)
      (pending_connections tm))) p
      (mkPeerContext st (peer_addresses (context_of (peers tm) p))))) as Hf
      by (by eapply frame_put).
    split; [by eapply frame_live|]. intros q Hq. destruct Hf as [Hf _].
    rewrite Hf in Hq. by destruct (Hfresh' q).
Qed.

Lemma handle_live tm i :
  tm_live tm → ids_ok tm i → outcome_post (handle tm i) (λ r, tm_live r.1.1).
Proof.
  intros Hl Hok. destruct i as [p e b|p c|p|a|protocol|t e|]; simpl in *.
  - destruct b; simpl; [done|]. by apply tm_on_connection_closed_live.
  - pose proof (tm_on_connection_closed_live tm p c Hl Hok).
    by destruct (tm_on_connection_closed tm p c).
  - pose proof (dial_frame tm p) as Hf. destruct (dial tm p) as [[] ?]. simpl in *.
    by eapply frame_live.
  - apply outcome_post_bind. eapply outcome_post_impl; [apply dial_address_frame|].
    intros [[] ?] Hf. by eapply frame_live.
  - unfold unregister_protocol. by case_match.
  - destruct e as [p e|d|d a errs|p d|d a err|d errs]; simpl.
    + apply outcome_post_bind. eapply outcome_post_impl.
      { by apply (tm_on_connection_established_live (set_errors tm _)). }
      intros [[tm' es] r] [Hl' Hown]. simpl in *. case_decide; [|done].
      destruct r as [[]|]; [destruct (accept_succeeds _ _)|..]; simpl; try done.
      by apply tm_on_connection_closed_live.
    + case_decide; [|done]. by destruct (is_ok _).
    + apply outcome_post_bind. eapply outcome_post_impl; [apply update_addresses_frame|].
      intros tm' Hf. apply outcome_post_bind. eapply outcome_post_impl.
      { apply tm_on_connection_opened_frame. }
      intros [[tm'' es] r] Hf'. simpl in *. eapply frame_live; [exact Hf'|].
      eapply frame_live; [exact Hf|done].
    + done.
    + apply outcome_post_bind. eapply outcome_post_impl; [apply update_address_frame|].
      intros tm' Hf. pose proof (tm_on_dial_failure_frame tm' d) as Hf'.
      assert (tm_live (tm_on_dial_failure tm' d).1) by (eapply frame_live; [exact Hf'|]; by eapply frame_live).
      destruct (tm_on_dial_failure tm' d) as [tm'' []]; [|done].
      destruct (try_from_multiaddr a); [done|by apply outcome_post_assert].
    + apply outcome_post_bind. eapply outcome_post_impl; [apply update_addresses_frame|].
      intros tm' Hf. pose proof (tm_on_open_failure_frame tm' t d) as Hf'.
      destruct (tm_on_open_failure tm' t d) as [tm'' [[]|]]; simpl in *;
        (eapply (frame_live tm'' ); [done|]); (eapply frame_live; [exact Hf'|]);
        by eapply frame_live.
  - done.
Qed.
End live.

(** ** Reachable states *)

(** One turn of the event loop, on an input that respects the identifiers. *)
Inductive tm_step `{IpNetwork, HashOrder, DebugAssertions, Transports} : TransportManager → TransportManager → Prop :=
| tm_step_handle tm i tm' es ev :
    ids_ok tm i → handle tm i = Done (tm', es, ev) → tm_step tm tm'.

Lemma build_live mi mo local ts :
  tm_live mi mo (set_transports (build local (mkLimitsConfig (Some mi) (Some mo))) ts).
Proof.
  split; [|done]. assert (∀ p, live_ids (∅ : gmap PeerId PeerContext) p = []) as He.
  { intros p. unfold live_ids, context_of. by rewrite lookup_empty. }
  split; simpl.
  - intros p. rewrite He. constructor.
  - intros p q c. rewrite He. set_solver.
  - intros p c. rewrite He. set_solver.
Qed.

Lemma tm_steps_live `{IpNetwork, HashOrder, DebugAssertions, Transports} mi mo tm tm' :
  rtc tm_step tm tm' → tm_wf tm → tm_live mi mo tm → tm_wf tm' ∧ tm_live mi mo tm'.
Proof.
  induction 1 as [tm|tm1 tm2 tm3 [tm i tm' es ev Hok Hh] _ IH]; [done|].
  intros Hwf Hl. apply IH.
  - pose proof (handle_wf tm i Hwf) as Hp. by rewrite Hh in Hp.
  - pose proof (handle_live mi mo tm i Hl Hok) as Hp. by rewrite Hh in Hp.
Qed.

(** C25. The connection limits bound the connections themselves: in every reachable state,
    however the events interleave, the identifiers of the live connections of all peers
    together are at most [max_incoming + max_outgoing], and no identifier is live at two
    peers. *)
Theorem connections_within_limits `{IpNetwork, HashOrder, DebugAssertions, Transports} mi mo local ts tm :
  rtc tm_step (set_transports (build local (mkLimitsConfig (Some mi) (Some mo))) ts) tm →
  (∀ cs, NoDup cs → (∀ c, c ∈ cs → ∃ p, c ∈ live_ids (peers tm) p) →
         (N.of_nat (length cs) ≤ mi + mo)%N) ∧
  (∀ p q c, c ∈ live_ids (peers tm) p → c ∈ live_ids (peers tm) q → p = q).
Proof.
  intros Hr. destruct (tm_steps_live mi mo _ _ Hr) as [[_ Hlim _] [[_ Ho Ht] Hc]];
    [apply build_wf|apply build_live|]. split; [|exact Ho]. intros cs Hn Hcs.
  pose proof (tracked_size _ _ _ Hlim Hc).
  assert (size (list_to_set cs : gset ConnectionId) = length cs) as <- by (by apply size_list_to_set).
  pose proof (subseteq_size (list_to_set cs) (tracked (connection_limits tm))) as Hs.
  enough (list_to_set cs ⊆ tracked (connection_limits tm)) by (specialize (Hs ltac:(done)); lia).
  intros c Hin%elem_of_list_to_set. destruct (Hcs c Hin) as [p Hp]. by eapply Ht.
Qed.

Definition limited_manager : TransportManager :=
  set_transports (build (sample_peer 0) (mkLimitsConfig (Some 1%N) (Some 0%N))) [TransportTcp].

Definition inbound (n c : N) : Input :=
  InTransport TransportTcp
    (ConnectionEstablished (sample_peer n) (Listener (tcp_address (sample_peer n)) c)).

Lemma connections_within_limits_witness :
  match @handle sample_network canonical_order false sample_transports limited_manager (inbound 1 7) with
  | Done (tm, _, _) => live_ids (peers tm) (sample_peer 1) = [7%N] ∧
      ∀ cs, NoDup cs → (∀ c, c ∈ cs → ∃ p, c ∈ live_ids (peers tm) p) →
            (N.of_nat (length cs) ≤ 1 + 0)%N
  | Panic => False
  end.
Proof.
  assert (is_done (@handle sample_network canonical_order false sample_transports limited_manager
            (inbound 1 7)) = true) as Hd by (by vm_compute).
  assert (match @handle sample_network canonical_order false sample_transports limited_manager
            (inbound 1 7) with
          | Done (tm, _, _) => live_ids (peers tm) (sample_peer 1)
          | Panic => [] end = [7%N]) as Hids by (by vm_compute).
  destruct (@handle _ _ _ _ _ _) as [[[tm es] ev]|] eqn:E; [|discriminate Hd].
  split; [exact Hids|].
  refine (proj1 (@connections_within_limits sample_network canonical_order false sample_transports
    1 0 (sample_peer 0) [TransportTcp] tm _)).
  apply rtc_once. econstructor; [|exact E]. intros q. unfold live_ids, context_of.
  simpl. rewrite lookup_empty. apply not_elem_of_nil.
Defined.
