(* ===== verification/TransportManagerHandle.v ===== *)
(** * Transport manager handle

    [TransportManagerHandle] of [src/src/transport/manager/handle.rs]: what protocols and users
    call. The handle shares the peers, the listen addresses and the connection counter with
    the manager (they are behind [Arc]s), so its operations act on the manager's state;
    commands go through a bounded channel whose [try_send] is an oracle. *)

From stdpp Require Import base tactics option list gmap strings.
From Stdlib Require Import ZArith NArith Lia Init.Byte.
From S2P Require Import Prelude Multiaddr AddressStore PeerState ConnectionLimits.
From S2P Require Import TransportManager TransportManagerFacts TransportManagerSafety.

Local Open Scope litep2p_scope.

Inductive InnerTransportManagerCommand :=
| DialPeer (p : PeerId)
| DialAddress (a : Multiaddr)
| UnregisterProtocol (protocol : string).

Inductive TrySendError := Full | Closed.

(** [tokio::sync::mpsc::Sender::try_send] *)
Class CommandChannel : Type := {
  try_send : InnerTransportManagerCommand → result TrySendError unit;
}.

Inductive ImmediateDialError :=
| PeerIdMissing
| TriedToDialSelf
| ImmediateAlreadyConnected
| NoAddressAvailable
| TaskClosed
| ChannelClogged.

(** ** Addresses *)

(** [std::net::IpAddr], the bits of the address. *)
Inductive IpAddr := V4 (ip : N) | V6 (ip : N).

#[export] Instance IpAddr_eq_dec : EqDecision IpAddr.
Proof. solve_decision. Defined.

(** [IpAddr::is_unspecified]: [0.0.0.0] and [::]. *)
Definition is_unspecified (ip : IpAddr) : bool :=
  match ip with V4 ip | V6 ip => (ip =? 0)%N end.

(** [IpAddr::is_loopback]: [127.0.0.0/8] and [::1]. *)
Definition is_loopback (ip : IpAddr) : bool :=
  match ip with V4 ip => (N.shiftr ip 24 =? 127)%N | V6 ip => (ip =? 1)%N end.

(** [TransportManagerHandle::supported_transport]: the transport that dials the address *)
Definition handle_transport (a : Multiaddr) : option SupportedTransport :=
  match a with
  | [] => None
  | host :: rest =>
      let dialable := match host with
                      | Ip4 ip => negb (is_unspecified (V4 ip))
                      | Ip6 ip => negb (is_unspecified (V6 ip))
                      | Dns _ | Dns4 _ | Dns6 _ => true
                      | _ => false
                      end in
      if dialable then
        match rest with
        | [Tcp _; P2p _] => Some TransportTcp
        | [Tcp _; Ws _; P2p _] => Some TransportWebSocket
        | [Tcp _; Wss _; P2p _] => Some TransportWebSocket
        | [Udp _; QuicV1; P2p _] => Some TransportQuic
        | _ => None
        end
      else None
  end.

Definition supported_transport (ts : gset SupportedTransport) (a : Multiaddr) : bool :=
  match handle_transport a with Some t => bool_decide (t ∈ ts) | None => false end.

(** [TransportManagerHandle::extract_ip_port] *)
Definition extract_ip_port (a : Multiaddr) : option (IpAddr * N) :=
  match a with
  | host :: rest =>
      ip ← match host with Ip4 ip => Some (V4 ip) | Ip6 ip => Some (V6 ip) | _ => None end;
      match rest with
      | (Tcp port | Udp port) :: _ => Some (ip, port)
      | _ => None
      end
  | [] => None
  end.

(** [iter().take_while(|p| !matches!(p, Protocol::P2p(_)))] *)
Fixpoint strip_peer (a : Multiaddr) : Multiaddr :=
  match a with
  | [] => []
  | x :: a => if is_p2p x then [] else x :: strip_peer a
  end.

(** The body of the loop of [is_local_address]. *)
Definition local_match (ip : IpAddr) (port : N) (listen_address : Multiaddr) : bool :=
  match extract_ip_port listen_address with
  | None => false
  | Some (listen_ip, listen_port) =>
      (port =? listen_port)%N &&
      (bool_decide (listen_ip = ip) ||
       is_unspecified listen_ip && is_loopback ip ||
       is_loopback listen_ip && is_loopback ip)
  end.

Section handle.
Context `{IpNetwork, HashOrder}.

(** [TransportManagerHandle::is_local_address] *)
Definition is_local_address (listen : gset Multiaddr) (a : Multiaddr) : bool :=
  let a := strip_peer a in
  if decide (a ∈ listen) then true
  else
    match extract_ip_port a with
    | None => false
    | Some (ip, port) => existsb (local_match ip port) (set_order listen)
    end.

(** The address the loop of [add_known_address] keeps for an address given, if any. *)
Definition known_address (ts : gset SupportedTransport) (listen : gset Multiaddr)
    (peer : PeerId) (a : Multiaddr) : option Multiaddr :=
  if negb (supported_transport ts a) then None
  else if is_local_address listen a then None
  else
    match last a with
    | Some (P2p m) => if decide (m ≠ multihash peer) then None else Some a
    | _ => Some (with_protocol a (P2p (multihash peer)))
    end.

(** [TransportManagerHandle::add_known_address] *)
Definition add_known_address (ts : gset SupportedTransport) (tm : TransportManager)
    (peer : PeerId) (l : list Multiaddr) : outcome (TransportManager * nat) :=
  let peer_addrs : gset Multiaddr :=
    foldl (λ s a, match known_address ts (listen_addresses tm) peer a with
                  | Some a => {[a]} ∪ s
                  | None => s
                  end) ∅ l in
  let context := entry tm peer in
  run addrs <- extend (peer_addresses context)
                 (omap from_multiaddr (set_order peer_addrs)) ;;
  Done (put tm peer (mkPeerContext (peer_state context) addrs), size peer_addrs).

Definition send_error (e : TrySendError) : ImmediateDialError :=
  match e with Full => ChannelClogged | Closed => TaskClosed end.

(** [cmd_tx.try_send(c).map_err(..)]: the commands that reached the channel, the result. *)
Definition send_command `{CommandChannel} (c : InnerTransportManagerCommand) :
    list InnerTransportManagerCommand * result ImmediateDialError unit :=
  match try_send c with
  | Ok _ => ([c], Ok tt)
  | Err e => ([], Err (send_error e))
  end.

(** [TransportManagerHandle::dial] *)
Definition handle_dial `{CommandChannel} (tm : TransportManager) (peer : PeerId) :
    list InnerTransportManagerCommand * result ImmediateDialError unit :=
  if decide (peer = local_peer_id tm) then ([], Err TriedToDialSelf)
  else
    match peers tm !! peer with
    | None => ([], Err NoAddressAvailable)
    | Some context =>
        match can_dial (peer_state context) with
        | AlreadyConnected => ([], Err ImmediateAlreadyConnected)
        | DialingInProgress => ([], Ok tt)
        | StateDialOk =>
            if store_is_empty (peer_addresses context) then ([], Err NoAddressAvailable)
            else send_command (DialPeer peer)
        end
    end.

(** [TransportManagerHandle::dial_address] *)
Definition handle_dial_address `{CommandChannel} (a : Multiaddr) :
    list InnerTransportManagerCommand * result ImmediateDialError unit :=
  if negb (existsb is_p2p a) then ([], Err PeerIdMissing)
  else send_command (DialAddress a).

(** [TransportManagerHandle::unregister_protocol] *)
Definition handle_unregister_protocol `{CommandChannel} (protocol : string) :
    list InnerTransportManagerCommand :=
  (send_command (UnregisterProtocol protocol)).1.
End handle.

(** A command the manager receives. *)
Definition command_input (c : InnerTransportManagerCommand) : Input :=
  match c with
  | DialPeer p => InDialPeer p
  | DialAddress a => InDialAddress a
  | UnregisterProtocol protocol => InUnregister protocol
  end.

(** ** Lemmas *)

Lemma handle_transport_spec a t :
  handle_transport a = Some t →
  ends_with_p2p a = true ∧ address_transport a = t ∧ dial_transport a = Some t.
Proof.
  destruct a as [|host rest]; simpl; [done|]. case_match eqn:Hd; [|done].
  intros Ht. repeat (case_match; try discriminate Ht); injection Ht as <-;
    by destruct host; try discriminate Hd.
Qed.

Lemma supported_transport_spec ts a :
  supported_transport ts a = true →
  ends_with_p2p a = true ∧ address_transport a ∈ ts ∧ dial_transport a = Some (address_transport a).
Proof.
  unfold supported_transport. destruct (handle_transport a) as [t|] eqn:Ht; [|done].
  intros Hin%bool_decide_eq_true. by apply handle_transport_spec in Ht as (? & -> & ?).
Qed.

Section handle_facts.
Context `{IpNetwork, HashOrder}.
Implicit Types (tm : TransportManager).

Lemma known_address_spec ts listen peer a a' :
  known_address ts listen peer a = Some a' ↔
  a' = a ∧ supported_transport ts a = true ∧ is_local_address listen a = false ∧
  last a = Some (P2p (multihash peer)).
Proof.
  unfold known_address. destruct (supported_transport ts a) eqn:Hs; simpl; [|naive_solver].
  destruct (is_local_address listen a) eqn:Hl; [naive_solver|].
  apply supported_transport_spec in Hs as [He _]. unfold ends_with_p2p in He.
  destruct (last a) as [[]|]; try discriminate He. case_decide; naive_solver.
Qed.

Lemma known_addresses_set ts listen peer l : ∀ s : gset Multiaddr,
  foldl (λ s a, match known_address ts listen peer a with
                | Some a => {[a]} ∪ s
                | None => s
                end) s l = list_to_set (omap (known_address ts listen peer) l) ∪ s.
Proof.
  induction l as [|a l IH]; intros s; simpl; [set_solver|].
  rewrite IH. destruct (known_address _ _ _ a); simpl; set_solver.
Qed.

Lemma from_multiaddr_known peer a :
  last a = Some (P2p (multihash peer)) → ∃ r, from_multiaddr a = Some r ∧ address r = a ∧ score r = 0%Z.
Proof. intros Hl. unfold from_multiaddr, ends_with_p2p. rewrite Hl. simpl. eauto. Qed.

Lemma from_multiaddr_score a r : from_multiaddr a = Some r → score r = 0%Z ∧ address r = a.
Proof. unfold from_multiaddr. case_match; [done|]. by intros [= <-]. Qed.

Lemma extend_dom rs : ∀ st st' a, store_wf st → Forall (λ r, i32 (score r)) rs →
  extend st rs = Done st' → is_Some (addresses st' !! a) →
  is_Some (addresses st !! a) ∨ ∃ r, r ∈ rs ∧ address r = a.
Proof.
  unfold extend. induction rs as [|r rs IH]; simpl; intros st st' a Hwf Hf He Ha.
  { injection He as <-. by left. }
  apply Forall_cons in Hf as [Hr Hf]. destruct (insert_total st r Hwf Hr) as (st1 & Hi & Hwf1).
  rewrite Hi in He. simpl in He. destruct (IH _ _ _ Hwf1 Hf He Ha) as [Hs|(r' & ? & ?)].
  - destruct (insert_dom _ _ _ _ Hwf Hi Hs) as [?| ->]; [by left|]. right. set_solver.
  - right. set_solver.
Qed.

(** With room for every record nothing is evicted. *)
Lemma extend_room rs : ∀ st st', store_wf st → Forall (λ r, i32 (score r)) rs →
  extend st rs = Done st' → size (addresses st) + length rs ≤ max_capacity st →
  (∀ a, is_Some (addresses st !! a) → is_Some (addresses st' !! a)) ∧
  (∀ r, r ∈ rs → is_Some (addresses st' !! address r)).
Proof.
  unfold extend. induction rs as [|r rs IH]; simpl; intros st st' Hwf Hf He Hsz.
  { injection He as <-. set_solver. }
  apply Forall_cons in Hf as [Hr Hf].
  destruct (insert_post_complete st r Hwf) as (st1 & Hi & Hp).
  destruct (insert_post_wf _ _ _ Hwf Hr Hp) as [Hwf1 Hc]. rewrite Hi in He. simpl in He.
  assert ((∀ a, is_Some (addresses st !! a) → is_Some (addresses st1 !! a)) ∧
          is_Some (addresses st1 !! address r) ∧
          size (addresses st1) ≤ S (size (addresses st))) as (Hk & Hn & Hs).
  { destruct Hp as [old Ho|old Ho|Ho|m ? ?|m ? ?]; simpl; [rewrite Ho; split_and!; by eauto with lia|..|lia|lia];
      rewrite lookup_insert_eq, map_size_insert, Ho; (split_and!; [|by eexists|simpl; unfold id; lia]);
      intros a Ha; apply lookup_insert_is_Some; destruct (decide (address r = a)); auto. }
  destruct (IH st1 st' Hwf1 Hf He ltac:(lia)) as [Hk' Hin'].
  split; [auto|]. intros r' [->|?]%elem_of_cons; auto.
Qed.

Definition stored tm (p : PeerId) (a : Multiaddr) : Prop :=
  is_Some (addresses (peer_addresses (context_of (peers tm) p)) !! a).

(** What [add_known_address] accepts. *)
Definition acceptable (ts : gset SupportedTransport) tm (p : PeerId) (a : Multiaddr) : Prop :=
  supported_transport ts a = true ∧ is_local_address (listen_addresses tm) a = false ∧
  last a = Some (P2p (multihash p)).

Lemma add_known_address_total ts tm peer l :
  tm_wf tm →
  let accepted : gset Multiaddr :=
    list_to_set (omap (known_address ts (listen_addresses tm) peer) l) in
  ∃ tm' addrs, add_known_address ts tm peer l = Done (tm', size accepted) ∧
    tm' = put tm peer (mkPeerContext (peer_state (context_of (peers tm) peer)) addrs) ∧
    store_wf addrs ∧
    (∀ a, is_Some (addresses addrs !! a) → stored tm peer a ∨ a ∈ accepted) ∧
    (size (addresses (peer_addresses (context_of (peers tm) peer))) + size accepted
       ≤ max_capacity (peer_addresses (context_of (peers tm) peer)) →
     ∀ a, stored tm peer a ∨ a ∈ accepted → is_Some (addresses addrs !! a)).
Proof.
  intros Hwf accepted. unfold add_known_address. rewrite known_addresses_set.
  rewrite (right_id_L ∅ (∪)). fold accepted.
  change (entry _ peer) with (context_of (peers tm) peer).
  pose proof (wf_context _ _ _ peer Hwf) as Hst. set (rs := omap from_multiaddr _).
  assert (∀ r, r ∈ rs → score r = 0%Z ∧ address r ∈ accepted) as Hrs.
  { intros r (a & Ha%set_order_elem & Hr)%list_elem_of_omap.
    by apply from_multiaddr_score in Hr as [? ->]. }
  assert (Forall (λ r, i32 (score r)) rs) as Hf.
  { apply Forall_forall. intros r Hr. by destruct (Hrs r Hr) as [-> _]. }
  destruct (extend_wf rs _ Hst Hf) as (addrs & He & Hwf' & _). rewrite He. simpl.
  eexists _, addrs. split_and!; [done..| |].
  - intros a Ha. destruct (extend_dom _ _ _ _ Hst Hf He Ha) as [?|(r & Hr & <-)]; [by left|].
    right. by apply Hrs.
  - intros Hroom. destruct (extend_room _ _ _ Hst Hf He) as [Hk Hn].
    { etrans; [|exact Hroom]. apply Nat.add_le_mono_l. unfold rs.
      rewrite <- set_order_length. apply length_omap_le. }
    intros a [?|Ha]; [by apply Hk|].
    assert (last a = Some (P2p (multihash peer))) as Hl.
    { apply elem_of_list_to_set, list_elem_of_omap in Ha as (b & _ & Hb).
      by apply known_address_spec in Hb as (-> & _ & _ & ?). }
    destruct (from_multiaddr_known _ _ Hl) as (r & Hr & <- & _). apply Hn.
    apply list_elem_of_omap. exists (address r). by rewrite set_order_elem.
Qed.

Lemma accepted_elem ts tm peer l a :
  a ∈ (list_to_set (omap (known_address ts (listen_addresses tm) peer) l) : gset Multiaddr) ↔
  a ∈ l ∧ acceptable ts tm peer a.
Proof.
  rewrite elem_of_list_to_set, list_elem_of_omap. unfold acceptable.
  setoid_rewrite known_address_spec. naive_solver.
Qed.
End handle_facts.

Lemma open_all_result `{Transports} ts c l es r :
  open_all ts c l = (es, r) → r = Ok tt ∨ r = Err ErrTransport.
Proof.
  revert es. induction l as [|[t a] l IH]; intros es; simpl; [naive_solver|].
  repeat case_decide; [by apply IH| |by apply IH].
  case_match; [|naive_solver]. destruct (open_all ts c l) as [es' r'] eqn:E.
  intros [= _ <-]. by eapply IH.
Qed.

Lemma add_known_address_wf `{IpNetwork, HashOrder} ts tm peer l : tm_wf tm → ∃ tm' n, add_known_address ts tm peer l = Done (tm', n) ∧ tm_wf tm'.
Proof.
  intros Hwf. destruct (add_known_address_total ts tm peer l Hwf) as (tm' & addrs & -> & -> & Hst & _).
  eexists _, _. split; [done|]. by apply wf_step_addresses.
Qed.

(** ** Properties *)

(** Adding known addresses never panics and keeps the manager's invariants, in particular
    every known address still belongs to an installed transport. Only addresses of the list
    that a transport can dial, that are not the node's own and that name the peer are stored,
    all of them when there is room; the returned count is their number; the peer's state and
    the other peers are untouched. *)
Theorem add_known_address_spec `{IpNetwork, HashOrder} ts tm peer l :
  tm_wf tm → installed tm → (∀ t, t ∈ ts → t ∈ transports tm) →
  ∃ tm' n, add_known_address ts tm peer l = Done (tm', n) ∧ tm_wf tm' ∧ installed tm' ∧
    (∀ q, q ≠ peer → peers tm' !! q = peers tm !! q) ∧
    peer_state (context_of (peers tm') peer) = peer_state (context_of (peers tm) peer) ∧
    (∀ a, stored tm' peer a → stored tm peer a ∨ a ∈ l ∧ acceptable ts tm peer a) ∧
    (∃ accepted : gset Multiaddr, n = size accepted ∧
       (∀ a, a ∈ accepted ↔ a ∈ l ∧ acceptable ts tm peer a) ∧
       (size (addresses (peer_addresses (context_of (peers tm) peer))) + n
          ≤ max_capacity (peer_addresses (context_of (peers tm) peer)) →
        ∀ a, stored tm peer a ∨ a ∈ accepted → stored tm' peer a)).
Proof.
  intros Hwf Hi Hts.
  destruct (add_known_address_total ts tm peer l Hwf) as (tm' & addrs & -> & -> & Hst & Hd & Hr).
  set (accepted := list_to_set _) in *.
  assert (∀ a, stored (put tm peer (mkPeerContext (peer_state (context_of (peers tm) peer)) addrs))
                 peer a ↔ is_Some (addresses addrs !! a)) as Hs.
  { intros a. unfold stored. simpl. by rewrite context_of_insert, decide_True. }
  eexists _, _. split_and!; [done|..].
  - by apply wf_step_addresses.
  - apply installed_put; [done|]. pose proof (context_of_installed tm peer Hi) as [Ha Ho].
    split; [|exact Ho]. simpl. intros a [?|[_ (Hsup & _)]%accepted_elem]%Hd; [by apply Ha|].
    apply supported_transport_spec in Hsup as (_ & ? & _). auto.
  - intros q Hq. simpl. by rewrite lookup_insert_ne.
  - simpl. by rewrite context_of_insert, decide_True.
  - intros a [?|?%accepted_elem]%Hs%Hd; auto.
  - exists accepted. split_and!; [done|intros a; apply accepted_elem|].
    intros Hroom a Ha. apply Hs. by apply Hr.
Qed.

(** An address without a trailing peer is never added, although the code has a branch that
    appends the peer: [supported_transport] has refused it before. *)
Theorem known_address_needs_peer `{IpNetwork, HashOrder} ts tm peer l :
  Forall (λ a, ends_with_p2p a = false) l →
  add_known_address ts tm peer l = add_known_address ts tm peer [].
Proof.
  intros Hl. unfold add_known_address. rewrite !known_addresses_set.
  assert (omap (known_address ts (listen_addresses tm) peer) l = []) as ->; [|done].
  induction Hl as [|a l Ha _ IH]; [done|]. simpl.
  destruct (known_address _ _ _ a) eqn:E; [|done].
  apply known_address_spec in E as (_ & (He & _)%supported_transport_spec & _). congruence.
Qed.

(** A dial the handle lets through is meaningful: when the manager processes the command
    in the state the handle saw and the limits leave capacity, the dial is not refused (the
    only possible error is a failing transport), and at least one address is dialed. *)
Theorem handle_dial_accepted `{HashOrder, Transports, CommandChannel} tm peer n :
  tm_wf tm → handle_dial tm peer = ([DialPeer peer], Ok tt) →
  on_dial_address (connection_limits tm) = Ok n → (1 ≤ n)%N →
  let '(tm', _, r) := dial tm peer in
  (r = Ok tt ∨ r = Err ErrTransport) ∧
  ∃ addrs, get_addresses (peer_addresses (context_of (peers tm) peer)) n = addrs ∧ addrs ≠ [] ∧
    peer_state (context_of (peers tm') peer) =
      Opening (list_to_set addrs) (next_connection_id tm)
              (dom (supported_transports_addresses addrs)).
Proof.
  intros Hwf Hh Hn Hpos. unfold handle_dial in Hh. unfold dial. rewrite Hn.
  destruct (decide (peer = local_peer_id tm)) as [|Hl]; [done|].
  change (entry tm peer) with (context_of (peers tm) peer).
  assert (peers tm !! peer = Some (context_of (peers tm) peer)) as Hc.
  { unfold context_of. by destruct (peers tm !! peer). }
  rewrite Hc in Hh. destruct (can_dial _) eqn:Hd; [done..|].
  destruct (store_is_empty _) eqn:He; [done|]. apply bool_decide_eq_false in He.
  destruct (get_addresses _ n) as [|a addrs] eqn:Hg.
  { exfalso. apply He. apply (f_equal length) in Hg. unfold get_addresses in Hg.
    unfold sorted_records in Hg.
    rewrite length_fmap, take_N_take, length_take, sort_by_key_length, length_fmap, map_order_length in Hg.
    cbn [length] in Hg. lia. }
  cbn [take_connection_id]. unfold dial_addresses. rewrite Hd.
  destruct (open_all _ _ _) as [es r] eqn:Ho. apply open_all_result in Ho.
  destruct r as [[]|]; simpl; rewrite context_of_insert, decide_True by done; simpl;
    (split; [exact Ho|]); exists (a :: addrs); by split_and!.
Qed.

(** ** Witnesses *)

Definition tcp_set : gset SupportedTransport := {[TransportTcp]}.

Definition sample_manager : TransportManager := tcp_manager (mkLimitsConfig None None).

Definition sample_channel : CommandChannel := {| try_send _ := Ok tt |}.

Lemma add_known_address_spec_witness :
  ∃ tm' n, @add_known_address sample_network canonical_order tcp_set sample_manager
             (sample_peer 1) [tcp_address (sample_peer 1); quic_address (sample_peer 1)] =
             Done (tm', n) ∧
           tm_wf tm' ∧ installed tm'.
Proof.
  destruct (@add_known_address_spec sample_network canonical_order tcp_set sample_manager
    (sample_peer 1) [tcp_address (sample_peer 1); quic_address (sample_peer 1)])
    as (tm' & n & H1 & H2 & H3 & _); [apply build_wf|apply build_wf|set_solver|].
  exists tm', n. split_and!; assumption.
Defined.

Lemma known_address_needs_peer_witness :
  @add_known_address sample_network canonical_order tcp_set sample_manager (sample_peer 1)
    [[Ip4 134744072; Tcp 30333]] =
  @add_known_address sample_network canonical_order tcp_set sample_manager (sample_peer 1) [].
Proof. apply known_address_needs_peer. by repeat constructor. Defined.

(** A manager that knows one address of a peer. *)
Definition knowing_manager : TransportManager :=
  put sample_manager (sample_peer 1) (mkPeerContext (Disconnected None)
    (mkAddressStore {[tcp_address (sample_peer 1) := mkAddressRecord 0 (tcp_address (sample_peer 1))]}
       MAX_ADDRESSES)).


Lemma knowing_manager_wf : tm_wf knowing_manager.
Proof.
  apply wf_step_addresses; [apply build_wf|]. split; simpl.
  - intros a r. rewrite lookup_singleton_Some. naive_solver.
  - intros a r. rewrite lookup_singleton_Some. intros [_ <-]. by vm_compute.
  - rewrite map_size_singleton. unfold MAX_ADDRESSES. lia.
  - unfold MAX_ADDRESSES. lia.
Qed.

Lemma handle_dial_accepted_witness :
  let r := (@dial canonical_order sample_transports knowing_manager (sample_peer 1)).2 in
  r = Ok tt ∨ r = Err ErrTransport.
Proof.
  pose proof (@handle_dial_accepted canonical_order sample_transports sample_channel
    knowing_manager (sample_peer 1) usize_max knowing_manager_wf eq_refl eq_refl) as Hd.
  destruct (@dial _ _ _ _) as [[tm es] r]. apply Hd. unfold usize_max. lia.
Defined.
