(* ===== verification/TransportContext.v ===== *)
(** * Polling of the transports

    [TransportContext] of [src/src/transport/manager/mod.rs]: the installed transports, polled
    round robin. What a transport answers when polled is a parameter of each poll. *)

From stdpp Require Import base tactics option list gmap.
From Stdlib Require Import Arith Lia.
From S2P Require Import Prelude Multiaddr PeerState.

Local Open Scope litep2p_scope.

(** [std::task::Poll<Option<T>>] *)
Inductive PollStream (A : Type) := Pending_ | ReadyNone | ReadySome (a : A).
Arguments Pending_ {A}.
Arguments ReadyNone {A}.
Arguments ReadySome {A} a.

(** [TransportContext]: an [IndexMap] is a list without duplicates. *)
Record TransportContext := mkTransportContext {
  index : nat;
  registered : list SupportedTransport;
}.

(** [TransportContext::new] *)
Definition TransportContext_new : TransportContext := mkTransportContext 0 [].

(** [TransportContext::register_transport] *)
Definition context_register (c : TransportContext) (t : SupportedTransport) :
    outcome TransportContext :=
  if decide (t ∈ registered c) then Panic
  else Done (mkTransportContext (index c) (registered c ++ [t])).

Section poll.
Context {Event : Type}.
Implicit Types (c : TransportContext) (poll : SupportedTransport → PollStream Event).

(** The loop of [poll_next], [n] iterations left. *)
Fixpoint poll_loop (ts : list SupportedTransport) poll (n i : nat) :
    outcome (nat * PollStream (SupportedTransport * Event)) :=
  match n with
  | 0 => Done (i, Pending_)
  | S n =>
      let current := i in
      let i := (current + 1) mod length ts in
      match ts !! current with
      | None => Panic
      | Some key =>
          match poll key with
          | Pending_ => poll_loop ts poll n i
          | ReadyNone => Done (i, ReadyNone)
          | ReadySome event => Done (i, ReadySome (key, event))
          end
      end
  end.

(** [<TransportContext as Stream>::poll_next] *)
Definition poll_next c poll : outcome (TransportContext * PollStream (SupportedTransport * Event)) :=
  if decide (registered c = []) then Done (c, ReadyNone)
  else
    run (i, r) <- poll_loop (registered c) poll (length (registered c)) (index c) ;;
    Done (mkTransportContext i (registered c), r).

(** A sequence of polls, each with its own answers; the events in order. *)
Fixpoint poll_run c (polls : list (SupportedTransport → PollStream Event)) :
    outcome (TransportContext * list (PollStream (SupportedTransport * Event))) :=
  match polls with
  | [] => Done (c, [])
  | poll :: polls =>
      run (c, r) <- poll_next c poll ;;
      run (c, rs) <- poll_run c polls ;;
      Done (c, r :: rs)
  end.

(** ** Invariant *)

Definition context_wf c : Prop :=
  NoDup (registered c) ∧ (registered c = [] ∧ index c = 0 ∨ index c < length (registered c)).

(** How far transport number [k] is from being polled. *)
Definition distance (len i k : nat) : nat := (k + len - i) mod len.

Lemma mod_small_shift x len : len ≤ x < 2 * len → x mod len = x - len.
Proof. intros ?. symmetry. apply (Nat.mod_unique _ _ 1); lia. Qed.

Lemma distance_cases len i k : i < len → k < len →
  distance len i k = if decide (i ≤ k) then k - i else k + len - i.
Proof.
  intros ? ?. unfold distance. case_decide; [|by apply Nat.mod_small; lia].
  rewrite mod_small_shift; lia.
Qed.

Lemma next_cases len i : i < len →
  (i + 1) mod len = if decide (i + 1 = len) then 0 else i + 1.
Proof.
  intros ?. case_decide as E; [rewrite E; apply Nat.Div0.mod_same|apply Nat.mod_small; lia].
Qed.

(** The next index is one step closer to [k], unless it was [k]'s turn. *)
Lemma distance_step len i k : i < len → k < len → i ≠ k →
  S (distance len ((i + 1) mod len) k) = distance len i k.
Proof.
  intros ? ? ?. rewrite next_cases by done.
  rewrite !distance_cases by (repeat case_decide; lia). repeat case_decide; lia.
Qed.

Lemma distance_lt len i k : i < len → distance len i k < len.
Proof. intros. unfold distance. apply Nat.mod_upper_bound. lia. Qed.

Lemma distance_self len i k : i < len → k < len → distance len i k = 0 → i = k.
Proof. intros ? ?. rewrite distance_cases by done. case_decide; lia. Qed.

Lemma distance_refl len k : k < len → distance len k k = 0.
Proof. intros ?. rewrite distance_cases by done. case_decide; lia. Qed.

Lemma poll_loop_index ts poll n : ∀ i, i < length ts →
  ∃ i' r, poll_loop ts poll n i = Done (i', r) ∧ i' < length ts.
Proof.
  induction n as [|n IH]; intros i Hi; simpl; [eauto|].
  assert ((i + 1) mod length ts < length ts) by (apply Nat.mod_upper_bound; lia).
  destruct (lookup_lt_is_Some_2 ts i Hi) as [key ->].
  destruct (poll key); [by apply IH|eauto..].
Qed.

Lemma poll_next_wf c poll : context_wf c →
  ∃ c' r, poll_next c poll = Done (c', r) ∧ context_wf c' ∧ registered c' = registered c.
Proof.
  intros [Hn Hi]. unfold poll_next. case_decide as He; [by eexists _, _|].
  destruct Hi as [[? ?]|Hi]; [done|].
  destruct (poll_loop_index (registered c) poll (length (registered c)) _ Hi)
    as (i' & r & -> & Hi'). eexists _, _. split_and!; [done| |done]. split; [done|by right].
Qed.

(** Transport [t], number [k], has an event: the poll delivers it, or the event of a
    transport whose turn is before. *)
Lemma poll_loop_ready ts poll k t ev n : ∀ i,
  (∀ t, poll t ≠ ReadyNone) → ts !! k = Some t → poll t = ReadySome ev → i < length ts →
  distance (length ts) i k < n →
  ∃ i' t' ev', poll_loop ts poll n i = Done (i', ReadySome (t', ev')) ∧ i' < length ts ∧
    ((t', ev') = (t, ev) ∨ distance (length ts) i' k < distance (length ts) i k).
Proof.
  induction n as [|n IH]; intros i Hnone Hk Hp Hi Hd; [lia|]. simpl.
  pose proof (lookup_lt_Some _ _ _ Hk) as Hlt.
  assert ((i + 1) mod length ts < length ts) by (apply Nat.mod_upper_bound; lia).
  destruct (lookup_lt_is_Some_2 ts i Hi) as [key Hkey]. rewrite Hkey.
  destruct (decide (i = k)) as [->|Hne].
  { simplify_eq. rewrite Hp. eauto 8. }
  pose proof (distance_step _ i k Hi Hlt Hne) as Hs. specialize (Hnone key) as Hn.
  destruct (poll key) as [| |ev']; [|done|].
  - destruct (IH ((i + 1) mod length ts) Hnone Hk Hp) as (i' & t' & ev' & -> & ? & [?|?]);
      [done|lia|..].
    + eauto 8.
    + eexists _, _, _. split_and!; [done..|]. right. lia.
  - eexists _, _, _. split_and!; [done..|]. right. lia.
Qed.

Lemma poll_next_ready c poll k t ev : context_wf c → (∀ t, poll t ≠ ReadyNone) →
  registered c !! k = Some t → poll t = ReadySome ev →
  ∃ c' t' ev', poll_next c poll = Done (c', ReadySome (t', ev')) ∧ context_wf c' ∧
    registered c' = registered c ∧
    ((t', ev') = (t, ev) ∨
     distance (length (registered c)) (index c') k < distance (length (registered c)) (index c) k).
Proof.
  intros [Hn Hi] Hnone Hk Hp. unfold poll_next.
  destruct Hi as [[He _]|Hi]; [by rewrite He in Hk|]. rewrite decide_False by (intros He; by rewrite He in Hk).
  destruct (poll_loop_ready (registered c) poll k t ev (length (registered c)) (index c)
    Hnone Hk Hp Hi) as (i' & t' & ev' & -> & Hi' & Hd); [by apply distance_lt|].
  eexists _, _, _. split_and!; [done| |done|done]. split; [done|by right].
Qed.
End poll.

(** ** Properties *)

(** Fairness of the round-robin poll: a transport that has an event at every one of
    [len] consecutive polls, [len] being the number of transports, gets one of its events
    delivered, whatever the other transports deliver; no poll panics. *)
Theorem poll_fair {Event} c t (polls : list (SupportedTransport → PollStream Event)) :
  context_wf c → t ∈ registered c → length polls = length (registered c) →
  (∀ poll, poll ∈ polls → (∀ t, poll t ≠ ReadyNone) ∧ ∃ ev, poll t = ReadySome ev) →
  ∃ c' rs, poll_run c polls = Done (c', rs) ∧ ∃ ev, ReadySome (t, ev) ∈ rs.
Proof.
  intros Hwf [k Hk]%list_elem_of_lookup Hlen Hpolls.
  assert (index c < length (registered c)) as Hi.
  { destruct Hwf as [_ [[He _]|Hi]]; [by rewrite He in Hk|done]. }
  assert (distance (length (registered c)) (index c) k < length polls) as Hd
    by (rewrite Hlen; by apply distance_lt).
  clear Hi Hlen. revert c Hwf Hk Hd. induction polls as [|poll polls IH]; intros c Hwf Hk Hd.
  { simpl in Hd. lia. }
  destruct (Hpolls poll) as [Hn [ev Hev]]; [by left|].
  destruct (poll_next_ready c poll k t ev Hwf Hn Hk Hev) as (c' & t' & ev' & E & Hwf' & Hr & Hor).
  cbn [poll_run]. rewrite E. cbn [outcome_bind]. destruct Hor as [[= -> ->]|Hlt].
  - assert (∃ c'' rs, poll_run c' polls = Done (c'', rs)) as (c'' & rs & ->).
    { clear -Hwf'. revert c' Hwf'. induction polls as [|p ps IH]; intros c Hwf; simpl; [eauto|].
      destruct (poll_next_wf c p Hwf) as (c' & r & -> & Hwf' & _). simpl.
      destruct (IH c' Hwf') as (c'' & rs & ->). simpl. eauto. }
    eexists _, _. split; [done|]. eexists. by left.
  - rewrite <- Hr in Hk, Hd, Hlt. cbn [length] in Hd.
    destruct (IH ltac:(intros; apply Hpolls; by right) c' Hwf' Hk) as (c'' & rs & -> & ev'' & Hin).
    + lia.
    + eexists _, _. split; [done|]. exists ev''. by right.
Qed.

Lemma poll_fair_witness :
  let c := mkTransportContext 0 [TransportTcp; TransportQuic] in
  let busy (_ : SupportedTransport) := ReadySome tt in
  ∃ c' rs, poll_run c [busy; busy] = Done (c', rs) ∧
           ∃ ev, ReadySome (TransportQuic, ev) ∈ rs.
Proof.
  intros c busy. apply (poll_fair c TransportQuic [busy; busy]).
  - split; [|right; simpl; lia]. by apply (bool_decide_unpack _).
  - set_solver.
  - done.
  - intros poll Hp. assert (poll = busy) as -> by set_solver. split; [done|by exists tt].
Defined.
