(* ===== verification/TransportManagerApi.v ===== *)
(** * Functional behaviour of the transport manager

    What a dial opens, when a closed connection is reported, and what (un)registering a
    protocol does. *)

From stdpp Require Import base tactics option list gmap strings.
From Stdlib Require Import ZArith NArith Lia Init.Byte.
From S2P Require Import Prelude Multiaddr AddressStore PeerState ConnectionLimits.
From S2P Require Import TransportManager TransportManagerFacts TransportManagerSafety.

Local Open Scope litep2p_scope.

(** ** Grouping addresses by transport *)

Definition addresses_of (t : SupportedTransport) (l : list Multiaddr) : list Multiaddr :=
  filter (λ a, address_transport a = t) l.

Lemma supported_transports_addresses_spec l t :
  supported_transports_addresses l !! t =
    if decide (addresses_of t l = []) then None else Some (addresses_of t l).
Proof.
  unfold supported_transports_addresses.
  induction l as [|a l IH] using rev_ind; [done|]. rewrite foldl_snoc.
  set (m := foldl _ _ l) in *. unfold addresses_of in *. rewrite filter_app, filter_cons.
  destruct (decide (address_transport a = t)) as [Ht|Ht].
  - rewrite Ht, lookup_insert_eq, IH, filter_nil.
    rewrite (decide_False (P := filter _ l ++ [a] = [])) by (by intros [_ ?]%app_eq_nil).
    by case_decide as He; [rewrite He|].
  - rewrite lookup_insert_ne by done. by rewrite filter_nil, app_nil_r.
Qed.

Lemma open_all_ok `{Transports} ts c l es :
  Forall (λ tl, tl.2 ≠ []) l → open_all ts c l = (es, Ok tt) →
  es = (λ tl, CallOpen tl.1 c tl.2) <$> filter (λ tl, tl.1 ∈ ts) l.
Proof.
  intros Hl. revert es. induction Hl as [|[t a] l Ha _ IH]; intros es; simpl; [naive_solver|].
  rewrite decide_False by done. rewrite filter_cons. simpl. case_decide; [|by apply IH].
  case_match; [|done]. destruct (open_all ts c l) as [es' r]. intros [= <- ->].
  by rewrite (IH es').
Qed.

(** The established connections of a peer. *)
Definition live_connections (tm : TransportManager) (p : PeerId) : list ConnectionRecord :=
  live (abs (peer_state (context_of (peers tm) p))).

(** Register a protocol, unregister it, and register it again. *)
Definition reregister (tm : TransportManager) (protocol : string) (fallbacks : list string)
    (inb : InboundProtocol) (fallbacks' : list string) (inb' : InboundProtocol) :
    outcome TransportManager :=
  run tm <- register_protocol tm protocol fallbacks inb ;;
  register_protocol (unregister_protocol tm protocol) protocol fallbacks' inb'.

(** ** Properties *)

(** C35. What a dial does when the peer can be dialed: it takes the next connection
    identifier, moves the peer to [Opening] over exactly the transports of its best
    addresses (no more of them than the limits allow), and, when no transport refuses, opens
    each installed transport once with all of that transport's addresses in order of score,
    and remembers the pending connection. *)
Theorem dial_opens `{HashOrder, Transports} tm peer n :
  peer ≠ local_peer_id tm → on_dial_address (connection_limits tm) = Ok n →
  let context := context_of (peers tm) peer in
  let addrs := get_addresses (peer_addresses context) n in
  can_dial (peer_state context) = StateDialOk → addrs ≠ [] →
  let c := next_connection_id tm in
  let '(tm', es, r) := dial tm peer in
  peer_state (context_of (peers tm') peer) =
    Opening (list_to_set addrs) c (dom (supported_transports_addresses addrs)) ∧
  next_connection_id tm' = usize_wrapping_add c 1 ∧
  (∀ t, t ∈ dom (supported_transports_addresses addrs) ↔ addresses_of t addrs ≠ []) ∧
  (r = Ok tt →
     pending_connections tm' = <[c := peer]> (pending_connections tm) ∧ NoDup es ∧
     ∀ e, e ∈ es ↔ ∃ t, t ∈ transports tm ∧ addresses_of t addrs ≠ [] ∧
                        e = CallOpen t c (addresses_of t addrs)).
Proof.
  intros Hp Hn context addrs Hd Hne c. unfold dial. rewrite Hn, decide_False by done.
  change (entry tm peer) with context. rewrite Hd. fold addrs.
  destruct addrs as [|a l] eqn:Ha; [done|]. rewrite <- Ha in *. clear Ha a l Hne.
  cbn [take_connection_id]. unfold dial_addresses. rewrite Hd.
  destruct (open_all _ _ _) as [es r] eqn:Ho.
  assert (∀ t l, (t, l) ∈ map_order (supported_transports_addresses addrs) ↔
                 addresses_of t addrs ≠ [] ∧ l = addresses_of t addrs) as Hm.
  { intros t l. rewrite map_order_elem, supported_transports_addresses_spec.
    case_decide; naive_solver. }
  assert (∀ t, t ∈ dom (supported_transports_addresses addrs) ↔ addresses_of t addrs ≠ []) as Hdom.
  { intros t. rewrite elem_of_dom, supported_transports_addresses_spec.
    case_decide; [|naive_solver]. split; [by intros [? ?]|done]. }
  destruct r as [[]|e]; simpl in *; rewrite context_of_insert, decide_True by done;
    split_and!; try done. intros _. apply open_all_ok in Ho.
  - split_and!; [done| |].
    + rewrite Ho. apply NoDup_fmap_2_strong.
      * intros [t1 l1] [t2 l2] _ _ [= -> ->]. done.
      * apply NoDup_filter, (NoDup_fmap_1 fst), map_order_keys_nodup.
    + intros e. rewrite Ho, list_elem_of_fmap. split.
      * intros ([t l] & -> & [? [? ->]%Hm]%list_elem_of_filter). eauto.
      * intros (t & ? & ? & ->). exists (t, addresses_of t addrs).
        split; [done|]. apply list_elem_of_filter. by rewrite Hm.
  - apply Forall_forall. intros [t l] [? ->]%Hm. done.
Qed.

(** A closed connection is reported to the user exactly when it was the peer's last live
    connection; a peer that keeps another connection stays connected. *)
Theorem closed_reported_iff_last tm peer c :
  let before := live_connections tm peer in
  let '(tm', ev) := tm_on_connection_closed tm peer c in
  live_connections tm' peer = remove_first c before ∧
  ev = (if decide (before ≠ [] ∧ remove_first c before = [])
        then Some (ConnectionClosed peer c) else None).
Proof.
  unfold live_connections, tm_on_connection_closed. change (entry _ peer) with (context_of (peers tm) peer).
  pose proof (spec_step_sound (peer_state (context_of (peers tm) peer)) (EvClosed c)) as Hs.
  simpl in Hs. destruct (on_connection_closed _ c) as [st b]. simpl in *.
  injection Hs as Ha Hb. rewrite context_of_insert, decide_True by done. simpl.
  split; [by rewrite Ha|]. rewrite Hb.
  case_decide; [by rewrite bool_decide_true|by rewrite bool_decide_false].
Qed.

(** A protocol cannot be registered again after it was unregistered:
    [unregister_protocol] releases the fallback names but not the name itself, and
    [register_protocol] panics on a name it still holds. *)
Theorem reregister_panics tm protocol fallbacks inb fallbacks' inb' :
  protocol ∉ fallbacks → reregister tm protocol fallbacks inb fallbacks' inb' = Panic.
Proof.
  intros Hf. unfold reregister. unfold register_protocol at 1.
  case_decide; [done|]. case_decide; [done|]. simpl.
  unfold unregister_protocol. simpl. rewrite lookup_insert_eq. simpl.
  unfold register_protocol. simpl. rewrite decide_True; [done|].
  assert (∀ l (s : gset string), protocol ∉ l → protocol ∈ s →
    protocol ∈ foldl (λ s f, s ∖ {[f]}) s l) as Hk.
  { induction l as [|f l IH]; intros s Hl Hs; simpl; [done|]. apply IH; set_solver. }
  apply Hk; set_solver.
Qed.

(** ** Witnesses *)

Definition known_manager : TransportManager :=
  put (tcp_manager (mkLimitsConfig None None)) (sample_peer 1)
    (mkPeerContext (Disconnected None)
       (mkAddressStore {[tcp_address (sample_peer 1) :=
                           mkAddressRecord 0 (tcp_address (sample_peer 1))]} MAX_ADDRESSES)).

Lemma dial_opens_witness :
  let '(tm', es, r) := @dial canonical_order sample_transports known_manager (sample_peer 1) in
  r = Ok tt → pending_connections tm' = {[0%N := sample_peer 1]}.
Proof.
  pose proof (@dial_opens canonical_order sample_transports known_manager (sample_peer 1) usize_max
    ltac:(by apply (bool_decide_unpack _)) eq_refl eq_refl) as Hd.
  destruct (@dial _ _ _ _) as [[tm' es] r]. intros Hr. apply Hd; [|exact Hr].
  unfold get_addresses. by vm_compute.
Defined.

Lemma reregister_panics_witness :
  is_done (register_protocol (tcp_manager (mkLimitsConfig None None)) "/notif/1" [] AcceptInbound)
    = true ∧
  reregister (tcp_manager (mkLimitsConfig None None)) "/notif/1" [] AcceptInbound []
    AcceptInbound = Panic.
Proof. split; [by vm_compute|]. apply reregister_panics. set_solver. Defined.
