(* ===== verification/BTreeMap.v ===== *)
(** * Ordered maps

    [std::collections::BTreeMap] with 256-bit keys, as the list of its entries in increasing
    order of the keys. *)

From stdpp Require Import base tactics option list gmap sorting.
From Stdlib Require Import NArith Lia.
From S2P Require Import Prelude.

Section btree.
Context {A : Type}.
Implicit Types (l : list (N * A)) (k : N) (v : A).

(** [BTreeMap::insert] *)
Fixpoint bt_insert k v l : list (N * A) :=
  match l with
  | [] => [(k, v)]
  | (k', v') :: l =>
      match N.compare k k' with
      | Lt => (k, v) :: (k', v') :: l
      | Eq => (k, v) :: l
      | Gt => (k', v') :: bt_insert k v l
      end
  end.

(** [BTreeMap::pop_first] *)
Definition bt_pop_first l : option ((N * A) * list (N * A)) :=
  match l with [] => None | x :: l => Some (x, l) end.

(** [BTreeMap::last_key_value] *)
Definition bt_last l : option (N * A) := last l.

(** [BTreeMap::pop_last] *)
Definition bt_pop_last l : list (N * A) := take (length l - 1) l.

Definition bt_lt (x y : N * A) : Prop := (x.1 < y.1)%N.
Definition bt_wf l : Prop := StronglySorted bt_lt l.

Lemma bt_insert_elem k v l x : bt_wf l →
  x ∈ bt_insert k v l ↔ x = (k, v) ∨ x.1 ≠ k ∧ x ∈ l.
Proof.
  induction 1 as [|[k' v'] l Hs IH Hx]; simpl; [set_solver|]. rewrite Forall_forall in Hx.
  assert (∀ y, y ∈ l → (k' < y.1)%N) as Hlt by (intros y Hy; apply (Hx y Hy)).
  destruct (N.compare_spec k k') as [->|Hk|Hk]; rewrite !elem_of_cons.
  - split; [|naive_solver]. intros [?|Hy]; [by left|]. right. split; [|by right].
    specialize (Hlt x Hy). lia.
  - split; [|naive_solver]. intros [?|[->|Hy]]; [by left|right..].
    + split; [simpl; lia|by left].
    + split; [|by right]. specialize (Hlt x Hy). lia.
  - rewrite IH. split; [|naive_solver]. intros [->|[?|?]]; [|naive_solver..].
    right. split; [simpl; lia|by left].
Qed.

Lemma bt_insert_wf k v l : bt_wf l → bt_wf (bt_insert k v l).
Proof.
  intros Hs. induction Hs as [|[k' v'] l Hs IH Hx]; simpl; [repeat constructor|].
  destruct (N.compare_spec k k') as [->|Hk|Hk]; constructor; try done.
  - by constructor.
  - constructor; [done|]. eapply Forall_impl; [exact Hx|]. unfold bt_lt. simpl. lia.
  - apply Forall_forall. intros x [->|[_ Hy]]%bt_insert_elem; [done| |done].
    rewrite Forall_forall in Hx. by apply Hx.
Qed.

Lemma bt_insert_length k v l : length (bt_insert k v l) ≤ S (length l).
Proof. induction l as [|[k' v'] l IH]; simpl; [done|]. destruct (N.compare _ _); simpl; lia. Qed.

Lemma bt_insert_length_fresh k v l : k ∉ l.*1 → length (bt_insert k v l) = S (length l).
Proof.
  induction l as [|[k' v'] l IH]; intros Hk; simpl; [done|].
  apply not_elem_of_cons in Hk as [Hne Hk]. simpl in Hne.
  destruct (N.compare_spec k k'); [done|done|]. simpl. by rewrite IH.
Qed.

Lemma bt_insert_length_ge k v l : length l ≤ length (bt_insert k v l).
Proof. induction l as [|[k' v'] l IH]; simpl; [lia|]. destruct (N.compare _ _); simpl; lia. Qed.

Lemma bt_insert_not_nil k v l : bt_insert k v l ≠ [].
Proof. destruct l as [|[k' v'] l]; simpl; [done|]. by destruct (N.compare _ _). Qed.

Lemma bt_pop_last_wf l : bt_wf l → bt_wf (bt_pop_last l).
Proof. apply StronglySorted_take. Qed.

Lemma bt_insert_all_wf (f : A → N) vs l : bt_wf l →
  bt_wf (foldl (λ m v, bt_insert (f v) v m) l vs).
Proof. revert l. induction vs as [|v vs IH]; intros l Hl; simpl; [done|]. apply IH, bt_insert_wf, Hl. Qed.

Lemma bt_insert_all_elem (f : A → N) vs l x : bt_wf l →
  x ∈ foldl (λ m v, bt_insert (f v) v m) l vs → x ∈ l ∨ (∃ v, v ∈ vs ∧ x = (f v, v)).
Proof.
  revert l. induction vs as [|v vs IH]; intros l Hl Hx; simpl in *; [by left|].
  apply IH in Hx as [Hx|(w & ? & ?)]; [|set_solver|by apply bt_insert_wf].
  apply bt_insert_elem in Hx as [->|[_ ?]]; [|by left|done]. right. set_solver.
Qed.
End btree.
