(* ===== verification/KademliaTypes.v ===== *)
(** * Kademlia keys and peers

    [src/src/protocol/libp2p/kademlia/types.rs]: keys of the DHT with the XOR metric, connection
    types and the peers of the routing table. A key is the 256-bit number its 32 bytes spell
    in big-endian order; SHA-256 is a parameter. *)

From stdpp Require Import base tactics option list gmap strings.
From Stdlib Require Import ZArith NArith Lia Init.Byte.
From S2P Require Import Prelude Multiaddr AddressStore.

Local Open Scope litep2p_scope.

(** [sha2::Sha256::digest], read as a 256-bit number. *)
Class Sha256 : Type := {
  sha256 : list byte → N;
  sha256_bound bs : (sha256 bs < 2 ^ 256)%N;
}.

(** ** Keys *)

(** [Key<T>]: equality is on the bytes only. *)
Record Key (T : Type) := mkKey { preimage : T; key_bytes : N }.
Arguments mkKey {T} _ _.
Arguments preimage {T} _.
Arguments key_bytes {T} _.

Definition key_eq {T U} (a : Key T) (b : Key U) : bool := (key_bytes a =? key_bytes b)%N.

(** [Key::new] *)
Definition Key_new `{Sha256} (bs : list byte) : Key (list byte) := mkKey bs (sha256 bs).

(** [impl From<PeerId> for Key<PeerId>] *)
Definition key_of_peer `{Sha256, MultihashLib} (p : PeerId) : Key PeerId :=
  mkKey p (sha256 (PeerId_to_bytes p)).

(** [KeyBytes::distance] *)
Definition key_distance {T U} (a : Key T) (b : Key U) : N := N.lxor (key_bytes a) (key_bytes b).

(** [U256::leading_zeros] *)
Definition leading_zeros (d : N) : N := (256 - N.size d)%N.

(** [Distance::ilog2] *)
Definition ilog2 (d : N) : option N :=
  let bits := (256 - leading_zeros d)%N in
  if (bits =? 0)%N then None else Some (bits - 1)%N.

(** ** Connection types *)

Inductive ConnectionType := NotConnected | PeerConnected | CanConnect | CannotConnect.

#[export] Instance ConnectionType_eq_dec : EqDecision ConnectionType.
Proof. solve_decision. Defined.

(** [impl TryFrom<i32> for ConnectionType] *)
Definition connection_of_i32 (z : Z) : option ConnectionType :=
  match z with
  | 0 => Some NotConnected
  | 1 => Some PeerConnected
  | 2 => Some CanConnect
  | 3 => Some CannotConnect
  | _ => None
  end%Z.

(** [impl From<ConnectionType> for i32] *)
Definition connection_to_i32 (c : ConnectionType) : Z :=
  match c with NotConnected => 0 | PeerConnected => 1 | CanConnect => 2 | CannotConnect => 3 end%Z.

(** ** Peers *)

Definition KAD_MAX_ADDRESSES : N := 32.

Record KademliaPeer := mkKademliaPeer {
  kad_key : Key PeerId;
  kad_peer : PeerId;
  address_store : AddressStore;
  connection : ConnectionType;
}.

Section kademlia_peer.
Context `{IpNetwork, HashOrder, Sha256, MultihashLib}.

(** [KademliaPeer::push_addresses] on the store *)
Definition push_all (st : AddressStore) (l : list Multiaddr) : outcome AddressStore :=
  extend st (from_raw_multiaddr <$> l).

(** [KademliaPeer::new] *)
Definition KademliaPeer_new (p : PeerId) (l : list Multiaddr) (c : ConnectionType) :
    outcome KademliaPeer :=
  run st <- push_all AddressStore_new l ;;
  Done (mkKademliaPeer (key_of_peer p) p st c).

(** [KademliaPeer::push_addresses] *)
Definition push_addresses (k : KademliaPeer) (l : list Multiaddr) : outcome KademliaPeer :=
  run st <- push_all (address_store k) l ;;
  Done (mkKademliaPeer (kad_key k) (kad_peer k) st (connection k)).

(** [KademliaPeer::addresses] *)
Definition kad_addresses (k : KademliaPeer) : list Multiaddr :=
  get_addresses (address_store k) KAD_MAX_ADDRESSES.

(** [KademliaPeer::retain_global_addresses] *)
Definition retain_global_addresses (k : KademliaPeer) : KademliaPeer :=
  mkKademliaPeer (kad_key k) (kad_peer k) (retain (address_store k) is_global_multiaddr)
    (connection k).
End kademlia_peer.

(** ** The protobuf form of a peer *)

(** [schema::kademlia::Peer], the generated message. *)
Record SchemaPeer := mkSchemaPeer {
  schema_id : list byte;
  schema_addrs : list (list byte);
  schema_connection : Z;
}.

(** The binary form of multiaddresses, from the [multiaddr] crate: [Multiaddr::to_vec] and
    [Multiaddr::try_from]. *)
Class MultiaddrBytes : Type := {
  multiaddr_to_vec : Multiaddr → list byte;
  multiaddr_of_vec : list byte → option Multiaddr;
}.

Class MultiaddrBytesLaws (L : MultiaddrBytes) : Prop := {
  multiaddr_of_to_vec a : multiaddr_of_vec (multiaddr_to_vec a) = Some a;
}.

Section schema_peer.
Context `{IpNetwork, HashOrder, Sha256, MultihashLib, MultiaddrBytes}.

(** [impl TryFrom<&schema::kademlia::Peer> for KademliaPeer] *)
Definition peer_of_schema (s : SchemaPeer) : outcome (option KademliaPeer) :=
  match PeerId_from_bytes (schema_id s) with
  | Err _ => Done None
  | Ok p =>
      run st <- push_all AddressStore_new (omap multiaddr_of_vec (schema_addrs s)) ;;
      match connection_of_i32 (schema_connection s) with
      | None => Done None
      | Some c => Done (Some (mkKademliaPeer (key_of_peer p) p st c))
      end
  end.

(** [impl From<&KademliaPeer> for schema::kademlia::Peer] *)
Definition peer_to_schema (k : KademliaPeer) : SchemaPeer :=
  mkSchemaPeer (PeerId_to_bytes (kad_peer k)) (multiaddr_to_vec <$> kad_addresses k)
    (connection_to_i32 (connection k)).
End schema_peer.

(** ** Lemmas *)

Lemma lxor_lt_pow2 a b n : (a < 2 ^ n → b < 2 ^ n → N.lxor a b < 2 ^ n)%N.
Proof.
  intros Ha Hb. destruct (N.eq_dec (N.lxor a b) 0) as [->|Hne].
  { apply N.neq_0_lt_0, N.pow_nonzero. lia. }
  apply N.log2_lt_pow2; [lia|].
  destruct (N.eq_dec a 0) as [->|Ha0]; [rewrite N.lxor_0_l in *; apply N.log2_lt_pow2; lia|].
  destruct (N.eq_dec b 0) as [->|Hb0]; [rewrite N.lxor_0_r in *; apply N.log2_lt_pow2; lia|].
  pose proof (N.log2_lxor a b).
  assert (N.log2 a < n)%N by (apply N.log2_lt_pow2; lia).
  assert (N.log2 b < n)%N by (apply N.log2_lt_pow2; lia). lia.
Qed.

Lemma ilog2_spec d : (d < 2 ^ 256)%N → ilog2 d = if (d =? 0)%N then None else Some (N.log2 d).
Proof.
  intros Hd. unfold ilog2, leading_zeros. destruct (N.eqb_spec d 0) as [->|Hne]; [done|].
  rewrite N.size_log2 by done.
  assert (N.log2 d < 256)%N by (apply N.log2_lt_pow2; lia).
  destruct (N.eqb_spec (256 - (256 - N.succ (N.log2 d))) 0); [lia|]. f_equal. lia.
Qed.

(** The larger number has a one where they first differ. *)
Lemma testbit_lt a b k :
  N.testbit a k = false → N.testbit b k = true →
  (∀ m, (k < m)%N → N.testbit a m = N.testbit b m) → (a < b)%N.
Proof.
  intros Ha Hb Hm. set (c := N.shiftr a (N.succ k)).
  assert (N.shiftr b (N.succ k) = c) as Hc.
  { apply N.bits_inj. intros i. unfold c. rewrite !N.shiftr_spec by lia. symmetry. apply Hm. lia. }
  assert (∀ x, x = N.shiftr x (N.succ k) * 2 ^ N.succ k + N.land x (N.ones (N.succ k)))%N as Hx.
  { intros x. rewrite N.land_ones, N.shiftr_div_pow2.
    rewrite N.mul_comm. apply N.div_mod, N.pow_nonzero. lia. }
  assert (N.land a (N.ones (N.succ k)) < 2 ^ k)%N as Hl.
  { destruct (N.eq_dec (N.land a (N.ones (N.succ k))) 0) as [->|Hne].
    { apply N.neq_0_lt_0, N.pow_nonzero. lia. }
    apply N.log2_lt_pow2; [lia|]. apply N.lt_nge. intros Hge.
    pose proof (N.bit_log2 _ Hne) as Hbit. rewrite N.land_spec in Hbit.
    apply andb_true_iff in Hbit as [Hba Hones].
    destruct (N.lt_ge_cases (N.log2 (N.land a (N.ones (N.succ k)))) (N.succ k)) as [Hlt|Hge'].
    - assert (N.log2 (N.land a (N.ones (N.succ k))) = k) as Heq by lia. congruence.
    - by rewrite N.ones_spec_high in Hones by done. }
  assert (2 ^ k ≤ N.land b (N.ones (N.succ k)))%N as Hr.
  { assert (N.testbit (N.land b (N.ones (N.succ k))) k = true) as Ht.
    { rewrite N.land_spec, Hb, N.ones_spec_low by lia. done. }
    apply N.le_ngt. intros Hlt. destruct (N.eq_dec (N.land b (N.ones (N.succ k))) 0) as [E|Hne].
    { by rewrite E, N.bits_0 in Ht. }
    apply N.log2_lt_pow2 in Hlt; [|lia]. by rewrite N.bits_above_log2 in Ht. }
  rewrite (Hx a), (Hx b), Hc. unfold c. lia.
Qed.

Section kademlia_peer_facts.
Context `{IpNetwork, HashOrder, Sha256, MultihashLib}.

Lemma raw_scores l : Forall (λ r, i32 (score r)) (from_raw_multiaddr <$> l).
Proof. apply Forall_fmap, Forall_true. intros a. by vm_compute. Qed.

Lemma push_all_total st l : store_wf st →
  ∃ st', push_all st l = Done st' ∧ store_wf st' ∧ max_capacity st' = max_capacity st.
Proof. intros Hwf. apply extend_wf; [done|apply raw_scores]. Qed.

Lemma key_of_peer_bound p : (key_bytes (key_of_peer p) < 2 ^ 256)%N.
Proof. apply sha256_bound. Qed.

Lemma KademliaPeer_new_total p l c :
  ∃ k, KademliaPeer_new p l c = Done k ∧ kad_key k = key_of_peer p ∧ kad_peer k = p ∧
       connection k = c ∧ store_wf (address_store k).
Proof.
  unfold KademliaPeer_new. destruct (push_all_total _ l AddressStore_new_wf) as (st & -> & ? & _).
  by eexists.
Qed.
End kademlia_peer_facts.

(** A toy hash for concrete runs: one byte hashes to zero, longer strings to far away keys
    that differ in their length. *)
Definition toy_digest (bs : list byte) : N :=
  match bs with
  | [] | [_] => 0
  | _ => 2 ^ 255 + N.of_nat (length bs) mod 2 ^ 255
  end.

Program Definition toy_sha256 : Sha256 := {| sha256 := toy_digest |}.
Next Obligation.
  intros bs. unfold toy_digest. destruct bs as [|b [|b' bs]]; try lia.
  pose proof (N.mod_lt (N.of_nat (length (b :: b' :: bs))) (2 ^ 255) ltac:(done)). lia.
Qed.
