(* ===== verification/KBucket.v ===== *)
(** * Kademlia k-buckets

    [src/src/protocol/libp2p/kademlia/bucket.rs]. An entry is a mutable reference into the bucket:
    the model returns the position it points to. [PeerId::random] is an argument. *)

From stdpp Require Import base tactics option list gmap strings.
From Stdlib Require Import ZArith NArith Lia Init.Byte.
From S2P Require Import Prelude Multiaddr AddressStore KademliaTypes.

Local Open Scope litep2p_scope.

Inductive KBucketEntry := LocalNode | Occupied (i : nat) | Vacant (i : nat) | NoSlot.

Notation KBucket := (list KademliaPeer).

Definition BUCKET_SIZE : nat := 20.

(** A node that may be replaced when the bucket is full. *)
Definition replaceable (n : KademliaPeer) : bool :=
  match connection n with NotConnected | CannotConnect => true | _ => false end.

Section bucket.
Context `{IpNetwork, HashOrder, Sha256, MultihashLib}.

(** [KBucket::entry] *)
Definition bucket_entry (random : PeerId) (nodes : KBucket) (key : Key PeerId) :
    outcome (KBucket * KBucketEntry) :=
  match list_find (λ n, key_eq (kad_key n) key = true) nodes with
  | Some (i, _) => Done (nodes, Occupied i)
  | None =>
      if decide (length nodes < BUCKET_SIZE) then
        run n <- KademliaPeer_new random [] NotConnected ;;
        Done (nodes ++ [n], Vacant (length nodes))
      else
        match list_find (λ n, replaceable n = true) nodes with
        | Some (i, _) => Done (nodes, Vacant i)
        | None => Done (nodes, NoSlot)
        end
  end.

(** [KBucketEntry::insert] *)
Definition entry_insert (nodes : KBucket) (e : KBucketEntry) (new : KademliaPeer) : KBucket :=
  match e with
  | Vacant i =>
      <[i := mkKademliaPeer (key_of_peer (kad_peer new)) (kad_peer new) (address_store new)
               (connection new)]> nodes
  | _ => nodes
  end.

(** [KBucket::closest_iter] *)
Definition closest_iter {T} (nodes : KBucket) (target : Key T) : list KademliaPeer :=
  filter (λ n, store_is_empty (address_store n) = false)
    (sort_by_key (λ n, Z.of_N (key_distance target (kad_key n))) nodes).
End bucket.

(** ** Invariant *)

Definition has_addresses (n : KademliaPeer) : Prop := store_is_empty (address_store n) = false.

#[export] Instance has_addresses_dec n : Decision (has_addresses n).
Proof. unfold has_addresses. apply _. Defined.

Lemma AddressStore_new_empty : store_is_empty AddressStore_new = true.
Proof. done. Qed.

(** A node is consistent: its key is its peer's, its address store well formed. *)
Definition node_wf `{Sha256, MultihashLib} (n : KademliaPeer) : Prop :=
  kad_key n = key_of_peer (kad_peer n) ∧ store_wf (address_store n).

(** The nodes that have addresses are where they belong, [idx] being the bucket's index in
    the table of [local], and no two of them have the same key. (Nodes without addresses
    are placeholders pushed by lookups; they may be anywhere.) *)
Record bucket_wf `{Sha256, MultihashLib} (local : N) (idx : nat) (nodes : KBucket) : Prop := {
  bucket_size : length nodes ≤ BUCKET_SIZE;
  bucket_nodes i n : nodes !! i = Some n → node_wf n;
  bucket_placed i n : nodes !! i = Some n → has_addresses n →
    ilog2 (N.lxor local (key_bytes (kad_key n))) = Some (N.of_nat idx);
  bucket_unique i j n m : nodes !! i = Some n → nodes !! j = Some m → i < j →
    key_bytes (kad_key n) = key_bytes (kad_key m) → ¬ has_addresses m;
}.

Section bucket_facts.
Context `{IpNetwork, HashOrder, Sha256, MultihashLib}.
Implicit Types (nodes : KBucket) (n : KademliaPeer) (key : Key PeerId).

Lemma key_eq_true {T U} (a : Key T) (b : Key U) : key_eq a b = true ↔ key_bytes a = key_bytes b.
Proof. apply N.eqb_eq. Qed.

Lemma bucket_empty_wf local idx : bucket_wf local idx [].
Proof. split; simpl; try done. unfold BUCKET_SIZE. lia. Qed.

(** What [entry] returns. *)
Inductive entry_post random nodes key : KBucket → KBucketEntry → Prop :=
| entry_occupied i n :
    nodes !! i = Some n → key_bytes (kad_key n) = key_bytes key →
    (∀ j m, nodes !! j = Some m → j < i → key_bytes (kad_key m) ≠ key_bytes key) →
    entry_post random nodes key nodes (Occupied i)
| entry_pushed n :
    (∀ m, m ∈ nodes → key_bytes (kad_key m) ≠ key_bytes key) →
    length nodes < BUCKET_SIZE → node_wf n → kad_peer n = random → connection n = NotConnected →
    ¬ has_addresses n →
    entry_post random nodes key (nodes ++ [n]) (Vacant (length nodes))
| entry_replaced i n :
    (∀ m, m ∈ nodes → key_bytes (kad_key m) ≠ key_bytes key) →
    BUCKET_SIZE ≤ length nodes → nodes !! i = Some n → replaceable n = true →
    entry_post random nodes key nodes (Vacant i)
| entry_no_slot :
    (∀ m, m ∈ nodes → key_bytes (kad_key m) ≠ key_bytes key) →
    BUCKET_SIZE ≤ length nodes → (∀ m, m ∈ nodes → replaceable m = false) →
    entry_post random nodes key nodes NoSlot.

Lemma bucket_entry_spec random nodes key :
  ∃ nodes' e, bucket_entry random nodes key = Done (nodes', e) ∧
              entry_post random nodes key nodes' e.
Proof.
  unfold bucket_entry. destruct (list_find _ nodes) as [[i n]|] eqn:Hf.
  - apply list_find_Some in Hf as (Hi & Hk%key_eq_true & Hj). eexists _, _. split; [done|].
    econstructor; [done..|]. intros j m Hm Hlt Heq. by apply (Hj j m Hm), key_eq_true.
  - apply list_find_None in Hf. rewrite Forall_forall in Hf.
    assert (∀ m, m ∈ nodes → key_bytes (kad_key m) ≠ key_bytes key) as Hk.
    { intros m Hm Heq. by apply (Hf m Hm), key_eq_true. }
    case_decide as Hl.
    + destruct (KademliaPeer_new_total random [] NotConnected) as (n & Hn & ? & ? & ? & ?).
      rewrite Hn. simpl. eexists _, _. split; [done|].
      unfold KademliaPeer_new, push_all in Hn. simpl in Hn. injection Hn as <-.
      by constructor.
    + destruct (list_find _ nodes) as [[i n]|] eqn:Hr.
      * apply list_find_Some in Hr as (Hi & ? & _). eexists _, _. split; [done|].
        econstructor; eauto with lia.
      * apply list_find_None in Hr. rewrite Forall_forall in Hr. eexists _, _. split; [done|].
        constructor; [done|lia|]. intros m Hm. apply not_true_is_false. by apply Hr.
Qed.

Lemma bucket_entry_wf random nodes key local idx nodes' e :
  bucket_wf local idx nodes → entry_post random nodes key nodes' e → bucket_wf local idx nodes'.
Proof.
  intros Hwf [i n|n Hk Hl Hn Hp Hc Ha|i n|]; try done. destruct Hwf as [Hs Hns Hpl Hu].
  assert (∀ i m, (nodes ++ [n]) !! i = Some m → nodes !! i = Some m ∨ m = n) as Hcase.
  { intros i m Hm. apply lookup_app_Some in Hm as [?|[_ Hm]]; [by left|].
    apply list_lookup_singleton_Some in Hm. naive_solver. }
  split.
  - rewrite length_app. simpl. lia.
  - intros i m [?| ->]%Hcase; eauto.
  - intros i m [?| ->]%Hcase Hm; [eauto|done].
  - intros i j m m' Hi Hj Hlt Heq. apply Hcase in Hj as [Hj| ->]; [|done].
    rewrite lookup_app_l in Hi; [exact (Hu _ _ _ _ Hi Hj Hlt Heq)|]. apply lookup_lt_Some in Hj. lia.
Qed.

(** Replace node [i] by one with a key no other node has, or with the same key. *)
Lemma bucket_replace_wf local idx nodes i old new :
  bucket_wf local idx nodes → nodes !! i = Some old → node_wf new →
  (has_addresses new → ilog2 (N.lxor local (key_bytes (kad_key new))) = Some (N.of_nat idx)) →
  (∀ j m, nodes !! j = Some m → j < i → key_bytes (kad_key m) ≠ key_bytes (kad_key new)) →
  (∀ j m, nodes !! j = Some m → i < j → key_bytes (kad_key m) = key_bytes (kad_key new) →
     ¬ has_addresses m) →
  bucket_wf local idx (<[i := new]> nodes).
Proof.
  intros [Hs Hns Hpl Hu] Hi Hn Hp Hbefore Hafter.
  assert (∀ j m, <[i := new]> nodes !! j = Some m → j = i ∧ m = new ∨ j ≠ i ∧ nodes !! j = Some m)
    as Hcase.
  { intros j m Hj. destruct (decide (j = i)) as [->|Hne].
    - rewrite list_lookup_insert_eq in Hj by (by eapply lookup_lt_Some). naive_solver.
    - rewrite list_lookup_insert_ne in Hj by done. by right. }
  split.
  - by rewrite length_insert.
  - intros j m [[-> ->]|[_ ?]]%Hcase; eauto.
  - intros j m [[-> ->]|[_ ?]]%Hcase; eauto.
  - intros j k m m' Hj Hk Hlt Heq.
    apply Hcase in Hj as [[-> ->]|[Hnj Hj]]; apply Hcase in Hk as [[-> ->]|[Hnk Hk]]; [lia|..].
    + by eapply Hafter.
    + by destruct (Hbefore j m Hj Hlt).
    + exact (Hu _ _ _ _ Hj Hk Hlt Heq).
Qed.
End bucket_facts.
