(* ===== verification/RoutingTable.v ===== *)
(** * Kademlia routing table

    [src/src/protocol/libp2p/kademlia/routing_table.rs]: 256 k-buckets around the local key, and the
    iterator over the buckets in order of distance from a target. *)

From stdpp Require Import base tactics option list gmap strings.
From Stdlib Require Import ZArith NArith Lia Init.Byte Sorting.Sorted.
From S2P Require Import Prelude Multiaddr AddressStore PeerState KademliaTypes KBucket.

Local Open Scope litep2p_scope.

Definition NUM_BUCKETS : nat := 256.

Record RoutingTable := mkRoutingTable {
  local_key : Key PeerId;
  buckets : list KBucket;
}.

(** [RoutingTable::new] *)
Definition RoutingTable_new (local : Key PeerId) : RoutingTable :=
  mkRoutingTable local (replicate NUM_BUCKETS []).

(** [BucketIndex::new] *)
Definition BucketIndex_new (d : N) : option nat := N.to_nat <$> ilog2 d.

(** [self.buckets[index]], and the bucket after a mutation through a reference into it. *)
Definition bucket_at (t : RoutingTable) (b : nat) : KBucket := default [] (buckets t !! b).
Definition set_bucket (t : RoutingTable) (b : nat) (nodes : KBucket) : RoutingTable :=
  mkRoutingTable (local_key t) (<[b := nodes]> (buckets t)).

Section table.
Context `{IpNetwork, HashOrder, Sha256, MultihashLib}.

(** [RoutingTable::entry]: the bucket and the entry in it. *)
Definition table_entry (random : PeerId) (t : RoutingTable) (key : Key PeerId) :
    outcome (RoutingTable * nat * KBucketEntry) :=
  match BucketIndex_new (key_distance (local_key t) key) with
  | None => Done (t, 0, LocalNode)
  | Some b =>
      match buckets t !! b with
      | None => Panic
      | Some nodes =>
          run (nodes, e) <- bucket_entry random nodes key ;;
          Done (set_bucket t b nodes, b, e)
      end
  end.

(** Mutate the node an occupied entry refers to. *)
Definition update_node (t : RoutingTable) (b i : nat)
    (f : KademliaPeer → outcome KademliaPeer) : outcome RoutingTable :=
  match bucket_at t b !! i with
  | None => Done t
  | Some n => run n <- f n ;; Done (set_bucket t b (<[i := n]> (bucket_at t b)))
  end.

Definition with_store (n : KademliaPeer) (st : AddressStore) (c : ConnectionType) : KademliaPeer :=
  mkKademliaPeer (kad_key n) (kad_peer n) st c.

(** [RoutingTable::on_dial_failure] *)
Definition table_on_dial_failure (random : PeerId) (t : RoutingTable) (key : Key PeerId)
    (l : list Multiaddr) : outcome RoutingTable :=
  run (t, b, e) <- table_entry random t key ;;
  match e with
  | Occupied i =>
      update_node t b i (λ n,
        run st <- extend (address_store n)
                    ((λ a, from_raw_multiaddr_with_score a scores.CONNECTION_FAILURE) <$> l) ;;
        Done (with_store n st (connection n)))
  | _ => Done t
  end.

(** [RoutingTable::on_connection_established] *)
Definition table_on_connection_established (random : PeerId) (t : RoutingTable)
    (key : Key PeerId) (endpoint : Endpoint) : outcome RoutingTable :=
  run (t, b, e) <- table_entry random t key ;;
  match e with
  | Occupied i =>
      update_node t b i (λ n,
        match endpoint with
        | Dialer a _ =>
            run st <- insert (address_store n)
                        (from_raw_multiaddr_with_score a scores.CONNECTION_ESTABLISHED) ;;
            Done (with_store n st PeerConnected)
        | Listener _ _ => Done (with_store n (address_store n) PeerConnected)
        end)
  | _ => Done t
  end.

(** [Kademlia::disconnect_peer] on the table: the peer's entry, if any, is not connected. *)
Definition table_on_disconnected (random : PeerId) (t : RoutingTable) (key : Key PeerId) :
    outcome RoutingTable :=
  run (t, b, e) <- table_entry random t key ;;
  match e with
  | Occupied i => update_node t b i (λ n, Done (with_store n (address_store n) NotConnected))
  | _ => Done t
  end.

(** The addresses [add_known_peer] stores: with the peer appended where none is named. *)
Definition with_peer (p : PeerId) (a : Multiaddr) : Multiaddr :=
  if ends_with_p2p a then a else with_protocol a (P2p (multihash p)).

(** [RoutingTable::add_known_peer] *)
Definition add_known_peer (random : PeerId) (t : RoutingTable) (p : PeerId)
    (l : list Multiaddr) (c : ConnectionType) : outcome RoutingTable :=
  let l := with_peer p <$> l in
  match l with
  | [] => Done t
  | _ =>
      run (t, b, e) <- table_entry random t (key_of_peer p) ;;
      match e with
      | Occupied i =>
          update_node t b i (λ n,
            run n <- push_addresses n l ;;
            Done (with_store n (address_store n) c))
      | Vacant _ =>
          run n <- KademliaPeer_new p l c ;;
          Done (set_bucket t b (entry_insert (bucket_at t b) e n))
      | LocalNode | NoSlot => Done t
      end
  end.
End table.

(** ** The buckets in order of distance *)

Inductive ClosestBucketsIterState := Start (i : nat) | ZoomIn (i : nat) | ZoomOut (i : nat) | IterDone.

(** [ClosestBucketsIter::new] *)
Definition ClosestBucketsIter_new (d : N) : ClosestBucketsIterState :=
  match BucketIndex_new d with Some i => Start i | None => Start 0 end.

Definition bit (d : N) (i : nat) : bool := N.testbit d (N.of_nat i).

(** [ClosestBucketsIter::next_in] *)
Definition next_in (d : N) (i : nat) : option nat :=
  find (bit d) (rev (seq 0 i)).

(** [ClosestBucketsIter::next_out] *)
Definition next_out (d : N) (i : nat) : option nat :=
  find (λ j, negb (bit d j)) (seq (i + 1) (NUM_BUCKETS - (i + 1))).

(** [<ClosestBucketsIter as Iterator>::next] *)
Definition iter_next (d : N) (s : ClosestBucketsIterState) :
    ClosestBucketsIterState * option nat :=
  match s with
  | Start i => (ZoomIn i, Some i)
  | ZoomIn i =>
      match next_in d i with
      | Some i => (ZoomIn i, Some i)
      | None => (ZoomOut 0, Some 0)
      end
  | ZoomOut i =>
      match next_out d i with
      | Some i => (ZoomOut i, Some i)
      | None => (IterDone, None)
      end
  | IterDone => (IterDone, None)
  end.

(** Run the iterator to its end. *)
Fixpoint iter_collect (fuel : nat) (d : N) (s : ClosestBucketsIterState) : option (list nat) :=
  match fuel with
  | 0 => None
  | S fuel =>
      match iter_next d s with
      | (_, None) => Some []
      | (s, Some i) => (i ::.) <$> iter_collect fuel d s
      end
  end.

(** Enough for a [Start], 255 [ZoomIn]s, the turn at bucket 0, 255 [ZoomOut]s and the end. *)
Definition ITER_FUEL : nat := 514.

Definition closest_buckets (d : N) : list nat :=
  default [] (iter_collect ITER_FUEL d (ClosestBucketsIter_new d)).

(** [RoutingTable::closest] *)
Definition closest {T} (t : RoutingTable) (target : Key T) (limit : N) : list KademliaPeer :=
  take_N limit
    (mjoin ((λ b, closest_iter (bucket_at t b) target) <$>
              closest_buckets (key_distance (local_key t) target))).

(** ** Order of the buckets *)

(** The set bits below [i], downwards; the clear bits above [i], upwards. *)
Definition set_below (d : N) (i : nat) : list nat :=
  filter (λ j, bit d j = true) (rev (seq 0 i)).
Definition clear_above (d : N) (i : nat) : list nat :=
  filter (λ j, negb (bit d j) = true) (seq (i + 1) (NUM_BUCKETS - (i + 1))).

Lemma find_filter (P : nat → bool) l :
  match find P l with
  | Some x => ∃ l1 l2, l = l1 ++ x :: l2 ∧ P x = true ∧ filter (λ y, P y = true) l1 = []
  | None => filter (λ y, P y = true) l = []
  end.
Proof.
  induction l as [|x l IH]; simpl; [done|]. destruct (P x) eqn:Hx.
  - by exists [], l.
  - destruct (find P l) as [y|].
    + destruct IH as (l1 & l2 & -> & ? & Hl1). exists (x :: l1), l2. split_and!; [done..|].
      rewrite filter_cons_False; [done|congruence].
    + rewrite filter_cons_False; [done|congruence].
Qed.

Lemma next_in_spec d i : set_below d i =
  match next_in d i with Some j => j :: set_below d j | None => [] end.
Proof.
  unfold set_below, next_in. pose proof (find_filter (bit d) (rev (seq 0 i))) as Hf.
  destruct (find _ _) as [j|]; [|done]. destruct Hf as (l1 & l2 & Hl & Hj & H1).
  assert (seq 0 i = rev l2 ++ j :: rev l1) as Hs.
  { rewrite <- (rev_involutive (seq 0 i)), Hl, rev_app_distr. simpl. by rewrite <- app_assoc. }
  assert (j = length l2 ∧ rev l2 = seq 0 j) as [-> Hr].
  { assert (seq 0 i !! length l2 = Some j) as Hk.
    { rewrite Hs, lookup_app_r by (by rewrite length_rev). by rewrite length_rev, Nat.sub_diag. }
    pose proof (lookup_lt_Some _ _ _ Hk) as Hlt. rewrite length_seq in Hlt.
    rewrite lookup_seq_lt in Hk by done. injection Hk as <-. split; [done|].
    apply (f_equal (take (length l2))) in Hs.
    rewrite take_app_length' in Hs by (by rewrite length_rev).
    rewrite <- Hs. by rewrite take_seq, Nat.min_l by lia. }
  rewrite Hl, filter_app, H1, filter_cons_True by done. simpl.
  by rewrite <- Hr, rev_involutive.
Qed.

Lemma next_out_spec d i : i < NUM_BUCKETS → clear_above d i =
  match next_out d i with Some j => j :: clear_above d j | None => [] end.
Proof.
  intros Hi. unfold clear_above, next_out.
  pose proof (find_filter (λ j, negb (bit d j)) (seq (i + 1) (NUM_BUCKETS - (i + 1)))) as Hf.
  destruct (find _ _) as [j|]; [|done]. destruct Hf as (l1 & l2 & Hl & Hj & H1).
  assert (j = i + 1 + length l1 ∧ l2 = seq (j + 1) (NUM_BUCKETS - (j + 1))) as [_ Hr].
  { assert (seq (i + 1) (NUM_BUCKETS - (i + 1)) !! length l1 = Some j) as Hk.
    { rewrite Hl, lookup_app_r by done. by rewrite Nat.sub_diag. }
    pose proof (lookup_lt_Some _ _ _ Hk) as Hlt. rewrite length_seq in Hlt.
    rewrite lookup_seq_lt in Hk by done. injection Hk as <-. split; [done|].
    apply (f_equal (drop (length l1 + 1))) in Hl.
    rewrite drop_app_ge in Hl by lia.
    replace (length l1 + 1 - length l1) with 1 in Hl by lia. simpl in Hl.
    rewrite drop_0 in Hl. rewrite <- Hl, drop_seq. f_equal; lia. }
  rewrite Hl, filter_app, H1, filter_cons_True by done. simpl. by rewrite Hr.
Qed.

Lemma next_in_lt d i j : next_in d i = Some j → j < i.
Proof.
  unfold next_in. intros [Hin _]%find_some. apply in_rev, list_elem_of_In, elem_of_seq in Hin. lia.
Qed.

Lemma next_out_bounds d i j : next_out d i = Some j → i < j < NUM_BUCKETS.
Proof.
  unfold next_out. intros [Hin _]%find_some. apply list_elem_of_In, elem_of_seq in Hin. lia.
Qed.

Lemma iter_collect_out fuel d : ∀ i, i < NUM_BUCKETS → NUM_BUCKETS - i ≤ fuel →
  iter_collect fuel d (ZoomOut i) = Some (clear_above d i).
Proof.
  induction fuel as [|fuel IH]; intros i Hi Hf; [lia|].
  cbn [iter_collect iter_next]. rewrite next_out_spec by done.
  destruct (next_out d i) as [j|] eqn:E; [|done].
  apply next_out_bounds in E. by rewrite IH by lia.
Qed.

Lemma iter_collect_in fuel d : ∀ i, i + 1 + NUM_BUCKETS ≤ fuel →
  iter_collect fuel d (ZoomIn i) = Some (set_below d i ++ 0 :: clear_above d 0).
Proof.
  induction fuel as [|fuel IH]; intros i Hf; [lia|].
  cbn [iter_collect iter_next]. rewrite next_in_spec.
  destruct (next_in d i) as [j|] eqn:E.
  - apply next_in_lt in E. by rewrite IH by lia.
  - rewrite iter_collect_out by (unfold NUM_BUCKETS in *; lia). done.
Qed.

(** The first bucket. *)
Definition first_bucket (d : N) : nat := default 0 (BucketIndex_new d).

Lemma BucketIndex_new_spec d : (d < 2 ^ 256)%N →
  BucketIndex_new d = if (d =? 0)%N then None else Some (N.to_nat (N.log2 d)).
Proof. intros Hd. unfold BucketIndex_new. rewrite ilog2_spec by done. by case_match. Qed.

Lemma log2_bucket d : (d < 2 ^ 256)%N → d ≠ 0%N → N.to_nat (N.log2 d) < NUM_BUCKETS.
Proof.
  intros Hd Hne. assert (N.log2 d < 256)%N by (apply N.log2_lt_pow2; lia).
  unfold NUM_BUCKETS. lia.
Qed.

Lemma first_bucket_lt d : (d < 2 ^ 256)%N → first_bucket d < NUM_BUCKETS.
Proof.
  intros Hd. unfold first_bucket. rewrite BucketIndex_new_spec by done.
  destruct (N.eqb_spec d 0); simpl; [unfold NUM_BUCKETS; lia|by apply log2_bucket].
Qed.

Lemma closest_buckets_eq d : (d < 2 ^ 256)%N →
  closest_buckets d = first_bucket d :: set_below d (first_bucket d) ++ 0 :: clear_above d 0.
Proof.
  intros Hd. pose proof (first_bucket_lt d Hd) as Hi. unfold closest_buckets, ClosestBucketsIter_new.
  assert (match BucketIndex_new d with Some i => Start i | None => Start 0 end =
          Start (first_bucket d)) as -> by (unfold first_bucket; by case_match).
  change (iter_collect ITER_FUEL d (Start (first_bucket d)))
    with ((first_bucket d ::.) <$> iter_collect 513 d (ZoomIn (first_bucket d))).
  rewrite iter_collect_in by (unfold NUM_BUCKETS in *; lia). done.
Qed.
