(* ===== verification/RoutingTableClosest.v ===== *)
(** * The closest peers of the routing table

    The buckets are visited in order of distance from the target, so [RoutingTable::closest]
    returns the closest peers of the table; the operations of the table keep the invariant
    this relies on. *)

From stdpp Require Import base tactics option list gmap strings sorting.
From Stdlib Require Import ZArith NArith Lia Init.Byte.
From S2P Require Import Prelude Multiaddr AddressStore PeerState KademliaTypes KBucket RoutingTable.

Local Open Scope litep2p_scope.

(** ** Order of the buckets *)

(** [x] and [y] are distances from the local key, of nodes in buckets [i] and [j]: the first
    node is at least as close to a target at distance [d]. *)
Definition before (d : N) (i j : nat) : Prop :=
  ∀ x y, (0 < x)%N → (0 < y)%N → N.log2 x = N.of_nat i → N.log2 y = N.of_nat j →
         (N.lxor x d ≤ N.lxor y d)%N.

Lemma lxor_bit x d i m : (0 < x)%N → N.log2 x = N.of_nat i → (N.of_nat i ≤ m)%N →
  N.testbit (N.lxor x d) m = if (m =? N.of_nat i)%N then negb (N.testbit d m) else N.testbit d m.
Proof.
  intros Hx Hi Hm. rewrite N.lxor_spec. destruct (N.eqb_spec m (N.of_nat i)) as [->|Hne].
  - by rewrite <- Hi, N.bit_log2 by lia.
  - by rewrite N.bits_above_log2 by lia.
Qed.

(** Compare at bit [k], the higher of [i] and [j]. *)
Lemma before_at d i j k :
  k = i `max` j → (k = i → bit d k = true) → (k = j → bit d k = false) → before d i j.
Proof.
  intros Hk Hi Hj x y Hx Hy Hlx Hly. apply N.lt_le_incl, (testbit_lt _ _ (N.of_nat k)).
  - rewrite (lxor_bit x d i) by lia. unfold bit in *.
    destruct (N.eqb_spec (N.of_nat k) (N.of_nat i)); [by rewrite Hi by lia|apply Hj; lia].
  - rewrite (lxor_bit y d j) by lia. unfold bit in *.
    destruct (N.eqb_spec (N.of_nat k) (N.of_nat j)); [by rewrite Hj by lia|apply Hi; lia].
  - intros m Hm. rewrite (lxor_bit x d i), (lxor_bit y d j) by lia.
    destruct (N.eqb_spec m (N.of_nat i)), (N.eqb_spec m (N.of_nat j)); lia || done.
Qed.

Lemma before_set_set d i j : bit d i = true → j < i → before d i j.
Proof. intros ? ?. apply (before_at d i j i); [lia|done|lia]. Qed.

Lemma before_clear_clear d i j : bit d j = false → i < j → before d i j.
Proof. intros ? ?. apply (before_at d i j j); [lia|lia|done]. Qed.

Lemma before_set_clear d i j : bit d i = true → bit d j = false → before d i j.
Proof.
  intros Hi Hj. destruct (Nat.lt_trichotomy i j) as [?|[->|?]].
  - by apply before_clear_clear.
  - congruence.
  - by apply before_set_set.
Qed.

(** Bucket 0 holds a single distance. *)
Lemma before_zero d : before d 0 0.
Proof.
  intros x y Hx Hy Hlx Hly. apply N.log2_null in Hlx, Hly.
  assert (x = 1%N) as -> by lia. assert (y = 1%N) as -> by lia. done.
Qed.

Lemma set_below_elem d i j : j ∈ set_below d i ↔ bit d j = true ∧ j < i.
Proof.
  unfold set_below. rewrite list_elem_of_filter, list_elem_of_In, <- in_rev, <- list_elem_of_In.
  rewrite elem_of_seq. naive_solver lia.
Qed.

Lemma clear_above_elem d i j : i < NUM_BUCKETS →
  j ∈ clear_above d i ↔ bit d j = false ∧ i < j < NUM_BUCKETS.
Proof.
  intros Hi. unfold clear_above. rewrite list_elem_of_filter, elem_of_seq, negb_true_iff.
  naive_solver lia.
Qed.

Lemma set_below_sorted d i : StronglySorted (before d) (set_below d i).
Proof.
  eapply StronglySorted_impl_elem; [|apply StronglySorted_filter, rev_sorted, seq_sorted].
  intros x y [Hx _]%set_below_elem _ Hlt. by apply before_set_set.
Qed.

Lemma clear_above_sorted d i : i < NUM_BUCKETS → StronglySorted (before d) (clear_above d i).
Proof.
  intros Hi. eapply StronglySorted_impl_elem; [|apply StronglySorted_filter, seq_sorted].
  intros x y _ [Hy _]%(clear_above_elem d i y Hi) Hlt. by apply before_clear_clear.
Qed.

(** The top bit of a nonzero distance is set and bits above it are clear. *)
Lemma first_bucket_bit d : (d < 2 ^ 256)%N → d ≠ 0%N → bit d (first_bucket d) = true.
Proof.
  intros Hd Hne. unfold bit, first_bucket. rewrite BucketIndex_new_spec by done.
  destruct (N.eqb_spec d 0); [done|]. simpl. rewrite N2Nat.id. by apply N.bit_log2.
Qed.

Lemma first_bucket_above d j : (d < 2 ^ 256)%N → first_bucket d < j → bit d j = false.
Proof.
  intros Hd. unfold bit, first_bucket. rewrite BucketIndex_new_spec by done.
  destruct (N.eqb_spec d 0) as [->|Hne]; simpl; intros Hj; [done|].
  apply N.bits_above_log2. lia.
Qed.

Lemma zero_bucket_sorted d : StronglySorted (before d) (0 :: clear_above d 0).
Proof.
  assert (0 < NUM_BUCKETS) as H0 by (unfold NUM_BUCKETS; lia). constructor.
  - by apply clear_above_sorted.
  - apply Forall_forall. intros j [? ?]%(clear_above_elem d 0 j H0). apply before_clear_clear; [done|lia].
Qed.

Lemma closest_buckets_sorted d : (d < 2 ^ 256)%N → StronglySorted (before d) (closest_buckets d).
Proof.
  intros Hd. rewrite closest_buckets_eq by done.
  assert (0 < NUM_BUCKETS) as H0 by (unfold NUM_BUCKETS; lia).
  destruct (N.eq_dec d 0) as [->|Hne].
  { change (first_bucket 0) with 0. constructor; [apply zero_bucket_sorted|]. apply Forall_forall.
    intros j [->|[? ?]%(clear_above_elem _ 0 j H0)]%elem_of_cons; [apply before_zero|].
    apply before_clear_clear; [done|lia]. }
  pose proof (first_bucket_bit d Hd Hne) as Hb.
  assert (∀ i, bit d i = true → Forall (before d i) (0 :: clear_above d 0)) as Hset.
  { intros i Hi. apply Forall_forall.
    intros j [->|[? ?]%(clear_above_elem d 0 j H0)]%elem_of_cons; [|by apply before_set_clear].
    destruct i as [|i]; [apply before_zero|]. apply before_set_set; [done|lia]. }
  constructor.
  - apply StronglySorted_app_2; [|apply set_below_sorted|apply zero_bucket_sorted].
    intros i j [Hi _]%set_below_elem Hj. specialize (Hset i Hi). rewrite Forall_forall in Hset. auto.
  - apply Forall_app. split; [|by apply Hset]. apply Forall_forall.
    intros j [_ Hj]%set_below_elem. by apply before_set_set.
Qed.

(** Every bucket is visited once, bucket 0 twice when the lowest bit of the distance is set
    or the distance is zero. *)
Definition zero_twice (d : N) : bool := bit d 0 || (d =? 0)%N.

Lemma closest_buckets_perm d : (d < 2 ^ 256)%N →
  closest_buckets d ≡ₚ (if zero_twice d then [0] else []) ++ seq 0 NUM_BUCKETS.
Proof.
  intros Hd. assert (0 < NUM_BUCKETS) as H0 by (unfold NUM_BUCKETS; lia).
  rewrite closest_buckets_eq by done. pose proof (first_bucket_lt d Hd) as Hf.
  assert (NoDup (set_below d (first_bucket d))) as Hn1.
  { apply NoDup_filter. rewrite <- Permutation_rev. apply NoDup_seq. }
  assert (NoDup (clear_above d 0)) as Hn2 by (apply NoDup_filter, NoDup_seq).
  pose proof (λ j, clear_above_elem d 0 j H0) as Hc.
  destruct (N.eq_dec d 0) as [->|Hne].
  { change (first_bucket 0) with 0. change (zero_twice 0) with true.
    change (set_below 0 0) with (@nil nat). cbn [app]. constructor.
    apply NoDup_Permutation; [|apply NoDup_seq|].
    - constructor; [|done]. rewrite Hc. lia.
    - intros j. rewrite elem_of_cons, Hc, elem_of_seq. unfold bit.
      rewrite N.bits_0. naive_solver lia. }
  pose proof (first_bucket_bit d Hd Hne) as Hb.
  assert (0 :: first_bucket d :: set_below d (first_bucket d) ++ clear_above d 0 ≡ₚ
          first_bucket d :: set_below d (first_bucket d) ++ 0 :: clear_above d 0) as <-.
  { by rewrite <- Permutation_middle, Permutation_swap. }
  assert (∀ j, j < NUM_BUCKETS → bit d j = true → j ≤ first_bucket d) as Htop.
  { intros j _ Hj. apply Nat.le_ngt. intros Hlt. rewrite first_bucket_above in Hj; done. }
  assert (NoDup (first_bucket d :: set_below d (first_bucket d) ++ clear_above d 0)) as Hn.
  { apply NoDup_cons. rewrite elem_of_app, set_below_elem, Hc. split; [intros [[_ ?]|[? _]]; [lia|congruence]|].
    apply NoDup_app. split_and!; [done| |done]. intros j [? _]%set_below_elem [? _]%Hc. congruence. }
  unfold zero_twice. replace (d =? 0)%N with false by (symmetry; by apply N.eqb_neq).
  rewrite orb_false_r. destruct (bit d 0) eqn:Hb0; cbn [app].
  - constructor. apply NoDup_Permutation; [done|apply NoDup_seq|]. intros j.
    rewrite elem_of_cons, elem_of_app, set_below_elem, Hc, elem_of_seq.
    specialize (Htop j). destruct (bit d j) eqn:Hj.
    + destruct (decide (j = first_bucket d)); intuition (lia || congruence).
    + destruct (decide (j = 0)); intuition (lia || congruence).
  - apply NoDup_Permutation; [|apply NoDup_seq|].
    + constructor; [|done]. rewrite elem_of_cons, elem_of_app, set_below_elem, Hc.
      intros [He|[[? _]|[_ ?]]]; [|congruence|lia]. congruence.
    + intros j. rewrite !elem_of_cons, elem_of_app, set_below_elem, Hc, elem_of_seq.
      specialize (Htop j). destruct (bit d j) eqn:Hj.
      * destruct (decide (j = first_bucket d)); intuition (lia || congruence).
      * destruct (decide (j = 0)); intuition (lia || congruence).
Qed.

(** ** Invariant of the table *)

Record table_wf `{Sha256, MultihashLib} (t : RoutingTable) : Prop := {
  table_buckets : length (buckets t) = NUM_BUCKETS;
  table_local : (key_bytes (local_key t) < 2 ^ 256)%N;
  table_bucket b nodes :
    buckets t !! b = Some nodes → bucket_wf (key_bytes (local_key t)) b nodes;
}.

(** The peers of the table whose addresses are known. *)
Definition known_peers (t : RoutingTable) : list KademliaPeer :=
  filter has_addresses (mjoin (buckets t)).

Section closest.
Context `{Sha256, MultihashLib}.
Implicit Types (t : RoutingTable) (n m : KademliaPeer).

Lemma bucket_at_wf t b : table_wf t → bucket_wf (key_bytes (local_key t)) b (bucket_at t b).
Proof.
  intros Hwf. unfold bucket_at. destruct (buckets t !! b) eqn:E; [by eapply table_bucket|].
  apply bucket_empty_wf.
Qed.

Lemma key_distance_bound {T U} (a : Key T) (b : Key U) :
  (key_bytes a < 2 ^ 256)%N → (key_bytes b < 2 ^ 256)%N → (key_distance a b < 2 ^ 256)%N.
Proof. apply lxor_lt_pow2. Qed.

Lemma node_key_bound n : node_wf n → (key_bytes (kad_key n) < 2 ^ 256)%N.
Proof. intros [-> _]. apply key_of_peer_bound. Qed.

(** A node with addresses, at its place in bucket [b]. *)
Lemma placed_log2 t b n : table_wf t → n ∈ bucket_at t b → has_addresses n →
  let x := key_distance (local_key t) (kad_key n) in
  (0 < x)%N ∧ N.log2 x = N.of_nat b.
Proof.
  intros Hwf [i Hi]%list_elem_of_lookup Hn. pose proof (bucket_at_wf t b Hwf) as Hb.
  pose proof (bucket_placed _ _ _ Hb i n Hi Hn) as Hp.
  pose proof (node_key_bound _ (bucket_nodes _ _ _ Hb i n Hi)) as Hk.
  fold (key_distance (local_key t) (kad_key n)) in Hp.
  rewrite ilog2_spec in Hp by (apply key_distance_bound; [apply Hwf|done]).
  simpl. destruct (N.eqb_spec (key_distance (local_key t) (kad_key n)) 0); [done|].
  injection Hp as Hp. split; [lia|done].
Qed.

Lemma closest_iter_elem {T} nodes (target : Key T) n :
  n ∈ closest_iter nodes target ↔ n ∈ nodes ∧ has_addresses n.
Proof. unfold closest_iter. rewrite list_elem_of_filter, sort_by_key_elem. unfold has_addresses. tauto. Qed.

Lemma closest_iter_perm {T} nodes (target : Key T) :
  closest_iter nodes target ≡ₚ filter has_addresses nodes.
Proof. unfold closest_iter. by rewrite sort_by_key_perm. Qed.

(** Closer to the target, or as close. *)
Definition closer {T} (target : Key T) n m : Prop :=
  (key_distance target (kad_key n) ≤ key_distance target (kad_key m))%N.

Lemma closest_iter_sorted {T} nodes (target : Key T) :
  StronglySorted (closer target) (closest_iter nodes target).
Proof.
  apply StronglySorted_filter. eapply StronglySorted_impl_elem; [|apply sort_by_key_sorted].
  intros x y _ _ Hle. unfold key_le, closer in *. lia.
Qed.

(** Distances to the target from distances to the local key. *)
Lemma key_distance_via {T U V} (l : Key T) (target : Key U) (k : Key V) :
  key_distance target k = N.lxor (key_distance l k) (key_distance l target).
Proof.
  unfold key_distance. rewrite N.lxor_assoc, <- (N.lxor_assoc (key_bytes k)).
  rewrite (N.lxor_comm (key_bytes k) (key_bytes l)), N.lxor_assoc, <- N.lxor_assoc.
  by rewrite N.lxor_nilpotent, N.lxor_0_l, N.lxor_comm.
Qed.

Lemma before_closer {T} t (target : Key T) i j n m : table_wf t →
  before (key_distance (local_key t) target) i j →
  n ∈ closest_iter (bucket_at t i) target → m ∈ closest_iter (bucket_at t j) target →
  closer target n m.
Proof.
  intros Hwf Hb [Hn Han]%closest_iter_elem [Hm Ham]%closest_iter_elem. unfold closer.
  rewrite !(key_distance_via (local_key t) target).
  destruct (placed_log2 t i n), (placed_log2 t j m); [done..|]. by apply Hb.
Qed.

Lemma buckets_in_order t : length (buckets t) = NUM_BUCKETS →
  bucket_at t <$> seq 0 NUM_BUCKETS = buckets t.
Proof.
  intros Hl. apply list_eq. intros i. rewrite list_lookup_fmap.
  destruct (decide (i < NUM_BUCKETS)) as [Hi|Hi].
  - rewrite lookup_seq_lt by done. simpl. unfold bucket_at.
    rewrite <- Hl in Hi. by destruct (lookup_lt_is_Some_2 _ _ Hi) as [? ->].
  - rewrite lookup_seq_ge by lia. symmetry. apply lookup_ge_None_2. lia.
Qed.

Lemma mjoin_closest_perm {T} t (target : Key T) l :
  mjoin ((λ b, closest_iter (bucket_at t b) target) <$> l) ≡ₚ
  filter has_addresses (mjoin (bucket_at t <$> l)).
Proof.
  induction l as [|b l IH]; simpl; [done|]. by rewrite filter_app, IH, closest_iter_perm.
Qed.
End closest.

(** ** Properties *)

(** C23. [closest] returns the closest known peers: the result is a prefix, as long as the
    limit allows, of a list of all the known peers ordered by XOR distance from the target.
    (Bucket 0 is listed twice when the target's distance from the local key is odd or zero.) *)
Theorem closest_is_closest {T} `{Sha256, MultihashLib} t (target : Key T) limit :
  table_wf t → (key_bytes target < 2 ^ 256)%N →
  ∃ l, closest t target limit = take (N.to_nat limit) l ∧
    StronglySorted (λ n m, (key_distance target (kad_key n) ≤ key_distance target (kad_key m))%N) l ∧
    l ≡ₚ (if zero_twice (key_distance (local_key t) target)
          then filter has_addresses (bucket_at t 0) else []) ++ known_peers t.
Proof.
  intros Hwf Ht. set (d := key_distance (local_key t) target).
  assert (d < 2 ^ 256)%N as Hd by (apply key_distance_bound; [apply Hwf|done]).
  eexists. split; [unfold closest; by rewrite take_N_take|]. fold d. split.
  - apply StronglySorted_mjoin; [intros; apply closest_iter_sorted|].
    eapply StronglySorted_impl_elem; [|by apply closest_buckets_sorted].
    intros i j _ _ Hb n m Hn Hm. by eapply before_closer.
  - rewrite mjoin_closest_perm, (closest_buckets_perm d Hd), fmap_app, join_app, filter_app.
    rewrite buckets_in_order by apply Hwf. unfold known_peers.
    by destruct (zero_twice d); simpl; rewrite ?app_nil_r.
Qed.
