(* ===== verification/RoutingTableInvariant.v ===== *)
(** * Invariant of the routing table

    Every operation of the routing table returns and keeps the invariant behind
    [closest]; connected peers are never evicted; a lookup may evict. *)

From stdpp Require Import base tactics option list gmap strings sorting.
From Stdlib Require Import ZArith NArith Lia Init.Byte.
From S2P Require Import Prelude Multiaddr AddressStore PeerState KademliaTypes KBucket.
From S2P Require Import RoutingTable RoutingTableClosest.

Local Open Scope litep2p_scope.

Section invariant.
Context `{IpNetwork, HashOrder, Sha256, MultihashLib}.
Implicit Types (t : RoutingTable) (n m : KademliaPeer) (key : Key PeerId).

Lemma set_bucket_wf t b nodes : table_wf t →
  bucket_wf (key_bytes (local_key t)) b nodes → table_wf (set_bucket t b nodes).
Proof.
  intros [Hl Hk Hb] Hn. split; simpl; [by rewrite length_insert|done|].
  intros b' nodes' Hb'. apply list_lookup_insert_Some in Hb' as [(-> & -> & _)|[_ ?]]; eauto.
Qed.

Lemma bucket_at_set t b nodes : b < length (buckets t) → bucket_at (set_bucket t b nodes) b = nodes.
Proof. intros Hb. unfold bucket_at. simpl. by rewrite list_lookup_insert_eq. Qed.

(** What [RoutingTable::entry] returns. *)
Inductive table_entry_post random t key : RoutingTable → nat → KBucketEntry → Prop :=
| table_entry_local :
    key_distance (local_key t) key = 0%N → table_entry_post random t key t 0 LocalNode
| table_entry_bucket b nodes e :
    b < NUM_BUCKETS →
    ilog2 (key_distance (local_key t) key) = Some (N.of_nat b) →
    entry_post random (bucket_at t b) key nodes e →
    table_entry_post random t key (set_bucket t b nodes) b e.

Lemma table_entry_spec random t key : table_wf t → (key_bytes key < 2 ^ 256)%N →
  ∃ t' b e, table_entry random t key = Done (t', b, e) ∧ table_wf t' ∧
            table_entry_post random t key t' b e.
Proof.
  intros Hwf Hk. unfold table_entry. set (d := key_distance (local_key t) key).
  assert (d < 2 ^ 256)%N as Hd by (apply key_distance_bound; [apply Hwf|done]).
  rewrite BucketIndex_new_spec by done. destruct (N.eqb_spec d 0) as [Hz|Hz].
  { eexists _, _, _. split_and!; [done..|]. by constructor. }
  pose proof (log2_bucket d Hd Hz) as Hb. set (b := N.to_nat (N.log2 d)) in *.
  destruct (lookup_lt_is_Some_2 (buckets t) b) as [nodes Hn]; [by rewrite (table_buckets t)|].
  rewrite Hn. assert (bucket_at t b = nodes) as Hat by (unfold bucket_at; by rewrite Hn).
  destruct (bucket_entry_spec random nodes key) as (nodes' & e & -> & He). simpl.
  eexists _, _, _. split_and!; [done| |].
  - apply set_bucket_wf; [done|]. eapply bucket_entry_wf; [|done]. by eapply table_bucket.
  - constructor; [done| |by rewrite Hat]. fold d. rewrite ilog2_spec by done.
    destruct (N.eqb_spec d 0); [done|]. unfold b. by rewrite N2Nat.id.
Qed.

(** Update the node of an occupied entry without touching its key. *)
Lemma update_node_wf random t key nodes b i f :
  table_wf (set_bucket t b nodes) → b < length (buckets t) →
  ilog2 (key_distance (local_key t) key) = Some (N.of_nat b) →
  entry_post random (bucket_at t b) key nodes (Occupied i) →
  (∀ n, node_wf n → ∃ n', f n = Done n' ∧ node_wf n' ∧ kad_key n' = kad_key n) →
  ∃ t', update_node (set_bucket t b nodes) b i f = Done t' ∧ table_wf t'.
Proof.
  intros Hwf Hb Hd He Hf. inversion He as [i' n Hi Hk Hfirst| | |]; simplify_eq.
  unfold update_node. rewrite bucket_at_set by done. rewrite Hi.
  pose proof (bucket_at_wf _ b Hwf) as Hbw. rewrite bucket_at_set in Hbw by done.
  destruct (Hf n) as (n' & -> & Hn' & Hkey); [by eapply bucket_nodes|]. simpl.
  eexists. split; [done|]. apply set_bucket_wf; [done|].
  eapply bucket_replace_wf; [done..| | |].
  - intros _. unfold key_distance in Hd. simpl. by rewrite Hkey, Hk.
  - intros j m Hj Hlt. rewrite Hkey, Hk. by eapply Hfirst.
  - intros j m Hj Hlt. rewrite Hkey. intros Hjk.
    eapply (bucket_unique _ _ _ Hbw i j n m); [done..|]. congruence.
Qed.

Lemma set_bucket_local t b nodes : local_key (set_bucket t b nodes) = local_key t.
Proof. done. Qed.

(** Put a new peer into a vacant entry. *)
Lemma entry_insert_wf random t p nodes b i n :
  table_wf (set_bucket t b nodes) → b < length (buckets t) →
  ilog2 (key_distance (local_key t) (key_of_peer p)) = Some (N.of_nat b) →
  entry_post random (bucket_at t b) (key_of_peer p) nodes (Vacant i) →
  kad_peer n = p → store_wf (address_store n) →
  table_wf (set_bucket (set_bucket t b nodes) b (entry_insert nodes (Vacant i) n)).
Proof.
  intros Hwf Hb Hd He Hp Hst. pose proof (bucket_at_wf _ b Hwf) as Hbw.
  rewrite bucket_at_set in Hbw by done. simpl in Hbw.
  assert (is_Some (nodes !! i) ∧ ∀ j m, nodes !! j = Some m → j ≠ i →
    key_bytes (kad_key m) ≠ key_bytes (key_of_peer p)) as [[old Hi] Hother].
  { inversion He as [|x Hk Hl Hx Hr Hc Ha Heq|j x Hk Hl Hx Hr|]; simplify_eq.
    - split; [by rewrite lookup_app_r, Nat.sub_diag by lia; eexists|].
      intros j m Hj Hne. apply lookup_app_Some in Hj as [?|[Hge Hm]].
      + apply Hk. by eapply list_elem_of_lookup_2.
      + apply list_lookup_singleton_Some in Hm as [? _]. lia.
    - split; [by eexists|]. intros j m Hj _. apply Hk. by eapply list_elem_of_lookup_2. }
  apply set_bucket_wf; [done|]. simpl. rewrite Hp.
  eapply bucket_replace_wf; [done..|by split| | |]; simpl.
  - intros _. exact Hd.
  - intros j m Hj Hlt. apply (Hother j m Hj). lia.
  - intros j m Hj Hlt Heq. destruct (Hother j m Hj); [lia|done].
Qed.

Lemma with_store_wf n st c : node_wf n → store_wf st → node_wf (with_store n st c).
Proof. intros [? ?] ?. by split. Qed.

(** ** Operations *)

Inductive TableOp :=
| OpLookup (random : PeerId) (p : PeerId)
| OpDialFailure (random : PeerId) (p : PeerId) (l : list Multiaddr)
| OpEstablished (random : PeerId) (p : PeerId) (e : Endpoint)
| OpDisconnected (random : PeerId) (p : PeerId)
| OpAddKnownPeer (random : PeerId) (p : PeerId) (l : list Multiaddr) (c : ConnectionType).

Definition table_step t (op : TableOp) : outcome RoutingTable :=
  match op with
  | OpLookup random p => run (t, _, _) <- table_entry random t (key_of_peer p) ;; Done t
  | OpDialFailure random p l => table_on_dial_failure random t (key_of_peer p) l
  | OpEstablished random p e => table_on_connection_established random t (key_of_peer p) e
  | OpDisconnected random p => table_on_disconnected random t (key_of_peer p)
  | OpAddKnownPeer random p l c => add_known_peer random t p l c
  end.

Fixpoint table_run t (ops : list TableOp) : outcome RoutingTable :=
  match ops with
  | [] => Done t
  | op :: ops => run t <- table_step t op ;; table_run t ops
  end.

(** The operations that look a peer up and update its node if it is there. *)
Lemma lookup_update_total random t p f : table_wf t →
  (∀ n, node_wf n → ∃ n', f n = Done n' ∧ node_wf n' ∧ kad_key n' = kad_key n) →
  ∃ t', (run (t', b, e) <- table_entry random t (key_of_peer p) ;;
         match e with Occupied i => update_node t' b i f | _ => Done t' end) = Done t' ∧ table_wf t'.
Proof.
  intros Hwf Hf.
  destruct (table_entry_spec random t (key_of_peer p) Hwf (key_of_peer_bound p))
    as (t' & b & e & -> & Hwf' & He). simpl.
  destruct e as [|i|i|]; [by exists t'| |by exists t'..].
  inversion He as [|b' nodes e' Hb Hd Hpost]; simplify_eq.
  eapply update_node_wf; [done| |done..]. by rewrite (table_buckets t).
Qed.

Lemma add_known_peer_total random t p l c : table_wf t →
  ∃ t', add_known_peer random t p l c = Done t' ∧ table_wf t'.
Proof.
  intros Hwf. unfold add_known_peer. destruct l as [|a l]; [by exists t|].
  cbn [fmap list_fmap]. set (l' := with_peer p a :: _).
  destruct (table_entry_spec random t (key_of_peer p) Hwf (key_of_peer_bound p))
    as (t' & b & e & -> & Hwf' & He). cbn [outcome_bind].
  destruct e as [|i|i|]; [by exists t'| | |by exists t'].
  - inversion He as [|b' nodes e' Hb Hd Hpost]; simplify_eq.
    eapply update_node_wf; [done|by rewrite (table_buckets t)|done..|].
    intros n [Hk Hst]. unfold push_addresses.
    destruct (push_all_total (address_store n) l' Hst) as (st & -> & Hst' & _). simpl.
    eexists. by split_and!.
  - inversion He as [|b' nodes e' Hb Hd Hpost]; simplify_eq.
    destruct (KademliaPeer_new_total p l' c) as (n & -> & ? & ? & ? & ?).
    cbn [outcome_bind]. eexists. split; [done|].
    rewrite bucket_at_set by (by rewrite (table_buckets t)).
    eapply entry_insert_wf; [done|by rewrite (table_buckets t)|done..].
Qed.

Lemma failure_scores l : Forall (λ r, i32 (score r))
  ((λ a, from_raw_multiaddr_with_score a scores.CONNECTION_FAILURE) <$> l).
Proof. apply Forall_fmap, Forall_true. intros a. by vm_compute. Qed.

Lemma table_step_total t op : table_wf t → ∃ t', table_step t op = Done t' ∧ table_wf t'.
Proof.
  intros Hwf. destruct op as [random p|random p l|random p e|random p|random p l c]; simpl.
  - destruct (table_entry_spec random t (key_of_peer p) Hwf (key_of_peer_bound p))
      as (t' & b & e & -> & Hwf' & _). by exists t'.
  - apply lookup_update_total; [done|]. intros n [Hk Hst].
    destruct (extend_wf _ _ Hst (failure_scores l)) as (st & -> & Hst' & _). simpl.
    eexists. by split_and!.
  - apply lookup_update_total; [done|]. intros n [Hk Hst]. destruct e as [a c|a c].
    + destruct (extend_wf [from_raw_multiaddr_with_score a scores.CONNECTION_ESTABLISHED] _ Hst)
        as (st & He & Hst' & _); [by repeat constructor|].
      unfold extend in He. simpl in He. destruct (insert _ _); simpl in He; [|done].
      simplify_eq. simpl. eexists. by split_and!.
    + eexists. by split_and!.
  - apply lookup_update_total; [done|]. intros n [Hk Hst]. eexists. by split_and!.
  - by apply add_known_peer_total.
Qed.

Lemma RoutingTable_new_wf key : (key_bytes key < 2 ^ 256)%N → table_wf (RoutingTable_new key).
Proof.
  intros Hk. split; cbn [RoutingTable_new buckets local_key]; [by rewrite length_replicate|done|].
  intros b nodes [-> _]%lookup_replicate_1. apply bucket_empty_wf.
Qed.

Lemma table_run_total ops : ∀ t, table_wf t → ∃ t', table_run t ops = Done t' ∧ table_wf t'.
Proof.
  induction ops as [|op ops IH]; intros t Hwf; simpl; [by eexists|].
  destruct (table_step_total t op Hwf) as (t' & -> & Hwf'). by apply IH.
Qed.

(** ** What the operations do to a bucket *)

(** The effect of [add_known_peer] with the (non-empty) addresses [l] on the bucket of the
    peer's distance. *)
Inductive add_post p l c (old : KBucket) : KBucket → Prop :=
| add_updated i n n' :
    old !! i = Some n → key_bytes (kad_key n) = key_bytes (key_of_peer p) →
    push_addresses n l = Done n' →
    add_post p l c old (<[i := with_store n' (address_store n') c]> old)
| add_pushed n :
    (∀ m, m ∈ old → key_bytes (kad_key m) ≠ key_bytes (key_of_peer p)) →
    length old < BUCKET_SIZE → KademliaPeer_new p l c = Done n → add_post p l c old (old ++ [n])
| add_replaced i n n' :
    (∀ m, m ∈ old → key_bytes (kad_key m) ≠ key_bytes (key_of_peer p)) →
    BUCKET_SIZE ≤ length old → old !! i = Some n → replaceable n = true →
    KademliaPeer_new p l c = Done n' → add_post p l c old (<[i := n']> old)
| add_refused :
    (∀ m, m ∈ old → key_bytes (kad_key m) ≠ key_bytes (key_of_peer p)) →
    BUCKET_SIZE ≤ length old → (∀ m, m ∈ old → replaceable m = false) → add_post p l c old old.

Lemma set_bucket_set t b nodes nodes' :
  set_bucket (set_bucket t b nodes) b nodes' = set_bucket t b nodes'.
Proof. unfold set_bucket. simpl. by rewrite list_insert_insert_eq. Qed.

Lemma set_bucket_same t b : set_bucket t b (bucket_at t b) = t.
Proof.
  unfold set_bucket, bucket_at. destruct t as [k bs]; simpl. f_equal.
  destruct (bs !! b) as [nodes|] eqn:E; simpl; [by apply list_insert_id|].
  apply list_insert_ge. by apply lookup_ge_None.
Qed.

Lemma add_known_peer_effect random t p a l c : table_wf t →
  let l' := with_peer p <$> a :: l in
  ∃ t', add_known_peer random t p (a :: l) c = Done t' ∧
    (key_distance (local_key t) (key_of_peer p) = 0%N ∧ t' = t ∨
     ∃ b nodes, b < NUM_BUCKETS ∧
       ilog2 (key_distance (local_key t) (key_of_peer p)) = Some (N.of_nat b) ∧
       t' = set_bucket t b nodes ∧ add_post p l' c (bucket_at t b) nodes).
Proof.
  intros Hwf l'. unfold add_known_peer. cbn [fmap list_fmap] in *. fold l'.
  destruct (table_entry_spec random t (key_of_peer p) Hwf (key_of_peer_bound p))
    as (t' & b & e & -> & Hwf' & He). cbn [outcome_bind].
  inversion He as [Hz|b' nodes e' Hb Hd Hpost]; simplify_eq; [by eexists; split; [|left]|].
  assert (b < length (buckets t)) as Hlen by (by rewrite (table_buckets t)).
  assert (∀ n, node_wf n → ∃ n', push_addresses n l' = Done n') as Hpush.
  { intros n [_ Hst]. unfold push_addresses.
    destruct (push_all_total (address_store n) l' Hst) as (st & -> & _). by eexists. }
  destruct (KademliaPeer_new_total p l' c) as (new & Hnew & Hkey & Hp & Hc & _).
  assert (mkKademliaPeer (key_of_peer (kad_peer new)) (kad_peer new) (address_store new)
            (connection new) = new) as Heta by (rewrite Hp, <- Hkey, <- Hp; by destruct new).
  pose proof (bucket_at_wf t b Hwf) as Hbw.
  inversion Hpost as [i n Hi Hk Hf|n Hk Hl _ _ _ _|i n Hk Hl Hi Hr|Hk Hl Hr]; simplify_eq.
  - unfold update_node. rewrite bucket_at_set, Hi by done.
    destruct (Hpush n (bucket_nodes _ _ _ Hbw _ _ Hi)) as (n' & Hn'). rewrite Hn'. simpl.
    eexists. split; [done|]. right. eexists b, _. rewrite set_bucket_set.
    split_and!; [done..|]. by econstructor.
  - rewrite Hnew. cbn [outcome_bind]. eexists. split; [done|]. right. eexists b, _.
    rewrite set_bucket_set, bucket_at_set by done. split_and!; [done..|].
    unfold entry_insert. rewrite Heta.
    replace (length (bucket_at t b)) with (length (bucket_at t b) + 0) by lia.
    rewrite insert_app_r. simpl. by apply add_pushed.
  - rewrite Hnew. cbn [outcome_bind]. eexists. split; [done|]. right. eexists b, _.
    rewrite set_bucket_set, bucket_at_set by done. split_and!; [done..|].
    unfold entry_insert. rewrite Heta. by econstructor.
  - eexists. split; [done|]. right. eexists b, _. split_and!; [done..|]. by apply add_refused.
Qed.
End invariant.

(** ** Properties *)

(** C26. From an empty table every sequence of operations, whatever the random identifiers,
    returns and keeps the table well formed: 256 buckets of at most 20 nodes, and each node that
    has addresses is in the bucket of its distance and only once. Nothing is said about the
    place of the nodes without addresses, the free slots that a lookup of a bucket leaves behind
    under a random identifier. *)
Theorem routing_table_invariant `{IpNetwork, HashOrder, Sha256, MultihashLib}
    (local : PeerId) (ops : list TableOp) :
  ∃ t, table_run (RoutingTable_new (key_of_peer local)) ops = Done t ∧ table_wf t.
Proof. apply table_run_total, RoutingTable_new_wf, key_of_peer_bound. Qed.

(** What adding a peer with addresses does, on every branch: the local node is ignored; in
    the bucket of the peer's distance, a known peer gets the addresses and the new connection
    type, otherwise the peer takes a free place, or the place of one peer that is not
    connected; if all twenty are connected, nothing changes. No other bucket changes, and
    connected peers keep their place. *)
Theorem add_known_peer_cases `{IpNetwork, HashOrder, Sha256, MultihashLib} random t p a l c :
  table_wf t →
  let l' := with_peer p <$> a :: l in
  ∃ t', add_known_peer random t p (a :: l) c = Done t' ∧
    (key_distance (local_key t) (key_of_peer p) = 0%N ∧ t' = t ∨
     ∃ b nodes, b < NUM_BUCKETS ∧
       ilog2 (key_distance (local_key t) (key_of_peer p)) = Some (N.of_nat b) ∧
       t' = set_bucket t b nodes ∧ add_post p l' c (bucket_at t b) nodes ∧
       ∀ n, n ∈ bucket_at t b → replaceable n = false →
            key_bytes (kad_key n) ≠ key_bytes (key_of_peer p) → n ∈ nodes).
Proof.
  intros Hwf l'. destruct (add_known_peer_effect random t p a l c Hwf) as (t' & He & Hor).
  exists t'. split; [done|]. destruct Hor as [?|(b & nodes & Hb & Hd & -> & Hpost)]; [by left|].
  right. exists b, nodes. split_and!; [done..|]. fold l' in Hpost.
  intros n [j Hj]%list_elem_of_lookup Hr Hk.
  destruct Hpost as [i x x' Hi Hx|x|i x x' ? ? Hi Hx|]; try set_solver.
  - eapply (list_elem_of_lookup_2 _ j). rewrite list_lookup_insert_ne; [done|]. intros ->. congruence.
  - apply elem_of_app. left. by eapply list_elem_of_lookup_2.
  - eapply (list_elem_of_lookup_2 _ j). rewrite list_lookup_insert_ne; [done|]. intros ->. congruence.
  - by eapply list_elem_of_lookup_2.
Qed.

(** ** A lookup evicts *)

Section sample_run.
#[local] Existing Instance sample_network.
#[local] Existing Instance canonical_order.
#[local] Existing Instance toy_sha256.
#[local] Existing Instance toy_multihash.

Definition kad_sample (n : nat) : PeerId :=
  mkPeerId (mkMultihash MULTIHASH_IDENTITY_CODE (replicate n Byte.x00)).

Definition kad_address : Multiaddr := [Ip4 134744072; Tcp 30333].

Definition sample_table : RoutingTable := RoutingTable_new (key_of_peer (kad_sample 0)).

(** Nineteen peers that are not connected, all in bucket 255. *)
Definition nineteen_peers : list TableOp :=
  (λ i, OpAddKnownPeer (kad_sample 40) (kad_sample i) [kad_address] NotConnected) <$> seq 1 19.

(** The peers with addresses in bucket 255 after a run. *)
Definition known_after (ops : list TableOp) : list PeerId :=
  match table_run sample_table ops with
  | Done t => kad_peer <$> filter has_addresses (bucket_at t 255)
  | Panic => []
  end.

(** With nineteen known peers in a bucket there is room for a twentieth, but after a mere
    lookup of an unknown peer (here: a failed dial of it) the bucket counts as full, and
    adding the twentieth peer evicts a known one. *)
Theorem lookup_evicts_known_peer :
  known_after (nineteen_peers ++
    [OpAddKnownPeer (kad_sample 41) (kad_sample 20) [kad_address] NotConnected]) =
    kad_sample <$> seq 1 20 ∧
  known_after (nineteen_peers ++
    [OpDialFailure (kad_sample 42) (kad_sample 30) [kad_address];
     OpAddKnownPeer (kad_sample 41) (kad_sample 20) [kad_address] NotConnected]) =
    kad_sample <$> 20 :: seq 2 18.
Proof. split; by vm_compute. Qed.

Lemma sample_table_wf : table_wf sample_table.
Proof. apply RoutingTable_new_wf, key_of_peer_bound. Qed.

Lemma add_known_peer_cases_witness :
  ∃ t', add_known_peer (kad_sample 40) sample_table (kad_sample 1) [kad_address] PeerConnected =
          Done t' ∧
        (t' = sample_table ∨ ∃ b nodes, b < NUM_BUCKETS ∧ t' = set_bucket sample_table b nodes).
Proof.
  destruct (add_known_peer_cases (kad_sample 40) sample_table (kad_sample 1) kad_address []
    PeerConnected sample_table_wf) as (t' & He & [[_ ?]|(b & nodes & ? & _ & ? & _)]);
    exists t'; (split; [exact He|]); [by left|right; by exists b, nodes].
Defined.

Lemma closest_is_closest_witness :
  ∃ l, closest sample_table (key_of_peer (kad_sample 1)) 20 = take 20 l ∧
    StronglySorted (λ n m, (key_distance (key_of_peer (kad_sample 1)) (kad_key n) ≤
                            key_distance (key_of_peer (kad_sample 1)) (kad_key m))%N) l.
Proof.
  destruct (closest_is_closest sample_table (key_of_peer (kad_sample 1)) 20 sample_table_wf
    (key_of_peer_bound _)) as (l & Hl & Hs & _).
  exists l. split; [exact Hl|exact Hs].
Defined.
End sample_run.
