(* ===== verification/KademliaStore.v ===== *)
(** * Kademlia memory store

    [src/src/protocol/libp2p/kademlia/store.rs] and [record.rs]: the records and provider records
    a node keeps for others, and the keys it provides itself. The clock is an argument; the
    pending refreshes are the keys the refresh timers will deliver. *)

From stdpp Require Import base tactics option list gmap strings sorting.
From Stdlib Require Import ZArith NArith Lia Init.Byte.
From S2P Require Import Prelude Multiaddr AddressStore KademliaTypes.

Local Open Scope litep2p_scope.

Notation Instant := N (only parsing).
Notation RecordKey := (list byte) (only parsing).

(** ** Records *)

Record DhtRecord := mkDhtRecord {
  record_key : RecordKey;
  record_value : list byte;
  publisher : option PeerId;
  record_expires : option Instant;
}.

(** [Record::new] *)
Definition DhtRecord_new (k : RecordKey) (v : list byte) : DhtRecord := mkDhtRecord k v None None.

(** [Record::is_expired] *)
Definition record_is_expired (r : DhtRecord) (now : Instant) : bool :=
  match record_expires r with Some t => (t <=? now)%N | None => false end.

Record ProviderRecord := mkProviderRecord {
  provider_key : RecordKey;
  provider : PeerId;
  provider_addresses : list Multiaddr;
  provider_expires : Instant;
}.

#[export] Instance ProviderRecord_eq_dec : EqDecision ProviderRecord.
Proof. solve_decision. Defined.

(** [ProviderRecord::is_expired] *)
Definition provider_is_expired (r : ProviderRecord) (now : Instant) : bool :=
  (provider_expires r <=? now)%N.

Record ContentProvider := mkContentProvider {
  content_peer : PeerId;
  content_addresses : list Multiaddr;
}.

Inductive Quorum := QuorumAll | QuorumOne | QuorumN (n : N).

(** [slice::binary_search_by] on the keys of the elements: the loop of the standard library,
    at most [fuel] halvings. *)
Fixpoint search_loop {A} (key : A → N) (target : N) (l : list A) (fuel base size : nat) : nat :=
  match fuel with
  | 0 => base
  | S fuel =>
      if decide (1 < size) then
        let half := size / 2 in
        let mid := base + half in
        let base := match l !! mid with
                    | Some x => if (target <? key x)%N then base else mid
                    | None => base
                    end in
        search_loop key target l fuel base (size - half)
      else base
  end.

(** [Ok] with the position of an element with the key, or [Err] with the position where one
    belongs. *)
Definition binary_search {A} (key : A → N) (target : N) (l : list A) : result nat nat :=
  let base := search_loop key target l (length l) 0 (length l) in
  match l !! base with
  | None => Err 0
  | Some x =>
      if (key x =? target)%N then Ok base
      else Err (base + if (key x <? target)%N then 1 else 0)
  end.

(** [Vec::insert] *)
Definition vec_insert {A} (i : nat) (x : A) (l : list A) : list A := take i l ++ x :: drop i l.

(** ** The store *)

Record MemoryStoreConfig := mkMemoryStoreConfig {
  max_records : nat;
  max_record_size_bytes : nat;
  max_provider_keys : nat;
  max_provider_addresses : nat;
  max_providers_per_key : nat;
  provider_refresh_interval : N;
  provider_ttl : N;
}.

Record MemoryStore := mkMemoryStore {
  store_local : PeerId;
  store_config : MemoryStoreConfig;
  records : gmap RecordKey DhtRecord;
  provider_keys : gmap RecordKey (list ProviderRecord);
  local_providers : gmap RecordKey (ContentProvider * Quorum);
  pending_provider_refresh : list (Instant * RecordKey);
}.

(** [MemoryStore::with_config] *)
Definition MemoryStore_with_config (local : PeerId) (c : MemoryStoreConfig) : MemoryStore :=
  mkMemoryStore local c ∅ ∅ ∅ [].

Definition set_records s r :=
  mkMemoryStore (store_local s) (store_config s) r (provider_keys s) (local_providers s)
    (pending_provider_refresh s).
Definition set_provider_keys s p :=
  mkMemoryStore (store_local s) (store_config s) (records s) p (local_providers s)
    (pending_provider_refresh s).
Definition set_local_providers s p q :=
  mkMemoryStore (store_local s) (store_config s) (records s) (provider_keys s) p q.

(** [MemoryStore::get] *)
Definition store_get (s : MemoryStore) (now : Instant) (k : RecordKey) :
    MemoryStore * option DhtRecord :=
  match records s !! k with
  | Some r =>
      if record_is_expired r now then (set_records s (delete k (records s)), None)
      else (s, Some r)
  | None => (s, None)
  end.

(** [MemoryStore::put] *)
Definition store_put (s : MemoryStore) (r : DhtRecord) : MemoryStore :=
  if decide (max_record_size_bytes (store_config s) ≤ length (record_value r)) then s
  else
    match records s !! record_key r with
    | Some old =>
        match record_expires old, record_expires r with
        | Some stored_ttl, Some new_ttl =>
            if (new_ttl <? stored_ttl)%N then s
            else set_records s (<[record_key r := r]> (records s))
        | _, _ => set_records s (<[record_key r := r]> (records s))
        end
    | None =>
        if decide (max_records (store_config s) ≤ size (records s)) then s
        else set_records s (<[record_key r := r]> (records s))
    end.

Section providers.
Context `{Sha256, MultihashLib}.

(** [ProviderRecord::distance] *)
Definition peer_distance (k : RecordKey) (p : PeerId) : N := key_distance (key_of_peer p) (Key_new k).
Definition provider_distance (r : ProviderRecord) : N := peer_distance (provider_key r) (provider r).

Definition content_of (r : ProviderRecord) : ContentProvider :=
  mkContentProvider (provider r) (provider_addresses r).

(** [MemoryStore::get_providers] *)
Definition get_providers (s : MemoryStore) (now : Instant) (k : RecordKey) :
    MemoryStore * list ContentProvider :=
  let s :=
    match provider_keys s !! k with
    | None => s
    | Some ps =>
        let ps := filter (λ p, provider_is_expired p now = false) ps in
        set_provider_keys s (if decide (ps = []) then delete k (provider_keys s)
                             else <[k := ps]> (provider_keys s))
    end in
  let providers := content_of <$> default [] (provider_keys s !! k) in
  match local_providers s !! k with
  | None => (s, providers)
  | Some (local, _) =>
      let position := match binary_search (peer_distance k ∘ content_peer)
                              (peer_distance k (store_local s)) providers with
                      | Ok i => i
                      | Err i => i
                      end in
      (s, vec_insert position local providers)
  end.

(** [MemoryStore::put_provider] *)
Definition put_provider (s : MemoryStore) (now : Instant) (k : RecordKey) (p : ContentProvider) :
    MemoryStore * bool :=
  if decide (content_peer p = store_local s) then (s, false)
  else
    let r := mkProviderRecord k (content_peer p)
               (take (max_provider_addresses (store_config s)) (content_addresses p))
               (now + provider_ttl (store_config s))%N in
    let can_insert_new_key :=
      bool_decide (size (provider_keys s) < max_provider_keys (store_config s)) in
    match provider_keys s !! k with
    | None =>
        if can_insert_new_key then (set_provider_keys s (<[k := [r]]> (provider_keys s)), true)
        else (s, false)
    | Some ps =>
        match binary_search provider_distance (provider_distance r) ps with
        | Ok i => (set_provider_keys s (<[k := <[i := r]> ps]> (provider_keys s)), true)
        | Err i =>
            if decide (i = max_providers_per_key (store_config s)) then (s, false)
            else
              let ps := if decide (length ps = max_providers_per_key (store_config s))
                        then take (length ps - 1) ps else ps in
              (set_provider_keys s (<[k := vec_insert i r ps]> (provider_keys s)), true)
        end
    end.
End providers.

(** [MemoryStore::put_local_provider] *)
Definition put_local_provider (s : MemoryStore) (now : Instant) (k : RecordKey) (q : Quorum) :
    MemoryStore * bool :=
  let p := mkContentProvider (store_local s) [] in
  let accepted :=
    set_local_providers s (<[k := (p, q)]> (local_providers s))
      (pending_provider_refresh s ++
       [((now + provider_refresh_interval (store_config s))%N, k)]) in
  match local_providers s !! k with
  | Some _ => (accepted, true)
  | None =>
      if decide (size (local_providers s) < max_provider_keys (store_config s))
      then (accepted, true) else (s, false)
  end.

(** [MemoryStore::remove_local_provider] *)
Definition remove_local_provider (s : MemoryStore) (k : RecordKey) : MemoryStore :=
  set_local_providers s (delete k (local_providers s)) (pending_provider_refresh s).

(** [MemoryStoreAction::RefreshProvider] *)
Definition RefreshProvider : Type := RecordKey * ContentProvider * Quorum.

(** [MemoryStore::next_action], when the timer at position [i] of the pending refreshes is the
    next to deliver its key. *)
Definition next_action (s : MemoryStore) (i : nat) : MemoryStore * option RefreshProvider :=
  match pending_provider_refresh s !! i with
  | None => (s, None)
  | Some (_, k) =>
      let s := set_local_providers s (local_providers s)
                 (delete i (pending_provider_refresh s)) in
      match local_providers s !! k with
      | Some (p, q) => (s, Some (k, p, q))
      | None => (s, None)
      end
  end.

(** The refresh arm of [Kademlia::run]: a due provider is registered again. *)
Definition refresh_provider (s : MemoryStore) (now : Instant) (i : nat) : MemoryStore :=
  match next_action s i with
  | (s, Some (k, _, q)) => (put_local_provider s now k q).1
  | (s, None) => s
  end.

(** ** Binary search *)

Section search.
Context {A : Type} (key : A → N).
Implicit Types (l : list A).

Definition key_lt (x y : A) : Prop := (key x < key y)%N.

(** Everything from [hi] on is above the target; the element at [base] is not, unless it is
    the first. *)
Lemma search_loop_spec l t fuel : ∀ base size,
  StronglySorted key_lt l → 0 < size → base + size ≤ length l → size ≤ S fuel →
  (∀ x, l !! base = Some x → base = 0 ∨ (key x ≤ t)%N) →
  (∀ j x, base + size ≤ j → l !! j = Some x → (t < key x)%N) →
  let b := search_loop key t l fuel base size in
  b < length l ∧ (∀ x, l !! b = Some x → b = 0 ∨ (key x ≤ t)%N) ∧
  (∀ j x, b < j → l !! j = Some x → (t < key x)%N).
Proof.
  induction fuel as [|fuel IH]; intros base size Hs Hpos Hlen Hf Hlo Hhi;
    cbn [search_loop].
  { split_and!; [lia|done|]. intros j x Hj. apply Hhi. lia. }
  case_decide as Hsz; [|split_and!; [lia|done|]; intros j x Hj; apply Hhi; lia].
  assert (0 < size / 2 < size) as Hhalf.
  { split; [apply Nat.div_str_pos; lia|apply Nat.div_lt; lia]. }
  destruct (lookup_lt_is_Some_2 l (base + size / 2)) as [x Hx]; [lia|]. rewrite Hx.
  destruct (N.ltb_spec t (key x)) as [Hlt|Hge]; apply IH; try done; try lia.
  - intros j y Hj Hy. destruct (decide (base + size ≤ j)); [by eapply Hhi|].
    destruct (decide (j = base + size / 2)) as [->|Hne]; [congruence|].
    assert (size - size / 2 ≥ size / 2) by (pose proof (Nat.div_mod size 2); lia).
    pose proof (StronglySorted_lookup _ _ _ j x y Hs Hx Hy ltac:(lia)) as Hxy. unfold key_lt in Hxy. lia.
  - intros y Hy. right. congruence.
  - intros j y Hj. apply Hhi. lia.
Qed.

Lemma binary_search_spec l t : StronglySorted key_lt l →
  match binary_search key t l with
  | Ok i => ∃ x, l !! i = Some x ∧ key x = t
  | Err i => i ≤ length l ∧ (∀ x, x ∈ take i l → (key x < t)%N) ∧
             (∀ x, x ∈ drop i l → (t < key x)%N)
  end.
Proof.
  intros Hs. unfold binary_search. destruct (decide (l = [])) as [->|Hne].
  { simpl. split_and!; [lia|set_solver..]. }
  assert (0 < length l) as Hl by (destruct l; simpl; [done|lia]).
  destruct (search_loop_spec l t (length l) 0 (length l)) as (Hb & Hlo & Hhi); [done|lia..|auto| |].
  { intros j x Hj Hx. apply lookup_lt_Some in Hx. lia. }
  set (b := search_loop _ _ _ _ _ _) in *.
  destruct (lookup_lt_is_Some_2 l b Hb) as [x Hx]. rewrite Hx.
  destruct (N.eqb_spec (key x) t) as [|Hn]; [eauto|].
  assert (∀ i y, i ≤ b → y ∈ take i l → (key y < key x)%N) as Htake.
  { intros i y Hi [j Hj]%list_elem_of_lookup. apply lookup_take_Some in Hj as [Hj ?].
    apply (StronglySorted_lookup _ _ _ _ _ _ Hs Hj Hx). lia. }
  assert (∀ y, y ∈ drop (b + 1) l → (t < key y)%N) as Hdrop.
  { intros y [j Hj]%list_elem_of_lookup. rewrite lookup_drop in Hj. eapply (Hhi _ y); [|done]. lia. }
  destruct (N.ltb_spec (key x) t) as [Hlt|Hge].
  - split_and!; [lia| |done]. intros y Hy. rewrite Nat.add_1_r, (take_S_r _ _ x) in Hy by done.
    apply elem_of_app in Hy as [Hy| ->%list_elem_of_singleton]; [|done].
    apply Htake in Hy; [lia|done].
  - destruct (Hlo x Hx) as [Hb0|?]; [|lia]. rewrite Nat.add_0_r. split_and!; [lia| |].
    + rewrite Hb0. set_solver.
    + intros y Hy. rewrite <- (take_drop 1 (drop b l)) in Hy.
      apply elem_of_app in Hy as [Hy|Hy].
      * rewrite (drop_S l x b Hx) in Hy. simpl in Hy. rewrite take_0 in Hy.
        apply list_elem_of_singleton in Hy. subst. lia.
      * rewrite drop_drop in Hy. by apply Hdrop.
Qed.
End search.
