(* ===== verification/KademliaStoreFacts.v ===== *)
(** * Properties of the Kademlia memory store

    The store stays within its configured bounds, keeps the closest providers of a key sorted
    by distance, and returns what was put. *)

From stdpp Require Import base tactics option list gmap strings sorting.
From Stdlib Require Import ZArith NArith Lia Init.Byte.
From S2P Require Import Prelude Multiaddr AddressStore KademliaTypes KademliaStore.

Local Open Scope litep2p_scope.

(** ** Reference: the providers of a key, ordered by distance *)

Section reference.
Context `{Sha256, MultihashLib}.
Implicit Types (r : ProviderRecord) (ps : list ProviderRecord).

(** Insert a record, replacing one at the same distance. *)
Fixpoint insert_provider r ps : list ProviderRecord :=
  match ps with
  | [] => [r]
  | p :: ps =>
      match N.compare (provider_distance r) (provider_distance p) with
      | Lt => r :: p :: ps
      | Eq => r :: ps
      | Gt => p :: insert_provider r ps
      end
  end.

Definition closer_provider : relation ProviderRecord := key_lt provider_distance.

Lemma insert_provider_found r ps : ∀ i x,
  StronglySorted closer_provider ps → ps !! i = Some x →
  provider_distance x = provider_distance r → insert_provider r ps = <[i := r]> ps.
Proof.
  induction ps as [|p ps IH]; intros i x Hs Hi Heq; [done|].
  apply StronglySorted_inv in Hs as [Hs Hp]. rewrite Forall_forall in Hp.
  destruct i as [|i]; simpl in *.
  - injection Hi as <-. by rewrite Heq, N.compare_refl.
  - specialize (Hp x ltac:(by eapply list_elem_of_lookup_2)). unfold closer_provider, key_lt in Hp.
    rewrite Heq in Hp. destruct (N.compare_spec (provider_distance r) (provider_distance p)); [lia..|].
    f_equal. by eapply IH.
Qed.

Lemma insert_provider_absent r ps : ∀ i, i ≤ length ps →
  (∀ x, x ∈ take i ps → (provider_distance x < provider_distance r)%N) →
  (∀ x, x ∈ drop i ps → (provider_distance r < provider_distance x)%N) →
  insert_provider r ps = vec_insert i r ps.
Proof.
  induction ps as [|p ps IH]; intros i Hi Hlt Hgt; simpl in *.
  { assert (i = 0) as -> by lia. done. }
  destruct i as [|i]; simpl in *.
  - assert (provider_distance r < provider_distance p)%N as Hp by (apply Hgt; by left).
    apply N.compare_lt_iff in Hp. rewrite Hp. done.
  - assert (provider_distance p < provider_distance r)%N as Hp by (apply Hlt; by left).
    apply N.compare_gt_iff in Hp. rewrite Hp. unfold vec_insert. simpl. f_equal.
    apply IH; [lia| |done]. intros x Hx. apply Hlt. by right.
Qed.

Lemma insert_provider_elem r ps x : x ∈ insert_provider r ps → x = r ∨ x ∈ ps.
Proof.
  induction ps as [|p ps IH]; simpl; [set_solver|]. destruct (N.compare _ _); set_solver.
Qed.

Lemma insert_provider_sorted r ps :
  StronglySorted closer_provider ps → StronglySorted closer_provider (insert_provider r ps).
Proof.
  induction 1 as [|p ps Hs IH Hp]; simpl; [repeat constructor|]. rewrite Forall_forall in Hp.
  unfold closer_provider, key_lt in *.
  destruct (N.compare_spec (provider_distance r) (provider_distance p)) as [He|Hl|Hg].
  - constructor; [done|]. apply Forall_forall. intros x Hx. rewrite He. by apply Hp.
  - constructor; [constructor; [done|by apply Forall_forall]|]. apply Forall_forall.
    intros x [->|Hx]%elem_of_cons; [done|]. specialize (Hp x Hx). lia.
  - constructor; [done|]. apply Forall_forall. intros x [->|Hx]%insert_provider_elem; auto.
Qed.

Lemma insert_provider_length r ps : length (insert_provider r ps) ≤ S (length ps).
Proof. induction ps as [|p ps IH]; simpl; [lia|]. destruct (N.compare _ _); simpl; lia. Qed.

Lemma insert_provider_in r ps : r ∈ insert_provider r ps.
Proof. induction ps as [|p ps IH]; simpl; [set_solver|]. destruct (N.compare _ _); set_solver. Qed.

Lemma take_vec_insert {A} i (x : A) (l : list A) : i < length l →
  take (length l) (vec_insert i x l) = vec_insert i x (take (length l - 1) l).
Proof.
  intros Hi. unfold vec_insert. rewrite take_take, Nat.min_l by lia.
  rewrite take_app_ge by (rewrite length_take; lia). f_equal.
  rewrite length_take, Nat.min_l by lia. destruct (length l - i) as [|n] eqn:E; [lia|]. simpl.
  f_equal. rewrite skipn_firstn_comm. f_equal. lia.
Qed.
End reference.

(** ** Invariant *)

Section store_invariant.
Context `{Sha256, MultihashLib}.
Implicit Types (s : MemoryStore) (k : list byte).

Record providers_wf (c : MemoryStoreConfig) (local : PeerId) k (ps : list ProviderRecord) : Prop := {
  providers_nonempty : ps ≠ [];
  providers_sorted : StronglySorted closer_provider ps;
  providers_bound : length ps ≤ max_providers_per_key c;
  providers_each r : r ∈ ps → provider_key r = k ∧ provider r ≠ local ∧
    length (provider_addresses r) ≤ max_provider_addresses c;
}.

Record kad_store_wf s : Prop := {
  records_bound : size (records s) ≤ max_records (store_config s);
  records_each k r : records s !! k = Some r →
    record_key r = k ∧ length (record_value r) < max_record_size_bytes (store_config s);
  keys_bound : size (provider_keys s) ≤ max_provider_keys (store_config s);
  keys_each k ps : provider_keys s !! k = Some ps → providers_wf (store_config s) (store_local s) k ps;
  locals_bound : size (local_providers s) ≤ max_provider_keys (store_config s);
  locals_each k p q : local_providers s !! k = Some (p, q) → p = mkContentProvider (store_local s) [];
}.

Lemma with_config_wf local c : kad_store_wf (MemoryStore_with_config local c).
Proof. split; simpl; rewrite ?map_size_empty; try lia; intros *; by rewrite lookup_empty. Qed.

Lemma size_insert_le {K A} `{Countable K} (m : gmap K A) (k : K) (x : A) n :
  size m ≤ n → (m !! k = None → size m < n) → size (<[k := x]> m) ≤ n.
Proof. intros Hm Hk. rewrite map_size_insert. destruct (m !! k); simpl; [done|]. by apply Hk. Qed.

Lemma size_delete_le {K A} `{Countable K} (m : gmap K A) (k : K) : size (delete k m) ≤ size m.
Proof. rewrite map_size_delete. destruct (m !! k); simpl; lia. Qed.

Lemma store_get_wf s now k : kad_store_wf s → kad_store_wf (store_get s now k).1.
Proof.
  intros [R1 R2 K1 K2 L1 L2]. unfold store_get. destruct (records s !! k) as [r|]; [|done].
  destruct (record_is_expired r now); [|done]. split; simpl; try done.
  - pose proof (size_delete_le (records s) k). lia.
  - intros k' r' [_ ?]%lookup_delete_Some. eauto.
Qed.

Lemma insert_record_wf s r : kad_store_wf s →
  length (record_value r) < max_record_size_bytes (store_config s) →
  (records s !! record_key r = None → size (records s) < max_records (store_config s)) →
  kad_store_wf (set_records s (<[record_key r := r]> (records s))).
Proof.
  intros [R1 R2 K1 K2 L1 L2] Hv Hn. split; simpl; try done; [by apply size_insert_le|].
  intros k r' [[<- <-]|[_ ?]]%lookup_insert_Some; eauto.
Qed.

Lemma store_put_wf s r : kad_store_wf s → kad_store_wf (store_put s r).
Proof.
  intros Hwf. unfold store_put. case_decide; [done|].
  destruct (records s !! record_key r) as [old|] eqn:E.
  - assert (kad_store_wf (set_records s (<[record_key r := r]> (records s)))) as Hi.
    { apply insert_record_wf; [done|lia|congruence]. }
    repeat case_match; done.
  - case_decide; [done|]. apply insert_record_wf; [done|lia|]. intros _. lia.
Qed.

Lemma filter_providers_wf c local k ps now :
  providers_wf c local k ps → filter (λ p, provider_is_expired p now = false) ps ≠ [] →
  providers_wf c local k (filter (λ p, provider_is_expired p now = false) ps).
Proof.
  intros [P1 P2 P3 P4] Hne. split; [done|by apply StronglySorted_filter| |].
  - pose proof (length_filter (λ p, provider_is_expired p now = false) ps). lia.
  - intros r [_ ?]%list_elem_of_filter. by apply P4.
Qed.

(** Replace the providers of one key. *)
Lemma set_providers_wf s k ps : kad_store_wf s → providers_wf (store_config s) (store_local s) k ps →
  (provider_keys s !! k = None → size (provider_keys s) < max_provider_keys (store_config s)) →
  kad_store_wf (set_provider_keys s (<[k := ps]> (provider_keys s))).
Proof.
  intros [R1 R2 K1 K2 L1 L2] Hp Hn. split; simpl; try done; [by apply size_insert_le|].
  intros k' ps' [[<- <-]|[_ ?]]%lookup_insert_Some; [done|]. by apply K2.
Qed.

Lemma get_providers_wf s now k : kad_store_wf s → kad_store_wf (get_providers s now k).1.
Proof.
  intros Hwf. unfold get_providers.
  set (s' := match provider_keys s !! k with Some _ => _ | None => _ end).
  enough (kad_store_wf s') by (repeat case_match; done). unfold s'.
  destruct (provider_keys s !! k) as [ps|] eqn:E; [|done]. case_decide as He.
  - destruct Hwf as [R1 R2 K1 K2 L1 L2]. split; simpl; try done.
    + pose proof (size_delete_le (provider_keys s) k). lia.
    + intros k' ps' [_ ?]%lookup_delete_Some. by apply K2.
  - apply set_providers_wf; [done| |congruence].
    apply filter_providers_wf; [by eapply keys_each|done].
Qed.

(** The record [put_provider] makes of a provider. *)
Definition new_provider s (now : N) k (p : ContentProvider) : ProviderRecord :=
  mkProviderRecord k (content_peer p)
    (take (max_provider_addresses (store_config s)) (content_addresses p))
    (now + provider_ttl (store_config s))%N.

(** [put_provider] on a known key keeps the closest providers. *)
Lemma put_provider_known s now k p ps :
  kad_store_wf s → content_peer p ≠ store_local s → provider_keys s !! k = Some ps →
  let r := new_provider s now k p in
  let kept := take (max_providers_per_key (store_config s)) (insert_provider r ps) in
  put_provider s now k p =
    (if decide (r ∈ kept) then set_provider_keys s (<[k := kept]> (provider_keys s)) else s,
     bool_decide (r ∈ kept)).
Proof.
  intros Hwf Hp Hk r kept. destruct (keys_each s Hwf k ps Hk) as [Hne Hs Hb He].
  unfold put_provider. rewrite decide_False by done. fold (new_provider s now k p). fold r.
  rewrite Hk. pose proof (binary_search_spec provider_distance ps (provider_distance r) Hs) as Hbs.
  destruct (binary_search _ _ _) as [i|i].
  - destruct Hbs as (x & Hx & Heq). pose proof (insert_provider_found r ps i x Hs Hx Heq) as Hi.
    assert (kept = <[i := r]> ps) as ->.
    { unfold kept. rewrite Hi, take_ge; [done|]. by rewrite length_insert. }
    assert (r ∈ <[i := r]> ps).
    { apply (list_elem_of_lookup_2 _ i). apply list_lookup_insert_eq. by eapply lookup_lt_Some. }
    by rewrite decide_True, bool_decide_true.
  - destruct Hbs as (Hi & Hlt & Hgt). pose proof (insert_provider_absent r ps i Hi Hlt Hgt) as Hv.
    assert (∀ l : list ProviderRecord, (∀ x, x ∈ l → x ∈ ps) → r ∉ l) as Hnot.
    { intros l Hl Hr. apply Hl in Hr. rewrite <- (take_drop i ps) in Hr.
      apply elem_of_app in Hr as [Hr|Hr]; [apply Hlt in Hr|apply Hgt in Hr]; lia. }
    case_decide as Hmax.
    + assert (kept = ps) as ->.
      { unfold kept. rewrite Hv. unfold vec_insert. assert (i = length ps) as -> by lia.
        rewrite firstn_all, drop_all, take_app_length' by lia. done. }
      assert (r ∉ ps) by (by apply Hnot). by rewrite decide_False, bool_decide_false.
    + assert (kept = vec_insert i r (if decide (length ps = max_providers_per_key (store_config s))
                then take (length ps - 1) ps else ps)) as ->.
      { unfold kept. rewrite Hv. case_decide as Hl.
        - rewrite <- Hl. apply take_vec_insert. lia.
        - apply take_ge. unfold vec_insert. rewrite length_app, length_take. simpl.
          rewrite length_drop. lia. }
      set (ps' := if decide _ then _ else _).
      assert (r ∈ vec_insert i r ps') by (unfold vec_insert; set_solver).
      by rewrite decide_True, bool_decide_true.
Qed.

Lemma take_insert_wf s now k p ps :
  kad_store_wf s → content_peer p ≠ store_local s → provider_keys s !! k = Some ps →
  let kept := take (max_providers_per_key (store_config s))
                (insert_provider (new_provider s now k p) ps) in
  new_provider s now k p ∈ kept → providers_wf (store_config s) (store_local s) k kept.
Proof.
  intros Hwf Hp Hk kept Hin. destruct (keys_each s Hwf k ps Hk) as [Hne Hs Hb He]. split.
  - intros E. rewrite E in Hin. set_solver.
  - apply StronglySorted_take. by apply insert_provider_sorted.
  - unfold kept. rewrite length_take. lia.
  - intros r Hr%subseteq_take. apply insert_provider_elem in Hr as [->|Hr]; [|by apply He].
    simpl. split_and!; [done..|]. rewrite length_take. lia.
Qed.

Lemma put_provider_wf s now k p : kad_store_wf s → 0 < max_providers_per_key (store_config s) →
  kad_store_wf (put_provider s now k p).1.
Proof.
  intros Hwf Hmax. destruct (decide (content_peer p = store_local s)) as [E|Hp].
  { unfold put_provider. by rewrite decide_True. }
  destruct (provider_keys s !! k) as [ps|] eqn:Hk.
  - rewrite (put_provider_known s now k p ps) by done. simpl. case_decide as Hin; [|done].
    apply set_providers_wf; [done| |congruence]. by apply take_insert_wf.
  - unfold put_provider. rewrite decide_False, Hk by done. fold (new_provider s now k p).
    destruct (bool_decide _) eqn:Hsz; [|done]. apply bool_decide_eq_true in Hsz. simpl.
    apply set_providers_wf; [done| |done]. split; [done|repeat constructor|simpl; lia|].
    intros r ->%list_elem_of_singleton. simpl. split_and!; [done..|]. rewrite length_take. lia.
Qed.

Lemma put_local_provider_wf s now k q : kad_store_wf s →
  kad_store_wf (put_local_provider s now k q).1.
Proof.
  intros [R1 R2 K1 K2 L1 L2]. unfold put_local_provider.
  assert (∀ l, (local_providers s !! k = None → size (local_providers s) < max_provider_keys (store_config s)) →
    kad_store_wf (set_local_providers s
      (<[k := (mkContentProvider (store_local s) [], q)]> (local_providers s)) l)) as Hi.
  { intros l Hn. split; simpl; try done; [by apply size_insert_le|].
    intros k' p' q' [[<- [= <- _]]|[_ ?]]%lookup_insert_Some; eauto. }
  destruct (local_providers s !! k) eqn:E; [by apply Hi|].
  case_decide; [|done]. by apply Hi.
Qed.

Lemma remove_local_provider_wf s k : kad_store_wf s → kad_store_wf (remove_local_provider s k).
Proof.
  intros [R1 R2 K1 K2 L1 L2]. split; simpl; try done.
  - pose proof (size_delete_le (local_providers s) k). lia.
  - intros k' p q [_ ?]%lookup_delete_Some. eauto.
Qed.

Lemma refresh_provider_wf s now i : kad_store_wf s → kad_store_wf (refresh_provider s now i).
Proof.
  intros Hwf. unfold refresh_provider, next_action.
  destruct (pending_provider_refresh s !! i) as [[t k]|]; [|done].
  assert (kad_store_wf (set_local_providers s (local_providers s)
    (delete i (pending_provider_refresh s)))) as Hd by (by destruct Hwf).
  simpl. destruct (local_providers s !! k) as [[p q]|]; [|done]. by apply put_local_provider_wf.
Qed.

(** The calls of the Kademlia event loop. *)
Inductive StoreOp :=
| StoreGet (now : N) (k : list byte)
| StorePut (r : DhtRecord)
| StoreGetProviders (now : N) (k : list byte)
| StorePutProvider (now : N) (k : list byte) (p : ContentProvider)
| StorePutLocal (now : N) (k : list byte) (q : Quorum)
| StoreRemoveLocal (k : list byte)
| StoreRefresh (now : N) (i : nat).

Definition store_step s (op : StoreOp) : MemoryStore :=
  match op with
  | StoreGet now k => (store_get s now k).1
  | StorePut r => store_put s r
  | StoreGetProviders now k => (get_providers s now k).1
  | StorePutProvider now k p => (put_provider s now k p).1
  | StorePutLocal now k q => (put_local_provider s now k q).1
  | StoreRemoveLocal k => remove_local_provider s k
  | StoreRefresh now i => refresh_provider s now i
  end.

Lemma store_step_config s op : store_config (store_step s op) = store_config s.
Proof.
  destruct op; simpl;
    unfold store_get, store_put, get_providers, put_provider, put_local_provider,
      refresh_provider, next_action; repeat case_match; simplify_eq; try done;
    unfold put_local_provider; by repeat case_match.
Qed.

Lemma store_step_wf s op : kad_store_wf s → 0 < max_providers_per_key (store_config s) →
  kad_store_wf (store_step s op).
Proof.
  intros Hwf Hmax. destruct op; simpl.
  - by apply store_get_wf.
  - by apply store_put_wf.
  - by apply get_providers_wf.
  - by apply put_provider_wf.
  - by apply put_local_provider_wf.
  - by apply remove_local_provider_wf.
  - by apply refresh_provider_wf.
Qed.

Lemma store_run_wf ops : ∀ s, kad_store_wf s → 0 < max_providers_per_key (store_config s) →
  kad_store_wf (foldl store_step s ops).
Proof.
  induction ops as [|op ops IH]; intros s Hwf Hmax; simpl; [done|].
  apply IH; [by apply store_step_wf|by rewrite store_step_config].
Qed.
End store_invariant.

(** ** Properties *)

(** C36. Whatever records and providers arrive, a store that is configured to keep at least one
    provider per key stays within its configuration: the
    number of records, their size, the number of provided keys, of providers per key and of
    addresses per provider are bounded, the providers of a key are sorted by distance, and
    the local peer is never stored as a remote provider. *)
Theorem store_within_bounds `{Sha256, MultihashLib} local c (ops : list StoreOp) :
  0 < max_providers_per_key c →
  kad_store_wf (foldl store_step (MemoryStore_with_config local c) ops).
Proof.
  intros Hmax. by apply store_run_wf; [apply with_config_wf|].
Qed.

(** A store that is configured to keep no providers has no such bound: the first provider of a
    key is stored, and so is every further one that is not the closest, without any being removed. *)
Lemma zero_limit_grows `{Sha256, MultihashLib} s now k p :
  max_providers_per_key (store_config s) = 0 → content_peer p ≠ store_local s →
  let r := new_provider s now k p in
  (provider_keys s !! k = None → size (provider_keys s) < max_provider_keys (store_config s) →
   provider_keys (put_provider s now k p).1 !! k = Some [r]) ∧
  ∀ ps i, provider_keys s !! k = Some ps → ps ≠ [] → binary_search provider_distance (provider_distance r) ps = Err (S i) →
    provider_keys (put_provider s now k p).1 !! k = Some (vec_insert (S i) r ps).
Proof.
  intros Hmax Hp r. unfold put_provider. rewrite decide_False by done. split.
  - intros -> Hs. rewrite bool_decide_true by done. apply lookup_insert_eq.
  - intros ps i -> Hne. unfold r, new_provider. intros ->. rewrite Hmax, decide_False by done.
    rewrite decide_False by (by destruct ps). apply lookup_insert_eq.
Qed.

(** C29. Adding a remote provider for a stored key is the same as inserting it into the
    distance-ordered list of providers (replacing the record at its distance, if any) and
    keeping the closest [max_providers_per_key]; the result tells whether it was kept. *)
Theorem put_provider_keeps_closest `{Sha256, MultihashLib} s now k p ps :
  kad_store_wf s → content_peer p ≠ store_local s → provider_keys s !! k = Some ps →
  let r := new_provider s now k p in
  let kept := take (max_providers_per_key (store_config s)) (insert_provider r ps) in
  put_provider s now k p =
    (if decide (r ∈ kept) then set_provider_keys s (<[k := kept]> (provider_keys s)) else s,
     bool_decide (r ∈ kept)).
Proof. apply put_provider_known. Qed.

Lemma vec_insert_perm {A} i (x : A) l : vec_insert i x l ≡ₚ x :: l.
Proof. unfold vec_insert. by rewrite <- Permutation_middle, take_drop. Qed.

Lemma vec_insert_sorted {A} (key : A → N) i x l :
  StronglySorted (λ a b, (key a ≤ key b)%N) l →
  (∀ y, y ∈ take i l → (key y ≤ key x)%N) → (∀ y, y ∈ drop i l → (key x ≤ key y)%N) →
  StronglySorted (λ a b, (key a ≤ key b)%N) (vec_insert i x l).
Proof.
  intros Hs Ht Hd. unfold vec_insert. rewrite <- (take_drop i l) in Hs.
  apply StronglySorted_app in Hs as (Hc & H1 & H2). apply StronglySorted_app_2; [|done|].
  - intros a b Ha [->|Hb]%elem_of_cons; [by apply Ht|by apply Hc].
  - constructor; [done|]. apply Forall_forall. by apply Hd.
Qed.

(** [get_providers] returns the providers of the key that have not expired, together with
    the local node exactly when it provides the key, sorted by distance from the key; it
    forgets the expired ones. *)
Theorem get_providers_spec `{Sha256, MultihashLib} s now k :
  kad_store_wf s →
  let fresh := filter (λ p, provider_is_expired p now = false) (default [] (provider_keys s !! k)) in
  let '(s', l) := get_providers s now k in
  StronglySorted (λ a b, (peer_distance k (content_peer a) ≤ peer_distance k (content_peer b))%N) l ∧
  l ≡ₚ option_list (fst <$> local_providers s !! k) ++ (content_of <$> fresh) ∧
  default [] (provider_keys s' !! k) = fresh.
Proof.
  intros Hwf fresh. unfold get_providers.
  set (s' := match provider_keys s !! k with Some _ => _ | None => _ end).
  assert (default [] (provider_keys s' !! k) = fresh ∧ local_providers s' = local_providers s ∧
          store_local s' = store_local s) as (Hf & Hl & Hloc).
  { unfold s', fresh. destruct (provider_keys s !! k) as [ps|] eqn:E; simpl; [|by rewrite E].
    split_and!; [|done..]. case_decide as He.
    - by rewrite lookup_delete_eq, He.
    - by rewrite lookup_insert_eq. }
  assert (Hs : StronglySorted (key_lt (peer_distance k ∘ content_peer)) (content_of <$> fresh)).
  { apply StronglySorted_fmap. unfold fresh.
    destruct (provider_keys s !! k) as [ps|] eqn:E; simpl; [|constructor].
    destruct (keys_each s Hwf k ps E) as [_ Hps _ Heach].
    eapply StronglySorted_impl_elem; [|by apply StronglySorted_filter].
    intros x y [_ Hx]%list_elem_of_filter [_ Hy]%list_elem_of_filter.
    unfold closer_provider, key_lt, provider_distance. simpl.
    by destruct (Heach x Hx) as [-> _], (Heach y Hy) as [-> _]. }
  assert (StronglySorted (λ a b, (peer_distance k (content_peer a) ≤
            peer_distance k (content_peer b))%N) (content_of <$> fresh)) as Hle.
  { eapply StronglySorted_impl_elem; [|exact Hs]. intros x y _ _. unfold key_lt. simpl. lia. }
  rewrite Hl, Hf. destruct (local_providers s !! k) as [[p q]|] eqn:Hk; simpl; [|done].
  rewrite Hloc. assert (content_peer p = store_local s) as Hp.
  { by rewrite (locals_each s Hwf k p q Hk). }
  split_and!; [|by rewrite vec_insert_perm|done].
  pose proof (binary_search_spec _ _ (peer_distance k (store_local s)) Hs) as Hb.
  apply (vec_insert_sorted (peer_distance k ∘ content_peer)); [done|..]; simpl; rewrite Hp.
  - destruct (binary_search _ _ _) as [i|i]; intros y Hy; [|apply Hb in Hy; simpl in Hy; lia].
    destruct Hb as (x & Hx & Heq). apply list_elem_of_lookup in Hy as [j Hj].
    apply lookup_take_Some in Hj as [Hj ?].
    pose proof (StronglySorted_lookup _ _ _ _ _ _ Hs Hj Hx ltac:(done)) as Hlt.
    unfold key_lt in Hlt. simpl in *. lia.
  - destruct (binary_search _ _ _) as [i|i]; intros y Hy; [|apply Hb in Hy; simpl in Hy; lia].
    destruct Hb as (x & Hx & Heq). rewrite (drop_S _ _ _ Hx) in Hy.
    apply elem_of_cons in Hy as [->|Hy]; [simpl in Heq; lia|].
    apply list_elem_of_lookup in Hy as [j Hj]. rewrite lookup_drop in Hj.
    pose proof (StronglySorted_lookup _ _ _ _ _ _ Hs Hx Hj ltac:(lia)) as Hlt.
    unfold key_lt in Hlt. simpl in *. lia.
Qed.

(** The store takes the record: it is small enough, and it is at least as fresh as the stored
    one, or there is room for a new key. *)
Definition accepts (s : MemoryStore) (r : DhtRecord) : Prop :=
  length (record_value r) < max_record_size_bytes (store_config s) ∧
  match records s !! record_key r with
  | Some old => ∀ t t', record_expires old = Some t → record_expires r = Some t' → (t ≤ t')%N
  | None => size (records s) < max_records (store_config s)
  end.

(** An accepted record is returned by [get] until it expires, a record that is not
    accepted changes nothing, and other keys are never affected; once expired, a record is
    not returned and is dropped. *)
Theorem store_put_get s r k now :
  let s' := store_put s r in
  (accepts s r → (store_get s' now (record_key r)).2 =
                 if record_is_expired r now then None else Some r) ∧
  (¬ accepts s r → s' = s) ∧
  (k ≠ record_key r → (store_get s' now k).2 = (store_get s now k).2) ∧
  ((store_get s' now k).2 = None → records (store_get s' now k).1 !! k = None).
Proof.
  intros s'. assert (s' = set_records s (<[record_key r := r]> (records s)) ∧ accepts s r ∨
                     s' = s ∧ ¬ accepts s r) as Hcases.
  { unfold s', store_put, accepts. case_decide; [right; split; [done|lia]|].
    destruct (records s !! record_key r) as [old|].
    - destruct (record_expires old) as [t|]; [|by left; split; [|split; [lia|]]].
      destruct (record_expires r) as [t'|]; [|by left; split; [|split; [lia|]]].
      destruct (N.ltb_spec t' t).
      + right. split; [done|]. intros [_ Hx]. specialize (Hx t t' eq_refl eq_refl). lia.
      + left. split; [done|]. split; [lia|]. by intros ? ? [= <-] [= <-].
    - case_decide; [right; split; [done|lia]|left; split; [done|lia]]. }
  split_and!.
  - intros Ha. destruct Hcases as [[-> _]|[_ ?]]; [|done]. unfold store_get. simpl.
    rewrite lookup_insert_eq. by destruct (record_is_expired r now).
  - intros Hn. by destruct Hcases as [[_ ?]|[? _]].
  - intros Hk. destruct Hcases as [[-> _]|[-> _]]; [|done]. unfold store_get. simpl.
    rewrite lookup_insert_ne by done. by repeat case_match.
  - unfold store_get. destruct (records s' !! k) eqn:E; [|done].
    destruct (record_is_expired _ now); [|done]. intros _. apply lookup_delete_eq.
Qed.

(** ** Refreshes of a provided key *)

(** What happens to a node that provides [k]: it is asked again to provide [k], or the timer
    at position [i] fires. *)
Inductive ProvideStep := ProvideAgain (now : N) (q : Quorum) | TimerFires (now : N) (i : nat).

Definition provide_step (k : list byte) (s : MemoryStore) (st : ProvideStep) : MemoryStore :=
  match st with
  | ProvideAgain now q => (put_local_provider s now k q).1
  | TimerFires now i => refresh_provider s now i
  end.

Definition is_provide (st : ProvideStep) : Prop :=
  match st with ProvideAgain _ _ => True | TimerFires _ _ => False end.

#[export] Instance is_provide_dec st : Decision (is_provide st).
Proof. destruct st; apply _. Defined.

(** The refresh timers running for [k]. *)
Definition timers (k : list byte) (s : MemoryStore) : nat :=
  length (filter (λ tk, tk.2 = k) (pending_provider_refresh s)).

Lemma put_local_timers s now k k' q :
  is_Some (local_providers s !! k) →
  timers k (put_local_provider s now k' q).1 =
    timers k s + (if decide (k' = k) then
                    if decide (is_Some (local_providers s !! k')) then 1 else 0 else 0) ∧
  is_Some (local_providers (put_local_provider s now k' q).1 !! k).
Proof.
  intros Hk. unfold put_local_provider, timers.
  destruct (decide (k' = k)) as [->|Hne].
  - destruct Hk as [x Hx]. rewrite Hx. simpl. rewrite filter_app, length_app, lookup_insert_eq.
    rewrite filter_cons_True by done. simpl. by split; [|eexists].
  - assert (∀ l, filter (λ tk : N * list byte, tk.2 = k) (l ++ [((now +
      provider_refresh_interval (store_config s))%N, k')]) = filter (λ tk, tk.2 = k) l) as Hf.
    { intros l. rewrite filter_app, filter_cons_False, filter_nil, app_nil_r by done. done. }
    destruct (local_providers s !! k'); [|case_decide]; simpl; rewrite ?Hf, ?lookup_insert_ne by done;
      split; (lia || done).
Qed.

Lemma filter_delete {A} (P : A → Prop) `{∀ x, Decision (P x)} (l : list A) i x :
  l !! i = Some x →
  length (filter P (delete i l)) + (if decide (P x) then 1 else 0) = length (filter P l).
Proof.
  intros Hi. rewrite delete_take_drop, filter_app, length_app.
  rewrite <- (take_drop_middle l i x Hi) at 3. rewrite filter_app, length_app, filter_cons.
  case_decide; simpl; lia.
Qed.

Lemma refresh_timers s now i k :
  is_Some (local_providers s !! k) →
  timers k (refresh_provider s now i) = timers k s ∧
  is_Some (local_providers (refresh_provider s now i) !! k).
Proof.
  intros Hk. unfold refresh_provider, next_action.
  destruct (pending_provider_refresh s !! i) as [[t k']|] eqn:Hi; [|done]. simpl.
  set (s' := set_local_providers s (local_providers s) (delete i (pending_provider_refresh s))).
  assert (timers k s' + (if decide (k' = k) then 1 else 0) = timers k s) as Ht.
  { unfold timers, s'. simpl. rewrite <- (filter_delete _ _ _ _ Hi). simpl. done. }
  assert (local_providers s' = local_providers s) as Hl by done.
  destruct (local_providers s !! k') as [[p q]|] eqn:Hk'.
  - destruct (put_local_timers s' now k k' q) as [Hp Hs]; [by rewrite Hl|].
    split; [|done]. rewrite Hp. case_decide; [|lia].
    rewrite Hl, decide_True by (by eexists). lia.
  - split; [|done]. rewrite decide_False in Ht; [lia|]. intros ->. destruct Hk. congruence.
Qed.

(** Every renewed request to provide a key adds a refresh timer for good: a timer that
    fires is replaced by a new one, so after [n] renewals [n] more timers republish the same
    key every interval. *)
Theorem refresh_timers_accumulate s k (steps : list ProvideStep) :
  is_Some (local_providers s !! k) →
  timers k (foldl (provide_step k) s steps) = timers k s + length (filter is_provide steps).
Proof.
  revert s. induction steps as [|st steps IH]; intros s Hk; simpl; [lia|].
  destruct st as [now q|now i].
  - destruct (put_local_timers s now k k q Hk) as [Ht Hs]. rewrite !decide_True in Ht by done.
    rewrite IH, filter_cons_True by done. simpl. lia.
  - destruct (refresh_timers s now i k Hk) as [Ht Hs].
    rewrite IH, filter_cons_False by (done || naive_solver). simpl. lia.
Qed.

(** ** Witnesses *)

Section store_samples.
#[local] Existing Instance toy_sha256.
#[local] Existing Instance toy_multihash.

Definition store_sample_config : MemoryStoreConfig := mkMemoryStoreConfig 2 16 2 1 2 10 100.

Definition store_peer (n : nat) : PeerId :=
  mkPeerId (mkMultihash MULTIHASH_IDENTITY_CODE (replicate n Byte.x00)).

Definition sample_memory_store : MemoryStore :=
  foldl store_step (MemoryStore_with_config (store_peer 0) store_sample_config)
    [StorePutProvider 0 [Byte.x01] (mkContentProvider (store_peer 1) []);
     StorePutProvider 0 [Byte.x01] (mkContentProvider (store_peer 2) []);
     StorePutLocal 0 [Byte.x01] QuorumOne].

Lemma store_within_bounds_witness : kad_store_wf sample_memory_store.
Proof. apply (store_within_bounds (store_peer 0) store_sample_config). simpl. lia. Defined.

Lemma sample_memory_store_wf : kad_store_wf sample_memory_store.
Proof.
  apply store_run_wf; [apply with_config_wf|]. simpl. lia.
Qed.

Lemma put_provider_keeps_closest_witness :
  ∃ ps, provider_keys sample_memory_store !! [Byte.x01] = Some ps ∧
    (put_provider sample_memory_store 5 [Byte.x01] (mkContentProvider (store_peer 3) [])).2 =
    bool_decide (new_provider sample_memory_store 5 [Byte.x01] (mkContentProvider (store_peer 3) []) ∈
      take 2 (insert_provider (new_provider sample_memory_store 5 [Byte.x01]
        (mkContentProvider (store_peer 3) [])) ps)).
Proof.
  destruct (provider_keys sample_memory_store !! [Byte.x01]) as [ps|] eqn:E; [|discriminate E].
  exists ps. split; [reflexivity|].
  rewrite (put_provider_keeps_closest sample_memory_store 5 [Byte.x01]
    (mkContentProvider (store_peer 3) []) ps sample_memory_store_wf ltac:(discriminate) E).
  reflexivity.
Defined.

Lemma get_providers_spec_witness :
  let '(s', l) := get_providers sample_memory_store 5 [Byte.x01] in
  length l = 3 ∧
  StronglySorted (λ a b, (peer_distance [Byte.x01] (content_peer a) ≤
                          peer_distance [Byte.x01] (content_peer b))%N) l.
Proof.
  assert (length (get_providers sample_memory_store 5 [Byte.x01]).2 = 3) as Hl by (by vm_compute).
  pose proof (get_providers_spec sample_memory_store 5 [Byte.x01] sample_memory_store_wf) as Hg.
  destruct (get_providers _ _ _) as [s' l]. split; [exact Hl|apply Hg].
Defined.

Lemma refresh_timers_accumulate_witness :
  timers [Byte.x01] (foldl (provide_step [Byte.x01]) sample_memory_store
    [ProvideAgain 1 QuorumOne; TimerFires 10 0; TimerFires 11 0; ProvideAgain 12 QuorumOne]) = 3.
Proof.
  rewrite (refresh_timers_accumulate sample_memory_store [Byte.x01]);
    [by vm_compute|by eexists].
Defined.
End store_samples.
