(* ===== verification/KademliaCommands.v ===== *)
(** * Targets of a record sent to chosen peers

    The [PutRecordToPeers] command of [Kademlia::run]
    ([src/src/protocol/libp2p/kademlia/mod.rs]): the nodes of the routing table the record is
    sent to. *)

From stdpp Require Import base tactics option list gmap strings sorting.
From Stdlib Require Import ZArith NArith Lia Init.Byte.
From S2P Require Import Prelude Multiaddr AddressStore PeerState KademliaTypes KBucket.
From S2P Require Import RoutingTable RoutingTableClosest RoutingTableInvariant.

Local Open Scope litep2p_scope.

Section targets.
Context `{IpNetwork, HashOrder, Sha256, MultihashLib}.

(** The [filter_map] over the peers, each with the random identifier a lookup may draw. *)
Fixpoint put_record_targets (local : PeerId) (t : RoutingTable) (peers : list (PeerId * PeerId)) :
    outcome (RoutingTable * list KademliaPeer) :=
  match peers with
  | [] => Done (t, [])
  | (p, random) :: peers =>
      if decide (p = local) then put_record_targets local t peers
      else
        run (t, b, e) <- table_entry random t (key_of_peer p) ;;
        let target :=
          match e with
          | Occupied i => bucket_at t b !! i
          | Vacant i =>
              match bucket_at t b !! i with
              | Some n => if store_is_empty (address_store n) then None else Some n
              | None => None
              end
          | LocalNode | NoSlot => None
          end in
        run (t, targets) <- put_record_targets local t peers ;;
        Done (t, option_list target ++ targets)
  end.

(** A bucket is full of other peers, which have addresses, and one of them is not connected. *)
Definition full_of_others (t : RoutingTable) (b : nat) (p : PeerId) : Prop :=
  ilog2 (key_distance (local_key t) (key_of_peer p)) = Some (N.of_nat b) ∧
  BUCKET_SIZE ≤ length (bucket_at t b) ∧
  (∀ n, n ∈ bucket_at t b → has_addresses n ∧ key_bytes (kad_key n) ≠ key_bytes (key_of_peer p)) ∧
  ∃ n, n ∈ bucket_at t b ∧ replaceable n = true.

Lemma ilog2_unique t p b b' :
  ilog2 (key_distance (local_key t) (key_of_peer p)) = Some (N.of_nat b) →
  ilog2 (key_distance (local_key t) (key_of_peer p)) = Some (N.of_nat b') → b = b'.
Proof. intros -> [= ?]. lia. Qed.
End targets.

(** A record to be stored at a chosen peer can be sent to another peer: when the peer is
    not in the routing table and its bucket is full, the vacant entry the lookup returns is
    the node that would be evicted, and the record goes to that node instead. *)
Theorem put_record_to_wrong_peer `{IpNetwork, HashOrder, Sha256, MultihashLib} local t p random b :
  table_wf t → p ≠ local → full_of_others t b p →
  ∃ n, put_record_targets local t [(p, random)] = Done (t, [n]) ∧
       n ∈ bucket_at t b ∧ key_bytes (kad_key n) ≠ key_bytes (key_of_peer p).
Proof.
  intros Hwf Hp (Hb & Hfull & Hothers & m & Hm & Hr). cbn [put_record_targets].
  rewrite decide_False by done.
  destruct (table_entry_spec random t (key_of_peer p) Hwf (key_of_peer_bound p))
    as (t' & b' & e & -> & Hwf' & He). cbn [outcome_bind].
  destruct He as [Hz|b' nodes e Hlt Hd Hpost]; [by rewrite Hz in Hb|].
  pose proof (ilog2_unique t p b b' Hb Hd). subst b'. clear Hd.
  inversion Hpost as [i n Hi Hk Hf|n _ Hl|i n Hk Hl Hi Hr'|_ _ Hr']; simplify_eq.
  - destruct (Hothers n) as [_ ?]; [by eapply list_elem_of_lookup_2|done].
  - lia.
  - rewrite set_bucket_same. rewrite Hi.
    assert (n ∈ bucket_at t b) as Hin by (by eapply list_elem_of_lookup_2).
    destruct (Hothers n Hin) as [Ha Hne]. unfold has_addresses in Ha. rewrite Ha. simpl.
    by exists n.
  - by rewrite Hr' in Hr.
Qed.

(** ** Witness *)

Section wrong_peer.
#[local] Existing Instance sample_network.
#[local] Existing Instance canonical_order.
#[local] Existing Instance toy_sha256.
#[local] Existing Instance toy_multihash.

(** Twenty peers that are not connected, in bucket 255. *)
Definition twenty_peers : list TableOp :=
  (λ i, OpAddKnownPeer (kad_sample 40) (kad_sample i) [kad_address] NotConnected) <$> seq 1 20.

Definition twenty_table : RoutingTable :=
  match table_run sample_table twenty_peers with Done t => t | Panic => sample_table end.

Lemma twenty_table_wf : table_wf twenty_table.
Proof.
  unfold twenty_table. destruct (table_run_total twenty_peers sample_table sample_table_wf)
    as (t & -> & Hwf). done.
Qed.

Lemma twenty_table_full : full_of_others twenty_table 255 (kad_sample 30).
Proof.
  split_and!; [by vm_compute|by vm_compute; lia| |].
  - assert (Forall (λ n, has_addresses n ∧
      key_bytes (kad_key n) ≠ key_bytes (key_of_peer (kad_sample 30))) (bucket_at twenty_table 255)) as Hf.
    { apply (bool_decide_unpack _). by vm_compute. }
    intros n Hn. rewrite Forall_forall in Hf. by apply Hf.
  - assert (Exists (λ n, replaceable n = true) (bucket_at twenty_table 255)) as He.
    { apply (bool_decide_unpack _). by vm_compute. }
    apply Exists_exists in He as (n & ? & ?). eauto.
Qed.

Lemma put_record_to_wrong_peer_witness :
  ∃ n, put_record_targets (kad_sample 0) twenty_table [(kad_sample 30, kad_sample 41)] =
         Done (twenty_table, [n]) ∧
       key_bytes (kad_key n) ≠ key_bytes (key_of_peer (kad_sample 30)).
Proof.
  destruct (put_record_to_wrong_peer (kad_sample 0) twenty_table (kad_sample 30) (kad_sample 41)
    255 twenty_table_wf) as (n & H1 & _ & H3); [discriminate|exact twenty_table_full|].
  exists n. split; [exact H1|exact H3].
Defined.
End wrong_peer.
