(* ===== verification/KademliaMessage.v ===== *)
(** * Kademlia messages

    [src/src/protocol/libp2p/kademlia/message.rs]: the messages, their protobuf form and what a node
    accepts. [prost]'s encoding of the generated [schema::kademlia::Message] is a parameter;
    instants are milliseconds. *)

From stdpp Require Import base tactics option list gmap strings sorting.
From Stdlib Require Import ZArith NArith Lia Init.Byte.
From S2P Require Import Prelude Multiaddr AddressStore KademliaTypes KademliaStore.

Local Open Scope litep2p_scope.

Inductive KademliaMessage :=
| MsgFindNode (target : list byte) (peers : list KademliaPeer)
| MsgPutValue (record : DhtRecord)
| MsgGetRecord (key : option (list byte)) (record : option DhtRecord) (peers : list KademliaPeer)
| MsgAddProvider (key : list byte) (providers : list KademliaPeer)
| MsgGetProviders (key : option (list byte)) (peers providers : list KademliaPeer).

(** [schema::kademlia::Record] *)
Record SchemaRecord := mkSchemaRecord {
  sr_key : list byte;
  sr_value : list byte;
  sr_time_received : string;
  sr_publisher : list byte;
  sr_ttl : N;
}.

(** [schema::kademlia::Message] *)
Record SchemaMessage := mkSchemaMessage {
  sm_type : Z;
  sm_cluster_level_raw : Z;
  sm_key : list byte;
  sm_record : option SchemaRecord;
  sm_closer_peers : list SchemaPeer;
  sm_provider_peers : list SchemaPeer;
}.

(** [prost::Message::encode] and [decode] for it. *)
Class MessageCodec : Type := {
  message_encode : SchemaMessage → list byte;
  message_decode : list byte → option SchemaMessage;
}.

Class MessageCodecLaws (L : MessageCodec) : Prop := {
  message_decode_encode m : message_decode (message_encode m) = Some m;
}.

(** [schema::kademlia::MessageType] *)
Definition PUT_VALUE : Z := 0.
Definition GET_VALUE : Z := 1.
Definition ADD_PROVIDER : Z := 2.
Definition GET_PROVIDERS : Z := 3.
Definition FIND_NODE : Z := 4.

Definition u32_max : N := (2 ^ 32 - 1)%N.

(** ** Records *)

Section records.
Context `{MultihashLib}.

(** [record_to_schema]: the remaining time to live in whole seconds. *)
Definition record_to_schema (now : N) (r : DhtRecord) : SchemaRecord :=
  mkSchemaRecord (record_key r) (record_value r) ""%string
    (match publisher r with Some p => PeerId_to_bytes p | None => [] end)
    (match record_expires r with
     | Some expires =>
         if (now <? expires)%N then
           let secs := ((expires - now) / 1000)%N in
           if (secs <=? u32_max)%N then secs else u32_max
         else 1
     | None => 0
     end)%N.

(** [record_from_schema] *)
Definition record_from_schema (now : N) (r : SchemaRecord) : option DhtRecord :=
  let expires := if (0 <? sr_ttl r)%N then Some (now + sr_ttl r * 1000)%N else None in
  match sr_publisher r with
  | [] => Some (mkDhtRecord (sr_key r) (sr_value r) None expires)
  | bytes =>
      match PeerId_from_bytes bytes with
      | Ok p => Some (mkDhtRecord (sr_key r) (sr_value r) (Some p) expires)
      | Err _ => None
      end
  end.
End records.

(** ** Messages *)

Section messages.
Context `{IpNetwork, HashOrder, Sha256, MultihashLib, MultiaddrBytes}.

Definition schema_message (ty : Z) (key : list byte) (record : option SchemaRecord)
    (closer providers : list SchemaPeer) : SchemaMessage :=
  mkSchemaMessage ty 10 key record closer providers.

(** [KademliaMessage::find_node] *)
Definition find_node (key : list byte) : SchemaMessage := schema_message FIND_NODE key None [] [].

(** [KademliaMessage::put_value] *)
Definition put_value (now : N) (r : DhtRecord) : SchemaMessage :=
  schema_message PUT_VALUE (record_key r) (Some (record_to_schema now r)) [] [].

(** [KademliaMessage::get_record] *)
Definition get_record (key : list byte) : SchemaMessage := schema_message GET_VALUE key None [] [].

(** [KademliaMessage::find_node_response] *)
Definition find_node_response (key : list byte) (peers : list KademliaPeer) : SchemaMessage :=
  schema_message FIND_NODE key None (peer_to_schema <$> peers) [].

(** [KademliaMessage::put_value_response] *)
Definition put_value_response (key value : list byte) : SchemaMessage :=
  schema_message PUT_VALUE key (Some (mkSchemaRecord key value ""%string [] 0)) [] [].

(** [KademliaMessage::get_value_response] *)
Definition get_value_response (now : N) (key : list byte) (peers : list KademliaPeer)
    (record : option DhtRecord) : SchemaMessage :=
  schema_message GET_VALUE key (record_to_schema now <$> record) (peer_to_schema <$> peers) [].

(** [KademliaMessage::add_provider] *)
Definition add_provider (key : list byte) (p : ContentProvider) : outcome SchemaMessage :=
  run k <- KademliaPeer_new (content_peer p) (content_addresses p) CanConnect ;;
  Done (schema_message ADD_PROVIDER key None [] [peer_to_schema k]).

(** [KademliaMessage::get_providers_request] *)
Definition get_providers_request (key : list byte) : SchemaMessage :=
  schema_message GET_PROVIDERS key None [] [].

(** The providers of a [GET_PROVIDERS] response. *)
Fixpoint provider_peers (l : list ContentProvider) : outcome (list SchemaPeer) :=
  match l with
  | [] => Done []
  | p :: l =>
      run k <- KademliaPeer_new (content_peer p) (content_addresses p) NotConnected ;;
      run ks <- provider_peers l ;;
      Done (peer_to_schema k :: ks)
  end.

(** [KademliaMessage::get_providers_response] *)
Definition get_providers_response (providers : list ContentProvider)
    (closer : list KademliaPeer) : outcome SchemaMessage :=
  run ps <- provider_peers providers ;;
  Done (schema_message GET_PROVIDERS [] None (peer_to_schema <$> closer) ps).

(** [.iter().filter_map(|p| KademliaPeer::try_from(p).ok()).take(n)]: stops after [n]. *)
Fixpoint peers_of_schema (n : nat) (l : list SchemaPeer) : outcome (list KademliaPeer) :=
  match n, l with
  | S n, s :: l =>
      run k <- peer_of_schema s ;;
      match k with
      | Some k => run ks <- peers_of_schema n l ;; Done (k :: ks)
      | None => peers_of_schema (S n) l
      end
  | _, _ => Done []
  end.

(** [KademliaMessage::from_bytes], on a decoded message. *)
Definition message_of_schema (now : N) (k : nat) (m : SchemaMessage) : outcome (option KademliaMessage) :=
  if decide (sm_type m = FIND_NODE) then
    run peers <- peers_of_schema k (sm_closer_peers m) ;;
    Done (Some (MsgFindNode (sm_key m) peers))
  else if decide (sm_type m = PUT_VALUE) then
    Done (r ← sm_record m; r ← record_from_schema now r; Some (MsgPutValue r))
  else if decide (sm_type m = GET_VALUE) then
    let key := match sm_key m with
               | [] => match sm_record m with
                       | Some r => match sr_key r with [] => None | key => Some key end
                       | None => None
                       end
               | key => Some key
               end in
    match sm_record m with
    | None =>
        run peers <- peers_of_schema k (sm_closer_peers m) ;;
        Done (Some (MsgGetRecord key None peers))
    | Some r =>
        match record_from_schema now r with
        | None => Done None
        | Some r =>
            run peers <- peers_of_schema k (sm_closer_peers m) ;;
            Done (Some (MsgGetRecord key (Some r) peers))
        end
    end
  else if decide (sm_type m = ADD_PROVIDER) then
    match sm_key m with
    | [] => Done None
    | key =>
        run providers <- peers_of_schema k (sm_provider_peers m) ;;
        Done (Some (MsgAddProvider key providers))
    end
  else if decide (sm_type m = GET_PROVIDERS) then
    let key := match sm_key m with [] => None | key => Some key end in
    run peers <- peers_of_schema k (sm_closer_peers m) ;;
    run providers <- peers_of_schema k (sm_provider_peers m) ;;
    Done (Some (MsgGetProviders key peers providers))
  else Done None.

(** [KademliaMessage::from_bytes] *)
Definition message_from_bytes `{MessageCodec} (now : N) (k : nat) (bytes : list byte) :
    outcome (option KademliaMessage) :=
  match message_decode bytes with
  | None => Done None
  | Some m => message_of_schema now k m
  end.

(** [KademliaMessage::retain_global_addresses] *)
Definition retain_closer_peers (peers : list KademliaPeer) : list KademliaPeer :=
  filter (λ p, store_is_empty (address_store p) = false) (retain_global_addresses <$> peers).

Definition message_retain_global (m : KademliaMessage) : KademliaMessage :=
  match m with
  | MsgFindNode t peers => MsgFindNode t (retain_closer_peers peers)
  | MsgGetRecord k r peers => MsgGetRecord k r (retain_closer_peers peers)
  | MsgGetProviders k peers providers =>
      MsgGetProviders k (retain_closer_peers peers) (retain_global_addresses <$> providers)
  | MsgAddProvider k providers => MsgAddProvider k (retain_global_addresses <$> providers)
  | MsgPutValue r => MsgPutValue r
  end.
End messages.

(** ** Lemmas *)

Section message_facts.
Context `{IpNetwork, HashOrder, Sha256, MultihashLib, MultiaddrBytes}.

Lemma peer_of_schema_total s : ∃ k, peer_of_schema s = Done k.
Proof.
  unfold peer_of_schema. destruct (PeerId_from_bytes _); [|by eexists].
  destruct (push_all_total AddressStore_new (omap multiaddr_of_vec (schema_addrs s))
    AddressStore_new_wf) as (st & -> & _). simpl. case_match; by eexists.
Qed.

Lemma peers_of_schema_total l : ∀ n, ∃ ks, peers_of_schema n l = Done ks ∧ length ks ≤ n.
Proof.
  induction l as [|s l IH]; intros [|n]; simpl; try (eexists; split; [done|simpl; lia]).
  destruct (peer_of_schema_total s) as [[k|] ->]; simpl; [|by apply IH].
  destruct (IH n) as (ks & -> & ?). simpl. eexists. split; [done|]. simpl. lia.
Qed.

Lemma message_of_schema_total now n m : ∃ r, message_of_schema now n m = Done r.
Proof.
  unfold message_of_schema.
  destruct (peers_of_schema_total (sm_closer_peers m) n) as (ks & Hc & _).
  destruct (peers_of_schema_total (sm_provider_peers m) n) as (ks' & Hp & _).
  rewrite Hc, Hp. repeat case_decide; simpl; repeat case_match; by eexists.
Qed.

(** Peers made from a message are consistent: the key is the peer's. *)
Lemma peer_of_schema_key s k : peer_of_schema s = Done (Some k) → kad_key k = key_of_peer (kad_peer k).
Proof.
  unfold peer_of_schema. destruct (PeerId_from_bytes _); [|done].
  destruct (push_all _ _); simpl; [|done]. case_match; [|done]. by intros [= <-].
Qed.

Lemma peers_of_schema_keys l : ∀ n ks, peers_of_schema n l = Done ks →
  ∀ k, k ∈ ks → kad_key k = key_of_peer (kad_peer k).
Proof.
  induction l as [|s l IH]; intros [|n] ks Hk k Hin; simpl in Hk; try (simplify_eq; set_solver).
  destruct (peer_of_schema s) as [[x|]|] eqn:E; simpl in Hk; [|by eapply IH|done].
  destruct (peers_of_schema n l) as [xs|] eqn:E'; simpl in Hk; [|done]. simplify_eq.
  apply elem_of_cons in Hin as [->|Hin]; [by eapply peer_of_schema_key|by eapply IH].
Qed.
End message_facts.

Section record_facts.
Context {L : MultihashLib} {Laws : MultihashLaws L}.

(** A publisher that survives the trip: a valid identifier whose bytes are not empty. *)
Definition publisher_ok (p : option PeerId) : Prop :=
  match p with
  | None => True
  | Some p => PeerId_to_bytes p ≠ [] ∧ PeerId_from_bytes (PeerId_to_bytes p) = Ok p
  end.

Lemma record_from_to_schema now now' r : publisher_ok (publisher r) →
  ∃ e, record_from_schema now' (record_to_schema now r) =
       Some (mkDhtRecord (record_key r) (record_value r) (publisher r) e) ∧
       e = let ttl := sr_ttl (record_to_schema now r) in
           if (0 <? ttl)%N then Some (now' + ttl * 1000)%N else None.
Proof.
  intros Hp. eexists. split; [|reflexivity]. unfold record_from_schema. simpl.
  destruct (publisher r) as [p|]; simpl in *; [|done]. destruct Hp as [Hne Hok].
  destruct (PeerId_to_bytes p) eqn:E; [done|]. by rewrite Hok.
Qed.
End record_facts.

(** ** Properties *)

(** A record sent to another node arrives with its key, value and publisher, and its
    remaining lifetime rounded down to whole seconds: a record that has at least a second
    left never lives longer at the receiver, if the message arrives at once, and loses less
    than a second. *)
Theorem record_roundtrip {L : MultihashLib} now r :
  publisher_ok (publisher r) →
  (∀ t, record_expires r = Some t → now + 1000 ≤ t ∧ t < now + u32_max * 1000)%N →
  ∃ e, record_from_schema now (record_to_schema now r) =
       Some (mkDhtRecord (record_key r) (record_value r) (publisher r) e) ∧
       match record_expires r, e with
       | Some t, Some t' => (t' ≤ t < t' + 1000)%N
       | None, None => True
       | _, _ => False
       end.
Proof.
  intros Hp Ht. destruct (record_from_to_schema now now r Hp) as (e & He & ->).
  eexists. split; [exact He|]. unfold record_to_schema, sr_ttl.
  destruct (record_expires r) as [t|]; [|done].
  specialize (Ht t eq_refl) as [Hlo Hhi].
  assert (1 ≤ (t - now) / 1000)%N as Hq by (apply N.div_le_lower_bound; lia).
  assert ((t - now) / 1000 ≤ u32_max)%N as Hu by (apply N.Div0.div_le_upper_bound; lia).
  pose proof (N.Div0.div_mod (t - now) 1000). pose proof (N.mod_lt (t - now) 1000 ltac:(done)).
  destruct (N.ltb_spec now t); [|lia].
  destruct (N.leb_spec ((t - now) / 1000) u32_max); [|lia].
  cbv zeta. destruct (N.ltb_spec 0 ((t - now) / 1000)); [|lia].
  remember ((t - now) / 1000)%N as q eqn:Eq. remember ((t - now) mod 1000)%N as m eqn:Em.
  clear He Eq Em. lia.
Qed.

(** A record with less than a second to live is sent with a time to live of zero, which
    means "does not expire": the receiver keeps it forever. *)
Theorem expiring_record_becomes_permanent {L : MultihashLib} now now' r t :
  publisher_ok (publisher r) → record_expires r = Some t → (now < t < now + 1000)%N →
  record_from_schema now' (record_to_schema now r) =
    Some (mkDhtRecord (record_key r) (record_value r) (publisher r) None).
Proof.
  intros Hp Ht Hlt. destruct (record_from_to_schema now now' r Hp) as (e & He & ->).
  rewrite He. do 2 f_equal. unfold record_to_schema, sr_ttl. rewrite Ht. destruct (N.ltb_spec now t); [|lia].
  rewrite N.div_small by lia. done.
Qed.

(** ** Witnesses *)

Definition sample_record (t : option N) : DhtRecord := mkDhtRecord [Byte.x01] [Byte.x02] None t.

Lemma record_roundtrip_witness :
  ∃ e, @record_from_schema toy_multihash 5
         (@record_to_schema toy_multihash 5 (sample_record (Some 2505%N))) =
       Some (mkDhtRecord [Byte.x01] [Byte.x02] None e).
Proof.
  destruct (@record_roundtrip toy_multihash 5 (sample_record (Some 2505%N)) I) as (e & He & _).
  { intros t [= <-]. unfold u32_max. lia. }
  exists e. exact He.
Defined.

Lemma expiring_record_becomes_permanent_witness :
  @record_from_schema toy_multihash 900
    (@record_to_schema toy_multihash 5 (sample_record (Some 800%N))) =
  Some (mkDhtRecord [Byte.x01] [Byte.x02] None None).
Proof.
  apply (@expiring_record_becomes_permanent toy_multihash 5 900 (sample_record (Some 800%N)) 800 I
    eq_refl). lia.
Defined.
