(* ===== verification/KademliaQuery.v ===== *)
(** * Kademlia queries

    [src/src/protocol/libp2p/kademlia/query/]: the contexts of the iterative queries and the engine
    that drives them. A message to a peer is the request it carries; the clock is an
    argument. *)

From stdpp Require Import base tactics option list gmap strings sorting.
From Stdlib Require Import ZArith NArith Lia Init.Byte.
From S2P Require Import Prelude Multiaddr AddressStore BTreeMap KademliaTypes KademliaStore.

Local Open Scope litep2p_scope.

Notation QueryId := N (only parsing).

(** The requests [KademliaMessage] encodes for the queries. *)
Inductive QueryMessage :=
| FindNodeRequest (target : list byte)
| GetValueRequest (key : list byte)
| GetProvidersRequest (key : list byte).

Record PeerRecord := mkPeerRecord { record_peer : PeerId; peer_record : DhtRecord }.

Inductive QueryAction :=
| SendMessage (query : QueryId) (peer : PeerId) (message : QueryMessage)
| FindNodeQuerySucceeded (query : QueryId) (target : PeerId) (peers : list KademliaPeer)
| ActPutRecordToFoundNodes (query : QueryId) (record : DhtRecord) (peers : list KademliaPeer)
    (quorum : Quorum)
| PutRecordQuerySucceeded (query : QueryId) (key : list byte)
| ActAddProviderToFoundNodes (query : QueryId) (key : list byte) (provider : ContentProvider)
    (peers : list KademliaPeer) (quorum : Quorum)
| AddProviderQuerySucceeded (query : QueryId) (key : list byte)
| GetRecordQueryDone (query : QueryId)
| GetRecordPartialResult (query : QueryId) (record : PeerRecord)
| GetProvidersQueryDone (query : QueryId) (key : list byte) (providers : list ContentProvider)
| QuerySucceeded (query : QueryId)
| QueryFailed (query : QueryId).

(** ** Candidates *)

(** The candidates in order of distance from the target. *)
Definition add_candidates {T} (target : Key T) (candidates : list (N * KademliaPeer))
    (peers : list KademliaPeer) : list (N * KademliaPeer) :=
  foldl (λ m p, bt_insert (key_distance target (kad_key p)) p m) candidates peers.

(** The peers of a response that have not been contacted and are not the local node. *)
Definition to_query_candidate {A} (local : PeerId) (queried : gset PeerId)
    (pending : gmap PeerId A) (peers : list KademliaPeer) : list KademliaPeer :=
  filter (λ p, kad_peer p ∉ queried ∧ pending !! kad_peer p = None ∧ local ≠ kad_peer p) peers.

(** ** [FIND_NODE] *)

Record FindNodeConfig (T : Type) := mkFindNodeConfig {
  fn_local : PeerId;
  fn_replication : nat;
  fn_parallelism : N;
  fn_query : QueryId;
  fn_target : Key T;
}.
Arguments mkFindNodeConfig {T} _ _ _ _ _.
Arguments fn_local {T} _.
Arguments fn_replication {T} _.
Arguments fn_parallelism {T} _.
Arguments fn_query {T} _.
Arguments fn_target {T} _.

Record FindNodeContext (T : Type) := mkFindNodeContext {
  fn_config : FindNodeConfig T;
  fn_message : QueryMessage;
  fn_pending : gmap PeerId (KademliaPeer * N);
  fn_queried : gset PeerId;
  fn_candidates : list (N * KademliaPeer);
  fn_responses : list (N * KademliaPeer);
  fn_peer_timeout : N;
  fn_pending_responses : N;
}.
Arguments mkFindNodeContext {T} _ _ _ _ _ _ _ _.
Arguments fn_config {T} _.
Arguments fn_message {T} _.
Arguments fn_pending {T} _.
Arguments fn_queried {T} _.
Arguments fn_candidates {T} _.
Arguments fn_responses {T} _.
Arguments fn_peer_timeout {T} _.
Arguments fn_pending_responses {T} _.

(** Ten seconds, in milliseconds. *)
Definition DEFAULT_PEER_TIMEOUT : N := 10000.

Section find_node.
Context {T : Type}.
Implicit Types (c : FindNodeContext T).

Definition fn_distance c (p : KademliaPeer) : N := key_distance (fn_target (fn_config c)) (kad_key p).

(** [FindNodeContext::new]; [message] encodes the target. *)
Definition FindNodeContext_new (config : FindNodeConfig T) (message : QueryMessage)
    (in_peers : list KademliaPeer) : FindNodeContext T :=
  mkFindNodeContext config message ∅ ∅ (add_candidates (fn_target config) [] in_peers) []
    DEFAULT_PEER_TIMEOUT 0.

(** [FindNodeContext::register_response_failure] *)
Definition fn_register_response_failure c (peer : PeerId) : FindNodeContext T :=
  match fn_pending c !! peer with
  | None => c
  | Some (p, _) =>
      mkFindNodeContext (fn_config c) (fn_message c) (delete peer (fn_pending c))
        ({[kad_peer p]} ∪ fn_queried c) (fn_candidates c) (fn_responses c) (fn_peer_timeout c)
        (fn_pending_responses c - 1)%N
  end.

(** Keep a response if there are not yet [k], or if it is closer than the furthest one. *)
Definition add_response (k : nat) (d : N) (p : KademliaPeer) (responses : list (N * KademliaPeer)) :
    list (N * KademliaPeer) :=
  if decide (length responses < k) then bt_insert d p responses
  else
    let furthest := match bt_last responses with Some (d', _) => d' | None => d end in
    if (d <? furthest)%N then
      let responses := bt_insert d p responses in
      if decide (k < length responses) then bt_pop_last responses else responses
    else responses.

(** [FindNodeContext::register_response] *)
Definition fn_register_response c (peer : PeerId) (peers : list KademliaPeer) :
    FindNodeContext T * option KademliaPeer :=
  match fn_pending c !! peer with
  | None => (c, None)
  | Some (p, _) =>
      let pending := delete peer (fn_pending c) in
      let queried := {[kad_peer p]} ∪ fn_queried c in
      let responses := add_response (fn_replication (fn_config c)) (fn_distance c p) p
                         (fn_responses c) in
      let new := to_query_candidate (fn_local (fn_config c)) queried pending peers in
      (mkFindNodeContext (fn_config c) (fn_message c) pending queried
         (add_candidates (fn_target (fn_config c)) (fn_candidates c) new) responses
         (fn_peer_timeout c) (fn_pending_responses c - 1)%N,
       Some p)
  end.

(** [FindNodeContext::next_peer_action] *)
Definition fn_next_peer_action c (peer : PeerId) : option QueryAction :=
  if decide (is_Some (fn_pending c !! peer))
  then Some (SendMessage (fn_query (fn_config c)) peer (fn_message c)) else None.

(** [FindNodeContext::schedule_next_peer] *)
Definition fn_schedule_next_peer c (now : N) : FindNodeContext T * option QueryAction :=
  match bt_pop_first (fn_candidates c) with
  | None => (c, None)
  | Some ((_, p), candidates) =>
      (mkFindNodeContext (fn_config c) (fn_message c) (<[kad_peer p := (p, now)]> (fn_pending c))
         (fn_queried c) candidates (fn_responses c) (fn_peer_timeout c)
         (N.min usize_max (fn_pending_responses c + 1)),
       Some (SendMessage (fn_query (fn_config c)) (kad_peer p) (fn_message c)))
  end.

(** [FindNodeContext::is_done] *)
Definition fn_is_done c : bool :=
  bool_decide (fn_pending c = ∅) && bool_decide (fn_candidates c = []).

(** The pending peers that did not answer in time. *)
Definition fn_timed_out c (now : N) : nat :=
  size (filter (λ kv, fn_peer_timeout c < now - kv.2.2)%N (fn_pending c)).

Definition fn_set_pending_responses c (n : N) : FindNodeContext T :=
  mkFindNodeContext (fn_config c) (fn_message c) (fn_pending c) (fn_queried c) (fn_candidates c)
    (fn_responses c) (fn_peer_timeout c) n.

(** [FindNodeContext::next_action] *)
Definition fn_next_action c (now : N) : FindNodeContext T * option QueryAction :=
  let query := fn_query (fn_config c) in
  if fn_is_done c then
    (c, Some (if decide (fn_responses c = []) then QueryFailed query else QuerySucceeded query))
  else
    let c := fn_set_pending_responses c (fn_pending_responses c - N.of_nat (fn_timed_out c now)) in
    if (fn_pending_responses c =? fn_parallelism (fn_config c))%N then (c, None)
    else if decide (length (fn_responses c) < fn_replication (fn_config c))
    then fn_schedule_next_peer c now
    else
      match fn_candidates c, bt_last (fn_responses c) with
      | (_, candidate) :: _, Some (worst, _) =>
          if (fn_distance c candidate <? worst)%N then fn_schedule_next_peer c now
          else (c, Some (QuerySucceeded query))
      | _, _ => (c, Some (QuerySucceeded query))
      end.
End find_node.

(** ** [GET_VALUE] *)

Record GetRecordConfig := mkGetRecordConfig {
  gr_local : PeerId;
  gr_known_records : nat;
  gr_quorum : Quorum;
  gr_replication : nat;
  gr_parallelism : nat;
  gr_query : QueryId;
  gr_target : Key (list byte);
}.

(** [GetRecordConfig::sufficient_records] *)
Definition sufficient_records (config : GetRecordConfig) (n : nat) : bool :=
  let total_known := gr_known_records config + n in
  match gr_quorum config with
  | QuorumAll => bool_decide (gr_replication config ≤ total_known)
  | QuorumOne => bool_decide (1 ≤ total_known)
  | QuorumN needed => (needed <=? N.of_nat total_known)%N
  end.

Record GetRecordContext := mkGetRecordContext {
  gr_config : GetRecordConfig;
  gr_pending : gmap PeerId KademliaPeer;
  gr_queried : gset PeerId;
  gr_candidates : list (N * KademliaPeer);
  found_records : nat;
  gr_records : list PeerRecord;
}.

Definition gr_message (c : GetRecordContext) : QueryMessage :=
  GetValueRequest (preimage (gr_target (gr_config c))).

(** [GetRecordContext::new] *)
Definition GetRecordContext_new (config : GetRecordConfig) (in_peers : list KademliaPeer)
    (local_record : bool) : GetRecordContext :=
  mkGetRecordContext config ∅ ∅ (add_candidates (gr_target config) [] in_peers)
    (if local_record then 1 else 0) [].

(** [GetRecordContext::register_response_failure] *)
Definition gr_register_response_failure (c : GetRecordContext) (peer : PeerId) : GetRecordContext :=
  match gr_pending c !! peer with
  | None => c
  | Some p =>
      mkGetRecordContext (gr_config c) (delete peer (gr_pending c))
        ({[kad_peer p]} ∪ gr_queried c) (gr_candidates c) (found_records c) (gr_records c)
  end.

(** [GetRecordContext::register_response] *)
Definition gr_register_response (c : GetRecordContext) (now : N) (peer : PeerId)
    (record : option DhtRecord) (peers : list KademliaPeer) :
    GetRecordContext * option KademliaPeer :=
  match gr_pending c !! peer with
  | None => (c, None)
  | Some p =>
      let pending := delete peer (gr_pending c) in
      let '(records, found) :=
        match record with
        | Some r => if record_is_expired r now then (gr_records c, found_records c)
                    else (gr_records c ++ [mkPeerRecord (kad_peer p) r], found_records c + 1)
        | None => (gr_records c, found_records c)
        end in
      let queried := {[kad_peer p]} ∪ gr_queried c in
      let new := to_query_candidate (gr_local (gr_config c)) queried pending peers in
      (mkGetRecordContext (gr_config c) pending queried
         (add_candidates (gr_target (gr_config c)) (gr_candidates c) new) found records,
       Some p)
  end.

(** [GetRecordContext::next_peer_action] *)
Definition gr_next_peer_action (c : GetRecordContext) (peer : PeerId) : option QueryAction :=
  if decide (is_Some (gr_pending c !! peer))
  then Some (SendMessage (gr_query (gr_config c)) peer (gr_message c)) else None.

(** [GetRecordContext::schedule_next_peer] *)
Definition gr_schedule_next_peer (c : GetRecordContext) : GetRecordContext * option QueryAction :=
  match bt_pop_first (gr_candidates c) with
  | None => (c, None)
  | Some ((_, p), candidates) =>
      (mkGetRecordContext (gr_config c) (<[kad_peer p := p]> (gr_pending c)) (gr_queried c)
         candidates (found_records c) (gr_records c),
       Some (SendMessage (gr_query (gr_config c)) (kad_peer p) (gr_message c)))
  end.

(** [GetRecordContext::is_done] *)
Definition gr_is_done (c : GetRecordContext) : bool :=
  bool_decide (gr_pending c = ∅) && bool_decide (gr_candidates c = []).

(** [GetRecordContext::next_action] *)
Definition gr_next_action (c : GetRecordContext) : GetRecordContext * option QueryAction :=
  let query := gr_query (gr_config c) in
  match gr_records c with
  | r :: records =>
      (mkGetRecordContext (gr_config c) (gr_pending c) (gr_queried c) (gr_candidates c)
         (found_records c) records,
       Some (GetRecordPartialResult query r))
  | [] =>
      let known_records := gr_known_records (gr_config c) + found_records c in
      if gr_is_done c then
        (c, Some (if decide (known_records = 0) then QueryFailed query else QuerySucceeded query))
      else if sufficient_records (gr_config c) (found_records c)
      then (c, Some (QuerySucceeded query))
      else if decide (size (gr_pending c) = gr_parallelism (gr_config c)) then (c, None)
      else gr_schedule_next_peer c
  end.

(** ** [GET_PROVIDERS] *)

Record GetProvidersConfig := mkGetProvidersConfig {
  gp_local : PeerId;
  gp_parallelism : nat;
  gp_query : QueryId;
  gp_target : Key (list byte);
  gp_known_providers : list KademliaPeer;
}.

Record GetProvidersContext := mkGetProvidersContext {
  gp_config : GetProvidersConfig;
  gp_pending : gmap PeerId KademliaPeer;
  gp_queried : gset PeerId;
  gp_candidates : list (N * KademliaPeer);
  gp_found : list KademliaPeer;
}.

Definition gp_message (c : GetProvidersContext) : QueryMessage :=
  GetProvidersRequest (preimage (gp_target (gp_config c))).

(** [GetProvidersContext::new] *)
Definition GetProvidersContext_new (config : GetProvidersConfig)
    (candidate_peers : list KademliaPeer) : GetProvidersContext :=
  mkGetProvidersContext config ∅ ∅ (add_candidates (gp_target config) [] candidate_peers) [].

Section merge.
Context `{IpNetwork, HashOrder, Sha256, MultihashLib}.

(** [GetProvidersContext::merge_and_sort_providers] *)
Definition merge_and_sort_providers (found : list KademliaPeer) (target : Key (list byte)) :
    list ContentProvider :=
  let providers : gmap PeerId (gset Multiaddr) :=
    foldl (λ m p, <[kad_peer p := default ∅ (m !! kad_peer p) ∪ list_to_set (kad_addresses p)]> m)
      ∅ found in
  sort_by_key (λ p, Z.of_N (key_distance (key_of_peer (content_peer p)) target))
    ((λ kv, mkContentProvider kv.1 (set_order kv.2)) <$> map_order providers).

(** [GetProvidersContext::found_providers] *)
Definition gp_found_providers (c : GetProvidersContext) : list ContentProvider :=
  merge_and_sort_providers (gp_known_providers (gp_config c) ++ gp_found c) (gp_target (gp_config c)).
End merge.

(** [GetProvidersContext::register_response_failure] *)
Definition gp_register_response_failure (c : GetProvidersContext) (peer : PeerId) :
    GetProvidersContext :=
  match gp_pending c !! peer with
  | None => c
  | Some p =>
      mkGetProvidersContext (gp_config c) (delete peer (gp_pending c))
        ({[kad_peer p]} ∪ gp_queried c) (gp_candidates c) (gp_found c)
  end.

(** [GetProvidersContext::register_response] *)
Definition gp_register_response (c : GetProvidersContext) (peer : PeerId)
    (providers closer_peers : list KademliaPeer) : GetProvidersContext * option KademliaPeer :=
  match gp_pending c !! peer with
  | None => (c, None)
  | Some p =>
      let pending := delete peer (gp_pending c) in
      let queried := {[kad_peer p]} ∪ gp_queried c in
      let new := to_query_candidate (gp_local (gp_config c)) queried pending closer_peers in
      (mkGetProvidersContext (gp_config c) pending queried
         (add_candidates (gp_target (gp_config c)) (gp_candidates c) new)
         (gp_found c ++ providers),
       Some p)
  end.

(** [GetProvidersContext::next_peer_action] *)
Definition gp_next_peer_action (c : GetProvidersContext) (peer : PeerId) : option QueryAction :=
  if decide (is_Some (gp_pending c !! peer))
  then Some (SendMessage (gp_query (gp_config c)) peer (gp_message c)) else None.

(** [GetProvidersContext::schedule_next_peer] *)
Definition gp_schedule_next_peer (c : GetProvidersContext) :
    GetProvidersContext * option QueryAction :=
  match bt_pop_first (gp_candidates c) with
  | None => (c, None)
  | Some ((_, p), candidates) =>
      (mkGetProvidersContext (gp_config c) (<[kad_peer p := p]> (gp_pending c)) (gp_queried c)
         candidates (gp_found c),
       Some (SendMessage (gp_query (gp_config c)) (kad_peer p) (gp_message c)))
  end.

(** [GetProvidersContext::is_done] *)
Definition gp_is_done (c : GetProvidersContext) : bool :=
  bool_decide (gp_pending c = ∅) && bool_decide (gp_candidates c = []).

(** [GetProvidersContext::next_action] *)
Definition gp_next_action (c : GetProvidersContext) : GetProvidersContext * option QueryAction :=
  let query := gp_query (gp_config c) in
  if gp_is_done c then
    (c, Some (if decide (gp_found c = []) then QueryFailed query else QuerySucceeded query))
  else if decide (size (gp_pending c) = gp_parallelism (gp_config c)) then (c, None)
  else gp_schedule_next_peer c.

(** ** [PUT_VALUE] and [ADD_PROVIDER] to target peers *)

Record PutToTargetPeersContext := mkPutToTargetPeersContext {
  tp_query : QueryId;
  tp_key : list byte;
  peers_to_succeed : N;
  tp_peers : gmap PeerId KademliaPeer;
  pending_peers : gset PeerId;
  n_succeeded : N;
}.

(** [PutToTargetPeersContext::new] *)
Definition PutToTargetPeersContext_new (query : QueryId) (key : list byte)
    (peers : list KademliaPeer) (quorum : Quorum) : PutToTargetPeersContext :=
  mkPutToTargetPeersContext query key
    (match quorum with
     | QuorumOne => 1
     | QuorumN n => N.min n (N.max (N.of_nat (length peers)) 1)
     | QuorumAll => N.max (N.of_nat (length peers)) 1
     end)%N
    (foldl (λ m p, <[kad_peer p := p]> m) ∅ peers)
    (list_to_set (kad_peer <$> peers)) 0.

Definition tp_set (c : PutToTargetPeersContext) (pending : gset PeerId) (n : N) :
    PutToTargetPeersContext :=
  mkPutToTargetPeersContext (tp_query c) (tp_key c) (peers_to_succeed c) (tp_peers c) pending n.

(** [PutToTargetPeersContext::register_send_success] *)
Definition tp_register_send_success (c : PutToTargetPeersContext) (peer : PeerId) :
    PutToTargetPeersContext :=
  if decide (peer ∈ pending_peers c)
  then tp_set c (pending_peers c ∖ {[peer]}) (n_succeeded c + 1) else c.

(** [PutToTargetPeersContext::register_send_failure] *)
Definition tp_register_send_failure (c : PutToTargetPeersContext) (peer : PeerId) :
    PutToTargetPeersContext :=
  if decide (peer ∈ pending_peers c)
  then tp_set c (pending_peers c ∖ {[peer]}) (n_succeeded c) else c.

(** [PutToTargetPeersContext::register_response] *)
Definition tp_register_response (c : PutToTargetPeersContext) (peer : PeerId) : option KademliaPeer :=
  tp_peers c !! peer.

(** [PutToTargetPeersContext::is_finished], [is_succeded] *)
Definition tp_is_finished (c : PutToTargetPeersContext) : bool := bool_decide (pending_peers c = ∅).
Definition tp_is_succeded (c : PutToTargetPeersContext) : bool :=
  (peers_to_succeed c <=? n_succeeded c)%N.

(** [PutToTargetPeersContext::next_action] *)
Definition tp_next_action (c : PutToTargetPeersContext) : option QueryAction :=
  if tp_is_finished c then
    Some (if tp_is_succeded c then QuerySucceeded (tp_query c) else QueryFailed (tp_query c))
  else None.

(** ** Fixed peers *)

Record FindManyNodesContext := mkFindManyNodesContext {
  fm_query : QueryId;
  peers_to_report : list KademliaPeer;
}.

(** [FindManyNodesContext::next_action] *)
Definition fm_next_action (c : FindManyNodesContext) : option QueryAction :=
  Some (QuerySucceeded (fm_query c)).
