(* ===== verification/QueryEngine.v ===== *)
(** * Kademlia query engine

    [QueryEngine] of [src/src/protocol/libp2p/kademlia/query/mod.rs]: the active queries, the events
    they are told about and the actions they ask for. *)

From stdpp Require Import base tactics option list gmap strings sorting.
From Stdlib Require Import ZArith NArith Lia Init.Byte.
From S2P Require Import Prelude Multiaddr AddressStore BTreeMap KademliaTypes KademliaStore.
From S2P Require Import KademliaMessage KademliaQuery.

Local Open Scope litep2p_scope.

Inductive QueryType :=
| QFindNode (c : FindNodeContext PeerId)
| QPutRecord (record : DhtRecord) (quorum : Quorum) (c : FindNodeContext (list byte))
| QPutRecordToPeers (record : DhtRecord) (quorum : Quorum) (c : FindManyNodesContext)
| QPutRecordToFoundNodes (c : PutToTargetPeersContext)
| QGetRecord (c : GetRecordContext)
| QAddProvider (key : list byte) (provider : ContentProvider) (quorum : Quorum)
    (c : FindNodeContext (list byte))
| QAddProviderToFoundNodes (c : PutToTargetPeersContext)
| QGetProviders (c : GetProvidersContext).

Record QueryEngine := mkQueryEngine {
  engine_local : PeerId;
  replication_factor : nat;
  parallelism_factor : N;
  queries : gmap N QueryType;
}.

(** [QueryEngine::new] *)
Definition QueryEngine_new (local : PeerId) (replication : nat) (parallelism : N) : QueryEngine :=
  mkQueryEngine local replication parallelism ∅.

Definition set_queries (e : QueryEngine) (q : gmap N QueryType) : QueryEngine :=
  mkQueryEngine (engine_local e) (replication_factor e) (parallelism_factor e) q.

Definition set_query (e : QueryEngine) (id : N) (q : QueryType) : QueryEngine :=
  set_queries e (<[id := q]> (queries e)).

Section engine.
Context `{IpNetwork, HashOrder, Sha256, MultihashLib}.

(** ** Starting queries *)

Definition find_node_config {T} (e : QueryEngine) (id : N) (target : Key T) : FindNodeConfig T :=
  mkFindNodeConfig (engine_local e) (replication_factor e) (parallelism_factor e) id target.

(** [QueryEngine::start_find_node] *)
Definition start_find_node (e : QueryEngine) (id : N) (target : PeerId)
    (candidates : list KademliaPeer) : QueryEngine :=
  set_query e id (QFindNode (FindNodeContext_new (find_node_config e id (key_of_peer target))
                               (FindNodeRequest (PeerId_to_bytes target)) candidates)).

(** [QueryEngine::start_put_record] *)
Definition start_put_record (e : QueryEngine) (id : N) (record : DhtRecord)
    (candidates : list KademliaPeer) (quorum : Quorum) : QueryEngine :=
  set_query e id
    (QPutRecord record quorum
       (FindNodeContext_new (find_node_config e id (Key_new (record_key record)))
          (FindNodeRequest (record_key record)) candidates)).

(** [QueryEngine::start_put_record_to_peers] *)
Definition start_put_record_to_peers (e : QueryEngine) (id : N) (record : DhtRecord)
    (peers : list KademliaPeer) (quorum : Quorum) : QueryEngine :=
  set_query e id (QPutRecordToPeers record quorum (mkFindManyNodesContext id peers)).

(** [QueryEngine::start_get_record] *)
Definition start_get_record (e : QueryEngine) (id : N) (target : list byte)
    (candidates : list KademliaPeer) (quorum : Quorum) (local_record : bool) : QueryEngine :=
  let config := mkGetRecordConfig (engine_local e) (if local_record then 1 else 0) quorum
                  (replication_factor e) (N.to_nat (parallelism_factor e)) id (Key_new target) in
  set_query e id (QGetRecord (GetRecordContext_new config candidates local_record)).

(** [QueryEngine::start_add_provider] *)
Definition start_add_provider (e : QueryEngine) (id : N) (key : list byte)
    (provider : ContentProvider) (candidates : list KademliaPeer) (quorum : Quorum) : QueryEngine :=
  set_query e id
    (QAddProvider key provider quorum
       (FindNodeContext_new (find_node_config e id (Key_new key)) (FindNodeRequest key) candidates)).

(** [impl From<ContentProvider> for KademliaPeer] *)
Definition peer_of_content (p : ContentProvider) : outcome KademliaPeer :=
  KademliaPeer_new (content_peer p) (content_addresses p) NotConnected.

Fixpoint peers_of_contents (l : list ContentProvider) : outcome (list KademliaPeer) :=
  match l with
  | [] => Done []
  | p :: l => run k <- peer_of_content p ;; run ks <- peers_of_contents l ;; Done (k :: ks)
  end.

(** [QueryEngine::start_get_providers] *)
Definition start_get_providers (e : QueryEngine) (id : N) (key : list byte)
    (candidates : list KademliaPeer) (known : list ContentProvider) : outcome QueryEngine :=
  run known <- peers_of_contents known ;;
  let config := mkGetProvidersConfig (engine_local e) (N.to_nat (parallelism_factor e)) id
                  (Key_new key) known in
  Done (set_query e id (QGetProviders (GetProvidersContext_new config candidates))).

(** [QueryEngine::start_put_record_to_found_nodes_requests_tracking] *)
Definition start_put_record_tracking (e : QueryEngine) (id : N) (key : list byte)
    (peers : list KademliaPeer) (quorum : Quorum) : QueryEngine :=
  set_query e id (QPutRecordToFoundNodes (PutToTargetPeersContext_new id key peers quorum)).

(** [QueryEngine::start_add_provider_to_found_nodes_requests_tracking] *)
Definition start_add_provider_tracking (e : QueryEngine) (id : N) (key : list byte)
    (peers : list KademliaPeer) (quorum : Quorum) : QueryEngine :=
  set_query e id (QAddProviderToFoundNodes (PutToTargetPeersContext_new id key peers quorum)).

(** ** Events *)

Definition query_response_failure (q : QueryType) (peer : PeerId) : QueryType :=
  match q with
  | QFindNode c => QFindNode (fn_register_response_failure c peer)
  | QPutRecord r qu c => QPutRecord r qu (fn_register_response_failure c peer)
  | QGetRecord c => QGetRecord (gr_register_response_failure c peer)
  | QAddProvider k p qu c => QAddProvider k p qu (fn_register_response_failure c peer)
  | QGetProviders c => QGetProviders (gp_register_response_failure c peer)
  | QPutRecordToPeers _ _ _ | QPutRecordToFoundNodes _ | QAddProviderToFoundNodes _ => q
  end.

(** [QueryEngine::register_response_failure] *)
Definition register_response_failure (e : QueryEngine) (id : N) (peer : PeerId) : QueryEngine :=
  match queries e !! id with
  | None => e
  | Some q => set_query e id (query_response_failure q peer)
  end.

Definition query_response (q : QueryType) (now : N) (peer : PeerId) (message : KademliaMessage) :
    QueryType * option KademliaPeer :=
  match q, message with
  | QFindNode c, MsgFindNode _ peers =>
      let '(c, p) := fn_register_response c peer peers in (QFindNode c, p)
  | QPutRecord r qu c, MsgFindNode _ peers =>
      let '(c, p) := fn_register_response c peer peers in (QPutRecord r qu c, p)
  | QPutRecordToPeers r qu c, MsgFindNode _ _ => (q, None)
  | QPutRecordToFoundNodes c, MsgPutValue _ => (q, tp_register_response c peer)
  | QGetRecord c, MsgGetRecord _ record peers =>
      let '(c, p) := gr_register_response c now peer record peers in (QGetRecord c, p)
  | QAddProvider k pr qu c, MsgFindNode _ peers =>
      let '(c, p) := fn_register_response c peer peers in (QAddProvider k pr qu c, p)
  | QAddProviderToFoundNodes c, MsgAddProvider _ _ => (q, None)
  | QGetProviders c, MsgGetProviders _ peers providers =>
      let '(c, p) := gp_register_response c peer providers peers in (QGetProviders c, p)
  | _, _ => (query_response_failure q peer, None)
  end.

(** [QueryEngine::register_response] *)
Definition register_response (e : QueryEngine) (now : N) (id : N) (peer : PeerId)
    (message : KademliaMessage) : QueryEngine * option KademliaPeer :=
  match queries e !! id with
  | None => (e, None)
  | Some q => let '(q, p) := query_response q now peer message in (set_query e id q, p)
  end.

(** [QueryEngine::register_send_failure] *)
Definition register_send_failure (e : QueryEngine) (id : N) (peer : PeerId) : QueryEngine :=
  match queries e !! id with
  | Some (QPutRecordToFoundNodes c) =>
      set_query e id (QPutRecordToFoundNodes (tp_register_send_failure c peer))
  | Some (QAddProviderToFoundNodes c) =>
      set_query e id (QAddProviderToFoundNodes (tp_register_send_failure c peer))
  | _ => e
  end.

(** [QueryEngine::register_send_success] *)
Definition register_send_success (e : QueryEngine) (id : N) (peer : PeerId) : QueryEngine :=
  match queries e !! id with
  | Some (QPutRecordToFoundNodes c) =>
      set_query e id (QPutRecordToFoundNodes (tp_register_send_success c peer))
  | Some (QAddProviderToFoundNodes c) =>
      set_query e id (QAddProviderToFoundNodes (tp_register_send_success c peer))
  | _ => e
  end.

(** [QueryEngine::register_peer_failure] *)
Definition register_peer_failure (e : QueryEngine) (id : N) (peer : PeerId) : QueryEngine :=
  register_response_failure (register_send_failure e id peer) id peer.

(** [QueryEngine::next_peer_action] *)
Definition next_peer_action (e : QueryEngine) (id : N) (peer : PeerId) : option QueryAction :=
  match queries e !! id with
  | Some (QFindNode c) => fn_next_peer_action c peer
  | Some (QPutRecord _ _ c) | Some (QAddProvider _ _ _ c) => fn_next_peer_action c peer
  | Some (QGetRecord c) => gr_next_peer_action c peer
  | Some (QGetProviders c) => gp_next_peer_action c peer
  | _ => None
  end.

(** ** Actions *)

(** [QueryEngine::on_query_succeeded] *)
Definition on_query_succeeded (e : QueryEngine) (id : N) : outcome (QueryEngine * QueryAction) :=
  match queries e !! id with
  | None => Panic
  | Some q =>
      Done (set_queries e (delete id (queries e)),
        match q with
        | QFindNode c =>
            FindNodeQuerySucceeded id (preimage (fn_target (fn_config c))) (fn_responses c).*2
        | QPutRecord r qu c => ActPutRecordToFoundNodes (fn_query (fn_config c)) r (fn_responses c).*2 qu
        | QPutRecordToPeers r qu c => ActPutRecordToFoundNodes (fm_query c) r (peers_to_report c) qu
        | QPutRecordToFoundNodes c => PutRecordQuerySucceeded (tp_query c) (tp_key c)
        | QGetRecord c => GetRecordQueryDone (gr_query (gr_config c))
        | QAddProvider k p qu c =>
            ActAddProviderToFoundNodes (fn_query (fn_config c)) k p (fn_responses c).*2 qu
        | QAddProviderToFoundNodes c => AddProviderQuerySucceeded (tp_query c) (tp_key c)
        | QGetProviders c =>
            GetProvidersQueryDone (gp_query (gp_config c)) (preimage (gp_target (gp_config c)))
              (gp_found_providers c)
        end)
  end.

(** [QueryEngine::on_query_failed] *)
Definition on_query_failed (e : QueryEngine) (id : N) : outcome (QueryEngine * QueryAction) :=
  match queries e !! id with
  | None => Panic
  | Some _ => Done (set_queries e (delete id (queries e)), QueryFailed id)
  end.

(** The next action of one query. *)
Definition query_next_action (q : QueryType) (now : N) : QueryType * option QueryAction :=
  match q with
  | QFindNode c => let '(c, a) := fn_next_action c now in (QFindNode c, a)
  | QPutRecord r qu c => let '(c, a) := fn_next_action c now in (QPutRecord r qu c, a)
  | QPutRecordToPeers r qu c => (q, fm_next_action c)
  | QGetRecord c => let '(c, a) := gr_next_action c in (QGetRecord c, a)
  | QAddProvider k p qu c => let '(c, a) := fn_next_action c now in (QAddProvider k p qu c, a)
  | QGetProviders c => let '(c, a) := gp_next_action c in (QGetProviders c, a)
  | QPutRecordToFoundNodes c | QAddProviderToFoundNodes c => (q, tp_next_action c)
  end.

(** The loop of [next_action] over the queries, in hash order. *)
Fixpoint next_action_loop (e : QueryEngine) (now : N) (qs : list (N * QueryType)) :
    outcome (QueryEngine * option QueryAction) :=
  match qs with
  | [] => Done (e, None)
  | (id, q) :: qs =>
      let '(q, action) := query_next_action q now in
      let e := set_query e id q in
      match action with
      | Some (QuerySucceeded query) =>
          run (e, a) <- on_query_succeeded e query ;; Done (e, Some a)
      | Some (QueryFailed query) =>
          run (e, a) <- on_query_failed e query ;; Done (e, Some a)
      | Some a => Done (e, Some a)
      | None => next_action_loop e now qs
      end
  end.

(** [QueryEngine::next_action] *)
Definition engine_next_action (e : QueryEngine) (now : N) :
    outcome (QueryEngine * option QueryAction) :=
  next_action_loop e now (map_order (queries e)).
End engine.
