(* ===== verification/QueryFrontier.v ===== *)
(** * Frontier of an iterative query

    What the three iterative queries ([FIND_NODE], [GET_VALUE], [GET_PROVIDERS]) share: the peers
    still to be asked, the ones that were asked and the ones that are done, and the list of the
    closest responders. *)

From stdpp Require Import base tactics option list gmap sorting.
From Stdlib Require Import NArith Lia Init.Byte.
From S2P Require Import Prelude Multiaddr BTreeMap KademliaTypes KademliaQuery.

Section frontier.
Context `{Sha256, MultihashLib} {T : Type}.
Implicit Types (local : PeerId) (target : Key T) (l : list (N * KademliaPeer)).

(** The key of a peer is the hash of its identifier. *)
Definition peer_keyed (p : KademliaPeer) : Prop := kad_key p = key_of_peer (kad_peer p).

(** Candidates [l], asked peers [P] and done peers [Q]. *)
Record frontier_wf local target l (P Q : gset PeerId) : Prop := mkFrontier {
  frontier_sorted : bt_wf l;
  frontier_candidate d p : (d, p) ∈ l →
    d = key_distance target (kad_key p) ∧ peer_keyed p ∧ kad_peer p ≠ local ∧ kad_peer p ∉ P ∪ Q;
  frontier_disjoint : P ## Q;
  frontier_local : local ∉ P ∪ Q;
}.

Lemma add_candidates_wf target l peers : bt_wf l → bt_wf (add_candidates target l peers).
Proof. apply (bt_insert_all_wf (λ p, key_distance target (kad_key p))). Qed.

Lemma add_candidates_elem target l peers d p : bt_wf l → (d, p) ∈ add_candidates target l peers →
  (d, p) ∈ l ∨ p ∈ peers ∧ d = key_distance target (kad_key p).
Proof.
  intros Hl Hx. apply (bt_insert_all_elem (λ p, key_distance target (kad_key p))) in Hx; [|done].
  naive_solver.
Qed.

Lemma frontier_new local target peers :
  Forall (λ p, peer_keyed p ∧ kad_peer p ≠ local) peers →
  frontier_wf local target (add_candidates target [] peers) ∅ ∅.
Proof.
  intros Hp. rewrite Forall_forall in Hp. assert (bt_wf ([] : list (N * KademliaPeer))) by constructor.
  split; [by apply add_candidates_wf| |set_solver..].
  intros d p [Hx|[Hx ->]]%add_candidates_elem; [set_solver| |done]. specialize (Hp p Hx). set_solver.
Qed.

Lemma frontier_pop local target d p l P Q : frontier_wf local target ((d, p) :: l) P Q →
  frontier_wf local target l ({[kad_peer p]} ∪ P) Q.
Proof.
  intros [Hs Hc Hd Hl]. apply StronglySorted_inv in Hs as [Hs Hx]. rewrite Forall_forall in Hx.
  destruct (Hc d p) as (Hdp & Hk & Hne & Hn); [by left|]. split; [done| |set_solver..].
  intros d' p' Hin. destruct (Hc d' p') as (Hd' & Hk' & Hne' & Hn'); [by right|].
  split_and!; try done. assert (kad_peer p' ≠ kad_peer p); [|set_solver]. intros Heq.
  specialize (Hx _ Hin). unfold bt_lt in Hx. simpl in Hx.
  assert (d = d'); [|lia]. unfold peer_keyed in *. congruence.
Qed.

Lemma frontier_resolve local target l P Q peer : frontier_wf local target l P Q → peer ∈ P →
  frontier_wf local target l (P ∖ {[peer]}) ({[peer]} ∪ Q).
Proof.
  intros [Hs Hc Hd Hl] Hp. assert ((P ∖ {[peer]}) ∪ ({[peer]} ∪ Q) ≡ P ∪ Q) as HU.
  { intros x. destruct (decide (x = peer)); set_solver. }
  split; [done| |set_solver|by rewrite HU]. intros d p Hin. rewrite HU. by apply Hc.
Qed.

Lemma frontier_add {A} local target l (pending : gmap PeerId A) Q peers :
  frontier_wf local target l (dom pending) Q → Forall peer_keyed peers →
  frontier_wf local target
    (add_candidates target l (to_query_candidate local Q pending peers)) (dom pending) Q.
Proof.
  intros [Hs Hc Hd Hl] Hp. rewrite Forall_forall in Hp. split; try done; [by apply add_candidates_wf|].
  intros d p [Hx|[Hx ->]]%add_candidates_elem; [by apply Hc| |done].
  unfold to_query_candidate in Hx. apply list_elem_of_filter in Hx as [(HQ & HP & Hlo) Hx].
  apply not_elem_of_dom in HP. specialize (Hp p Hx). set_solver.
Qed.
End frontier.

(** ** The closest responders *)

Section closest.
Context {T : Type} (target : Key T).

Definition distance_to (p : KademliaPeer) : N := key_distance target (kad_key p).

(** [responses] are the [k] closest of [responders]. *)
Record closest_responses (k : nat) (responders : list KademliaPeer)
    (responses : list (N * KademliaPeer)) : Prop := mkClosest {
  closest_sorted : bt_wf responses;
  closest_length : length responses ≤ k;
  closest_elem d p : (d, p) ∈ responses → d = distance_to p ∧ p ∈ responders;
  closest_closest p : p ∈ responders →
    distance_to p ∈ responses.*1 ∨
    length responses = k ∧ ∀ d, d ∈ responses.*1 → (d < distance_to p)%N;
}.

Lemma closest_nil k : closest_responses k [] [].
Proof. split; [constructor|simpl; lia|set_solver..]. Qed.
End closest.

Section last.
Context {A : Type}.
Implicit Types (l : list (N * A)).

Lemma bt_last_split l x : bt_last l = Some x → l = bt_pop_last l ++ [x].
Proof.
  unfold bt_last, bt_pop_last. intros (l' & ->)%last_Some.
  rewrite length_app. simpl. by rewrite Nat.add_sub, take_app_length.
Qed.

Lemma bt_last_max l x : bt_wf l → bt_last l = Some x →
  (∀ d, d ∈ (bt_pop_last l).*1 → (d < x.1)%N) ∧ x.1 ∈ l.*1.
Proof.
  intros Hs Hx. pose proof (bt_last_split _ _ Hx) as Hl. split.
  - intros d ([d' v] & -> & Hin)%list_elem_of_fmap. rewrite Hl in Hs.
    apply StronglySorted_app_1_elem_of with (x1 := (d', v)) (x2 := x) in Hs; [done|done|set_solver].
  - rewrite Hl, fmap_app. set_solver.
Qed.

Lemma bt_insert_keys k (v : A) l : bt_wf l → ∀ d, d ∈ (bt_insert k v l).*1 ↔ d = k ∨ d ∈ l.*1.
Proof.
  intros Hl d. rewrite !list_elem_of_fmap. setoid_rewrite bt_insert_elem; [|done]. split.
  - intros (x & -> & [->|[_ ?]]); [by left|right; eauto].
  - intros [->|(x & -> & ?)]; [by exists (k, v); eauto|].
    destruct (decide (x.1 = k)) as [->|]; [exists (k, v)|exists x]; eauto.
Qed.

(** Inserting an existing key keeps the length. *)
Lemma bt_insert_length_same k (v : A) l : bt_wf l → k ∈ l.*1 → length (bt_insert k v l) = length l.
Proof.
  induction 1 as [|[k' v'] l Hs IH Hx]; simpl; [set_solver|]. rewrite Forall_forall in Hx.
  intros [->|Hk]%elem_of_cons; simpl; [by rewrite N.compare_refl|].
  apply list_elem_of_fmap in Hk as (x & -> & Hin). specialize (Hx x Hin) as Hlt. unfold bt_lt in Hlt.
  simpl in Hlt. destruct (N.compare_spec x.1 k'); [lia|lia|]. simpl. rewrite IH; [done|].
  apply list_elem_of_fmap. eauto.
Qed.
End last.

Section add.
Context {T : Type} (target : Key T).
Implicit Types (responses : list (N * KademliaPeer)) (p q : KademliaPeer).

Lemma bt_last_keys responses f v : bt_last responses = Some (f, v) →
  ∀ d, d ∈ responses.*1 ↔ d = f ∨ d ∈ (bt_pop_last responses).*1.
Proof. intros El d. rewrite (bt_last_split _ _ El) at 1. rewrite fmap_app. set_solver. Qed.

(** A responder closer than the furthest one does not change the furthest one. *)
Lemma bt_insert_last d p responses f v : bt_wf responses → bt_last responses = Some (f, v) →
  (d < f)%N → ∃ v', bt_last (bt_insert d p responses) = Some (f, v').
Proof.
  intros Hs El Hd. destruct (bt_last (bt_insert d p responses)) as [[f' v']|] eqn:El'.
  2:{ apply last_None in El'. by destruct (bt_insert_not_nil d p responses). }
  exists v'. do 2 f_equal. destruct (bt_last_max _ _ Hs El) as [Hmax Hf].
  destruct (bt_last_max _ _ (bt_insert_wf d p _ Hs) El') as [Hmax' Hf'].
  simpl in *. rewrite bt_insert_keys in Hf' by done.
  assert (f ∈ (bt_insert d p responses).*1) as [->|Hfn]%(bt_last_keys _ _ _ El')
    by (apply bt_insert_keys; [done|by right]); [done|]. specialize (Hmax' f Hfn).
  destruct Hf' as [->|[->|Hx%Hmax]%(bt_last_keys _ _ _ El)]; lia.
Qed.

(** The furthest response makes room for a closer one. *)
Lemma closest_replace k responders responses p f v :
  closest_responses target k responders responses → length responses = k →
  bt_last responses = Some (f, v) → (distance_to target p < f)%N →
  k < length (bt_insert (distance_to target p) p responses) →
  closest_responses target k (responders ++ [p])
    (bt_pop_last (bt_insert (distance_to target p) p responses)).
Proof.
  intros [Hs _ Hel Hcl] Hk El Hd Hgt. set (d := distance_to target p) in *.
  set (new := bt_insert d p responses) in *.
  assert (bt_wf new) as Hn by by apply bt_insert_wf.
  destruct (bt_insert_last d p _ _ _ Hs El Hd) as [v' El']. fold new in El'.
  destruct (bt_last_max _ _ Hn El') as [Hmax' _]. pose proof (bt_last_split _ _ El') as Hsp'.
  pose proof (bt_last_keys _ _ _ El') as Hsplit'.
  destruct (bt_last_max _ _ Hs El) as [_ Hf]. simpl in Hf, Hmax'.
  assert (length (bt_pop_last new) = k) as Hpl.
  { pose proof (bt_insert_length d p responses) as Hle. fold new in Hle.
    apply (f_equal length) in Hsp'. rewrite length_app in Hsp'. simpl in *. lia. }
  assert (∀ q, (f ≤ distance_to target q)%N →
    ∀ x, x ∈ (bt_pop_last new).*1 → (x < distance_to target q)%N) as Hge.
  { intros q Hq x Hx%Hmax'. lia. }
  split; [by apply bt_pop_last_wf|lia| |].
  - intros x y Hx. assert ((x, y) ∈ new) as Hxn by (rewrite Hsp'; set_solver).
    apply bt_insert_elem in Hxn as [?|[_ Hxn]]; [simplify_eq; set_solver| |done].
    specialize (Hel _ _ Hxn). set_solver.
  - intros q [Hq|Hq%list_elem_of_singleton]%elem_of_app; [|subst q].
    + destruct (Hcl q Hq) as [Hin|[_ Hin]]; [|right; split; [done|apply Hge; specialize (Hin f Hf); lia]].
      assert (distance_to target q ∈ new.*1) as [Hqf|?]%Hsplit'
        by (apply bt_insert_keys; [done|by right]); [|by left].
      right. split; [done|]. apply Hge. lia.
    + left. assert (d ∈ new.*1) as [?|?]%Hsplit' by (apply bt_insert_keys; [done|by left]); [lia|done].
Qed.

(** A responder whose distance is recorded, or that fits. *)
Lemma closest_insert k responders responses p : closest_responses target k responders responses →
  length (bt_insert (distance_to target p) p responses) ≤ k →
  closest_responses target k (responders ++ [p]) (bt_insert (distance_to target p) p responses).
Proof.
  intros [Hs _ Hel Hcl] Hle. pose proof (bt_insert_keys (distance_to target p) p _ Hs) as Hkeys.
  split; [by apply bt_insert_wf|done| |].
  - intros x y [?|[_ Hx]]%bt_insert_elem; [simplify_eq; set_solver| |done].
    specialize (Hel _ _ Hx). set_solver.
  - intros q [Hq|Hq%list_elem_of_singleton]%elem_of_app; [|subst q; left; apply Hkeys; by left].
    destruct (Hcl q Hq) as [?|[Hlk Hlt]]; [left; apply Hkeys; by right|].
    destruct (decide (distance_to target p ∈ responses.*1)) as [Hin|Hin].
    + right. rewrite bt_insert_length_same by done. split; [done|].
      intros x [->|?]%Hkeys; by apply Hlt.
    + rewrite bt_insert_length_fresh in Hle by done. lia.
Qed.

(** Adding a responder keeps the closest ones. *)
Lemma add_response_closest k responders responses p :
  closest_responses target k responders responses →
  closest_responses target k (responders ++ [p])
    (add_response k (distance_to target p) p responses).
Proof.
  intros Hc. pose proof Hc as [Hs Hlen Hel Hcl]. unfold add_response. case_decide as Hk.
  { apply closest_insert; [done|].
    pose proof (bt_insert_length (distance_to target p) p responses). lia. }
  assert (length responses = k) as Hlk by lia.
  destruct (bt_last responses) as [[f v]|] eqn:El; last first.
  { rewrite (proj2 (N.ltb_ge _ _)) by lia. apply last_None in El. subst responses. simpl in *.
    split; [done|simpl; lia|set_solver|]. intros q _. right. set_solver. }
  destruct (N.ltb_spec (distance_to target p) f) as [Hd|Hd].
  { case_decide; [by eapply closest_replace|apply closest_insert; [done|lia]]. }
  destruct (bt_last_max _ _ Hs El) as [Hmax Hf].
  split; [done|done|intros x y Hx; specialize (Hel x y Hx); set_solver|].
  intros q [Hq|Hq%list_elem_of_singleton]%elem_of_app; [by apply Hcl|subst q].
  destruct (decide (distance_to target p = f)) as [->|Hne]; [by left|]. right. split; [done|].
  intros x [->|Hx%Hmax]%(bt_last_keys _ _ _ El); simpl in *; lia.
Qed.
End add.
