(* ===== verification/FindNodeFacts.v ===== *)
(** * The [FIND_NODE] query

    Runs of [FindNodeContext] of [src/src/protocol/libp2p/kademlia/query/find_node.rs]: whom the
    query asks, what it reports, when it ends, and how a slow peer affects its parallelism. *)

From stdpp Require Import base tactics option list gmap sorting.
From Stdlib Require Import NArith Lia Init.Byte.
From S2P Require Import Prelude Multiaddr AddressStore BTreeMap KademliaTypes KademliaStore.
From S2P Require Import KademliaQuery.
From S2P Require Import QueryFrontier.

(** The peer an action sends a request to. *)
Definition sent_to (a : option QueryAction) : list PeerId :=
  match a with Some (SendMessage _ peer _) => [peer] | _ => [] end.

Inductive FindNodeEvent :=
| FnResponse (peer : PeerId) (peers : list KademliaPeer)
| FnFailure (peer : PeerId)
| FnPoll (now : N).

(** A query, the peers it sent requests to and the peers that responded. *)
Record FindNodeRun (T : Type) := mkFindNodeRun {
  run_query : FindNodeContext T;
  run_sent : list PeerId;
  run_responders : list KademliaPeer;
}.
Arguments mkFindNodeRun {T} _ _ _.
Arguments run_query {T} _.
Arguments run_sent {T} _.
Arguments run_responders {T} _.

Section find_node_facts.
Context `{Sha256, MultihashLib} {T : Type}.
Implicit Types (c : FindNodeContext T) (r : FindNodeRun T).

Definition fn_step r (ev : FindNodeEvent) : FindNodeRun T :=
  match ev with
  | FnResponse peer peers =>
      let '(c, p) := fn_register_response (run_query r) peer peers in
      mkFindNodeRun c (run_sent r) (run_responders r ++ option_list p)
  | FnFailure peer =>
      mkFindNodeRun (fn_register_response_failure (run_query r) peer) (run_sent r) (run_responders r)
  | FnPoll now =>
      let '(c, a) := fn_next_action (run_query r) now in
      mkFindNodeRun c (run_sent r ++ sent_to a) (run_responders r)
  end.

Definition fn_start (config : FindNodeConfig T) (message : QueryMessage)
    (in_peers : list KademliaPeer) : FindNodeRun T :=
  mkFindNodeRun (FindNodeContext_new config message in_peers) [] [].

Definition fn_run (config : FindNodeConfig T) (message : QueryMessage)
    (in_peers : list KademliaPeer) (evs : list FindNodeEvent) : FindNodeRun T :=
  foldl fn_step (fn_start config message in_peers) evs.

(** The peers of the messages are keyed by their identifiers. *)
Definition event_keyed (ev : FindNodeEvent) : Prop :=
  match ev with FnResponse _ peers => Forall peer_keyed peers | _ => True end.

Record fn_wf c : Prop := mkFnWf {
  fn_wf_frontier : frontier_wf (fn_local (fn_config c)) (fn_target (fn_config c))
    (fn_candidates c) (dom (fn_pending c)) (fn_queried c);
  fn_wf_pending k p t : fn_pending c !! k = Some (p, t) → kad_peer p = k;
  fn_wf_count : (fn_pending_responses c ≤ N.of_nat (size (fn_pending c)))%N;
  fn_wf_parallelism : (fn_pending_responses c ≤ fn_parallelism (fn_config c))%N;
}.

Record run_wf r : Prop := mkRunWf {
  run_wf_query : fn_wf (run_query r);
  run_wf_sent : ∀ p, p ∈ run_sent r ↔ p ∈ dom (fn_pending (run_query r)) ∪ fn_queried (run_query r);
  run_wf_nodup : NoDup (run_sent r);
  run_wf_responders p : p ∈ run_responders r → kad_peer p ∈ run_sent r;
  run_wf_closest : closest_responses (fn_target (fn_config (run_query r)))
    (fn_replication (fn_config (run_query r))) (run_responders r) (fn_responses (run_query r));
}.

Definition start_wf (config : FindNodeConfig T) (in_peers : list KademliaPeer) : Prop :=
  Forall (λ p, peer_keyed p ∧ kad_peer p ≠ fn_local config) in_peers.

Lemma fn_start_wf config message in_peers : start_wf config in_peers →
  run_wf (fn_start config message in_peers).
Proof.
  intros Hs. split; simpl; [|set_solver|constructor|set_solver|apply closest_nil].
  split; simpl; [rewrite dom_empty_L; by apply frontier_new|by intros ??? ?%lookup_empty_Some|lia|lia].
Qed.

Lemma size_delete_pending {A} (m : gmap PeerId A) k x n : m !! k = Some x →
  (n ≤ N.of_nat (size m))%N → (n - 1 ≤ N.of_nat (size (delete k m)))%N.
Proof. intros Hk Hn. rewrite map_size_delete_Some by eauto. lia. Qed.

Lemma fn_step_failure r peer : run_wf r → run_wf (fn_step r (FnFailure peer)).
Proof.
  intros [[Hf Hp Hc Hl] Hs Hn Hr Hcl]. simpl. unfold fn_register_response_failure.
  destruct (fn_pending (run_query r) !! peer) as [[p t]|] eqn:E; [|by destruct r].
  pose proof (Hp _ _ _ E) as ->. assert (peer ∈ dom (fn_pending (run_query r))) by by eapply elem_of_dom_2.
  split; simpl; [|intros q; rewrite Hs, dom_delete_L; destruct (decide (q = peer)); set_solver|done..].
  split; simpl; [|intros k q t' [_ ?]%lookup_delete_Some; by eapply Hp| |lia].
  - rewrite dom_delete_L. by apply frontier_resolve.
  - by eapply size_delete_pending.
Qed.

Lemma fn_step_response r peer peers : Forall peer_keyed peers → run_wf r →
  run_wf (fn_step r (FnResponse peer peers)).
Proof.
  intros Hk [[Hf Hp Hc Hl] Hs Hn Hr Hcl]. simpl. unfold fn_register_response.
  destruct (fn_pending (run_query r) !! peer) as [[p t]|] eqn:E;
    [|destruct r; simpl; by rewrite app_nil_r].
  pose proof (Hp _ _ _ E) as Hpeer. rewrite Hpeer.
  assert (peer ∈ dom (fn_pending (run_query r))) by by eapply elem_of_dom_2.
  split; simpl; [|intros q; rewrite Hs, dom_delete_L; destruct (decide (q = peer)); set_solver|done| |].
  - split; simpl; [|intros k q t' [_ ?]%lookup_delete_Some; by eapply Hp| |lia].
    + apply frontier_add; [|done]. rewrite dom_delete_L. by apply frontier_resolve.
    + by eapply size_delete_pending.
  - intros q [Hq|Hq%list_elem_of_singleton]%elem_of_app; [by apply Hr|subst q].
    rewrite Hpeer. apply Hs. set_solver.
  - by apply add_response_closest.
Qed.

(** What [next_action] does to the query: it only moves the first candidate to the pending peers. *)
Lemma fn_next_action_cases c now :
  let '(c', a) := fn_next_action c now in
  let n := (fn_pending_responses c - N.of_nat (fn_timed_out c now))%N in
  (c' = c ∨ c' = fn_set_pending_responses c n) ∧ sent_to a = [] ∨
  n ≠ fn_parallelism (fn_config c) ∧ ∃ d p l, fn_candidates c = (d, p) :: l ∧
    sent_to a = [kad_peer p] ∧
    c' = mkFindNodeContext (fn_config c) (fn_message c) (<[kad_peer p := (p, now)]> (fn_pending c))
           (fn_queried c) l (fn_responses c) (fn_peer_timeout c) (N.min usize_max (n + 1)).
Proof.
  unfold fn_next_action. destruct (fn_is_done c); cbv zeta iota beta; [left; split; [by left|by case_decide]|].
  cbn [fn_set_pending_responses fn_pending_responses fn_config fn_responses fn_candidates].
  destruct (N.eqb_spec (fn_pending_responses c - N.of_nat (fn_timed_out c now))
    (fn_parallelism (fn_config c))) as [Hn|Hn]; [left; split; [by right|done]|].
  assert (∀ n, let '(c', a) := fn_schedule_next_peer (fn_set_pending_responses c n) now in
    c' = fn_set_pending_responses c n ∧ a = None ∨ ∃ d p l, fn_candidates c = (d, p) :: l ∧
    sent_to a = [kad_peer p] ∧
    c' = mkFindNodeContext (fn_config c) (fn_message c) (<[kad_peer p := (p, now)]> (fn_pending c))
           (fn_queried c) l (fn_responses c) (fn_peer_timeout c) (N.min usize_max (n + 1))) as Hsched.
  { intros n. unfold fn_schedule_next_peer. simpl.
    destruct (fn_candidates c) as [|[d p] l] eqn:E; simpl; [by left|right]. by exists d, p, l. }
  specialize (Hsched (fn_pending_responses c - N.of_nat (fn_timed_out c now))%N).
  simpl. case_decide.
  - destruct (fn_schedule_next_peer _ _) as [c' a]. destruct Hsched as [[-> ->]|?]; naive_solver.
  - destruct (fn_candidates c) as [|[d p] l] eqn:E; [naive_solver|].
    destruct (bt_last _) as [[w q]|]; [|naive_solver]. destruct (_ <? _)%N; [|naive_solver].
    destruct (fn_schedule_next_peer _ _) as [c' a]. destruct Hsched as [[-> ->]|?]; naive_solver.
Qed.

Lemma fn_set_pending_wf c n : fn_wf c → (n ≤ fn_pending_responses c)%N →
  fn_wf (fn_set_pending_responses c n).
Proof. intros [Hf Hp Hc Hl] Hn. split; simpl; [done..|lia|lia]. Qed.

Lemma fn_step_poll r now : run_wf r → run_wf (fn_step r (FnPoll now)).
Proof.
  intros [Hw Hs Hn Hr Hcl]. simpl. pose proof (fn_next_action_cases (run_query r) now) as Hc.
  destruct (fn_next_action (run_query r) now) as [c' a].
  destruct Hc as [[[->| ->] ->]|(Hne & d & p & l & El & -> & ->)]; rewrite ?app_nil_r.
  - by split.
  - split; simpl; [apply fn_set_pending_wf; [done|lia]|done..].
  - destruct Hw as [Hf Hp Hc Hl]. rewrite El in Hf. pose proof Hf as [_ Hcand _ _].
    destruct (Hcand d p) as (_ & _ & _ & Hnew); [by left|].
    split; simpl; [|intros q; rewrite elem_of_app, Hs, dom_insert_L; set_solver|
      apply NoDup_app; split_and!; [done|set_solver|apply NoDup_singleton]|set_solver|done].
    split; simpl; [rewrite dom_insert_L; by eapply frontier_pop|
      intros k q t [[? ?]|[_ ?]]%lookup_insert_Some; [naive_solver|by eapply Hp]| |lia].
    rewrite map_size_insert_None; [lia|]. apply not_elem_of_dom. set_solver.
Qed.

Lemma fn_step_wf r ev : event_keyed ev → run_wf r → run_wf (fn_step r ev).
Proof. destruct ev; [apply fn_step_response|intros _; apply fn_step_failure|intros _; apply fn_step_poll]. Qed.

Lemma fn_steps_wf r evs : Forall event_keyed evs → run_wf r → run_wf (foldl fn_step r evs).
Proof. intros He. revert r. induction He; intros r Hr; simpl; [done|]. by apply IHHe, fn_step_wf. Qed.

(** The parts of a query that never change. *)
Definition fn_static c : FindNodeConfig T * QueryMessage := (fn_config c, fn_message c).

Lemma fn_step_static r ev : fn_static (run_query (fn_step r ev)) = fn_static (run_query r).
Proof.
  destruct ev as [peer peers|peer|now]; simpl.
  - unfold fn_register_response. by destruct (fn_pending _ !! _) as [[]|].
  - unfold fn_register_response_failure. by destruct (fn_pending _ !! _) as [[]|].
  - pose proof (fn_next_action_cases (run_query r) now) as Hc.
    destruct (fn_next_action (run_query r) now) as [c' a].
    by destruct Hc as [[[->| ->] _]|(_ & d & p & l & _ & _ & ->)].
Qed.

Lemma fn_run_static config message in_peers evs :
  fn_static (run_query (fn_run config message in_peers evs)) = (config, message).
Proof.
  unfold fn_run. change (config, message) with (fn_static (run_query (fn_start config message in_peers))).
  generalize (fn_start config message in_peers) as r. induction evs as [|ev evs IH]; intros r; [done|].
  simpl. by rewrite IH, fn_step_static.
Qed.

Lemma fn_run_config config message in_peers evs :
  fn_config (run_query (fn_run config message in_peers evs)) = config.
Proof. by pose proof (fn_run_static config message in_peers evs) as [= ? _]. Qed.

Lemma fn_run_wf config message in_peers evs : start_wf config in_peers → Forall event_keyed evs →
  run_wf (fn_run config message in_peers evs).
Proof. intros Hs He. by apply fn_steps_wf, fn_start_wf. Qed.

(** C22. However responses, failures and polls are interleaved, a [FIND_NODE] query never asks a peer
    twice and never asks the local node, only peers it asked count as responders, and what it
    holds are exactly the [replication_factor] responders that are closest to the target, in
    order of distance. *)
Theorem find_node_closest_responders config message in_peers evs :
  start_wf config in_peers → Forall event_keyed evs →
  let r := fn_run config message in_peers evs in
  NoDup (run_sent r) ∧ fn_local config ∉ run_sent r ∧
  (∀ p, p ∈ run_responders r → kad_peer p ∈ run_sent r) ∧
  closest_responses (fn_target config) (fn_replication config) (run_responders r)
    (fn_responses (run_query r)).
Proof.
  intros Hs He r. pose proof (fn_run_wf config message in_peers evs Hs He) as [[Hf _ _ _] Hse Hn Hr Hcl].
  fold r in Hf, Hse, Hn, Hr, Hcl. unfold r in Hf, Hcl at 1 2. rewrite fn_run_config in Hf, Hcl.
  split_and!; [done| |done|done]. rewrite Hse. apply (frontier_local _ _ _ _ _ Hf).
Qed.
(** ** Completion *)

(** What an action of a poll says about the run [r] it is taken in and the query [c'] it leaves. *)
Definition poll_spec r c' (a : option QueryAction) : Prop :=
  let c := run_query r in
  let config := fn_config c in
  match a with
  | None => fn_pending c' ≠ ∅
  | Some (SendMessage query peer message) =>
      query = fn_query config ∧ message = fn_message c ∧ peer ∉ run_sent r ∧ peer ∈ dom (fn_pending c')
  | Some (QueryFailed query) =>
      query = fn_query config ∧ fn_pending c = ∅ ∧ fn_candidates c = [] ∧ run_responders r = []
  | Some (QuerySucceeded query) =>
      query = fn_query config ∧ fn_responses c ≠ [] ∧
      (fn_pending c = ∅ ∧ fn_candidates c = [] ∨
       length (fn_responses c) = fn_replication config ∧
       ∀ d p d', (d, p) ∈ fn_candidates c → d' ∈ (fn_responses c).*1 → (d' ≤ d)%N)
  | Some _ => False
  end.

Lemma fn_is_done_spec c : fn_is_done c = true ↔ fn_pending c = ∅ ∧ fn_candidates c = [].
Proof. unfold fn_is_done. by rewrite andb_true_iff, !bool_decide_eq_true. Qed.

Lemma fn_responses_nil r : run_wf r → 0 < fn_replication (fn_config (run_query r)) →
  fn_responses (run_query r) = [] → run_responders r = [].
Proof.
  intros [_ _ _ _ [_ _ _ Hc]] Hk Hn. destruct (run_responders r) as [|p ps]; [done|].
  destruct (Hc p) as [Hin|[Hl _]]; [by left| |]; rewrite Hn in *; [set_solver|simpl in *; lia].
Qed.

(** Without a candidate to ask, an unfinished query still waits for an answer. *)
Lemma fn_schedule_spec r n now :
  run_wf r → fn_is_done (run_query r) = false →
  let '(c', a) := fn_schedule_next_peer (fn_set_pending_responses (run_query r) n) now in
  poll_spec r c' a.
Proof.
  intros [[Hf _ _ _] Hs _ _ _] Hd. unfold fn_schedule_next_peer. simpl.
  destruct (fn_candidates (run_query r)) as [|[d p] l] eqn:E; simpl.
  - intros Hp. apply not_true_iff_false in Hd. by apply Hd, fn_is_done_spec.
  - split_and!; [done..| |set_solver]. rewrite Hs.
    by destruct (frontier_candidate _ _ _ _ _ Hf d p) as (_ & _ & _ & ?); [left|].
Qed.

(** No candidate is closer than the worst response when the best one is not. *)
Lemma worst_response_bound r d p l w q : run_wf r →
  fn_candidates (run_query r) = (d, p) :: l → bt_last (fn_responses (run_query r)) = Some (w, q) →
  (w ≤ fn_distance (run_query r) p)%N →
  ∀ e x e', (e, x) ∈ fn_candidates (run_query r) → e' ∈ (fn_responses (run_query r)).*1 → (e' ≤ e)%N.
Proof.
  intros [[Hf _ _ _] _ _ _ Hcl] El Ew Hw e x e' He He'. pose proof Hf as [Hs Hc _ _]. rewrite El in *.
  destruct (Hc d p) as [Hd _]; [by left|]. unfold fn_distance in Hw. rewrite <- Hd in Hw.
  assert (d ≤ e)%N as Hde.
  { apply StronglySorted_inv in Hs as [_ Hs]. rewrite Forall_forall in Hs.
    apply elem_of_cons in He as [[= -> ->]|He]; [done|]. specialize (Hs _ He). unfold bt_lt in Hs.
    simpl in Hs. lia. }
  destruct (bt_last_max _ _ (closest_sorted _ _ _ _ Hcl) Ew) as [Hmax _]. simpl in Hmax.
  apply (bt_last_keys _ _ _ Ew) in He' as [->|He'%Hmax]; lia.
Qed.

Lemma fn_poll_spec r now : run_wf r →
  (0 < fn_parallelism (fn_config (run_query r)))%N → 0 < fn_replication (fn_config (run_query r)) →
  let '(c', a) := fn_next_action (run_query r) now in poll_spec r c' a.
Proof.
  intros Hw Hpar Hk. pose proof Hw as [[Hf Hp Hc Hl] Hs Hn Hr Hcl]. unfold fn_next_action.
  destruct (fn_is_done (run_query r)) eqn:Hd.
  { apply fn_is_done_spec in Hd as [? ?]. case_decide; simpl; [|by eauto].
    by rewrite fn_responses_nil. }
  cbn [fn_set_pending_responses fn_pending_responses fn_config fn_responses fn_candidates].
  destruct (N.eqb_spec (fn_pending_responses (run_query r) -
    N.of_nat (fn_timed_out (run_query r) now)) (fn_parallelism (fn_config (run_query r)))) as [He|He].
  { simpl. intros Hemp. rewrite Hemp, map_size_empty in Hc. lia. }
  case_decide as Hlen; [by apply fn_schedule_spec|].
  pose proof (closest_length _ _ _ _ Hcl) as Hle.
  assert (fn_responses (run_query r) ≠ []) as Hne by (intros Hnil; rewrite Hnil in Hlen; simpl in *; lia).
  destruct (fn_candidates (run_query r)) as [|[d p] l] eqn:El.
  { split_and!; [done..|]. right. rewrite El. split; [lia|set_solver]. }
  destruct (bt_last (fn_responses (run_query r))) as [[w q]|] eqn:Ew;
    [|by apply last_None in Ew].
  destruct (N.ltb_spec (fn_distance (fn_set_pending_responses (run_query r)
    (fn_pending_responses (run_query r) - N.of_nat (fn_timed_out (run_query r) now))) p) w) as [Hlt|Hge];
    [by apply fn_schedule_spec|].
  split_and!; [done..|]. right. split; [lia|]. by eapply worst_response_bound.
Qed.

(** C28. In every state of a run, polling the query is never stuck: it asks a peer that was not asked
    before, or it waits and a request is outstanding, or it fails because no peer is left and
    none ever responded, or it succeeds because no peer is left or because it holds
    [replication_factor] responders and no known candidate is closer than any of them. *)
Theorem find_node_poll config message in_peers evs now :
  start_wf config in_peers → Forall event_keyed evs →
  (0 < fn_parallelism config)%N → 0 < fn_replication config →
  let r := fn_run config message in_peers evs in
  let '(c', a) := fn_next_action (run_query r) now in poll_spec r c' a.
Proof.
  intros Hs He Hp Hk r. apply fn_poll_spec; [by apply fn_run_wf|..]; unfold r; by rewrite fn_run_config.
Qed.

(** ** Slow peers *)

Definition fn_polls n now r : FindNodeRun T := Nat.iter n (λ r, fn_step r (FnPoll now)) r.

Lemma fn_poll_timed_out r now d p l :
  let c := run_query r in
  run_wf r → (0 < fn_parallelism (fn_config c))%N →
  length (fn_responses c) < fn_replication (fn_config c) → 0 < fn_timed_out c now →
  fn_candidates c = (d, p) :: l →
  let c' := run_query (fn_step r (FnPoll now)) in
  fn_candidates c' = l ∧ fn_config c' = fn_config c ∧ fn_responses c' = fn_responses c ∧
  size (fn_pending c') = S (size (fn_pending c)) ∧ 0 < fn_timed_out c' now.
Proof.
  intros c [[Hf Hp Hc Hl] _ _ _ _] Hpar Hk Ht El c'. fold c in Hf, Hp, Hc, Hl. unfold c'. simpl. fold c.
  assert (fn_is_done c = false) as Hd.
  { apply not_true_iff_false. rewrite fn_is_done_spec, El. naive_solver. }
  unfold fn_next_action. rewrite Hd.
  cbn [fn_set_pending_responses fn_pending_responses fn_config fn_responses fn_candidates].
  rewrite (proj2 (N.eqb_neq _ _)) by lia. rewrite decide_True by done.
  unfold fn_schedule_next_peer. simpl. rewrite El. simpl.
  assert (fn_pending c !! kad_peer p = None) as Hnone.
  { rewrite El in Hf. destruct (frontier_candidate _ _ _ _ _ Hf d p) as (_ & _ & _ & Hn); [by left|].
    apply not_elem_of_dom. set_solver. }
  split_and!; [done..|by apply map_size_insert_None|].
  unfold fn_timed_out in *. simpl. rewrite map_filter_insert_False; [|simpl; lia].
  by rewrite delete_id.
Qed.

Lemma fn_polls_timed_out n now : ∀ r,
  run_wf r → (0 < fn_parallelism (fn_config (run_query r)))%N →
  length (fn_responses (run_query r)) < fn_replication (fn_config (run_query r)) →
  0 < fn_timed_out (run_query r) now → n ≤ length (fn_candidates (run_query r)) →
  size (fn_pending (run_query (fn_polls n now r))) = size (fn_pending (run_query r)) + n.
Proof.
  induction n as [|n IH]; intros r Hw Hp Hk Ht Hn; [simpl; lia|]. unfold fn_polls.
  rewrite Nat.iter_succ_r. fold (fn_polls n now (fn_step r (FnPoll now))).
  destruct (fn_candidates (run_query r)) as [|[d p] l] eqn:El; [simpl in Hn; lia|].
  destruct (fn_poll_timed_out r now d p l Hw Hp Hk Ht El) as (Hl & Hc & Hr & Hs & Ht').
  rewrite IH; rewrite ?Hl, ?Hc, ?Hr, ?Hs; try done; [lia|by apply fn_step_poll|simpl in Hn; lia].
Qed.

(** One pending peer that exceeds its timeout frees a slot on every poll, not one slot in all:
    while it is pending and responses are missing, each poll sends one more request, until
    every candidate has an outstanding request, whatever the parallelism factor. *)
Theorem timed_out_peer_lifts_parallelism config message in_peers evs now :
  let r := fn_run config message in_peers evs in
  let c := run_query r in
  start_wf config in_peers → Forall event_keyed evs → (0 < fn_parallelism config)%N →
  length (fn_responses c) < fn_replication config → 0 < fn_timed_out c now →
  size (fn_pending (run_query (fn_polls (length (fn_candidates c)) now r))) =
  size (fn_pending c) + length (fn_candidates c).
Proof.
  intros r c Hs He Hp Hk Ht. apply fn_polls_timed_out; [by apply fn_run_wf| | |done|done];
    unfold c, r in *; by rewrite fn_run_config.
Qed.
End find_node_facts.

(** ** Witnesses *)

Section query_samples.
#[local] Existing Instance toy_sha256.
#[local] Existing Instance toy_multihash.

Definition query_peer (n : nat) : KademliaPeer :=
  let p := mkPeerId (mkMultihash MULTIHASH_IDENTITY_CODE (replicate n Byte.x00)) in
  mkKademliaPeer (key_of_peer p) p (mkAddressStore ∅ 0) NotConnected.

Definition query_config : FindNodeConfig PeerId :=
  mkFindNodeConfig (kad_peer (query_peer 0)) 2 1 7 (key_of_peer (kad_peer (query_peer 3))).

Definition query_in_peers : list KademliaPeer := query_peer <$> [1; 2; 4; 5].

Lemma query_in_peers_wf : start_wf query_config query_in_peers.
Proof. unfold start_wf. repeat constructor; by vm_compute. Qed.

(** The first peer answers with a closer one. *)
Definition query_events : list FindNodeEvent :=
  [FnPoll 0; FnResponse (kad_peer (query_peer 4)) [query_peer 3]; FnPoll 1].

Lemma query_events_keyed : Forall event_keyed query_events.
Proof. repeat constructor. Qed.

Lemma find_node_closest_responders_witness :
  let r := fn_run query_config (FindNodeRequest []) query_in_peers query_events in
  run_responders r = [query_peer 4] ∧ NoDup (run_sent r) ∧
  closest_responses (fn_target query_config) 2 (run_responders r) (fn_responses (run_query r)).
Proof.
  destruct (find_node_closest_responders query_config (FindNodeRequest []) query_in_peers query_events
    query_in_peers_wf query_events_keyed) as (Hn & _ & _ & Hc).
  split; [by vm_compute|]. split; [exact Hn|exact Hc].
Defined.

Lemma find_node_poll_witness :
  let r := fn_run query_config (FindNodeRequest []) query_in_peers query_events in
  poll_spec r (fn_next_action (run_query r) 2).1 None ∧ (fn_next_action (run_query r) 2).2 = None.
Proof.
  pose proof (find_node_poll query_config (FindNodeRequest []) query_in_peers query_events 2
    query_in_peers_wf query_events_keyed ltac:(done) ltac:(simpl; lia)) as Hp.
  cbv zeta in *. assert ((fn_next_action (run_query (fn_run query_config (FindNodeRequest [])
    query_in_peers query_events)) 2).2 = None) as Ha by by vm_compute.
  destruct (fn_next_action _ 2) as [c' a]. simpl in Ha. subst a. split; [exact Hp|reflexivity].
Defined.

Lemma timed_out_peer_lifts_parallelism_witness :
  let r := fn_run query_config (FindNodeRequest []) query_in_peers [FnPoll 0] in
  size (fn_pending (run_query (fn_polls 3 20000 r))) = 4 ∧ fn_parallelism query_config = 1%N.
Proof.
  pose proof (timed_out_peer_lifts_parallelism query_config (FindNodeRequest []) query_in_peers
    [FnPoll 0] 20000 query_in_peers_wf ltac:(repeat constructor) ltac:(done)) as Hp.
  cbv zeta in *. split; [|reflexivity].
  assert (length (fn_candidates (run_query (fn_run query_config (FindNodeRequest []) query_in_peers
    [FnPoll 0]))) = 3) as Hl by by vm_compute.
  rewrite Hl in Hp. rewrite Hp; [by vm_compute|vm_compute; lia|vm_compute; lia].
Defined.
End query_samples.
