(* ===== verification/GetRecordFacts.v ===== *)
(** * The [GET_VALUE] query

    Runs of [GetRecordContext] of [src/src/protocol/libp2p/kademlia/query/get_record.rs]: whom the
    query asks, how many requests are outstanding, which records it delivers and when it
    ends. *)

From stdpp Require Import base tactics option list gmap sorting.
From Stdlib Require Import NArith Lia Init.Byte.
From S2P Require Import Prelude Multiaddr AddressStore BTreeMap KademliaTypes KademliaStore.
From S2P Require Import KademliaQuery QueryFrontier FindNodeFacts.

Inductive GetRecordEvent :=
| GrResponse (now : N) (peer : PeerId) (record : option DhtRecord) (peers : list KademliaPeer)
| GrFailure (peer : PeerId)
| GrPoll.

(** A query, the peers it sent requests to and the records it delivered. *)
Record GetRecordRun := mkGetRecordRun {
  gr_run_query : GetRecordContext;
  gr_run_sent : list PeerId;
  gr_run_delivered : list PeerRecord;
}.

Definition delivered_by (a : option QueryAction) : list PeerRecord :=
  match a with Some (GetRecordPartialResult _ r) => [r] | _ => [] end.

Section get_record_facts.
Context `{Sha256, MultihashLib}.
Implicit Types (c : GetRecordContext) (r : GetRecordRun).

Definition gr_step r (ev : GetRecordEvent) : GetRecordRun :=
  match ev with
  | GrResponse now peer record peers =>
      mkGetRecordRun (gr_register_response (gr_run_query r) now peer record peers).1
        (gr_run_sent r) (gr_run_delivered r)
  | GrFailure peer =>
      mkGetRecordRun (gr_register_response_failure (gr_run_query r) peer)
        (gr_run_sent r) (gr_run_delivered r)
  | GrPoll =>
      let '(c, a) := gr_next_action (gr_run_query r) in
      mkGetRecordRun c (gr_run_sent r ++ sent_to a) (gr_run_delivered r ++ delivered_by a)
  end.

Definition gr_start (config : GetRecordConfig) (in_peers : list KademliaPeer) (local_record : bool) :
    GetRecordRun :=
  mkGetRecordRun (GetRecordContext_new config in_peers local_record) [] [].

Definition gr_run config in_peers local_record (evs : list GetRecordEvent) : GetRecordRun :=
  foldl gr_step (gr_start config in_peers local_record) evs.

Definition gr_event_keyed (ev : GetRecordEvent) : Prop :=
  match ev with GrResponse _ _ _ peers => Forall peer_keyed peers | _ => True end.

Definition gr_start_wf (config : GetRecordConfig) (in_peers : list KademliaPeer) : Prop :=
  Forall (λ p, peer_keyed p ∧ kad_peer p ≠ gr_local config) in_peers.

(** The records found so far, delivered or not. *)
Definition gr_all r : list PeerRecord := gr_run_delivered r ++ gr_records (gr_run_query r).

Record gr_wf (config : GetRecordConfig) (local_record : bool) r : Prop := mkGrWf {
  gr_wf_config : gr_config (gr_run_query r) = config;
  gr_wf_frontier : frontier_wf (gr_local config) (gr_target config)
    (gr_candidates (gr_run_query r)) (dom (gr_pending (gr_run_query r))) (gr_queried (gr_run_query r));
  gr_wf_pending k p : gr_pending (gr_run_query r) !! k = Some p → kad_peer p = k;
  gr_wf_parallelism : size (gr_pending (gr_run_query r)) ≤ gr_parallelism config;
  gr_wf_sent p : p ∈ gr_run_sent r ↔
    p ∈ dom (gr_pending (gr_run_query r)) ∪ gr_queried (gr_run_query r);
  gr_wf_nodup : NoDup (gr_run_sent r);
  gr_wf_found : found_records (gr_run_query r) = (if local_record then 1 else 0) + length (gr_all r);
  gr_wf_records : NoDup (record_peer <$> gr_all r);
  gr_wf_records_queried p : p ∈ record_peer <$> gr_all r → p ∈ gr_queried (gr_run_query r);
}.

Lemma gr_start_run_wf config in_peers b : gr_start_wf config in_peers →
  gr_wf config b (gr_start config in_peers b).
Proof.
  intros Hs. split; unfold gr_all; simpl; try (done || apply NoDup_nil_2 || set_solver).
  - rewrite dom_empty_L. by apply frontier_new.
  - rewrite map_size_empty. lia.
Qed.

Lemma gr_step_failure config b r peer : gr_wf config b r → gr_wf config b (gr_step r (GrFailure peer)).
Proof.
  intros [Hcf Hf Hp Hl Hs Hn Hfo Hr Hrq]. simpl. unfold gr_register_response_failure.
  destruct (gr_pending (gr_run_query r) !! peer) as [p|] eqn:E; [|by destruct r].
  pose proof (Hp _ _ E) as ->. assert (peer ∈ dom (gr_pending (gr_run_query r))) by by eapply elem_of_dom_2.
  split; unfold gr_all in *; simpl; try done.
  - rewrite dom_delete_L. by apply frontier_resolve.
  - intros k q [_ ?]%lookup_delete_Some. by eapply Hp.
  - rewrite map_size_delete_Some by eauto. lia.
  - intros q. rewrite Hs, dom_delete_L. destruct (decide (q = peer)); set_solver.
  - set_solver.
Qed.

(** The record of a response is queued when it has not expired. *)
Lemma gr_register_response_records c now peer record peers p :
  gr_pending c !! peer = Some p → kad_peer p = peer →
  let c' := (gr_register_response c now peer record peers).1 in
  ∃ new, gr_records c' = gr_records c ++ new ∧ found_records c' = found_records c + length new ∧
    (new = [] ∨ ∃ x, record = Some x ∧ record_is_expired x now = false ∧ new = [mkPeerRecord peer x]).
Proof.
  intros E <-. unfold gr_register_response. rewrite E.
  destruct record as [x|]; [destruct (record_is_expired x now) eqn:Ex|]; simpl.
  - exists []. rewrite app_nil_r. split_and!; [done|simpl; lia|by left].
  - exists [mkPeerRecord (kad_peer p) x]. split_and!; [done|simpl; lia|right; eauto].
  - exists []. rewrite app_nil_r. split_and!; [done|simpl; lia|by left].
Qed.

Lemma gr_register_response_rest c now peer record peers p : gr_pending c !! peer = Some p →
  let c' := (gr_register_response c now peer record peers).1 in
  gr_config c' = gr_config c ∧ gr_pending c' = delete peer (gr_pending c) ∧
  gr_queried c' = {[kad_peer p]} ∪ gr_queried c ∧
  gr_candidates c' = add_candidates (gr_target (gr_config c)) (gr_candidates c)
    (to_query_candidate (gr_local (gr_config c)) ({[kad_peer p]} ∪ gr_queried c)
       (delete peer (gr_pending c)) peers).
Proof.
  intros E. unfold gr_register_response. rewrite E.
  by destruct record as [x|]; [destruct (record_is_expired x now)|].
Qed.

Lemma gr_step_response config b r now peer record peers : Forall peer_keyed peers → gr_wf config b r →
  gr_wf config b (gr_step r (GrResponse now peer record peers)).
Proof.
  intros Hk [Hcf Hf Hp Hl Hs Hn Hfo Hr Hrq]. simpl.
  destruct (gr_pending (gr_run_query r) !! peer) as [p|] eqn:E;
    [|unfold gr_register_response; rewrite E; by destruct r].
  pose proof (Hp _ _ E) as Hpeer.
  assert (peer ∈ dom (gr_pending (gr_run_query r))) as Hin by by eapply elem_of_dom_2.
  destruct (gr_register_response_records _ now _ record peers _ E Hpeer) as (new & Hnew & Hfn & Hcase).
  destruct (gr_register_response_rest _ now _ record peers _ E) as (Hc1 & Hc2 & Hc3 & Hc4).
  rewrite Hpeer in *. pose proof (frontier_disjoint _ _ _ _ _ Hf) as Hdis.
  split; unfold gr_all in *; simpl; rewrite ?Hnew, ?Hfn, ?Hc1, ?Hc2, ?Hc3, ?Hc4, ?Hcf; try done.
  - apply frontier_add; [|done]. rewrite dom_delete_L. by apply frontier_resolve.
  - intros k q [_ ?]%lookup_delete_Some. by eapply Hp.
  - rewrite map_size_delete_Some by eauto. lia.
  - intros q. rewrite Hs, dom_delete_L. destruct (decide (q = peer)); set_solver.
  - rewrite Hfo, !length_app. lia.
  - rewrite app_assoc, fmap_app. apply NoDup_app.
    destruct Hcase as [->|(x & _ & _ & ->)]; split_and!; try done; [set_solver|constructor| |
      simpl; apply NoDup_singleton]. set_solver.
  - destruct Hcase as [->|(x & _ & _ & ->)]; rewrite app_assoc, fmap_app; set_solver.
Qed.

Lemma gr_is_done_spec c : gr_is_done c = true ↔ gr_pending c = ∅ ∧ gr_candidates c = [].
Proof. unfold gr_is_done. by rewrite andb_true_iff, !bool_decide_eq_true. Qed.

(** The number of records a quorum asks for. *)
Definition quorum_met (quorum : Quorum) (replication n : nat) : Prop :=
  match quorum with
  | QuorumAll => replication ≤ n
  | QuorumOne => 1 ≤ n
  | QuorumN m => (m ≤ N.of_nat n)%N
  end.

Lemma sufficient_records_spec config n :
  sufficient_records config n = true ↔
  quorum_met (gr_quorum config) (gr_replication config) (gr_known_records config + n).
Proof.
  unfold sufficient_records, quorum_met.
  destruct (gr_quorum config); [apply bool_decide_eq_true..|apply N.leb_le].
Qed.

(** What an action of a poll says about the query [c] it is taken in and the query [c'] it leaves. *)
Definition gr_poll_spec c c' (a : option QueryAction) : Prop :=
  let config := gr_config c in
  let known := gr_known_records config + found_records c in
  let met := quorum_met (gr_quorum config) (gr_replication config) known in
  match a with
  | None => c' = c ∧ gr_pending c ≠ ∅ ∧ ¬ met ∧ gr_records c = [] ∧
      (size (gr_pending c) = gr_parallelism config ∨ gr_candidates c = [])
  | Some (GetRecordPartialResult query x) =>
      query = gr_query config ∧ gr_records c = x :: gr_records c'
  | Some (SendMessage query peer message) =>
      query = gr_query config ∧ message = GetValueRequest (preimage (gr_target config)) ∧
      ¬ met ∧ gr_records c = [] ∧ size (gr_pending c) ≠ gr_parallelism config ∧
      ∃ d p l, gr_candidates c = (d, p) :: l ∧ peer = kad_peer p ∧
        c' = mkGetRecordContext config (<[kad_peer p := p]> (gr_pending c)) (gr_queried c) l
               (found_records c) (gr_records c)
  | Some (QueryFailed query) =>
      c' = c ∧ query = gr_query config ∧ gr_pending c = ∅ ∧ gr_candidates c = [] ∧ known = 0 ∧
      gr_records c = []
  | Some (QuerySucceeded query) =>
      c' = c ∧ query = gr_query config ∧ gr_records c = [] ∧
      (met ∨ gr_pending c = ∅ ∧ gr_candidates c = [] ∧ known ≠ 0)
  | Some _ => False
  end.

Lemma gr_next_action_spec c : 0 < gr_parallelism (gr_config c) →
  let '(c', a) := gr_next_action c in gr_poll_spec c c' a.
Proof.
  intros Hpar. unfold gr_next_action. destruct (gr_records c) as [|x xs] eqn:Er; [|done].
  destruct (gr_is_done c) eqn:Ed.
  { apply gr_is_done_spec in Ed as [??]. case_decide; simpl; naive_solver. }
  destruct (sufficient_records (gr_config c) (found_records c)) eqn:Es.
  { apply sufficient_records_spec in Es. simpl. by eauto 6. }
  assert (¬ quorum_met (gr_quorum (gr_config c)) (gr_replication (gr_config c))
    (gr_known_records (gr_config c) + found_records c)) as Hm.
  { rewrite <- sufficient_records_spec. by rewrite Es. }
  assert (gr_pending c = ∅ → gr_candidates c ≠ []) as Hnd.
  { intros ??. apply not_true_iff_false in Ed. by apply Ed, gr_is_done_spec. }
  case_decide as Hsz.
  { simpl. split_and!; try done; [|by left]. intros He. rewrite He, map_size_empty in Hsz. lia. }
  unfold gr_schedule_next_peer. destruct (gr_candidates c) as [|[d p] l] eqn:El; simpl.
  - split_and!; try done; [naive_solver|by right].
  - split_and!; try done. exists d, p, l. by rewrite Er.
Qed.

Lemma gr_step_poll config b r : 0 < gr_parallelism config → gr_wf config b r →
  gr_wf config b (gr_step r GrPoll).
Proof.
  intros Hpar Hw. pose proof Hw as [Hcf Hf Hp Hl Hs Hn Hfo Hr Hrq]. simpl.
  pose proof (gr_next_action_spec (gr_run_query r)) as Hc. rewrite Hcf in Hc. specialize (Hc Hpar).
  destruct (gr_next_action (gr_run_query r)) as [c' a] eqn:Ea.
  destruct r as [c sent del]; simpl in *.
  destruct a as [[]|]; simpl in Hc; try done; rewrite ?app_nil_r; try (by destruct Hc as [-> _]).
  - destruct Hc as (_ & _ & _ & Hrec & Hsz & d & p & l & El & -> & ->).
    rewrite El in Hf. destruct (frontier_candidate _ _ _ _ _ Hf d p) as (_ & _ & _ & Hnew); [by left|].
    assert (gr_pending c !! kad_peer p = None) as Hnone by (apply not_elem_of_dom; set_solver).
    split; unfold gr_all in *; simpl in *; rewrite ?app_nil_r; try done.
    + rewrite dom_insert_L. by eapply frontier_pop.
    + intros k q [[? ?]|[_ ?]]%lookup_insert_Some; [naive_solver|by eapply Hp].
    + rewrite map_size_insert_None by done. rewrite Hcf in Hsz. lia.
    + intros q. rewrite elem_of_app, Hs, dom_insert_L. set_solver.
    + apply NoDup_app. split_and!; [done| |apply NoDup_singleton]. set_solver.
  - destruct Hc as [_ Hrec]. unfold gr_next_action in Ea. rewrite Hrec in Ea. destruct c'. simplify_eq/=.
    assert (∀ x y (l : list PeerRecord), (x ++ [y]) ++ l = x ++ y :: l) as Happ
      by (intros; by rewrite <- app_assoc).
    split; unfold gr_all in *; simpl in *; rewrite ?Happ, ?app_nil_r; rewrite ?Hrec in *; done.
Qed.

Lemma gr_run_wf config in_peers b evs : gr_start_wf config in_peers → Forall gr_event_keyed evs →
  0 < gr_parallelism config → gr_wf config b (gr_run config in_peers b evs).
Proof.
  intros Hs He Hpar. unfold gr_run. pose proof (gr_start_run_wf config in_peers b Hs) as Hw. revert Hw.
  generalize (gr_start config in_peers b) as r. induction He as [|ev evs Hev He IH]; intros r Hw; [done|].
  simpl. apply IH. destruct ev; [by apply gr_step_response|by apply gr_step_failure|by apply gr_step_poll].
Qed.

(** C33. However responses, failures and polls are interleaved, a [GET_VALUE] query asks no peer twice
    and never the local node, has at most [parallelism_factor] requests outstanding, and finds
    at most one record per peer; a poll delivers the next record found, asks the next
    candidate, or waits while a request is outstanding. It succeeds only when every record found is
    delivered, and either the quorum is met by the records known, among which a local record counts
    twice, or nobody is left to ask and a record is known; it fails only when nobody is left and no
    record is known. *)
Theorem get_record_run config in_peers local_record evs :
  gr_start_wf config in_peers → Forall gr_event_keyed evs → 0 < gr_parallelism config →
  let r := gr_run config in_peers local_record evs in
  NoDup (gr_run_sent r) ∧ gr_local config ∉ gr_run_sent r ∧
  size (gr_pending (gr_run_query r)) ≤ gr_parallelism config ∧
  NoDup (record_peer <$> gr_all r) ∧
  found_records (gr_run_query r) = (if local_record then 1 else 0) + length (gr_all r) ∧
  let '(c', a) := gr_next_action (gr_run_query r) in gr_poll_spec (gr_run_query r) c' a.
Proof.
  intros Hs He Hpar r. destruct (gr_run_wf config in_peers local_record evs Hs He Hpar)
    as [Hcf Hf Hp Hl Hse Hn Hfo Hr Hrq]. fold r in Hcf, Hf, Hp, Hl, Hse, Hn, Hfo, Hr, Hrq.
  split_and!; try done.
  - rewrite Hse. apply (frontier_local _ _ _ _ _ Hf).
  - apply gr_next_action_spec. by rewrite Hcf.
Qed.
End get_record_facts.

Section get_record_samples.
#[local] Existing Instance toy_sha256.
#[local] Existing Instance toy_multihash.

Definition get_config : GetRecordConfig :=
  mkGetRecordConfig (kad_peer (query_peer 0)) 0 (QuorumN 1) 20 2 7 (Key_new [Byte.x01]).

Definition get_events : list GetRecordEvent :=
  [GrPoll; GrResponse 5 (kad_peer (query_peer 1)) (Some (mkDhtRecord [Byte.x01] [] None None)) [query_peer 9];
   GrPoll].

Lemma get_record_run_witness :
  let r := gr_run get_config query_in_peers false get_events in
  (gr_next_action (gr_run_query r)).2 = Some (QuerySucceeded 7) ∧ length (gr_run_delivered r) = 1 ∧
  size (gr_pending (gr_run_query r)) ≤ 2.
Proof.
  assert (gr_start_wf get_config query_in_peers) as Hs.
  { unfold gr_start_wf. repeat constructor; by vm_compute. }
  destruct (get_record_run get_config query_in_peers false get_events Hs
    ltac:(repeat constructor) ltac:(simpl; lia)) as (_ & _ & Hp & _).
  split; [by vm_compute|]. split; [by vm_compute|exact Hp].
Defined.
End get_record_samples.
