(* ===== verification/GetProvidersFacts.v ===== *)
(** * The [GET_PROVIDERS] query

    Runs of [GetProvidersContext] of
    [src/src/protocol/libp2p/kademlia/query/get_providers.rs]: whom the query asks, when it ends
    and which providers it reports. *)

From stdpp Require Import base tactics option list gmap sorting.
From Stdlib Require Import ZArith NArith Lia Init.Byte.
From S2P Require Import Prelude Multiaddr AddressStore BTreeMap KademliaTypes KademliaStore.
From S2P Require Import KademliaQuery QueryFrontier FindNodeFacts.

Inductive GetProvidersEvent :=
| GpResponse (peer : PeerId) (providers closer_peers : list KademliaPeer)
| GpFailure (peer : PeerId)
| GpPoll.

(** A query, the peers it sent requests to and the providers of the responses it accepted. *)
Record GetProvidersRun := mkGetProvidersRun {
  gp_run_query : GetProvidersContext;
  gp_run_sent : list PeerId;
  gp_run_reported : list KademliaPeer;
}.

Section get_providers_facts.
Context `{Sha256, MultihashLib}.
Implicit Types (c : GetProvidersContext) (r : GetProvidersRun).

Definition gp_step r (ev : GetProvidersEvent) : GetProvidersRun :=
  match ev with
  | GpResponse peer providers closer =>
      let '(c, p) := gp_register_response (gp_run_query r) peer providers closer in
      mkGetProvidersRun c (gp_run_sent r)
        (gp_run_reported r ++ match p with Some _ => providers | None => [] end)
  | GpFailure peer =>
      mkGetProvidersRun (gp_register_response_failure (gp_run_query r) peer) (gp_run_sent r)
        (gp_run_reported r)
  | GpPoll =>
      let '(c, a) := gp_next_action (gp_run_query r) in
      mkGetProvidersRun c (gp_run_sent r ++ sent_to a) (gp_run_reported r)
  end.

Definition gp_start (config : GetProvidersConfig) (in_peers : list KademliaPeer) : GetProvidersRun :=
  mkGetProvidersRun (GetProvidersContext_new config in_peers) [] [].

Definition gp_run config in_peers (evs : list GetProvidersEvent) : GetProvidersRun :=
  foldl gp_step (gp_start config in_peers) evs.

Definition gp_event_keyed (ev : GetProvidersEvent) : Prop :=
  match ev with GpResponse _ _ closer => Forall peer_keyed closer | _ => True end.

Definition gp_start_wf (config : GetProvidersConfig) (in_peers : list KademliaPeer) : Prop :=
  Forall (λ p, peer_keyed p ∧ kad_peer p ≠ gp_local config) in_peers.

Record gp_wf (config : GetProvidersConfig) r : Prop := mkGpWf {
  gp_wf_config : gp_config (gp_run_query r) = config;
  gp_wf_frontier : frontier_wf (gp_local config) (gp_target config)
    (gp_candidates (gp_run_query r)) (dom (gp_pending (gp_run_query r))) (gp_queried (gp_run_query r));
  gp_wf_pending k p : gp_pending (gp_run_query r) !! k = Some p → kad_peer p = k;
  gp_wf_parallelism : size (gp_pending (gp_run_query r)) ≤ gp_parallelism config;
  gp_wf_sent p : p ∈ gp_run_sent r ↔
    p ∈ dom (gp_pending (gp_run_query r)) ∪ gp_queried (gp_run_query r);
  gp_wf_nodup : NoDup (gp_run_sent r);
  gp_wf_found : gp_found (gp_run_query r) = gp_run_reported r;
}.

Lemma gp_start_run_wf config in_peers : gp_start_wf config in_peers →
  gp_wf config (gp_start config in_peers).
Proof.
  intros Hs. split; simpl; try (done || apply NoDup_nil_2 || set_solver).
  - rewrite dom_empty_L. by apply frontier_new.
  - rewrite map_size_empty. lia.
Qed.

Lemma gp_step_failure config r peer : gp_wf config r → gp_wf config (gp_step r (GpFailure peer)).
Proof.
  intros [Hcf Hf Hp Hl Hs Hn Hfo]. simpl. unfold gp_register_response_failure.
  destruct (gp_pending (gp_run_query r) !! peer) as [p|] eqn:E; [|by destruct r].
  pose proof (Hp _ _ E) as ->. assert (peer ∈ dom (gp_pending (gp_run_query r))) by by eapply elem_of_dom_2.
  split; simpl; try done.
  - rewrite dom_delete_L. by apply frontier_resolve.
  - intros k q [_ ?]%lookup_delete_Some. by eapply Hp.
  - rewrite map_size_delete_Some by eauto. lia.
  - intros q. rewrite Hs, dom_delete_L. destruct (decide (q = peer)); set_solver.
Qed.

Lemma gp_step_response config r peer providers closer : Forall peer_keyed closer → gp_wf config r →
  gp_wf config (gp_step r (GpResponse peer providers closer)).
Proof.
  intros Hk [Hcf Hf Hp Hl Hs Hn Hfo]. simpl. unfold gp_register_response.
  destruct (gp_pending (gp_run_query r) !! peer) as [p|] eqn:E;
    [|destruct r; simpl; by rewrite app_nil_r].
  pose proof (Hp _ _ E) as Hpeer. rewrite Hpeer, Hcf.
  assert (peer ∈ dom (gp_pending (gp_run_query r))) by by eapply elem_of_dom_2.
  split; simpl; try done.
  - apply frontier_add; [|done]. rewrite dom_delete_L. by apply frontier_resolve.
  - intros k q [_ ?]%lookup_delete_Some. by eapply Hp.
  - rewrite map_size_delete_Some by eauto. lia.
  - intros q. rewrite Hs, dom_delete_L. destruct (decide (q = peer)); set_solver.
  - by rewrite Hfo.
Qed.

Lemma gp_is_done_spec c : gp_is_done c = true ↔ gp_pending c = ∅ ∧ gp_candidates c = [].
Proof. unfold gp_is_done. by rewrite andb_true_iff, !bool_decide_eq_true. Qed.

(** What an action of a poll says about the query [c] it is taken in and the query [c'] it leaves. *)
Definition gp_poll_spec c c' (a : option QueryAction) : Prop :=
  let config := gp_config c in
  match a with
  | None => c' = c ∧ gp_pending c ≠ ∅ ∧
      (size (gp_pending c) = gp_parallelism config ∨ gp_candidates c = [])
  | Some (SendMessage query peer message) =>
      query = gp_query config ∧ message = GetProvidersRequest (preimage (gp_target config)) ∧
      size (gp_pending c) ≠ gp_parallelism config ∧
      ∃ d p l, gp_candidates c = (d, p) :: l ∧ peer = kad_peer p ∧
        c' = mkGetProvidersContext config (<[kad_peer p := p]> (gp_pending c)) (gp_queried c) l
               (gp_found c)
  | Some (QueryFailed query) =>
      c' = c ∧ query = gp_query config ∧ gp_pending c = ∅ ∧ gp_candidates c = [] ∧ gp_found c = []
  | Some (QuerySucceeded query) =>
      c' = c ∧ query = gp_query config ∧ gp_pending c = ∅ ∧ gp_candidates c = [] ∧ gp_found c ≠ []
  | Some _ => False
  end.

Lemma gp_next_action_spec c : 0 < gp_parallelism (gp_config c) →
  let '(c', a) := gp_next_action c in gp_poll_spec c c' a.
Proof.
  intros Hpar. unfold gp_next_action. destruct (gp_is_done c) eqn:Ed.
  { apply gp_is_done_spec in Ed as [??]. case_decide; simpl; naive_solver. }
  assert (gp_pending c = ∅ → gp_candidates c ≠ []) as Hnd.
  { intros ??. apply not_true_iff_false in Ed. by apply Ed, gp_is_done_spec. }
  case_decide as Hsz.
  { simpl. split_and!; try done; [|by left]. intros He. rewrite He, map_size_empty in Hsz. lia. }
  unfold gp_schedule_next_peer. destruct (gp_candidates c) as [|[d p] l] eqn:El; simpl.
  - split_and!; try done; [naive_solver|by right].
  - split_and!; try done. by exists d, p, l.
Qed.

Lemma gp_step_poll config r : 0 < gp_parallelism config → gp_wf config r →
  gp_wf config (gp_step r GpPoll).
Proof.
  intros Hpar [Hcf Hf Hp Hl Hs Hn Hfo]. simpl.
  pose proof (gp_next_action_spec (gp_run_query r)) as Hc. rewrite Hcf in Hc. specialize (Hc Hpar).
  destruct (gp_next_action (gp_run_query r)) as [c' a] eqn:Ea.
  destruct r as [c sent rep]; simpl in *.
  destruct a as [[]|]; simpl in Hc; try done; rewrite ?app_nil_r; try (by destruct Hc as [-> _]).
  destruct Hc as (_ & _ & Hsz & d & p & l & El & -> & ->).
  rewrite El in Hf. destruct (frontier_candidate _ _ _ _ _ Hf d p) as (_ & _ & _ & Hnew); [by left|].
  assert (gp_pending c !! kad_peer p = None) as Hnone by (apply not_elem_of_dom; set_solver).
  split; simpl in *; try done.
  + rewrite dom_insert_L. by eapply frontier_pop.
  + intros k q [[? ?]|[_ ?]]%lookup_insert_Some; [naive_solver|by eapply Hp].
  + rewrite map_size_insert_None by done. rewrite Hcf in Hsz. lia.
  + intros q. rewrite elem_of_app, Hs, dom_insert_L. set_solver.
  + apply NoDup_app. split_and!; [done| |apply NoDup_singleton]. set_solver.
Qed.

Lemma gp_run_wf config in_peers evs : gp_start_wf config in_peers → Forall gp_event_keyed evs →
  0 < gp_parallelism config → gp_wf config (gp_run config in_peers evs).
Proof.
  intros Hs He Hpar. unfold gp_run. pose proof (gp_start_run_wf config in_peers Hs) as Hw. revert Hw.
  generalize (gp_start config in_peers) as r. induction He as [|ev evs Hev He IH]; intros r Hw; [done|].
  simpl. apply IH. destruct ev; [by apply gp_step_response|by apply gp_step_failure|by apply gp_step_poll].
Qed.

(** ** The providers reported *)

Context `{HashOrder, IpNetwork}.

Definition merge_step (m : gmap PeerId (gset Multiaddr)) (p : KademliaPeer) :=
  <[kad_peer p := default ∅ (m !! kad_peer p) ∪ list_to_set (kad_addresses p)]> m.

Lemma merge_step_lookup found : ∀ (m : gmap PeerId (gset Multiaddr)) q s,
  foldl merge_step m found !! q = Some s →
  ∀ a, a ∈ s ↔ a ∈ default ∅ (m !! q) ∨ ∃ p, p ∈ found ∧ kad_peer p = q ∧ a ∈ kad_addresses p.
Proof.
  induction found as [|p found IH]; intros m q s Hs a; simpl in Hs.
  { rewrite Hs. simpl. set_solver. }
  rewrite (IH _ _ _ Hs a). unfold merge_step. destruct (decide (kad_peer p = q)) as [<-|Hne].
  - rewrite lookup_insert_eq. simpl. set_solver.
  - rewrite lookup_insert_ne by done. set_solver.
Qed.

Lemma merge_step_dom found : ∀ (m : gmap PeerId (gset Multiaddr)) q,
  is_Some (foldl merge_step m found !! q) ↔ is_Some (m !! q) ∨ ∃ p, p ∈ found ∧ kad_peer p = q.
Proof.
  induction found as [|p found IH]; intros m q; simpl; [set_solver|]. rewrite IH. unfold merge_step.
  destruct (decide (kad_peer p = q)) as [<-|Hne].
  - rewrite lookup_insert_eq. split; [intros _; right; exists p; set_solver|left; eauto].
  - rewrite lookup_insert_ne by done. set_solver.
Qed.

(** [l] lists the peers of [found] once each, closest to [target] first, each with the addresses
    of all of its entries. *)
Record merged (found : list KademliaPeer) (target : Key (list byte)) (l : list ContentProvider) :
    Prop := mkMerged {
  merged_nodup : NoDup (content_peer <$> l);
  merged_sorted : StronglySorted (λ a b,
    (key_distance (key_of_peer (content_peer a)) target ≤
     key_distance (key_of_peer (content_peer b)) target)%N) l;
  merged_peers q : q ∈ content_peer <$> l ↔ ∃ p, p ∈ found ∧ kad_peer p = q;
  merged_addresses cp a : cp ∈ l → a ∈ content_addresses cp ↔
    ∃ p, p ∈ found ∧ kad_peer p = content_peer cp ∧ a ∈ kad_addresses p;
}.

Lemma merge_and_sort_merged found target : merged found target (merge_and_sort_providers found target).
Proof.
  unfold merge_and_sort_providers. change (foldl _ ∅ found) with (foldl merge_step ∅ found).
  set (m := foldl merge_step ∅ found).
  set (f := λ kv : PeerId * gset Multiaddr, mkContentProvider kv.1 (set_order kv.2)).
  assert (∀ q, q ∈ content_peer <$> (f <$> map_order m) ↔ is_Some (m !! q)) as Hq.
  { intros q. rewrite <- list_fmap_compose, list_elem_of_fmap. split.
    - intros ([k s] & -> & Hin%map_order_elem). by exists s.
    - intros [s Hs]. exists (q, s). split; [done|by apply map_order_elem]. }
  split.
  - rewrite sort_by_key_perm, <- list_fmap_compose. apply map_order_keys_nodup.
  - eapply StronglySorted_impl_elem; [|apply sort_by_key_sorted]. unfold key_le. intros. lia.
  - intros q. rewrite sort_by_key_perm, Hq. unfold m. rewrite merge_step_dom.
    rewrite lookup_empty. split; [intros [[? ?]|?]; [done|done]|by right].
  - intros c a. rewrite sort_by_key_elem, list_elem_of_fmap. intros ([k s] & -> & Hin%map_order_elem).
    simpl. rewrite set_order_elem, (merge_step_lookup _ _ _ _ Hin). rewrite lookup_empty. simpl. set_solver.
Qed.

(** C34. However responses, failures and polls are interleaved, a [GET_PROVIDERS] query asks no peer
    twice and never the local node, has at most [parallelism_factor] requests outstanding,
    never gets stuck, ends only when nobody is left to ask, and reports every provider it knew
    or was told about once, closest to the key first, with the union of its addresses. *)
Theorem get_providers_run config in_peers evs :
  gp_start_wf config in_peers → Forall gp_event_keyed evs → 0 < gp_parallelism config →
  let r := gp_run config in_peers evs in
  NoDup (gp_run_sent r) ∧ gp_local config ∉ gp_run_sent r ∧
  size (gp_pending (gp_run_query r)) ≤ gp_parallelism config ∧
  merged (gp_known_providers config ++ gp_run_reported r) (gp_target config)
    (gp_found_providers (gp_run_query r)) ∧
  let '(c', a) := gp_next_action (gp_run_query r) in gp_poll_spec (gp_run_query r) c' a.
Proof.
  intros Hs He Hpar r. destruct (gp_run_wf config in_peers evs Hs He Hpar)
    as [Hcf Hf Hp Hl Hse Hn Hfo]. fold r in Hcf, Hf, Hp, Hl, Hse, Hn, Hfo.
  split_and!; try done.
  - rewrite Hse. apply (frontier_local _ _ _ _ _ Hf).
  - unfold gp_found_providers. rewrite Hcf, Hfo. apply merge_and_sort_merged.
  - apply gp_next_action_spec. by rewrite Hcf.
Qed.

(** A [GET_PROVIDERS] query that nobody can answer fails even when the node itself already knows
    providers of the key, which a successful query would report. *)
Theorem known_providers_do_not_count config :
  gp_known_providers config ≠ [] →
  let c := GetProvidersContext_new config [] in
  (gp_next_action c).2 = Some (QueryFailed (gp_query config)) ∧ gp_found_providers c ≠ [].
Proof.
  intros Hk c. split; [done|]. unfold gp_found_providers. simpl. rewrite app_nil_r.
  destruct (gp_known_providers config) as [|p ps] eqn:E; [done|]. intros Hn.
  pose proof (merged_peers _ _ _ (merge_and_sort_merged (p :: ps) (gp_target config)) (kad_peer p)) as Hm.
  rewrite Hn in Hm. assert (kad_peer p ∈ content_peer <$> ([] : list ContentProvider)); [|set_solver].
  apply Hm. exists p. split; [by left|done].
Qed.
End get_providers_facts.

Section get_providers_samples.
#[local] Existing Instance toy_sha256.
#[local] Existing Instance toy_multihash.
#[local] Existing Instance canonical_order.
#[local] Existing Instance sample_network.

Definition providers_config : GetProvidersConfig :=
  mkGetProvidersConfig (kad_peer (query_peer 0)) 2 7 (Key_new [Byte.x01]) [query_peer 8].

Lemma get_providers_run_witness :
  let r := gp_run providers_config query_in_peers
    [GpPoll; GpResponse (kad_peer (query_peer 1)) [query_peer 9] [query_peer 7]] in
  gp_run_reported r = [query_peer 9] ∧ NoDup (gp_run_sent r) ∧
  merged [query_peer 8; query_peer 9] (Key_new [Byte.x01]) (gp_found_providers (gp_run_query r)).
Proof.
  assert (gp_start_wf providers_config query_in_peers) as Hs.
  { unfold gp_start_wf. repeat constructor; by vm_compute. }
  destruct (get_providers_run providers_config query_in_peers
    [GpPoll; GpResponse (kad_peer (query_peer 1)) [query_peer 9] [query_peer 7]] Hs
    ltac:(repeat constructor) ltac:(simpl; lia)) as (Hn & _ & _ & Hm & _).
  assert (gp_run_reported (gp_run providers_config query_in_peers
    [GpPoll; GpResponse (kad_peer (query_peer 1)) [query_peer 9] [query_peer 7]]) = [query_peer 9])
    as Hr by by vm_compute.
  split; [exact Hr|]. split; [exact Hn|]. rewrite Hr in Hm. exact Hm.
Defined.

Lemma known_providers_do_not_count_witness :
  gp_found_providers (GetProvidersContext_new providers_config []) ≠ [].
Proof. by apply (known_providers_do_not_count providers_config). Defined.
End get_providers_samples.
