(* ===== verification/QueryEngineFacts.v ===== *)
(** * Query engine: safety and quorums

    The engine of [src/src/protocol/libp2p/kademlia/query/mod.rs] never loses track of a query, ends
    each one at most once, and applies the quorum of a [PUT_VALUE] or [ADD_PROVIDER]. *)

From stdpp Require Import base tactics option list gmap strings sorting.
From Stdlib Require Import ZArith NArith Lia Init.Byte.
From S2P Require Import Prelude Multiaddr AddressStore BTreeMap KademliaTypes KademliaStore.
From S2P Require Import KademliaMessage KademliaQuery QueryEngine FindNodeFacts GetRecordFacts.

Local Open Scope litep2p_scope.

(** The query identifier a query carries. *)
Definition query_id (q : QueryType) : N :=
  match q with
  | QFindNode c => fn_query (fn_config c)
  | QPutRecord _ _ c | QAddProvider _ _ _ c => fn_query (fn_config c)
  | QPutRecordToPeers _ _ c => fm_query c
  | QPutRecordToFoundNodes c | QAddProviderToFoundNodes c => tp_query c
  | QGetRecord c => gr_query (gr_config c)
  | QGetProviders c => gp_query (gp_config c)
  end.

Definition engine_wf (e : QueryEngine) : Prop :=
  ∀ id q, queries e !! id = Some q → query_id q = id.

(** The query an action belongs to, and whether the action ends it. *)
Definition action_query (a : QueryAction) : N * bool :=
  match a with
  | SendMessage query _ _ | GetRecordPartialResult query _ => (query, false)
  | FindNodeQuerySucceeded query _ _ | ActPutRecordToFoundNodes query _ _ _
  | PutRecordQuerySucceeded query _ | ActAddProviderToFoundNodes query _ _ _ _
  | AddProviderQuerySucceeded query _ | GetRecordQueryDone query
  | GetProvidersQueryDone query _ _ | QuerySucceeded query | QueryFailed query => (query, true)
  end.

(** ** One query *)

Section actions.
Context {T : Type}.

(** What a query may ask for: requests, partial results and its own end. *)
Definition own_action (id : N) (a : option QueryAction) : Prop :=
  match a with
  | None => True
  | Some (SendMessage query _ _) | Some (GetRecordPartialResult query _)
  | Some (QuerySucceeded query) | Some (QueryFailed query) => query = id
  | Some _ => False
  end.

Lemma fn_schedule_own (c : FindNodeContext T) now :
  fn_query (fn_config (fn_schedule_next_peer c now).1) = fn_query (fn_config c) ∧
  own_action (fn_query (fn_config c)) (fn_schedule_next_peer c now).2.
Proof. unfold fn_schedule_next_peer. by destruct (bt_pop_first _) as [[[d p] l]|]. Qed.

Lemma fn_next_action_own (c : FindNodeContext T) now :
  fn_query (fn_config (fn_next_action c now).1) = fn_query (fn_config c) ∧
  own_action (fn_query (fn_config c)) (fn_next_action c now).2.
Proof.
  unfold fn_next_action. destruct (fn_is_done c); [by case_decide|].
  destruct (_ =? _)%N; [done|].
  case_decide; [exact (fn_schedule_own (fn_set_pending_responses c _) now)|].
  destruct (fn_candidates _) as [|[d p] l]; [done|]. destruct (bt_last _) as [[w x]|]; [|done].
  destruct (_ <? _)%N; [exact (fn_schedule_own (fn_set_pending_responses c _) now)|done].
Qed.
End actions.

Lemma query_next_action_own q now :
  query_id (query_next_action q now).1 = query_id q ∧
  own_action (query_id q) (query_next_action q now).2.
Proof.
  destruct q as [c|r qu c|r qu c|c|c|k p qu c|c|c]; simpl;
    try (pose proof (fn_next_action_own c now); by destruct (fn_next_action c now));
    try (unfold tp_next_action; by destruct (tp_is_finished c), (tp_is_succeded c)); [done|..].
  - unfold gr_next_action. destruct (gr_records c); [|done]. destruct (gr_is_done c); [by case_decide|].
    destruct (sufficient_records _ _); [done|]. case_decide; [done|].
    unfold gr_schedule_next_peer. by destruct (bt_pop_first _) as [[[d p] l']|].
  - unfold gp_next_action. destruct (gp_is_done c); [by case_decide|]. case_decide; [done|].
    unfold gp_schedule_next_peer. by destruct (bt_pop_first _) as [[[d p] l']|].
Qed.

Lemma fn_failure_query {T} (c : FindNodeContext T) peer :
  fn_config (fn_register_response_failure c peer) = fn_config c.
Proof. unfold fn_register_response_failure. by destruct (_ !! _) as [[]|]. Qed.

Lemma fn_response_query {T} (c : FindNodeContext T) peer peers :
  fn_config (fn_register_response c peer peers).1 = fn_config c.
Proof. unfold fn_register_response. by destruct (_ !! _) as [[]|]. Qed.

Lemma query_response_failure_id q peer : query_id (query_response_failure q peer) = query_id q.
Proof.
  destruct q; simpl; rewrite ?fn_failure_query; try done.
  - unfold gr_register_response_failure. by destruct (_ !! _).
  - unfold gp_register_response_failure. by destruct (_ !! _).
Qed.

Lemma query_response_id q now peer message :
  query_id (query_response q now peer message).1 = query_id q.
Proof.
  destruct q as [c|r qu c|r qu c|c|c|k p qu c|c|c],
    message as [? peers| |? record peers|? |? peers providers];
    try exact (query_response_failure_id _ peer); try done; simpl;
    try (pose proof (fn_response_query c peer peers);
         destruct (fn_register_response c peer peers) as [c' ?]; simpl in *; congruence).
  - unfold gr_register_response. destruct (gr_pending c !! peer); [|done].
    destruct record as [x|]; [by destruct (record_is_expired x now)|done].
  - unfold gp_register_response. by destruct (gp_pending c !! peer).
Qed.

(** ** The engine *)

Inductive EngineOp :=
| EFindNode (id : N) (target : PeerId) (candidates : list KademliaPeer)
| EPutRecord (id : N) (record : DhtRecord) (candidates : list KademliaPeer) (quorum : Quorum)
| EPutRecordToPeers (id : N) (record : DhtRecord) (peers : list KademliaPeer) (quorum : Quorum)
| EGetRecord (id : N) (target : list byte) (candidates : list KademliaPeer) (quorum : Quorum)
    (local_record : bool)
| EAddProvider (id : N) (key : list byte) (provider : ContentProvider)
    (candidates : list KademliaPeer) (quorum : Quorum)
| EGetProviders (id : N) (key : list byte) (candidates : list KademliaPeer)
    (known : list ContentProvider)
| EPutTracking (id : N) (key : list byte) (peers : list KademliaPeer) (quorum : Quorum)
| EAddTracking (id : N) (key : list byte) (peers : list KademliaPeer) (quorum : Quorum)
| EResponse (now : N) (id : N) (peer : PeerId) (message : KademliaMessage)
| EResponseFailure (id : N) (peer : PeerId)
| ESendFailure (id : N) (peer : PeerId)
| ESendSuccess (id : N) (peer : PeerId)
| EPeerFailure (id : N) (peer : PeerId)
| ENextAction (now : N).

Section engine_facts.
Context `{IpNetwork, HashOrder, Sha256, MultihashLib}.
Implicit Types (e : QueryEngine).

Definition engine_step e (op : EngineOp) : outcome QueryEngine :=
  match op with
  | EFindNode id target candidates => Done (start_find_node e id target candidates)
  | EPutRecord id record candidates quorum => Done (start_put_record e id record candidates quorum)
  | EPutRecordToPeers id record peers quorum =>
      Done (start_put_record_to_peers e id record peers quorum)
  | EGetRecord id target candidates quorum b =>
      Done (start_get_record e id target candidates quorum b)
  | EAddProvider id key provider candidates quorum =>
      Done (start_add_provider e id key provider candidates quorum)
  | EGetProviders id key candidates known => start_get_providers e id key candidates known
  | EPutTracking id key peers quorum => Done (start_put_record_tracking e id key peers quorum)
  | EAddTracking id key peers quorum => Done (start_add_provider_tracking e id key peers quorum)
  | EResponse now id peer message => Done (register_response e now id peer message).1
  | EResponseFailure id peer => Done (register_response_failure e id peer)
  | ESendFailure id peer => Done (register_send_failure e id peer)
  | ESendSuccess id peer => Done (register_send_success e id peer)
  | EPeerFailure id peer => Done (register_peer_failure e id peer)
  | ENextAction now => run (e, _) <- engine_next_action e now ;; Done e
  end.

Definition engine_run (ops : list EngineOp) e : outcome QueryEngine := outcome_fold engine_step ops e.

Lemma set_query_wf e id q : engine_wf e → query_id q = id → engine_wf (set_query e id q).
Proof. intros He Hq i x Hx. simpl in Hx. apply lookup_insert_Some in Hx as [[<- <-]|[_ ?]]; [done|by apply He]. Qed.

Lemma delete_query_wf e id : engine_wf e → engine_wf (set_queries e (delete id (queries e))).
Proof. intros He i x Hx. simpl in Hx. apply lookup_delete_Some in Hx as [_ ?]. by apply He. Qed.

(** The outcome of a poll: no action, or an action of an active query, which it removes exactly
    when it ends it. *)
Definition action_spec e e' (a : option QueryAction) : Prop :=
  match a with
  | None => dom (queries e') = dom (queries e)
  | Some a =>
      let '(id, final) := action_query a in
      id ∈ dom (queries e) ∧
      dom (queries e') = if final then dom (queries e) ∖ {[id]} else dom (queries e)
  end.

Lemma on_query_succeeded_spec e id q : engine_wf e → queries e !! id = Some q →
  ∃ a, on_query_succeeded e id = Done (set_queries e (delete id (queries e)), a) ∧
       action_query a = (id, true).
Proof.
  intros He Hq. specialize (He _ _ Hq). unfold on_query_succeeded. rewrite Hq.
  eexists. split; [done|]. destruct q; simpl in *; by rewrite ?He.
Qed.

Lemma on_query_failed_spec e id q : queries e !! id = Some q →
  on_query_failed e id = Done (set_queries e (delete id (queries e)), QueryFailed id).
Proof. intros Hq. unfold on_query_failed. by rewrite Hq. Qed.

Lemma next_action_loop_spec now qs : ∀ e, engine_wf e →
  (∀ id q, (id, q) ∈ qs → query_id q = id ∧ id ∈ dom (queries e)) →
  ∃ e' a, next_action_loop e now qs = Done (e', a) ∧ engine_wf e' ∧ action_spec e e' a.
Proof.
  induction qs as [|[id q] qs IH]; intros e He Hqs; simpl; [by exists e, None|].
  destruct (Hqs id q) as [Hq Hid]; [by left|].
  destruct (query_next_action_own q now) as [Hq' Ha]. destruct (query_next_action q now) as [q' a].
  simpl in Hq', Ha. rewrite Hq in Hq', Ha. set (e1 := set_query e id q').
  assert (engine_wf e1) as He1 by by apply set_query_wf.
  assert (queries e1 !! id = Some q') as Hl by (simpl; by rewrite lookup_insert_eq).
  assert (dom (queries e1) = dom (queries e)) as Hd by (simpl; rewrite dom_insert_L; set_solver).
  clearbody e1. destruct a as [a|]; [|destruct (IH e1 He1) as (e' & a & Hr & He' & Hs)].
  - destruct a; simpl in Ha; try done; subst.
    1,2: eexists _, _; split; [done|]; split; [done|]; simpl; by rewrite ?Hd.
    + destruct (on_query_succeeded_spec _ _ _ He1 Hl) as (a & -> & Haq). simpl. eexists _, _.
      split; [done|]. split; [by apply delete_query_wf|]. simpl. rewrite Haq. split; [done|].
      by rewrite dom_delete_L, Hd.
    + rewrite (on_query_failed_spec _ _ _ Hl). simpl. eexists _, _.
      split; [done|]. split; [by apply delete_query_wf|]. simpl. split; [done|].
      by rewrite dom_delete_L, Hd.
  - intros i x Hx. rewrite Hd. apply Hqs. by right.
  - exists e', a. split; [done|]. split; [done|]. unfold action_spec in *. by rewrite Hd in Hs.
Qed.

Lemma engine_next_action_spec e now : engine_wf e →
  ∃ e' a, engine_next_action e now = Done (e', a) ∧ engine_wf e' ∧ action_spec e e' a.
Proof.
  intros He. apply next_action_loop_spec; [done|]. intros id q Hin%map_order_elem.
  split; [by apply He|by eapply elem_of_dom_2].
Qed.

Lemma peers_of_contents_total l : ∃ ks, peers_of_contents l = Done ks.
Proof.
  induction l as [|p l [ks IH]]; simpl; [by eexists|]. unfold peer_of_content.
  destruct (KademliaPeer_new_total (content_peer p) (content_addresses p) NotConnected)
    as (k & -> & _). simpl. rewrite IH. by eexists.
Qed.

Lemma register_response_failure_wf e id peer : engine_wf e →
  engine_wf (register_response_failure e id peer).
Proof.
  intros He. unfold register_response_failure. destruct (queries e !! id) as [q|] eqn:E; [|done].
  apply set_query_wf; [done|]. rewrite query_response_failure_id. by apply He.
Qed.

Lemma tp_failure_query c peer : tp_query (tp_register_send_failure c peer) = tp_query c.
Proof. unfold tp_register_send_failure. by case_decide. Qed.

Lemma tp_success_query c peer : tp_query (tp_register_send_success c peer) = tp_query c.
Proof. unfold tp_register_send_success. by case_decide. Qed.

Lemma register_send_failure_wf e id peer : engine_wf e → engine_wf (register_send_failure e id peer).
Proof.
  intros He. unfold register_send_failure. destruct (queries e !! id) as [q|] eqn:E; [|done].
  specialize (He _ _ E) as Hq. destruct q; try done; apply set_query_wf; try done;
    simpl in *; by rewrite tp_failure_query.
Qed.

Lemma register_send_success_wf e id peer : engine_wf e → engine_wf (register_send_success e id peer).
Proof.
  intros He. unfold register_send_success. destruct (queries e !! id) as [q|] eqn:E; [|done].
  specialize (He _ _ E) as Hq. destruct q; try done; apply set_query_wf; try done;
    simpl in *; by rewrite tp_success_query.
Qed.

Lemma engine_step_wf e op : engine_wf e → ∃ e', engine_step e op = Done e' ∧ engine_wf e'.
Proof.
  intros He. destruct op; simpl; try (eexists; split; [done|]; by apply set_query_wf).
  - unfold start_get_providers. destruct (peers_of_contents_total known) as [ks ->]. simpl.
    eexists. split; [done|]. by apply set_query_wf.
  - unfold register_response. destruct (queries e !! id) as [q|] eqn:E; [|by exists e].
    pose proof (query_response_id q now peer message) as Hq. specialize (He _ _ E) as Hid.
    destruct (query_response q now peer message) as [q' p]. eexists. split; [done|].
    simpl in *. apply set_query_wf; [done|congruence].
  - eexists. split; [done|]. by apply register_response_failure_wf.
  - eexists. split; [done|]. by apply register_send_failure_wf.
  - eexists. split; [done|]. by apply register_send_success_wf.
  - eexists. split; [done|]. by apply register_response_failure_wf, register_send_failure_wf.
  - destruct (engine_next_action_spec e now He) as (e' & a & -> & He' & _). simpl. by eexists.
Qed.

(** C30. Whatever queries are started (also with an identifier that is in use), whatever is reported
    about them and however often the engine is polled, it never panics on a query it does not
    know; an action it returns belongs to an active query, and that query is removed exactly
    when the action ends it, the others staying active. *)
Theorem query_engine_safe local replication parallelism ops now :
  ∃ e, engine_run ops (QueryEngine_new local replication parallelism) = Done e ∧
  ∃ e' a, engine_next_action e now = Done (e', a) ∧ action_spec e e' a.
Proof.
  assert (∃ e, engine_run ops (QueryEngine_new local replication parallelism) = Done e ∧ engine_wf e)
    as (e & He & Hw).
  { assert (engine_wf (QueryEngine_new local replication parallelism)) as Hw by by intros ??.
    revert Hw. generalize (QueryEngine_new local replication parallelism) as e.
    induction ops as [|op ops IH]; intros e Hw; [by exists e|].
    unfold engine_run. cbn [outcome_fold]. destruct (engine_step_wf e op Hw) as (e' & -> & Hw'). by apply IH. }
  exists e. split; [done|]. destruct (engine_next_action_spec e now Hw) as (e' & a & ? & _ & ?). eauto.
Qed.

(** A record that is in the local store counts twice: a [GET_VALUE] query that asks for two
    records ends at the first poll, before any peer is asked. *)
Theorem local_record_counts_twice e id target candidates now :
  queries e = ∅ →
  ∃ e', engine_next_action (start_get_record e id target candidates (QuorumN 2) true) now =
        Done (e', Some (GetRecordQueryDone id)).
Proof.
  intros He. unfold engine_next_action, start_get_record, set_query. simpl queries. rewrite He.
  pose proof (map_order_perm (<[id := QGetRecord (GetRecordContext_new
    (mkGetRecordConfig (engine_local e) 1 (QuorumN 2) (replication_factor e)
       (N.to_nat (parallelism_factor e)) id (Key_new target)) candidates true)]> (∅ : gmap N QueryType)))
    as Hp.
  rewrite insert_empty, map_to_list_singleton in Hp. apply Permutation_singleton_r in Hp.
  rewrite insert_empty, Hp. simpl. unfold gr_next_action. simpl.
  destruct (gr_is_done _); simpl; unfold on_query_succeeded; simpl; rewrite lookup_insert_eq; by eexists.
Qed.
End engine_facts.

(** ** Quorums of [PUT_VALUE] and [ADD_PROVIDER] *)

Inductive SendEvent := SendSucceeded (peer : PeerId) | SendFailed (peer : PeerId).

Definition send_step (c : PutToTargetPeersContext) (ev : SendEvent) : PutToTargetPeersContext :=
  match ev with
  | SendSucceeded peer => tp_register_send_success c peer
  | SendFailed peer => tp_register_send_failure c peer
  end.

Definition event_of (peer : PeerId) (ev : SendEvent) : option bool :=
  match ev with
  | SendSucceeded p => if decide (p = peer) then Some true else None
  | SendFailed p => if decide (p = peer) then Some false else None
  end.

(** How the request to [peer] went: what was reported about it first. *)
Fixpoint verdict (evs : list SendEvent) (peer : PeerId) : option bool :=
  match evs with
  | [] => None
  | ev :: evs => match event_of peer ev with Some b => Some b | None => verdict evs peer end
  end.

Definition targets (peers : list KademliaPeer) : gset PeerId := list_to_set (kad_peer <$> peers).

Definition succeeded (peers : list KademliaPeer) (evs : list SendEvent) : gset PeerId :=
  filter (λ p, verdict evs p = Some true) (targets peers).

Definition unresolved (peers : list KademliaPeer) (evs : list SendEvent) : gset PeerId :=
  filter (λ p, verdict evs p = None) (targets peers).

Lemma verdict_snoc evs ev p : verdict (evs ++ [ev]) p =
  match verdict evs p with Some b => Some b | None => event_of p ev end.
Proof. induction evs as [|e evs IH]; simpl; [by destruct (event_of p ev)|]. by destruct (event_of p e). Qed.

Definition send_peer (ev : SendEvent) : PeerId :=
  match ev with SendSucceeded p | SendFailed p => p end.

Lemma event_of_other p ev : p ≠ send_peer ev → event_of p ev = None.
Proof. intros Hne. destruct ev; simpl in *; by rewrite decide_False. Qed.

Lemma unresolved_snoc peers evs ev :
  unresolved peers (evs ++ [ev]) = unresolved peers evs ∖ {[send_peer ev]}.
Proof.
  apply set_eq. intros p. unfold unresolved. rewrite elem_of_difference, !elem_of_filter, verdict_snoc.
  rewrite elem_of_singleton. destruct (decide (p = send_peer ev)) as [->|Hne].
  - destruct (verdict evs _); [naive_solver|].
    destruct ev; simpl; rewrite decide_True by done; naive_solver.
  - rewrite event_of_other by done. destruct (verdict evs p); naive_solver.
Qed.

Lemma succeeded_snoc peers evs ev :
  succeeded peers (evs ++ [ev]) =
  succeeded peers evs ∪
  match ev with SendSucceeded p => if decide (p ∈ unresolved peers evs) then {[p]} else ∅ | _ => ∅ end.
Proof.
  apply set_eq. intros p. unfold succeeded, unresolved. rewrite elem_of_union, !elem_of_filter, verdict_snoc.
  destruct (decide (p = send_peer ev)) as [->|Hne].
  - destruct ev as [q|q]; simpl; rewrite !decide_True by done; [|destruct (verdict evs q); set_solver].
    destruct (verdict evs q) eqn:E; case_decide as Hd; rewrite elem_of_filter in Hd; set_solver.
  - rewrite event_of_other by done. destruct ev as [q|q]; simpl in *; [|destruct (verdict evs p); set_solver].
    destruct (verdict evs p); case_decide; set_solver.
Qed.

(** After any events, the query waits for the peers nothing was reported about, and has counted
    the peers whose first report was a success. *)
Lemma send_run_state query key peers quorum evs :
  let c0 := PutToTargetPeersContext_new query key peers quorum in
  let c := foldl send_step c0 evs in
  pending_peers c = unresolved peers evs ∧
  n_succeeded c = N.of_nat (size (succeeded peers evs)) ∧
  peers_to_succeed c = peers_to_succeed c0 ∧ tp_query c = query.
Proof.
  intros c0 c. subst c. induction evs as [|ev evs IH] using rev_ind.
  { assert (succeeded peers [] = ∅) as ->.
    { apply set_eq. intros p. unfold succeeded. rewrite elem_of_filter. simpl. set_solver. }
    split_and!; try done. apply set_eq. intros p. unfold unresolved. rewrite elem_of_filter. simpl.
    unfold targets. naive_solver. }
  rewrite foldl_app. simpl. destruct (foldl send_step c0 evs) as [qi k need ps pend n]. simpl in IH.
  destruct IH as (Hp & Hn & Hs & Hq). rewrite unresolved_snoc, succeeded_snoc.
  destruct ev as [p|p]; simpl; unfold tp_register_send_success, tp_register_send_failure; simpl;
    rewrite Hp; destruct (decide (p ∈ unresolved peers evs)) as [Hd|Hd]; simpl; split_and!; try done;
    rewrite ?(right_id_L ∅ (∪)); try done; try set_solver.
  rewrite size_union, size_singleton; [lia|]. unfold succeeded, unresolved in *. set_solver.
Qed.

Lemma tp_next_action_finished c : tp_next_action c =
  if decide (pending_peers c = ∅) then
    Some (if decide (peers_to_succeed c ≤ n_succeeded c)%N
          then QuerySucceeded (tp_query c) else QueryFailed (tp_query c))
  else None.
Proof.
  unfold tp_next_action, tp_is_finished, tp_is_succeded. case_decide as Hp.
  - rewrite bool_decide_eq_true_2 by done. case_decide as Hn.
    + by rewrite (proj2 (N.leb_le _ _)).
    + by rewrite (proj2 (N.leb_gt _ _)) by lia.
  - by rewrite bool_decide_eq_false_2.
Qed.

(** The quorum is reached by [n] of [total] targets. *)
Definition put_quorum_met (quorum : Quorum) (total n : nat) : Prop :=
  match quorum with
  | QuorumAll => n = total
  | QuorumOne => 1 ≤ n
  | QuorumN m => (m ≤ N.of_nat n)%N ∨ n = total
  end.

Definition quorum_wf (quorum : Quorum) : Prop :=
  match quorum with QuorumN m => (0 < m)%N | _ => True end.

Lemma succeeded_size peers evs : size (succeeded peers evs) ≤ size (targets peers).
Proof. apply subseteq_size. unfold succeeded. set_solver. Qed.

Lemma targets_size peers : size (targets peers) ≤ length peers.
Proof.
  unfold targets. induction peers as [|p peers IH]; [done|]. rewrite fmap_cons, list_to_set_cons.
  destruct (decide (kad_peer p ∈ (list_to_set (kad_peer <$> peers) : gset PeerId))) as [Hin|Hin].
  - rewrite (subseteq_union_1_L _ _ ) by set_solver. simpl. lia.
  - rewrite size_union, size_singleton by set_solver. simpl. lia.
Qed.

(** A [PUT_VALUE] or [ADD_PROVIDER] towards target peers ends when the request to each of
    them is known to have succeeded or failed (a later report on the same peer is ignored), and
    then succeeds exactly when the quorum is reached: all, one, or at least [n] of the
    targets, or all of them when there are fewer than [n]. *)
Theorem put_quorum query key peers quorum evs :
  quorum_wf quorum → peers ≠ [] →
  let c := foldl send_step (PutToTargetPeersContext_new query key peers quorum) evs in
  let n := size (succeeded peers evs) in
  (tp_next_action c = None ↔ unresolved peers evs ≠ ∅) ∧
  (unresolved peers evs = ∅ →
   tp_next_action c = Some (QuerySucceeded query) ∧ put_quorum_met quorum (length peers) n ∨
   tp_next_action c = Some (QueryFailed query) ∧ ¬ put_quorum_met quorum (length peers) n).
Proof.
  intros Hq Hne c n. destruct (send_run_state query key peers quorum evs) as (Hp & Hn & Hs & Hqu).
  fold c in Hp, Hn, Hs, Hqu. fold n in Hn. rewrite tp_next_action_finished, Hp, Hn, Hs, Hqu.
  assert (0 < length peers) as Hlen by (destruct peers; [done|simpl; lia]).
  assert (n ≤ length peers) as Hle.
  { unfold n. etrans; [apply succeeded_size|apply targets_size]. }
  split; [case_decide; naive_solver|]. intros Hu. rewrite decide_True by done.
  unfold put_quorum_met. simpl.
  destruct quorum; simpl in Hq |- *; case_decide; [left|right|left|right|left|right]; (split; [done|]); lia.
Qed.

(** Naming a peer twice makes [Quorum::All] unreachable: the target peers are counted with
    duplicates, the peers that accept the request without, so the query fails even when every
    request succeeds. *)
Theorem duplicate_target_never_succeeds query key peers evs :
  ¬ NoDup (kad_peer <$> peers) → unresolved peers evs = ∅ →
  tp_next_action (foldl send_step (PutToTargetPeersContext_new query key peers QuorumAll) evs) =
  Some (QueryFailed query).
Proof.
  intros Hd Hu. destruct (send_run_state query key peers QuorumAll evs) as (Hp & Hn & Hs & Hqu).
  rewrite tp_next_action_finished, Hp, Hn, Hs, Hqu, decide_True by done.
  rewrite decide_False; [done|]. simpl. pose proof (succeeded_size peers evs).
  assert (size (targets peers) ≠ length peers); [|pose proof (targets_size peers); lia].
  intros Heq. apply Hd. clear -Heq. unfold targets in *. induction peers as [|p peers IH]; [constructor|].
  rewrite fmap_cons, list_to_set_cons in Heq. pose proof (targets_size peers) as Hl. unfold targets in Hl.
  destruct (decide (kad_peer p ∈ (list_to_set (kad_peer <$> peers) : gset PeerId))) as [Hin|Hin].
  - rewrite (subseteq_union_1_L _ _) in Heq by set_solver. simpl in Heq. lia.
  - rewrite size_union, size_singleton in Heq by set_solver. simpl in *.
    constructor; [set_solver|]. apply IH. lia.
Qed.

Lemma unresolved_empty peers evs : Forall (λ p, verdict evs (kad_peer p) ≠ None) peers →
  unresolved peers evs = ∅.
Proof.
  rewrite Forall_forall. intros Hf. apply set_eq. intros q. unfold unresolved, targets.
  rewrite elem_of_filter, elem_of_list_to_set, list_elem_of_fmap. set_solver.
Qed.

(** ** Witnesses *)

Section engine_samples.
#[local] Existing Instance toy_sha256.
#[local] Existing Instance toy_multihash.
#[local] Existing Instance canonical_order.
#[local] Existing Instance sample_network.

Lemma local_record_counts_twice_witness :
  ∃ e', engine_next_action (start_get_record (QueryEngine_new (kad_peer (query_peer 0)) 20 3) 7
          [Byte.x01] query_in_peers (QuorumN 2) true) 0 = Done (e', Some (GetRecordQueryDone 7)).
Proof. by apply local_record_counts_twice. Defined.

Definition half_sent : list SendEvent :=
  [SendSucceeded (kad_peer (query_peer 1)); SendFailed (kad_peer (query_peer 2));
   SendSucceeded (kad_peer (query_peer 2))].

Lemma put_quorum_witness :
  let c := foldl send_step (PutToTargetPeersContext_new 7 [] [query_peer 1; query_peer 2] QuorumAll)
             half_sent in
  tp_next_action c = Some (QueryFailed 7) ∧
  ¬ put_quorum_met QuorumAll 2 (size (succeeded [query_peer 1; query_peer 2] half_sent)).
Proof.
  destruct (put_quorum 7 [] [query_peer 1; query_peer 2] QuorumAll half_sent I ltac:(discriminate))
    as [_ [[H1 _]|H2]]; [|discriminate H1|exact H2].
  apply unresolved_empty. repeat constructor; discriminate.
Defined.

Lemma duplicate_target_never_succeeds_witness :
  tp_next_action (foldl send_step
    (PutToTargetPeersContext_new 7 [] [query_peer 1; query_peer 1] QuorumAll)
    [SendSucceeded (kad_peer (query_peer 1))]) = Some (QueryFailed 7).
Proof.
  apply duplicate_target_never_succeeds.
  - intros [Hn _]%NoDup_cons. apply Hn. by left.
  - apply unresolved_empty. repeat constructor; discriminate.
Defined.
End engine_samples.
