(* ===== verification/Varint.v ===== *)
(** * Unsigned varints

    The [unsigned-varint] package, used to length-prefix frames: the functions the code calls and
    their documented behaviour, the minimal little-endian base-128 encoding. *)

From stdpp Require Import base tactics option list.
From Stdlib Require Import NArith Lia Init.Byte Strings.Byte.
From S2P Require Import Prelude.

(** ** The format *)

Definition byte_of (n : N) : byte := default Byte.x00 (Byte.of_N n).

(** The most significant bit of a byte, set when more bytes follow. *)
Definition has_msb (b : byte) : bool := (128 <=? Byte.to_N b)%N.

Fixpoint base128 (k : nat) (n : N) : list byte :=
  match k with
  | 0 => []
  | S k => if (n <? 128)%N then [byte_of n] else byte_of (128 + n mod 128) :: base128 k (n / 128)
  end.

(** Ten groups of seven bits hold 64 bits. *)
Definition leb128 (n : N) : list byte := base128 10 n.

(** ** The package *)

Class UnsignedVarint : Type := {
  uvi_encode : N → list byte;
  uvi_decode_usize : list byte → option (N * list byte);
  uvi_decode_u16 : list byte → option (N * list byte);
}.

Class UnsignedVarintLaws (L : UnsignedVarint) : Prop := {
  uvi_encode_leb128 n : (n < 2 ^ 64)%N → uvi_encode n = leb128 n;
  uvi_decode_usize_leb128 n tail : (n < 2 ^ 64)%N →
    uvi_decode_usize (leb128 n ++ tail) = Some (n, tail);
  uvi_decode_usize_sound bs n tail : uvi_decode_usize bs = Some (n, tail) →
    (n < 2 ^ 64)%N ∧ bs = leb128 n ++ tail;
  uvi_decode_u16_leb128 n tail : (n < 2 ^ 16)%N →
    uvi_decode_u16 (leb128 n ++ tail) = Some (n, tail);
  uvi_decode_u16_sound bs n tail : uvi_decode_u16 bs = Some (n, tail) →
    (n < 2 ^ 16)%N ∧ bs = leb128 n ++ tail;
}.

(** ** Facts about the format *)

Lemma byte_of_to_N n : (n < 256)%N → Byte.to_N (byte_of n) = n.
Proof.
  intros Hn. unfold byte_of. destruct (Byte.of_N n) as [b|] eqn:E; simpl.
  - by apply Byte.to_of_N in E.
  - apply Byte.of_N_None_iff in E. lia.
Qed.

Lemma byte_of_of_to b : byte_of (Byte.to_N b) = b.
Proof. unfold byte_of. by rewrite Byte.of_to_N. Qed.

Lemma byte_to_N_lt b : (Byte.to_N b < 256)%N.
Proof. pose proof (Byte.to_N_bounded b). lia. Qed.

Lemma has_msb_byte_of n : (n < 256)%N → has_msb (byte_of n) = (128 <=? n)%N.
Proof. intros Hn. unfold has_msb. by rewrite byte_of_to_N. Qed.

Lemma leb128_small n : (n < 128)%N → leb128 n = [byte_of n].
Proof. intros Hn. unfold leb128. simpl. by rewrite (proj2 (N.ltb_lt _ _)). Qed.

Lemma leb128_two n : (128 ≤ n < 2 ^ 14)%N → leb128 n = [byte_of (128 + n mod 128); byte_of (n / 128)].
Proof.
  intros Hn. unfold leb128. cbn [base128]. rewrite (proj2 (N.ltb_ge _ _)) by lia.
  rewrite (proj2 (N.ltb_lt _ _)); [done|]. apply N.Div0.div_lt_upper_bound. lia.
Qed.

Lemma leb128_not_nil n : leb128 n ≠ [].
Proof. unfold leb128. simpl. by destruct (n <? 128)%N. Qed.

Lemma base128_length k n : length (base128 k n) ≤ k.
Proof.
  revert n. induction k as [|k IH]; intros n; cbn; [done|]. case_match; cbn; [lia|]. specialize (IH (n / 128)%N). lia.
Qed.

Lemma leb128_length n : length (leb128 n) ≤ 10.
Proof. apply base128_length. Qed.

(** ** A codec

    The encoding as functions, for concrete runs. *)

Fixpoint undo128 (k : nat) (bs : list byte) : option (N * list byte) :=
  match k, bs with
  | S k, b :: bs =>
      let v := Byte.to_N b in
      if (v <? 128)%N then Some (v, bs)
      else '(n, tail) ← undo128 k bs; if (n =? 0)%N then None else Some (v - 128 + 128 * n, tail)%N
  | _, _ => None
  end.

Definition leb128_decode (max : N) (bs : list byte) : option (N * list byte) :=
  '(n, tail) ← undo128 10 bs; if (n <? max)%N then Some (n, tail) else None.

Definition leb128_codec : UnsignedVarint := {|
  uvi_encode := leb128;
  uvi_decode_usize := leb128_decode (2 ^ 64);
  uvi_decode_u16 := leb128_decode (2 ^ 16);
|}.

Lemma undo128_base128 k : ∀ n tail, (n < 128 ^ N.of_nat (S k))%N →
  undo128 (S k) (base128 (S k) n ++ tail) = Some (n, tail).
Proof.
  induction k as [|k IH]; intros n tail Hn; cbn [base128 undo128];
    (destruct (N.ltb_spec n 128) as [Hs|Hs];
      [cbn [app]; rewrite byte_of_to_N by lia; by rewrite (proj2 (N.ltb_lt _ _))|]).
  { change (128 ^ N.of_nat 1)%N with 128%N in Hn. lia. }
  rewrite Nat2N.inj_succ, N.pow_succ_r' in Hn. rewrite <- app_comm_cons.
  assert (n / 128 < 128 ^ N.of_nat (S k))%N as Hq by (apply N.Div0.div_lt_upper_bound; exact Hn).
  specialize (IH _ tail Hq). clear Hn Hq.
  pose proof (N.mod_lt n 128 ltac:(done)) as Hm. pose proof (N.div_mod' n 128) as Hdm.
  pose proof (N.Div0.div_le_mono 128 n 128 Hs) as Hd. rewrite N.div_same in Hd by done.
  revert IH Hm Hdm Hd. generalize (n mod 128)%N (n / 128)%N. intros r q IH Hm Hdm Hd.
  rewrite byte_of_to_N by lia. rewrite (proj2 (N.ltb_ge (128 + r) 128)) by lia.
  cbn [base128 undo128] in IH. rewrite IH. simpl.
  rewrite (proj2 (N.eqb_neq _ _)) by lia. do 2 f_equal. lia.
Qed.

Lemma undo128_sound k : ∀ bs n tail, undo128 k bs = Some (n, tail) → bs = base128 k n ++ tail.
Proof.
  induction k as [|k IH]; intros [|b bs] n tail Hu; simpl in Hu; try done.
  pose proof (byte_to_N_lt b) as Hb. simpl. destruct (N.ltb_spec (Byte.to_N b) 128) as [Hs|Hs].
  - simplify_eq. rewrite (proj2 (N.ltb_lt _ _)) by done. by rewrite byte_of_of_to.
  - destruct (undo128 k bs) as [[m t]|] eqn:E; simpl in Hu; [|done].
    destruct (N.eqb_spec m 0) as [|Hm]; [done|]. simplify_eq.
    rewrite (proj2 (N.ltb_ge _ _)) by lia.
    assert ((Byte.to_N b - 128 + 128 * m) mod 128 = Byte.to_N b - 128)%N as ->.
    { rewrite N.mul_comm, N.Div0.mod_add. apply N.mod_small. lia. }
    assert ((Byte.to_N b - 128 + 128 * m) / 128 = m)%N as ->.
    { rewrite N.mul_comm, N.div_add by done. rewrite N.div_small; lia. }
    replace (128 + (Byte.to_N b - 128))%N with (Byte.to_N b) by lia.
    rewrite byte_of_of_to. simpl. f_equal. by apply IH.
Qed.

Lemma leb128_decode_ok max n tail : (n < max)%N → (max ≤ 2 ^ 64)%N →
  leb128_decode max (leb128 n ++ tail) = Some (n, tail).
Proof.
  intros Hn Hm. unfold leb128_decode, leb128. rewrite (undo128_base128 9).
  - simpl. by rewrite (proj2 (N.ltb_lt _ _)).
  - assert (2 ^ 64 ≤ 128 ^ N.of_nat 10)%N by by vm_compute. lia.
Qed.

Lemma leb128_decode_sound max bs n tail : leb128_decode max bs = Some (n, tail) →
  (n < max)%N ∧ bs = leb128 n ++ tail.
Proof.
  unfold leb128_decode. destruct (undo128 10 bs) as [[m t]|] eqn:E; simpl; [|done].
  destruct (N.ltb_spec m max) as [Hm|]; [|done]. intros [= <- <-]. split; [done|].
  by apply undo128_sound.
Qed.

Lemma leb128_codec_laws : UnsignedVarintLaws leb128_codec.
Proof.
  split; simpl; [done| | | |]; try apply leb128_decode_sound;
    intros n tail Hn; apply leb128_decode_ok; done.
Qed.

Section prefix.
Context {L : UnsignedVarint} {Laws : UnsignedVarintLaws L}.

(** No length is the beginning of another one. *)
Lemma leb128_app_inj n m x y : (n < 2 ^ 64)%N → (m < 2 ^ 64)%N →
  leb128 n ++ x = leb128 m ++ y → n = m ∧ x = y.
Proof using Laws.
  intros Hn Hm Heq. pose proof (uvi_decode_usize_leb128 n x Hn) as H1.
  rewrite Heq, uvi_decode_usize_leb128 in H1 by done. naive_solver.
Qed.
End prefix.
