(* ===== verification/Multistream.v ===== *)
(** * multistream-select messages

    [src/src/multistream_select/protocol.rs]: the messages of the negotiation protocol and their
    encoding. *)

From stdpp Require Import base tactics option list sets strings.
From Stdlib Require Import NArith Lia Init.Byte Strings.Byte.
From S2P Require Import Prelude Varint.

(** The kinds of [io::Error] the code creates or inspects. *)
Inductive IoErrorKind := InvalidDataKind | UnexpectedEof | WriteZero | OtherIo.

(** [ProtocolError] of [protocol.rs]. *)
Inductive ProtocolError :=
| IoError (kind : IoErrorKind)
| InvalidMessage
| InvalidProtocol
| TooManyProtocols
| ProtocolNotSupported.

#[export] Instance io_error_kind_eq_dec : EqDecision IoErrorKind.
Proof. solve_decision. Defined.
#[export] Instance protocol_error_eq_dec : EqDecision ProtocolError.
Proof. solve_decision. Defined.

Definition NL : byte := Byte.x0a.
Definition SLASH : byte := Byte.x2f.

Definition MAX_PROTOCOLS : nat := 1000.
Definition PROTO_MULTISTREAM_1_0 : list byte := String.list_byte_of_string "/multistream/1.0.0"%string.
Definition MSG_MULTISTREAM_1_0 : list byte := PROTO_MULTISTREAM_1_0 ++ [NL].
Definition MSG_PROTOCOL_NA : list byte := String.list_byte_of_string "na"%string ++ [NL].
Definition MSG_LS : list byte := String.list_byte_of_string "ls"%string ++ [NL].

Inductive HeaderLine := V1Header.

(** [Protocol]: a name, which [try_from] accepts only if it starts with a slash. *)
Notation Protocol := (list byte) (only parsing).

Inductive Message :=
| MHeader (h : HeaderLine)
| MProtocol (p : Protocol)
| MListProtocols
| MProtocols (ps : list Protocol)
| MNotAvailable.

#[export] Instance header_line_eq_dec : EqDecision HeaderLine.
Proof. solve_decision. Defined.
#[export] Instance message_eq_dec : EqDecision Message.
Proof. solve_decision. Defined.

(** [Protocol::try_from] *)
Definition Protocol_try_from (value : list byte) : result ProtocolError Protocol :=
  if decide (head value = Some SLASH) then Ok value else Err InvalidProtocol.

Section messages.
Context `{UnsignedVarint}.

(** One entry of an [ls] response. *)
Definition encode_entry (p : Protocol) : list byte :=
  uvi_encode (N.of_nat (length p + 1)) ++ p ++ [NL].

(** [Message::encode] *)
Definition Message_encode (m : Message) : list byte :=
  match m with
  | MHeader V1Header => MSG_MULTISTREAM_1_0
  | MProtocol p => p ++ [NL]
  | MListProtocols => MSG_LS
  | MProtocols ps => mjoin (encode_entry <$> ps) ++ [NL]
  | MNotAvailable => MSG_PROTOCOL_NA
  end.

(** [Message::encoded_len] *)
Definition encoded_len (m : Message) : nat :=
  match m with
  | MHeader V1Header => length MSG_MULTISTREAM_1_0
  | MProtocol p => length p + 1
  | MListProtocols => length MSG_LS
  | MNotAvailable => length MSG_PROTOCOL_NA
  | MProtocols ps =>
      foldl (λ len p, len + (length (uvi_encode (N.of_nat (length p + 1))) + (length p + 1))) 1 ps
  end.

(** A protocol name on a line of its own. *)
Definition is_protocol_line (msg : list byte) : bool :=
  bool_decide (head msg = Some SLASH) && bool_decide (last msg = Some NL) &&
  bool_decide (NL ∉ take (length msg - 1) msg).

(** The loop over the entries of an [ls] response; [None] when the fuel runs out. *)
Fixpoint decode_protocols (fuel : nat) (remaining : list byte) (protocols : list Protocol) :
    option (result ProtocolError (list Protocol)) :=
  match fuel with
  | 0 => None
  | S fuel =>
      if decide (remaining = [NL]) then Some (Ok protocols)
      else if decide (length protocols = MAX_PROTOCOLS) then Some (Err TooManyProtocols)
      else
        match uvi_decode_usize remaining with
        | None => Some (Err (IoError InvalidDataKind))
        | Some (len, tail) =>
            if (len =? 0)%N then Some (Err InvalidMessage)
            else if (N.of_nat (length tail) <? len)%N then Some (Err InvalidMessage)
            else if decide (tail !! (N.to_nat len - 1) = Some NL) then
              match Protocol_try_from (take (N.to_nat len - 1) tail) with
              | Err e => Some (Err e)
              | Ok p => decode_protocols fuel (drop (N.to_nat len) tail) (protocols ++ [p])
              end
            else Some (Err InvalidMessage)
        end
  end.

(** [Message::decode]. An iteration of the loop adds a protocol, so one more than
    [MAX_PROTOCOLS] of them are enough. *)
Definition Message_decode (msg : list byte) : result ProtocolError Message :=
  if decide (msg = MSG_MULTISTREAM_1_0) then Ok (MHeader V1Header)
  else if decide (msg = MSG_PROTOCOL_NA) then Ok MNotAvailable
  else if decide (msg = MSG_LS) then Ok MListProtocols
  else if is_protocol_line msg then
    match Protocol_try_from (take (length msg - 1) msg) with
    | Ok p => Ok (MProtocol p)
    | Err e => Err e
    end
  else
    match decode_protocols (S MAX_PROTOCOLS) msg [] with
    | Some (Ok ps) => Ok (MProtocols ps)
    | Some (Err e) => Err e
    | None => Err InvalidMessage
    end.
End messages.

(** ** The encoding is a bijection *)

Section message_facts.
Context {L : UnsignedVarint} {Laws : UnsignedVarintLaws L}.

Definition name_wf (p : Protocol) : Prop :=
  head p = Some SLASH ∧ (N.of_nat (length p + 1) < 2 ^ 64)%N.

(** The messages that have an encoding of their own: a name on a line of its own has no line
    feed and is not the header line. *)
Definition message_wf (m : Message) : Prop :=
  match m with
  | MProtocol p => head p = Some SLASH ∧ NL ∉ p ∧ p ≠ PROTO_MULTISTREAM_1_0
  | MProtocols ps => length ps ≤ MAX_PROTOCOLS ∧ Forall name_wf ps
  | _ => True
  end.

Lemma Protocol_try_from_ok p : head p = Some SLASH → Protocol_try_from p = Ok p.
Proof. intros Hp. unfold Protocol_try_from. by rewrite decide_True. Qed.

Lemma Protocol_try_from_inv bs p : Protocol_try_from bs = Ok p → p = bs ∧ head p = Some SLASH.
Proof. unfold Protocol_try_from. case_decide; naive_solver. Qed.

Lemma decode_entry p rest : name_wf p →
  uvi_decode_usize (encode_entry p ++ rest) = Some (N.of_nat (length p + 1), p ++ NL :: rest).
Proof using Laws.
  intros [_ Hn]. unfold encode_entry. rewrite uvi_encode_leb128 by done.
  rewrite <- !app_assoc. by rewrite uvi_decode_usize_leb128.
Qed.

Lemma encode_entries_cons p ps :
  mjoin (encode_entry <$> p :: ps) = encode_entry p ++ mjoin (encode_entry <$> ps).
Proof. done. Qed.

Lemma decode_protocols_ok ps : ∀ fuel acc, Forall name_wf ps → length ps < fuel →
  length acc + length ps ≤ MAX_PROTOCOLS →
  decode_protocols fuel (mjoin (encode_entry <$> ps) ++ [NL]) acc = Some (Ok (acc ++ ps)).
Proof using Laws.
  induction ps as [|p ps IH]; intros [|fuel] acc Hps Hf Hl; try (simpl in Hf; lia).
  { simpl. by rewrite app_nil_r. }
  apply Forall_cons in Hps as [Hp Hps]. rewrite encode_entries_cons, <- app_assoc. set (rest := mjoin (encode_entry <$> ps) ++ [NL]). cbn [decode_protocols].
  destruct (decide (encode_entry p ++ rest = [NL])) as [Heq|_].
  { apply (f_equal length) in Heq. unfold encode_entry, rest in Heq. rewrite !length_app in Heq.
    simpl in Heq. destruct Hp as [Hp _]. destruct p; [done|simpl in Heq; lia]. }
  simpl in Hl. rewrite decide_False by lia. rewrite decode_entry by done.
  rewrite (proj2 (N.eqb_neq _ _)) by lia.
  rewrite (proj2 (N.ltb_ge _ _)) by (rewrite length_app; simpl; lia).
  replace (N.to_nat (N.of_nat (length p + 1)) - 1) with (length p) by lia.
  rewrite list_lookup_middle, decide_True by done. rewrite take_app_length.
  destruct Hp as [Hp Hn]. rewrite Protocol_try_from_ok by done.
  replace (drop (N.to_nat (N.of_nat (length p + 1))) (p ++ NL :: rest)) with rest.
  - unfold rest. rewrite IH; [by rewrite <- app_assoc|done|simpl in Hf; lia|rewrite length_app; simpl; lia].
  - rewrite Nat2N.id, drop_app_add. done.
Qed.

Lemma decode_protocols_sound fuel : ∀ remaining acc ps', length acc ≤ MAX_PROTOCOLS →
  decode_protocols fuel remaining acc = Some (Ok ps') →
  ∃ ps, ps' = acc ++ ps ∧ remaining = mjoin (encode_entry <$> ps) ++ [NL] ∧
        length ps' ≤ MAX_PROTOCOLS ∧ Forall name_wf ps.
Proof using Laws.
  induction fuel as [|fuel IH]; intros remaining acc ps' Hacc Hd; cbn [decode_protocols] in Hd; [done|].
  case_decide as Hnl.
  { simplify_eq. exists []. split_and!; [by rewrite app_nil_r|done|done|constructor]. }
  case_decide as Hmax; [done|].
  destruct (uvi_decode_usize remaining) as [[len tail]|] eqn:Hu; [|done].
  apply uvi_decode_usize_sound in Hu as [Hlen ->].
  destruct (N.eqb_spec len 0) as [|H0]; [done|].
  destruct (N.ltb_spec (N.of_nat (length tail)) len) as [|Hle]; [done|].
  case_decide as Hlast; [|done].
  destruct (Protocol_try_from _) as [p|] eqn:Hp; [|done].
  apply Protocol_try_from_inv in Hp as [-> Hslash].
  apply IH in Hd as (ps & -> & Hrem & Hm & Hwf); [|rewrite length_app; simpl; lia].
  exists (take (N.to_nat len - 1) tail :: ps). split_and!; [by rewrite <- app_assoc| |done|].
  - rewrite encode_entries_cons, <- app_assoc, <- Hrem. unfold encode_entry.
    rewrite length_take_le by lia. replace (N.of_nat (N.to_nat len - 1 + 1)) with len by lia.
    rewrite uvi_encode_leb128 by done. rewrite <- !app_assoc. f_equal. simpl.
    rewrite <- (take_drop_middle tail _ _ Hlast) at 1. do 2 f_equal. f_equal. lia.
  - constructor; [|done]. split; [done|]. rewrite length_take_le by lia. lia.
Qed.

(** An [ls] response is none of the other messages. *)
Lemma encode_protocols_distinct ps : let msg := mjoin (encode_entry <$> ps) ++ [NL] in
  msg ≠ MSG_MULTISTREAM_1_0 ∧ msg ≠ MSG_PROTOCOL_NA ∧ msg ≠ MSG_LS ∧ is_protocol_line msg = false.
Proof.
  clear Laws. simpl. destruct (decide (ps = [])) as [->|Hne]; [done|].
  assert (∃ l, mjoin (encode_entry <$> ps) = l ++ [NL]) as [l ->].
  { destruct (exists_last Hne) as (ps' & p & ->). rewrite fmap_app, join_app. simpl.
    unfold encode_entry at 2. rewrite app_nil_r, !app_assoc. by eexists. }
  split_and!; try (intros Heq; apply (f_equal reverse) in Heq; rewrite !reverse_app in Heq; done).
  unfold is_protocol_line. rewrite !andb_false_iff. right. apply bool_decide_eq_false_2.
  intros Hn. apply Hn. rewrite length_app, Nat.add_sub, take_app_length. set_solver.
Qed.

(** A protocol line is none of the fixed messages. *)
Lemma protocol_line_distinct p : head p = Some SLASH → NL ∉ p → p ≠ PROTO_MULTISTREAM_1_0 →
  p ++ [NL] ≠ MSG_MULTISTREAM_1_0 ∧ p ++ [NL] ≠ MSG_PROTOCOL_NA ∧ p ++ [NL] ≠ MSG_LS ∧
  is_protocol_line (p ++ [NL]) = true.
Proof.
  intros Hp Hn Hm. destruct p as [|b p]; [done|]. simplify_eq/=. split_and!; try done.
  - intros Heq. apply Hm. by apply (app_inj_tail (SLASH :: p) PROTO_MULTISTREAM_1_0 NL NL).
  - unfold is_protocol_line. rewrite !andb_true_iff, !bool_decide_eq_true. split_and!; [done| |].
    + change (SLASH :: p ++ [NL]) with ((SLASH :: p) ++ [NL]). apply last_snoc.
    + simpl. rewrite Nat.sub_0_r, length_app. simpl. rewrite Nat.add_1_r.
      change (SLASH :: p ++ [NL]) with ((SLASH :: p) ++ [NL]).
      change (S (length p)) with (length (SLASH :: p)). by rewrite take_app_length.
Qed.

Lemma protocol_line_inv msg : is_protocol_line msg = true → msg ≠ MSG_MULTISTREAM_1_0 →
  ∃ p, msg = p ++ [NL] ∧ take (length msg - 1) msg = p ∧ NL ∉ p ∧ p ≠ PROTO_MULTISTREAM_1_0.
Proof.
  unfold is_protocol_line. rewrite !andb_true_iff, !bool_decide_eq_true. intros [[_ Hl] Hn] Hm.
  apply last_Some in Hl as [p ->]. rewrite length_app, Nat.add_sub, take_app_length in *.
  exists p. split_and!; try done. by intros ->.
Qed.

Lemma decode_encode m : message_wf m → Message_decode (Message_encode m) = Ok m.
Proof using Laws.
  destruct m as [[]|p| |ps|]; intros Hm; try done.
  - destruct Hm as (Hs & Hn & Hp). destruct (protocol_line_distinct p Hs Hn Hp) as (H1 & H2 & H3 & H4).
    unfold Message_decode. simpl Message_encode. rewrite !decide_False by done. rewrite H4.
    rewrite length_app, Nat.add_sub, take_app_length. by rewrite Protocol_try_from_ok.
  - destruct Hm as [Hl Hps]. destruct (encode_protocols_distinct ps) as (H1 & H2 & H3 & H4).
    unfold Message_decode. simpl Message_encode. rewrite !decide_False by done. rewrite H4.
    rewrite (decode_protocols_ok ps (S MAX_PROTOCOLS) []); [done|done|lia|simpl; lia].
Qed.

Lemma encode_decode msg m : Message_decode msg = Ok m → message_wf m ∧ Message_encode m = msg.
Proof using Laws.
  unfold Message_decode. repeat (case_decide; [by intros [= <-]|]).
  destruct (is_protocol_line msg) eqn:Hline.
  - destruct (protocol_line_inv msg Hline) as (p & -> & -> & Hn & Hp); [done|].
    destruct (Protocol_try_from p) as [q|] eqn:Hq; [|done]. intros [= <-].
    apply Protocol_try_from_inv in Hq as [-> Hs]. done.
  - destruct (decode_protocols (S MAX_PROTOCOLS) msg []) as [[ps|]|] eqn:Hd; try done. intros [= <-].
    apply decode_protocols_sound in Hd as (ps' & -> & -> & ? & ?); [done|simpl; lia].
Qed.

(** The loop never runs out of fuel. *)
Lemma decode_protocols_fuel fuel : ∀ remaining acc, MAX_PROTOCOLS < fuel + length acc →
  length acc ≤ MAX_PROTOCOLS → decode_protocols fuel remaining acc ≠ None.
Proof.
  induction fuel as [|fuel IH]; intros remaining acc Hf Ha; cbn [decode_protocols]; [lia|].
  case_decide; [done|]. case_decide; [done|].
  destruct (uvi_decode_usize remaining) as [[len tail]|]; [|done].
  destruct (len =? 0)%N; [done|]. destruct (_ <? _)%N; [done|]. case_decide; [|done].
  destruct (Protocol_try_from _); [|done]. apply IH; rewrite length_app; simpl; lia.
Qed.

Lemma encode_entry_length p : length (encode_entry p) =
  length (uvi_encode (N.of_nat (length p + 1))) + (length p + 1).
Proof. unfold encode_entry. rewrite !length_app. simpl. lia. Qed.

Lemma encoded_len_correct m : encoded_len m = length (Message_encode m).
Proof.
  destruct m as [[]|p| |ps|]; try done; cbn [encoded_len Message_encode]; rewrite length_app; [done|].
  cbn [length].
  assert (∀ n, foldl (λ len p, len + (length (uvi_encode (N.of_nat (length p + 1))) + (length p + 1)))
    n ps = n + length (mjoin (encode_entry <$> ps))) as Hf; [|rewrite Hf; lia].
  induction ps as [|p ps IH]; intros n; [simpl; lia|].
  rewrite encode_entries_cons, length_app, encode_entry_length. cbn [foldl]. rewrite IH. lia.
Qed.

(** The message format is unambiguous and complete: decoding accepts exactly the encodings of the
    well-formed messages (with at most [MAX_PROTOCOLS] names in an [ls] response), gives back
    the message that was encoded, and the length announced for a message is that of its
    encoding. The decoder always terminates. *)
Theorem message_bijection msg m :
  (Message_decode msg = Ok m ↔ message_wf m ∧ Message_encode m = msg) ∧
  encoded_len m = length (Message_encode m) ∧
  decode_protocols (S MAX_PROTOCOLS) msg [] ≠ None.
Proof using Laws.
  split_and!; [|apply encoded_len_correct|apply decode_protocols_fuel; cbn [length]; lia].
  split; [apply encode_decode|]. intros [Hm <-]. by apply decode_encode.
Qed.
End message_facts.

Lemma message_bijection_witness :
  Message_decode (H := leb128_codec) (Message_encode (H := leb128_codec)
    (MProtocols [SLASH :: [Byte.x61]; SLASH :: [Byte.x62]])) =
  Ok (MProtocols [SLASH :: [Byte.x61]; SLASH :: [Byte.x62]]).
Proof.
  apply (@message_bijection leb128_codec leb128_codec_laws). split; [|reflexivity].
  split; [simpl; unfold MAX_PROTOCOLS; lia|]. repeat constructor.
Defined.
