(* ===== verification/LengthDelimited.v ===== *)
(** * Length-delimited frames

    [src/src/multistream_select/length_delimited.rs]: frames of up to 16 KiB behind a length prefix of
    at most two bytes, read from and written to a byte stream in whatever pieces the
    underlying I/O resource offers. *)

From stdpp Require Import base tactics option list sets.
From Stdlib Require Import NArith Lia Init.Byte Strings.Byte.
From S2P Require Import Prelude Varint Multistream.

(** ** The underlying I/O resource

    What [AsyncRead::poll_read] and [AsyncWrite::poll_write] answer, one event after the other. A read
    takes at most the bytes it asks for; the rest of a piece stays available. *)
Inductive ReadEvent :=
| RPending
| RBytes (b : byte) (bs : list byte)
| REof
| RError (kind : IoErrorKind).

#[export] Instance read_event_eq_dec : EqDecision ReadEvent.
Proof. solve_decision. Defined.

Inductive WriteEvent :=
| WPending
| WAccept (n : nat)
| WZero
| WError (kind : IoErrorKind).

(** [Ok(0)] is the end of the stream. *)
Definition poll_read (n : nat) (io : list ReadEvent) :
    list ReadEvent * Poll (result IoErrorKind (list byte)) :=
  match io with
  | [] => ([], Pending)
  | RPending :: io => (io, Pending)
  | RBytes b bs :: io =>
      (match drop n (b :: bs) with [] => io | b' :: bs' => RBytes b' bs' :: io end,
       Ready (Ok (take n (b :: bs))))
  | REof :: io => (REof :: io, Ready (Ok []))
  | RError k :: io => (io, Ready (Err k))
  end.

(** ** The reader and writer *)

Definition MAX_LEN_BYTES : nat := 2.
Definition MAX_FRAME_SIZE : N := (N.shiftl 1 (N.of_nat (MAX_LEN_BYTES * 8 - MAX_LEN_BYTES)) - 1)%N.

Inductive ReadState :=
| ReadLength (buf : list byte) (pos : nat)
| ReadData (len : N) (pos : nat).

Definition ReadState_default : ReadState := ReadLength (replicate MAX_LEN_BYTES Byte.x00) 0.

Record LengthDelimited := mkLengthDelimited {
  read_buffer : list byte;
  write_buffer : list byte;
  read_state : ReadState;
}.

(** [LengthDelimited::new] *)
Definition LengthDelimited_new : LengthDelimited := mkLengthDelimited [] [] ReadState_default.

Definition set_read (l : LengthDelimited) (buffer : list byte) (st : ReadState) : LengthDelimited :=
  mkLengthDelimited buffer (write_buffer l) st.

Section length_delimited.
Context `{UnsignedVarint}.

(** The outcome of one [poll_next]: the frame, [None] at the end of the stream. *)
Notation Frame := (option (result IoErrorKind (list byte))) (only parsing).

(** The loop of [poll_next]. An iteration that does not return takes at least one byte. *)
Fixpoint read_loop (fuel : nat) (l : LengthDelimited) (io : list ReadEvent) :
    option (LengthDelimited * list ReadEvent * Poll Frame) :=
  match fuel with
  | 0 => None
  | S fuel =>
      match read_state l with
      | ReadLength buf pos =>
          let '(io, r) := poll_read 1 io in
          match r with
          | Pending => Some (l, io, Pending)
          | Ready (Err k) => Some (l, io, Ready (Some (Err k)))
          | Ready (Ok []) =>
              Some (l, io, Ready (if decide (pos = 0) then None else Some (Err UnexpectedEof)))
          | Ready (Ok bs) =>
              let buf := overwrite buf pos bs in
              let pos := pos + length bs in
              let l := set_read l (read_buffer l) (ReadLength buf pos) in
              if negb (has_msb (default Byte.x00 (buf !! (pos - 1)))) then
                match uvi_decode_u16 buf with
                | None => Some (l, io, Ready (Some (Err InvalidDataKind)))
                | Some (len, _) =>
                    if (1 <=? len)%N then
                      read_loop fuel
                        (set_read l (replicate (N.to_nat len) Byte.x00) (ReadData len 0)) io
                    else Some (set_read l (read_buffer l) ReadState_default, io, Ready (Some (Ok [])))
                end
              else if decide (pos = MAX_LEN_BYTES) then
                Some (l, io, Ready (Some (Err InvalidDataKind)))
              else read_loop fuel l io
          end
      | ReadData len pos =>
          let '(io, r) := poll_read (length (read_buffer l) - pos) io in
          match r with
          | Pending => Some (l, io, Pending)
          | Ready (Err k) => Some (l, io, Ready (Some (Err k)))
          | Ready (Ok []) => Some (l, io, Ready (Some (Err UnexpectedEof)))
          | Ready (Ok bs) =>
              let buffer := overwrite (read_buffer l) pos bs in
              let pos := pos + length bs in
              if decide (N.of_nat pos = len) then
                Some (set_read l [] ReadState_default, io, Ready (Some (Ok buffer)))
              else read_loop fuel (set_read l buffer (ReadData len pos)) io
          end
      end
  end.

(** The bytes still to be delivered. *)
Fixpoint io_bytes (io : list ReadEvent) : list byte :=
  match io with
  | [] => []
  | RBytes b bs :: io => (b :: bs) ++ io_bytes io
  | _ :: io => io_bytes io
  end.

(** [LengthDelimited::poll_next] *)
Definition ld_poll_next (l : LengthDelimited) (io : list ReadEvent) :
    option (LengthDelimited * list ReadEvent * Poll Frame) :=
  read_loop (S (length (io_bytes io))) l io.

(** [LengthDelimited::start_send] *)
Definition start_send (l : LengthDelimited) (item : list byte) : result IoErrorKind LengthDelimited :=
  let len := N.of_nat (length item) in
  if (len <=? MAX_FRAME_SIZE)%N
  then Ok (mkLengthDelimited (read_buffer l) (write_buffer l ++ uvi_encode len ++ item) (read_state l))
  else Err InvalidDataKind.

Definition set_write (l : LengthDelimited) (buffer : list byte) : LengthDelimited :=
  mkLengthDelimited (read_buffer l) buffer (read_state l).

(** [LengthDelimited::poll_write_buffer]: the events, the bytes written so far, and the answer. *)
Fixpoint poll_write_buffer (l : LengthDelimited) (io : list WriteEvent) (wire : list byte) :
    LengthDelimited * list WriteEvent * list byte * Poll (result IoErrorKind unit) :=
  match write_buffer l with
  | [] => (l, io, wire, Ready (Ok tt))
  | _ =>
      match io with
      | [] => (l, [], wire, Pending)
      | WPending :: io => (l, io, wire, Pending)
      | WZero :: io => (l, io, wire, Ready (Err WriteZero))
      | WError k :: io => (l, io, wire, Ready (Err k))
      | WAccept n :: io =>
          poll_write_buffer (set_write l (drop (S n) (write_buffer l))) io
            (wire ++ take (S n) (write_buffer l))
      end
  end.

(** [LengthDelimited::poll_ready] *)
Definition poll_ready (l : LengthDelimited) (io : list WriteEvent) (wire : list byte) :
    LengthDelimited * list WriteEvent * list byte * Poll (result IoErrorKind unit) :=
  if (MAX_FRAME_SIZE <=? N.of_nat (length (write_buffer l)))%N then poll_write_buffer l io wire
  else (l, io, wire, Ready (Ok tt)).

(** [LengthDelimited::into_inner]: panics unless both buffers are empty. *)
Definition into_inner (l : LengthDelimited) : outcome unit :=
  if decide (read_buffer l = [] ∧ write_buffer l = []) then Done tt else Panic.
End length_delimited.

(** ** Framing *)

Section framing.
Context {L : UnsignedVarint} {Laws : UnsignedVarintLaws L}.

(** A frame on the wire. *)
Definition frame (f : list byte) : list byte := leb128 (N.of_nat (length f)) ++ f.

Definition small (f : list byte) : Prop := (N.of_nat (length f) ≤ MAX_FRAME_SIZE)%N.

(** Only data and waiting: the stream neither ends nor fails. *)
Definition clean (io : list ReadEvent) : Prop :=
  Forall (λ ev, match ev with RPending | RBytes _ _ => True | _ => False end) io.

Definition pendings (io : list ReadEvent) : nat :=
  length (filter (λ ev, ev = RPending) io).

Lemma pendings_cons io : pendings (RPending :: io) = S (pendings io).
Proof. unfold pendings. by rewrite filter_cons_True. Qed.

(** The bytes of the current frame that were read. *)
Definition partial (l : LengthDelimited) : list byte :=
  match read_state l with
  | ReadLength buf pos => take pos buf
  | ReadData len pos => leb128 len ++ take pos (read_buffer l)
  end.

Definition ld_wf (l : LengthDelimited) : Prop :=
  match read_state l with
  | ReadLength buf pos => ∃ b0 b1, buf = [b0; b1] ∧ read_buffer l = [] ∧
      (pos = 0 ∨ pos = 1 ∧ has_msb b0 = true)
  | ReadData len pos => (1 ≤ len ≤ MAX_FRAME_SIZE)%N ∧ pos < N.to_nat len ∧
      length (read_buffer l) = N.to_nat len
  end.

(** Nothing of a frame was read. *)
Definition at_start (l : LengthDelimited) : Prop :=
  read_buffer l = [] ∧ read_state l = ReadState_default.

Lemma at_start_wf l : at_start l → ld_wf l ∧ partial l = [].
Proof. intros [Hb Hs]. unfold ld_wf, partial. rewrite Hs. split; [|done]. exists Byte.x00, Byte.x00. eauto. Qed.

Lemma poll_read_bytes n b bs io : 0 < n → clean io →
  ∃ io' data, poll_read n (RBytes b bs :: io) = (io', Ready (Ok (b :: data))) ∧
    b :: data = take n (b :: bs) ∧
    (b :: data) ++ io_bytes io' = io_bytes (RBytes b bs :: io) ∧ clean io' ∧
    pendings io' = pendings (RBytes b bs :: io).
Proof.
  intros Hn Hc. destruct n as [|n]; [lia|]. unfold poll_read.
  pose proof (take_drop (S n) (b :: bs)) as Htd. cbn [take] in Htd. cbn [take].
  eexists _, _. split; [reflexivity|]. split; [reflexivity|].
  destruct (drop (S n) (b :: bs)) as [|b' bs'] eqn:Ed.
  - split_and!; [|done|done]. cbn [io_bytes]. by rewrite <- Htd, app_nil_r.
  - split_and!; [|by constructor|done]. cbn [io_bytes]. by rewrite <- Htd, <- app_assoc.
Qed.

Lemma small_bound n : (n ≤ MAX_FRAME_SIZE)%N → (n < 2 ^ 14)%N.
Proof. change (2 ^ 14)%N with 16384%N. change MAX_FRAME_SIZE with 16383%N. lia. Qed.

(** The first byte of a length prefix says whether a second one follows. *)
Lemma leb128_first n x : (n < 2 ^ 14)%N →
  (∃ b, leb128 n ++ x = b :: x ∧ leb128 n = [b] ∧ has_msb b = false) ∨
  (∃ b0 b1, leb128 n ++ x = b0 :: b1 :: x ∧ leb128 n = [b0; b1] ∧ has_msb b0 = true ∧ has_msb b1 = false ∧ (128 ≤ n)%N).
Proof.
  intros Hn. destruct (N.lt_ge_cases n 128) as [Hs|Hs].
  - left. exists (byte_of n). rewrite leb128_small by done. split_and!; [done..|].
    rewrite has_msb_byte_of by lia. by apply N.leb_gt.
  - right. exists (byte_of (128 + n mod 128)), (byte_of (n / 128)).
    assert (n / 128 < 128)%N by (apply N.Div0.div_lt_upper_bound; exact Hn).
    pose proof (N.mod_lt n 128 ltac:(done)). rewrite leb128_two by done. split_and!; [done..| | |done].
    + rewrite has_msb_byte_of; [apply N.leb_le; apply N.le_add_r|].
      revert H0. generalize (n mod 128)%N. lia.
    + rewrite has_msb_byte_of by (revert H; generalize (n / 128)%N; lia). by apply N.leb_gt.
Qed.

(** The stream holds the rest of the frame [f], then [rest]. *)
Definition reading (l : LengthDelimited) (io : list ReadEvent) (f rest : list byte) : Prop :=
  ld_wf l ∧ clean io ∧ partial l ++ io_bytes io = frame f ++ rest.

(** A poll waits for more data or returns the frame. *)
Definition read_post (l : LengthDelimited) (io : list ReadEvent) (f rest : list byte)
    (l' : LengthDelimited) (io' : list ReadEvent)
    (r : Poll (option (result IoErrorKind (list byte)))) : Prop :=
  write_buffer l' = write_buffer l ∧
  (r = Pending ∧ reading l' io' f rest ∧ pendings io' < pendings io ∨
   r = Ready (Some (Ok f)) ∧ at_start l' ∧ clean io' ∧ io_bytes io' = rest ∧
   pendings io' = pendings io).

(** One iteration of the loop returns, or takes some bytes of the frame and goes on. *)
Definition read_progress (l : LengthDelimited) (io : list ReadEvent) (f rest : list byte) : Prop :=
  (∃ l' io' r, (∀ fuel, read_loop (S fuel) l io = Some (l', io', r)) ∧ read_post l io f rest l' io' r) ∨
  (∃ l' io', (∀ fuel, read_loop (S fuel) l io = read_loop fuel l' io') ∧ reading l' io' f rest ∧
     length (io_bytes io') < length (io_bytes io) ∧ pendings io' = pendings io ∧
     write_buffer l' = write_buffer l).

(** The length prefix is complete: the payload follows, unless the frame is empty. *)
Lemma length_complete l buf pos b bs io io' f rest x :
  read_state l = ReadLength buf pos → read_buffer l = [] →
  poll_read 1 (RBytes b bs :: io) = (io', Ready (Ok [b])) →
  overwrite buf pos [b] = leb128 (N.of_nat (length f)) ++ x →
  (overwrite buf pos [b]) !! pos = Some b → has_msb b = false → small f →
  f ++ rest = io_bytes io' → length (io_bytes io') < length (io_bytes (RBytes b bs :: io)) →
  clean io' → pendings io' = pendings (RBytes b bs :: io) →
  read_progress l (RBytes b bs :: io) f rest.
Proof using Laws.
  intros Hst Hrb Hread Hbuf Hb Hmsb Hf Hbytes Hlt Hc Hpe.
  assert (∀ fuel, read_loop (S fuel) l (RBytes b bs :: io) =
    if (1 <=? N.of_nat (length f))%N then
      read_loop fuel (set_read l (replicate (length f) Byte.x00) (ReadData (N.of_nat (length f)) 0)) io'
    else Some (set_read l [] ReadState_default, io', Ready (Some (Ok [])))) as Hloop.
  { intros fuel. cbn [read_loop]. rewrite Hst, Hread. cbn [length]. rewrite Nat.add_sub, Hb. cbn [from_option id].
    rewrite Hmsb. cbn [negb]. rewrite Hbuf, uvi_decode_u16_leb128, Nat2N.id, Hrb; [done|].
    pose proof (small_bound _ Hf) as Hs. revert Hs. generalize (N.of_nat (length f)). lia. }
  destruct (N.leb_spec 1 (N.of_nat (length f))) as [H1|H1].
  - right. eexists _, _. split; [exact Hloop|]. split_and!; [|done|done|done]. split_and!; [|done|].
    + unfold ld_wf. simpl. rewrite length_replicate. unfold small in Hf. lia.
    + unfold partial, frame. simpl. rewrite app_nil_r, <- app_assoc. by rewrite Hbytes.
  - left. eexists _, _, _. split; [exact Hloop|]. destruct f; [|simpl in H1; lia]. split; [done|]. right.
    split_and!; done.
Qed.

Lemma read_length_progress l io f rest buf pos :
  reading l io f rest → small f → read_state l = ReadLength buf pos → read_progress l io f rest.
Proof using Laws.
  intros (Hw & Hc & Heq) Hf Hst. pose proof Hw as Hw'. unfold ld_wf in Hw'. rewrite Hst in Hw'.
  destruct Hw' as (b0 & b1 & -> & Hrb & Hpos). unfold partial in Heq. rewrite Hst in Heq.
  pose proof (leb128_first (N.of_nat (length f)) (f ++ rest) (small_bound _ Hf)) as Hfirst.
  unfold frame in Heq. rewrite <- app_assoc in Heq.
  destruct io as [|[|b bs| |] io]; try (by apply Forall_cons in Hc as [[] _]).
  - exfalso. cbn [io_bytes] in Heq. rewrite app_nil_r in Heq.
    destruct Hfirst as [(b & He & _ & Hm)|(c0 & c1 & He & _)], Hpos as [->|[-> Hm']]; rewrite He in Heq;
      simplify_eq/=. congruence.
  - left. eexists _, _, _. split; [intros fuel; cbn [read_loop poll_read]; by rewrite Hst|].
    apply Forall_cons in Hc as [_ Hc]. split; [done|]. left. split_and!; [done| |rewrite pendings_cons; lia].
    split_and!; [done|done|]. unfold partial. rewrite Hst. unfold frame. by rewrite <- app_assoc.
  - apply Forall_cons in Hc as [_ Hc].
    destruct (poll_read_bytes 1 b bs io ltac:(lia) Hc) as (io' & data & Hread & Hdata & Hby & Hc' & Hpe).
    assert (data = []) as -> by (by injection Hdata). rewrite <- Hby in Heq. cbn [app] in Heq, Hby.
    assert (length (io_bytes io') < length (io_bytes (RBytes b bs :: io))) as Hlt
      by (rewrite <- Hby; simpl; lia).
    destruct Hpos as [->|[-> Hm0]], Hfirst as [(c & He & Hle & Hm)|(c0 & c1 & He & Hle & Hmc0 & Hmc1 & _)];
      rewrite He in Heq; cbn [take app] in Heq; injection Heq; clear Heq; intros; subst.
    + eapply (length_complete l _ 0 c bs io io' f rest [b1]); try done. by rewrite Hle.
    + right. exists (set_read l [] (ReadLength [c0; b1] 1)), io'. split_and!; [|split_and!|done|done|done].
      * intros fuel. cbn [read_loop]. rewrite Hst, Hread.
        change (overwrite [b0; b1] 0 [c0]) with [c0; b1].
        change ([c0; b1] !! (0 + length [c0] - 1)) with (Some c0). cbn [from_option id].
        by rewrite Hmc0, Hrb.
      * exists c0, b1. split_and!; [done|done|by right].
      * done.
      * unfold partial, frame. simpl. rewrite <- app_assoc, Hle. simpl. congruence.
    + congruence.
    + eapply (length_complete l _ 1 c1 bs io io' f rest []); try done. by rewrite Hle.
Qed.

Lemma read_data_progress l io f rest len pos :
  reading l io f rest → small f → read_state l = ReadData len pos → read_progress l io f rest.
Proof using Laws.
  intros (Hw & Hc & Heq) Hf Hst. pose proof Hw as Hw'. unfold ld_wf in Hw'. rewrite Hst in Hw'.
  destruct Hw' as (Hlen & Hpos & Hrb). unfold partial in Heq. rewrite Hst in Heq.
  pose proof (small_bound _ Hf) as Hs. pose proof (small_bound len ltac:(lia)) as Hs'.
  unfold frame in Heq. rewrite <- !app_assoc in Heq.
  assert (∀ n, (n < 2 ^ 14)%N → (n < 2 ^ 64)%N) as H64 by (intros n Hn; change (2 ^ 14)%N with 16384%N in Hn; lia).
  apply leb128_app_inj in Heq as [-> Heq]; [|by apply H64..]. rewrite Nat2N.id in Hpos, Hrb.
  destruct io as [|[|b bs| |] io]; try (by apply Forall_cons in Hc as [[] _]).
  - exfalso. apply (f_equal length) in Heq. rewrite !length_app, length_take_le in Heq by lia.
    simpl in Heq. lia.
  - left. eexists _, _, _. split; [intros fuel; cbn [read_loop poll_read]; by rewrite Hst|].
    apply Forall_cons in Hc as [_ Hc]. split; [done|]. left. split_and!; [done| |rewrite pendings_cons; lia].
    split_and!; [done|done|]. unfold partial. rewrite Hst. unfold frame. rewrite <- !app_assoc.
    by rewrite <- Heq.
  - apply Forall_cons in Hc as [_ Hc].
    destruct (poll_read_bytes (length (read_buffer l) - pos) b bs io ltac:(lia) Hc)
      as (io' & data & Hread & Hdata & Hby & Hc' & Hpe).
    rewrite <- Hby in Heq. set (new := b :: data) in *.
    assert (length new ≤ length (read_buffer l) - pos) as Hnl by (rewrite Hdata, length_take; lia).
    assert (0 < length new) as Hn0 by (unfold new; simpl; lia).
    rewrite app_assoc in Heq. set (got := take pos (read_buffer l) ++ new) in *.
    assert (length got = pos + length new) as Hgl by (unfold got; rewrite length_app, length_take_le by lia; lia).
    assert (overwrite (read_buffer l) pos new = got ++ drop (pos + length new) (read_buffer l)) as Ho.
    { unfold overwrite, got. by rewrite app_assoc. }
    assert (∀ fuel, read_loop (S fuel) l (RBytes b bs :: io) =
      if decide (N.of_nat (pos + length new) = N.of_nat (length f))
      then Some (set_read l [] ReadState_default, io',
                 Ready (Some (Ok (overwrite (read_buffer l) pos new))))
      else read_loop fuel (set_read l (overwrite (read_buffer l) pos new)
             (ReadData (N.of_nat (length f)) (pos + length new))) io') as Hloop
      by (intros fuel; cbn [read_loop]; by rewrite Hst, Hread).
    destruct (decide (N.of_nat (pos + length new) = N.of_nat (length f))) as [Hdone|Hmore].
    + assert (got = f ∧ io_bytes io' = rest) as [Hgf Hrest] by (apply app_inj_1; [lia|done]).
      left. eexists _, _, _. split; [exact Hloop|].
      split; [done|]. right. split_and!; try done. rewrite Ho, Hgf, drop_ge, app_nil_r by lia. done.
    + right. eexists _, io'. split; [exact Hloop|].
      split_and!; [|rewrite <- Hby, length_app; lia|done|done]. split_and!; [|done|].
      * unfold ld_wf. cbn [read_state set_read read_buffer]. rewrite Ho, length_app, length_drop, !Nat2N.id.
        split_and!; [lia..].
      * unfold partial, frame. cbn [read_state set_read read_buffer].
        by rewrite Ho, <- Hgl, take_app_length, <- !app_assoc, <- Heq.
Qed.

Lemma read_progress_all l io f rest : reading l io f rest → small f → read_progress l io f rest.
Proof using Laws.
  intros Hr Hf. destruct (read_state l) as [buf pos|len pos] eqn:Hst;
    [by eapply read_length_progress|by eapply read_data_progress].
Qed.

Lemma read_loop_post fuel : ∀ l io f rest, reading l io f rest → small f →
  length (io_bytes io) < fuel →
  ∃ l' io' r, read_loop fuel l io = Some (l', io', r) ∧ read_post l io f rest l' io' r.
Proof using Laws.
  induction fuel as [|fuel IH]; intros l io f rest Hr Hf Hlt; [lia|].
  destruct (read_progress_all l io f rest Hr Hf) as [(l' & io' & r & He & Hp)|(l1 & io1 & He & Hr1 & Hlt1 & Hpe & Hwb)];
    rewrite He; [by eauto|].
  destruct (IH l1 io1 f rest Hr1 Hf ltac:(lia)) as (l' & io' & r & He' & Hwb' & Hpost).
  exists l', io', r. split; [done|]. split; [congruence|]. by rewrite Hpe in Hpost.
Qed.

Lemma poll_read_consumes n io io' b bs : poll_read n io = (io', Ready (Ok (b :: bs))) →
  length (io_bytes io') < length (io_bytes io).
Proof.
  destruct io as [|[|b0 bs0| |] io]; try discriminate. cbn [poll_read io_bytes].
  intros [= <- Htake]. destruct n as [|n]; [done|]. rewrite length_app. cbn [drop length].
  pose proof (length_drop bs0 n). destruct (drop n bs0); cbn [io_bytes]; rewrite ?length_app; simpl in *; lia.
Qed.

(** A poll ends, from any state and whatever the stream answers. *)
Lemma read_loop_total fuel : ∀ l io, length (io_bytes io) < fuel → read_loop fuel l io ≠ None.
Proof.
  induction fuel as [|fuel IH]; intros l io Hf; [lia|]. cbn [read_loop].
  destruct (read_state l) as [buf pos|len pos];
    destruct (poll_read _ io) as [io' [|[[|b bs]|k]]] eqn:E; try done;
    apply poll_read_consumes in E; repeat case_match; try done; apply IH; lia.
Qed.

Lemma ld_poll_next_total l io : ld_poll_next l io ≠ None.
Proof. apply read_loop_total. lia. Qed.

(** Polls until the stream is exhausted, and the frames they return. *)
Fixpoint read_frames (polls : nat) (l : LengthDelimited) (io : list ReadEvent) : list (list byte) :=
  match polls with
  | 0 => []
  | S polls =>
      match ld_poll_next l io with
      | Some (l, io, Ready (Some (Ok f))) => f :: read_frames polls l io
      | Some (l, io, Pending) => read_frames polls l io
      | _ => []
      end
  end.

Lemma read_frames_S polls l io : read_frames (S polls) l io =
  match ld_poll_next l io with
  | Some (l, io, Ready (Some (Ok f))) => f :: read_frames polls l io
  | Some (l, io, Pending) => read_frames polls l io
  | _ => []
  end.
Proof. done. Qed.

Lemma read_frames_one polls : ∀ l io f rest, reading l io f rest → small f → pendings io ≤ polls →
  ∃ l' io' polls', read_frames (S polls) l io = f :: read_frames polls' l' io' ∧
    at_start l' ∧ clean io' ∧ io_bytes io' = rest ∧ polls + pendings io' ≤ polls' + pendings io.
Proof using Laws.
  induction polls as [|polls IH]; intros l io f rest Hr Hf Hp; rewrite read_frames_S; unfold ld_poll_next;
    destruct (read_loop_post (S (length (io_bytes io))) l io f rest Hr Hf ltac:(lia))
      as (l' & io' & r & -> & _ & [(-> & Hr' & Hlt)|(-> & Ha & Hc & Hb & Hpe)]); [lia| | |].
  - exists l', io', 0. split_and!; [done..|lia].
  - destruct (IH l' io' f rest Hr' Hf ltac:(lia)) as (l2 & io2 & polls' & He & ? & ? & ? & ?).
    exists l2, io2, polls'. split_and!; [done..|lia].
  - exists l', io', (S polls). split_and!; [done..|lia].
Qed.

Lemma read_frames_all fs : ∀ polls l io, Forall small fs → at_start l → clean io →
  io_bytes io = mjoin (frame <$> fs) → length fs + pendings io ≤ polls → read_frames polls l io = fs.
Proof using Laws.
  induction fs as [|f fs IH]; intros polls l io Hs Ha Hc Hb Hp.
  - revert l io Ha Hc Hb Hp. induction polls as [|polls IHp]; intros l io Ha Hc Hb Hp; [done|].
    rewrite read_frames_S. unfold ld_poll_next. pose proof Ha as [Hrb Hst].
    destruct io as [|[|b bs| |] io]; try (by apply Forall_cons in Hc as [[] _]); cbn [read_loop poll_read];
      rewrite Hst; unfold ReadState_default; [apply IHp; [done..|unfold pendings; simpl; lia]|].
    apply Forall_cons in Hc as [_ Hc]. apply IHp; [done|done|done|]. rewrite pendings_cons in Hp. simpl in *. lia.
  - apply Forall_cons in Hs as [Hf Hs]. destruct polls as [|polls]; [simpl in Hp; lia|].
    destruct (at_start_wf l Ha) as [Hw Hpa].
    destruct (read_frames_one polls l io f (mjoin (frame <$> fs))) as (l' & io' & polls' & -> & Ha' & Hc' & Hb' & Hp').
    + split_and!; [done|done|]. by rewrite Hpa.
    + done.
    + simpl in Hp. lia.
    + f_equal. apply IH; try done. simpl in Hp. lia.
Qed.

(** ** Writing *)

(** Queue the frames; [None] if one of them is refused. *)
Fixpoint send_all (l : LengthDelimited) (fs : list (list byte)) : option LengthDelimited :=
  match fs with
  | [] => Some l
  | f :: fs => match start_send l f with Ok l => send_all l fs | Err _ => None end
  end.

Lemma send_all_spec fs : ∀ l, Forall small fs →
  ∃ l', send_all l fs = Some l' ∧ write_buffer l' = write_buffer l ++ mjoin (frame <$> fs) ∧
        read_buffer l' = read_buffer l ∧ read_state l' = read_state l.
Proof using Laws.
  induction fs as [|f fs IH]; intros l Hs; [exists l; split_and!; try done; by rewrite app_nil_r|].
  apply Forall_cons in Hs as [Hf Hs]. simpl. unfold start_send. rewrite (proj2 (N.leb_le _ _)) by done.
  destruct (IH (mkLengthDelimited (read_buffer l) (write_buffer l ++
    uvi_encode (N.of_nat (length f)) ++ f) (read_state l)) Hs) as (l' & -> & Hw & ? & ?).
  exists l'. split_and!; try done. rewrite Hw. cbn [write_buffer]. rewrite <- app_assoc. f_equal.
  change (mjoin (frame <$> f :: fs)) with (frame f ++ mjoin (frame <$> fs)).
  rewrite uvi_encode_leb128; [done|].
  pose proof (small_bound _ Hf) as Hb. change (2 ^ 14)%N with 16384%N in Hb. lia.
Qed.

(** Nothing is lost or reordered: what is written and what is still buffered make up the data. *)
Lemma poll_write_buffer_spec io : ∀ l wire,
  let '(l', _, wire', r) := poll_write_buffer l io wire in
  wire' ++ write_buffer l' = wire ++ write_buffer l ∧ read_buffer l' = read_buffer l ∧
  read_state l' = read_state l ∧ (r = Ready (Ok tt) → write_buffer l' = []).
Proof.
  induction io as [|ev io IH]; intros l wire; cbn [poll_write_buffer];
    destruct (write_buffer l) as [|b w] eqn:Ew; rewrite ?Ew; try done.
  destruct ev as [|n| |]; rewrite ?Ew; try done.
  specialize (IH (set_write l (drop (S n) (b :: w))) (wire ++ take (S n) (b :: w))).
  destruct (poll_write_buffer _ _ _) as [[[l' io'] wire'] r]. destruct IH as (Hw & ? & ? & ?).
  split_and!; try done. rewrite Hw. cbn [set_write write_buffer]. by rewrite <- app_assoc, take_drop.
Qed.

(** C31. Framing is transparent: frames of at most [MAX_FRAME_SIZE] bytes that are queued and flushed
    (whatever pieces the stream accepts) arrive at the other end complete and in order,
    whatever pieces the bytes arrive in and however often a read has to wait; a larger frame is
    refused and leaves the writer unchanged. *)
Theorem framing_transparent fs events io polls :
  Forall small fs →
  ∃ l, send_all LengthDelimited_new fs = Some l ∧
  let '(l', _, wire, r) := poll_write_buffer l events [] in
  (r = Ready (Ok tt) → clean io → io_bytes io = wire → length fs + pendings io ≤ polls →
   into_inner l' = Done tt ∧ read_frames polls LengthDelimited_new io = fs) ∧
  (∀ f, ¬ small f → start_send l' f = Err InvalidDataKind).
Proof using Laws.
  intros Hs. destruct (send_all_spec fs LengthDelimited_new Hs) as (l & -> & Hw & Hrb & Hst).
  exists l. split; [done|]. pose proof (poll_write_buffer_spec events l []) as Hp.
  destruct (poll_write_buffer l events []) as [[[l' events'] wire] r]. destruct Hp as (Hwire & Hrb' & Hst' & Hr).
  split.
  - intros Hok Hc Hb Hpolls. specialize (Hr Hok). rewrite Hr, app_nil_r in Hwire. simpl in Hwire. split.
    + unfold into_inner. rewrite decide_True; [done|]. split; [|done]. by rewrite Hrb', Hrb.
    + apply read_frames_all; try done. rewrite Hb, Hwire, Hw. done.
  - intros f Hf. unfold start_send. rewrite (proj2 (N.leb_gt _ _)); [done|]. unfold small in Hf. lia.
Qed.
End framing.

Lemma framing_transparent_witness :
  ∃ l, send_all (L := leb128_codec) LengthDelimited_new [[Byte.x61; Byte.x62]; []] = Some l ∧
  read_frames (L := leb128_codec) 5 LengthDelimited_new
    [RBytes Byte.x02 []; RPending; RBytes Byte.x61 []; RBytes Byte.x62 [Byte.x00]] =
  [[Byte.x61; Byte.x62]; []].
Proof.
  destruct (@framing_transparent leb128_codec leb128_codec_laws [[Byte.x61; Byte.x62]; []]
    [WAccept 0; WAccept 9] [RBytes Byte.x02 []; RPending; RBytes Byte.x61 []; RBytes Byte.x62 [Byte.x00]] 5
    ltac:(repeat constructor; vm_compute; discriminate)) as (l & Hl & Hp).
  exists l. split; [exact Hl|]. assert (l = mkLengthDelimited [] [Byte.x02; Byte.x61; Byte.x62; Byte.x00]
    ReadState_default) as -> by (vm_compute in Hl; by injection Hl as <-).
  destruct Hp as [Hp _]. apply Hp; [reflexivity|repeat constructor|reflexivity|vm_compute; lia].
Defined.
