(* ===== verification/Negotiation.v ===== *)
(** * Protocol negotiation

    [src/src/multistream_select/dialer_select.rs], [listener_select.rs] and [negotiated.rs]: the
    futures that agree on a protocol for a stream. An iteration of a future's loop is a function
    of the answers of the message stream ([MessageIO]): whether the sink is ready, whether it
    could be flushed, and the next message. The messages a future has sent but not flushed are
    part of its state. *)

From stdpp Require Import base tactics option list sets.
From Stdlib Require Import NArith Lia Init.Byte Strings.Byte.
From S2P Require Import Prelude Varint Multistream LengthDelimited.

(** [NegotiationError] of [negotiated.rs]. *)
Inductive NegotiationError := NegProtocolError (e : ProtocolError) | NegFailed.

Inductive Version := V1 | V1Lazy.

(** What the message stream answers. *)
Record IoAnswers := mkIoAnswers {
  io_ready : Poll (result IoErrorKind unit);
  io_flush : Poll (result IoErrorKind unit);
  io_next : Poll (option (result ProtocolError Message));
}.

(** How an iteration ends; [A] is what the future resolves to. *)
Inductive Iter (A : Type) := Continue | ReturnPending | Return (r : result NegotiationError A).
Arguments Continue {A}.
Arguments ReturnPending {A}.
Arguments Return {A} r.

(** A negotiated stream: complete, or still expecting the confirmation of a protocol. *)
Inductive Negotiated :=
| Completed
| Expecting (header : option HeaderLine) (protocol : Protocol)
| InvalidState.

Definition io_error {A} (k : IoErrorKind) : Iter A := Return (Err (NegProtocolError (IoError k))).
Definition protocol_error {A} (e : ProtocolError) : Iter A := Return (Err (NegProtocolError e)).

Section negotiation.
Context `{UnsignedVarint}.

(** [MessageIO::start_send]: refuses frames that are too large. *)
Definition send_message (out : list Message) (m : Message) : result IoErrorKind (list Message) :=
  if (N.of_nat (length (Message_encode m)) <=? MAX_FRAME_SIZE)%N
  then Ok (out ++ [m]) else Err InvalidDataKind.

(** ** The dialer *)

Inductive DialerState :=
| DSendHeader
| DSendProtocol (protocol : Protocol) (header_received : bool)
| DFlushProtocol (protocol : Protocol) (header_received : bool)
| DAwaitProtocol (protocol : Protocol) (header_received : bool)
| DDone.

Record Dialer := mkDialer {
  d_protocols : list Protocol;
  d_state : DialerState;
  d_version : Version;
}.

(** [dialer_select_proto] *)
Definition dialer_select_proto (protocols : list Protocol) (version : Version) : Dialer :=
  mkDialer protocols DSendHeader version.

Definition d_goto (d : Dialer) (st : DialerState) : Dialer :=
  mkDialer (d_protocols d) st (d_version d).

(** One iteration of [DialerSelectFuture::poll]: the new state, the messages not flushed, and the
    messages flushed. *)
Definition dialer_iter (d : Dialer) (out : list Message) (io : IoAnswers) :
    outcome (Dialer * list Message * list Message * Iter (Protocol * Negotiated)) :=
  let fin := d_goto d DDone in
  match d_state d with
  | DSendHeader =>
      match io_ready io with
      | Pending => Done (d, out, [], ReturnPending)
      | Ready (Err k) => Done (fin, out, [], io_error k)
      | Ready (Ok _) =>
          match send_message out (MHeader V1Header) with
          | Err k => Done (fin, out, [], io_error k)
          | Ok out =>
              match d_protocols d with
              | [] => Done (fin, out, [], Return (Err NegFailed))
              | p :: ps => Done (mkDialer ps (DSendProtocol p false) (d_version d), out, [], Continue)
              end
          end
      end
  | DSendProtocol protocol hr =>
      match io_ready io with
      | Pending => Done (d, out, [], ReturnPending)
      | Ready (Err k) => Done (fin, out, [], io_error k)
      | Ready (Ok _) =>
          match Protocol_try_from protocol with
          | Err e => Done (fin, out, [], protocol_error e)
          | Ok p =>
              match send_message out (MProtocol p) with
              | Err k => Done (fin, out, [], io_error k)
              | Ok out =>
                  match d_protocols d, d_version d with
                  | _ :: _, _ | [], V1 => Done (d_goto d (DFlushProtocol protocol hr), out, [], Continue)
                  | [], V1Lazy =>
                      Done (fin, out, [], Return (Ok (protocol, Expecting (Some V1Header) p)))
                  end
              end
          end
      end
  | DFlushProtocol protocol hr =>
      match io_flush io with
      | Pending => Done (d, out, [], ReturnPending)
      | Ready (Err k) => Done (fin, out, [], io_error k)
      | Ready (Ok _) => Done (d_goto d (DAwaitProtocol protocol hr), [], out, Continue)
      end
  | DAwaitProtocol protocol hr =>
      match io_next io with
      | Pending => Done (d, out, [], ReturnPending)
      | Ready None => Done (fin, out, [], Return (Err NegFailed))
      | Ready (Some (Err e)) => Done (fin, out, [], protocol_error e)
      | Ready (Some (Ok (MHeader V1Header))) =>
          if negb hr then Done (d_goto d (DAwaitProtocol protocol true), out, [], Continue)
          else Done (fin, out, [], protocol_error InvalidMessage)
      | Ready (Some (Ok (MProtocol p))) =>
          if decide (p = protocol) then
            match out with
            | [] => Done (fin, [], [], Return (Ok (protocol, Completed)))
            | _ => Panic
            end
          else Done (fin, out, [], protocol_error InvalidMessage)
      | Ready (Some (Ok MNotAvailable)) =>
          match d_protocols d with
          | [] => Done (fin, out, [], Return (Err NegFailed))
          | p :: ps => Done (mkDialer ps (DSendProtocol p hr) (d_version d), out, [], Continue)
          end
      | Ready (Some (Ok _)) => Done (fin, out, [], protocol_error InvalidMessage)
      end
  | DDone => Panic
  end.

(** ** The listener *)

Inductive ListenerState :=
| LRecvHeader
| LSendHeader
| LRecvMessage
| LSendMessage (message : Message) (protocol : option Protocol)
| LFlush (protocol : option Protocol)
| LDone.

Record Listener := mkListener {
  l_protocols : list Protocol;
  l_state : ListenerState;
  last_sent_na : bool;
}.

(** [listener_select_proto]: invalid names are ignored. *)
Definition listener_select_proto (protocols : list Protocol) : Listener :=
  mkListener (filter (λ p, head p = Some SLASH) protocols) LRecvHeader false.

Definition l_goto (l : Listener) (st : ListenerState) : Listener :=
  mkListener (l_protocols l) st (last_sent_na l).

(** One iteration of [ListenerSelectFuture::poll]. *)
Definition listener_iter (l : Listener) (out : list Message) (io : IoAnswers) :
    outcome (Listener * list Message * list Message * Iter Protocol) :=
  let fin := l_goto l LDone in
  match l_state l with
  | LRecvHeader =>
      match io_next io with
      | Pending => Done (l, out, [], ReturnPending)
      | Ready None => Done (fin, out, [], Return (Err NegFailed))
      | Ready (Some (Err e)) => Done (fin, out, [], protocol_error e)
      | Ready (Some (Ok (MHeader V1Header))) => Done (l_goto l LSendHeader, out, [], Continue)
      | Ready (Some (Ok _)) => Done (fin, out, [], protocol_error InvalidMessage)
      end
  | LSendHeader =>
      match io_ready io with
      | Pending => Done (l, out, [], ReturnPending)
      | Ready (Err k) => Done (fin, out, [], io_error k)
      | Ready (Ok _) =>
          match send_message out (MHeader V1Header) with
          | Err k => Done (fin, out, [], io_error k)
          | Ok out => Done (l_goto l (LFlush None), out, [], Continue)
          end
      end
  | LRecvMessage =>
      match io_next io with
      | Pending => Done (l, out, [], ReturnPending)
      | Ready None => Done (fin, out, [], Return (Err NegFailed))
      | Ready (Some (Err e)) =>
          Done (fin, out, [],
            if last_sent_na l then
              match e with
              | InvalidMessage | IoError UnexpectedEof => Return (Err NegFailed)
              | _ => protocol_error e
              end
            else protocol_error e)
      | Ready (Some (Ok MListProtocols)) =>
          Done (l_goto l (LSendMessage (MProtocols (l_protocols l)) None), out, [], Continue)
      | Ready (Some (Ok (MProtocol p))) =>
          let protocol := snd <$> list_find (λ q, p = q) (l_protocols l) in
          let message := match protocol with Some _ => MProtocol p | None => MNotAvailable end in
          Done (l_goto l (LSendMessage message protocol), out, [], Continue)
      | Ready (Some (Ok _)) => Done (fin, out, [], protocol_error InvalidMessage)
      end
  | LSendMessage message protocol =>
      match io_ready io with
      | Pending => Done (l, out, [], ReturnPending)
      | Ready (Err k) => Done (fin, out, [], io_error k)
      | Ready (Ok _) =>
          let na := match message with MNotAvailable => true | _ => false end in
          match send_message out message with
          | Err k => Done (mkListener (l_protocols l) LDone na, out, [], io_error k)
          | Ok out => Done (mkListener (l_protocols l) (LFlush protocol) na, out, [], Continue)
          end
      end
  | LFlush protocol =>
      match io_flush io with
      | Pending => Done (l, out, [], ReturnPending)
      | Ready (Err k) => Done (fin, out, [], io_error k)
      | Ready (Ok _) =>
          match protocol with
          | Some p => Done (fin, [], out, Return (Ok p))
          | None => Done (l_goto l LRecvMessage, [], out, Continue)
          end
      end
  | LDone => Panic
  end.

(** ** The negotiated stream *)

(** The flush that starts [Negotiated::poll]: a stream the remote closed is still read. *)
Definition negotiated_flush (n : Negotiated) (out : list Message) (io : IoAnswers) :
    outcome (list Message * list Message * Iter unit) :=
  match n with
  | InvalidState => Panic
  | _ =>
      match io_flush io with
      | Pending => Done (out, [], ReturnPending)
      | Ready (Ok _) => Done ([], out, Continue)
      | Ready (Err WriteZero) => Done (out, [], Continue)
      | Ready (Err k) => Done (out, [], io_error k)
      end
  end.

(** One iteration of its loop. *)
Definition negotiated_iter (n : Negotiated) (out : list Message) (io : IoAnswers) :
    outcome (Negotiated * Iter unit) :=
  match n with
  | Completed => Done (Completed, Return (Ok tt))
  | InvalidState => Panic
  | Expecting header protocol =>
      match io_next io with
      | Pending => Done (n, ReturnPending)
      | Ready None => Done (InvalidState, io_error UnexpectedEof)
      | Ready (Some (Err e)) => Done (InvalidState, protocol_error e)
      | Ready (Some (Ok (MHeader h))) =>
          if decide (Some h = header) then Done (Expecting None protocol, Continue)
          else Done (InvalidState, protocol_error InvalidMessage)
      | Ready (Some (Ok (MProtocol p))) =>
          if decide (p = protocol) then
            match out with [] => Done (Completed, Return (Ok tt)) | _ => Panic end
          else Done (InvalidState, Return (Err NegFailed))
      | Ready (Some (Ok _)) => Done (InvalidState, Return (Err NegFailed))
      end
  end.
End negotiation.
