(* ===== verification/NegotiationFacts.v ===== *)
(** * Negotiation: dialer and listener agree

    A dialer and a listener ([src/src/multistream_select/]) that talk to each other over two FIFO
    streams of frames, in any interleaving. *)

From stdpp Require Import base tactics option list sets relations.
From Stdlib Require Import NArith Lia Init.Byte Strings.Byte.
From S2P Require Import Prelude Varint Multistream LengthDelimited Negotiation.

Local Open Scope litep2p_scope.

(** The dialing side negotiates, or has settled on a protocol it still expects to be confirmed. *)
Inductive DialSide := Dialing (d : Dialer) | Settled (p : Protocol) (n : Negotiated).

(** Both ends, the messages they have not flushed, and the frames in flight. *)
Record Net := mkNet {
  n_dialer : DialSide;
  n_dout : list Message;
  n_d2l : list (list byte);
  n_listener : Listener;
  n_lout : list Message;
  n_l2d : list (list byte);
  n_dres : option (result NegotiationError Protocol);
  n_lres : option (result NegotiationError Protocol);
}.

Section net.
Context `{UnsignedVarint}.

(** An end that failed drops the stream; the other end then reads its end. *)
Definition closed (r : option (result NegotiationError Protocol)) : bool :=
  match r with Some (Err _) => true | _ => false end.

Definition answers (q : list (list byte)) (closed : bool) : IoAnswers :=
  mkIoAnswers (Ready (Ok tt)) (Ready (Ok tt))
    match q with
    | f :: _ => Ready (Some (Message_decode f))
    | [] => if closed then Ready None else Pending
    end.

Definition d_reads (d : Dialer) : bool :=
  match d_state d with DAwaitProtocol _ _ => true | _ => false end.
Definition l_reads (l : Listener) : bool :=
  match l_state l with LRecvHeader | LRecvMessage => true | _ => false end.
Definition consume (reads : bool) (q : list (list byte)) : list (list byte) :=
  if reads then tail q else q.

(** A step of the dialing side; [None] if it has nothing to do. *)
Definition dial_step (n : Net) : outcome (option Net) :=
  let io := answers (n_l2d n) (closed (n_lres n)) in
  let upd D out flushed l2d res :=
    mkNet D out (n_d2l n ++ (Message_encode <$> flushed)) (n_listener n) (n_lout n) l2d res (n_lres n) in
  match n_dres n, n_dialer n with
  | Some _, _ => Done None
  | None, Dialing d =>
      run (d', out, flushed, it) <- dialer_iter d (n_dout n) io ;;
      let l2d := consume (d_reads d) (n_l2d n) in
      match it with
      | ReturnPending => Done None
      | Continue => Done (Some (upd (Dialing d') out flushed l2d None))
      | Return (Err e) => Done (Some (upd (Dialing d') out flushed l2d (Some (Err e))))
      | Return (Ok (p, Completed)) => Done (Some (upd (Dialing d') out flushed l2d (Some (Ok p))))
      | Return (Ok (p, s)) => Done (Some (upd (Settled p s) out flushed l2d None))
      end
  | None, Settled p s =>
      match n_dout n with
      | _ :: _ =>
          run (out, flushed, it) <- negotiated_flush s (n_dout n) io ;;
          match it with
          | ReturnPending => Done None
          | Return (Err e) => Done (Some (upd (Settled p s) out flushed (n_l2d n) (Some (Err e))))
          | _ => Done (Some (upd (Settled p s) out flushed (n_l2d n) None))
          end
      | [] =>
          run (s', it) <- negotiated_iter s [] io ;;
          match it with
          | ReturnPending => Done None
          | Continue => Done (Some (upd (Settled p s') [] [] (tail (n_l2d n)) None))
          | Return (Ok _) => Done (Some (upd (Settled p s') [] [] (tail (n_l2d n)) (Some (Ok p))))
          | Return (Err e) => Done (Some (upd (Settled p s') [] [] (tail (n_l2d n)) (Some (Err e))))
          end
      end
  end.

(** A step of the listening side. *)
Definition listen_step (n : Net) : outcome (option Net) :=
  let io := answers (n_d2l n) (closed (n_dres n)) in
  let upd l out flushed d2l res :=
    mkNet (n_dialer n) (n_dout n) d2l l out (n_l2d n ++ (Message_encode <$> flushed)) (n_dres n) res in
  match n_lres n with
  | Some _ => Done None
  | None =>
      run (l', out, flushed, it) <- listener_iter (n_listener n) (n_lout n) io ;;
      let d2l := consume (l_reads (n_listener n)) (n_d2l n) in
      match it with
      | ReturnPending => Done None
      | Continue => Done (Some (upd l' out flushed d2l None))
      | Return r => Done (Some (upd l' out flushed d2l (Some r)))
      end
  end.

Inductive net_step : Net → Net → Prop :=
| NetDial n n' : dial_step n = Done (Some n') → net_step n n'
| NetListen n n' : listen_step n = Done (Some n') → net_step n n'.

Definition net_start (dps lps : list Protocol) (v : Version) : Net :=
  mkNet (Dialing (dialer_select_proto dps v)) [] [] (listener_select_proto lps) [] [] None None.

(** A name that can be negotiated: a wellformed line that fits into a frame. *)
Definition negotiable (p : Protocol) : Prop :=
  message_wf (MProtocol p) ∧ (N.of_nat (length p + 1) ≤ MAX_FRAME_SIZE)%N.
End net.

Section agreement.
Context {L : UnsignedVarint} {Laws : UnsignedVarintLaws L}.
Context (dps lps : list Protocol) (v : Version) (Hdps : Forall negotiable dps).

Definition supported : list Protocol := filter (λ p, head p = Some SLASH) lps.

Definition reply (p : Protocol) : Message :=
  if decide (p ∈ supported) then MProtocol p else MNotAvailable.
Definition chosen (p : Protocol) : option Protocol := if decide (p ∈ supported) then Some p else None.

Definition FH : list byte := Message_encode (MHeader V1Header).
Definition FP (p : Protocol) : list byte := Message_encode (MProtocol p).
Definition FNA : list byte := Message_encode MNotAvailable.

(** The part of the listener's header that the dialer has not read. *)
Definition unread (hr : bool) : list (list byte) := if hr then [] else [FH].

(** The dialing side is about to flush its proposal of [p], the protocols [ps] remaining. *)
Inductive flushing (p : Protocol) (ps : list Protocol) (hr : bool) : DialSide → Prop :=
| FlushDialing : flushing p ps hr (Dialing (mkDialer ps (DFlushProtocol p hr) v))
| FlushSettled : ps = [] → flushing p ps hr (Settled p (Expecting (Some V1Header) p)).

(** The dialing side waits for the answer to its proposal. *)
Inductive awaiting (p : Protocol) (ps : list Protocol) (hr : bool) : DialSide → Prop :=
| AwaitDialing : awaiting p ps hr (Dialing (mkDialer ps (DAwaitProtocol p hr) v))
| AwaitSettled hd : ps = [] → (hr = false → hd = Some V1Header) →
    awaiting p ps hr (Settled p (Expecting hd p)).

(** How far the listener is with the answer: frames to read, its state, messages to flush, frames
    written, result. *)
Inductive answering (p : Protocol) (hr : bool) : list (list byte) → ListenerState → list Message →
    list (list byte) → option (result NegotiationError Protocol) → Prop :=
| AnsHeader : hr = false → answering p hr [FH; FP p] LRecvHeader [] [] None
| AnsSendHeader : hr = false → answering p hr [FP p] LSendHeader [] [] None
| AnsFlushHeader : hr = false → answering p hr [FP p] (LFlush None) [MHeader V1Header] [] None
| AnsProposal : answering p hr [FP p] LRecvMessage [] (unread hr) None
| AnsReply : answering p hr [] (LSendMessage (reply p) (chosen p)) [] (unread hr) None
| AnsFlush : answering p hr [] (LFlush (chosen p)) [reply p] (unread hr) None
| AnsAccepted : p ∈ supported → answering p hr [] LDone [] (unread hr ++ [FP p]) (Some (Ok p))
| AnsRejected : p ∉ supported → answering p hr [] LRecvMessage [] (unread hr ++ [FNA]) None.

(** The proposal of [p], after the ones in [dps] before it were rejected. *)
Definition proposing (p : Protocol) (ps : list Protocol) : Prop :=
  ∃ tried, dps = tried ++ p :: ps ∧ Forall (λ q, q ∉ supported) tried.

Notation listener st na := (mkListener supported st na) (only parsing).

Inductive joint : Net → Prop :=
| JStart na : joint (mkNet (Dialing (mkDialer dps DSendHeader v)) [] [] (listener LRecvHeader na) [] [] None None)
| JPropose p ps na : proposing p ps → dps = p :: ps →
    joint (mkNet (Dialing (mkDialer ps (DSendProtocol p false) v)) [MHeader V1Header] []
             (listener LRecvHeader na) [] [] None None)
| JFlush p ps D na : proposing p ps → flushing p ps false D →
    joint (mkNet D [MHeader V1Header; MProtocol p] [] (listener LRecvHeader na) [] [] None None)
| JAwait p ps hr D d2l st lout l2d lres na : proposing p ps → awaiting p ps hr D →
    answering p hr d2l st lout l2d lres →
    joint (mkNet D [] d2l (listener st na) lout l2d None lres)
| JNext p ps na : proposing p ps →
    joint (mkNet (Dialing (mkDialer ps (DSendProtocol p true) v)) [] [] (listener LRecvMessage na) [] [] None None)
| JFlushNext p ps D na : proposing p ps → flushing p ps true D →
    joint (mkNet D [MProtocol p] [] (listener LRecvMessage na) [] [] None None)
| JAgreed p ps D na : proposing p ps → p ∈ supported →
    joint (mkNet D [] [] (listener LDone na) [] [] (Some (Ok p)) (Some (Ok p)))
| JFailed D out st na : Forall (λ q, q ∉ supported) dps → st = LRecvHeader ∨ st = LRecvMessage →
    joint (mkNet D out [] (listener st na) [] [] (Some (Err NegFailed)) None)
| JFailedBoth D out na : Forall (λ q, q ∉ supported) dps →
    joint (mkNet D out [] (listener LDone na) [] [] (Some (Err NegFailed)) (Some (Err NegFailed))).

(** An upper bound of the steps that are left. *)
Definition dial_rank (n : Net) : nat :=
  match n_dres n with
  | Some _ => 0
  | None =>
      match n_dialer n with
      | Dialing d => 20 * length (d_protocols d) +
          match d_state d with
          | DSendHeader => 1
          | DSendProtocol _ _ => 15
          | DFlushProtocol _ _ => 14
          | _ => 3
          end
      | Settled _ _ => match n_dout n with [] => 3 | _ => 14 end
      end
  end.

Definition listen_rank (n : Net) : nat :=
  match n_lres n with
  | Some _ => 0
  | None => match l_state (n_listener n) with LSendHeader | LSendMessage _ _ => 4 | LFlush _ => 3 | _ => 1 end
  end.

Definition rank (n : Net) : nat :=
  dial_rank n + listen_rank n + 5 * length (n_d2l n) + length (n_l2d n).
Lemma decode_header : Message_decode FH = Ok (MHeader V1Header).
Proof. done. Qed.
Lemma decode_na : Message_decode FNA = Ok MNotAvailable.
Proof. done. Qed.
Lemma decode_proposal p : negotiable p → Message_decode (FP p) = Ok (MProtocol p).
Proof using Laws. intros [Hp _]. by apply decode_encode. Qed.

Lemma send_header out : send_message out (MHeader V1Header) = Ok (out ++ [MHeader V1Header]).
Proof. done. Qed.
Lemma send_proposal out p : negotiable p → send_message out (MProtocol p) = Ok (out ++ [MProtocol p]).
Proof.
  intros [_ Hp]. unfold send_message. simpl. rewrite length_app. by rewrite (proj2 (N.leb_le _ _)).
Qed.
Lemma send_reply out p : negotiable p → send_message out (reply p) = Ok (out ++ [reply p]).
Proof. intros Hp. unfold reply. case_decide; [by apply send_proposal|done]. Qed.

Lemma try_from_negotiable p : negotiable p → Protocol_try_from p = Ok p.
Proof. intros [[Hp _] _]. by apply Protocol_try_from_ok. Qed.

Lemma find_supported p : snd <$> list_find (λ q, p = q) supported = chosen p.
Proof.
  unfold chosen. destruct (list_find _ _) as [[i q]|] eqn:E; simpl.
  - apply list_find_Some in E as (Hi & -> & _). rewrite decide_True; [done|].
    by eapply list_elem_of_lookup_2.
  - apply list_find_None in E. rewrite Forall_forall in E. rewrite decide_False; [done|].
    intros Hp. by apply (E p Hp).
Qed.

Lemma proposing_negotiable p ps : proposing p ps → negotiable p.
Proof using Hdps.
  intros (tried & Heq & _). pose proof Hdps as Hd. rewrite Heq, Forall_app, Forall_cons in Hd. tauto.
Qed.

Lemma proposing_next p q ps : proposing p (q :: ps) → p ∉ supported → proposing q ps.
Proof.
  intros (tried & Heq & Ht) Hp. exists (tried ++ [p]). split; [by rewrite Heq, <- app_assoc|].
  apply Forall_app. split; [done|by constructor].
Qed.

Lemma proposing_last p : proposing p [] → p ∉ supported → Forall (λ q, q ∉ supported) dps.
Proof. intros (tried & Heq & Ht) Hp. rewrite Heq. apply Forall_app. split; [done|by constructor]. Qed.

(** A step of either side keeps [joint] and lowers the rank. *)
Definition good_step (n : Net) (r : outcome (option Net)) : Prop :=
  match r with
  | Panic => False
  | Done None => True
  | Done (Some n') => joint n' ∧ rank n' < rank n
  end.

#[local] Opaque Message_decode Message_encode send_message Protocol_try_from.

Ltac net_unfold :=
  unfold good_step, dial_step, listen_step, dialer_iter, listener_iter, negotiated_iter,
    negotiated_flush, answers.

Ltac rank_lia := unfold rank, dial_rank, listen_rank; simpl; rewrite ?length_app; simpl; lia.

(** The dialer reads the header of the listener. *)
Lemma dial_await_header p ps D d2l st lout q lres na : proposing p ps → awaiting p ps false D →
  answering p true d2l st lout q lres →
  let n := mkNet D [] d2l (mkListener supported st na) lout (FH :: q) None lres in
  good_step n (dial_step n).
Proof.
  intros Hp Ha Hans. net_unfold. destruct Ha as [|hd Hps Hhd]; simpl.
  - rewrite decode_header. simpl. rewrite app_nil_r. split; [|rank_lia].
    apply (JAwait p ps true); [done|apply AwaitDialing|done].
  - rewrite decode_header, (Hhd eq_refl). simpl. rewrite app_nil_r. split; [|rank_lia].
    apply (JAwait p ps true); [done|by apply AwaitSettled|done].
Qed.

(** The dialer reads the answer to its proposal. *)
Lemma dial_await_answer p ps D st lres na : proposing p ps → awaiting p ps true D →
  p ∈ supported ∧ st = LDone ∧ lres = Some (Ok p) ∨ p ∉ supported ∧ st = LRecvMessage ∧ lres = None →
  let n := mkNet D [] [] (mkListener supported st na) []
             [if decide (p ∈ supported) then FP p else FNA] None lres in
  good_step n (dial_step n).
Proof using Laws Hdps.
  intros Hp Ha Hans. pose proof (proposing_negotiable p ps Hp) as Hneg. net_unfold.
  destruct Hans as [(Hs & -> & ->)|(Hs & -> & ->)]; [rewrite decide_True by done|rewrite decide_False by done];
    destruct Ha as [|hd Hps Hhd]; simpl.
  - rewrite decode_proposal by done. rewrite decide_True by done. simpl.
    split; [by eapply JAgreed|rank_lia].
  - rewrite decode_proposal by done. rewrite decide_True by done. simpl.
    split; [by eapply JAgreed|rank_lia].
  - rewrite decode_na. destruct ps as [|q ps]; simpl.
    + split; [|rank_lia]. apply JFailed; [by eapply proposing_last|by right].
    + split; [|rank_lia]. apply JNext. by eapply proposing_next.
  - rewrite decode_na. simpl. subst ps. split; [|rank_lia].
    apply JFailed; [by eapply proposing_last|by right].
Qed.

(** The dialer waits while there is nothing to read. *)
Lemma dial_await_nothing p ps hr D d2l l lout : awaiting p ps hr D →
  dial_step (mkNet D [] d2l l lout [] None None) = Done None.
Proof. by intros [|hd]. Qed.

Lemma dial_await p ps hr D d2l st lout l2d lres na : proposing p ps → awaiting p ps hr D →
  answering p hr d2l st lout l2d lres →
  let n := mkNet D [] d2l (mkListener supported st na) lout l2d None lres in
  good_step n (dial_step n).
Proof using Laws Hdps.
  intros Hp Ha Hans n. subst n. destruct Hans as [->| ->| ->| | | |Hs|Hs].
  1-3: by rewrite (dial_await_nothing p ps false).
  1-3: destruct hr; [by rewrite (dial_await_nothing p ps true)|];
       eapply dial_await_header; [done|done|constructor].
  - destruct hr; [|eapply dial_await_header; [done|done|by constructor]].
    pose proof (dial_await_answer p ps D LDone (Some (Ok p)) na Hp Ha) as Hd. simpl in Hd.
    rewrite decide_True in Hd by done. apply Hd. by left.
  - destruct hr; [|eapply dial_await_header; [done|done|by constructor]].
    pose proof (dial_await_answer p ps D LRecvMessage None na Hp Ha) as Hd. simpl in Hd.
    rewrite decide_False in Hd by done. apply Hd. by right.
Qed.

Lemma dial_flush p ps hr D d2l out st na : flushing p ps hr D → out ≠ [] →
  ∃ D', awaiting p ps hr D' ∧
  dial_step (mkNet D out d2l (mkListener supported st na) [] [] None None) =
  Done (Some (mkNet D' [] (d2l ++ (Message_encode <$> out)) (mkListener supported st na) [] [] None None)) ∧
  dial_rank (mkNet D' [] (d2l ++ (Message_encode <$> out)) (mkListener supported st na) [] [] None None) + 11 =
  dial_rank (mkNet D out d2l (mkListener supported st na) [] [] None None).
Proof.
  intros Hf Ho. destruct out as [|m out]; [done|]. destruct Hf as [|Hps].
  - eexists. split; [apply AwaitDialing|]. split; [done|]. unfold dial_rank. simpl. lia.
  - eexists. split; [by apply (AwaitSettled p ps hr (Some V1Header))|]. by split.
Qed.

Lemma joint_dial n : joint n → good_step n (dial_step n).
Proof using Laws Hdps.
  destruct 1 as [na|p ps na Hp Heq|p ps D na Hp Hf|p ps hr D d2l st lout l2d lres na Hp Ha Hans|
    p ps na Hp|p ps D na Hp Hf| | |]; try done.
  - net_unfold. simpl. rewrite send_header. destruct dps as [|p ps] eqn:E; simpl.
    + split; [|rank_lia]. apply JFailed; [by rewrite E|by left].
    + rewrite <- E. split; [|rewrite E; rank_lia]. apply JPropose; [|done]. by exists [].
  - pose proof (proposing_negotiable p ps Hp) as Hneg. net_unfold. simpl.
    rewrite try_from_negotiable, send_proposal by done. simpl.
    destruct ps as [|q ps]; [destruct v eqn:Ev|]; simpl; (split; [|rank_lia]); rewrite <- ?Ev.
    + eapply JFlush; [done|apply FlushDialing].
    + eapply JFlush; [done|by apply FlushSettled].
    + eapply JFlush; [done|apply FlushDialing].
  - destruct (dial_flush p ps false D [] [MHeader V1Header; MProtocol p] LRecvHeader na Hf ltac:(done))
      as (D' & Ha & -> & Hr). split; [|unfold rank, listen_rank in *; simpl in *; lia].
    eapply JAwait; [done|done|by apply AnsHeader].
  - by apply (dial_await p ps hr).
  - pose proof (proposing_negotiable p ps Hp) as Hneg. net_unfold. simpl.
    rewrite try_from_negotiable, send_proposal by done. simpl.
    destruct ps as [|q ps]; [destruct v eqn:Ev|]; simpl; (split; [|rank_lia]); rewrite <- ?Ev.
    + eapply JFlushNext; [done|apply FlushDialing].
    + eapply JFlushNext; [done|by apply FlushSettled].
    + eapply JFlushNext; [done|apply FlushDialing].
  - destruct (dial_flush p ps true D [] [MProtocol p] LRecvMessage na Hf ltac:(done))
      as (D' & Ha & -> & Hr). split; [|unfold rank, listen_rank in *; simpl in *; lia].
    eapply JAwait; [done|done|apply (AnsProposal p true)].
Qed.

Lemma listen_answering p ps hr D d2l st lout l2d lres na : proposing p ps → awaiting p ps hr D →
  answering p hr d2l st lout l2d lres →
  let n := mkNet D [] d2l (mkListener supported st na) lout l2d None lres in
  good_step n (listen_step n).
Proof using Laws Hdps.
  intros Hp Ha Hans n. subst n. pose proof (proposing_negotiable p ps Hp) as Hneg.
  destruct Hans as [->| ->| ->| | | |Hs|Hs]; try done.
  - net_unfold. simpl. rewrite decode_header. simpl. split; [|rank_lia].
    eapply JAwait; [done|done|by apply AnsSendHeader].
  - net_unfold. simpl. rewrite send_header. simpl. split; [|rank_lia].
    eapply JAwait; [done|done|by apply AnsFlushHeader].
  - net_unfold. simpl. split; [|rank_lia]. eapply JAwait; [done|done|apply (AnsProposal p false)].
  - net_unfold. simpl. rewrite decode_proposal, find_supported by done. simpl.
    split; [|rank_lia]. rewrite app_nil_r. eapply (JAwait p ps hr); [done|done|].
    replace (match chosen p with Some _ => MProtocol p | None => MNotAvailable end) with (reply p);
      [apply AnsReply|]. unfold reply, chosen. by case_decide.
  - net_unfold. simpl. rewrite send_reply by done. simpl. rewrite app_nil_r.
    split; [eapply (JAwait p ps hr); [done|done|apply AnsFlush]|rank_lia].
  - net_unfold. simpl. unfold chosen, reply. case_decide as Hs; simpl; (split; [|rank_lia]).
    + eapply (JAwait p ps hr); [done|done|by apply AnsAccepted].
    + eapply (JAwait p ps hr); [done|done|by apply AnsRejected].
Qed.

Lemma joint_listen n : joint n → good_step n (listen_step n).
Proof using Laws Hdps.
  destruct 1 as [na|p ps na Hp Heq|p ps D na Hp Hf|p ps hr D d2l st lout l2d lres na Hp Ha Hans|
    p ps na Hp|p ps D na Hp Hf| |D out st na Hall Hst|]; try done.
  - by apply (listen_answering p ps hr).
  - destruct Hst as [->| ->]; net_unfold; simpl;
      (split; [by apply JFailedBoth|rank_lia]).
Qed.

(** The first protocol of the dialer that the listener supports. *)
Definition agreed : option Protocol := snd <$> list_find (λ p, p ∈ lps) dps.

Definition outcome_of (o : option Protocol) : result NegotiationError Protocol :=
  match o with Some p => Ok p | None => Err NegFailed end.

Lemma supported_iff p : negotiable p → p ∈ supported ↔ p ∈ lps.
Proof. intros [[Hp _] _]. unfold supported. rewrite list_elem_of_filter. tauto. Qed.

Lemma agreed_some p ps : proposing p ps → p ∈ supported → agreed = Some p.
Proof using Hdps.
  intros (tried & Heq & Ht) Hp. unfold agreed. pose proof Hdps as Hd.
  rewrite Heq, Forall_app, Forall_cons in Hd. destruct Hd as (Hd & Hn & _).
  rewrite Heq. rewrite list_find_app_r.
  - simpl. rewrite decide_True by by apply supported_iff. done.
  - apply list_find_None. rewrite Forall_forall in *. intros q Hq. rewrite <- supported_iff by auto. auto.
Qed.

Lemma agreed_none : Forall (λ q, q ∉ supported) dps → agreed = None.
Proof using Hdps.
  intros Ha. unfold agreed. rewrite (proj2 (list_find_None _ _)); [done|].
  rewrite Forall_forall in *. intros q Hq. rewrite <- supported_iff by auto. auto.
Qed.

(** Where neither side can move, both have the same result. *)
Lemma joint_stuck n : joint n → dial_step n = Done None → listen_step n = Done None →
  n_dres n = Some (outcome_of agreed) ∧ n_lres n = Some (outcome_of agreed).
Proof using Laws Hdps.
  destruct 1 as [na|p ps na Hp Heq|p ps D na Hp Hf|p ps hr D d2l st lout l2d lres na Hp Ha Hans|
    p ps na Hp|p ps D na Hp Hf|p ps D na Hp Hs|D out st na Hall Hst|D out na Hall]; net_unfold; simpl.
  - rewrite send_header. by destruct dps.
  - rewrite try_from_negotiable, send_proposal by (by eapply proposing_negotiable). simpl.
    by destruct ps, v.
  - by destruct Hf.
  - pose proof (proposing_negotiable p ps Hp) as Hneg.
    destruct Hans as [->| ->| ->| | | |Hs|Hs]; simpl;
      rewrite ?decode_header, ?send_header, ?decode_proposal, ?send_reply by done; try done.
    + unfold chosen. by case_decide.
    + destruct Ha as [|hd]; destruct hr; simpl; rewrite ?decode_header, ?decode_proposal by done; simpl;
        rewrite ?decide_True by done; try done. case_decide; done.
    + destruct Ha as [|hd]; destruct hr; simpl; rewrite ?decode_header, ?decode_na; simpl; try done;
        [by destruct ps|]. case_decide; done.
  - rewrite try_from_negotiable, send_proposal by (by eapply proposing_negotiable). simpl.
    by destruct ps, v.
  - by destruct Hf.
  - intros _ _. by rewrite (agreed_some p ps).
  - by destruct Hst as [->| ->].
  - intros _ _. by rewrite agreed_none.
Qed.

Lemma joint_steps n n' : rtc net_step n n' → joint n → joint n'.
Proof using Laws Hdps.
  induction 1 as [|n n1 n' Hs _ IH]; [done|]. intros Hj. apply IH.
  destruct Hs as [n n1 Hs|n n1 Hs]; [pose proof (joint_dial n Hj) as Hg|pose proof (joint_listen n Hj) as Hg];
    rewrite Hs in Hg; by destruct Hg.
Qed.

Lemma joint_bound k n n' : nsteps net_step k n n' → joint n → k + rank n' ≤ rank n.
Proof using Laws Hdps.
  induction 1 as [|k n n1 n' Hs _ IH]; [lia|]. intros Hj.
  destruct Hs as [n n1 Hs|n n1 Hs]; [pose proof (joint_dial n Hj) as Hg|pose proof (joint_listen n Hj) as Hg];
    rewrite Hs in Hg; destruct Hg as [Hj1 Hr]; specialize (IH Hj1); lia.
Qed.

(** C24. Negotiation always ends in agreement. With both ends running, in any interleaving and for
    both versions: neither end ever panics; a run has at most [20 * n + 2] steps for [n] proposed
    protocols; and where no end can move any more, both have settled on the first protocol of
    the dialer that the listener supports, or both have failed because there is none. *)
Theorem negotiation_agrees :
  (∀ k n, nsteps net_step k (net_start dps lps v) n → k ≤ 20 * length dps + 2) ∧
  ∀ n, rtc net_step (net_start dps lps v) n →
    (∃ r r', dial_step n = Done r ∧ listen_step n = Done r' ∧
      (r = None → r' = None →
       n_dres n = Some (outcome_of agreed) ∧ n_lres n = Some (outcome_of agreed))).
Proof using Laws Hdps.
  assert (joint (net_start dps lps v)) as Hj by apply (JStart false). split.
  - intros k n Hk. apply joint_bound in Hk; [|done].
    assert (rank (net_start dps lps v) = 20 * length dps + 2); [|lia].
    unfold rank, dial_rank, listen_rank. simpl. lia.
  - intros n Hn. apply joint_steps in Hn; [|done].
    pose proof (joint_dial n Hn) as Hd. pose proof (joint_listen n Hn) as Hl.
    pose proof (joint_stuck n Hn) as Hs.
    destruct (dial_step n) as [r|]; [|done]. destruct (listen_step n) as [r'|]; [|done].
    exists r, r'. split_and!; [done..|]. by intros -> ->; apply Hs.
Qed.
End agreement.

Section agreement_sample.
#[local] Existing Instance leb128_codec.

Definition proto_a : Protocol := [SLASH; Byte.x61].
Definition proto_b : Protocol := [SLASH; Byte.x62].

Lemma protos_negotiable : Forall negotiable [proto_a; proto_b].
Proof.
  assert (∀ b, b ≠ NL → negotiable [SLASH; b]) as Hn; [|by repeat constructor; apply Hn].
  intros b Hb. split; [|by vm_compute]. split_and!; [done| |by destruct b].
  intros [Hx|[Hx|Hx%elem_of_nil]%elem_of_cons]%elem_of_cons; [discriminate Hx|by apply Hb|done].
Qed.

(** Run both ends until neither can move. *)
Fixpoint run_net (k : nat) (n : Net) : Net :=
  match k with
  | 0 => n
  | S k =>
      match dial_step n with
      | Done (Some n') => run_net k n'
      | _ => match listen_step n with Done (Some n') => run_net k n' | _ => n end
      end
  end.

Lemma run_net_steps k : ∀ n, rtc net_step n (run_net k n).
Proof.
  induction k as [|k IH]; intros n; [done|]. cbn [run_net].
  destruct (dial_step n) as [[n'|]|] eqn:Ed; [by eapply rtc_l; [apply NetDial|]|..];
    destruct (listen_step n) as [[n'|]|] eqn:El; try done; by eapply rtc_l; [apply NetListen|].
Qed.

Lemma negotiation_agrees_witness :
  let n := run_net 40 (net_start [proto_a; proto_b] [proto_b] V1Lazy) in
  n_dres n = Some (Ok proto_b) ∧ n_lres n = Some (Ok proto_b).
Proof.
  cbv zeta. set (n := run_net 40 (net_start [proto_a; proto_b] [proto_b] V1Lazy)).
  destruct (@negotiation_agrees leb128_codec leb128_codec_laws [proto_a; proto_b] [proto_b] V1Lazy
    protos_negotiable) as [_ Ha].
  destruct (Ha n (run_net_steps _ _)) as (r & r' & Hr & Hr' & Hf).
  assert (dial_step n = Done None) as Hd by by vm_compute.
  assert (listen_step n = Done None) as Hl by by vm_compute.
  rewrite Hd in Hr. rewrite Hl in Hr'. injection Hr as <-. injection Hr' as <-.
  exact (Hf eq_refl eq_refl).
Defined.
End agreement_sample.
