(* ===== verification/WebRtcNegotiation.v ===== *)
(** * Negotiation over WebRTC data channels

    The datagram variant of multistream-select: [WebRtcDialerState] of
    [src/src/multistream_select/dialer_select.rs], [webrtc_listener_negotiate] of
    [listener_select.rs], and the rounds [src/src/transport/webrtc/connection.rs] runs with them. *)

From stdpp Require Import base tactics option list sets.
From Stdlib Require Import NArith Lia Init.Byte Strings.Byte.
From S2P Require Import Prelude Varint Multistream LengthDelimited Negotiation NegotiationFacts.

Local Open Scope litep2p_scope.

(** [error::NegotiationError] and [Error::InvalidData], as far as these functions return them. *)
Inductive WebRtcError :=
| ErrInvalidData
| ErrParseInvalidData
| ErrMultistream (e : NegotiationError)
| ErrStateMismatch.

Inductive HandshakeResult := NotReady | Succeeded (protocol : Protocol) | Rejected.

Inductive HandshakeState := WaitingResponse | WaitingProtocol.

Record WebRtcDialerState := mkWebRtcDialerState {
  wd_protocol : Protocol;
  wd_fallback_names : list Protocol;
  wd_state : HandshakeState;
}.

Inductive ListenerSelectResult :=
| LsAccepted (protocol : Protocol) (message : list byte)
| LsRejected (message : list byte)
| LsPendingProtocol (message : list byte).

Section webrtc.
Context `{UnsignedVarint}.

(** [webrtc_encode_multistream_message] *)
Definition webrtc_encode_multistream_message (m : Message) (prepend_header : bool) :
    result WebRtcError (list byte) :=
  let msg_len := encoded_len m in
  let header_len := length MSG_MULTISTREAM_1_0 in
  let msg_varint_len := length (uvi_encode (N.of_nat msg_len)) in
  let capacity :=
    if prepend_header then
      length (uvi_encode (N.of_nat header_len)) + header_len + msg_varint_len + msg_len
    else msg_varint_len + msg_len in
  if (MAX_FRAME_SIZE <? N.of_nat capacity)%N then Err ErrInvalidData
  else Ok ((if prepend_header
            then uvi_encode (N.of_nat header_len) ++ Message_encode (MHeader V1Header) else [])
           ++ uvi_encode (N.of_nat msg_len) ++ Message_encode m).

(** The proposal of one protocol. *)
Definition encode_proposal (protocol : Protocol) (prepend_header : bool) :
    result WebRtcError (list byte) :=
  match Protocol_try_from protocol with
  | Err _ => Err ErrInvalidData
  | Ok p => webrtc_encode_multistream_message (MProtocol p) prepend_header
  end.

(** [WebRtcDialerState::propose] *)
Definition propose (protocol : Protocol) (fallback_names : list Protocol) :
    result WebRtcError (WebRtcDialerState * list byte) :=
  match encode_proposal protocol true with
  | Err e => Err e
  | Ok message => Ok (mkWebRtcDialerState protocol (reverse fallback_names) WaitingResponse, message)
  end.

(** [WebRtcDialerState::propose_next_fallback]; the names are popped from the back. *)
Definition propose_next_fallback (st : WebRtcDialerState) :
    WebRtcDialerState * result WebRtcError (option (list byte)) :=
  match last (wd_fallback_names st) with
  | None => (st, Ok None)
  | Some next =>
      let names := take (length (wd_fallback_names st) - 1) (wd_fallback_names st) in
      let st := mkWebRtcDialerState next names (wd_state st) in
      (st, match encode_proposal next false with Err e => Err e | Ok message => Ok (Some message) end)
  end.

(** A length prefix and the frame behind it. *)
Definition split_frame (data : list byte) : result WebRtcError (list byte * list byte) :=
  match uvi_decode_usize data with
  | None => Err ErrParseInvalidData
  | Some (len, tail) =>
      if (N.of_nat (length tail) <? len)%N then Err ErrParseInvalidData
      else Ok (take (N.to_nat len) tail, drop (N.to_nat len) tail)
  end.

(** The loop of [WebRtcDialerState::register_response]; a frame takes at least one byte. *)
Fixpoint register_loop (fuel : nat) (st : WebRtcDialerState) (remaining : list byte) :
    option (WebRtcDialerState * result WebRtcError HandshakeResult) :=
  match fuel with
  | 0 => None
  | S fuel =>
      match remaining with
      | [] => Some (st, match wd_state st with
                        | WaitingProtocol => Ok NotReady
                        | WaitingResponse => Err ErrStateMismatch
                        end)
      | _ =>
          match split_frame remaining with
          | Err e => Some (st, Err e)
          | Ok (payload, remaining) =>
              match wd_state st, Message_decode payload with
              | WaitingResponse, Ok (MHeader V1Header) =>
                  register_loop fuel
                    (mkWebRtcDialerState (wd_protocol st) (wd_fallback_names st) WaitingProtocol)
                    remaining
              | WaitingResponse, Ok _ => Some (st, Err (ErrMultistream NegFailed))
              | WaitingProtocol, Ok MNotAvailable => Some (st, Ok Rejected)
              | WaitingProtocol, Ok (MProtocol p) =>
                  Some (st, if decide (p = PROTO_MULTISTREAM_1_0) then Err ErrStateMismatch
                            else if decide (wd_protocol st = p) then Ok (Succeeded (wd_protocol st))
                            else Err (ErrMultistream NegFailed))
              | WaitingProtocol, Ok MListProtocols =>
                  Some (st, Err (ErrMultistream (NegProtocolError InvalidMessage)))
              | _, _ => Some (st, Err ErrStateMismatch)
              end
          end
      end
  end.

(** [WebRtcDialerState::register_response] *)
Definition wd_register_response (st : WebRtcDialerState) (payload : list byte) :
    option (WebRtcDialerState * result WebRtcError HandshakeResult) :=
  register_loop (S (length payload)) st payload.

(** [decode_multistream_message] *)
Definition decode_multistream_message (data : list byte) :
    result WebRtcError (Message * list byte) :=
  match split_frame data with
  | Err e => Err e
  | Ok (payload, rest) =>
      match Message_decode payload with
      | Ok m => Ok (m, rest)
      | Err _ => Err ErrParseInvalidData
      end
  end.

(** The end of [webrtc_listener_negotiate], on the protocol that was proposed. *)
Definition answer_proposal (supported : list Protocol) (protocol : Protocol) (payload : list byte)
    (header_in_this_payload : bool) : result WebRtcError ListenerSelectResult :=
  match payload with
  | _ :: _ => Err ErrParseInvalidData
  | [] =>
      match list_find (λ s, protocol = s) supported with
      | Some (_, s) =>
          try message <- webrtc_encode_multistream_message (MProtocol protocol) header_in_this_payload ;;
          Ok (LsAccepted s message)
      | None =>
          try message <- webrtc_encode_multistream_message MNotAvailable header_in_this_payload ;;
          Ok (LsRejected message)
      end
  end.

(** [webrtc_listener_negotiate] *)
Definition webrtc_listener_negotiate (supported : list Protocol) (raw_payload : list byte)
    (header_received : bool) : result WebRtcError ListenerSelectResult :=
  try (first_msg, payload) <- decode_multistream_message raw_payload ;;
  match first_msg with
  | MHeader V1Header =>
      if header_received then Err (ErrMultistream NegFailed)
      else
        match payload with
        | [] => Ok (LsPendingProtocol raw_payload)
        | _ =>
            try (msg, payload) <- decode_multistream_message payload ;;
            match msg with
            | MProtocol p => answer_proposal supported p payload true
            | _ => Err ErrParseInvalidData
            end
        end
  | MProtocol p =>
      if header_received then answer_proposal supported p payload false
      else Err (ErrMultistream NegFailed)
  | _ => Err (ErrMultistream NegFailed)
  end.

(** ** The rounds of [connection.rs] *)

(** How a handshake ends: both sides agreed, the dialer ran out of names, or something failed. *)
Inductive HandshakeOutcome :=
| HsAgreed (dialer listener : Protocol)
| HsNoProtocol
| HsError.

(** [message] is on its way to the listener, which has received the header if [header_received];
    its answer goes to the dialer, which proposes its next fallback when it is rejected. *)
Fixpoint handshake_rounds (fuel : nat) (supported : list Protocol) (st : WebRtcDialerState)
    (message : list byte) (header_received : bool) : HandshakeOutcome :=
  match fuel with
  | 0 => HsError
  | S fuel =>
      match webrtc_listener_negotiate supported message header_received with
      | Ok (LsAccepted q reply) =>
          match wd_register_response st reply with
          | Some (_, Ok (Succeeded p)) => HsAgreed p q
          | _ => HsError
          end
      | Ok (LsRejected reply) =>
          match wd_register_response st reply with
          | Some (st, Ok Rejected) =>
              match propose_next_fallback st with
              | (st, Ok (Some message)) => handshake_rounds fuel supported st message true
              | (_, Ok None) => HsNoProtocol
              | (_, Err _) => HsError
              end
          | _ => HsError
          end
      | _ => HsError
      end
  end.

(** A handshake from the first proposal. *)
Definition handshake (protocol : Protocol) (fallback_names supported : list Protocol) :
    HandshakeOutcome :=
  match propose protocol fallback_names with
  | Err _ => HsError
  | Ok (st, message) => handshake_rounds (S (length fallback_names)) supported st message false
  end.
End webrtc.

(** ** Agreement *)

Section webrtc_facts.
Context {L : UnsignedVarint} {Laws : UnsignedVarintLaws L}.

(** A name that can be proposed: the frames of a header and of the name fit together. *)
Definition proposable (p : Protocol) : Prop :=
  message_wf (MProtocol p) ∧ (N.of_nat (length p + 23) ≤ MAX_FRAME_SIZE)%N.

Definition fits (m : Message) : Prop :=
  message_wf m ∧ (N.of_nat (length (Message_encode m) + 22) ≤ MAX_FRAME_SIZE)%N.

Definition header_frame (b : bool) : list byte :=
  if b then frame (Message_encode (MHeader V1Header)) else [].

Lemma fits_small m : fits m → small (Message_encode m).
Proof. intros [_ Hm]. unfold small. lia. Qed.

Lemma fits_na : fits MNotAvailable.
Proof. split; [done|]. by vm_compute. Qed.
Lemma fits_header : fits (MHeader V1Header).
Proof. split; [done|]. by vm_compute. Qed.
Lemma fits_proposal p : proposable p → fits (MProtocol p).
Proof. intros [Hp Hl]. split; [done|]. simpl. rewrite length_app. simpl. lia. Qed.

Lemma leb128_short n : (n ≤ MAX_FRAME_SIZE)%N → length (leb128 n) ≤ 2.
Proof.
  intros Hn%small_bound. destruct (leb128_first n [] Hn) as [(b & _ & -> & _)|(b0 & b1 & _ & -> & _)];
    simpl; lia.
Qed.

Lemma small_64 n : (n ≤ MAX_FRAME_SIZE)%N → (n < 2 ^ 64)%N.
Proof. change MAX_FRAME_SIZE with 16383%N. lia. Qed.

Lemma webrtc_encode_ok m b : fits m →
  webrtc_encode_multistream_message m b = Ok (header_frame b ++ frame (Message_encode m)).
Proof using Laws.
  intros Hm. pose proof (fits_small m Hm) as Hs. destruct Hm as [_ Hl].
  unfold webrtc_encode_multistream_message. rewrite encoded_len_correct.
  change (length MSG_MULTISTREAM_1_0) with 19. change (N.of_nat 19) with 19%N.
  rewrite !uvi_encode_leb128 by (done || by apply small_64).
  pose proof (leb128_short _ Hs). change (leb128 19) with [byte_of 19]. cbn [length].
  rewrite (proj2 (N.ltb_ge _ _)) by (destruct b; lia). by destruct b.
Qed.

Lemma split_frame_frame f rest : small f → split_frame (frame f ++ rest) = Ok (f, rest).
Proof using Laws.
  intros Hf. unfold split_frame, frame. rewrite <- app_assoc, uvi_decode_usize_leb128 by by apply small_64.
  rewrite (proj2 (N.ltb_ge _ _)) by (rewrite length_app; lia).
  by rewrite Nat2N.id, take_app_length, drop_app_length.
Qed.

Lemma decode_multistream_frame m rest : fits m →
  decode_multistream_message (frame (Message_encode m) ++ rest) = Ok (m, rest).
Proof using Laws.
  intros Hm. unfold decode_multistream_message. rewrite split_frame_frame by by apply fits_small.
  by rewrite decode_encode by apply Hm.
Qed.

Lemma frame_cons f : ∃ b bs, frame f = b :: bs.
Proof.
  unfold frame. pose proof (leb128_not_nil (N.of_nat (length f))).
  destruct (leb128 _) as [|b bs]; [done|]. by exists b, (bs ++ f).
Qed.

Lemma match_frame {A} f (x y : A) : match frame f with [] => x | _ :: _ => y end = y.
Proof. by destruct (frame_cons f) as (b & bs & ->). Qed.

Lemma encode_proposal_ok p b : proposable p →
  encode_proposal p b = Ok (header_frame b ++ frame (Message_encode (MProtocol p))).
Proof using Laws.
  intros Hp. unfold encode_proposal. rewrite Protocol_try_from_ok by apply Hp.
  by apply webrtc_encode_ok, fits_proposal.
Qed.

(** The listener's answer to a proposal, with the header the first time. *)
Lemma listener_answers supported p hr : proposable p →
  webrtc_listener_negotiate supported
    (header_frame (negb hr) ++ frame (Message_encode (MProtocol p))) hr =
  Ok (if decide (p ∈ supported)
      then LsAccepted p (header_frame (negb hr) ++ frame (Message_encode (MProtocol p)))
      else LsRejected (header_frame (negb hr) ++ frame (Message_encode MNotAvailable))).
Proof using Laws.
  intros Hp. pose proof (fits_proposal p Hp) as Hf.
  assert (∀ b, answer_proposal supported p [] b = Ok (if decide (p ∈ supported)
      then LsAccepted p (header_frame b ++ frame (Message_encode (MProtocol p)))
      else LsRejected (header_frame b ++ frame (Message_encode MNotAvailable)))) as Hans.
  { intros b. unfold answer_proposal. destruct (list_find _ _) as [[i s]|] eqn:E.
    - apply list_find_Some in E as (Hi & <- & _). rewrite webrtc_encode_ok by done. simpl.
      rewrite decide_True; [done|]. by eapply list_elem_of_lookup_2.
    - apply list_find_None in E. rewrite Forall_forall in E. rewrite webrtc_encode_ok by apply fits_na.
      simpl. rewrite decide_False; [done|]. intros Hin. by apply (E p Hin). }
  unfold webrtc_listener_negotiate. destruct hr; cbn [negb header_frame].
  - rewrite app_nil_l. rewrite <- (app_nil_r (frame (Message_encode (MProtocol p)))) at 1.
    rewrite decode_multistream_frame by done. cbn [result_bind]. apply Hans.
  - rewrite decode_multistream_frame by apply fits_header. cbn [result_bind].
    rewrite match_frame. rewrite <- (app_nil_r (frame (Message_encode (MProtocol p)))) at 1.
    rewrite decode_multistream_frame by done. cbn [result_bind]. apply Hans.
Qed.

(** The dialer reads one message. *)
Lemma register_loop_frame fuel st m rest : fits m →
  register_loop (S fuel) st (frame (Message_encode m) ++ rest) =
  match wd_state st, m with
  | WaitingResponse, MHeader V1Header =>
      register_loop fuel
        (mkWebRtcDialerState (wd_protocol st) (wd_fallback_names st) WaitingProtocol) rest
  | WaitingResponse, _ => Some (st, Err (ErrMultistream NegFailed))
  | WaitingProtocol, MNotAvailable => Some (st, Ok Rejected)
  | WaitingProtocol, MProtocol p =>
      Some (st, if decide (p = PROTO_MULTISTREAM_1_0) then Err ErrStateMismatch
                else if decide (wd_protocol st = p) then Ok (Succeeded (wd_protocol st))
                else Err (ErrMultistream NegFailed))
  | WaitingProtocol, MListProtocols =>
      Some (st, Err (ErrMultistream (NegProtocolError InvalidMessage)))
  | _, _ => Some (st, Err ErrStateMismatch)
  end.
Proof using Laws.
  intros Hm. destruct (frame_cons (Message_encode m)) as (b & bs & Hb).
  cbn [register_loop]. rewrite Hb at 1. cbn [app].
  rewrite split_frame_frame by by apply fits_small. rewrite decode_encode by apply Hm.
  destruct (wd_state st), m as [[]|p| |ps|]; done.
Qed.

(** Every response is processed to its end. *)
Lemma register_loop_total fuel : ∀ st remaining, length remaining < fuel →
  register_loop fuel st remaining ≠ None.
Proof using Laws.
  induction fuel as [|fuel IH]; intros st remaining Hf; [lia|]. cbn [register_loop].
  destruct remaining as [|b bs]; [done|]. unfold split_frame.
  destruct (uvi_decode_usize (b :: bs)) as [[len tail]|] eqn:E; [|done].
  apply uvi_decode_usize_sound in E as [_ E]. apply (f_equal length) in E. rewrite length_app in E.
  pose proof (leb128_not_nil len) as Hn. destruct (leb128 len); [done|].
  repeat case_match; try done; simplify_eq; apply IH; rewrite length_drop; simpl in *; lia.
Qed.

Lemma wd_register_response_total st payload : wd_register_response st payload ≠ None.
Proof using Laws. apply register_loop_total. lia. Qed.

(** The dialer waits for the header exactly when the listener is about to send it. *)
Definition expects_header (st : WebRtcDialerState) (hr : bool) : Prop :=
  wd_state st = if hr then WaitingProtocol else WaitingResponse.

Lemma dialer_reads st hr m : expects_header st hr → fits m → m = MNotAvailable ∨ m = MProtocol (wd_protocol st) →
  wd_register_response st (header_frame (negb hr) ++ frame (Message_encode m)) =
  Some (mkWebRtcDialerState (wd_protocol st) (wd_fallback_names st) WaitingProtocol,
        Ok (match m with MNotAvailable => Rejected | _ => Succeeded (wd_protocol st) end)).
Proof using Laws.
  intros Hst Hm Hcase. destruct st as [p fs ws]. unfold expects_header in Hst. simpl in *. subst ws.
  unfold wd_register_response.
  assert (∀ fuel, register_loop (S fuel) (mkWebRtcDialerState p fs WaitingProtocol) (frame (Message_encode m)) =
    Some (mkWebRtcDialerState p fs WaitingProtocol,
      Ok (match m with MNotAvailable => Rejected | _ => Succeeded p end))) as Hread.
  { intros fuel. rewrite <- (app_nil_r (frame (Message_encode m))), register_loop_frame by done.
    destruct Hcase as [->| ->]; [done|]. simpl. destruct Hm as [(_ & _ & Hn) _].
    by rewrite decide_False, decide_True. }
  destruct hr; cbn [negb header_frame app]; [apply Hread|].
  rewrite register_loop_frame by apply fits_header. cbn [wd_state wd_protocol wd_fallback_names].
  destruct (frame_cons (Message_encode (MHeader V1Header))) as (b & bs & ->).
  destruct (frame_cons (Message_encode m)) as (b' & bs' & Hb). rewrite length_app. rewrite Hb at 1.
  cbn [length]. rewrite Nat.add_succ_r. apply Hread.
Qed.

Definition outcome_hs (o : option Protocol) : HandshakeOutcome :=
  match o with Some p => HsAgreed p p | None => HsNoProtocol end.

Lemma handshake_rounds_agree supported fs : ∀ fuel p ws hr, Forall proposable (p :: fs) →
  length fs < fuel → expects_header (mkWebRtcDialerState p (reverse fs) ws) hr →
  handshake_rounds fuel supported (mkWebRtcDialerState p (reverse fs) ws)
    (header_frame (negb hr) ++ frame (Message_encode (MProtocol p))) hr =
  outcome_hs (snd <$> list_find (λ p, p ∈ supported) (p :: fs)).
Proof using Laws.
  induction fs as [|q fs IH]; intros [|fuel] p ws hr Hps Hfuel Hst; try (simpl in Hfuel; lia);
    apply Forall_cons in Hps as [Hp Hps]; cbn [handshake_rounds]; rewrite listener_answers by done;
    cbn [list_find]; destruct (decide (p ∈ supported)) as [Hin|Hin]; simpl fmap.
  1, 3: rewrite dialer_reads; [done|done|by apply fits_proposal|by right].
  - by rewrite dialer_reads; [|done|by apply fits_na|by left].
  - rewrite dialer_reads; [|done|by apply fits_na|by left]. unfold propose_next_fallback.
    cbn [wd_fallback_names wd_protocol wd_state]. rewrite reverse_cons, last_snoc, length_app, Nat.add_sub, take_app_length.
    pose proof Hps as Hps'. apply Forall_cons in Hps' as [Hq _]. rewrite encode_proposal_ok by done.
    specialize (IH fuel q WaitingProtocol true Hps ltac:(simpl in Hfuel; lia) eq_refl). simpl negb in IH.
    rewrite IH. cbn [list_find]. destruct (decide (q ∈ supported)); [done|].
    by destruct (list_find _ fs) as [[]|].
Qed.

(** C32. A WebRTC handshake ends in agreement: proposing a protocol and its fallbacks in order to a
    listener, the two sides settle on the same protocol, the first one the listener supports,
    or the dialer finds that there is none; no round fails. A listener that receives the
    header alone echoes it and answers the proposal that follows as usual. *)
Theorem webrtc_handshake_agrees protocol fallback_names supported :
  Forall proposable (protocol :: fallback_names) →
  handshake protocol fallback_names supported =
    outcome_hs (snd <$> list_find (λ p, p ∈ supported) (protocol :: fallback_names)) ∧
  webrtc_listener_negotiate supported (header_frame true) false =
    Ok (LsPendingProtocol (header_frame true)) ∧
  webrtc_listener_negotiate supported (frame (Message_encode (MProtocol protocol))) true =
    Ok (if decide (protocol ∈ supported)
        then LsAccepted protocol (frame (Message_encode (MProtocol protocol)))
        else LsRejected (frame (Message_encode MNotAvailable))).
Proof using Laws.
  intros Hps. pose proof Hps as Hps'. apply Forall_cons in Hps' as [Hp _]. split_and!.
  - unfold handshake, propose. rewrite encode_proposal_ok by done.
    apply (handshake_rounds_agree supported fallback_names _ protocol WaitingResponse false Hps); [lia|done].
  - unfold webrtc_listener_negotiate, header_frame. rewrite <- (app_nil_r (frame _)) at 1.
    by rewrite decode_multistream_frame by apply fits_header.
  - apply (listener_answers supported protocol true Hp).
Qed.
End webrtc_facts.

Section webrtc_sample.
#[local] Existing Instance leb128_codec.

Lemma webrtc_handshake_agrees_witness :
  handshake proto_a [proto_b] [proto_b] = HsAgreed proto_b proto_b.
Proof.
  destruct (@webrtc_handshake_agrees leb128_codec leb128_codec_laws proto_a [proto_b] [proto_b])
    as [Hh _]; [|exact Hh].
  pose proof protos_negotiable as Hn. rewrite !Forall_cons in Hn. destruct Hn as ([Ha _] & [Hb _] & _).
  apply Forall_cons. split; [split; [exact Ha|by vm_compute]|].
  apply Forall_cons. split; [split; [exact Hb|by vm_compute]|]. by apply Forall_nil.
Defined.
End webrtc_sample.
