(* ===== verification/ProtocolTypes.v ===== *)
(** * What protocols see of the transports

    The events and results of [TransportService] ([src/src/protocol/mod.rs], [src/src/error.rs],
    [src/src/types.rs]) that all protocols handle, and the contract between the service and a
    protocol: the order in which events may arrive and the answers a call may get. The
    transport service is proved to keep it; the protocols are proved against it. *)

From stdpp Require Import base tactics option list gmap strings.
From Stdlib Require Import NArith Lia Init.Byte.
From S2P Require Import Prelude Multiaddr TransportManagerHandle.

(** [SubstreamId], an index drawn from a counter that all protocols share. *)
Notation SubstreamId := N (only parsing).

(** A substream, as the protocols hold it. *)
Notation Substream := N (only parsing).

Notation ProtocolName := string (only parsing).

(** [protocol::Direction] *)
Inductive Direction := Inbound | Outbound (id : SubstreamId).

#[export] Instance Direction_eq_dec : EqDecision Direction.
Proof. solve_decision. Defined.

(** [std::io::ErrorKind], the kinds that are told apart. *)
Inductive IoKind :=
  IoNotConnected | IoPermissionDenied | IoUnexpectedEof | IoConnectionReset | IoBrokenPipe | IoInvalidData
| IoWriteZero | IoOther.

#[export] Instance IoKind_eq_dec : EqDecision IoKind.
Proof. solve_decision. Defined.

(** [yamux::ConnectionError] *)
Inductive YamuxError := YamuxIo (kind : IoKind) | YamuxOther.

#[export] Instance YamuxError_eq_dec : EqDecision YamuxError.
Proof. solve_decision. Defined.

(** [error::NegotiationError], the errors that are told apart: a multistream-select negotiation
    that failed, that ended with an unsupported protocol or an I/O error, and an I/O error. *)
Inductive SubstreamNegotiation :=
| NegSelectFailed
| NegSelectUnsupported
| NegSelectIo (kind : IoKind)
| NegIo (kind : IoKind)
| NegOther.

#[export] Instance SubstreamNegotiation_eq_dec : EqDecision SubstreamNegotiation.
Proof. solve_decision. Defined.

(** [error::SubstreamError] *)
Inductive SubstreamError :=
| SeConnectionClosed
| SeChannelClogged
| SePeerDoesNotExist (peer : PeerId)
| SeIo (kind : IoKind)
| SeYamux (error : YamuxError) (direction : Direction)
| SeReadFailure (id : option SubstreamId)
| SeWriteFailure (id : option SubstreamId)
| SeNegotiation (error : SubstreamNegotiation).

#[export] Instance SubstreamError_eq_dec : EqDecision SubstreamError.
Proof. solve_decision. Defined.

(** [protocol::TransportEvent] *)
Inductive ServiceEvent :=
| SvConnectionEstablished (peer : PeerId) (endpoint : Endpoint)
| SvConnectionClosed (peer : PeerId)
| SvDialFailure (peer : PeerId) (addresses : list Multiaddr)
| SvSubstreamOpened (peer : PeerId) (protocol : ProtocolName) (fallback : option ProtocolName)
    (direction : Direction) (substream : Substream)
| SvSubstreamOpenFailure (substream : SubstreamId) (error : SubstreamError).

(** ** The contract of the service

    [connected] are the peers a protocol has been told about, [opening] the outbound substreams
    without a result and [used] the identifiers that were ever given out. *)
Record Contract := mkContract {
  connected : gset PeerId;
  opening : gmap SubstreamId PeerId;
  used : gset SubstreamId;
}.

Definition Contract_init : Contract := mkContract ∅ ∅ ∅.

(** What may be delivered next. Every outbound substream gets one result, and it gets it before
    the connection is reported closed. *)
Inductive delivers : Contract → ServiceEvent → Contract → Prop :=
| D_established c p e :
    p ∉ connected c →
    delivers c (SvConnectionEstablished p e) (mkContract ({[p]} ∪ connected c) (opening c) (used c))
| D_closed c p :
    p ∈ connected c → (∀ id, opening c !! id ≠ Some p) →
    delivers c (SvConnectionClosed p) (mkContract (connected c ∖ {[p]}) (opening c) (used c))
| D_dial_failure c p l : delivers c (SvDialFailure p l) c
| D_inbound c p proto fb s :
    p ∈ connected c → delivers c (SvSubstreamOpened p proto fb Inbound s) c
| D_outbound c p proto fb id s :
    opening c !! id = Some p →
    delivers c (SvSubstreamOpened p proto fb (Outbound id) s)
      (mkContract (connected c) (delete id (opening c)) (used c))
| D_open_failure c id e p :
    opening c !! id = Some p →
    delivers c (SvSubstreamOpenFailure id e)
      (mkContract (connected c) (delete id (opening c)) (used c)).

(** What a call of [open_substream] may answer. *)
Inductive opens (p : PeerId) : Contract → result SubstreamError SubstreamId → Contract → Prop :=
| O_ok c id : p ∈ connected c → id ∉ used c →
    opens p c (Ok id)
      (mkContract (connected c) (<[id := p]> (opening c)) ({[id]} ∪ used c))
| O_err c e : opens p c (Err e) c.

(** ** Calls of the service

    The answers of the service to the calls a handler makes in one turn. *)
Record ServiceAnswers := mkServiceAnswers {
  sv_dial : PeerId → result ImmediateDialError unit;
  sv_open : PeerId → result SubstreamError SubstreamId;
}.

(** The effects of a protocol, as far as the service is concerned: the peer a substream is
    opened to. *)
Class Asks (E : Type) : Type := asks : E → option PeerId.

(** The calls of [open_substream] among the effects of a handler, answered by the service. *)
Inductive calls `{Asks E} (sv : ServiceAnswers) : Contract → list E → Contract → Prop :=
| C_nil c : calls sv c [] c
| C_open c e p c1 l c2 : asks e = Some p → opens p c (sv_open sv p) c1 → calls sv c1 l c2 →
    calls sv c (e :: l) c2
| C_other c e l c2 : asks e = None → calls sv c l c2 → calls sv c (e :: l) c2.

Lemma calls_app `{Asks E} sv c (l l' : list E) c' : calls sv c (l ++ l') c' →
  ∃ c1, calls sv c l c1 ∧ calls sv c1 l' c'.
Proof.
  revert c. induction l as [|e l IH]; intros c Hc; cbn in Hc; [by exists c; split; [constructor|]|].
  inversion Hc; subst.
  - destruct (IH _ ltac:(eassumption)) as (c1' & ? & ?). exists c1'. split; [|done]. by eapply C_open.
  - destruct (IH _ ltac:(eassumption)) as (c1' & ? & ?). exists c1'. split; [|done]. by apply C_other.
Qed.

(** Follow the calls of a handler. *)
Ltac inv_calls :=
  repeat match goal with
  | H : calls _ _ [] _ |- _ => inversion H; clear H; subst
  | H : calls _ _ (_ :: _) _ |- _ => inversion H; clear H; subst
  | H : asks _ = Some _ |- _ => first [discriminate H|injection H as <-]
  | H : asks _ = None |- _ => first [discriminate H|clear H]
  | H : opens _ _ (sv_open _ _) _, E : sv_open _ _ = _ |- _ => rewrite E in H
  | H : opens _ _ (Ok _) _ |- _ => inversion H; clear H; subst
  | H : opens _ _ (Err _) _ |- _ => inversion H; clear H; subst
  end.

(** Substreams are opening on connected peers only, under identifiers that were given out. *)
Definition contract_wf (c : Contract) : Prop :=
  ∀ id p, opening c !! id = Some p → p ∈ connected c ∧ id ∈ used c.

Lemma contract_wf_init : contract_wf Contract_init.
Proof. intros id p Hp. cbn in Hp. by rewrite lookup_empty in Hp. Qed.

Lemma contract_wf_delete c id : contract_wf c →
  contract_wf (mkContract (connected c) (delete id (opening c)) (used c)).
Proof. intros Hwf id' p. cbn. intros [_ Hp]%lookup_delete_Some. by apply Hwf. Qed.

Lemma delivers_wf c e c' : contract_wf c → delivers c e c' → contract_wf c'.
Proof.
  intros Hwf Hd. destruct Hd; try done; try by apply contract_wf_delete.
  - intros id q Hq. destruct (Hwf id q Hq). set_solver.
  - intros id q Hq. destruct (Hwf id q Hq). cbn in *.
    assert (q ≠ p) by naive_solver. set_solver.
Qed.

Lemma opens_wf p c r c' : contract_wf c → opens p c r c' → contract_wf c'.
Proof.
  intros Hwf Ho. destruct Ho; [|done]. intros i q. cbn. intros [[-> ->]|[Hne Hq]]%lookup_insert_Some; [set_solver|].
  destruct (Hwf i q Hq). set_solver.
Qed.

#[export] Hint Resolve contract_wf_init delivers_wf opens_wf : litep2p.
