(* ===== verification/ProtocolSet.v ===== *)
(** * Connection handles and protocol sets

    What a connection and the protocols know of each other: [ConnectionHandle]
    ([src/src/protocol/connection.rs]), the handle a protocol holds, and [ProtocolSet]
    ([src/src/protocol/protocol_set.rs]), the protocols a connection reports to. The channel
    between them is known by the connection it belongs to. *)

From stdpp Require Import base tactics option list gmap strings.
From Stdlib Require Import NArith Lia Init.Byte.
From S2P Require Import Prelude Multiaddr AddressStore PeerState ConnectionLimits TransportManager.
From S2P Require Import TransportManagerHandle ProtocolTypes.

Local Open Scope litep2p_scope.

(** ** Connection handles *)

Inductive SubstreamKeepAlive := KaYes | KaNo.

#[export] Instance SubstreamKeepAlive_eq_dec : EqDecision SubstreamKeepAlive.
Proof. solve_decision. Defined.

(** [connection::ConnectionHandle]: [h_active] tells the strong sender ([ConnectionType::Active])
    from the weak one ([ConnectionType::Inactive]). *)
Record ConnectionHandle := mkConnectionHandle {
  h_connection_id : ConnectionId;
  h_active : bool;
}.

(** [Permit], a strong sender of the connection's channel. *)
Notation Permit := ConnectionId (only parsing).

(** [ProtocolCommand] *)
Inductive ProtocolCommand :=
| PcOpenSubstream (protocol : ProtocolName) (fallback_names : list ProtocolName)
    (substream_id : SubstreamId) (connection_id : ConnectionId) (permit : Permit)
    (keep_alive : SubstreamKeepAlive)
| PcForceClose.

(** [ConnectionHandle::new] *)
Definition ConnectionHandle_new (connection_id : ConnectionId) : ConnectionHandle :=
  mkConnectionHandle connection_id true.

(** [ConnectionHandle::downgrade]: the handle that is left and the active one that is returned. *)
Definition handle_downgrade (h : ConnectionHandle) : outcome (ConnectionHandle * ConnectionHandle) :=
  if h_active h
  then Done (mkConnectionHandle (h_connection_id h) false, ConnectionHandle_new (h_connection_id h))
  else Panic.

(** [ConnectionHandle::close] *)
Definition handle_close (h : ConnectionHandle) : ConnectionHandle :=
  mkConnectionHandle (h_connection_id h) false.

(** What the handle finds of its channel: [weak], whether a strong sender exists elsewhere, so
    that [WeakSender::upgrade] succeeds; [send], the answer of [Sender::try_send]. *)
Record ChannelState := mkChannelState {
  weak : ConnectionId → bool;
  send : ConnectionId → result TrySendError unit;
}.

(** The strong sender of a handle, and the one [upgrade] gives. *)
Definition sender (ch : ChannelState) (h : ConnectionHandle) : bool :=
  h_active h || weak ch (h_connection_id h).

(** While a permit is held, its channel has a strong sender. *)
Definition holding (permit : Permit) (ch : ChannelState) : ChannelState :=
  mkChannelState (λ c, weak ch c || (c =? permit)%N) (send ch).

(** [ConnectionHandle::try_upgrade] *)
Definition handle_try_upgrade (ch : ChannelState) (h : ConnectionHandle) : ConnectionHandle :=
  mkConnectionHandle (h_connection_id h) (sender ch h).

(** [ConnectionHandle::try_get_permit] *)
Definition try_get_permit (ch : ChannelState) (h : ConnectionHandle) : option Permit :=
  if sender ch h then Some (h_connection_id h) else None.

(** [ConnectionHandle::open_substream]: the command that is sent, if it is. *)
Definition handle_open_substream (ch : ChannelState) (h : ConnectionHandle) (protocol : ProtocolName)
    (fallback_names : list ProtocolName) (substream_id : SubstreamId) (permit : Permit)
    (keep_alive : SubstreamKeepAlive) : result SubstreamError ProtocolCommand :=
  if sender ch h then
    match send ch (h_connection_id h) with
    | Ok _ => Ok (PcOpenSubstream protocol fallback_names substream_id (h_connection_id h) permit keep_alive)
    | Err Full => Err SeChannelClogged
    | Err Closed => Err SeConnectionClosed
    end
  else Err SeConnectionClosed.

(** [crate::Error], as far as [force_close] returns it. *)
Inductive ForceCloseError := FcConnectionClosed | FcChannelClogged | FcPeerDoesntExist (peer : PeerId).

(** [ConnectionHandle::force_close] *)
Definition handle_force_close (ch : ChannelState) (h : ConnectionHandle) :
    result ForceCloseError ProtocolCommand :=
  if sender ch h then
    match send ch (h_connection_id h) with
    | Ok _ => Ok PcForceClose
    | Err Full => Err FcChannelClogged
    | Err Closed => Err FcConnectionClosed
    end
  else Err FcConnectionClosed.

(** [protocol_set::InnerTransportEvent] *)
Inductive InnerTransportEvent :=
| ItConnectionEstablished (peer : PeerId) (connection : ConnectionId) (endpoint : Endpoint)
    (sender : ConnectionHandle)
| ItConnectionClosed (peer : PeerId) (connection : ConnectionId)
| ItDialFailure (peer : PeerId) (addresses : list Multiaddr)
| ItSubstreamOpened (peer : PeerId) (protocol : ProtocolName) (fallback : option ProtocolName)
    (direction : Direction) (connection_id : ConnectionId) (substream : Substream)
    (opening_permit : Permit)
| ItSubstreamOpenFailure (substream : SubstreamId) (error : SubstreamError).

(** [From<InnerTransportEvent> for TransportEvent] *)
Definition to_transport_event (event : InnerTransportEvent) : outcome ServiceEvent :=
  match event with
  | ItDialFailure peer addresses => Done (SvDialFailure peer addresses)
  | ItSubstreamOpened peer protocol fallback direction _ substream _ =>
      Done (SvSubstreamOpened peer protocol fallback direction substream)
  | ItSubstreamOpenFailure substream error => Done (SvSubstreamOpenFailure substream error)
  | _ => Panic
  end.

(** ** Protocol sets *)

Inductive ProtocolCodec :=
| Identity (size : N)
| UnsignedVarint (max : option N)
| Unspecified.

#[export] Instance ProtocolCodec_eq_dec : EqDecision ProtocolCodec.
Proof. solve_decision. Defined.

(** [ProtocolContext], all of it; the sender is known by the name of the protocol. *)
Record SetContext := mkSetContext {
  sc_context : ProtocolContext;
  sc_codec : ProtocolCodec;
  sc_keep_alive : SubstreamKeepAlive;
}.

Record ProtocolSet := mkProtocolSet {
  ps_protocols : gmap ProtocolName SetContext;
  ps_connection : ConnectionHandle;
  ps_fallback_names : gmap ProtocolName ProtocolName;
  ps_keep_alives : gmap ProtocolName SubstreamKeepAlive;
}.

(** What a connection reports, and to whom. *)
Inductive PsReport :=
| ToProtocol (protocol : ProtocolName) (event : InnerTransportEvent)
| ToManagerClosed (peer : PeerId) (connection : ConnectionId).

(** [Iterator::collect] into a [HashMap]: later entries replace earlier ones. *)
Definition collect_map {A} (l : list (ProtocolName * A)) : gmap ProtocolName A :=
  list_to_map (reverse l).

Section protocol_set.
Context `{HashOrder}.

(** The keep-alive settings of the fallback names whose protocol accepts inbound substreams. *)
Fixpoint fallback_keep_alives (protocols : gmap ProtocolName SetContext)
    (l : list (ProtocolName * ProtocolName)) : outcome (list (ProtocolName * SubstreamKeepAlive)) :=
  match l with
  | [] => Done []
  | (fallback, main) :: l =>
      match protocols !! main with
      | None => Panic
      | Some context =>
          run rest <- fallback_keep_alives protocols l ;;
          Done (if decide (inbound (sc_context context) = AcceptInbound)
                then (fallback, sc_keep_alive context) :: rest else rest)
      end
  end.

(** [ProtocolSet::new]; [closed]: the protocols whose receiver is gone. *)
Definition ProtocolSet_new (connection_id : ConnectionId) (closed : ProtocolName → bool)
    (protocols : gmap ProtocolName SetContext) : outcome ProtocolSet :=
  let protocols := filter (λ kv, closed kv.1 = false) protocols in
  let fallback_names := collect_map
    (map_order protocols ≫= λ '(protocol, context),
       (λ fallback, (fallback, protocol)) <$> fallback_names (sc_context context)) in
  let main_keep_alives := (λ kv, (kv.1, sc_keep_alive kv.2)) <$>
    filter (λ kv, inbound (sc_context kv.2) = AcceptInbound) (map_order protocols) in
  run fallback_keep_alives <- fallback_keep_alives protocols (map_order fallback_names) ;;
  Done (mkProtocolSet protocols (ConnectionHandle_new connection_id) fallback_names
          (collect_map (main_keep_alives ++ fallback_keep_alives))).

(** [ProtocolSet::on_protocol_closed] *)
Definition on_protocol_closed (ps : ProtocolSet) (protocol : ProtocolName) : ProtocolSet :=
  mkProtocolSet (ps_protocols ps) (ps_connection ps) (ps_fallback_names ps)
    (filter (λ kv, kv.1 ≠ protocol ∧ ps_fallback_names ps !! kv.1 ≠ Some protocol) (ps_keep_alives ps)).

(** A send to one protocol: an event that is not received makes the protocol closed. *)
Definition send_to (closed : ProtocolName → bool) (ps : ProtocolSet) (protocol : ProtocolName)
    (event : InnerTransportEvent) : ProtocolSet * list PsReport :=
  if closed protocol then (on_protocol_closed ps protocol, []) else (ps, [ToProtocol protocol event]).

(** [ProtocolSet::report_substream_open] *)
Definition report_substream_open (closed : ProtocolName → bool) (ps : ProtocolSet) (peer : PeerId)
    (protocol : ProtocolName) (direction : Direction) (substream : Substream) (opening_permit : Permit) :
    ProtocolSet * list PsReport * result SubstreamError unit :=
  let '(protocol, fallback) := match ps_fallback_names ps !! protocol with
                               | Some main_protocol => (main_protocol, Some protocol)
                               | None => (protocol, None)
                               end in
  match ps_protocols ps !! protocol with
  | None => (ps, [], Err (SeNegotiation NegSelectUnsupported))
  | Some _ =>
      (send_to closed ps protocol
         (ItSubstreamOpened peer protocol fallback direction (h_connection_id (ps_connection ps))
            substream opening_permit), Ok tt)
  end.

(** [ProtocolSet::protocol_codec] *)
Definition protocol_codec (ps : ProtocolSet) (protocol : ProtocolName) : outcome ProtocolCodec :=
  match ps_protocols ps !! default protocol (ps_fallback_names ps !! protocol) with
  | Some context => Done (sc_codec context)
  | None => Panic
  end.

(** [ProtocolSet::report_substream_open_failure]; the error is [Error::ProtocolNotSupported]. *)
Definition report_substream_open_failure (closed : ProtocolName → bool) (ps : ProtocolSet)
    (protocol : ProtocolName) (substream : SubstreamId) (error : SubstreamError) :
    ProtocolSet * list PsReport * result ProtocolName unit :=
  match ps_protocols ps !! protocol with
  | None => (ps, [], Err protocol)
  | Some _ => (send_to closed ps protocol (ItSubstreamOpenFailure substream error), Ok tt)
  end.

(** [ProtocolSet::report_to_protocols]: all protocols are sent to; then the ones that have
    exited are dropped. *)
Definition report_to_protocols (closed : ProtocolName → bool) (ps : ProtocolSet)
    (event : InnerTransportEvent) : ProtocolSet * list PsReport :=
  let names := (map_order (ps_protocols ps)).*1 in
  (foldl on_protocol_closed ps (filter (λ p, closed p = true) names),
   (λ p, ToProtocol p event) <$> filter (λ p, closed p = false) names).

(** [ProtocolSet::report_connection_established] *)
Definition report_connection_established (closed : ProtocolName → bool) (ps : ProtocolSet)
    (peer : PeerId) (endpoint : Endpoint) : outcome (ProtocolSet * list PsReport) :=
  run (rest, handle) <- handle_downgrade (ps_connection ps) ;;
  Done (report_to_protocols closed
          (mkProtocolSet (ps_protocols ps) rest (ps_fallback_names ps) (ps_keep_alives ps))
          (ItConnectionEstablished peer (endpoint_connection_id endpoint) endpoint handle)).

(** [ProtocolSet::report_connection_closed]; the protocols are told before the manager, whose
    channel being gone is the error. *)
Definition report_connection_closed (closed : ProtocolName → bool) (manager_closed : bool)
    (ps : ProtocolSet) (peer : PeerId) (connection_id : ConnectionId) :
    ProtocolSet * list PsReport * result unit unit :=
  let '(ps, reports) := report_to_protocols closed ps (ItConnectionClosed peer connection_id) in
  if manager_closed then (ps, reports, Err tt)
  else (ps, reports ++ [ToManagerClosed peer connection_id], Ok tt).
End protocol_set.
