(* ===== verification/ProtocolSetFacts.v ===== *)
(** * Protocol sets: what a connection offers and whom it reports to

    Protocols register with the transport manager, which refuses names that are taken; a
    connection copies the registry into its [ProtocolSet]. The names that remote peers may
    negotiate are then those of the running protocols that accept inbound substreams, and a
    substream under any of them is reported to the protocol that owns the name. *)

From stdpp Require Import base tactics option list gmap strings.
From Stdlib Require Import NArith Lia Init.Byte.
From S2P Require Import Prelude Multiaddr AddressStore PeerState ConnectionLimits TransportManager.
From S2P Require Import TransportManagerHandle ProtocolTypes ProtocolSet.

Local Open Scope litep2p_scope.

(** ** The registry *)

(** The names of a protocol: its own and its fallback names. *)
Definition owns (main : ProtocolName) (context : ProtocolContext) (name : ProtocolName) : Prop :=
  name = main ∨ name ∈ fallback_names context.

Definition names_disjoint (m : gmap ProtocolName ProtocolContext) : Prop :=
  ∀ main1 c1 main2 c2 name, m !! main1 = Some c1 → m !! main2 = Some c2 →
    owns main1 c1 name → owns main2 c2 name → main1 = main2.

Inductive Registration :=
| Register (protocol : ProtocolName) (fallbacks : list ProtocolName) (inb : InboundProtocol)
| Unregister (protocol : ProtocolName).

Definition registration (tm : TransportManager) (r : Registration) : outcome TransportManager :=
  match r with
  | Register protocol fallbacks inb => register_protocol tm protocol fallbacks inb
  | Unregister protocol => Done (unregister_protocol tm protocol)
  end.

(** Registered names are distinct and the manager knows the fallback names, and the main ones
    that are not taken back. *)
Definition registry_ok (tm : TransportManager) : Prop :=
  names_disjoint (protocols tm) ∧
  ∀ main c name, protocols tm !! main = Some c → owns main c name → name ∈ protocol_names tm.

Lemma foldl_difference l : ∀ (s : gset ProtocolName) x,
  x ∈ foldl (λ s f, s ∖ {[f]}) s l ↔ x ∈ s ∧ x ∉ l.
Proof.
  induction l as [|y l IH]; intros s x; simpl; [set_solver|]. rewrite IH, elem_of_cons. set_solver.
Qed.

Lemma registration_ok tm r tm' : registry_ok tm → registration tm r = Done tm' → registry_ok tm'.
Proof.
  intros [Hd Hk] Heq. destruct r as [p fbs inb|p]; cbn in Heq.
  - unfold register_protocol in Heq. case_decide as Hp; [done|]. case_decide as Hf; [done|].
    simplify_eq. rewrite Exists_exists in Hf.
    assert (∀ q c name, protocols tm !! q = Some c → owns q c name →
              ¬ owns p (mkProtocolContext fbs inb) name) as Hnew.
    { intros q c name Hq Ho [->|Hin]; [by eapply Hp, Hk|]. apply Hf. eauto. }
    split; cbn.
    + intros m1 c1 m2 c2 name [[-> <-]|[? H1]]%lookup_insert_Some [[-> <-]|[? H2]]%lookup_insert_Some Ho1 Ho2;
        [done|naive_solver..|by eapply Hd].
    + intros m c name [[-> <-]|[? H1]]%lookup_insert_Some Ho.
      * destruct Ho as [->|Hin]; [set_solver|]. cbn in Hin. rewrite elem_of_union, elem_of_list_to_set. by left.
      * specialize (Hk _ _ _ H1 Ho). set_solver.
  - simplify_eq. unfold unregister_protocol. destruct (protocols tm !! p) as [c|] eqn:Hp; [|done].
    split; cbn.
    + intros m1 c1 m2 c2 name [_ H1]%lookup_delete_Some [_ H2]%lookup_delete_Some. by apply (Hd m1 c1 m2 c2).
    + intros m c' name [Hne H1]%lookup_delete_Some Ho. rewrite foldl_difference. split; [by eapply Hk|].
      intros Hin. apply Hne, (Hd p c m c' name); [done..|by right|done].
Qed.

Lemma registrations_ok l : ∀ tm tm', registry_ok tm →
  outcome_fold registration l tm = Done tm' → registry_ok tm'.
Proof.
  induction l as [|r l IH]; intros tm tm' Hok Heq; cbn in Heq; [by simplify_eq|].
  destruct (registration tm r) as [tm1|] eqn:E; [|done]. cbn in Heq.
  eapply IH, Heq. by eapply registration_ok.
Qed.

(** ** Maps collected from lists *)

Lemma collect_map_spec {A} (l : list (ProtocolName * A)) k v :
  (∀ v1 v2, (k, v1) ∈ l → (k, v2) ∈ l → v1 = v2) →
  collect_map l !! k = Some v ↔ (k, v) ∈ l.
Proof.
  intros Hf. unfold collect_map. split.
  - intros Hl%elem_of_list_to_map_2. by rewrite elem_of_reverse in Hl.
  - intros Hin. apply elem_of_list_to_map_1'; [|by rewrite elem_of_reverse].
    intros v' Hv'. rewrite elem_of_reverse in Hv'. by eapply Hf.
Qed.

(** ** What a set offers *)

Section facts.
Context `{HashOrder}.
Implicit Types (ps : ProtocolSet) (closed : ProtocolName → bool) (protocols : gmap ProtocolName SetContext).

Definition offers protocols (exited : gset ProtocolName) (name : ProtocolName)
    (keep_alive : SubstreamKeepAlive) : Prop :=
  ∃ main context, protocols !! main = Some context ∧ owns main (sc_context context) name ∧
    inbound (sc_context context) = AcceptInbound ∧ keep_alive = sc_keep_alive context ∧ main ∉ exited.

Record set_ok protocols (exited : gset ProtocolName) ps : Prop := {
  set_protocols_ok : ps_protocols ps = protocols;
  set_fallbacks_ok : ∀ f main, ps_fallback_names ps !! f = Some main ↔
    ∃ context, protocols !! main = Some context ∧ f ∈ fallback_names (sc_context context);
  set_keep_alives_ok : ∀ name ka, ps_keep_alives ps !! name = Some ka ↔ offers protocols exited name ka;
}.

Lemma fallback_keep_alives_spec protocols l :
  (∀ f main, (f, main) ∈ l → is_Some (protocols !! main)) →
  ∃ r, fallback_keep_alives protocols l = Done r ∧
    ∀ f ka, (f, ka) ∈ r ↔ ∃ main context, (f, main) ∈ l ∧ protocols !! main = Some context ∧
      inbound (sc_context context) = AcceptInbound ∧ ka = sc_keep_alive context.
Proof.
  induction l as [|[f main] l IH]; intros Hall; simpl.
  { exists []. split; [done|]. set_solver. }
  destruct (Hall f main) as [context Hc]; [left|]. rewrite Hc.
  destruct IH as (r & -> & Hr); [intros; eapply Hall; by right|]. simpl.
  eexists. split; [done|]. intros f' ka. case_decide as Hin.
  - rewrite elem_of_cons, Hr. setoid_rewrite elem_of_cons. split.
    + intros [[= -> ->]|(m & c & ? & ?)]; [by exists main, context; auto|by exists m, c; auto].
    + intros (m & c & [[= -> ->]|?] & ? & ? & ->); [left; congruence|right; by exists m, c].
  - rewrite Hr. setoid_rewrite elem_of_cons. split; [naive_solver|].
    intros (m & c & [[= -> ->]|?] & ? & ? & ->); [congruence|by exists m, c].
Qed.

(** [ProtocolSet::new] cannot fail, and offers what the registry has. *)
Lemma ProtocolSet_new_ok connection_id closed all :
  names_disjoint (sc_context <$> all) →
  ∃ ps, ProtocolSet_new connection_id closed all = Done ps ∧
    set_ok (filter (λ kv, closed kv.1 = false) all) ∅ ps.
Proof.
  intros Hd. unfold ProtocolSet_new. set (running := filter _ all).
  assert (∀ m1 c1 m2 c2 name, running !! m1 = Some c1 → running !! m2 = Some c2 →
    owns m1 (sc_context c1) name → owns m2 (sc_context c2) name → m1 = m2) as Hd'.
  { intros m1 c1 m2 c2 name [H1 _]%map_lookup_filter_Some [H2 _]%map_lookup_filter_Some.
    apply Hd; by rewrite lookup_fmap, ?H1, ?H2. }
  set (fl := map_order running ≫= _).
  assert (∀ f main, collect_map fl !! f = Some main ↔
    ∃ context, running !! main = Some context ∧ f ∈ fallback_names (sc_context context)) as Hfl.
  { assert (∀ f main, (f, main) ∈ fl ↔ ∃ context, running !! main = Some context ∧
      f ∈ fallback_names (sc_context context)) as Helem.
    { intros f main. unfold fl. rewrite list_elem_of_bind. split.
      - intros ([m c] & Hin & Hm%map_order_elem). apply list_elem_of_fmap in Hin as (f' & [= -> ->] & ?). eauto.
      - intros (c & Hc & Hf). exists (main, c). split; [|by apply map_order_elem].
        apply list_elem_of_fmap. eauto. }
    intros f main. rewrite collect_map_spec; [apply Helem|].
    intros m1 m2 (c1 & Hc1 & ?)%Helem (c2 & Hc2 & ?)%Helem. by eapply (Hd' m1 c1 m2 c2 f); [..|right|right]. }
  destruct (fallback_keep_alives_spec running (map_order (collect_map fl))) as (r & -> & Hr).
  { intros f main (c & Hc & _)%map_order_elem%Hfl. eauto. }
  cbn [outcome_bind]. eexists. split; [done|]. split; [done|done|]. cbn. intros name ka.
  match goal with |- collect_map ?l !! _ = _ ↔ _ => assert (∀ ka, (name, ka) ∈ l ↔ offers running ∅ name ka) as Hl end.
  { clear ka. intros ka. rewrite elem_of_app, list_elem_of_fmap, Hr. split.
    - intros [([m c] & [= -> ->] & [Hacc Hin]%list_elem_of_filter)|(m & c & Hm & Hc & Hacc & ->)].
      + apply map_order_elem in Hin. exists m, c. split_and!; [done|by left|done|done|set_solver].
      + apply map_order_elem, Hfl in Hm as (c' & Hc' & Hin). simplify_eq.
        exists m, c'. split_and!; [done|by right|done|done|set_solver].
    - intros (m & c & Hc & [->|Hin] & Hacc & -> & _).
      + left. exists (m, c). split; [done|]. apply list_elem_of_filter. split; [done|]. by apply map_order_elem.
      + right. exists m, c. split_and!; [|done..]. apply map_order_elem, Hfl. eauto. }
  rewrite collect_map_spec; [apply Hl|]. intros v1 v2.
  intros (m1 & c1 & Hc1 & Ho1 & _ & -> & _)%Hl (m2 & c2 & Hc2 & Ho2 & _ & -> & _)%Hl.
  assert (m1 = m2) as -> by by eapply (Hd' m1 c1 m2 c2 name). congruence.
Qed.

Lemma on_protocol_closed_ok protocols exited ps p :
  names_disjoint (sc_context <$> protocols) → is_Some (protocols !! p) →
  set_ok protocols exited ps → set_ok protocols ({[p]} ∪ exited) (on_protocol_closed ps p).
Proof.
  intros Hd [cp Hcp] [Hp Hf Hk]. split; cbn; [done|done|]. intros name ka.
  rewrite map_lookup_filter_Some, Hk, Hf. cbn. split.
  - intros [(m & c & Hc & Ho & Hacc & -> & Hne) [Hn Hnf]]. exists m, c. split_and!; [done..|].
    rewrite not_elem_of_union, not_elem_of_singleton. split; [|done]. intros ->.
    destruct Ho as [->|Hin]; [done|]. apply Hnf. eauto.
  - intros (m & c & Hc & Ho & Hacc & -> & Hne).
    assert (m ≠ p ∧ m ∉ exited) as [Hmp ?] by set_solver.
    split; [by exists m, c|]. split.
    + intros ->. apply Hmp. eapply (Hd m (sc_context c) p (sc_context cp) p); rewrite ?lookup_fmap, ?Hc, ?Hcp; try done. by left.
    + intros (c' & Hc' & Hin). apply Hmp.
      eapply (Hd m (sc_context c) p (sc_context c') name); rewrite ?lookup_fmap, ?Hc, ?Hc'; try done. by right.
Qed.

Lemma closed_all_ok protocols l : ∀ exited ps,
  names_disjoint (sc_context <$> protocols) → (∀ p, p ∈ l → is_Some (protocols !! p)) →
  set_ok protocols exited ps → set_ok protocols (list_to_set l ∪ exited) (foldl on_protocol_closed ps l).
Proof.
  induction l as [|p l IH]; intros exited ps Hd Hl Hok; cbn [foldl list_to_set].
  { by rewrite union_empty_l_L. }
  replace ({[p]} ∪ list_to_set l ∪ exited) with (list_to_set l ∪ ({[p]} ∪ exited) : gset ProtocolName) by set_solver.
  apply IH; [done|set_solver|]. apply on_protocol_closed_ok; [done|apply Hl; left|done].
Qed.

(** ** Calls *)

Inductive PsCall :=
| CallSubstreamOpen (peer : PeerId) (protocol : ProtocolName) (direction : Direction)
    (substream : Substream) (permit : Permit)
| CallSubstreamOpenFailure (protocol : ProtocolName) (substream : SubstreamId) (error : SubstreamError)
| CallEstablished (peer : PeerId) (endpoint : Endpoint)
| CallClosed (manager_closed : bool) (peer : PeerId) (connection : ConnectionId).

Definition ps_call closed ps (call : PsCall) : outcome ProtocolSet :=
  match call with
  | CallSubstreamOpen peer protocol direction substream permit =>
      Done (report_substream_open closed ps peer protocol direction substream permit).1.1
  | CallSubstreamOpenFailure protocol substream error =>
      Done (report_substream_open_failure closed ps protocol substream error).1.1
  | CallEstablished peer endpoint =>
      run r <- report_connection_established closed ps peer endpoint ;; Done r.1
  | CallClosed manager_closed peer connection =>
      Done (report_connection_closed closed manager_closed ps peer connection).1.1
  end.

(** The protocols that a call sends to. *)
Definition targets ps (call : PsCall) : list ProtocolName :=
  match call with
  | CallSubstreamOpen _ protocol _ _ _ =>
      let main := default protocol (ps_fallback_names ps !! protocol) in
      if decide (is_Some (ps_protocols ps !! main)) then [main] else []
  | CallSubstreamOpenFailure protocol _ _ =>
      if decide (is_Some (ps_protocols ps !! protocol)) then [protocol] else []
  | _ => (map_order (ps_protocols ps)).*1
  end.

(** A sequence of calls, with the protocols found to have exited. *)
Fixpoint ps_run ps (exited : gset ProtocolName) (l : list ((ProtocolName → bool) * PsCall)) :
    outcome (ProtocolSet * gset ProtocolName) :=
  match l with
  | [] => Done (ps, exited)
  | (closed, call) :: l =>
      run ps' <- ps_call closed ps call ;;
      ps_run ps' (list_to_set (filter (λ p, closed p = true) (targets ps call)) ∪ exited) l
  end.

Lemma send_to_ok protocols exited closed ps p ev :
  names_disjoint (sc_context <$> protocols) → is_Some (protocols !! p) → set_ok protocols exited ps →
  set_ok protocols (list_to_set (filter (λ p, closed p = true) [p]) ∪ exited) (send_to closed ps p ev).1.
Proof.
  intros Hd Hp Hok. unfold send_to. rewrite filter_cons, filter_nil. case_decide as E.
  - rewrite E. cbn. rewrite union_empty_r_L. by apply on_protocol_closed_ok.
  - destruct (closed p); [done|]. cbn. by rewrite union_empty_l_L.
Qed.

(** A report to the owner of a name, if there is one. *)
Lemma one_target_ok {E} exited closed ps p ev (e : result E unit) :
  names_disjoint (sc_context <$> ps_protocols ps) → set_ok (ps_protocols ps) exited ps →
  set_ok (ps_protocols ps)
    (list_to_set (filter (λ p, closed p = true)
       (if decide (is_Some (ps_protocols ps !! p)) then [p] else [])) ∪ exited)
    match ps_protocols ps !! p with
    | Some _ => (send_to closed ps p ev, Ok tt)
    | None => (ps, [], e)
    end.1.1.
Proof.
  intros Hd Hok. destruct (ps_protocols ps !! p) eqn:Hp; case_decide as Hm; try by destruct Hm.
  - apply send_to_ok; [done|by rewrite Hp|done].
  - cbn. by rewrite union_empty_l_L.
Qed.

Lemma report_to_protocols_ok protocols exited closed ps ev :
  names_disjoint (sc_context <$> protocols) → set_ok protocols exited ps →
  set_ok protocols
    (list_to_set (filter (λ p, closed p = true) (map_order (ps_protocols ps)).*1) ∪ exited)
    (report_to_protocols closed ps ev).1.
Proof.
  intros Hd Hok. apply closed_all_ok; [done| |done].
  intros p [_ ([q c] & -> & Hin%map_order_elem)%list_elem_of_fmap]%list_elem_of_filter.
  rewrite (set_protocols_ok _ _ _ Hok) in Hin. by eexists.
Qed.

Lemma ps_call_ok protocols exited closed ps call ps' :
  names_disjoint (sc_context <$> protocols) → set_ok protocols exited ps →
  ps_call closed ps call = Done ps' →
  set_ok protocols (list_to_set (filter (λ p, closed p = true) (targets ps call)) ∪ exited) ps'.
Proof.
  intros Hd Hok Heq. pose proof (set_protocols_ok _ _ _ Hok) as Hp.
  destruct call as [peer proto dir s pm|proto s e|peer ep|mc peer cid]; cbn in Heq |- *.
  - simplify_eq. unfold report_substream_open.
    destruct (ps_fallback_names ps !! proto) as [m|]; cbn; by apply one_target_ok.
  - simplify_eq. by apply one_target_ok.
  - unfold report_connection_established in Heq. destruct (handle_downgrade _) as [[rest h]|]; [|done].
    cbn [outcome_bind] in Heq. simplify_eq. apply (report_to_protocols_ok _ exited closed
      (mkProtocolSet (ps_protocols ps) rest (ps_fallback_names ps) (ps_keep_alives ps))
      (ItConnectionEstablished peer (endpoint_connection_id ep) ep h)); [done|].
    destruct Hok. by split.
  - simplify_eq. unfold report_connection_closed.
    pose proof (report_to_protocols_ok _ exited closed ps (ItConnectionClosed peer cid) Hd Hok) as Hr.
    by destruct mc.
Qed.

Lemma ps_run_ok protocols l : ∀ exited ps ps' exited',
  names_disjoint (sc_context <$> protocols) → set_ok protocols exited ps →
  ps_run ps exited l = Done (ps', exited') → set_ok protocols exited' ps'.
Proof.
  induction l as [|[closed call] l IH]; intros exited ps ps' exited' Hd Hok Heq; cbn in Heq; [by simplify_eq|].
  destruct (ps_call closed ps call) as [ps1|] eqn:E; [|done]. cbn [outcome_bind] in Heq.
  eapply IH, Heq; [done|]. by eapply ps_call_ok.
Qed.
End facts.

(** ** The property *)

(** C21. What a connection does with protocol names, for protocols registered and unregistered in any
    way the transport manager allows: the set can always be built, and after any reports the
    names offered to the remote are exactly the main and fallback names of the running
    protocols that accept inbound substreams and have not been found to have exited. For each
    name offered, the codec is that of its owner (so the lookup does not panic), and a
    substream opened under it is sent to the owner alone, with the name as fallback name if
    it is one. *)
Theorem protocol_set_offers `{HashOrder} local limits registrations tm all cid closed :
  outcome_fold registration registrations (build local limits) = Done tm →
  sc_context <$> all = protocols tm →
  ∃ ps0, ProtocolSet_new cid closed all = Done ps0 ∧
  ∀ calls ps exited, ps_run ps0 ∅ calls = Done (ps, exited) →
    (∀ name ka, ps_keep_alives ps !! name = Some ka ↔
       offers (filter (λ kv, closed kv.1 = false) all) exited name ka) ∧
    ∀ name ka, ps_keep_alives ps !! name = Some ka →
      ∃ main context, all !! main = Some context ∧ owns main (sc_context context) name ∧
        protocol_codec ps name = Done (sc_codec context) ∧
        ∀ peer direction substream permit,
          report_substream_open (λ _, false) ps peer name direction substream permit =
          (ps, [ToProtocol main (ItSubstreamOpened peer main
                  (if decide (name ∈ fallback_names (sc_context context)) then Some name else None)
                  direction (h_connection_id (ps_connection ps)) substream permit)], Ok tt).
Proof.
  intros Hreg Hall.
  assert (names_disjoint (sc_context <$> all)) as Hd.
  { rewrite Hall. eapply registrations_ok; [|done]. split; intros ?; cbn; intros; set_solver. }
  destruct (ProtocolSet_new_ok cid closed all Hd) as (ps0 & Hnew & Hok). exists ps0. split; [done|].
  intros calls ps exited Hrun. set (running := filter _ all) in *.
  assert (names_disjoint (sc_context <$> running)) as Hd'.
  { intros m1 c1 m2 c2 name. rewrite !lookup_fmap, !fmap_Some.
    intros (x1 & [H1 _]%map_lookup_filter_Some & ->) (x2 & [H2 _]%map_lookup_filter_Some & ->).
    apply Hd; by rewrite lookup_fmap, ?H1, ?H2. }
  assert (set_ok running exited ps) as Hps by by eapply ps_run_ok.
  destruct Hps as [Hp Hf Hk]. split; [done|]. intros name ka (m & c & Hc & Ho & Hacc & -> & _)%Hk.
  exists m, c. assert (all !! m = Some c) by by apply map_lookup_filter_Some in Hc as [? _].
  split; [done|]. split; [done|].
  assert (ps_fallback_names ps !! name =
    if decide (name ∈ fallback_names (sc_context c)) then Some m else None) as Hname.
  { case_decide as Hin; [by apply Hf; eauto|]. destruct (ps_fallback_names ps !! name) as [m'|] eqn:E; [|done].
    apply Hf in E as (c' & Hc' & Hin'). exfalso. apply Hin.
    assert (m' = m) as ->.
    { eapply (Hd' m' (sc_context c') m (sc_context c) name); rewrite ?lookup_fmap, ?Hc, ?Hc'; try done. by right. }
    by simplify_eq. }
  unfold protocol_codec, report_substream_open. rewrite Hname, Hp.
  case_decide as Hin; cbn; [by rewrite Hc|]. destruct Ho as [->|?]; [|done]. by rewrite Hc.
Qed.

(** ** A connection with two protocols *)

Definition example_registrations : list Registration :=
  [Register "/a/1" ["/a/0"%string] AcceptInbound; Register "/b/1" [] DenyInbound].
Definition example_manager : TransportManager :=
  match outcome_fold registration example_registrations
          (build (mkPeerId (mkMultihash 0 [])) (mkLimitsConfig None None)) with
  | Done tm => tm
  | Panic => build (mkPeerId (mkMultihash 0 [])) (mkLimitsConfig None None)
  end.
Definition example_protocols : gmap ProtocolName SetContext :=
  (λ c, mkSetContext c (Identity 32) KaYes) <$> protocols example_manager.

Lemma protocol_set_offers_witness : let _ := canonical_order in
  ∃ ps0, ProtocolSet_new 7 (λ _, false) example_protocols = Done ps0 ∧
  ps_keep_alives ps0 !! "/a/0"%string = Some KaYes ∧ ps_keep_alives ps0 !! "/b/1"%string = None ∧
  protocol_codec ps0 "/a/0" = Done (Identity 32).
Proof.
  intros Ho.
  destruct (protocol_set_offers (mkPeerId (mkMultihash 0 [])) (mkLimitsConfig None None)
    example_registrations example_manager example_protocols 7 (λ _, false)) as (ps0 & Hnew & Hps);
    [by vm_compute| |].
  - unfold example_protocols. rewrite <- map_fmap_compose. apply map_fmap_id.
  - exists ps0. split; [done|]. destruct (Hps [] ps0 ∅ eq_refl) as [Hk Hc].
    assert (ps_keep_alives ps0 !! "/a/0"%string = Some KaYes) as Ha.
    { revert Hnew. vm_compute. by intros [= <-]. }
    split_and!; [done| |].
    + revert Hnew. vm_compute. by intros [= <-].
    + destruct (Hc "/a/0"%string KaYes Ha) as (m & c & Hm & _ & -> & _).
      unfold example_protocols in Hm. rewrite lookup_fmap, fmap_Some in Hm. by destruct Hm as (? & _ & ->).
Defined.
