(* ===== verification/TransportService.v ===== *)
(** * The transport service

    [TransportService] of [src/src/protocol/transport_service.rs]: what a protocol holds to open
    substreams and to learn of connections, and the tracker that lets idle connections go.
    Instants are ticks of one clock; the events that wait in the channel from the connections,
    the state of the channels to them and the expired timer that is returned first are
    arguments. *)

From stdpp Require Import base tactics option list gmap strings.
From Stdlib Require Import NArith Lia Init.Byte.
From S2P Require Import Prelude Multiaddr AddressStore PeerState ConnectionLimits TransportManager.
From S2P Require Import TransportManagerHandle ProtocolTypes ProtocolSet.

Local Open Scope litep2p_scope.

(** ** Connection contexts *)

Record ConnectionContext := mkConnectionContext {
  primary : ConnectionHandle;
  secondary : option ConnectionHandle;
}.

(** [ConnectionContext::new] *)
Definition ConnectionContext_new (h : ConnectionHandle) : ConnectionContext :=
  mkConnectionContext h None.

(** Apply [f] to the handle of a connection, as [downgrade] and [try_upgrade] do. *)
Definition on_handle (f : ConnectionHandle → ConnectionHandle) (ctx : ConnectionContext)
    (connection_id : ConnectionId) : ConnectionContext :=
  if (h_connection_id (primary ctx) =? connection_id)%N
  then mkConnectionContext (f (primary ctx)) (secondary ctx)
  else
    match secondary ctx with
    | Some h => if (h_connection_id h =? connection_id)%N
                then mkConnectionContext (primary ctx) (Some (f h)) else ctx
    | None => ctx
    end.

(** [ConnectionContext::downgrade] *)
Definition ctx_downgrade (ctx : ConnectionContext) (connection_id : ConnectionId) : ConnectionContext :=
  on_handle handle_close ctx connection_id.

(** [ConnectionContext::try_upgrade] *)
Definition ctx_try_upgrade (ch : ChannelState) (ctx : ConnectionContext) (connection_id : ConnectionId) :
    ConnectionContext :=
  on_handle (handle_try_upgrade ch) ctx connection_id.

(** ** Keep-alive timeouts *)

(** Sleeping futures, with the instant each one is done at. [FuturesUnordered::poll_next] returns
    one that is done, whichever was woken first. *)
Class SleepQueue : Type := {
  poll_sleep : ∀ {K : Type}, N → list (K * N) → option nat;
  poll_sleep_done : ∀ {K} now (l : list (K * N)) i, poll_sleep now l = Some i →
    ∃ k d, l !! i = Some (k, d) ∧ (d ≤ now)%N;
}.

(** One such queue, used where a model is run. *)
Fixpoint first_done {K : Type} (now : N) (l : list (K * N)) : option nat :=
  match l with
  | [] => None
  | (_, d) :: l => if (d <=? now)%N then Some 0 else S <$> first_done now l
  end.

Lemma first_done_spec {K} now (l : list (K * N)) : ∀ i, first_done now l = Some i →
  ∃ k d, l !! i = Some (k, d) ∧ (d ≤ now)%N.
Proof.
  induction l as [|[k d] l IH]; intros i; cbn; [done|].
  destruct (N.leb_spec d now); [intros [= <-]; cbn; eauto|].
  destruct (first_done now l) as [j|]; [|done]. intros [= <-]. by apply IH.
Qed.

Definition eager_sleep : SleepQueue := {|
  poll_sleep K := first_done;
  poll_sleep_done K := first_done_spec;
|}.

Record KeepAliveTracker := mkKeepAliveTracker {
  keep_alive_timeout : N;
  last_activity : gmap (PeerId * ConnectionId) N;
  pending_keep_alive_timeouts : list ((PeerId * ConnectionId) * N);
}.

(** [KeepAliveTracker::new] *)
Definition KeepAliveTracker_new (keep_alive_timeout : N) : KeepAliveTracker :=
  mkKeepAliveTracker keep_alive_timeout ∅ [].

(** [KeepAliveTracker::substream_activity] *)
Definition substream_activity (now : N) (ka : KeepAliveTracker) (peer : PeerId)
    (connection_id : ConnectionId) : KeepAliveTracker :=
  mkKeepAliveTracker (keep_alive_timeout ka)
    (<[(peer, connection_id) := now]> (last_activity ka))
    (match last_activity ka !! (peer, connection_id) with
     | None => pending_keep_alive_timeouts ka ++ [((peer, connection_id), now + keep_alive_timeout ka)%N]
     | Some _ => pending_keep_alive_timeouts ka
     end).

(** [KeepAliveTracker::on_connection_established] *)
Definition ka_on_connection_established (now : N) (ka : KeepAliveTracker) (peer : PeerId)
    (connection_id : ConnectionId) : KeepAliveTracker :=
  substream_activity now ka peer connection_id.

(** [KeepAliveTracker::on_connection_closed] *)
Definition ka_on_connection_closed (ka : KeepAliveTracker) (peer : PeerId)
    (connection_id : ConnectionId) : KeepAliveTracker :=
  mkKeepAliveTracker (keep_alive_timeout ka) (delete (peer, connection_id) (last_activity ka))
    (pending_keep_alive_timeouts ka).

(** [KeepAliveTracker::poll_next] *)
Definition ka_poll_next `{SleepQueue} (now : N) (ka : KeepAliveTracker) :
    KeepAliveTracker * Poll (PeerId * ConnectionId) :=
  let pending := pending_keep_alive_timeouts ka in
  match i ← poll_sleep now pending; pending !! i ≫= λ e, Some (i, e) with
  | None => (ka, Prelude.Pending)
  | Some (i, (key, _)) =>
      let rest := take_nth pending i in
      match last_activity ka !! key with
      | None => (mkKeepAliveTracker (keep_alive_timeout ka) (last_activity ka) rest, Prelude.Pending)
      | Some last =>
          let inactive_for := (now - last)%N in
          if (inactive_for <? keep_alive_timeout ka)%N
          then
            let timeout := (keep_alive_timeout ka - inactive_for)%N in
            (mkKeepAliveTracker (keep_alive_timeout ka) (last_activity ka) (rest ++ [(key, (now + timeout)%N)]),
             Prelude.Pending)
          else
            (mkKeepAliveTracker (keep_alive_timeout ka) (delete key (last_activity ka)) rest, Ready key)
      end
  end.

(** ** The service *)

(** [TransportService]; the counter of substream identifiers is shared with the other protocols
    and the connections. *)
Record TransportService := mkTransportService {
  ts_protocol : ProtocolName;
  ts_fallback_names : list ProtocolName;
  ts_connections : gmap PeerId ConnectionContext;
  ts_next_substream_id : N;
  ts_keep_alive : KeepAliveTracker;
  ts_substream_keep_alive : SubstreamKeepAlive;
  ts_pending_outbound : gmap SubstreamId ConnectionId;
  ts_pending_events : list ServiceEvent;
}.

(** [TransportService::new] *)
Definition TransportService_new (protocol : ProtocolName) (fallback_names : list ProtocolName)
    (next_substream_id : N) (keep_alive_timeout : N) (substream_keep_alive : SubstreamKeepAlive) :
    TransportService :=
  mkTransportService protocol fallback_names ∅ next_substream_id
    (KeepAliveTracker_new keep_alive_timeout) substream_keep_alive ∅ [].

Definition ts_set_connections (ts : TransportService) m :=
  mkTransportService (ts_protocol ts) (ts_fallback_names ts) m (ts_next_substream_id ts)
    (ts_keep_alive ts) (ts_substream_keep_alive ts) (ts_pending_outbound ts) (ts_pending_events ts).
Definition ts_set_counter (ts : TransportService) n :=
  mkTransportService (ts_protocol ts) (ts_fallback_names ts) (ts_connections ts) n
    (ts_keep_alive ts) (ts_substream_keep_alive ts) (ts_pending_outbound ts) (ts_pending_events ts).
Definition ts_set_tracker (ts : TransportService) ka :=
  mkTransportService (ts_protocol ts) (ts_fallback_names ts) (ts_connections ts) (ts_next_substream_id ts)
    ka (ts_substream_keep_alive ts) (ts_pending_outbound ts) (ts_pending_events ts).
Definition ts_set_outbound (ts : TransportService) m :=
  mkTransportService (ts_protocol ts) (ts_fallback_names ts) (ts_connections ts) (ts_next_substream_id ts)
    (ts_keep_alive ts) (ts_substream_keep_alive ts) m (ts_pending_events ts).
Definition ts_set_events (ts : TransportService) l :=
  mkTransportService (ts_protocol ts) (ts_fallback_names ts) (ts_connections ts) (ts_next_substream_id ts)
    (ts_keep_alive ts) (ts_substream_keep_alive ts) (ts_pending_outbound ts) l.

(** [TransportService::on_connection_established] *)
Definition ts_on_connection_established (now : N) (ts : TransportService) (peer : PeerId)
    (endpoint : Endpoint) (connection_id : ConnectionId) (handle : ConnectionHandle) :
    TransportService * option ServiceEvent :=
  let tracked := ts_set_tracker ts (ka_on_connection_established now (ts_keep_alive ts) peer connection_id) in
  match ts_connections ts !! peer with
  | Some ctx =>
      match secondary ctx with
      | Some _ => (ts, None)
      | None =>
          (ts_set_connections tracked
             (<[peer := mkConnectionContext (primary ctx) (Some handle)]> (ts_connections ts)), None)
      end
  | None =>
      (ts_set_connections tracked (<[peer := ConnectionContext_new handle]> (ts_connections ts)),
       Some (SvConnectionEstablished peer endpoint))
  end.

Section service.
Context `{HashOrder} (debug : bool).

(** [TransportService::on_connection_closed]. The substreams that were being opened over the
    connection fail; a secondary connection that does not match is dropped with the one that
    does. *)
Definition ts_on_connection_closed (ts : TransportService) (peer : PeerId)
    (connection_id : ConnectionId) : outcome TransportService :=
  let ts := ts_set_tracker ts (ka_on_connection_closed (ts_keep_alive ts) peer connection_id) in
  let failed := filter (λ kv, kv.2 = connection_id) (ts_pending_outbound ts) in
  let pending := filter (λ kv, kv.2 ≠ connection_id) (ts_pending_outbound ts) in
  let ts := ts_set_outbound ts pending in
  let ts := ts_set_events ts (ts_pending_events ts ++
              ((λ kv, SvSubstreamOpenFailure kv.1 SeConnectionClosed) <$> map_order failed)) in
  match ts_connections ts !! peer with
  | None => debug_assert debug False (Done ts)
  | Some ctx =>
      if (h_connection_id (primary ctx) =? connection_id)%N then
        match secondary ctx with
        | None =>
            Done (ts_set_events (ts_set_connections ts (delete peer (ts_connections ts)))
                    (ts_pending_events ts ++ [SvConnectionClosed peer]))
        | Some handle =>
            Done (ts_set_connections ts (<[peer := mkConnectionContext handle None]> (ts_connections ts)))
        end
      else
        Done (ts_set_connections ts
                (<[peer := mkConnectionContext (primary ctx) None]> (ts_connections ts)))
  end.

(** [TransportService::open_substream], with the command that goes to the connection. *)
Definition ts_open_substream (now : N) (ch : ChannelState) (ts : TransportService) (peer : PeerId) :
    TransportService * option ProtocolCommand * result SubstreamError SubstreamId :=
  match ts_connections ts !! peer with
  | None => (ts, None, Err (SePeerDoesNotExist peer))
  | Some ctx =>
      let connection_id := h_connection_id (primary ctx) in
      match try_get_permit ch (primary ctx) with
      | None => (ts, None, Err SeConnectionClosed)
      | Some permit =>
          let substream_id := ts_next_substream_id ts in
          let ts := ts_set_counter ts (usize_wrapping_add substream_id 1) in
          let ch := holding permit ch in
          let '(ts, handle) :=
            match ts_substream_keep_alive ts with
            | KaYes =>
                let handle := handle_try_upgrade ch (primary ctx) in
                (ts_set_connections
                   (ts_set_tracker ts (substream_activity now (ts_keep_alive ts) peer connection_id))
                   (<[peer := mkConnectionContext handle (secondary ctx)]> (ts_connections ts)), handle)
            | KaNo => (ts, primary ctx)
            end in
          match handle_open_substream ch handle (ts_protocol ts) (ts_fallback_names ts) substream_id
                  permit (ts_substream_keep_alive ts) with
          | Ok command =>
              (ts_set_outbound ts (<[substream_id := connection_id]> (ts_pending_outbound ts)),
               Some command, Ok substream_id)
          | Err e => (ts, None, Err e)
          end
      end
  end.

(** [TransportService::force_close]: the commands that go to the connections, the secondary one
    first. *)
Definition ts_force_close (ch : ChannelState) (ts : TransportService) (peer : PeerId) :
    list (ConnectionId * ProtocolCommand) * result ForceCloseError unit :=
  match ts_connections ts !! peer with
  | None => ([], Err (FcPeerDoesntExist peer))
  | Some ctx =>
      let sent h := match handle_force_close ch h with
                    | Ok command => [(h_connection_id h, command)]
                    | Err _ => []
                    end in
      (match secondary ctx with Some h => sent h | None => [] end ++ sent (primary ctx),
       try _ <- handle_force_close ch (primary ctx) ;; Ok tt)
  end.

(** The addresses that [TransportService::add_known_address] passes to the manager: the peer
    is added to those that do not end in one. *)
Definition ts_known_addresses (peer : PeerId) (addresses : list Multiaddr) : gset Multiaddr :=
  list_to_set ((λ address, if ends_with_p2p address then address
                           else with_protocol address (P2p (multihash peer))) <$> addresses).

(** [TransportService::add_known_address] *)
Definition ts_add_known_address `{IpNetwork} (supported : gset SupportedTransport) (tm : TransportManager)
    (peer : PeerId) (addresses : list Multiaddr) : outcome (TransportManager * nat) :=
  add_known_address supported tm peer (set_order (ts_known_addresses peer addresses)).

(** One event from a connection or the manager: the new state and the event for the protocol. *)
Definition ts_on_event (now : N) (ch : ChannelState) (ts : TransportService) (event : InnerTransportEvent) :
    outcome (TransportService * option ServiceEvent) :=
  match event with
  | ItConnectionEstablished peer connection endpoint handle =>
      Done (ts_on_connection_established now ts peer endpoint connection handle)
  | ItConnectionClosed peer connection =>
      run ts <- ts_on_connection_closed ts peer connection ;;
      match ts_pending_events ts with
      | event :: rest => Done (ts_set_events ts rest, Some event)
      | [] => Done (ts, None)
      end
  | ItSubstreamOpened peer protocol fallback direction connection_id substream opening_permit =>
      let ts := match direction with
                | Outbound substream_id =>
                    ts_set_outbound ts (delete substream_id (ts_pending_outbound ts))
                | Inbound => ts
                end in
      let ts :=
        if bool_decide (protocol = ts_protocol ts) && bool_decide (ts_substream_keep_alive ts = KaYes) then
          let ts := ts_set_tracker ts (substream_activity now (ts_keep_alive ts) peer connection_id) in
          match ts_connections ts !! peer with
          | Some ctx =>
              ts_set_connections ts
                (<[peer := ctx_try_upgrade (holding opening_permit ch) ctx connection_id]> (ts_connections ts))
          | None => ts
          end
        else ts in
      Done (ts, Some (SvSubstreamOpened peer protocol fallback direction substream))
  | ItSubstreamOpenFailure substream error =>
      Done (ts_set_outbound ts (delete substream (ts_pending_outbound ts)),
            Some (SvSubstreamOpenFailure substream error))
  | ItDialFailure _ _ => run event <- to_transport_event event ;; Done (ts, Some event)
  end.

(** The loop over the events in the channel; [closed]: all senders are gone. The events that
    are left in the channel are returned too. *)
Fixpoint ts_receive (now : N) (ch : ChannelState) (ts : TransportService)
    (rx : list InnerTransportEvent) (closed : bool) :
    outcome (TransportService * list InnerTransportEvent * Poll (option ServiceEvent)) :=
  match rx with
  | [] => Done (ts, [], if closed then Ready None else Prelude.Pending)
  | event :: rx =>
      run (ts, event) <- ts_on_event now ch ts event ;;
      match event with
      | Some event => Done (ts, rx, Ready (Some event))
      | None => ts_receive now ch ts rx closed
      end
  end.

(** The loop over the keep-alive timeouts. *)
Fixpoint ts_expire `{SleepQueue} (fuel : nat) (now : N) (ts : TransportService) : TransportService :=
  match fuel with
  | O => ts
  | S fuel =>
      match ka_poll_next now (ts_keep_alive ts) with
      | (ka, Prelude.Pending) => ts_set_tracker ts ka
      | (ka, Ready (peer, connection_id)) =>
          let ts := ts_set_tracker ts ka in
          ts_expire fuel now
            match ts_connections ts !! peer with
            | Some ctx =>
                ts_set_connections ts (<[peer := ctx_downgrade ctx connection_id]> (ts_connections ts))
            | None => ts
            end
      end
  end.

(** [TransportService::poll_next]. A poll of the timeouts that returns one takes it away, so the
    loop ends after at most as many rounds as there are timeouts, and one. *)
Definition ts_poll_next `{SleepQueue} (now : N) (ch : ChannelState) (ts : TransportService)
    (rx : list InnerTransportEvent) (closed : bool) :
    outcome (TransportService * list InnerTransportEvent * Poll (option ServiceEvent)) :=
  match ts_pending_events ts with
  | event :: rest => Done (ts_set_events ts rest, rx, Ready (Some event))
  | [] =>
      run (ts, rx, poll) <- ts_receive now ch ts rx closed ;;
      match poll with
      | Ready event => Done (ts, rx, Ready event)
      | Prelude.Pending =>
          Done (ts_expire (S (length (pending_keep_alive_timeouts (ts_keep_alive ts)))) now ts, rx,
                Prelude.Pending)
      end
  end.
End service.
