(* ===== verification/TransportServiceFacts.v ===== *)
(** * The transport service keeps its contract

    Connections report to the service what happens to them ([feeds]). Whatever they report, the
    events the service hands to its protocol and its answers to [open_substream] follow the
    contract of [ProtocolTypes] that the protocols are proved against. *)

From stdpp Require Import base tactics option list gmap strings relations.
From Stdlib Require Import NArith Lia Init.Byte.
From S2P Require Import Prelude Multiaddr AddressStore PeerState ConnectionLimits TransportManager.
From S2P Require Import TransportManagerHandle ProtocolTypes ProtocolSet TransportService.

Local Open Scope litep2p_scope.

(** ** What connections report

    [up] are the connections that were reported established and not closed, [requested] the
    substreams that a connection was asked to open and has not reported on. *)
Record Links := mkLinks {
  up : gmap ConnectionId PeerId;
  requested : gmap SubstreamId ConnectionId;
}.

Definition Links_init : Links := mkLinks ∅ ∅.

(** A peer has at most two connections, and a connection reports only while it is up, on
    the substreams it was asked for. *)
Inductive feeds : Links → InnerTransportEvent → Links → Prop :=
| F_established l p cid ep :
    up l !! cid = None → (∀ c1 c2, up l !! c1 = Some p → up l !! c2 = Some p → c1 = c2) →
    feeds l (ItConnectionEstablished p cid ep (ConnectionHandle_new cid))
      (mkLinks (<[cid := p]> (up l)) (requested l))
| F_closed l p cid :
    up l !! cid = Some p →
    feeds l (ItConnectionClosed p cid)
      (mkLinks (delete cid (up l)) (filter (λ kv, kv.2 ≠ cid) (requested l)))
| F_dial_failure l p a : feeds l (ItDialFailure p a) l
| F_inbound l p proto fb cid s permit :
    up l !! cid = Some p → feeds l (ItSubstreamOpened p proto fb Inbound cid s permit) l
| F_outbound l p proto fb id cid s permit :
    up l !! cid = Some p → requested l !! id = Some cid →
    feeds l (ItSubstreamOpened p proto fb (Outbound id) cid s permit)
      (mkLinks (up l) (delete id (requested l)))
| F_open_failure l id cid e :
    requested l !! id = Some cid →
    feeds l (ItSubstreamOpenFailure id e) (mkLinks (up l) (delete id (requested l))).

Inductive fed : Links → list InnerTransportEvent → Links → Prop :=
| Fed_nil l : fed l [] l
| Fed_cons l e l1 rx l2 : feeds l e l1 → fed l1 rx l2 → fed l (e :: rx) l2.

(** A command that was sent to a connection. *)
Definition ask (l : Links) (command : option ProtocolCommand) : Links :=
  match command with
  | Some (PcOpenSubstream _ _ id cid _ _) => mkLinks (up l) (<[id := cid]> (requested l))
  | _ => l
  end.

(** ** The simulation relation

    The connections of a service, without whether their handles are active. *)
Definition shape (ts : TransportService) : gmap PeerId (ConnectionId * option ConnectionId) :=
  (λ ctx, (h_connection_id (primary ctx), h_connection_id <$> secondary ctx)) <$> ts_connections ts.

Definition uses (x : ConnectionId * option ConnectionId) (cid : ConnectionId) : Prop :=
  cid = x.1 ∨ x.2 = Some cid.

(** The shape agrees with the connections that are up. *)
Record linked (sh : gmap PeerId (ConnectionId * option ConnectionId))
    (pending : gmap SubstreamId ConnectionId) (l : Links) : Prop := {
  linked_up : ∀ cid p, up l !! cid = Some p ↔ ∃ x, sh !! p = Some x ∧ uses x cid;
  linked_two : ∀ p x, sh !! p = Some x → x.2 ≠ Some x.1;
  linked_requested : requested l = pending;
  linked_primary : ∀ id cid, pending !! id = Some cid → ∃ p x, sh !! p = Some x ∧ x.1 = cid;
}.

(** The events of a connection that was closed: the substreams that fail, and the end of the
    last connection. *)
Definition closing_events (q : PeerId) (ids : list SubstreamId) (last : bool) : list ServiceEvent :=
  ((λ id, SvSubstreamOpenFailure id SeConnectionClosed) <$> ids) ++
  (if last then [SvConnectionClosed q] else []).

(** The contract's state [c], when the events of [closing_events q ids last] are still queued. *)
Record agrees (sh : gmap PeerId (ConnectionId * option ConnectionId))
    (pending : gmap SubstreamId ConnectionId) (next : N) (q : PeerId) (ids : list SubstreamId)
    (last : bool) (c : Contract) : Prop := {
  agrees_nodup : NoDup ids;
  agrees_fresh : ∀ id, id ∈ ids → pending !! id = None;
  agrees_last : last = true → sh !! q = None;
  agrees_opening : ∀ id p, opening c !! id = Some p ↔
    (∃ x, sh !! p = Some x ∧ pending !! id = Some x.1) ∨ (id ∈ ids ∧ p = q);
  agrees_connected : ∀ p, p ∈ connected c ↔ is_Some (sh !! p) ∨ (last = true ∧ p = q);
  agrees_used : ∀ id, id ∈ used c → (id < next)%N;
}.

Definition refines (l : Links) (ts : TransportService) (c : Contract) : Prop :=
  contract_wf c ∧ linked (shape ts) (ts_pending_outbound ts) l ∧
  ∃ q ids last, ts_pending_events ts = closing_events q ids last ∧
    agrees (shape ts) (ts_pending_outbound ts) (ts_next_substream_id ts) q ids last c.

(** Without queued events the contract's state is that of the connections. *)
Lemma agrees_quiet sh pending next q c : agrees sh pending next q [] false c ↔
  (∀ id p, opening c !! id = Some p ↔ ∃ x, sh !! p = Some x ∧ pending !! id = Some x.1) ∧
  (∀ p, p ∈ connected c ↔ is_Some (sh !! p)) ∧ (∀ id, id ∈ used c → (id < next)%N).
Proof.
  split.
  - intros [_ _ _ Ho Hc Hu]. split_and!; [|naive_solver|done].
    intros id p. rewrite Ho. set_solver.
  - intros (Ho & Hc & Hu). split; try done; [constructor|set_solver| |naive_solver].
    intros id p. rewrite Ho. set_solver.
Qed.

Lemma closing_events_nil q ids last : closing_events q ids last = [] → ids = [] ∧ last = false.
Proof. by destruct ids, last. Qed.

Lemma refines_quiet l ts c : refines l ts c → ts_pending_events ts = [] →
  contract_wf c ∧ linked (shape ts) (ts_pending_outbound ts) l ∧
  ∃ q, agrees (shape ts) (ts_pending_outbound ts) (ts_next_substream_id ts) q [] false c.
Proof. intros (Hwf & Hl & q & ids & last & -> & Ha) [-> ->]%closing_events_nil. eauto. Qed.

Lemma refines_of_quiet l ts c q : contract_wf c → linked (shape ts) (ts_pending_outbound ts) l →
  ts_pending_events ts = [] →
  agrees (shape ts) (ts_pending_outbound ts) (ts_next_substream_id ts) q [] false c → refines l ts c.
Proof. intros Hwf Hl He Ha. split; [done|]. split; [done|]. by exists q, [], false. Qed.

(** A connection belongs to one peer, in one place. *)
Lemma linked_inj sh pending l p x p' x' cid : linked sh pending l →
  sh !! p = Some x → sh !! p' = Some x' → uses x cid → uses x' cid → p = p'.
Proof.
  intros Hl Hp Hp' Hx Hx'. assert (up l !! cid = Some p) by (apply Hl; eauto).
  assert (up l !! cid = Some p') by (apply Hl; eauto). congruence.
Qed.

(** ** Queued events *)

Lemma deliver_queued l ts c e rest : refines l ts c → ts_pending_events ts = e :: rest →
  ∃ c', delivers c e c' ∧ refines l (ts_set_events ts rest) c'.
Proof.
  intros (Hwf & Hl & q & ids & last & He & [Hnd Hf Hla Ho Hc Hu]) Hq. rewrite He in Hq.
  destruct ids as [|id ids]; [destruct last; [|done]|]; cbn in Hq; simplify_eq.
  - assert (∀ id, opening c !! id ≠ Some q) as Hno.
    { intros id. rewrite Ho, Hla by done. set_solver. }
    pose proof (D_closed c q (proj2 (Hc q) (or_intror (conj eq_refl eq_refl))) Hno) as Hd.
    eexists. split; [done|]. split; [by eapply delivers_wf|]. split; [done|]. exists q, [], false. split; [done|]. apply agrees_quiet. cbn. split_and!; [| |done].
    + intros id p. rewrite Ho. split; [|naive_solver]. intros [?|[? _]]; [done|set_solver].
    + intros p. rewrite elem_of_difference, Hc, elem_of_singleton. specialize (Hla eq_refl).
      split; [naive_solver|]. intros [x Hx]. split; [by left|]. intros ->.
      by pose proof (eq_trans (eq_sym Hx) Hla).
  - assert (opening c !! id = Some q) as Hid by (apply Ho; right; set_solver).
    apply NoDup_cons in Hnd as [Hnin Hnd].
    pose proof (D_open_failure c id SeConnectionClosed q Hid) as Hd.
    eexists. split; [done|]. split; [by eapply delivers_wf|]. split; [done|]. exists q, ids, last. split; [done|]. split; cbn; [done|set_solver|done| |done|done].
    intros id' p. rewrite lookup_delete_Some, Ho, elem_of_cons.
    assert (ts_pending_outbound ts !! id = None) by (apply Hf; set_solver).
    split; [intros [Hne [?|[[->|?] ?]]]; auto; done|].
    intros [(x & Hx & Hp)|[Hin ->]]; (split; [congruence|]); [by left; exists x|by auto].
Qed.

(** ** Connections that close *)

Section close.
Context (sh : gmap PeerId (ConnectionId * option ConnectionId)) (pending : gmap SubstreamId ConnectionId).
Context (l : Links) (c : Contract) (next : N) (q p : PeerId) (cid : ConnectionId) (ids : list SubstreamId).
Context (Hl : linked sh pending l) (Ha : agrees sh pending next q [] false c).
Context (Hids : ∀ id, id ∈ ids ↔ pending !! id = Some cid) (Hnd : NoDup ids).

Let pending' := filter (λ kv : SubstreamId * ConnectionId, kv.2 ≠ cid) pending.

Lemma pending'_lookup id cid' : pending' !! id = Some cid' ↔ pending !! id = Some cid' ∧ cid' ≠ cid.
Proof. unfold pending'. by rewrite map_lookup_filter_Some. Qed.

Lemma linked_close sh' : (∀ p', p' ≠ p → sh' !! p' = sh !! p') →
  (∀ cid', (∃ x, sh' !! p = Some x ∧ uses x cid') ↔ (∃ x, sh !! p = Some x ∧ uses x cid') ∧ cid' ≠ cid) →
  (∀ x, sh' !! p = Some x → x.2 = None) → (∃ x, sh !! p = Some x ∧ uses x cid) →
  linked sh' pending' (mkLinks (delete cid (up l)) (filter (λ kv, kv.2 ≠ cid) (requested l))).
Proof using Hl.
  clear Ha Hids Hnd. intros Hother Hp Hnone (xp & Hxp & Hcid). pose proof Hl as [Hup Htwo Hreq Hprim].
  assert (∀ p' x, p' ≠ p → sh !! p' = Some x → ¬ uses x cid) as Hne.
  { intros p' x Hp' Hx Hux. apply Hp'. by eapply (linked_inj sh pending l p' x p xp cid). }
  split; cbn; [|..|by rewrite Hreq|].
  - intros cid' p'. rewrite lookup_delete_Some, Hup. destruct (decide (p' = p)) as [->|Hpp].
    + rewrite Hp. split; intros [? ?]; by split.
    + rewrite (Hother p') by done. split; [by intros [_ ?]|].
      intros (x & Hx & Hu). split; [|by eauto]. intros ->. by eapply Hne.
  - intros p' x Hx. destruct (decide (p' = p)) as [->|Hpp]; [by rewrite (Hnone x Hx)|].
    rewrite Hother in Hx by done. by eapply Htwo.
  - intros id cid' [Hid Hne']%pending'_lookup. destruct (Hprim id cid' Hid) as (p' & x & Hx & Hxc).
    destruct (decide (p' = p)) as [->|Hpp].
    + destruct (proj2 (Hp cid')) as (x' & Hx' & [Hu|Hu]); [split; [exists x; split; [done|]; by left|done]| |].
      * exists p, x'. by rewrite Hu.
      * by rewrite (Hnone x' Hx') in Hu.
    + exists p', x. by rewrite Hother.
Qed.

(** The last connection of a peer. *)
Lemma close_last : sh !! p = Some (cid, None) →
  agrees (delete p sh) pending' next p ids true c ∧
  linked (delete p sh) pending' (mkLinks (delete cid (up l)) (filter (λ kv, kv.2 ≠ cid) (requested l))).
Proof using All.
  intros Hp. pose proof Hl as [Hup Htwo Hreq Hprim]. apply agrees_quiet in Ha as (Ho & Hc & Hu). split.
  - split; [done| |by rewrite lookup_delete_eq| | |done].
    + intros id Hid%Hids. destruct (pending' !! id) eqn:E; [|done]. apply pending'_lookup in E as [? ?]. congruence.
    + intros id p'. rewrite Ho. destruct (decide (p' = p)) as [->|Hpp].
      * rewrite lookup_delete_eq, Hids, Hp. clear. naive_solver.
      * rewrite lookup_delete_ne by done. setoid_rewrite pending'_lookup.
        split; [|intros [(x & ? & ? & _)|[_ ?]]; [by exists x|done]].
        intros (x & Hx & Hid). left. exists x. split_and!; [done..|]. intros Heq. apply Hpp.
        eapply (linked_inj sh pending l p' x p (cid, None) cid); [done..|by left|by left].
    + intros p'. rewrite Hc. destruct (decide (p' = p)) as [->|Hpp].
      * rewrite Hp. split; [by auto|by eexists].
      * rewrite lookup_delete_ne by done. clear -Hpp. naive_solver.
  - apply linked_close; [intros; by rewrite lookup_delete_ne| |by rewrite lookup_delete_eq|].
    + intros cid'. rewrite lookup_delete_eq, Hp. unfold uses. clear. naive_solver.
    + exists (cid, None). split; [done|by left].
Qed.

(** One of the two connections of a peer: the other one is left. *)
Lemma close_one c1 other : sh !! p = Some (c1, Some other) → cid = c1 ∨ cid = other →
  let sh' := <[p := (if decide (cid = c1) then other else c1, None)]> sh in
  agrees sh' pending' next p ids false c ∧
  linked sh' pending' (mkLinks (delete cid (up l)) (filter (λ kv, kv.2 ≠ cid) (requested l))).
Proof using All.
  intros Hp Hcid. cbn zeta. pose proof Hl as [Hup Htwo Hreq Hprim]. apply agrees_quiet in Ha as (Ho & Hc & Hu).
  assert (c1 ≠ other) as Hne. { intros ->. by apply (Htwo p _ Hp). }
  assert (∀ id, pending !! id ≠ Some other) as Hsec.
  { intros id Hid. destruct (Hprim id other Hid) as (p' & x & Hx & Hxo).
    assert (p' = p) as -> by (eapply (linked_inj sh pending l p' x p (c1, Some other) other);
      [done..|by left|by right]). rewrite Hp in Hx. injection Hx as <-. done. }
  split.
  - split; [done| |done| | |done].
    + intros id Hid%Hids. destruct (pending' !! id) eqn:E; [|done]. apply pending'_lookup in E as [? ?]. congruence.
    + intros id p'. rewrite Ho, Hids. destruct (decide (p' = p)) as [->|Hpp].
      * rewrite lookup_insert_eq, Hp. setoid_rewrite pending'_lookup.
        specialize (Hsec id). clear -Hsec Hcid. case_decide; subst; [naive_solver|].
        destruct Hcid as [->| ->]; [done|]. naive_solver.
      * rewrite lookup_insert_ne by done. setoid_rewrite pending'_lookup.
        split; [|intros [(x & ? & ? & _)|[_ ?]]; [by exists x|done]].
        intros (x & Hx & Hid). left. exists x. split_and!; [done..|]. intros Heq. apply Hpp.
        eapply (linked_inj sh pending l p' x p (c1, Some other) cid); [done..|by left|].
        destruct Hcid as [->| ->]; [by left|by right].
    + intros p'. rewrite Hc. destruct (decide (p' = p)) as [->|Hpp].
      * rewrite lookup_insert_eq, Hp. split; [left; by eexists|intros _; by eexists].
      * rewrite lookup_insert_ne by done. clear -Hpp. naive_solver.
  - apply linked_close; [intros; by rewrite lookup_insert_ne| | |].
    + intros cid'. rewrite lookup_insert_eq, Hp. unfold uses. clear -Hne Hcid. case_decide; naive_solver.
    + rewrite lookup_insert_eq. clear. naive_solver.
    + exists (c1, Some other). split; [done|]. destruct Hcid as [->| ->]; [by left|by right].
Qed.
End close.

(** ** The operations of the service *)

Lemma shape_lookup ts p : shape ts !! p =
  (λ ctx, (h_connection_id (primary ctx), h_connection_id <$> secondary ctx)) <$> ts_connections ts !! p.
Proof. apply lookup_fmap. Qed.

Lemma shape_insert ts ts' p ctx : shape (ts_set_connections ts' (<[p := ctx]> (ts_connections ts))) =
  <[p := (h_connection_id (primary ctx), h_connection_id <$> secondary ctx)]> (shape ts).
Proof. unfold shape. cbn. by rewrite fmap_insert. Qed.

(** What only changes the handles and the tracker keeps the relation. *)
Lemma refines_shape l ts ts' c : refines l ts c → shape ts' = shape ts →
  ts_pending_outbound ts' = ts_pending_outbound ts → ts_pending_events ts' = ts_pending_events ts →
  ts_next_substream_id ts' = ts_next_substream_id ts → refines l ts' c.
Proof. unfold refines. by intros Hr -> -> -> ->. Qed.

Lemma on_handle_shape f ctx cid : (∀ h, h_connection_id (f h) = h_connection_id h) →
  h_connection_id (primary (on_handle f ctx cid)) = h_connection_id (primary ctx) ∧
  h_connection_id <$> secondary (on_handle f ctx cid) = h_connection_id <$> secondary ctx.
Proof.
  intros Hf. unfold on_handle. destruct ctx as [h [h2|]]; cbn; repeat case_match; cbn; by rewrite ?Hf.
Qed.

Lemma shape_on_handle f ts p ctx cid : (∀ h, h_connection_id (f h) = h_connection_id h) →
  ts_connections ts !! p = Some ctx →
  shape (ts_set_connections ts (<[p := on_handle f ctx cid]> (ts_connections ts))) = shape ts.
Proof.
  intros Hf Hp. rewrite shape_insert. destruct (on_handle_shape f ctx cid Hf) as [-> ->].
  apply insert_id. by rewrite shape_lookup, Hp.
Qed.

(** ** Connections that are established *)

Lemma linked_fresh sh pending l cid p x : linked sh pending l → up l !! cid = None →
  sh !! p = Some x → ¬ uses x cid.
Proof.
  intros Hl Hcid Hx Hux. assert (up l !! cid = Some p) by (apply Hl; eauto). congruence.
Qed.

Lemma linked_establish sh pending l p cid x : linked sh pending l → up l !! cid = None →
  (∀ cid', uses x cid' ↔ cid' = cid ∨ ∃ x0, sh !! p = Some x0 ∧ uses x0 cid') → x.2 ≠ Some x.1 →
  (∀ x0, sh !! p = Some x0 → x0.1 = x.1) →
  linked (<[p := x]> sh) pending (mkLinks (<[cid := p]> (up l)) (requested l)).
Proof.
  intros Hl Hcid Hx Htwo' Hfst. pose proof Hl as [Hup Htwo Hreq Hprim]. split; cbn; [|..|done|].
  - intros cid' p'. rewrite lookup_insert_Some, Hup. destruct (decide (p' = p)) as [->|Hpp].
    + rewrite lookup_insert_eq. split.
      * intros Hc. exists x. split; [done|]. apply Hx. destruct Hc as [[-> _]|[_ ?]]; auto.
      * intros (x' & [= <-] & Hc). destruct (decide (cid = cid')) as [->|Hne]; [by left|].
        apply Hx in Hc as [->|Hc]; [done|]. by right.
    + rewrite lookup_insert_ne by done. split; [intros [[_ ?]|[_ ?]]; [by subst|done]|].
      intros (x' & Hx' & Hu). right. split; [|by eauto]. intros ->. by eapply linked_fresh.
  - intros p' x'. rewrite lookup_insert_Some. intros [[_ <-]|[_ Hx']]; [done|by eapply Htwo].
  - intros id cid' (p' & x' & Hx' & Hxc)%Hprim. destruct (decide (p' = p)) as [->|Hpp].
    + exists p, x. rewrite lookup_insert_eq, <- (Hfst x') by done. done.
    + exists p', x'. by rewrite lookup_insert_ne.
Qed.

(** A second connection changes nothing of what the protocol knows. *)
Lemma agrees_second sh pending next q c p x x' : agrees sh pending next q [] false c →
  sh !! p = Some x → x'.1 = x.1 → agrees (<[p := x']> sh) pending next q [] false c.
Proof.
  rewrite !agrees_quiet. intros (Ho & Hc & Hu) Hp Hx. split_and!; [| |done].
  - intros id p'. rewrite Ho. destruct (decide (p' = p)) as [->|Hpp]; [|by rewrite lookup_insert_ne].
    rewrite lookup_insert_eq, Hp. split; intros (y & [= <-] & ?); eexists; (split; [done|]); congruence.
  - intros p'. rewrite Hc. destruct (decide (p' = p)) as [->|Hpp]; [|by rewrite lookup_insert_ne].
    rewrite lookup_insert_eq, Hp. by split; eexists.
Qed.

(** The first one makes the peer connected. *)
Lemma agrees_first sh pending next q c l p cid : linked sh pending l → up l !! cid = None →
  agrees sh pending next q [] false c → sh !! p = None →
  agrees (<[p := (cid, None)]> sh) pending next q [] false
    (mkContract ({[p]} ∪ connected c) (opening c) (used c)).
Proof.
  intros Hl Hcid. rewrite !agrees_quiet. intros (Ho & Hc & Hu) Hp. cbn. split_and!; [| |done].
  - intros id p'. rewrite Ho. destruct (decide (p' = p)) as [->|Hpp]; [|by rewrite lookup_insert_ne].
    rewrite lookup_insert_eq, Hp. split; [by intros (? & ? & _)|]. intros (x & [= <-] & Hid). cbn in Hid.
    destruct (linked_primary _ _ _ Hl _ _ Hid) as (p' & x & Hx & Hxc).
    destruct (linked_fresh _ _ _ _ _ _ Hl Hcid Hx). by left.
  - intros p'. rewrite elem_of_union, elem_of_singleton, Hc, lookup_insert_is_Some. clear.
    destruct (decide (p = p')); naive_solver.
Qed.

Lemma established_ok now l ts c p ep cid : refines l ts c → ts_pending_events ts = [] →
  up l !! cid = None → (∀ c1 c2, up l !! c1 = Some p → up l !! c2 = Some p → c1 = c2) →
  let l' := mkLinks (<[cid := p]> (up l)) (requested l) in
  ∃ ts' o, ts_on_connection_established now ts p ep cid (ConnectionHandle_new cid) = (ts', o) ∧
    ts_pending_events ts' = [] ∧
    match o with
    | Some e => ∃ c', delivers c e c' ∧ refines l' ts' c'
    | None => refines l' ts' c
    end.
Proof.
  intros Hr He Hcid Hone. cbn zeta. destruct (refines_quiet l ts c Hr He) as (Hwf & Hl & q & Ha).
  unfold ts_on_connection_established. pose proof (shape_lookup ts p) as Hsh.
  destruct (ts_connections ts !! p) as [[h [h2|]]|] eqn:Ep; cbn in Hsh |- *.
  - exfalso. apply (linked_two _ _ _ Hl p _ Hsh). cbn. f_equal.
    apply Hone; apply Hl; eexists; (split; [done|]); [by right|by left].
  - eexists _, _. split; [done|]. split; [done|]. pose proof (linked_fresh _ _ _ _ _ _ Hl Hcid Hsh) as Hnew.
    apply (refines_of_quiet _ _ _ q); [done| |done|]; rewrite shape_insert; [|by eapply agrees_second].
    apply linked_establish; [done..| | |rewrite Hsh; by intros ? [= <-]].
    + intros cid'. rewrite Hsh. unfold uses. cbn. clear. naive_solver.
    + cbn. intros [= ->]. apply Hnew. by left.
  - eexists _, _. split; [done|]. split; [done|]. assert (p ∉ connected c) as Hnc.
    { apply agrees_quiet in Ha as (_ & Hc & _). rewrite Hc, Hsh. by intros [? ?]. }
    eexists. split; [by apply D_established|]. pose proof (agrees_first _ _ _ _ _ _ _ _ Hl Hcid Ha Hsh) as Ha'.
    apply (refines_of_quiet _ _ _ q); [by eapply delivers_wf, (D_established c p ep)| |done|]; rewrite shape_insert; [|done].
    apply linked_establish; [done..| |done|by rewrite Hsh].
    intros cid'. rewrite Hsh. unfold uses. cbn. clear. naive_solver.
Qed.

Section service.
Context `{HashOrder} (debug : bool).

(** ** Connections that are closed, for the service *)

Lemma closing_events_app q ids last : closing_events q ids last =
  ((λ id, SvSubstreamOpenFailure id SeConnectionClosed) <$> ids) ++ (if last then [SvConnectionClosed q] else []).
Proof. done. Qed.

Lemma failed_ids (pending : gmap SubstreamId ConnectionId) cid :
  let ids := (map_order (filter (λ kv, kv.2 = cid) pending)).*1 in
  (∀ id, id ∈ ids ↔ pending !! id = Some cid) ∧ NoDup ids ∧
  (λ kv, SvSubstreamOpenFailure kv.1 SeConnectionClosed) <$> map_order (filter (λ kv, kv.2 = cid) pending) =
  (λ id, SvSubstreamOpenFailure id SeConnectionClosed) <$> ids.
Proof.
  cbn zeta. split_and!; [|apply map_order_keys_nodup|by rewrite <- list_fmap_compose].
  intros id. rewrite list_elem_of_fmap. split.
  - intros ([? ?] & -> & [? ?]%map_order_elem%map_lookup_filter_Some). naive_solver.
  - intros Hid. exists (id, cid). split; [done|]. by apply map_order_elem, map_lookup_filter_Some.
Qed.

Lemma closed_ok l ts c p cid : refines l ts c → ts_pending_events ts = [] → up l !! cid = Some p →
  ∃ ts', ts_on_connection_closed debug ts p cid = Done ts' ∧
    refines (mkLinks (delete cid (up l)) (filter (λ kv, kv.2 ≠ cid) (requested l))) ts' c.
Proof.
  intros Hr He Hcid. destruct (refines_quiet l ts c Hr He) as (Hwf & Hl & q & Ha).
  apply (linked_up _ _ _ Hl) in Hcid as (x & Hx & Hu). unfold ts_on_connection_closed. cbn [ts_connections ts_set_events ts_set_outbound ts_set_tracker].
  destruct (failed_ids (ts_pending_outbound ts) cid) as (Hids & Hnd & Hfail).
  pose proof (shape_lookup ts p) as Hsh. rewrite Hx in Hsh.
  destruct (ts_connections ts !! p) as [[h1 [h2|]]|] eqn:Ep; cbn in Hsh |- *; simplify_eq; unfold uses in Hu; cbn in Hu.
  - destruct (close_one _ _ _ _ _ _ p cid _ Hl Ha Hids Hnd _ _ Hx) as [Ha' Hl']; [naive_solver|].
    destruct (N.eqb_spec (h_connection_id h1) cid) as [E|E];
      [rewrite decide_True in Ha', Hl' by done|rewrite decide_False in Ha', Hl' by done];
      eexists; (split; [done|]); (split; [done|]); rewrite (shape_insert ts); (split; [done|]);
      exists p, (map_order (filter (λ kv, kv.2 = cid) (ts_pending_outbound ts))).*1, false; cbn;
      by rewrite He, Hfail, closing_events_app, app_nil_r.
  - destruct Hu as [->|?]; [|done]. rewrite N.eqb_refl.
    destruct (close_last _ _ _ _ _ _ p _ _ Hl Ha Hids Hnd Hx) as [Ha' Hl'].
    eexists. split; [done|]. split; [done|]. unfold shape. cbn. rewrite fmap_delete. split; [done|].
    exists p, (map_order (filter (λ kv, kv.2 = h_connection_id h1) (ts_pending_outbound ts))).*1, true.
    by rewrite He, Hfail.
Qed.

(** ** Substreams *)

Lemma linked_forget sh pending l id : linked sh pending l →
  linked sh (delete id pending) (mkLinks (up l) (delete id (requested l))).
Proof.
  intros [Hup Htwo <- Hprim]. split; [done..|]. intros id' cid [_ ?]%lookup_delete_Some. eauto.
Qed.

Lemma agrees_forget sh pending next q c id : agrees sh pending next q [] false c →
  agrees sh (delete id pending) next q [] false (mkContract (connected c) (delete id (opening c)) (used c)).
Proof.
  rewrite !agrees_quiet. intros (Ho & Hc & Hu). cbn. split_and!; [|done..].
  intros id' p. rewrite lookup_delete_Some, Ho. setoid_rewrite lookup_delete_Some. clear. naive_solver.
Qed.

(** The peer that a requested substream is opened to. *)
Lemma agrees_requested sh pending next q l c id cid p : linked sh pending l →
  agrees sh pending next q [] false c → requested l !! id = Some cid → up l !! cid = Some p →
  opening c !! id = Some p.
Proof.
  intros Hl Ha Hid Hcid. apply agrees_quiet in Ha as (Ho & _ & _). apply Ho.
  rewrite (linked_requested _ _ _ Hl) in Hid.
  destruct (linked_primary _ _ _ Hl _ _ Hid) as (p' & x & Hx & <-).
  assert (up l !! x.1 = Some p') as Hp' by (apply Hl; exists x; split; [done|by left]).
  exists x. split; [congruence|done].
Qed.

Lemma opened_ok l ts c e id p q : contract_wf c → linked (shape ts) (ts_pending_outbound ts) l →
  ts_pending_events ts = [] →
  agrees (shape ts) (ts_pending_outbound ts) (ts_next_substream_id ts) q [] false c →
  opening c !! id = Some p →
  delivers c e (mkContract (connected c) (delete id (opening c)) (used c)) →
  refines (mkLinks (up l) (delete id (requested l)))
    (ts_set_outbound ts (delete id (ts_pending_outbound ts)))
    (mkContract (connected c) (delete id (opening c)) (used c)).
Proof.
  intros Hwf Hl He Ha Hid Hd. apply (refines_of_quiet _ _ _ q); [by eapply delivers_wf| |done|].
  - by apply linked_forget.
  - by apply agrees_forget.
Qed.

(** The activity that a substream counts as changes only the tracker and the handles. *)
Lemma activity_ok now ch ts p cid (b : bool) ts' :
  ts' = (if b then
           let ts := ts_set_tracker ts (substream_activity now (ts_keep_alive ts) p cid) in
           match ts_connections ts !! p with
           | Some ctx => ts_set_connections ts (<[p := ctx_try_upgrade ch ctx cid]> (ts_connections ts))
           | None => ts
           end
         else ts) →
  shape ts' = shape ts ∧ ts_pending_outbound ts' = ts_pending_outbound ts ∧
  ts_pending_events ts' = ts_pending_events ts ∧ ts_next_substream_id ts' = ts_next_substream_id ts.
Proof.
  intros ->. destruct b; [|done]. cbn. destruct (ts_connections ts !! p) as [ctx|] eqn:Ep; [|done].
  split_and!; try done. by apply (shape_on_handle _ (ts_set_tracker ts _)).
Qed.

Lemma on_event_ok now ch l ts c ev l' : refines l ts c → ts_pending_events ts = [] → feeds l ev l' →
  ∃ ts' o, ts_on_event debug now ch ts ev = Done (ts', o) ∧
    match o with
    | Some e => ∃ c', delivers c e c' ∧ refines l' ts' c'
    | None => refines l' ts' c ∧ ts_pending_events ts' = []
    end.
Proof.
  intros Hr He Hf. pose proof (refines_quiet l ts c Hr He) as (Hwf & Hl & q & Ha).
  destruct Hf as [l p cid ep Hcid Hone|l p cid Hcid|l p a|l p proto fb cid s pm Hcid
    |l p proto fb id cid s pm Hcid Hid|l id cid e Hid]; cbn [ts_on_event].
  - destruct (established_ok now l ts c p ep cid Hr He Hcid Hone) as (ts' & o & -> & He' & Ho).
    eexists _, _. split; [done|]. by destruct o.
  - destruct (closed_ok l ts c p cid Hr He Hcid) as (ts' & -> & Hr'). cbn [outcome_bind].
    destruct (ts_pending_events ts') as [|e rest] eqn:E; eexists _, _; (split; [done|]); [done|].
    by eapply deliver_queued.
  - eexists _, _. split; [done|]. exists c. split; [constructor|done].
  - eexists _, _. split; [done|]. exists c. split.
    + constructor. apply agrees_quiet in Ha as (_ & Hc & _). apply Hc.
      apply (linked_up _ _ _ Hl) in Hcid as (x & Hx & _). by eexists.
    + eapply refines_shape; [done|..]; by edestruct activity_ok as (? & ? & ? & ?).
  - assert (opening c !! id = Some p) as Hop by by eapply agrees_requested.
    pose proof (D_outbound c p proto fb id s Hop) as Hd. eexists _, _. split; [done|].
    eexists. split; [done|]. eapply refines_shape; [by eapply opened_ok|..];
      by edestruct (activity_ok now (holding pm ch) (ts_set_outbound ts (delete id (ts_pending_outbound ts))) p cid)
        as (? & ? & ? & ?).
  - assert (requested l !! id = Some cid) as Hid' by done. rewrite (linked_requested _ _ _ Hl) in Hid'.
    destruct (linked_primary _ _ _ Hl _ _ Hid') as (p & x & Hx & <-).
    assert (up l !! x.1 = Some p) as Hup by (apply Hl; exists x; split; [done|by left]).
    assert (opening c !! id = Some p) as Hop by by eapply agrees_requested.
    pose proof (D_open_failure c id e p Hop) as Hd. eexists _, _. split; [done|].
    eexists. split; [done|]. by eapply opened_ok.
Qed.

Lemma receive_ok now ch closed rx : ∀ l ts c l', refines l ts c → ts_pending_events ts = [] → fed l rx l' →
  ∃ ts' rest poll seen l1, ts_receive debug now ch ts rx closed = Done (ts', rest, poll) ∧
    rx = seen ++ rest ∧ fed l seen l1 ∧ fed l1 rest l' ∧
    match poll with
    | Ready (Some e) => ∃ c', delivers c e c' ∧ refines l1 ts' c'
    | _ => refines l1 ts' c
    end.
Proof.
  induction rx as [|ev rx IH]; intros l ts c l' Hr He Hfed; cbn [ts_receive].
  { inversion Hfed; subst. eexists _, _, _, [], _. split; [done|]. split; [done|].
    split; [constructor|]. split; [constructor|]. by destruct closed. }
  inversion Hfed as [|? ? l1 ? ? Hf Hrest]; subst.
  destruct (on_event_ok now ch l ts c ev l1 Hr He Hf) as (ts1 & o & -> & Ho). cbn [outcome_bind].
  destruct o as [e|].
  - eexists _, _, _, [ev], l1. split; [done|]. split; [done|]. split; [by repeat econstructor|]. by split.
  - destruct Ho as [Hr1 He1]. destruct (IH l1 ts1 c l' Hr1 He1 Hrest) as (ts' & rest & poll & seen & l2 & -> & -> & ? & ? & ?).
    eexists _, _, _, (ev :: seen), l2. split; [done|]. split; [done|]. split; [by econstructor|]. by split.
Qed.

Lemma expire_shape `{SleepQueue} fuel now : ∀ ts, let ts' := ts_expire fuel now ts in
  shape ts' = shape ts ∧ ts_pending_outbound ts' = ts_pending_outbound ts ∧
  ts_pending_events ts' = ts_pending_events ts ∧ ts_next_substream_id ts' = ts_next_substream_id ts.
Proof.
  induction fuel as [|fuel IH]; intros ts; cbn zeta; [done|]. cbn [ts_expire].
  destruct (ka_poll_next now (ts_keep_alive ts)) as [ka [|[p cid]]]; [done|].
  cbn [ts_connections ts_set_tracker]. destruct (ts_connections ts !! p) as [ctx|] eqn:Ep.
  - destruct (IH (ts_set_connections (ts_set_tracker ts ka)
      (<[p := ctx_downgrade ctx cid]> (ts_connections (ts_set_tracker ts ka))))) as (Hs & Hp & He & Hn).
    split_and!; [|exact Hp|exact He|exact Hn]. etrans; [exact Hs|].
    by apply (shape_on_handle _ (ts_set_tracker ts ka)).
  - apply (IH (ts_set_tracker ts ka)).
Qed.

(** ** Polls and calls *)

Lemma poll_ok `{SleepQueue} now ch closed rx l ts c l' : refines l ts c → fed l rx l' →
  ∃ ts' rest poll seen l1, ts_poll_next debug now ch ts rx closed = Done (ts', rest, poll) ∧
    rx = seen ++ rest ∧ fed l seen l1 ∧ fed l1 rest l' ∧
    match poll with
    | Ready (Some e) => ∃ c', delivers c e c' ∧ refines l1 ts' c'
    | _ => refines l1 ts' c
    end.
Proof.
  intros Hr Hfed. unfold ts_poll_next. destruct (ts_pending_events ts) as [|e rest] eqn:He.
  - destruct (receive_ok now ch closed rx l ts c l' Hr He Hfed) as (ts' & rest & poll & seen & l1 & -> & Hrx & ? & ? & Hp).
    cbn [outcome_bind]. destruct poll as [|o]; eexists _, _, _, seen, l1; (split; [done|]); [|done].
    split_and!; try done. destruct (expire_shape (S (length (pending_keep_alive_timeouts (ts_keep_alive ts')))) now ts')
      as (? & ? & ? & ?). by eapply refines_shape.
  - eexists _, _, _, [], l. split; [done|]. split; [done|]. split; [constructor|]. split; [done|].
    by eapply deliver_queued.
Qed.

Lemma linked_ask sh pending l id p x : linked sh pending l → sh !! p = Some x →
  linked sh (<[id := x.1]> pending) (mkLinks (up l) (<[id := x.1]> (requested l))).
Proof.
  intros [Hup Htwo <- Hprim] Hx. split; [done..|].
  intros id' cid [[_ <-]|[_ ?]]%lookup_insert_Some; [by exists p, x|eauto].
Qed.

Lemma agrees_ask sh pending next l q ids last c p x : linked sh pending l → contract_wf c →
  agrees sh pending next q ids last c → sh !! p = Some x →
  agrees sh (<[next := x.1]> pending) (next + 1)%N q ids last
    (mkContract (connected c) (<[next := p]> (opening c)) ({[next]} ∪ used c)).
Proof.
  intros Hl Hwf [Hnd Hf Hla Ho Hc Hu] Hx.
  assert (next ∉ ids) as Hnin.
  { intros Hin. destruct (Hwf next q) as [_ Hused%Hu]; [apply Ho; by right|lia]. }
  split; cbn; [done| |done| |done|].
  - intros id Hid. rewrite lookup_insert_ne; [by apply Hf|]. by intros ->.
  - intros id p'. rewrite lookup_insert_Some, Ho. destruct (decide (id = next)) as [->|Hne].
    + rewrite lookup_insert_eq. split.
      * intros [[_ <-]|[? _]]; [left; by exists x|done].
      * intros [(x' & Hx' & [= Heq])|[? _]]; [left|done]. split; [done|].
        eapply (linked_inj sh pending l p x p' x' x.1); [done..|by left|by left].
    + rewrite lookup_insert_ne by done. clear -Hne. naive_solver.
  - intros id [->%elem_of_singleton|?%Hu]%elem_of_union; lia.
Qed.

Lemma agrees_next sh pending next next' q ids last c : agrees sh pending next q ids last c →
  (next ≤ next')%N → agrees sh pending next' q ids last c.
Proof. intros [? ? ? ? ? Hu] Hle. split; try done. intros id ?%Hu. lia. Qed.

Lemma open_ok now ch l ts c p ts' cmd r : refines l ts c → (ts_next_substream_id ts < usize_max)%N →
  ts_open_substream now ch ts p = (ts', cmd, r) →
  ∃ c', opens p c r c' ∧ refines (ask l cmd) ts' c'.
Proof.
  intros Hr Hn Heq. unfold ts_open_substream in Heq. pose proof (shape_lookup ts p) as Hsh.
  destruct (ts_connections ts !! p) as [ctx|] eqn:Ep; [|simplify_eq; exists c; split; [constructor|done]].
  destruct (try_get_permit ch (primary ctx)) as [pm|]; [|simplify_eq; exists c; split; [constructor|done]].
  cbn in Hsh. set (ts1 := ts_set_counter ts (usize_wrapping_add (ts_next_substream_id ts) 1)) in *.
  destruct (match ts_substream_keep_alive ts1 with KaYes => _ | KaNo => _ end) as [ts2 h] eqn:Eka.
  assert (shape ts2 = shape ts ∧ ts_pending_outbound ts2 = ts_pending_outbound ts ∧
    ts_pending_events ts2 = ts_pending_events ts ∧ ts_next_substream_id ts2 = (ts_next_substream_id ts + 1)%N ∧
    h_connection_id h = h_connection_id (primary ctx)) as (Hs2 & Hp2 & He2 & Hn2 & Hh).
  { destruct (ts_substream_keep_alive ts1); simplify_eq; cbn; rewrite wrapping_succ by done; split_and!; try done.
    unfold shape. cbn. rewrite fmap_insert. by apply insert_id. }
  destruct Hr as (Hwf & Hl & q & ids & last & He & Ha).
  assert (∀ id cmd', r = Ok id → cmd = Some cmd' → ts' = ts_set_outbound ts2
    (<[ts_next_substream_id ts := h_connection_id (primary ctx)]> (ts_pending_outbound ts2)) →
    id = ts_next_substream_id ts → ask l cmd = mkLinks (up l) (<[id := h_connection_id (primary ctx)]> (requested l)) →
    ∃ c', opens p c r c' ∧ refines (ask l cmd) ts' c') as Hok.
  { intros id cmd' -> -> -> -> ->. assert (p ∈ connected c) as Hpc.
    { apply (agrees_connected _ _ _ _ _ _ _ Ha). left. rewrite Hsh. by eexists. }
    assert (ts_next_substream_id ts ∉ used c) as Hnu.
    { intros Hin%(agrees_used _ _ _ _ _ _ _ Ha). lia. }
    pose proof (O_ok p c _ Hpc Hnu) as Hopen. eexists. split; [done|].
    split; [by eapply opens_wf|]. unfold ts_set_outbound, shape. cbn. fold (shape ts2). rewrite Hs2, Hp2, He2, Hn2.
    split; [by apply (linked_ask _ _ _ _ p _ Hl Hsh)|]. exists q, ids, last. split; [done|].
    by apply (agrees_ask _ _ _ l _ _ _ _ p _ Hl Hwf Ha Hsh). }
  assert (∀ e, r = Err e → cmd = None → ts' = ts2 → ∃ c', opens p c r c' ∧ refines (ask l cmd) ts' c') as Herr.
  { intros e -> -> ->. exists c. split; [constructor|]. split; [done|]. rewrite Hs2, Hp2, He2, Hn2. split; [done|].
    exists q, ids, last. split; [done|]. eapply agrees_next; [done|lia]. }
  unfold handle_open_substream in Heq. destruct (sender _ h); [|simplify_eq; by eapply Herr].
  destruct (send _ _) as [[]|[]]; simplify_eq; [|by eapply Herr..].
  eapply Hok; try done. cbn. by rewrite Hh.
Qed.
End service.
