(* ===== verification/TransportServiceRuns.v ===== *)
(** * Runs of the transport service

    The service polls and its protocol opens substreams, in any order: the runs refine the
    contract, and every substream gets one result. *)

From stdpp Require Import base tactics option list gmap strings relations.
From Stdlib Require Import NArith Lia Init.Byte.
From S2P Require Import Prelude Multiaddr AddressStore PeerState ConnectionLimits TransportManager.
From S2P Require Import TransportManagerHandle ProtocolTypes ProtocolSet TransportService TransportServiceFacts.

Local Open Scope litep2p_scope.

(** What the protocol sees of a step: an event, the answer to a call, or nothing. *)
Inductive TsAction :=
| TaDelivered (e : ServiceEvent)
| TaOpened (p : PeerId) (r : result SubstreamError SubstreamId)
| TaQuiet.

(** The state of a run: the service, its connections and the clock. *)
Notation TsState := (TransportService * Links * N)%type.

(** A poll, with what waits in the channel from the connections; a call of [open_substream]; a
    substream identifier that someone else takes. Identifiers do not run out and the clock does
    not go back. *)
Inductive ts_step `{HashOrder, SleepQueue} (debug : bool) : TsState → TsAction → TsState → Prop :=
| T_poll ts l t now ch rx closed l' ts' seen rest l1 poll :
    (t ≤ now)%N → fed l rx l' → ts_poll_next debug now ch ts rx closed = Done (ts', rest, poll) →
    rx = seen ++ rest → fed l seen l1 →
    ts_step debug (ts, l, t) (match poll with Ready (Some e) => TaDelivered e | _ => TaQuiet end) (ts', l1, now)
| T_open ts l t now ch p ts' cmd r :
    (t ≤ now)%N → (ts_next_substream_id ts < usize_max)%N → ts_open_substream now ch ts p = (ts', cmd, r) →
    ts_step debug (ts, l, t) (TaOpened p r) (ts', ask l cmd, now)
| T_counter ts l t n :
    (ts_next_substream_id ts ≤ n ≤ usize_max)%N →
    ts_step debug (ts, l, t) TaQuiet (ts_set_counter ts n, l, t).

(** The same, for the contract. *)
Inductive contract_step : Contract → TsAction → Contract → Prop :=
| K_delivers c e c' : delivers c e c' → contract_step c (TaDelivered e) c'
| K_opens c p r c' : opens p c r c' → contract_step c (TaOpened p r) c'
| K_quiet c : contract_step c TaQuiet c.

(** ** Refinement *)

Lemma feeds_det l e l1 l2 : feeds l e l1 → feeds l e l2 → l1 = l2.
Proof. intros H1 H2. destruct H1; inversion H2; by subst. Qed.

Lemma fed_det l rx l1 l2 : fed l rx l1 → fed l rx l2 → l1 = l2.
Proof.
  intros H1. revert l2. induction H1 as [|l e l1 rx l2 Hf _ IH]; intros l3 H3; inversion H3; subst; [done|].
  apply IH. by rewrite (feeds_det l e l1 l4).
Qed.

Lemma refines_init protocol fallbacks n timeout ka :
  refines Links_init (TransportService_new protocol fallbacks n timeout ka) Contract_init.
Proof.
  unfold refines. replace (shape _) with (∅ : gmap PeerId (ConnectionId * option ConnectionId)) by done.
  split; [apply contract_wf_init|]. split.
  - split; cbn; [|intros ? ?; by rewrite lookup_empty|done|intros ? ?; by rewrite lookup_empty].
    intros cid p. rewrite !lookup_empty. naive_solver.
  - exists (mkPeerId (mkMultihash 0 [])), [], false. split; [done|]. apply agrees_quiet. cbn.
    split_and!; [|intros p; rewrite lookup_empty, is_Some_alt; set_solver|set_solver].
    intros id p. rewrite !lookup_empty. naive_solver.
Qed.

(** ** Protocols on top of the service

    The service carries out what a handler asks of it; [sv] has the answers the handler got. *)
Inductive serves `{Asks E} (now : N) (ch : ChannelState) (sv : ServiceAnswers) :
    TransportService * Links → list E → TransportService * Links → Prop :=
| V_nil s : serves now ch sv s [] s
| V_open ts l e p ts1 cmd eff s :
    asks e = Some p → (ts_next_substream_id ts < usize_max)%N →
    ts_open_substream now ch ts p = (ts1, cmd, sv_open sv p) →
    serves now ch sv (ts1, ask l cmd) eff s → serves now ch sv (ts, l) (e :: eff) s
| V_other s e eff s' :
    asks e = None → serves now ch sv s eff s' → serves now ch sv s (e :: eff) s'.

Lemma serves_calls `{Asks E} now ch sv s (eff : list E) s' c : serves now ch sv s eff s' →
  refines s.2 s.1 c → ∃ c', calls sv c eff c' ∧ refines s'.2 s'.1 c'.
Proof.
  intros Hs. revert c. induction Hs as [s|ts l e p ts1 cmd eff s He Hn Ho _ IH|s e eff s' He _ IH]; intros c Hr.
  - exists c. split; [constructor|done].
  - destruct (open_ok now ch l ts c p ts1 cmd _ Hr Hn Ho) as (c1 & Hop & Hr1).
    destruct (IH c1 Hr1) as (c2 & ? & ?). exists c2. split; [by eapply C_open|done].
  - destruct (IH c Hr) as (c' & ? & ?). exists c'. split; [by apply C_other|done].
Qed.

(** A poll of the service, seen from the contract. *)
Lemma polled_contract `{HashOrder, SleepQueue} debug now ch ts l c rx closed l' ts1 seen rest l1 poll :
  refines l ts c → fed l rx l' →
  ts_poll_next debug now ch ts rx closed = Done (ts1, rest, poll) → rx = seen ++ rest → fed l seen l1 →
  match poll with
  | Ready (Some e) => ∃ c', delivers c e c' ∧ refines l1 ts1 c'
  | _ => refines l1 ts1 c
  end.
Proof.
  intros Hr Hfed Heq Hrx Hseen. destruct (poll_ok debug now ch closed rx l ts c l' Hr Hfed)
    as (ts2 & rest2 & poll2 & seen2 & l2 & Heq2 & Hrx2 & Hseen2 & _ & Hp).
  rewrite Heq in Heq2. simplify_eq. apply (f_equal reverse) in Hrx2. rewrite !reverse_app in Hrx2.
  simplify_list_eq. by rewrite (fed_det l seen2 l1 l2).
Qed.

Lemma refines_counter l ts c n : refines l ts c → (ts_next_substream_id ts ≤ n)%N →
  refines l (ts_set_counter ts n) c.
Proof.
  intros (Hwf & Hl & q & ids & last & He & Ha) Hn. split; [done|]. split; [done|].
  exists q, ids, last. split; [done|]. by eapply agrees_next.
Qed.

(** ** Substreams and their results *)

(** The result of the substream [id] arrives. *)
Definition is_result (id : SubstreamId) (a : TsAction) : bool :=
  match a with
  | TaDelivered (SvSubstreamOpened _ _ _ (Outbound i) _) | TaDelivered (SvSubstreamOpenFailure i _) => (i =? id)%N
  | _ => false
  end.

(** The identifier [id] is given out. *)
Definition is_given (id : SubstreamId) (a : TsAction) : bool :=
  match a with TaOpened _ (Ok i) => (i =? id)%N | _ => false end.

Definition outstanding (c : Contract) (id : SubstreamId) : nat :=
  match opening c !! id with Some _ => 1 | None => 0 end.

Lemma outstanding_delete con opn usd i id :
  outstanding (mkContract con (delete i opn) usd) id = if (i =? id)%N then 0 else outstanding (mkContract con opn usd) id.
Proof.
  unfold outstanding. cbn. destruct (N.eqb_spec i id) as [->|Hne]; [by rewrite lookup_delete_eq|].
  by rewrite lookup_delete_ne.
Qed.

(** One step keeps the balance, does not give an identifier twice, and keeps the peers of the
    substreams that are opening. *)
Lemma contract_step_account c a c' id : contract_wf c → contract_step c a c' →
  (if is_result id a then 1 else 0) + outstanding c' id = (if is_given id a then 1 else 0) + outstanding c id ∧
  (is_given id a = true → id ∉ used c ∧ id ∈ used c') ∧ (id ∈ used c → id ∈ used c') ∧
  (∀ p, opening c' !! id = Some p → opening c !! id = Some p ∨ a = TaOpened p (Ok id)).
Proof.
  intros Hwf Hk. destruct Hk as [c e c' Hd|c p r c' Ho|c]; [destruct Hd|destruct Ho|]; cbn;
    rewrite ?outstanding_delete; split_and!; try done; try (by auto);
    try (intros p' [_ ?]%lookup_delete_Some; by left).
  - destruct (N.eqb_spec id0 id) as [->|]; [|by destruct c]. unfold outstanding. by rewrite H.
  - destruct (N.eqb_spec id0 id) as [->|]; [|by destruct c]. unfold outstanding. by rewrite H.
  - unfold outstanding. cbn. destruct (N.eqb_spec id0 id) as [->|Hne].
    + rewrite lookup_insert_eq. destruct (opening c !! id) eqn:E; [|done]. by destruct (Hwf _ _ E).
    + by rewrite lookup_insert_ne.
  - intros ->%N.eqb_eq. set_solver.
  - set_solver.
  - intros p' [[-> ->]|[_ ?]]%lookup_insert_Some; auto.
Qed.

Lemma contract_step_wf c a c' : contract_wf c → contract_step c a c' → contract_wf c'.
Proof. intros Hwf Hk. destruct Hk; eauto with litep2p. Qed.

Lemma contract_account c tr c' id : contract_wf c → steps contract_step c tr c' →
  count (is_result id) tr + outstanding c' id = count (is_given id) tr + outstanding c id ∧
  count (is_given id) tr ≤ 1 ∧ (id ∈ used c → count (is_given id) tr = 0) ∧
  ∀ p, opening c' !! id = Some p → opening c !! id = Some p ∨ TaOpened p (Ok id) ∈ tr.
Proof.
  intros Hwf Hs. induction Hs as [c|c a c1 tr c2 Hk _ IH]; cbn [count].
  { split_and!; [done|lia|done|auto]. }
  destruct (contract_step_account c a c1 id Hwf Hk) as (Hb & Hg & Hu & Hp).
  destruct (IH (contract_step_wf _ _ _ Hwf Hk)) as (Hb' & Hle & Hz & Hp').
  split_and!; [lia| | |].
  - destruct (is_given id a) eqn:E; [|done]. rewrite Hz by by apply Hg. lia.
  - intros Hin. rewrite Hz by by apply Hu. destruct (is_given id a) eqn:E; [|done]. by destruct (Hg eq_refl).
  - intros p [[?| ->]%Hp|Hin]%Hp'; [by left|right; left|right; by right].
Qed.

(** The peer an identifier was given out for. *)
Lemma given_peer c tr c' id p p' : contract_wf c → steps contract_step c tr c' →
  TaOpened p (Ok id) ∈ tr → opening c' !! id = Some p' → p = p'.
Proof.
  intros Hwf Hs Hin Hop. revert Hwf Hin. induction Hs as [c|c a c1 tr c2 Hk Hs IH]; intros Hwf Hin;
    [by apply not_elem_of_nil in Hin|]. pose proof (contract_step_wf _ _ _ Hwf Hk) as Hwf1.
  apply elem_of_cons in Hin as [<-|Hin]; [|by apply IH].
  destruct (contract_step_account c _ c1 id Hwf Hk) as (_ & Hg & _ & _).
  destruct Hg as [Hn Hu]; [cbn; apply N.eqb_refl|].
  destruct (contract_account c1 tr c2 id Hwf1 Hs) as (_ & _ & Hz & Hp). specialize (Hz Hu).
  inversion Hk as [|? ? ? ? Ho|]; subst. inversion Ho; subst. destruct (Hp p' Hop) as [H1|H1].
  - cbn in H1. rewrite lookup_insert_eq in H1. by simplify_eq.
  - apply (count_pos (is_given id)) in H1; [lia|cbn; apply N.eqb_refl].
Qed.

Section runs.
Context `{HashOrder, SleepQueue} (debug : bool).

Lemma ts_step_simulated s a s' c : ts_step debug s a s' → refines s.1.2 s.1.1 c →
  ∃ c', contract_step c a c' ∧ refines s'.1.2 s'.1.1 c'.
Proof.
  intros Hs Hr. destruct Hs as [ts l t now ch rx closed l' ts' seen rest l1 poll Ht Hfed Heq Hrx Hseen
    |ts l t now ch p ts' cmd r Ht Hn Heq|ts l t n Hn]; cbn in *.
  - pose proof (polled_contract debug now ch ts l c rx closed l' ts' seen rest l1 poll Hr Hfed Heq Hrx Hseen) as Hp.
    destruct poll as [|[e|]]; [exists c; split; [constructor|done]| |exists c; split; [constructor|done]].
    destruct Hp as (c' & ? & ?). exists c'. split; [by constructor|done].
  - destruct (open_ok now ch l ts c p ts' cmd r Hr Hn Heq) as (c' & ? & ?). exists c'. split; [by constructor|done].
  - exists c. split; [constructor|]. apply refines_counter; [done|lia].
Qed.

(** C4. The transport service refines its contract: whatever the connections report, with at most two
    of them to a peer, and however polls and calls interleave, a poll does not panic (in
    particular no assertion fails), and the sequence of events handed to the protocol and of
    answers to [open_substream] is one the contract allows. *)
Theorem service_refines_contract protocol fallbacks n timeout ka t0 tr ts l t :
  steps (ts_step debug) (TransportService_new protocol fallbacks n timeout ka, Links_init, t0) tr (ts, l, t) →
  (∃ c, steps contract_step Contract_init tr c ∧ refines l ts c) ∧
  ∀ now ch rx closed l', fed l rx l' → ts_poll_next debug now ch ts rx closed ≠ Panic.
Proof.
  intros Hrun. destruct (steps_simulation (ts_step debug) contract_step (λ s c, refines s.1.2 s.1.1 c)
    ts_step_simulated _ _ _ _ Hrun (refines_init _ _ _ _ _)) as (c & Hc & Hr).
  split; [by exists c|]. intros now ch rx closed l' Hfed.
  destruct (poll_ok debug now ch closed rx l ts c l' Hr Hfed) as (? & ? & ? & ? & ? & -> & _). done.
Qed.

(** C17. No request for a substream is lost or answered twice: each identifier that [open_substream]
    gives out gets at most one result; as long as it has none, the substream was asked for on
    a connection to the peer that is up, or its failure waits to be delivered; and once there is
    no connection to the peer any more and no event waits, it has got its result. *)
Theorem substream_answered_once protocol fallbacks n timeout ka t0 tr ts l t p id :
  steps (ts_step debug) (TransportService_new protocol fallbacks n timeout ka, Links_init, t0) tr (ts, l, t) →
  TaOpened p (Ok id) ∈ tr →
  count (is_result id) tr ≤ 1 ∧
  (count (is_result id) tr = 0 →
     (∃ cid, requested l !! id = Some cid ∧ up l !! cid = Some p) ∨
     SvSubstreamOpenFailure id SeConnectionClosed ∈ ts_pending_events ts) ∧
  (ts_connections ts !! p = None → ts_pending_events ts = [] → count (is_result id) tr = 1).
Proof.
  intros Hrun Hin. destruct (steps_simulation (ts_step debug) contract_step (λ s c, refines s.1.2 s.1.1 c)
    ts_step_simulated _ _ _ _ Hrun (refines_init _ _ _ _ _)) as (c & Hc & _ & Hl & q & ids & last & He & Ha).
  destruct (contract_account _ _ _ id contract_wf_init Hc) as (Hb & Hle & _ & _).
  pose proof (count_pos (is_given id) tr _ Hin (N.eqb_refl id)) as Hpos.
  replace (outstanding Contract_init id) with 0 in Hb by done. cbn in Hl, He, Ha.
  assert (count (is_result id) tr = 0 → opening c !! id = Some p) as Hopen.
  { unfold outstanding in Hb. destruct (opening c !! id) as [p'|] eqn:E; [|lia].
    intros _. by rewrite (given_peer _ _ _ _ _ _ contract_wf_init Hc Hin E). }
  split_and!; [lia| |].
  - intros Hz. apply (agrees_opening _ _ _ _ _ _ _ Ha) in Hopen as [(x & Hx & Hid)|[Hid ->]]; [left|right|done].
    + exists x.1. rewrite (linked_requested _ _ _ Hl). split; [done|]. apply Hl. exists x. split; [done|by left].
    + rewrite He. apply elem_of_app. left. apply list_elem_of_fmap. eauto.
  - intros Hp Hev. destruct (count (is_result id) tr) as [|[|k]] eqn:E; [|done|lia]. exfalso.
    rewrite He in Hev. apply closing_events_nil in Hev as [-> ->].
    apply (agrees_opening _ _ _ _ _ _ _ Ha) in Hopen as [(x & Hx & _)|[Hid _]]; [|by apply not_elem_of_nil in Hid|done].
    rewrite shape_lookup, Hp in Hx. done.
Qed.
End runs.

(** ** A run

    A connection is established, a substream is asked for, and the connection closes. *)
Module ServiceExample.
Definition peer : PeerId := mkPeerId (mkMultihash 0 [x01]).
Definition channels : ChannelState := mkChannelState (λ _, true) (λ _, Ok tt).
#[local] Existing Instance canonical_order.
#[local] Existing Instance eager_sleep.

Definition polled (now : N) (ts : TransportService) (rx : list InnerTransportEvent) : TransportService :=
  match ts_poll_next true now channels ts rx false with Done (ts, _, _) => ts | Panic => ts end.
Definition ts0 := TransportService_new "/notif/1" [] 0 5 KaYes.
Definition ts1 := polled 1 ts0 [ItConnectionEstablished peer 3 (Listener [] 3) (ConnectionHandle_new 3)].
Definition ts2 := (ts_open_substream 2 channels ts1 peer).1.1.
Definition ts3 := polled 3 ts2 [ItConnectionClosed peer 3].
Definition ts4 := polled 3 ts3 [].
Definition trace : list TsAction :=
  [TaDelivered (SvConnectionEstablished peer (Listener [] 3)); TaOpened peer (Ok 0%N);
   TaDelivered (SvSubstreamOpenFailure 0 SeConnectionClosed); TaDelivered (SvConnectionClosed peer)].
Definition up1 := mkLinks {[3%N := peer]} ∅.
Definition up2 := mkLinks {[3%N := peer]} {[0%N := 3%N]}.

Lemma established_fed : fed Links_init
  [ItConnectionEstablished peer 3 (Listener [] 3) (ConnectionHandle_new 3)] up1.
Proof. econstructor; [apply F_established; [done|by intros ? ?]|constructor]. Qed.

Lemma closed_fed : fed up2 [ItConnectionClosed peer 3] Links_init.
Proof. econstructor; [by apply F_closed|]. vm_compute. constructor. Qed.

Lemma first_steps : steps (ts_step true) (ts0, Links_init, 0%N)
  [TaDelivered (SvConnectionEstablished peer (Listener [] 3))] (ts1, up1, 1%N).
Proof.
  eapply steps_cons; [|constructor].
  eapply (T_poll true ts0 Links_init 0 1 channels _ false up1 ts1 [_] [] up1 (Ready (Some _)));
    [done|apply established_fed|vm_compute; reflexivity|done|apply established_fed].
Qed.

Lemma service_run : steps (ts_step true) (ts0, Links_init, 0%N) trace (ts4, Links_init, 3%N).
Proof.
  pose proof first_steps as Hrun. inversion Hrun as [|? ? ? ? ? Hfirst Hnil]; subst. inversion Hnil; subst.
  eapply steps_cons; [done|]. eapply steps_cons.
  { apply (T_open true ts1 up1 1 2 channels peer ts2 (Some (PcOpenSubstream "/notif/1" [] 0 3 3 KaYes)));
      [done|done|vm_compute; reflexivity]. }
  change (ask up1 _) with up2. eapply steps_cons.
  { eapply (T_poll true ts2 up2 2 3 channels _ false Links_init ts3 [_] [] Links_init (Ready (Some _)));
      [done|apply closed_fed|vm_compute; reflexivity|done|apply closed_fed]. }
  eapply steps_cons; [|constructor].
  eapply (T_poll true ts3 Links_init 3 3 channels [] false Links_init ts4 [] [] Links_init (Ready (Some _)));
    [done|constructor|vm_compute; reflexivity|done|constructor].
Qed.
End ServiceExample.

Lemma service_refines_contract_witness : let _ := canonical_order in let _ := eager_sleep in
  ∃ c, steps contract_step Contract_init ServiceExample.trace c.
Proof.
  cbv zeta. destruct (service_refines_contract (H := canonical_order) (H0 := eager_sleep) true _ _ _ _ _ _ _ _ _ _
    ServiceExample.service_run) as [(c & Hc & _) _]. by exists c.
Defined.

Lemma substream_answered_once_witness : count (is_result 0) ServiceExample.trace = 1.
Proof.
  apply (substream_answered_once (H := canonical_order) (H0 := eager_sleep) true _ _ _ _ _ _ _ _ _ _
    ServiceExample.peer 0 ServiceExample.service_run); [right; left|by vm_compute|by vm_compute].
Defined.
