(* ===== verification/KeepAliveFacts.v ===== *)
(** * Idle connections are let go

    The keep-alive tracker of the transport service: every connection that a protocol keeps
    active has a timer, connections are given up only when they were idle for the timeout, and
    polling gives up all that were. *)

From stdpp Require Import base tactics option list gmap strings relations.
From Stdlib Require Import NArith Lia Init.Byte.
From S2P Require Import Prelude Multiaddr AddressStore PeerState ConnectionLimits TransportManager.
From S2P Require Import TransportManagerHandle ProtocolTypes ProtocolSet TransportService TransportServiceFacts.
From S2P Require Import TransportServiceRuns.

Local Open Scope litep2p_scope.

(** ** Timers *)

(** Every tracked connection has a timer that is due when the connection has been idle for the
    timeout, or before. *)
Definition timers_ok (now : N) (ka : KeepAliveTracker) : Prop :=
  ∀ key last, last_activity ka !! key = Some last → (last ≤ now)%N ∧
    ∃ d, (key, d) ∈ pending_keep_alive_timeouts ka ∧ (d ≤ last + keep_alive_timeout ka)%N.

Lemma timers_ok_later now now' ka : timers_ok now ka → (now ≤ now')%N → timers_ok now' ka.
Proof. intros Hok Hle key last Hk. destruct (Hok key last Hk) as [? ?]. split; [lia|done]. Qed.

Lemma substream_activity_ok t now ka p cid : timers_ok t ka → (t ≤ now)%N →
  timers_ok now (substream_activity now ka p cid).
Proof.
  intros Hok Ht key last. cbn. intros [[<- <-]|[Hne Hk]]%lookup_insert_Some.
  - split; [lia|]. destruct (last_activity ka !! (p, cid)) as [last|] eqn:E.
    + destruct (Hok _ _ E) as (? & d & ? & ?). exists d. split; [done|lia].
    + eexists. split; [apply elem_of_app; right; by apply list_elem_of_singleton|lia].
  - destruct (Hok _ _ Hk) as (? & d & Hin & ?). split; [lia|]. exists d. split; [|done].
    destruct (last_activity ka !! (p, cid)); [done|]. apply elem_of_app. by left.
Qed.

Lemma ka_closed_ok now ka p cid : timers_ok now ka → timers_ok now (ka_on_connection_closed ka p cid).
Proof. intros Hok key last. cbn. intros [_ Hk]%lookup_delete_Some. by apply Hok. Qed.

Section sleep.
Context `{SleepQueue}.

(** The three things a poll may do with a timer that is done, or nothing. *)
Lemma ka_poll_next_spec now ka ka' r : timers_ok now ka → ka_poll_next now ka = (ka', r) →
  (ka' = ka ∧ r = Prelude.Pending ∧ poll_sleep now (pending_keep_alive_timeouts ka) = None) ∨
  ∃ i key d, pending_keep_alive_timeouts ka !! i = Some (key, d) ∧ (d ≤ now)%N ∧
    keep_alive_timeout ka' = keep_alive_timeout ka ∧
    ((last_activity ka !! key = None ∧ r = Prelude.Pending ∧ last_activity ka' = last_activity ka ∧
      pending_keep_alive_timeouts ka' = take_nth (pending_keep_alive_timeouts ka) i) ∨
     ∃ last, last_activity ka !! key = Some last ∧
      ((now < last + keep_alive_timeout ka)%N ∧ r = Prelude.Pending ∧ last_activity ka' = last_activity ka ∧
       pending_keep_alive_timeouts ka' =
         take_nth (pending_keep_alive_timeouts ka) i ++ [(key, (last + keep_alive_timeout ka)%N)] ∨
       (last + keep_alive_timeout ka ≤ now)%N ∧ r = Ready key ∧
       last_activity ka' = delete key (last_activity ka) ∧
       pending_keep_alive_timeouts ka' = take_nth (pending_keep_alive_timeouts ka) i)).
Proof.
  intros Hok Heq. unfold ka_poll_next in Heq.
  destruct (poll_sleep now (pending_keep_alive_timeouts ka)) as [i|] eqn:Ei; [|left; by simplify_eq/=].
  destruct (poll_sleep_done _ _ _ Ei) as (key & d & Hi & Hd). cbn in Heq. rewrite Hi in Heq. cbn in Heq. right.
  exists i, key, d. split; [done|]. split; [done|].
  destruct (last_activity ka !! key) as [last|] eqn:Ek; [|simplify_eq/=; split; [done|by left]].
  destruct (Hok _ _ Ek) as [Hle _].
  destruct (N.ltb_spec (now - last) (keep_alive_timeout ka)); simplify_eq/=; (split; [done|]); right;
    exists last; (split; [done|]); [left|right]; split_and!; try done; try lia.
  do 3 f_equal. lia.
Qed.

Lemma ka_poll_next_ok now ka ka' r : timers_ok now ka → ka_poll_next now ka = (ka', r) → timers_ok now ka'.
Proof.
  intros Hok Heq. destruct (ka_poll_next_spec now ka ka' r Hok Heq)
    as [(-> & _)|(i & key & d & Hi & Hd & Ht & [(Hk & _ & Hla & Hp)|(last & Hk & [(Hlt & _ & Hla & Hp)|(Hge & _ & Hla & Hp)])])];
    [done|..]; intros key' last' Hk'; rewrite Ht, Hp; rewrite Hla in Hk'.
  - destruct (Hok _ _ Hk') as (? & d' & Hin & ?). split; [done|]. exists d'. split; [|done].
    destruct (take_nth_elem _ _ _ _ Hi Hin) as [[= -> ->]|?]; [congruence|done].
  - destruct (Hok _ _ Hk') as (? & d' & Hin & ?). split; [done|].
    destruct (take_nth_elem _ _ _ _ Hi Hin) as [[= -> ->]|?].
    + eexists. split; [apply elem_of_app; right; by apply list_elem_of_singleton|]. simplify_eq. lia.
    + exists d'. split; [|done]. apply elem_of_app. by left.
  - apply lookup_delete_Some in Hk' as [Hne Hk']. destruct (Hok _ _ Hk') as (? & d' & Hin & ?). split; [done|].
    exists d'. split; [|done]. destruct (take_nth_elem _ _ _ _ Hi Hin) as [[= -> ->]|?]; [done|done].
Qed.
End sleep.

(** ** Active handles *)

Definition ctx_handles (ctx : ConnectionContext) : list ConnectionHandle :=
  primary ctx :: option_list (secondary ctx).

(** The handle of a connection of a peer is active. *)
Definition keeps (ts : TransportService) (p : PeerId) (cid : ConnectionId) : Prop :=
  ∃ ctx h, ts_connections ts !! p = Some ctx ∧ h ∈ ctx_handles ctx ∧ h_connection_id h = cid ∧ h_active h = true.

(** Active connections are tracked. *)
Definition active_tracked (ts : TransportService) : Prop :=
  ∀ p cid, keeps ts p cid → is_Some (last_activity (ts_keep_alive ts) !! (p, cid)).

Definition ka_inv (now : N) (ts : TransportService) : Prop :=
  timers_ok now (ts_keep_alive ts) ∧ active_tracked ts.

(** What the tracker knows after an operation, for connections that were tracked. *)
Lemma keeps_update ts ts' p ctx p' cid :
  ts_connections ts' = <[p := ctx]> (ts_connections ts) → keeps ts' p' cid →
  (p' = p ∧ ∃ h, h ∈ ctx_handles ctx ∧ h_connection_id h = cid ∧ h_active h = true) ∨ (p' ≠ p ∧ keeps ts p' cid).
Proof.
  intros Heq (ctx' & h & Hc & Hin & Hid & Ha). rewrite Heq in Hc.
  apply lookup_insert_Some in Hc as [[<- <-]|[Hne Hc]]; [left; by eauto|right].
  split; [done|]. by exists ctx', h.
Qed.

(** Applying [f] to the handle of [cid] only adds [cid] to the active ones. *)
Lemma on_handle_active f ctx cid h : (∀ h, h_connection_id (f h) = h_connection_id h) →
  h ∈ ctx_handles (on_handle f ctx cid) → h_connection_id h = cid ∨ h ∈ ctx_handles ctx.
Proof.
  intros Hf. unfold on_handle, ctx_handles. destruct ctx as [h1 [h2|]]; cbn;
    destruct (N.eqb_spec (h_connection_id h1) cid) as [<-|E]; cbn; rewrite ?elem_of_cons.
  - intros [->|?]; [left; apply Hf|auto].
  - destruct (N.eqb_spec (h_connection_id h2) cid) as [<-|E2]; cbn; [|set_solver].
    rewrite !elem_of_cons. intros [->|[->|?]]; [by auto|left; apply Hf|by auto].
  - intros [->|?]; [left; apply Hf|auto].
  - set_solver.
Qed.

(** The two handles of a peer are of different connections. *)
Definition handles_distinct (ts : TransportService) : Prop :=
  ∀ p ctx h2, ts_connections ts !! p = Some ctx → secondary ctx = Some h2 →
    h_connection_id h2 ≠ h_connection_id (primary ctx).

Lemma refines_distinct l ts c : refines l ts c → handles_distinct ts.
Proof.
  intros (_ & Hl & _) p ctx h2 Hp Hs Heq. apply (linked_two _ _ _ Hl p
    (h_connection_id (primary ctx), h_connection_id <$> secondary ctx)); [by rewrite shape_lookup, Hp|].
  cbn. rewrite Hs. cbn. by rewrite Heq.
Qed.

(** Downgrading leaves the other handle. *)
Lemma downgrade_active ctx cid h :
  (∀ h2, secondary ctx = Some h2 → h_connection_id h2 ≠ h_connection_id (primary ctx)) →
  h ∈ ctx_handles (ctx_downgrade ctx cid) → h_active h = true → h_connection_id h ≠ cid ∧ h ∈ ctx_handles ctx.
Proof.
  unfold ctx_downgrade, on_handle, ctx_handles. destruct ctx as [h1 [h2|]]; cbn; intros Hne;
    [specialize (Hne h2 eq_refl)|]; destruct (N.eqb_spec (h_connection_id h1) cid) as [<-|E]; cbn;
    rewrite ?elem_of_cons, ?elem_of_nil.
  - intros [->|[->|[]]] Ha; [done|auto].
  - destruct (N.eqb_spec (h_connection_id h2) cid) as [<-|E2]; cbn; rewrite !elem_of_cons, elem_of_nil;
      intros [->|[->|[]]] Ha; auto; done.
  - by intros [->|[]] Ha.
  - intros [->|[]] Ha. auto.
Qed.

Lemma downgrade_other ctx cid h : h ∈ ctx_handles ctx → h_connection_id h ≠ cid →
  h ∈ ctx_handles (ctx_downgrade ctx cid).
Proof.
  unfold ctx_downgrade, on_handle, ctx_handles. destruct ctx as [h1 [h2|]]; cbn;
    destruct (N.eqb_spec (h_connection_id h1) cid) as [<-|E]; cbn; rewrite ?elem_of_cons, ?elem_of_nil.
  - intros [->|[->|[]]] Ha; [done|auto].
  - destruct (N.eqb_spec (h_connection_id h2) cid) as [<-|E2]; cbn; rewrite !elem_of_cons, elem_of_nil;
      intros [->|[->|[]]] Ha; auto; done.
  - by intros [->|[]] Ha.
  - intros [->|[]] Ha. auto.
Qed.

(** ** The operations keep the invariant *)

Section invariant.
Context `{HashOrder, SleepQueue} (debug : bool).

(** Activity on [cid] makes it tracked, whatever happens to the handles of its peer. *)
Lemma activity_inv t now ts ts' p cid ctx :
  ka_inv t ts → (t ≤ now)%N → ts_keep_alive ts' = substream_activity now (ts_keep_alive ts) p cid →
  ts_connections ts' = <[p := ctx]> (ts_connections ts) →
  (∀ h, h ∈ ctx_handles ctx → h_active h = true → h_connection_id h = cid ∨ keeps ts p (h_connection_id h)) →
  ka_inv now ts'.
Proof.
  intros [Hok Htr] Ht Hka Hc Hh. split; rewrite ?Hka; [by eapply substream_activity_ok|].
  intros p' cid' Hk. rewrite Hka. cbn. apply lookup_insert_is_Some'.
  destruct (keeps_update _ _ _ _ _ _ Hc Hk) as [(-> & h & Hin & Hid & Ha)|[Hne Hk']]; [|right; by apply Htr].
  destruct (Hh h Hin Ha) as [Heq|Hk']; [left; congruence|right; rewrite <- Hid; by apply Htr].
Qed.

Lemma activity_inv_same t now ts ts' p cid : ka_inv t ts → (t ≤ now)%N →
  ts_keep_alive ts' = substream_activity now (ts_keep_alive ts) p cid →
  ts_connections ts' = ts_connections ts → ka_inv now ts'.
Proof.
  intros [Hok Htr] Ht Hka Hc. split; rewrite ?Hka; [by eapply substream_activity_ok|].
  intros p' cid' (ctx & h & Hp & Hrest). rewrite Hka. cbn. apply lookup_insert_is_Some'. right. apply Htr.
  rewrite Hc in Hp. by exists ctx, h.
Qed.

(** What changes neither the handles nor the tracker. *)
Lemma ka_inv_same t now ts ts' : ka_inv t ts → (t ≤ now)%N → ts_keep_alive ts' = ts_keep_alive ts →
  ts_connections ts' = ts_connections ts → ka_inv now ts'.
Proof.
  intros [Hok Htr] Ht Hka Hc. split; rewrite ?Hka; [by eapply timers_ok_later|].
  intros p cid (ctx & h & Hp & Hrest). rewrite Hka. apply Htr. rewrite Hc in Hp. by exists ctx, h.
Qed.

Lemma established_inv t now ts p ep cid : ka_inv t ts → (t ≤ now)%N →
  ka_inv now (ts_on_connection_established now ts p ep cid (ConnectionHandle_new cid)).1.
Proof.
  intros Hinv Ht. unfold ts_on_connection_established.
  destruct (ts_connections ts !! p) as [[h1 [h2|]]|] eqn:Ep; cbn; [by eapply ka_inv_same|..].
  - eapply activity_inv; [done..|]. intros h Hin Ha. unfold ctx_handles in Hin. cbn in Hin. rewrite !elem_of_cons in Hin.
    destruct Hin as [->|[->|Hin]]; [right|by left|by apply not_elem_of_nil in Hin].
    exists (mkConnectionContext h1 None), h1. split_and!; [done|by left|done..].
  - eapply activity_inv; [done..|]. intros h Hin Ha. unfold ctx_handles in Hin. cbn in Hin. apply list_elem_of_singleton in Hin as ->. by left.
Qed.

Lemma closed_effect ts p cid ts' : ts_on_connection_closed debug ts p cid = Done ts' →
  ts_keep_alive ts' = ka_on_connection_closed (ts_keep_alive ts) p cid ∧
  ts_connections ts' =
    match ts_connections ts !! p with
    | None => ts_connections ts
    | Some (mkConnectionContext h1 o) =>
        if (h_connection_id h1 =? cid)%N then
          match o with
          | None => delete p (ts_connections ts)
          | Some h2 => <[p := mkConnectionContext h2 None]> (ts_connections ts)
          end
        else <[p := mkConnectionContext h1 None]> (ts_connections ts)
    end.
Proof.
  unfold ts_on_connection_closed. cbn [ts_connections ts_set_events ts_set_outbound ts_set_tracker].
  destruct (ts_connections ts !! p) as [[h1 o]|] eqn:Ep; cbn [primary secondary].
  - destruct (h_connection_id h1 =? cid)%N; [destruct o|]; by intros [= <-].
  - unfold debug_assert. case_match; [done|]. by intros [= <-].
Qed.

(** The handles that are left are those of other connections. *)
Lemma closed_keeps ts p cid ts' p' cid' : handles_distinct ts →
  ts_on_connection_closed debug ts p cid = Done ts' → keeps ts' p' cid' →
  keeps ts p' cid' ∧ (p', cid') ≠ (p, cid).
Proof.
  intros Hd Heq Hk. destruct (closed_effect _ _ _ _ Heq) as [_ Hc].
  destruct (ts_connections ts !! p) as [[h1 o]|] eqn:Ep.
  - pose proof (λ h2, Hd p _ h2 Ep) as Hdist. cbn in Hdist.
    assert (∀ ctx, ts_connections ts' = <[p := ctx]> (ts_connections ts) →
      (∀ h, h ∈ ctx_handles ctx → h ∈ ctx_handles (mkConnectionContext h1 o) ∧ h_connection_id h ≠ cid) →
      keeps ts p' cid' ∧ (p', cid') ≠ (p, cid)) as Hup.
    { intros ctx Hc' Hctx. destruct (keeps_update _ _ _ _ _ _ Hc' Hk)
        as [(-> & h & Hin & <- & Ha)|[Hne Hk']]; [|split; [done|congruence]].
      destruct (Hctx h Hin) as [Hin' Hne]. split; [by exists (mkConnectionContext h1 o), h|congruence]. }
    destruct (N.eqb_spec (h_connection_id h1) cid) as [<-|E]; [destruct o as [h2|]|].
    + apply (Hup _ Hc). intros h ->%list_elem_of_singleton. split; [right; left|by apply Hdist].
    + destruct Hk as (ctx & h & Hp & Hrest). rewrite Hc in Hp. apply lookup_delete_Some in Hp as [Hne Hp].
      split; [by exists ctx, h|congruence].
    + apply (Hup _ Hc). intros h ->%list_elem_of_singleton. split; [left|done].
  - destruct Hk as (ctx & h & Hp & Hrest). rewrite Hc in Hp. split; [by exists ctx, h|congruence].
Qed.

Lemma closed_inv t ts p cid ts' : ka_inv t ts → handles_distinct ts →
  ts_on_connection_closed debug ts p cid = Done ts' → ka_inv t ts'.
Proof.
  intros [Hok Htr] Hd Heq. destruct (closed_effect _ _ _ _ Heq) as [Hka _].
  split; rewrite ?Hka; [by apply ka_closed_ok|]. intros p' cid' Hk'. rewrite Hka. cbn.
  destruct (closed_keeps _ _ _ _ _ _ Hd Heq Hk') as [Hk Hne]. rewrite lookup_delete_ne by done. by apply Htr.
Qed.

Lemma open_inv t now ch ts p ts' cmd r : ka_inv t ts → (t ≤ now)%N →
  ts_open_substream now ch ts p = (ts', cmd, r) → ka_inv now ts'.
Proof.
  intros Hinv Ht Heq. unfold ts_open_substream in Heq.
  destruct (ts_connections ts !! p) as [[h1 o]|] eqn:Ep; [|simplify_eq; by eapply ka_inv_same].
  destruct (try_get_permit ch _) as [pm|]; [|simplify_eq; by eapply ka_inv_same].
  set (ts1 := ts_set_counter ts _) in Heq.
  destruct (match ts_substream_keep_alive ts1 with KaYes => _ | KaNo => _ end) as [ts2 h] eqn:Eka.
  assert (ka_inv now ts2) as Hinv2.
  { destruct (ts_substream_keep_alive ts1); simplify_eq; [|by eapply ka_inv_same].
    eapply (activity_inv t now ts); [done..|]. unfold ctx_handles. cbn. intros h'.
    rewrite elem_of_cons. intros [->|Hin] Ha; [by left|right].
    exists (mkConnectionContext h1 o), h'. split_and!; [done|by right|done..]. }
  destruct (handle_open_substream _ _ _ _ _ _ _); simplify_eq; [|done]. by eapply ka_inv_same.
Qed.

(** A substream that was opened: activity, if it counts. *)
Lemma substream_opened_inv t now ch ts p cid (b : bool) : ka_inv t ts → (t ≤ now)%N →
  ka_inv now (if b then
                let ts := ts_set_tracker ts (substream_activity now (ts_keep_alive ts) p cid) in
                match ts_connections ts !! p with
                | Some ctx => ts_set_connections ts (<[p := ctx_try_upgrade ch ctx cid]> (ts_connections ts))
                | None => ts
                end
              else ts).
Proof.
  intros Hinv Ht. destruct b; [|by eapply ka_inv_same]. cbn.
  destruct (ts_connections ts !! p) as [ctx|] eqn:Ep; [|by eapply (activity_inv_same t now ts)].
  eapply (activity_inv t now ts); [done..|]. intros h Hin Ha.
  destruct (on_handle_active (handle_try_upgrade ch) ctx cid h) as [?|Hin']; [done..|by left|right]. by exists ctx, h.
Qed.

Lemma on_event_inv t now ch l ts c ev l' ts' o : refines l ts c → feeds l ev l' →
  ka_inv t ts → (t ≤ now)%N → ts_on_event debug now ch ts ev = Done (ts', o) → ka_inv now ts'.
Proof.
  intros Hr Hf Hinv Ht Heq. destruct Hf as [l p cid ep Hcid Hone|l p cid Hcid|l p a|l p proto fb cid s pm Hcid
    |l p proto fb id cid s pm Hcid Hid|l id cid e Hid]; cbn [ts_on_event] in Heq.
  - pose proof (established_inv t now ts p ep cid Hinv Ht) as Hinv'. injection Heq as Heq. by rewrite Heq in Hinv'.
  - destruct (ts_on_connection_closed debug ts p cid) as [ts1|] eqn:E; [|done]. cbn in Heq.
    pose proof (closed_inv t ts p cid ts1 Hinv (refines_distinct _ _ _ Hr) E) as Hinv1.
    destruct (ts_pending_events ts1); simplify_eq; by eapply ka_inv_same.
  - simplify_eq/=. by eapply ka_inv_same.
  - simplify_eq. by apply (substream_opened_inv t now (holding pm ch) ts p cid).
  - simplify_eq. by apply (substream_opened_inv t now (holding pm ch) (ts_set_outbound ts (delete id (ts_pending_outbound ts))) p cid).
  - simplify_eq. by eapply ka_inv_same.
Qed.

Lemma receive_inv now ch closed rx : ∀ t l ts c l' ts' rest poll, refines l ts c → ts_pending_events ts = [] →
  fed l rx l' → ka_inv t ts → (t ≤ now)%N →
  ts_receive debug now ch ts rx closed = Done (ts', rest, poll) → ka_inv now ts'.
Proof.
  induction rx as [|ev rx IH]; intros t l ts c l' ts' rest poll Hr He Hfed Hinv Ht Heq; cbn [ts_receive] in Heq.
  { simplify_eq. by eapply ka_inv_same. }
  inversion Hfed as [|? ? l1 ? ? Hf Hrest]; subst.
  destruct (on_event_ok debug now ch l ts c ev l1 Hr He Hf) as (ts1 & o & Hev & Ho). rewrite Hev in Heq.
  pose proof (on_event_inv t now ch l ts c ev l1 ts1 o Hr Hf Hinv Ht Hev) as Hinv1. cbn [outcome_bind] in Heq.
  destruct o; [by simplify_eq|]. destruct Ho as [Hr1 He1]. by eapply (IH now l1 ts1 c).
Qed.

(** ** Letting connections go *)

(** What a poll at [now] may do to the connections: it gives up idle ones. *)
Record lets_go (now : N) (ts ts' : TransportService) : Prop := {
  lg_inv : ka_inv now ts';
  lg_distinct : handles_distinct ts';
  lg_timeout : keep_alive_timeout (ts_keep_alive ts') = keep_alive_timeout (ts_keep_alive ts);
  lg_events : ts_pending_events ts' = ts_pending_events ts;
  lg_keeps : ∀ p cid, keeps ts' p cid → keeps ts p cid;
  lg_activity : last_activity (ts_keep_alive ts') ⊆ last_activity (ts_keep_alive ts);
  lg_idle : ∀ p cid, keeps ts p cid → keeps ts' p cid ∨
    ∃ last, last_activity (ts_keep_alive ts) !! (p, cid) = Some last ∧
            (last + keep_alive_timeout (ts_keep_alive ts) ≤ now)%N;
}.

Lemma lets_go_refl now ts : ka_inv now ts → handles_distinct ts → lets_go now ts ts.
Proof. intros. split; auto. Qed.

Lemma lets_go_trans now ts ts1 ts2 : lets_go now ts ts1 → lets_go now ts1 ts2 → lets_go now ts ts2.
Proof.
  intros [? ? Ht1 He1 Hk1 Ha1 Hi1] [? ? Ht2 He2 Hk2 Ha2 Hi2]. split; auto; try congruence; [by etrans|].
  intros p cid [Hk|?]%Hi1; [|by right]. destruct (Hi2 p cid Hk) as [?|(last & Hl & ?)]; [by left|right].
  exists last. split; [by eapply lookup_weaken|]. by rewrite <- Ht1.
Qed.

(** The tracker alone. *)
Lemma lets_go_tracker now ts ka r : ka_inv now ts → handles_distinct ts →
  ka_poll_next now (ts_keep_alive ts) = (ka, r) → r = Prelude.Pending → lets_go now ts (ts_set_tracker ts ka).
Proof.
  intros [Hok Htr] Hd Hpoll ->. pose proof (ka_poll_next_ok _ _ _ _ Hok Hpoll) as Hok1.
  assert (last_activity ka = last_activity (ts_keep_alive ts) ∧
    keep_alive_timeout ka = keep_alive_timeout (ts_keep_alive ts)) as [Hla Ht].
  { destruct (ka_poll_next_spec _ _ _ _ Hok Hpoll)
      as [(-> & _)|(i & key & d & _ & _ & Ht & [(_ & _ & Hla & _)|(last & _ & [(_ & _ & Hla & _)|(_ & [=] & _)])])]; done. }
  split; try done; [|by cbn; rewrite Hla|by left]. split; [done|].
  intros p cid Hk. cbn. rewrite Hla. by apply Htr.
Qed.

(** One round of the loop over the timeouts. *)
Definition expire_one (ts : TransportService) (ka : KeepAliveTracker) (p : PeerId) (cid : ConnectionId) :
    TransportService :=
  match ts_connections ts !! p with
  | Some ctx => ts_set_connections (ts_set_tracker ts ka) (<[p := ctx_downgrade ctx cid]> (ts_connections ts))
  | None => ts_set_tracker ts ka
  end.

Lemma expire_one_keeps ts ka p cid p' cid' : handles_distinct ts →
  keeps (expire_one ts ka p cid) p' cid' ↔ keeps ts p' cid' ∧ (p', cid') ≠ (p, cid).
Proof.
  intros Hd. unfold expire_one. destruct (ts_connections ts !! p) as [ctx|] eqn:Ep.
  - pose proof (λ h2, Hd p ctx h2 Ep) as Hdist. split.
    + intros Hk. eapply (keeps_update ts) in Hk; [|done].
      destruct Hk as [(-> & h & Hin & <- & Ha)|[Hne Hk]]; [|split; [done|congruence]].
      destruct (downgrade_active ctx cid h Hdist Hin Ha) as [Hne Hin']. split; [by exists ctx, h|congruence].
    + intros [(ctx' & h & Hp & Hin & Hid & Ha) Hne]. destruct (decide (p' = p)) as [->|Hpp].
      * simplify_eq. eexists (ctx_downgrade ctx cid), h. cbn. rewrite lookup_insert_eq. split_and!; try done.
        apply downgrade_other; [done|congruence].
      * exists ctx', h. cbn. by rewrite lookup_insert_ne.
  - split; [|by intros [? _]]. intros Hk. split; [done|]. destruct Hk as (ctx & h & Hp & _). cbn in Hp. congruence.
Qed.

Lemma expire_one_distinct ts ka p cid : handles_distinct ts → handles_distinct (expire_one ts ka p cid).
Proof.
  intros Hd. unfold expire_one. destruct (ts_connections ts !! p) as [ctx|] eqn:Ep; [|done].
  intros p' ctx' h2. cbn. intros [[<- <-]|[_ ?]]%lookup_insert_Some; [|intros; by eapply Hd].
  unfold ctx_downgrade. destruct (on_handle_shape handle_close ctx cid) as [-> Hs]; [done|].
  intros Hsec. rewrite Hsec in Hs. destruct (secondary ctx) as [h2'|] eqn:Es; [|done].
  cbn in Hs. simplify_eq. rewrite Hs. by apply (Hd p ctx).
Qed.

Lemma lets_go_one now ts ka p cid : ka_inv now ts → handles_distinct ts →
  ka_poll_next now (ts_keep_alive ts) = (ka, Ready (p, cid)) → lets_go now ts (expire_one ts ka p cid).
Proof.
  intros [Hok Htr] Hd Hpoll. pose proof (ka_poll_next_ok _ _ _ _ Hok Hpoll) as Hok1.
  destruct (ka_poll_next_spec _ _ _ _ Hok Hpoll)
    as [(_ & [=] & _)|(i & key & d & _ & _ & Ht & [(_ & [=] & _)|(last & Hlast & [(_ & [=] & _)|(Hge & [= <-] & Hla & _)])])].
  assert (ts_keep_alive (expire_one ts ka p cid) = ka ∧
    ts_pending_events (expire_one ts ka p cid) = ts_pending_events ts) as [Hka He].
  { unfold expire_one. by destruct (ts_connections ts !! p). }
  split; rewrite ?Hka; try done; [|by apply expire_one_distinct|..].
  - split; rewrite ?Hka; [done|]. intros p' cid' [Hk Hne]%expire_one_keeps; [|done].
    rewrite Hka, Hla, lookup_delete_ne by done. by apply Htr.
  - intros p' cid' [Hk _]%expire_one_keeps; done.
  - rewrite Hla. apply delete_subseteq.
  - intros p' cid' Hk. rewrite expire_one_keeps by done.
    destruct (decide ((p', cid') = (p, cid))) as [[= -> ->]|Hne]; [right; by exists last|by left].
Qed.

Lemma expire_lets_go fuel now : ∀ ts, ka_inv now ts → handles_distinct ts → lets_go now ts (ts_expire fuel now ts).
Proof.
  induction fuel as [|fuel IH]; intros ts Hinv Hd; [by apply lets_go_refl|]. cbn [ts_expire].
  destruct (ka_poll_next now (ts_keep_alive ts)) as [ka [|[p cid]]] eqn:E; [by eapply lets_go_tracker|].
  pose proof (lets_go_one now ts ka p cid Hinv Hd E) as Hone. eapply lets_go_trans; [done|].
  unfold expire_one in Hone |- *. apply IH; apply Hone.
Qed.

(** A poll that returns a timeout takes it away. *)
Lemma ka_ready_length now ka ka' key : timers_ok now ka → ka_poll_next now ka = (ka', Ready key) →
  S (length (pending_keep_alive_timeouts ka')) = length (pending_keep_alive_timeouts ka).
Proof.
  intros Hok Hpoll. destruct (ka_poll_next_spec _ _ _ _ Hok Hpoll)
    as [(_ & [=] & _)|(i & key' & d & Hi & _ & _ & [(_ & [=] & _)|(last & _ & [(_ & [=] & _)|(_ & _ & _ & ->)])])].
  by eapply take_nth_length.
Qed.

(** The loop over the timeouts ends within the fuel it has. *)
Lemma expire_fuel fuel extra now : ∀ ts, ka_inv now ts → handles_distinct ts →
  length (pending_keep_alive_timeouts (ts_keep_alive ts)) < fuel →
  ts_expire (fuel + extra) now ts = ts_expire fuel now ts.
Proof.
  induction fuel as [|fuel IH]; intros ts Hinv Hd Hlt; [lia|]. cbn [ts_expire Nat.add].
  destruct (ka_poll_next now (ts_keep_alive ts)) as [ka [|[p cid]]] eqn:E; [done|].
  pose proof (lets_go_one now ts ka p cid Hinv Hd E) as Hone.
  pose proof (ka_ready_length _ _ _ _ (proj1 Hinv) E) as Hlen.
  change (match ts_connections (ts_set_tracker ts ka) !! p with Some _ => _ | None => _ end)
    with (expire_one ts ka p cid). apply IH; [apply Hone..|].
  assert (ts_keep_alive (expire_one ts ka p cid) = ka) as -> by (unfold expire_one; by case_match). lia.
Qed.

(** The timers that are due. *)
Definition due (now : N) (ka : KeepAliveTracker) : nat :=
  count (λ e, (e.2 <=? now)%N) (pending_keep_alive_timeouts ka).

(** The queue returns a future that is done whenever there is one. *)
Definition prompt : Prop := ∀ K now (l : list (K * N)), poll_sleep now l = None → Forall (λ e, (now < e.2)%N) l.

Lemma ka_poll_due now ka ka' r : prompt → timers_ok now ka → ka_poll_next now ka = (ka', r) →
  S (due now ka') = due now ka ∨ (due now ka' = 0 ∧ r = Prelude.Pending).
Proof.
  intros Hprompt Hok Hpoll. unfold due.
  assert (∀ i key d, pending_keep_alive_timeouts ka !! i = Some (key, d) → (d ≤ now)%N →
    count (λ e, (e.2 <=? now)%N) (pending_keep_alive_timeouts ka) =
    S (count (λ e, (e.2 <=? now)%N) (take_nth (pending_keep_alive_timeouts ka) i))) as Htake.
  { intros i key d Hi Hd. rewrite (count_take_nth _ _ _ _ Hi). cbn. by destruct (N.leb_spec d now); [|lia]. }
  destruct (ka_poll_next_spec _ _ _ _ Hok Hpoll)
    as [(-> & -> & Hnone)|(i & key & d & Hi & Hd & _ & [(_ & _ & _ & ->)|(last & _ & [(Hlt & _ & _ & ->)|(_ & _ & _ & ->)])])].
  - right. split; [|done]. apply Hprompt in Hnone. clear -Hnone.
    induction Hnone as [|e l He _ IH]; [done|]. cbn.
    destruct (N.leb_spec e.2 now); [lia|done].
  - left. by rewrite (Htake _ _ _ Hi Hd).
  - left. rewrite (Htake _ _ _ Hi Hd), count_app. cbn.
    destruct (N.leb_spec (last + keep_alive_timeout ka) now); lia.
  - left. by rewrite (Htake _ _ _ Hi Hd).
Qed.

Lemma expire_due fuel now : prompt → ∀ ts, ka_inv now ts → handles_distinct ts →
  length (pending_keep_alive_timeouts (ts_keep_alive ts)) < fuel →
  due now (ts_keep_alive (ts_expire fuel now ts)) = 0 ∨
  due now (ts_keep_alive (ts_expire fuel now ts)) < due now (ts_keep_alive ts).
Proof.
  intros Hprompt. induction fuel as [|fuel IH]; intros ts Hinv Hd Hlt; [lia|]. cbn [ts_expire].
  destruct (ka_poll_next now (ts_keep_alive ts)) as [ka r] eqn:E.
  pose proof (ka_poll_due _ _ _ _ Hprompt (proj1 Hinv) E) as Hdue. destruct r as [|[p cid]].
  - cbn. destruct Hdue as [Hdue|[Hdue _]]; [right; lia|by left].
  - destruct Hdue as [Hdue|[_ [=]]]. pose proof (lets_go_one now ts ka p cid Hinv Hd E) as Hone.
    pose proof (ka_ready_length _ _ _ _ (proj1 Hinv) E) as Hlen.
    change (match ts_connections (ts_set_tracker ts ka) !! p with Some _ => _ | None => _ end)
      with (expire_one ts ka p cid).
    assert (ts_keep_alive (expire_one ts ka p cid) = ka) as Hka by (unfold expire_one; by case_match).
    destruct (IH (expire_one ts ka p cid)) as [?|?]; [apply Hone..|rewrite Hka; lia|by left|].
    right. rewrite Hka in *. lia.
Qed.

(** ** Runs *)

Lemma ts_step_ka s a s' c : ts_step debug s a s' → refines s.1.2 s.1.1 c → ka_inv s.2 s.1.1 → ka_inv s'.2 s'.1.1.
Proof.
  intros Hs Hr Hinv. destruct Hs as [ts l t now ch rx closed l' ts' seen rest l1 poll Ht Hfed Heq Hrx Hseen
    |ts l t now ch p ts' cmd r Ht Hn Heq|ts l t n Hn]; cbn in *.
  - unfold ts_poll_next in Heq. destruct (ts_pending_events ts) eqn:He; [|simplify_eq; by eapply ka_inv_same].
    destruct (receive_ok debug now ch closed rx l ts c l' Hr He Hfed) as (ts1 & rest1 & poll1 & seen1 & l2 & Hrec & _ & _ & _ & Hp).
    pose proof (receive_inv now ch closed rx t l ts c l' _ _ _ Hr He Hfed Hinv Ht Hrec) as Hinv1.
    rewrite Hrec in Heq. cbn [outcome_bind] in Heq. destruct poll1 as [|o]; simplify_eq; [|done].
    exact (lg_inv _ _ _ (expire_lets_go (S (length (pending_keep_alive_timeouts (ts_keep_alive ts1))))
      now ts1 Hinv1 (refines_distinct _ _ _ Hp))).
  - by eapply open_inv.
  - eapply (ka_inv_same t t ts); done.
Qed.

Lemma ka_inv_init t protocol fallbacks n timeout ka : ka_inv t (TransportService_new protocol fallbacks n timeout ka).
Proof.
  split; [intros key last; cbn; by rewrite lookup_empty|].
  intros p cid (ctx & h & Hp & _). cbn in Hp. by rewrite lookup_empty in Hp.
Qed.

Lemma ts_run_ka protocol fallbacks n timeout ka t0 tr ts l t :
  steps (ts_step debug) (TransportService_new protocol fallbacks n timeout ka, Links_init, t0) tr (ts, l, t) →
  ka_inv t ts ∧ handles_distinct ts.
Proof.
  intros Hrun. destruct (steps_simulation (ts_step debug) contract_step
    (λ s c, refines s.1.2 s.1.1 c ∧ ka_inv s.2 s.1.1)) with (s := (TransportService_new protocol fallbacks n timeout ka, Links_init, t0))
      (tr := tr) (s' := (ts, l, t)) (t := Contract_init) as (c & _ & Hr & Hinv); [|done|..].
  - intros s a s' c Hs [Hr Hinv]. destruct (ts_step_simulated debug _ _ _ _ Hs Hr) as (c' & ? & ?).
    exists c'. split_and!; [done..|]. by eapply ts_step_ka.
  - split; [apply refines_init|apply ka_inv_init].
  - split; [done|]. by eapply refines_distinct.
Qed.

(** [n] polls at the same time, with nothing in the channel. *)
Definition quiet_polls (n : nat) (now : N) (ch : ChannelState) (ts : TransportService) : TransportService :=
  Nat.iter n (λ ts, match ts_poll_next debug now ch ts [] false with
                    | Done (ts', _, _) => ts'
                    | Panic => ts
                    end) ts.

Lemma quiet_polls_spec k now ch ts : prompt → ka_inv now ts → handles_distinct ts → ts_pending_events ts = [] →
  lets_go now ts (quiet_polls k now ch ts) ∧
  (due now (ts_keep_alive (quiet_polls k now ch ts)) = 0 ∨
   due now (ts_keep_alive (quiet_polls k now ch ts)) + k ≤ due now (ts_keep_alive ts)).
Proof.
  intros Hprompt Hinv Hd He. induction k as [|k [IH Hdue]]; [split; [by apply lets_go_refl|right; cbn; lia]|].
  change (quiet_polls (S k) now ch ts) with
    (match ts_poll_next debug now ch (quiet_polls k now ch ts) [] false with
     | Done (ts', _, _) => ts' | Panic => quiet_polls k now ch ts end). set (ts1 := quiet_polls k now ch ts) in *.
  unfold ts_poll_next. rewrite (lg_events _ _ _ IH), He. cbn [ts_receive outcome_bind]. split.
  - eapply lets_go_trans; [done|]. apply expire_lets_go; apply IH.
  - destruct (expire_due (S (length (pending_keep_alive_timeouts (ts_keep_alive ts1)))) now Hprompt ts1)
      as [?|?]; [apply IH..|lia|by left|]. destruct Hdue as [?|?]; [lia|right; lia].
Qed.

Lemma due_le now ka : due now ka ≤ length (pending_keep_alive_timeouts ka).
Proof. unfold due. induction (pending_keep_alive_timeouts ka) as [|e l IH]; cbn; [done|]. case_match; lia. Qed.

(** C18. A protocol keeps a connection active as long as it is used and no longer. After any run of the
    service, if it is polled as often as it has timers and nothing arrives meanwhile, the
    connections it keeps active are those it kept before and whose last use (being
    established, or a substream opened over it in either direction) is less than the
    keep-alive timeout ago. In particular the loop over the timers ends. *)
Theorem idle_connections_let_go protocol fallbacks n timeout ka t0 tr ts l t now ch k :
  prompt →
  steps (ts_step debug) (TransportService_new protocol fallbacks n timeout ka, Links_init, t0) tr (ts, l, t) →
  (t ≤ now)%N → ts_pending_events ts = [] →
  length (pending_keep_alive_timeouts (ts_keep_alive ts)) ≤ k →
  (∀ p cid, keeps (quiet_polls k now ch ts) p cid ↔
     keeps ts p cid ∧ ∃ last, last_activity (ts_keep_alive ts) !! (p, cid) = Some last ∧
                              (now < last + keep_alive_timeout (ts_keep_alive ts))%N) ∧
  (∀ extra, let fuel := S (length (pending_keep_alive_timeouts (ts_keep_alive ts))) in
     ts_expire (fuel + extra) now ts = ts_expire fuel now ts).
Proof.
  intros Hprompt Hrun Ht He Hk. destruct (ts_run_ka _ _ _ _ _ _ _ _ _ _ Hrun) as [Hinv0 Hd].
  assert (ka_inv now ts) as Hinv by by eapply ka_inv_same. split; [|intros; apply expire_fuel; [done..|lia]].
  destruct (quiet_polls_spec k now ch ts Hprompt Hinv Hd He) as [Hlg Hdue].
  pose proof (due_le now (ts_keep_alive ts)) as Hle.
  intros p cid. split.
  - intros Hkeep. split; [by apply Hlg|]. pose proof (lg_inv _ _ _ Hlg) as [Hok Htr].
    destruct (Htr p cid Hkeep) as [last Hlast]. exists last. split; [by eapply lookup_weaken, Hlg|].
    destruct (Hok _ _ Hlast) as (_ & d & Hin & Hdl). rewrite (lg_timeout _ _ _ Hlg) in Hdl.
    destruct (N.leb_spec d now) as [Hdn|]; [exfalso|lia].
    pose proof (count_pos (λ e : PeerId * ConnectionId * N, (e.2 <=? now)%N) _ _ Hin) as Hpos. cbn in Hpos.
    apply N.leb_le in Hdn. specialize (Hpos Hdn). unfold due in *. lia.
  - intros [Hkeep (last & Hlast & Hlt)]. destruct (lg_idle _ _ _ Hlg p cid Hkeep) as [?|(last' & ? & ?)]; [done|].
    simplify_eq. lia.
Qed.
End invariant.

(** ** A connection that is idle *)

Lemma first_done_none {K} now (l : list (K * N)) : first_done now l = None → Forall (λ e, (now < e.2)%N) l.
Proof.
  induction l as [|[k d] l IH]; cbn; [constructor|]. destruct (N.leb_spec d now); [done|].
  destruct (first_done now l); [done|]. constructor; [done|auto].
Qed.

Lemma idle_connections_let_go_witness : let _ := canonical_order in let _ := eager_sleep in
  keeps ServiceExample.ts1 ServiceExample.peer 3 ∧
  ¬ keeps (quiet_polls true 1 10 ServiceExample.channels ServiceExample.ts1) ServiceExample.peer 3.
Proof.
  cbv zeta. split.
  - eexists (ConnectionContext_new (ConnectionHandle_new 3)), (ConnectionHandle_new 3).
    split_and!; [by vm_compute|left|done..].
  - destruct (idle_connections_let_go (H := canonical_order) (H0 := eager_sleep) true _ _ _ _ _ _ _ _ _ _ 10
      ServiceExample.channels 1 (λ K now l, first_done_none now l) ServiceExample.first_steps) as [Hk _];
      [done|by vm_compute|by vm_compute|].
    rewrite Hk. intros [_ (last & Hl & Hlt)]. vm_compute in Hl. injection Hl as <-. by vm_compute in Hlt.
Defined.
