(* ===== verification/KademliaExecutor.v ===== *)
(** * Kademlia query executor

    [QueryExecutor] of [src/src/protocol/libp2p/kademlia/executor.rs]: the exchanges over
    substreams that are under way. A future is what it holds; how its reads and writes end is
    an argument of its run. *)

From stdpp Require Import base tactics option list gmap strings.
From Stdlib Require Import NArith Lia Init.Byte.
From S2P Require Import Prelude Multiaddr ProtocolTypes.

Inductive FailureReason := FrSubstreamClosed | FrTimeout.

(** [executor::QueryResult] *)
Inductive QueryResult :=
| QrSendSuccess (substream : Substream)
| QrSendFailure (reason : FailureReason)
| QrReadSuccess (substream : Substream) (message : list byte)
| QrReadFailure (reason : FailureReason)
| QrAssumeSendSuccess.

Record QueryContext := mkQueryContext {
  qc_peer : PeerId;
  qc_query_id : option N;
  qc_result : QueryResult;
}.

(** What is done to substreams: a message is written, or the substream is closed. *)
Inductive SubstreamEffect :=
| SuSend (substream : Substream) (message : list byte)
| SuClose (substream : Substream).

(** The futures, by the method that made them. *)
Inductive ExecutorTask :=
| TkSendMessage (message : list byte)
| TkSendMessageEatFailure (message : list byte)
| TkReadMessage
| TkSendRequestReadResponse (message : list byte)
| TkSendRequestEatResponseFailure (message : list byte).

Record ExecutorFuture := mkExecutorFuture {
  ef_peer : PeerId;
  ef_query_id : option N;
  ef_substream : Substream;
  ef_task : ExecutorTask;
}.

(** [QueryExecutor], its [futures]. *)
Notation QueryExecutor := (list ExecutorFuture) (only parsing).

(** [QueryExecutor::new] *)
Definition QueryExecutor_new : QueryExecutor := [].

Section methods.
Context (executor : QueryExecutor) (peer : PeerId) (query_id : option N).

(** [QueryExecutor::send_message] *)
Definition ex_send_message (message : list byte) (substream : Substream) : QueryExecutor :=
  executor ++ [mkExecutorFuture peer query_id substream (TkSendMessage message)].

(** [QueryExecutor::send_message_eat_failure] *)
Definition ex_send_message_eat_failure (message : list byte) (substream : Substream) : QueryExecutor :=
  executor ++ [mkExecutorFuture peer query_id substream (TkSendMessageEatFailure message)].

(** [QueryExecutor::read_message] *)
Definition ex_read_message (substream : Substream) : QueryExecutor :=
  executor ++ [mkExecutorFuture peer query_id substream TkReadMessage].

(** [QueryExecutor::send_request_read_response] *)
Definition ex_send_request_read_response (message : list byte) (substream : Substream) : QueryExecutor :=
  executor ++ [mkExecutorFuture peer query_id substream (TkSendRequestReadResponse message)].

(** [QueryExecutor::send_request_eat_response_failure] *)
Definition ex_send_request_eat_response_failure (message : list byte) (substream : Substream) : QueryExecutor :=
  executor ++ [mkExecutorFuture peer query_id substream (TkSendRequestEatResponseFailure message)].
End methods.

(** How [tokio::time::timeout(WRITE_TIMEOUT, substream.send_framed(message))] ended. *)
Inductive WriteEnd := WriteElapsed | WriteFailed | WriteOk.

(** How [tokio::time::timeout(READ_TIMEOUT, substream.next())] ended. *)
Inductive ReadEnd := ReadElapsed | ReadItem (item : option (result SubstreamError (list byte))).

(** The result of a read. *)
Definition read_result (substream : Substream) (read : ReadEnd) : QueryResult :=
  match read with
  | ReadElapsed => QrReadFailure FrTimeout
  | ReadItem (Some (Ok message)) => QrReadSuccess substream message
  | ReadItem None | ReadItem (Some (Err _)) => QrReadFailure FrSubstreamClosed
  end.

(** The bodies of the futures. *)
Definition task_run (substream : Substream) (task : ExecutorTask) (write : WriteEnd) (read : ReadEnd) :
    list SubstreamEffect * QueryResult :=
  match task with
  | TkSendMessage message =>
      match write with
      | WriteElapsed => ([], QrSendFailure FrTimeout)
      | WriteFailed => ([], QrSendFailure FrSubstreamClosed)
      | WriteOk => ([SuSend substream message], QrSendSuccess substream)
      end
  | TkSendMessageEatFailure message =>
      match write with
      | WriteElapsed | WriteFailed => ([], QrAssumeSendSuccess)
      | WriteOk => ([SuSend substream message], QrSendSuccess substream)
      end
  | TkReadMessage => ([], read_result substream read)
  | TkSendRequestReadResponse message =>
      match write with
      | WriteElapsed => ([], QrSendFailure FrTimeout)
      | WriteFailed => ([SuClose substream], QrSendFailure FrSubstreamClosed)
      | WriteOk => ([SuSend substream message], read_result substream read)
      end
  | TkSendRequestEatResponseFailure message =>
      match write with
      | WriteElapsed => ([], QrSendFailure FrTimeout)
      | WriteFailed => ([SuClose substream], QrSendFailure FrSubstreamClosed)
      | WriteOk =>
          ([SuSend substream message],
           match read with
           | ReadItem (Some (Ok message)) => QrReadSuccess substream message
           | _ => QrAssumeSendSuccess
           end)
      end
  end.

(** [Stream::poll_next], when the future at position [i] is the next to complete. *)
Definition ex_next (executor : QueryExecutor) (i : nat) (write : WriteEnd) (read : ReadEnd) :
    option (QueryExecutor * list SubstreamEffect * QueryContext) :=
  match executor !! i with
  | None => None
  | Some f =>
      let '(effects, result) := task_run (ef_substream f) (ef_task f) write read in
      Some (take_nth executor i, effects, mkQueryContext (ef_peer f) (ef_query_id f) result)
  end.
