(* ===== verification/KademliaHandle.v ===== *)
(** * Kademlia configuration and the user's handle

    [src/src/protocol/libp2p/kademlia/config.rs] and [handle.rs]: the modes of a node and its
    builder, the commands the user queues for the protocol and the events it reads. Channels
    are the lists of what they hold; a sender that waits for room in one is a call that is not
    made yet. The counter of the query identifiers is shared with the protocol and therefore an
    argument. *)

From stdpp Require Import base tactics option list gmap strings.
From Stdlib Require Import NArith Lia Init.Byte.
From S2P Require Import Prelude Multiaddr AddressStore KademliaTypes KademliaStore KademliaQuery ProtocolTypes.

Local Open Scope litep2p_scope.

(** ** Modes *)

Inductive RoutingTableUpdateMode := UpdateManual | UpdateAutomatic.
Inductive IncomingRecordValidationMode := ValidationManual | ValidationAutomatic.
Inductive RemoteAddressMode := AddressAll | AddressGlobalOnly.
Inductive KademliaMode := ModeClient | ModeServer.

#[export] Instance RemoteAddressMode_eq_dec : EqDecision RemoteAddressMode.
Proof. solve_decision. Defined.

(** ** Configuration *)

(** Times in milliseconds. *)
Definition DEFAULT_TTL : N := (36 * 60 * 60 * 1000)%N.
Definition DEFAULT_STORE_CONFIG : MemoryStoreConfig :=
  mkMemoryStoreConfig 1024 (N.to_nat (65 * 1024)) 1024 30 20 (22 * 60 * 60 * 1000) (48 * 60 * 60 * 1000).
Definition PROTOCOL_NAME : ProtocolName := "/ipfs/kad/1.0.0"%string.
Definition REPLICATION_FACTOR : nat := 20.
Definition DEFAULT_MAX_MESSAGE_SIZE : N := (70 * 1024)%N.

(** [Config] and [ConfigBuilder]: the codec is that of length-prefixed messages of at most
    [kc_max_message_size] bytes. *)
Record KadConfig := mkKadConfig {
  kc_protocol_names : list ProtocolName;
  kc_replication_factor : nat;
  kc_known_peers : gmap PeerId (list Multiaddr);
  kc_update_mode : RoutingTableUpdateMode;
  kc_mode : KademliaMode;
  kc_validation_mode : IncomingRecordValidationMode;
  kc_record_ttl : N;
  kc_remote_address_mode : RemoteAddressMode;
  kc_memory_store_config : MemoryStoreConfig;
  kc_max_message_size : N;
}.

(** [ConfigBuilder::new] *)
Definition ConfigBuilder_new : KadConfig :=
  mkKadConfig [] REPLICATION_FACTOR ∅ UpdateAutomatic ModeServer ValidationAutomatic DEFAULT_TTL AddressAll
    DEFAULT_STORE_CONFIG DEFAULT_MAX_MESSAGE_SIZE.

(** [Config::new], on the fields of the builder *)
Definition kc_build (b : KadConfig) : KadConfig :=
  mkKadConfig match kc_protocol_names b with [] => [PROTOCOL_NAME] | names => names end
    (kc_replication_factor b) (kc_known_peers b) (kc_update_mode b) (kc_mode b) (kc_validation_mode b)
    (kc_record_ttl b) (kc_remote_address_mode b) (kc_memory_store_config b) (kc_max_message_size b).

(** ** Commands and events *)

Inductive KademliaCommand :=
| KcAddKnownPeer (peer : PeerId) (addresses : list Multiaddr)
| KcFindNode (peer : PeerId) (query_id : QueryId)
| KcPutRecord (record : DhtRecord) (quorum : Quorum) (query_id : QueryId)
| KcPutRecordToPeers (record : DhtRecord) (quorum : Quorum) (query_id : QueryId) (peers : list PeerId)
    (update_local_store : bool)
| KcGetRecord (key : list byte) (quorum : Quorum) (query_id : QueryId)
| KcGetProviders (key : list byte) (query_id : QueryId)
| KcStartProviding (key : list byte) (quorum : Quorum) (query_id : QueryId)
| KcStopProviding (key : list byte)
| KcStoreRecord (record : DhtRecord).

Inductive KademliaEvent :=
| KvFindNodeSuccess (query_id : QueryId) (target : PeerId) (peers : list (PeerId * list Multiaddr))
| KvRoutingTableUpdate (peers : list PeerId)
| KvPeersDiscovered (peers : list PeerId)
| KvGetRecordSuccess (query_id : QueryId)
| KvGetRecordPartialResult (query_id : QueryId) (record : PeerRecord)
| KvGetProvidersSuccess (query_id : QueryId) (provided_key : list byte) (providers : list ContentProvider)
| KvPutRecordSuccess (query_id : QueryId) (key : list byte)
| KvAddProviderSuccess (query_id : QueryId) (provided_key : list byte)
| KvQueryFailed (query_id : QueryId)
| KvIncomingRecord (record : DhtRecord)
| KvIncomingProvider (provided_key : list byte) (provider : ContentProvider).

(** ** The handle *)

Record KademliaHandle := mkKademliaHandle {
  kh_cmd_tx : list KademliaCommand;
  kh_event_rx : list KademliaEvent;
}.

(** [KademliaHandle::new] *)
Definition KademliaHandle_new : KademliaHandle := mkKademliaHandle [] [].

(** [KademliaHandle::next_query_id], with the new value of the counter *)
Definition kh_next_query_id (counter : N) : QueryId * N := (counter, usize_wrapping_add counter 1).

Definition kh_queue (h : KademliaHandle) (command : KademliaCommand) : KademliaHandle :=
  mkKademliaHandle (kh_cmd_tx h ++ [command]) (kh_event_rx h).

(** What a method that starts a query asks for. *)
Inductive QueryCall :=
| CallFindNode (peer : PeerId)
| CallPutRecord (record : DhtRecord) (quorum : Quorum)
| CallPutRecordToPeers (record : DhtRecord) (peers : list PeerId) (update_local_store : bool) (quorum : Quorum)
| CallGetRecord (key : list byte) (quorum : Quorum)
| CallStartProviding (key : list byte) (quorum : Quorum)
| CallGetProviders (key : list byte).

(** The command of the methods [find_node], [put_record], [put_record_to_peers], [get_record],
    [start_providing] and [get_providers]. *)
Definition query_command (call : QueryCall) (query_id : QueryId) : KademliaCommand :=
  match call with
  | CallFindNode peer => KcFindNode peer query_id
  | CallPutRecord record quorum => KcPutRecord record quorum query_id
  | CallPutRecordToPeers record peers update_local_store quorum =>
      KcPutRecordToPeers record quorum query_id peers update_local_store
  | CallGetRecord key quorum => KcGetRecord key quorum query_id
  | CallStartProviding key quorum => KcStartProviding key quorum query_id
  | CallGetProviders key => KcGetProviders key query_id
  end.

(** The methods that start a query, once there is room. *)
Definition kh_start_query (h : KademliaHandle) (counter : N) (call : QueryCall) : KademliaHandle * N * QueryId :=
  let '(query_id, counter) := kh_next_query_id counter in
  (kh_queue h (query_command call query_id), counter, query_id).

(** What a method that starts none asks for. *)
Inductive PlainCall :=
| CallAddKnownPeer (peer : PeerId) (addresses : list Multiaddr)
| CallStopProviding (key : list byte)
| CallStoreRecord (record : DhtRecord).

(** [KademliaHandle::add_known_peer], [stop_providing] and [store_record], once there is room *)
Definition kh_call (h : KademliaHandle) (call : PlainCall) : KademliaHandle :=
  kh_queue h match call with
             | CallAddKnownPeer peer addresses => KcAddKnownPeer peer addresses
             | CallStopProviding key => KcStopProviding key
             | CallStoreRecord record => KcStoreRecord record
             end.

Section capacity.
(** The room in the channel of commands. *)
Context (capacity : nat).

Definition kh_has_room (h : KademliaHandle) : bool := length (kh_cmd_tx h) <? capacity.

(** [try_find_node], [try_put_record], [try_put_record_to_peers] and [try_get_record]: an
    identifier is drawn even if the command does not go out. *)
Definition kh_try_start_query (h : KademliaHandle) (counter : N) (call : QueryCall) :
    KademliaHandle * N * result unit QueryId :=
  let '(query_id, counter) := kh_next_query_id counter in
  if kh_has_room h then (kh_queue h (query_command call query_id), counter, Ok query_id)
  else (h, counter, Err tt).

(** [try_add_known_peer] and [try_store_record] *)
Definition kh_try_call (h : KademliaHandle) (call : PlainCall) : KademliaHandle * result unit unit :=
  if kh_has_room h then (kh_call h call, Ok tt) else (h, Err tt).
End capacity.

(** [Stream::poll_next]; [closed] says that the protocol has exited. *)
Definition kh_poll_next (closed : bool) (h : KademliaHandle) : KademliaHandle * Poll (option KademliaEvent) :=
  match kh_event_rx h with
  | [] => (h, if closed then Ready None else Prelude.Pending)
  | event :: events => (mkKademliaHandle (kh_cmd_tx h) events, Ready (Some event))
  end.
