(* ===== verification/Kademlia.v ===== *)
(** * The Kademlia protocol

    [Kademlia] of [src/src/protocol/libp2p/kademlia/mod.rs]: the event loop that drives the
    query engine, keeps the routing table and the store, answers the requests of other nodes and
    carries out the commands of the user. The transport service is an interface: its state is a
    type of its own, and [KadService] has the calls the protocol makes. What goes to the user
    and to the substreams is a list of effects; an event waits for room in its channel, so the
    turn that sends it is over once there is room. The clock is read once a turn, and
    [PeerId::random] is an argument. *)

From stdpp Require Import base tactics option list gmap strings sorting.
From Stdlib Require Import ZArith NArith Lia Init.Byte.
From S2P Require Import Prelude Multiaddr AddressStore PeerState KademliaTypes KBucket RoutingTable KademliaStore.
From S2P Require Import KademliaCommands KademliaMessage KademliaQuery QueryEngine TransportManagerHandle.
From S2P Require Import ProtocolTypes KademliaExecutor KademliaHandle.

Local Open Scope litep2p_scope.

(** The calls of [TransportService] that Kademlia makes. *)
Class KadService (S : Type) : Type := {
  ks_local_peer_id : S → PeerId;
  ks_open_substream : S → PeerId → S * result SubstreamError SubstreamId;
  ks_dial : S → PeerId → S * result ImmediateDialError unit;
  ks_add_known_address : S → PeerId → list Multiaddr → outcome S;
  ks_public_addresses : S → list Multiaddr;
}.

(** ** Data *)

Definition PARALLELISM_FACTOR : N := 3.

Inductive PeerAction :=
| PaSendFindNode (query_id : QueryId)
| PaSendPutValue (query_id : QueryId) (message : list byte)
| PaSendAddProvider (query_id : QueryId) (message : list byte).

(** [PeerAction::query_id] *)
Definition pa_query_id (action : PeerAction) : QueryId :=
  match action with
  | PaSendFindNode query_id | PaSendPutValue query_id _ | PaSendAddProvider query_id _ => query_id
  end.

(** [PeerContext], its [pending_actions]. *)
Notation PeerContext := (gmap SubstreamId PeerAction) (only parsing).

(** Events for the user, and what is done to substreams. *)
Inductive KadEffect :=
| KeEvent (event : KademliaEvent)
| KeSubstream (effect : SubstreamEffect).

(** [crate::Error], as far as the handlers return it. *)
Inductive KadError :=
| KadPeerAlreadyExists (peer : PeerId)
| KadPeerDoesntExist (peer : PeerId)
| KadInvalidData.

(** Why no request can be made to a peer. *)
Inductive KadOpenError := KoSubstream (error : SubstreamError) | KoDial (error : ImmediateDialError).

Record Kademlia (S : Type) := mkKademlia {
  k_service : S;
  k_local_key : Key PeerId;
  k_config : KadConfig;
  k_peers : gmap PeerId PeerContext;
  k_routing_table : RoutingTable;
  k_store : MemoryStore;
  k_pending_substreams : gmap SubstreamId PeerId;
  k_pending_dials : gmap PeerId (list PeerAction);
  k_next_query_id : N;
  k_engine : QueryEngine;
  k_executor : QueryExecutor;
  k_effects : list KadEffect;
}.
Arguments mkKademlia {S} _ _ _ _ _ _ _ _ _ _ _ _.
Arguments k_service {S} _.
Arguments k_local_key {S} _.
Arguments k_config {S} _.
Arguments k_peers {S} _.
Arguments k_routing_table {S} _.
Arguments k_store {S} _.
Arguments k_pending_substreams {S} _.
Arguments k_pending_dials {S} _.
Arguments k_next_query_id {S} _.
Arguments k_engine {S} _.
Arguments k_executor {S} _.
Arguments k_effects {S} _.

Section setters.
Context {S : Type}.
Implicit Types (k : Kademlia S).

Definition with_service k (s : S) := mkKademlia s (k_local_key k) (k_config k) (k_peers k) (k_routing_table k)
  (k_store k) (k_pending_substreams k) (k_pending_dials k) (k_next_query_id k) (k_engine k) (k_executor k) (k_effects k).
Definition with_peers k m := mkKademlia (k_service k) (k_local_key k) (k_config k) m (k_routing_table k)
  (k_store k) (k_pending_substreams k) (k_pending_dials k) (k_next_query_id k) (k_engine k) (k_executor k) (k_effects k).
Definition with_table k t := mkKademlia (k_service k) (k_local_key k) (k_config k) (k_peers k) t
  (k_store k) (k_pending_substreams k) (k_pending_dials k) (k_next_query_id k) (k_engine k) (k_executor k) (k_effects k).
Definition with_kad_store k st := mkKademlia (k_service k) (k_local_key k) (k_config k) (k_peers k) (k_routing_table k)
  st (k_pending_substreams k) (k_pending_dials k) (k_next_query_id k) (k_engine k) (k_executor k) (k_effects k).
Definition with_substreams k m := mkKademlia (k_service k) (k_local_key k) (k_config k) (k_peers k) (k_routing_table k)
  (k_store k) m (k_pending_dials k) (k_next_query_id k) (k_engine k) (k_executor k) (k_effects k).
Definition with_dials k m := mkKademlia (k_service k) (k_local_key k) (k_config k) (k_peers k) (k_routing_table k)
  (k_store k) (k_pending_substreams k) m (k_next_query_id k) (k_engine k) (k_executor k) (k_effects k).
Definition with_counter k n := mkKademlia (k_service k) (k_local_key k) (k_config k) (k_peers k) (k_routing_table k)
  (k_store k) (k_pending_substreams k) (k_pending_dials k) n (k_engine k) (k_executor k) (k_effects k).
Definition with_engine k e := mkKademlia (k_service k) (k_local_key k) (k_config k) (k_peers k) (k_routing_table k)
  (k_store k) (k_pending_substreams k) (k_pending_dials k) (k_next_query_id k) e (k_executor k) (k_effects k).
Definition with_executor k x := mkKademlia (k_service k) (k_local_key k) (k_config k) (k_peers k) (k_routing_table k)
  (k_store k) (k_pending_substreams k) (k_pending_dials k) (k_next_query_id k) (k_engine k) x (k_effects k).
Definition with_effects k l := mkKademlia (k_service k) (k_local_key k) (k_config k) (k_peers k) (k_routing_table k)
  (k_store k) (k_pending_substreams k) (k_pending_dials k) (k_next_query_id k) (k_engine k) (k_executor k) l.

(** [event_tx.send(event).await] *)
Definition emit k (event : KademliaEvent) : Kademlia S := with_effects k (k_effects k ++ [KeEvent event]).

(** [substream.close().await] *)
Definition close_substream k (substream : Substream) : Kademlia S :=
  with_effects k (k_effects k ++ [KeSubstream (SuClose substream)]).
End setters.

Section kademlia.
Context `{IpNetwork, HashOrder, Sha256, MultihashLib, MultiaddrBytes, MessageCodec} {S : Type} `{KadService S}.
Context (debug : bool).
Implicit Types (k : Kademlia S).

Notation fallible := (Kademlia S * result KadError unit)%type (only parsing).

Definition k_replication k : nat := kc_replication_factor (k_config k).

(** [self.routing_table.closest(&target, self.replication_factor)] *)
Definition k_closest {T} k (target : Key T) : list KademliaPeer :=
  closest (k_routing_table k) target (N.of_nat (k_replication k)).

(** The connection type of a peer, for the routing table. *)
Definition k_connection k (peer : PeerId) : ConnectionType :=
  match k_peers k !! peer with Some _ => PeerConnected | None => NotConnected end.

(** The known peers of the configuration go to the routing table and to the service. *)
Fixpoint add_bootstrap (random : PeerId) (known : list (PeerId * list Multiaddr)) (t : RoutingTable) (s : S) :
    outcome (RoutingTable * S) :=
  match known with
  | [] => Done (t, s)
  | (peer, addresses) :: known =>
      run t <- add_known_peer random t peer addresses NotConnected ;;
      run s <- ks_add_known_address s peer addresses ;;
      add_bootstrap random known t s
  end.

(** [Kademlia::new] *)
Definition Kademlia_new (random : PeerId) (service : S) (config : KadConfig) : outcome (Kademlia S) :=
  let local_peer_id := ks_local_peer_id service in
  let local_key := key_of_peer local_peer_id in
  run (t, service) <- add_bootstrap random (map_order (kc_known_peers config)) (RoutingTable_new local_key) service ;;
  Done (mkKademlia service local_key config ∅ t
          (MemoryStore_with_config local_peer_id (kc_memory_store_config config)) ∅ ∅ 0
          (QueryEngine_new local_peer_id (kc_replication_factor config) PARALLELISM_FACTOR)
          QueryExecutor_new []).

(** Fail both sending to a peer and its response. *)
Definition fail_request k (query : QueryId) (peer : PeerId) : Kademlia S :=
  with_engine k (register_response_failure (register_send_failure (k_engine k) query peer) query peer).

(** ** Connections *)

(** The substreams that are opened for the actions that waited for a dial. *)
Fixpoint open_actions k (peer : PeerId) (actions : list PeerAction) (context : PeerContext) :
    Kademlia S * PeerContext :=
  match actions with
  | [] => (k, context)
  | action :: actions =>
      let '(s, r) := ks_open_substream (k_service k) peer in
      let k := with_service k s in
      match r with
      | Ok substream_id => open_actions k peer actions (<[substream_id := action]> context)
      | Err _ =>
          let k := match action with
                   | PaSendFindNode query_id => fail_request k query_id peer
                   | _ => k
                   end in
          open_actions k peer actions context
      end
  end.

(** [Kademlia::on_connection_established] *)
Definition k_on_connection_established (random : PeerId) k (peer : PeerId) (endpoint : Endpoint) : outcome fallible :=
  run t <- table_on_connection_established random (k_routing_table k) (key_of_peer peer) endpoint ;;
  let k := with_table k t in
  match k_peers k !! peer with
  | None =>
      match k_pending_dials k !! peer with
      | None => Done (k, Ok tt)
      | Some actions =>
          let k := with_dials k (delete peer (k_pending_dials k)) in
          let '(k, context) := open_actions k peer actions ∅ in
          Done (with_peers k (<[peer := context]> (k_peers k)), Ok tt)
      end
  | Some _ => Done (k, Err (KadPeerAlreadyExists peer))
  end.

(** The other queries that wait for a peer fail with it. *)
Definition fail_actions (e : QueryEngine) (peer : PeerId) (query : option QueryId)
    (actions : list (SubstreamId * PeerAction)) : QueryEngine :=
  foldl (λ e '(_, action),
           if decide (Some (pa_query_id action) = query) then e
           else register_peer_failure e (pa_query_id action) peer) e actions.

(** [Kademlia::disconnect_peer] *)
Definition k_disconnect_peer (random : PeerId) k (peer : PeerId) (query : option QueryId) : outcome (Kademlia S) :=
  let k := match query with
           | Some query => with_engine k (register_peer_failure (k_engine k) query peer)
           | None => k
           end in
  let k := match k_peers k !! peer with
           | Some pending_actions =>
               with_engine (with_peers k (delete peer (k_peers k)))
                 (fail_actions (k_engine k) peer query (map_order pending_actions))
           | None => k
           end in
  run t <- table_on_disconnected random (k_routing_table k) (key_of_peer peer) ;;
  Done (with_table k t).

(** ** Substreams *)

(** The bytes of a request, as [KademliaMessage] encodes it. *)
Definition request_bytes (message : QueryMessage) : list byte :=
  message_encode match message with
                 | FindNodeRequest target => find_node target
                 | GetValueRequest key => get_record key
                 | GetProvidersRequest key => get_providers_request key
                 end.

(** [Kademlia::on_outbound_substream] *)
Definition k_on_outbound_substream k (peer : PeerId) (substream_id : SubstreamId) (substream : Substream) :
    outcome fallible :=
  let k := with_substreams k (delete substream_id (k_pending_substreams k)) in
  match k_peers k !! peer with
  | None => Done (k, Err (KadPeerDoesntExist peer))
  | Some context =>
      let k := with_peers k (<[peer := delete substream_id context]> (k_peers k)) in
      match context !! substream_id with
      | None => Done (close_substream k substream, Ok tt)
      | Some (PaSendFindNode query) =>
          match next_peer_action (k_engine k) query peer with
          | Some (SendMessage query peer message) =>
              Done (with_executor k (ex_send_request_read_response (k_executor k) peer (Some query)
                                       (request_bytes message) substream), Ok tt)
          | None => Done (close_substream k substream, Ok tt)
          | Some _ => debug_assert debug False (Done (close_substream k substream, Ok tt))
          end
      | Some (PaSendPutValue query message) =>
          Done (with_executor k (ex_send_request_eat_response_failure (k_executor k) peer (Some query)
                                   message substream), Ok tt)
      | Some (PaSendAddProvider query message) =>
          Done (with_executor k (ex_send_message (k_executor k) peer (Some query) message substream), Ok tt)
      end
  end.

(** [Kademlia::on_inbound_substream] *)
Definition k_on_inbound_substream k (peer : PeerId) (substream : Substream) : Kademlia S :=
  match kc_mode (k_config k) with
  | ModeClient => close_substream k substream
  | ModeServer =>
      let k := with_peers k (<[peer := default ∅ (k_peers k !! peer)]> (k_peers k)) in
      with_executor k (ex_read_message (k_executor k) peer None substream)
  end.

(** [Kademlia::on_substream_open_failure] *)
Definition k_on_substream_open_failure (random : PeerId) k (substream_id : SubstreamId) : outcome (Kademlia S) :=
  match k_pending_substreams k !! substream_id with
  | None => Done k
  | Some peer =>
      let k := with_substreams k (delete substream_id (k_pending_substreams k)) in
      match k_peers k !! peer with
      | None => Done k
      | Some context =>
          let query := pa_query_id <$> context !! substream_id in
          k_disconnect_peer random (with_peers k (<[peer := delete substream_id context]> (k_peers k))) peer query
      end
  end.

(** [Kademlia::on_dial_failure] *)
Definition k_on_dial_failure (random : PeerId) k (peer : PeerId) (addresses : list Multiaddr) : outcome (Kademlia S) :=
  run t <- table_on_dial_failure random (k_routing_table k) (key_of_peer peer) addresses ;;
  let k := with_table k t in
  match k_pending_dials k !! peer with
  | None => Done k
  | Some actions =>
      let k := with_dials k (delete peer (k_pending_dials k)) in
      Done (foldl (λ k action, fail_request k (pa_query_id action) peer) k actions)
  end.

(** Record the action that waits for a substream. *)
Definition add_pending k (peer : PeerId) (substream_id : SubstreamId) (action : PeerAction) : Kademlia S :=
  with_peers (with_substreams k (<[substream_id := peer]> (k_pending_substreams k)))
    (<[peer := <[substream_id := action]> (default ∅ (k_peers k !! peer))]> (k_peers k)).

(** [Kademlia::open_substream_or_dial] *)
Definition k_open_substream_or_dial k (peer : PeerId) (action : PeerAction) : Kademlia S * result KadOpenError unit :=
  let '(s, r) := ks_open_substream (k_service k) peer in
  let k := with_service k s in
  match r with
  | Ok substream_id => (add_pending k peer substream_id action, Ok tt)
  | Err _ =>
      let '(s, r) := ks_dial (k_service k) peer in
      let k := with_service k s in
      match r with
      | Ok _ =>
          (with_dials k (<[peer := default [] (k_pending_dials k !! peer) ++ [action]]> (k_pending_dials k)), Ok tt)
      | Err ImmediateAlreadyConnected =>
          let '(s, r) := ks_open_substream (k_service k) peer in
          let k := with_service k s in
          match r with
          | Ok substream_id => (add_pending k peer substream_id action, Ok tt)
          | Err error => (k, Err (KoSubstream error))
          end
      | Err error => (k, Err (KoDial error))
      end
  end.

(** ** Messages *)

(** The addresses of discovered peers go to the service. *)
Fixpoint add_addresses (service : S) (peers : list KademliaPeer) : outcome S :=
  match peers with
  | [] => Done service
  | info :: peers =>
      run service <- ks_add_known_address service (kad_peer info) (kad_addresses info) ;;
      add_addresses service peers
  end.

(** [Kademlia::register_discovered_peers] *)
Definition k_register_discovered_peers k (peers : list KademliaPeer) : outcome (Kademlia S) :=
  let local_peer_id := ks_local_peer_id (k_service k) in
  let others := filter (λ info, kad_peer info ≠ local_peer_id) peers in
  run service <- add_addresses (k_service k) others ;;
  let k := with_service k service in
  match kad_peer <$> others with
  | [] => Done k
  | discovered => Done (emit k (KvPeersDiscovered discovered))
  end.

(** [Kademlia::insert_proven_server] *)
Definition k_insert_proven_server (random : PeerId) k (proven : KademliaPeer) : outcome (Kademlia S) :=
  let k := emit k (KvRoutingTableUpdate [kad_peer proven]) in
  match kc_update_mode (k_config k) with
  | UpdateManual => Done k
  | UpdateAutomatic =>
      run t <- add_known_peer random (k_routing_table k) (kad_peer proven) (kad_addresses proven)
                 (k_connection k (kad_peer proven)) ;;
      Done (with_table k t)
  end.

(** A response is registered with its query; a peer that was asked has proven to be a server. *)
Definition k_register_response (now : N) (random : PeerId) k (query_id : QueryId) (peer : PeerId)
    (message : KademliaMessage) : outcome (Kademlia S) :=
  let '(e, proven) := register_response (k_engine k) now query_id peer message in
  let k := with_engine k e in
  match proven with
  | Some proven => k_insert_proven_server random k proven
  | None => Done k
  end.

(** A response that names other peers. *)
Definition k_on_response (now : N) (random : PeerId) k (query_id : QueryId) (peer : PeerId)
    (message : KademliaMessage) (peers : list KademliaPeer) (substream : Substream) : outcome (Kademlia S) :=
  run k <- k_register_discovered_peers k peers ;;
  run k <- k_register_response now random k query_id peer message ;;
  Done (close_substream k substream).

(** [executor.send_message(peer, None, message, substream)] *)
Definition k_reply k (peer : PeerId) (message : SchemaMessage) (substream : Substream) : Kademlia S :=
  with_executor k (ex_send_message (k_executor k) peer None (message_encode message) substream).

(** The first provider that is the local node gets the current addresses. *)
Fixpoint refresh_local (local : PeerId) (addresses : list Multiaddr) (providers : list ContentProvider) :
    list ContentProvider :=
  match providers with
  | [] => []
  | p :: providers =>
      if decide (content_peer p = local) then mkContentProvider (content_peer p) addresses :: providers
      else p :: refresh_local local addresses providers
  end.

(** The [PUT_VALUE] branch of [on_message_received]. *)
Definition k_on_put_value (now : N) (random : PeerId) k (peer : PeerId) (query_id : option QueryId)
    (record : DhtRecord) (substream : Substream) : outcome (Kademlia S) :=
  match query_id with
  | Some query_id =>
      run k <- k_register_response now random k query_id peer (MsgPutValue record) ;;
      Done (close_substream k substream)
  | None =>
      let k := match kc_validation_mode (k_config k) with
               | ValidationAutomatic => with_kad_store k (store_put (k_store k) record)
               | ValidationManual => k
               end in
      let message := message_encode (put_value_response (record_key record) (record_value record)) in
      let k := with_executor k (ex_send_message_eat_failure (k_executor k) peer None message substream) in
      Done (emit k (KvIncomingRecord record))
  end.

(** The [ADD_PROVIDER] branch of [on_message_received]. *)
Definition k_on_add_provider (now : N) k (peer : PeerId) (key : list byte) (providers : list KademliaPeer) :
    Kademlia S :=
  match providers with
  | [provider] =>
      let addresses := kad_addresses provider in
      if decide (kad_peer provider = peer) then
        let k := with_kad_store k (put_provider (k_store k) now key (mkContentProvider peer addresses)).1 in
        emit k (KvIncomingProvider key (mkContentProvider (kad_peer provider) addresses))
      else k
  | _ => k
  end.

(** [Kademlia::on_message_received] *)
Definition k_on_message_received (now : N) (random : PeerId) k (peer : PeerId) (query_id : option QueryId)
    (message : list byte) (substream : Substream) : outcome fallible :=
  run message <- message_from_bytes now (k_replication k) message ;;
  match message with
  | None => Done (k, Err KadInvalidData)
  | Some message =>
      let message := if decide (kc_remote_address_mode (k_config k) = AddressGlobalOnly)
                     then message_retain_global message else message in
      run k <-
        match message with
        | MsgFindNode target peers =>
            match query_id with
            | Some query_id => k_on_response now random k query_id peer (MsgFindNode target peers) peers substream
            | None => Done (k_reply k peer (find_node_response target (k_closest k (Key_new target))) substream)
            end
        | MsgPutValue record => k_on_put_value now random k peer query_id record substream
        | MsgGetRecord key record peers =>
            match query_id, key with
            | Some query_id, key =>
                k_on_response now random k query_id peer (MsgGetRecord key record peers) peers substream
            | None, Some key =>
                let '(st, value) := store_get (k_store k) now key in
                let k := with_kad_store k st in
                Done (k_reply k peer (get_value_response now key (k_closest k (Key_new key)) value) substream)
            | None, None => Done k
            end
        | MsgAddProvider key providers => Done (k_on_add_provider now k peer key providers)
        | MsgGetProviders key peers providers =>
            match query_id, key with
            | Some query_id, key =>
                k_on_response now random k query_id peer (MsgGetProviders key peers providers) peers substream
            | None, Some key =>
                let '(st, providers) := get_providers (k_store k) now key in
                let k := with_kad_store k st in
                let providers := refresh_local (preimage (k_local_key k)) (ks_public_addresses (k_service k))
                                   providers in
                run message <- get_providers_response providers (k_closest k (Key_new key)) ;;
                Done (k_reply k peer message substream)
            | None, None => Done k
            end
        end ;;
      Done (k, Ok tt)
  end.

(** ** Queries *)

(** Send an action to each of the peers; those that cannot be reached are only logged. *)
Definition k_send_to_peers k (peers : list KademliaPeer) (action : PeerAction) : Kademlia S :=
  foldl (λ k peer, (k_open_substream_or_dial k (kad_peer peer) action).1) k peers.

(** [Kademlia::on_query_action] *)
Definition k_on_query_action (now : N) k (action : QueryAction) :
    outcome (Kademlia S * result (QueryId * PeerId) unit) :=
  match action with
  | SendMessage query peer _ =>
      match k_open_substream_or_dial k peer (PaSendFindNode query) with
      | (k, Ok _) => Done (k, Ok tt)
      | (k, Err _) => Done (fail_request k query peer, Ok tt)
      end
  | FindNodeQuerySucceeded query target peers =>
      Done (emit k (KvFindNodeSuccess query target ((λ info, (kad_peer info, kad_addresses info)) <$> peers)), Ok tt)
  | ActPutRecordToFoundNodes query record peers quorum =>
      let key := record_key record in
      let message := message_encode (put_value now record) in
      let k := k_send_to_peers k peers (PaSendPutValue query message) in
      Done (with_engine k (start_put_record_tracking (k_engine k) query key peers quorum), Ok tt)
  | PutRecordQuerySucceeded query key => Done (emit k (KvPutRecordSuccess query key), Ok tt)
  | ActAddProviderToFoundNodes query provided_key provider peers quorum =>
      run message <- add_provider provided_key provider ;;
      let k := k_send_to_peers k peers (PaSendAddProvider query (message_encode message)) in
      Done (with_engine k (start_add_provider_tracking (k_engine k) query provided_key peers quorum), Ok tt)
  | AddProviderQuerySucceeded query provided_key => Done (emit k (KvAddProviderSuccess query provided_key), Ok tt)
  | GetRecordQueryDone query_id => Done (emit k (KvGetRecordSuccess query_id), Ok tt)
  | GetProvidersQueryDone query_id provided_key providers =>
      Done (emit k (KvGetProvidersSuccess query_id provided_key providers), Ok tt)
  | QueryFailed query => Done (emit k (KvQueryFailed query), Ok tt)
  | GetRecordPartialResult query_id record => Done (emit k (KvGetRecordPartialResult query_id record), Ok tt)
  | QuerySucceeded _ => Done (k, Ok tt)
  end.

(** [while let Some(action) = self.engine.next_action()], at most [fuel] rounds. *)
Fixpoint k_poll_engine (fuel : nat) (now : N) (random : PeerId) k : outcome (option (Kademlia S)) :=
  match fuel with
  | 0 => Done None
  | Datatypes.S fuel =>
      run (e, action) <- engine_next_action (k_engine k) now ;;
      let k := with_engine k e in
      match action with
      | None => Done (Some k)
      | Some action =>
          run (k, r) <- k_on_query_action now k action ;;
          run k <- match r with
                   | Ok _ => Done k
                   | Err (query, peer) => k_disconnect_peer random k peer (Some query)
                   end ;;
          k_poll_engine fuel now random k
      end
  end.

(** ** The branches of the event loop *)

(** An event of the service; the loop ends when the service has. *)
Definition k_on_service_event (random : PeerId) k (event : option ServiceEvent) : outcome (Kademlia S * bool) :=
  match event with
  | Some (SvConnectionEstablished peer endpoint) =>
      run (k, _) <- k_on_connection_established random k peer endpoint ;; Done (k, false)
  | Some (SvConnectionClosed peer) => run k <- k_disconnect_peer random k peer None ;; Done (k, false)
  | Some (SvSubstreamOpened peer _ _ Inbound substream) => Done (k_on_inbound_substream k peer substream, false)
  | Some (SvSubstreamOpened peer _ _ (Outbound substream_id) substream) =>
      run (k, _) <- k_on_outbound_substream k peer substream_id substream ;; Done (k, false)
  | Some (SvSubstreamOpenFailure substream_id _) =>
      run k <- k_on_substream_open_failure random k substream_id ;; Done (k, false)
  | Some (SvDialFailure peer addresses) =>
      run k <- k_on_dial_failure random k peer addresses ;; Done (k, false)
  | None => Done (k, true)
  end.

Definition send_succeeded k (query_id : option QueryId) (peer : PeerId) : Kademlia S :=
  match query_id with
  | Some query_id => with_engine k (register_send_success (k_engine k) query_id peer)
  | None => k
  end.

(** The end of an exchange. *)
Definition k_on_query_result (now : N) (random : PeerId) k (context : QueryContext) : outcome (Kademlia S) :=
  let peer := qc_peer context in
  let query_id := qc_query_id context in
  match qc_result context with
  | QrSendSuccess substream => Done (send_succeeded (close_substream k substream) query_id peer)
  | QrAssumeSendSuccess => Done (send_succeeded k query_id peer)
  | QrSendFailure _ => k_disconnect_peer random k peer query_id
  | QrReadSuccess substream message =>
      run (k, _) <- k_on_message_received now random (send_succeeded k query_id peer) peer query_id message substream ;;
      Done k
  | QrReadFailure _ => k_disconnect_peer random k peer query_id
  end.

(** The expiry of a record that has none yet. *)
Definition with_ttl (now : N) k (record : DhtRecord) : DhtRecord :=
  mkDhtRecord (record_key record) (record_value record) (publisher record)
    (match record_expires record with Some t => Some t | None => Some (now + kc_record_ttl (k_config k))%N end).

(** A command of the user, with a random identifier for each lookup of the routing table; the
    loop ends when the handle is gone. *)
Definition k_on_command (now : N) (random : nat → PeerId) k (command : option KademliaCommand) :
    outcome (Kademlia S * bool) :=
  let local_peer_id := ks_local_peer_id (k_service k) in
  match command with
  | Some (KcFindNode peer query_id) =>
      Done (with_engine k (start_find_node (k_engine k) query_id peer (k_closest k (key_of_peer peer))), false)
  | Some (KcPutRecord record quorum query_id) =>
      let record := with_ttl now k (mkDhtRecord (record_key record) (record_value record)
                                      (Some (preimage (k_local_key k))) (record_expires record)) in
      let key := Key_new (record_key record) in
      let k := with_kad_store k (store_put (k_store k) record) in
      Done (with_engine k (start_put_record (k_engine k) query_id record (k_closest k key) quorum), false)
  | Some (KcPutRecordToPeers record quorum query_id peers update_local_store) =>
      let record := with_ttl now k record in
      let k := if update_local_store then with_kad_store k (store_put (k_store k) record) else k in
      run (t, peers) <- put_record_targets local_peer_id (k_routing_table k) (imap (λ i p, (p, random i)) peers) ;;
      let k := with_table k t in
      Done (with_engine k (start_put_record_to_peers (k_engine k) query_id record peers quorum), false)
  | Some (KcStartProviding key quorum query_id) =>
      let provider := mkContentProvider local_peer_id (ks_public_addresses (k_service k)) in
      let '(st, accepted) := put_local_provider (k_store k) now key quorum in
      let k := with_kad_store k st in
      if accepted then
        Done (with_engine k (start_add_provider (k_engine k) query_id key provider (k_closest k (Key_new key)) quorum),
              false)
      else Done (emit k (KvQueryFailed query_id), false)
  | Some (KcStopProviding key) => Done (with_kad_store k (remove_local_provider (k_store k) key), false)
  | Some (KcGetRecord key quorum query_id) =>
      let '(st, record) := store_get (k_store k) now key in
      let k := with_kad_store k st in
      let partial k record := emit k (KvGetRecordPartialResult query_id (mkPeerRecord local_peer_id record)) in
      match record, quorum with
      | Some record, QuorumOne => Done (emit (partial k record) (KvGetRecordSuccess query_id), false)
      | record, _ =>
          let local_record := bool_decide (is_Some record) in
          let k := match record with Some record => partial k record | None => k end in
          Done (with_engine k (start_get_record (k_engine k) query_id key (k_closest k (Key_new key)) quorum
                                 local_record), false)
      end
  | Some (KcGetProviders key query_id) =>
      let '(st, known) := get_providers (k_store k) now key in
      let k := with_kad_store k st in
      run e <- start_get_providers (k_engine k) query_id key (k_closest k (Key_new key)) known ;;
      Done (with_engine k e, false)
  | Some (KcAddKnownPeer peer addresses) =>
      run t <- add_known_peer (random 0) (k_routing_table k) peer addresses (k_connection k peer) ;;
      run service <- ks_add_known_address (k_service k) peer addresses ;;
      Done (with_service (with_table k t) service, false)
  | Some (KcStoreRecord record) => Done (with_kad_store k (store_put (k_store k) (with_ttl now k record)), false)
  | None => Done (k, true)
  end.

(** A refresh timer of the store, the one at position [i], is due. *)
Definition k_on_store_action (now : N) k (i : nat) : Kademlia S :=
  let '(st, action) := next_action (k_store k) i in
  let k := with_kad_store k st in
  match action with
  | Some (provided_key, provider, quorum) =>
      let k := with_kad_store k (put_local_provider (k_store k) now provided_key quorum).1 in
      let query_id := k_next_query_id k in
      let k := with_counter k (usize_wrapping_add query_id 1) in
      with_engine k (start_add_provider (k_engine k) query_id provided_key provider
                       (k_closest k (Key_new provided_key)) quorum)
  | None => k
  end.

Inductive KadBranch :=
| KbService (event : option ServiceEvent)
| KbExecutor (i : nat) (write : WriteEnd) (read : ReadEnd)
| KbCommand (command : option KademliaCommand)
| KbStore (i : nat).

(** The [select!] of [Kademlia::run], when the branch is the one that completes; says whether
    the loop ends. *)
Definition k_select (now : N) (random : nat → PeerId) k (b : KadBranch) : outcome (Kademlia S * bool) :=
  match b with
  | KbService event => k_on_service_event (random 0) k event
  | KbExecutor i write read =>
      match ex_next (k_executor k) i write read with
      | None => Done (k, false)
      | Some (executor, effects, context) =>
          let k := with_effects (with_executor k executor) (k_effects k ++ (KeSubstream <$> effects)) in
          run k <- k_on_query_result now (random 0) k context ;;
          Done (k, false)
      end
  | KbCommand command => k_on_command now random k command
  | KbStore i => Done (k_on_store_action now k i, false)
  end.
End kademlia.
