(* ===== verification/KademliaLookups.v ===== *)
(** * The engine's queries, kept sound

    What holds of every query in the engine while the event loop runs: lookups are runs of
    [FindNodeFacts], over peers whose keys are those of their identifiers, and a query that has
    nothing to ask for waits for some peer. *)

From stdpp Require Import base tactics option list gmap strings sorting fin_maps.
From Stdlib Require Import ZArith NArith Lia Init.Byte.
From S2P Require Import Prelude Multiaddr AddressStore PeerState BTreeMap KademliaTypes KBucket RoutingTable.
From S2P Require Import RoutingTableClosest RoutingTableInvariant KademliaStore KademliaCommands.
From S2P Require Import KademliaMessage KademliaQuery QueryFrontier FindNodeFacts QueryEngine QueryEngineFacts.

Local Open Scope litep2p_scope.

(** The peers whose answer a query waits for. *)
Definition query_pending (q : QueryType) : gset PeerId :=
  match q with
  | QFindNode c => dom (fn_pending c)
  | QPutRecord _ _ c | QAddProvider _ _ _ c => dom (fn_pending c)
  | QGetRecord c => dom (gr_pending c)
  | QGetProviders c => dom (gp_pending c)
  | QPutRecordToFoundNodes c | QAddProviderToFoundNodes c => pending_peers c
  | QPutRecordToPeers _ _ _ => ∅
  end.

Lemma fn_schedule_polled {T} (c : FindNodeContext T) now :
  let '(c', a) := fn_schedule_next_peer c now in
  match a with
  | Some (SendMessage _ p _) => dom (fn_pending c') = {[p]} ∪ dom (fn_pending c) ∧
      1 + length (fn_candidates c') = length (fn_candidates c)
  | Some _ => False
  | None => dom (fn_pending c') = dom (fn_pending c) ∧ fn_candidates c' = fn_candidates c
  end.
Proof.
  unfold fn_schedule_next_peer. destruct (fn_candidates c) as [|[d p] l] eqn:E; simpl; [by rewrite E|].
  split; [by rewrite dom_insert_L|done].
Qed.

(** A poll ends the query, waits, or schedules the next candidate. *)
Inductive fn_next_case {T} (c : FindNodeContext T) (now : N) : FindNodeContext T * option QueryAction → Prop :=
| FnEnds a : a = QuerySucceeded (fn_query (fn_config c)) ∨ a = QueryFailed (fn_query (fn_config c)) →
    fn_next_case c now (c, Some a)
| FnStays n a : a = None ∨ a = Some (QuerySucceeded (fn_query (fn_config c))) →
    fn_next_case c now (fn_set_pending_responses c n, a)
| FnSchedules n : fn_next_case c now (fn_schedule_next_peer (fn_set_pending_responses c n) now).

Lemma fn_next_cases {T} (c : FindNodeContext T) now : fn_next_case c now (fn_next_action c now).
Proof.
  unfold fn_next_action. destruct (fn_is_done c); [constructor; by case_decide; auto|]. cbv zeta.
  repeat case_match; first [apply FnSchedules|apply FnStays; by auto].
Qed.

Lemma fn_next_polled {T} (c : FindNodeContext T) now :
  let '(c', a) := fn_next_action c now in
  match a with
  | Some (SendMessage _ p _) => dom (fn_pending c') = {[p]} ∪ dom (fn_pending c) ∧
      1 + length (fn_candidates c') = length (fn_candidates c)
  | None | Some (QuerySucceeded _) | Some (QueryFailed _) =>
      dom (fn_pending c') = dom (fn_pending c) ∧ fn_candidates c' = fn_candidates c
  | _ => False
  end.
Proof.
  destruct (fn_next_cases c now) as [a Ha|n a Ha|n].
  - by destruct Ha as [->| ->].
  - by destruct Ha as [->| ->].
  - pose proof (fn_schedule_polled (fn_set_pending_responses c n) now) as Hs.
    destruct (fn_schedule_next_peer _ _) as [c' [[]|]]; done.
Qed.

Section sound.
Context `{IpNetwork, HashOrder, Sha256, MultihashLib, MultiaddrBytes}.

Definition lookup_ok {T} (c : FindNodeContext T) : Prop :=
  (∃ r, run_wf r ∧ run_query r = c) ∧ (0 < fn_parallelism (fn_config c))%N.

Definition query_ok (q : QueryType) : Prop :=
  match q with
  | QFindNode c => lookup_ok c
  | QPutRecord _ _ c | QAddProvider _ _ _ c => lookup_ok c
  | QGetRecord c => 0 < gr_parallelism (gr_config c)
  | QGetProviders c => 0 < gp_parallelism (gp_config c)
  | QPutRecordToPeers _ _ _ | QPutRecordToFoundNodes _ | QAddProviderToFoundNodes _ => True
  end.

Record engine_sound (local : PeerId) (e : QueryEngine) : Prop := {
  es_wf : engine_wf e;
  es_local : engine_local e = local;
  es_parallelism : (0 < parallelism_factor e)%N;
  es_queries id q : queries e !! id = Some q → query_ok q;
}.

(** ** Lookups *)

Lemma lookup_step {T} (c c' : FindNodeContext T) ev : lookup_ok c → event_keyed ev →
  (∀ r, run_query r = c → run_query (fn_step r ev) = c') → lookup_ok c'.
Proof.
  intros [(r & Hr & <-) Hp] He Hc. specialize (Hc r eq_refl). split.
  - exists (fn_step r ev). split; [by apply fn_step_wf|done].
  - pose proof (fn_step_static r ev) as Hs. rewrite Hc in Hs. unfold fn_static in Hs. by injection Hs as -> _.
Qed.

Lemma lookup_response {T} (c : FindNodeContext T) peer peers : lookup_ok c → Forall peer_keyed peers →
  lookup_ok (fn_register_response c peer peers).1.
Proof.
  intros Hc Hp. apply (lookup_step c _ (FnResponse peer peers)); [done..|]. intros r <-. cbn.
  by destruct (fn_register_response (run_query r) peer peers).
Qed.

Lemma lookup_failure {T} (c : FindNodeContext T) peer : lookup_ok c → lookup_ok (fn_register_response_failure c peer).
Proof. intros Hc. apply (lookup_step c _ (FnFailure peer)); [done..|]. by intros r <-. Qed.

Lemma lookup_poll {T} (c : FindNodeContext T) now : lookup_ok c → lookup_ok (fn_next_action c now).1.
Proof.
  intros Hc. apply (lookup_step c _ (FnPoll now)); [done..|]. intros r <-. cbn.
  by destruct (fn_next_action (run_query r) now).
Qed.

Lemma lookup_start {T} (config : FindNodeConfig T) message peers : start_wf config peers → (0 < fn_parallelism config)%N →
  lookup_ok (FindNodeContext_new config message peers).
Proof. intros Hs Hp. split; [|done]. exists (fn_start config message peers). split; [by apply fn_start_wf|done]. Qed.

(** A lookup without an answer to wait for has a peer to ask, or ends. *)
Lemma lookup_waits {T} (c : FindNodeContext T) now : lookup_ok c → (fn_next_action c now).2 = None →
  dom (fn_pending (fn_next_action c now).1) ≠ ∅.
Proof.
  intros [(r & [[_ _ Hcount _] _ _ _ _] & <-) Hp] Ha Hd. set (c := run_query r) in *.
  pose proof (fn_next_polled c now) as Hpoll. destruct (fn_next_action c now) as [c' a] eqn:E. cbn [fst snd] in *.
  subst a. destruct Hpoll as [Hdom _]. rewrite Hdom in Hd. apply dom_empty_inv_L in Hd.
  rewrite Hd, map_size_empty in Hcount. unfold fn_next_action in E. destruct (fn_is_done c) eqn:Ed; [done|].
  destruct (fn_candidates c) as [|[d p] l] eqn:El.
  { unfold fn_is_done in Ed. by rewrite !bool_decide_eq_true_2 in Ed. }
  cbv zeta in E. cbn [fn_set_pending_responses fn_pending_responses fn_config fn_responses fn_candidates] in E.
  replace (fn_pending_responses c - N.of_nat (fn_timed_out c now))%N with 0%N in E by lia.
  destruct (N.eqb_spec 0 (fn_parallelism (fn_config c))); [lia|].
  unfold fn_schedule_next_peer in E. cbn in E. rewrite El in E. cbn in E. repeat case_match; by simplify_eq.
Qed.

(** ** Queries *)

Definition message_keyed (m : KademliaMessage) : Prop :=
  match m with MsgFindNode _ peers => Forall peer_keyed peers | _ => True end.

Lemma ok_failure q peer : query_ok q → query_ok (query_response_failure q peer).
Proof.
  destruct q; cbn [query_response_failure query_ok]; try done; try apply lookup_failure.
  - unfold gr_register_response_failure. by case_match.
  - unfold gp_register_response_failure. by case_match.
Qed.

Lemma ok_response q now peer m : query_ok q → message_keyed m → query_ok (query_response q now peer m).1.
Proof.
  intros Hq Hm. pose proof (ok_failure q peer Hq) as Hf.
  destruct q as [c|r qu c|r qu c|c|c|k p qu c|c|c], m; try done; cbn [query_response query_ok message_keyed] in *.
  - pose proof (lookup_response c peer peers Hq Hm). by destruct (fn_register_response c peer peers).
  - pose proof (lookup_response c peer peers Hq Hm). by destruct (fn_register_response c peer peers).
  - unfold gr_register_response. repeat case_match; by simplify_eq/=.
  - pose proof (lookup_response c peer peers Hq Hm). by destruct (fn_register_response c peer peers).
  - unfold gp_register_response. repeat case_match; by simplify_eq/=.
Qed.

Lemma ok_poll q now : query_ok q → query_ok (query_next_action q now).1.
Proof.
  destruct q as [c|r qu c|r qu c|c|c|k p qu c|c|c]; cbn [query_next_action query_ok]; try done.
  1,2,4: intros Hq; pose proof (lookup_poll c now Hq); by destruct (fn_next_action c now).
  - unfold gr_next_action, gr_schedule_next_peer. intros Hq. repeat case_match; by simplify_eq/=.
  - unfold gp_next_action, gp_schedule_next_peer. intros Hq. repeat case_match; by simplify_eq/=.
Qed.

(** A query that has nothing to ask for waits for a peer. *)
Lemma ok_waits q now : query_ok q → (query_next_action q now).2 = None → query_pending (query_next_action q now).1 ≠ ∅.
Proof.
  destruct q as [c|r qu c|r qu c|c|c|k p qu c|c|c]; cbn [query_next_action query_ok]; intros Hq.
  1,2,6: pose proof (lookup_waits c now Hq) as Hw; destruct (fn_next_action c now) as [c' a]; exact Hw.
  - done.
  - unfold tp_next_action, tp_is_finished. cbn. case_bool_decide; done.
  - unfold gr_next_action. destruct (gr_records c); [|done]. destruct (gr_is_done c) eqn:Ed; [done|].
    destruct (sufficient_records _ _); [done|]. case_decide as Hs.
    + cbn. intros _ Hd%dom_empty_inv_L. rewrite Hd, map_size_empty in Hs. lia.
    + unfold gr_schedule_next_peer. destruct (gr_candidates c) as [|[d p] l] eqn:El; cbn; [|done].
      intros _ Hd%dom_empty_inv_L. unfold gr_is_done in Ed. by rewrite !bool_decide_eq_true_2 in Ed.
  - unfold tp_next_action, tp_is_finished. cbn. case_bool_decide; done.
  - unfold gp_next_action. destruct (gp_is_done c) eqn:Ed; [done|]. case_decide as Hs.
    + cbn. intros _ Hd%dom_empty_inv_L. rewrite Hd, map_size_empty in Hs. lia.
    + unfold gp_schedule_next_peer. destruct (gp_candidates c) as [|[d p] l] eqn:El; cbn; [|done].
      intros _ Hd%dom_empty_inv_L. unfold gp_is_done in Ed. by rewrite !bool_decide_eq_true_2 in Ed.
Qed.

(** ** The engine *)

Lemma sound_set local e id q : engine_sound local e → query_id q = id → query_ok q → engine_sound local (set_query e id q).
Proof.
  intros [] Hid Hq. split; [by apply set_query_wf|done..|].
  intros i x. cbn. intros [[<- <-]|[_ ?]]%lookup_insert_Some; [done|by eapply es_queries0].
Qed.

Lemma sound_delete local e id : engine_sound local e → engine_sound local (set_queries e (delete id (queries e))).
Proof.
  intros []. split; [by apply delete_query_wf|done..|]. intros i x. cbn. intros [_ ?]%lookup_delete_Some. by eapply es_queries0.
Qed.

Lemma sound_id local e id q : engine_sound local e → queries e !! id = Some q → query_id q = id.
Proof. intros [Hwf _ _ _]. apply Hwf. Qed.

Lemma sound_response_failure local e id p : engine_sound local e → engine_sound local (register_response_failure e id p).
Proof.
  intros He. unfold register_response_failure. destruct (queries e !! id) as [q|] eqn:E; [|done].
  apply sound_set; [done| |by eapply ok_failure, es_queries].
  rewrite query_response_failure_id. by eapply sound_id.
Qed.

Lemma sound_send_failure local e id p : engine_sound local e → engine_sound local (register_send_failure e id p).
Proof.
  intros He. unfold register_send_failure. destruct (queries e !! id) as [q|] eqn:E; [|done].
  pose proof (sound_id _ _ _ _ He E) as Hid. destruct q; try done; (apply sound_set; [done| |done]); cbn in *;
    by rewrite tp_failure_query.
Qed.

Lemma sound_send_success local e id p : engine_sound local e → engine_sound local (register_send_success e id p).
Proof.
  intros He. unfold register_send_success. destruct (queries e !! id) as [q|] eqn:E; [|done].
  pose proof (sound_id _ _ _ _ He E) as Hid. destruct q; try done; (apply sound_set; [done| |done]); cbn in *;
    by rewrite tp_success_query.
Qed.

Lemma sound_response local e now id p m : engine_sound local e → message_keyed m →
  engine_sound local (register_response e now id p m).1.
Proof.
  intros He Hm. unfold register_response. destruct (queries e !! id) as [q|] eqn:E; [|done].
  pose proof (query_response_id q now p m) as Hq.
  pose proof (ok_response q now p m ltac:(by eapply es_queries) Hm) as Hok.
  destruct (query_response q now p m) as [q' r]. cbn in *. apply sound_set; [done| |done].
  rewrite Hq. by eapply sound_id.
Qed.

Lemma sound_loop local now qs : ∀ e e' a, engine_sound local e → NoDup qs.*1 →
  (∀ i q, (i, q) ∈ qs → queries e !! i = Some q) →
  next_action_loop e now qs = Done (e', a) → engine_sound local e' ∧
  (a = None → (∀ i q, queries e' !! i = Some q → i ∈ qs.*1 → query_pending q ≠ ∅) ∧
              ∀ i, i ∉ qs.*1 → queries e' !! i = queries e !! i).
Proof.
  induction qs as [|[i q] qs IH]; intros e e' a He Hnd Hqs; cbn [next_action_loop].
  { intros [= <- <-]. split; [done|]. intros _. split; [|done]. intros i q _ Hi. by apply not_elem_of_nil in Hi. }
  rewrite fmap_cons in *. apply NoDup_cons in Hnd as [Hi Hnd]. cbn [fst] in *.
  pose proof (Hqs i q ltac:(by left)) as Hq. pose proof (es_queries _ _ He _ _ Hq) as Hok.
  pose proof (query_next_action_own q now) as [Hown _]. pose proof (ok_poll q now Hok) as Hok'.
  pose proof (ok_waits q now Hok) as Hw. destruct (query_next_action q now) as [q' act]. cbn [fst snd] in *.
  assert (engine_sound local (set_query e i q')) as He1.
  { apply sound_set; [done| |done]. rewrite Hown. by eapply sound_id. }
  destruct act as [act|].
  - intros Hd. assert (engine_sound local e' ∧ a ≠ None) as [? ?]; [|by split].
    destruct act; try (injection Hd as <- <-; done).
    + unfold on_query_succeeded in Hd. destruct (queries (set_query e i q') !! query); cbn [outcome_bind] in Hd; [|done].
      injection Hd as <- <-. split; [by apply sound_delete|done].
    + unfold on_query_failed in Hd. destruct (queries (set_query e i q') !! query); cbn [outcome_bind] in Hd; [|done].
      injection Hd as <- <-. split; [by apply sound_delete|done].
  - intros Hd. destruct (IH (set_query e i q') e' a He1 Hnd) as [He' Hn]; [|done|].
    { intros j x Hx. cbn. rewrite lookup_insert_ne; [apply Hqs; by right|]. intros ->. apply Hi, list_elem_of_fmap. by exists (j, x). }
    split; [done|]. intros ->. destruct (Hn eq_refl) as [Hn1 Hn2]. split.
    + intros j x Hx [->|Hj]%elem_of_cons; [|by eapply Hn1]. rewrite (Hn2 i Hi) in Hx. cbn in Hx.
      rewrite lookup_insert_eq in Hx. injection Hx as <-. by apply Hw.
    + intros j Hj. rewrite Hn2 by set_solver. cbn. rewrite lookup_insert_ne; [done|]. set_solver.
Qed.

(** Once the engine has no action left, each of its queries waits for a peer. *)
Lemma sound_next_action local e now e' a : engine_sound local e → engine_next_action e now = Done (e', a) →
  engine_sound local e' ∧ (a = None → ∀ i q, queries e' !! i = Some q → query_pending q ≠ ∅).
Proof.
  intros He Ha. destruct (sound_loop local now _ e e' a He (map_order_keys_nodup _)
    ltac:(intros i q; by rewrite map_order_elem) Ha) as [He' Hn]. split; [done|].
  intros Hnone. destruct (Hn Hnone) as [Hn1 Hn2]. intros i q Hq. eapply Hn1; [done|].
  destruct (decide (i ∈ (map_order (queries e)).*1)) as [|Hni]; [done|]. rewrite Hn2 in Hq by done.
  apply list_elem_of_fmap. exists (i, q). split; [done|]. by apply map_order_elem.
Qed.

(** ** The routing table *)

(** The table of the node [local]. *)
Definition table_sound (local : PeerId) (t : RoutingTable) : Prop := table_wf t ∧ local_key t = key_of_peer local.

Lemma entry_local random t key t' b e : table_entry random t key = Done (t', b, e) → local_key t' = local_key t.
Proof.
  unfold table_entry. destruct (BucketIndex_new _); [|by intros [= <- _ _]]. destruct (buckets t !! _); [|done].
  destruct (bucket_entry _ _ _) as [[nodes x]|]; cbn [outcome_bind]; [|done]. by intros [= <- _ _].
Qed.

Lemma update_local t b i f t' : update_node t b i f = Done t' → local_key t' = local_key t.
Proof.
  unfold update_node. destruct (bucket_at t b !! i); [|by intros [= <-]]. destruct (f _); cbn [outcome_bind]; [|done].
  by intros [= <-].
Qed.

Lemma table_step_local t op t' : table_step t op = Done t' → local_key t' = local_key t.
Proof.
  assert (∀ random key f, (run (t, b, e) <- table_entry random t key ;;
    match e with Occupied i => update_node t b i f | _ => Done t end) = Done t' → local_key t' = local_key t) as Hup.
  { intros random key f. destruct (table_entry random t key) as [[[t1 b] e]|] eqn:E; cbn [outcome_bind]; [|done].
    apply entry_local in E. destruct e; [by intros [= <-]|intros ->%update_local|by intros [= <-]..]. done. }
  destruct op as [random p|random p l|random p e|random p|random p l c]; cbn [table_step].
  - destruct (table_entry random t _) as [[[t1 b] e]|] eqn:E; cbn [outcome_bind]; [|done]. intros [= <-].
    by eapply entry_local.
  - apply Hup.
  - apply Hup.
  - apply Hup.
  - unfold add_known_peer. destruct (with_peer p <$> l); [by intros [= <-]|].
    destruct (table_entry random t _) as [[[t1 b] e]|] eqn:E; cbn [outcome_bind]; [|done].
    apply entry_local in E. destruct e; [by intros [= <-]|intros ->%update_local; done| |by intros [= <-]].
    destruct (KademliaPeer_new p _ c); cbn [outcome_bind]; [|done]. by intros [= <-].
Qed.

Lemma table_step_sound local t op : table_sound local t → ∃ t', table_step t op = Done t' ∧ table_sound local t'.
Proof.
  intros [Hwf Hl]. destruct (table_step_total t op Hwf) as (t' & Ht & Hwf'). exists t'. split; [done|]. split; [done|].
  by rewrite (table_step_local _ _ _ Ht).
Qed.

(** The closest peers are keyed by their identifiers, and the local node is not one of them. *)
Lemma closest_start {T} local t (target : Key T) n : table_sound local t →
  Forall (λ p, peer_keyed p ∧ kad_peer p ≠ local) (closest t target n).
Proof.
  intros [Hwf Hl]. unfold closest. rewrite take_N_take. apply Forall_take, Forall_forall. intros p Hp.
  apply list_elem_of_join in Hp as (l & Hp & (b & -> & _)%list_elem_of_fmap).
  apply closest_iter_elem in Hp as [Hin Ha]. destruct (placed_log2 t b p Hwf Hin Ha) as [Hpos _].
  apply list_elem_of_lookup in Hin as [i Hi]. destruct (bucket_nodes _ _ _ (bucket_at_wf t b Hwf) i p Hi) as [Hk _].
  split; [done|]. intros Heq. rewrite Hk, Heq, Hl in Hpos. unfold key_distance in Hpos. rewrite N.lxor_nilpotent in Hpos. lia.
Qed.

Lemma targets_sound local self peers : ∀ t t' l, table_sound local t →
  put_record_targets self t peers = Done (t', l) → local_key t' = local_key t.
Proof.
  induction peers as [|[p random] peers IH]; intros t t' l Ht; cbn [put_record_targets]; [by intros [= <- _]|].
  case_decide; [by apply IH|].
  destruct (table_step_sound local t (OpLookup random p) Ht) as (t1 & Ht1 & Hs). cbn [table_step] in Ht1.
  destruct (table_entry random t (key_of_peer p)) as [[[t2 b] e]|] eqn:E; cbn [outcome_bind] in *; [|done].
  injection Ht1 as ->. apply entry_local in E.
  destruct (put_record_targets self t1 peers) as [[t3 l3]|] eqn:E3; cbn [outcome_bind]; [|done].
  intros [= <- _]. by rewrite (IH _ _ _ Hs E3).
Qed.

(** ** Messages *)

Lemma peers_of_schema_keyed n : ∀ l ps, peers_of_schema n l = Done ps → Forall peer_keyed ps.
Proof.
  intros l. revert n. induction l as [|s l IH]; intros n ps; destruct n as [|n]; cbn [peers_of_schema];
    try (intros [= <-]; constructor).
  unfold peer_of_schema at 1. destruct (PeerId_from_bytes (schema_id s)) as [p|]; cbn [outcome_bind]; [|apply IH].
  destruct (push_all AddressStore_new _) as [st|]; cbn [outcome_bind]; [|done].
  destruct (connection_of_i32 _) as [c|]; cbn [outcome_bind]; [|apply IH].
  destruct (peers_of_schema n l) as [ks|] eqn:E; cbn [outcome_bind]; [|done]. intros [= <-].
  constructor; [done|]. by eapply IH.
Qed.

Lemma message_of_schema_keyed now k sm m : message_of_schema now k sm = Done (Some m) → message_keyed m.
Proof.
  unfold message_of_schema. case_decide.
  { destruct (peers_of_schema _ _) as [ps|] eqn:E; cbn [outcome_bind]; [|done]. intros [= <-]. by eapply peers_of_schema_keyed. }
  destruct m; [|done..]. intros Hm. exfalso. revert Hm.
  case_decide; [destruct (sm_record sm) as [r|]; cbn; [destruct (record_from_schema now r)|]; done|].
  case_decide.
  { destruct (sm_record sm) as [r|]; [destruct (record_from_schema now r); [|done]|];
      (destruct (peers_of_schema _ _); cbn [outcome_bind]; done). }
  case_decide; [destruct (sm_key sm); [done|]; destruct (peers_of_schema _ _); cbn [outcome_bind]; done|].
  case_decide; [|done]. destruct (peers_of_schema k (sm_closer_peers sm)); cbn [outcome_bind]; [|done].
  by destruct (peers_of_schema k (sm_provider_peers sm)).
Qed.

Lemma retain_global_keyed m : message_keyed m → message_keyed (message_retain_global m).
Proof.
  destruct m; cbn; try done. unfold retain_closer_peers. intros Hk. apply Forall_forall. intros p [_ Hp]%list_elem_of_filter.
  apply list_elem_of_fmap in Hp as (q & -> & Hq). rewrite Forall_forall in Hk. exact (Hk q Hq).
Qed.
End sound.
