(* ===== verification/KademliaFacts.v ===== *)
(** * Facts about the Kademlia event loop

    What the engine's operations do to the peers a query waits for, the invariant of the event
    loop, that no branch of it panics, and that the loop over the engine's actions ends. *)

From stdpp Require Import base tactics option list gmap strings sorting fin_maps.
From Stdlib Require Import ZArith NArith Lia Init.Byte.
From S2P Require Import Prelude Multiaddr AddressStore PeerState BTreeMap KademliaTypes KBucket RoutingTable.
From S2P Require Import RoutingTableClosest RoutingTableInvariant KademliaStore KademliaStoreFacts.
From S2P Require Import KademliaCommands KademliaMessage KademliaQuery QueryFrontier FindNodeFacts QueryEngine QueryEngineFacts.
From S2P Require Import KademliaLookups.
From S2P Require Import TransportManagerHandle ProtocolTypes KademliaExecutor KademliaHandle Kademlia.

Local Open Scope litep2p_scope.

Create HintDb kad.

(** ** The peers a query waits for *)

Inductive RequestKind := LookupRequest | PutRequest | AddRequest.

#[export] Instance RequestKind_eq_dec : EqDecision RequestKind.
Proof. solve_decision. Defined.

(** The requests a query makes. *)
Definition query_kind (q : QueryType) : RequestKind :=
  match q with
  | QPutRecordToFoundNodes _ => PutRequest
  | QAddProviderToFoundNodes _ => AddRequest
  | _ => LookupRequest
  end.

(** What is left to do for a query before it can only wait. *)
Definition query_measure (q : QueryType) : nat :=
  match q with
  | QFindNode c => 1 + length (fn_candidates c)
  | QPutRecord _ _ c | QAddProvider _ _ _ c => 2 + length (fn_candidates c)
  | QPutRecordToPeers _ _ _ => 2
  | QGetRecord c => 1 + length (gr_candidates c) + length (gr_records c)
  | QGetProviders c => 1 + length (gp_candidates c)
  | QPutRecordToFoundNodes _ | QAddProviderToFoundNodes _ => 1
  end.

Lemma fn_failure_pending {T} (c : FindNodeContext T) peer :
  dom (fn_pending (fn_register_response_failure c peer)) = dom (fn_pending c) ∖ {[peer]} ∧
  fn_candidates (fn_register_response_failure c peer) = fn_candidates c.
Proof.
  unfold fn_register_response_failure. destruct (fn_pending c !! peer) as [[p t]|] eqn:E; simpl.
  - split; [by rewrite dom_delete_L|done].
  - apply not_elem_of_dom in E. split; [set_solver|done].
Qed.

Lemma fn_response_pending {T} (c : FindNodeContext T) peer peers :
  dom (fn_pending (fn_register_response c peer peers).1) = dom (fn_pending c) ∖ {[peer]}.
Proof.
  unfold fn_register_response. destruct (fn_pending c !! peer) as [[p t]|] eqn:E; simpl.
  - by rewrite dom_delete_L.
  - apply not_elem_of_dom in E. set_solver.
Qed.

Lemma query_response_failure_pending q peer :
  query_kind (query_response_failure q peer) = query_kind q ∧
  query_pending (query_response_failure q peer) =
    (if decide (query_kind q = LookupRequest) then query_pending q ∖ {[peer]} else query_pending q) ∧
  query_measure (query_response_failure q peer) = query_measure q.
Proof.
  split; [by destruct q|]. destruct q as [c|r qu c|r qu c|c|c|k p qu c|c|c]; simpl.
  1,2,6: by destruct (fn_failure_pending c peer) as [-> ->].
  - split; [set_solver|done].
  - done.
  - unfold gr_register_response_failure. destruct (gr_pending c !! peer) as [p|] eqn:E; simpl.
    + split; [by rewrite dom_delete_L|done].
    + apply not_elem_of_dom in E. split; [set_solver|done].
  - done.
  - unfold gp_register_response_failure. destruct (gp_pending c !! peer) as [p|] eqn:E; simpl.
    + split; [by rewrite dom_delete_L|done].
    + apply not_elem_of_dom in E. split; [set_solver|done].
Qed.

Lemma query_response_pending q now peer message :
  query_kind (query_response q now peer message).1 = query_kind q ∧
  query_pending (query_response q now peer message).1 =
    if decide (query_kind q = LookupRequest) then query_pending q ∖ {[peer]} else query_pending q.
Proof.
  destruct (query_response_failure_pending q peer) as (Hk & Hp & _).
  destruct q as [c|r qu c|r qu c|c|c|k p qu c|c|c], message as [? peers| |? record peers|? |? peers providers];
    try done; cbn [query_response].
  1,2,4: pose proof (fn_response_pending c peer peers) as Hr; destruct (fn_register_response c peer peers); done.
  - unfold gr_register_response. destruct (gr_pending c !! peer) as [p|] eqn:E; simpl.
    + repeat case_match; simplify_eq/=; by rewrite dom_delete_L.
    + apply not_elem_of_dom in E. set_solver.
  - unfold gp_register_response. destruct (gp_pending c !! peer) as [p|] eqn:E; simpl.
    + by rewrite dom_delete_L.
    + apply not_elem_of_dom in E. set_solver.
Qed.

Lemma tp_failure_pending c peer : pending_peers (tp_register_send_failure c peer) = pending_peers c ∖ {[peer]}.
Proof. unfold tp_register_send_failure. case_decide; simpl; [done|]. set_solver. Qed.

Lemma tp_success_pending c peer : pending_peers (tp_register_send_success c peer) = pending_peers c ∖ {[peer]}.
Proof. unfold tp_register_send_success. case_decide; simpl; [done|]. set_solver. Qed.

(** What one poll of a query does. *)
Definition query_polled (q q' : QueryType) (a : option QueryAction) : Prop :=
  query_kind q' = query_kind q ∧
  match a with
  | Some (SendMessage _ p _) =>
      query_kind q = LookupRequest ∧ query_pending q' = {[p]} ∪ query_pending q ∧ 1 + query_measure q' = query_measure q
  | Some (GetRecordPartialResult _ _) =>
      query_pending q' = query_pending q ∧ 1 + query_measure q' = query_measure q
  | _ => query_pending q' = query_pending q ∧ query_measure q' = query_measure q
  end.

Lemma gr_schedule_polled c :
  let '(c', a) := gr_schedule_next_peer c in
  gr_records c' = gr_records c ∧
  match a with
  | Some (SendMessage _ p _) => dom (gr_pending c') = {[p]} ∪ dom (gr_pending c) ∧
      1 + length (gr_candidates c') = length (gr_candidates c)
  | Some _ => False
  | None => c' = c
  end.
Proof.
  unfold gr_schedule_next_peer. destruct (gr_candidates c) as [|[d p] l]; simpl; [done|].
  split_and!; [done|by rewrite dom_insert_L|done].
Qed.

Lemma gp_schedule_polled c :
  let '(c', a) := gp_schedule_next_peer c in
  match a with
  | Some (SendMessage _ p _) => dom (gp_pending c') = {[p]} ∪ dom (gp_pending c) ∧
      1 + length (gp_candidates c') = length (gp_candidates c)
  | Some _ => False
  | None => c' = c
  end.
Proof.
  unfold gp_schedule_next_peer. destruct (gp_candidates c) as [|[d p] l]; simpl; [done|].
  split; [by rewrite dom_insert_L|done].
Qed.

Lemma query_next_polled q now : let '(q', a) := query_next_action q now in query_polled q q' a.
Proof.
  destruct q as [c|r qu c|r qu c|c|c|k p qu c|c|c]; simpl.
  1,2,6: pose proof (fn_next_polled c now) as Hc; destruct (fn_next_action c now) as [c' a];
    split; [done|]; destruct a as [[]|]; simpl; try done; destruct Hc as [-> Hc]; rewrite ?Hc; auto with lia.
  - done.
  - unfold tp_next_action. by destruct (tp_is_finished c), (tp_is_succeded c).
  - unfold gr_next_action. destruct (gr_records c) as [|r records] eqn:Er;
      [|split_and!; simpl; [done..|rewrite Er; simpl; lia]].
    destruct (gr_is_done c); [by case_decide|]. destruct (sufficient_records _ _); [done|].
    case_decide; [done|]. pose proof (gr_schedule_polled c) as Hs.
    destruct (gr_schedule_next_peer c) as [c' a]. destruct Hs as [Hr Hs].
    split; [done|]. destruct a as [[]|]; simpl; try done; [|by subst].
    destruct Hs as [-> Hs]. rewrite Hr, <- Hs. auto with lia.
  - unfold tp_next_action. by destruct (tp_is_finished c), (tp_is_succeded c).
  - unfold gp_next_action. destruct (gp_is_done c); [by case_decide|]. case_decide; [done|].
    pose proof (gp_schedule_polled c) as Hs. destruct (gp_schedule_next_peer c) as [c' a].
    split; [done|]. destruct a as [[]|]; simpl; try done; [|by subst].
    destruct Hs as [-> Hs]. rewrite <- Hs. auto with lia.
Qed.

(** ** The requests an engine waits for *)

Definition waits (e : QueryEngine) (kind : RequestKind) (id : N) (p : PeerId) : Prop :=
  ∃ q, queries e !! id = Some q ∧ query_kind q = kind ∧ p ∈ query_pending q.

Definition engine_measure (e : QueryEngine) : nat :=
  map_fold (λ _ q n, query_measure q + n) 0 (queries e).

Lemma measure_delete e id q : queries e !! id = Some q →
  engine_measure e = query_measure q + engine_measure (set_queries e (delete id (queries e))).
Proof.
  intros Hq. unfold engine_measure. simpl.
  apply (map_fold_delete_L (λ _ q n, query_measure q + n)); [|done]. intros. lia.
Qed.

Lemma measure_insert e id q : queries e !! id = None →
  engine_measure (set_query e id q) = query_measure q + engine_measure e.
Proof.
  intros Hq. unfold engine_measure. simpl.
  apply (map_fold_insert_L (λ _ q n, query_measure q + n)); [|done]. intros. lia.
Qed.

Lemma measure_update e id q q' : queries e !! id = Some q →
  engine_measure (set_query e id q') + query_measure q = query_measure q' + engine_measure e.
Proof.
  intros Hq. rewrite (measure_delete e id q Hq).
  assert (set_query e id q' = set_query (set_queries e (delete id (queries e))) id q') as ->.
  { unfold set_query, set_queries. simpl. by rewrite insert_delete_eq. }
  rewrite measure_insert; [lia|]. simpl. by rewrite lookup_delete_eq.
Qed.

Lemma waits_update e id q q' kind i p : queries e !! id = Some q → query_kind q' = query_kind q →
  waits (set_query e id q') kind i p ↔
  waits e kind i p ∧ i ≠ id ∨ i = id ∧ kind = query_kind q ∧ p ∈ query_pending q'.
Proof.
  intros Hq Hk. unfold waits. simpl. destruct (decide (i = id)) as [->|Hne].
  - setoid_rewrite lookup_insert_eq. split.
    + intros (x & [= <-] & <- & Hp). auto.
    + intros [[_ ?]|(_ & -> & Hp)]; [done|]. eauto.
  - setoid_rewrite lookup_insert_ne; [|done]. split.
    + intros ?. left. auto.
    + intros [[? _]|[? _]]; done.
Qed.

(** An update that stops waiting for one peer. *)
Lemma waits_settled e id q q' kind i p peer (b : bool) : queries e !! id = Some q → query_kind q' = query_kind q →
  query_pending q' = (if b then query_pending q ∖ {[peer]} else query_pending q) →
  waits (set_query e id q') kind i p ↔ waits e kind i p ∧ ¬ (b = true ∧ i = id ∧ p = peer).
Proof.
  intros Hq Hk Hp. rewrite waits_update by done. rewrite Hp. split.
  - intros [[Hw Hne]|(-> & -> & Hin)]; [naive_solver|]. split.
    + exists q. split_and!; [done..|]. destruct b; set_solver.
    + intros (-> & _ & ->). set_solver.
  - intros [Hw Hn]. destruct (decide (i = id)) as [->|Hne]; [|by left]. right.
    destruct Hw as (x & Hx & <- & Hin). simplify_eq. split_and!; [done..|].
    destruct b; [|done]. set_solver.
Qed.

Lemma dom_update (e : QueryEngine) id q q' : queries e !! id = Some q →
  dom (queries (set_query e id q')) = dom (queries e).
Proof. intros Hq%elem_of_dom_2. simpl. rewrite dom_insert_L. set_solver. Qed.

Section registers.
Context `{IpNetwork, HashOrder, Sha256, MultihashLib}.

(** The requests a registered event settles; everything else stays. *)
Definition settles (e e' : QueryEngine) (settled : RequestKind → Prop) (id : N) (peer : PeerId) : Prop :=
  dom (queries e') = dom (queries e) ∧
  ∀ kind i p, waits e' kind i p ↔ waits e kind i p ∧ ¬ (settled kind ∧ i = id ∧ p = peer).

Lemma settles_none e id peer settled : queries e !! id = None → settles e e settled id peer.
Proof. intros Hq. split; [done|]. unfold waits. naive_solver. Qed.

Lemma settles_update e id q q' peer (b : bool) (settled : RequestKind → Prop) :
  queries e !! id = Some q → query_kind q' = query_kind q →
  query_pending q' = (if b then query_pending q ∖ {[peer]} else query_pending q) →
  (settled (query_kind q) ↔ b = true) → settles e (set_query e id q') settled id peer.
Proof.
  intros Hq Hk Hp Hb. split; [by eapply dom_update|]. intros kind i p.
  rewrite (waits_settled e id q q' kind i p peer b) by done. split.
  - intros [Hw Hn]. split; [done|]. intros (Hs & -> & ->). destruct Hw as (x & Hx & <- & _). naive_solver.
  - intros [Hw Hn]. split; [done|]. intros (Hs & -> & ->). destruct Hw as (x & Hx & <- & _). naive_solver.
Qed.

Lemma register_response_failure_settles e id peer :
  settles e (register_response_failure e id peer) (λ k, k = LookupRequest) id peer ∧
  engine_measure (register_response_failure e id peer) = engine_measure e.
Proof.
  unfold register_response_failure. destruct (queries e !! id) as [q|] eqn:E; [|split; [by apply settles_none|done]].
  destruct (query_response_failure_pending q peer) as (Hk & Hp & Hm). split.
  - eapply (settles_update e id q _ peer (bool_decide (query_kind q = LookupRequest))); [done..| |].
    + rewrite Hp. by repeat case_decide.
    + by rewrite bool_decide_eq_true.
  - pose proof (measure_update e id q (query_response_failure q peer) E). lia.
Qed.

Lemma register_response_settles e now id peer message :
  settles e (register_response e now id peer message).1 (λ k, k = LookupRequest) id peer.
Proof.
  unfold register_response. destruct (queries e !! id) as [q|] eqn:E; [|by apply settles_none].
  destruct (query_response_pending q now peer message) as (Hk & Hp).
  destruct (query_response q now peer message) as [q' r]. simpl in *.
  eapply (settles_update e id q _ peer (bool_decide (query_kind q = LookupRequest))); [done..| |].
  - rewrite Hp. by repeat case_decide.
  - by rewrite bool_decide_eq_true.
Qed.

Lemma settles_lookup e id q peer : queries e !! id = Some q →
  settles e e (λ k, k ≠ LookupRequest) id peer ∨ query_kind q ≠ LookupRequest.
Proof.
  intros E. destruct (decide (query_kind q = LookupRequest)) as [Hk|]; [left|by right]. split; [done|].
  intros kind i p. split; [|naive_solver]. intros Hw. split; [done|]. intros (Hn & -> & _).
  destruct Hw as (x & Hx & <- & _). naive_solver.
Qed.

Lemma register_send_failure_settles e id peer :
  settles e (register_send_failure e id peer) (λ k, k ≠ LookupRequest) id peer ∧
  engine_measure (register_send_failure e id peer) = engine_measure e.
Proof.
  unfold register_send_failure. destruct (queries e !! id) as [q|] eqn:E; [|split; [by apply settles_none|done]].
  pose proof (settles_lookup e id q peer E) as Hl.
  destruct q; (split; [|try done]); (try (by destruct Hl)).
  1,3: eapply (settles_update e id _ _ peer true); [done..|apply tp_failure_pending|done].
  all: match goal with |- engine_measure (set_query _ _ ?q') = _ => pose proof (measure_update e id _ q' E) as Hm end;
    simpl in Hm; lia.
Qed.

Lemma register_send_success_settles e id peer :
  settles e (register_send_success e id peer) (λ k, k ≠ LookupRequest) id peer.
Proof.
  unfold register_send_success. destruct (queries e !! id) as [q|] eqn:E; [|by apply settles_none].
  pose proof (settles_lookup e id q peer E) as Hl.
  destruct q; (try (by destruct Hl)).
  all: eapply (settles_update e id _ _ peer true); [done..|apply tp_success_pending|done].
Qed.

Lemma settles_trans e e' e'' s s' id peer : settles e e' s id peer → settles e' e'' s' id peer →
  settles e e'' (λ k, s k ∨ s' k) id peer.
Proof.
  intros [Hd Hw] [Hd' Hw']. split; [by rewrite Hd'|]. intros kind i p. rewrite Hw', Hw. naive_solver.
Qed.

(** The peer is settled for every kind of request. *)
Lemma fail_request_settles e id peer :
  let e' := register_response_failure (register_send_failure e id peer) id peer in
  settles e e' (λ _, True) id peer ∧ engine_measure e' = engine_measure e.
Proof.
  destruct (register_send_failure_settles e id peer) as [Hs Hm].
  destruct (register_response_failure_settles (register_send_failure e id peer) id peer) as [Hs' Hm'].
  cbv zeta. split; [|congruence].
  destruct (settles_trans _ _ _ _ _ _ _ Hs Hs') as [Hd Hw]. split; [done|]. intros kind i p. rewrite Hw.
  destruct kind; naive_solver.
Qed.

(** ** Polling the engine *)

(** What is left to do after an action, at least this much less than before. *)
Definition action_cost (a : option QueryAction) : nat :=
  match a with
  | None => 0
  | Some (ActPutRecordToFoundNodes _ _ _ _) | Some (ActAddProviderToFoundNodes _ _ _ _ _) => 2
  | Some _ => 1
  end.

(** The peer an action waits for. *)
Definition asked (a : option QueryAction) (kind : RequestKind) (id : N) (p : PeerId) : Prop :=
  kind = LookupRequest ∧ ∃ m, a = Some (SendMessage id p m).

Definition engine_polled (e e' : QueryEngine) (a : option QueryAction) : Prop :=
  engine_measure e' + action_cost a ≤ engine_measure e ∧
  ∀ kind i p, waits e' kind i p ↔ (waits e kind i p ∨ asked a kind i p) ∧ i ∈ dom (queries e').

Lemma waits_dom e kind i p : waits e kind i p → i ∈ dom (queries e).
Proof. intros (q & Hq & _). by eapply elem_of_dom_2. Qed.

Lemma waits_same e kind i p (a : option QueryAction) : (∀ id p m, a ≠ Some (SendMessage id p m)) →
  waits e kind i p ↔ (waits e kind i p ∨ asked a kind i p) ∧ i ∈ dom (queries e).
Proof.
  intros Ha. split; [intros Hw; split; [by left|by eapply waits_dom]|].
  intros [[?|(_ & m & Hm)] _]; [done|]. by destruct (Ha i p m).
Qed.

Lemma waits_deleted e id kind i p :
  waits (set_queries e (delete id (queries e))) kind i p ↔ waits e kind i p ∧ i ≠ id.
Proof. unfold waits. simpl. setoid_rewrite lookup_delete_Some. naive_solver. Qed.

(** The query of an action of [engine_next_action] is polled and put back. *)
Lemma query_put_back e id q q' a : queries e !! id = Some q → query_polled q q' a →
  match a with Some (SendMessage i _ _) => i = id | _ => True end →
  let e1 := set_query e id q' in
  engine_measure e1 + match a with Some (SendMessage _ _ _) | Some (GetRecordPartialResult _ _) => 1 | _ => 0 end =
    engine_measure e ∧
  dom (queries e1) = dom (queries e) ∧
  ∀ kind i p, waits e1 kind i p ↔ waits e kind i p ∨ asked a kind i p.
Proof.
  intros Hq [Hk Ha] Hid e1. pose proof (measure_update e id q q' Hq) as Hm. fold e1 in Hm.
  split; [destruct a as [[]|]; lia|]. split; [by eapply dom_update|]. intros kind i p. unfold e1.
  rewrite (waits_update e id q q' kind i p Hq Hk).
  assert ((∀ id p m, a ≠ Some (SendMessage id p m)) → query_pending q' = query_pending q) as Hsame.
  { intros Hn. destruct a as [[]|]; try apply Ha. by edestruct Hn. }
  assert ((∃ id p m, a = Some (SendMessage id p m)) ∨ ∀ id p m, a ≠ Some (SendMessage id p m)) as [Hs|Hn].
  { destruct a as [[]|]; [left; by eauto|right; done..]. }
  - destruct Hs as (? & p' & m & ->). subst. destruct Ha as (Hl & Hp & _). rewrite Hp, elem_of_union, elem_of_singleton.
    unfold asked, waits. split.
    + intros [[? ?]|(-> & -> & [->|?])]; [by left|right; by eauto|left; by eauto].
    + intros [(x & Hx & <- & Hin)|(-> & m' & [= -> ->])].
      * destruct (decide (i = id)) as [->|]; [simplify_eq; by auto|left; by eauto].
      * auto.
  - rewrite (Hsame Hn). split.
    + intros [[? _]|(-> & -> & ?)]; left; [done|by exists q].
    + intros [(x & Hx & <- & Hin)|(_ & m & ->)]; [|by destruct (Hn i p m)].
      destruct (decide (i = id)) as [->|]; [simplify_eq; by auto|left; split; [by exists x|done]].
Qed.

(** A query that ends is removed. *)
Lemma query_ends e1 e id q a : queries e1 !! id = Some q → 
  (∀ kind i p, waits e1 kind i p ↔ waits e kind i p) → engine_measure e1 = engine_measure e →
  dom (queries e1) = dom (queries e) → action_cost (Some a) ≤ query_measure q →
  (∀ i p m, a ≠ SendMessage i p m) →
  engine_polled e (set_queries e1 (delete id (queries e1))) (Some a).
Proof.
  intros Hq Hw Hm Hd Hc Ha. pose proof (measure_delete e1 id q Hq) as Hdel. split; [lia|].
  intros kind i p. rewrite waits_deleted, Hw. simpl. rewrite dom_delete_L, Hd.
  rewrite (waits_same e kind i p (Some a)) at 1; [set_solver|]. intros ??? [= Hx]. by eapply Ha.
Qed.

Lemma on_query_succeeded_cost e id q e' a : queries e !! id = Some q → on_query_succeeded e id = Done (e', a) →
  e' = set_queries e (delete id (queries e)) ∧ action_cost (Some a) ≤ query_measure q ∧
  ∀ i p m, a ≠ SendMessage i p m.
Proof.
  intros Hq. unfold on_query_succeeded. rewrite Hq. intros [= <- <-]. split; [done|].
  split; [destruct q; simpl; lia|by destruct q].
Qed.

Lemma next_action_loop_polled now qs : ∀ e e' a, engine_wf e → NoDup qs.*1 →
  (∀ id q, (id, q) ∈ qs → queries e !! id = Some q) →
  next_action_loop e now qs = Done (e', a) → engine_polled e e' a.
Proof.
  induction qs as [|[id q] qs IH]; intros e e' a He Hnd Hqs; cbn [next_action_loop].
  { intros [= <- <-]. split; [simpl; lia|]. intros kind i p. by apply waits_same. }
  rewrite fmap_cons in Hnd. apply NoDup_cons in Hnd as [Hid Hnd].
  pose proof (Hqs id q ltac:(by left)) as Hq.
  pose proof (query_next_polled q now) as Hp. pose proof (query_next_action_own q now) as [Hq' Ho].
  destruct (query_next_action q now) as [q' act]. cbn [fst snd] in *.
  rewrite (He id q Hq) in Hq', Ho.
  destruct (query_put_back e id q q' act Hq Hp) as (Hm & Hd & Hw); [destruct act as [[]|]; done|].
  set (e1 := set_query e id q') in *.
  assert (queries e1 !! id = Some q') as Hl by (unfold e1; simpl; by rewrite lookup_insert_eq).
  assert (engine_wf e1) as He1 by by apply set_query_wf. clear Hq'.
  destruct act as [act|].
  - destruct act; simpl in Ho; try done; subst.
    1,2: intros [= <- <-]; split; [simpl; lia|]; intros kind i p; rewrite Hw;
      (split; [intros Hx; split; [done|]; rewrite Hd; destruct Hx as [Hx|(_ & m' & ?)];
        [by eapply waits_dom|simplify_eq; by eapply elem_of_dom_2]|by intros [? _]]).
    + destruct (on_query_succeeded e1 id) as [[e2 a2]|] eqn:Hs; cbn [outcome_bind]; [|done]. intros [= <- <-].
      destruct (on_query_succeeded_cost _ _ _ _ _ Hl Hs) as (-> & Hc & Ha).
      eapply query_ends; [done| |lia|done..]. intros kind i p. rewrite Hw.
      split; [intros [?|(_ & m & ?)]; done|by left].
    + rewrite (on_query_failed_spec e1 id q' Hl). cbn [outcome_bind]. intros [= <- <-].
      eapply query_ends; [done| |lia|done| |done].
      * intros kind i p. rewrite Hw. split; [intros [?|(_ & m & ?)]; done|by left].
      * destruct q'; simpl; lia.
  - intros Hr. apply IH in Hr; [| done| done|].
    + destruct Hr as [Hm' Hw']. split; [lia|]. intros kind i p. rewrite Hw', Hw.
      split; [intros [[[?|(_ & m & ?)]|?] ?]; auto; done|tauto].
    + intros i x Hx. unfold e1. simpl. rewrite lookup_insert_ne; [apply Hqs; by right|].
      intros <-. apply Hid. apply list_elem_of_fmap. by exists (id, x).
Qed.

Lemma engine_next_action_polled e now e' a : engine_wf e → engine_next_action e now = Done (e', a) →
  engine_polled e e' a.
Proof.
  intros He. apply next_action_loop_polled; [done|apply map_order_keys_nodup|].
  intros id q. by rewrite map_order_elem.
Qed.
End registers.

(** ** The invariant of the event loop *)

(** A service that keeps the contract: [ks_polls] says which event its poll returns, [ks_idles]
    what else it does on its own. *)
Class KadServiceLaws (S : Type) `{KadService S} : Type := {
  ks_refines : S → Contract → Prop;
  ks_polls : S → ServiceEvent → S → Prop;
  ks_idles : S → S → Prop;
  ks_open_law s p c : ks_refines s c →
    ∃ c', opens p c (ks_open_substream s p).2 c' ∧ ks_refines (ks_open_substream s p).1 c';
  ks_dial_law s p c : ks_refines s c → ks_refines (ks_dial s p).1 c;
  ks_address_law s p l c : ks_refines s c → ∃ s', ks_add_known_address s p l = Done s' ∧ ks_refines s' c;
  ks_poll_law s e s' c : ks_refines s c → ks_polls s e s' → ∃ c', delivers c e c' ∧ ks_refines s' c';
  ks_idle_law s s' c : ks_refines s c → ks_idles s s' → ks_refines s' c;
}.

Section loop.
Context `{IpNetwork, HashOrder, Sha256, MultihashLib, MultiaddrBytes, MessageCodec} {S : Type} `{KadServiceLaws S}.
Context (debug : bool).
Implicit Types (k : Kademlia S).

(** The routing table, the store and the engine keep their invariants, and the service keeps the contract. *)
Record kad_wf k : Prop := {
  kw_table_sound : table_sound (preimage (k_local_key k)) (k_routing_table k);
  kw_store : kad_store_wf (k_store k);
  kw_providers : 0 < max_providers_per_key (store_config (k_store k));
  kw_sound : engine_sound (preimage (k_local_key k)) (k_engine k);
  kw_service : ∃ c, ks_refines (k_service k) c;
}.

Lemma kw_table k : kad_wf k → table_wf (k_routing_table k).
Proof. intros Hk. apply (kw_table_sound _ Hk). Qed.
Lemma kw_engine k : kad_wf k → engine_wf (k_engine k).
Proof. intros Hk. apply (es_wf _ _ (kw_sound _ Hk)). Qed.

Lemma wf_service k s : kad_wf k → (∃ c, ks_refines s c) → kad_wf (with_service k s).
Proof. by intros []. Qed.
Lemma wf_opened k p : kad_wf k → kad_wf (with_service k (ks_open_substream (k_service k) p).1).
Proof.
  intros Hk. destruct (kw_service _ Hk) as [c Hc]. apply wf_service; [done|].
  destruct (ks_open_law _ p _ Hc) as (c' & _ & ?). by exists c'.
Qed.
Lemma wf_dialed k p : kad_wf k → kad_wf (with_service k (ks_dial (k_service k) p).1).
Proof. intros Hk. destruct (kw_service _ Hk) as [c Hc]. apply wf_service; [done|]. exists c. by apply ks_dial_law. Qed.
Lemma add_addresses_total c (l : list KademliaPeer) : ∀ s, ks_refines s c → ∃ s', add_addresses s l = Done s' ∧ ks_refines s' c.
Proof.
  induction l as [|x l IH]; intros s Hs; cbn [add_addresses]; [by eauto|].
  destruct (ks_address_law s (kad_peer x) (kad_addresses x) c Hs) as (s' & -> & Hs'). by apply IH.
Qed.
Lemma wf_peers k m : kad_wf k → kad_wf (with_peers k m).
Proof. by intros []. Qed.
Lemma wf_substreams k m : kad_wf k → kad_wf (with_substreams k m).
Proof. by intros []. Qed.
Lemma wf_dials k m : kad_wf k → kad_wf (with_dials k m).
Proof. by intros []. Qed.
Lemma wf_counter k n : kad_wf k → kad_wf (with_counter k n).
Proof. by intros []. Qed.
Lemma wf_executor k x : kad_wf k → kad_wf (with_executor k x).
Proof. by intros []. Qed.
Lemma wf_effects k l : kad_wf k → kad_wf (with_effects k l).
Proof. by intros []. Qed.
Lemma wf_table k t : kad_wf k → table_sound (preimage (k_local_key k)) t → kad_wf (with_table k t).
Proof. by intros [] ?. Qed.
Lemma wf_engine k e : kad_wf k → engine_sound (preimage (k_local_key k)) e → kad_wf (with_engine k e).
Proof. by intros [] ?. Qed.
Lemma wf_store k op : kad_wf k → kad_wf (with_kad_store k (store_step (k_store k) op)).
Proof.
  intros []. split; [done| | |done..]; cbn [with_kad_store k_store].
  - by apply store_step_wf.
  - by rewrite store_step_config.
Qed.

Lemma set_query_start_wf k id q : kad_wf k → query_id q = id → query_ok q →
  kad_wf (with_engine k (set_query (k_engine k) id q)).
Proof. intros Hk Hid Hq. apply wf_engine; [done|]. apply sound_set; [apply Hk|done..]. Qed.

(** The queries that are started with the closest peers. *)
Lemma lookup_started {T} k id (target : Key T) message : kad_wf k →
  lookup_ok (FindNodeContext_new (find_node_config (k_engine k) id target) message (k_closest k target)).
Proof.
  intros Hk. apply lookup_start; [|apply (kw_sound _ Hk)]. unfold start_wf. cbn.
  rewrite (es_local _ _ (kw_sound _ Hk)). apply closest_start, Hk.
Qed.

Lemma parallelism_pos k : kad_wf k → 0 < N.to_nat (parallelism_factor (k_engine k)).
Proof. intros Hk. pose proof (es_parallelism _ _ (kw_sound _ Hk)). lia. Qed.

Lemma fail_request_wf k id p : kad_wf k → kad_wf (fail_request k id p).
Proof.
  intros Hk. apply wf_engine; [done|]. apply sound_response_failure, sound_send_failure, Hk.
Qed.

Lemma emit_wf k event : kad_wf k → kad_wf (emit k event).
Proof. apply wf_effects. Qed.
Lemma close_wf k s : kad_wf k → kad_wf (close_substream k s).
Proof. apply wf_effects. Qed.

#[local] Hint Resolve wf_service wf_peers wf_substreams wf_dials wf_counter wf_executor wf_effects wf_table wf_engine
  fail_request_wf emit_wf close_wf kw_sound : kad.
#[local] Hint Extern 1 (query_ok _) => exact I : kad.

Lemma table_op_total k op : kad_wf k →
  ∃ t, table_step (k_routing_table k) op = Done t ∧ table_sound (preimage (k_local_key k)) t.
Proof. intros Hk. apply table_step_sound, Hk. Qed.

Lemma open_actions_wf peer actions : ∀ k context, kad_wf k → kad_wf (open_actions k peer actions context).1.
Proof.
  induction actions as [|a actions IH]; intros k context Hk; cbn [open_actions]; [done|].
  pose proof (wf_opened k peer Hk) as Ho.
  destruct (ks_open_substream (k_service k) peer) as [s [id|err]]; cbn [fst] in Ho; [by apply IH|].
  apply IH. destruct a; auto with kad.
Qed.

Lemma on_connection_established_total random k peer endpoint : kad_wf k →
  ∃ k' r, k_on_connection_established random k peer endpoint = Done (k', r) ∧ kad_wf k'.
Proof.
  intros Hk. unfold k_on_connection_established.
  destruct (table_op_total k (OpEstablished random peer endpoint) Hk) as (t & Ht & Hwf). cbn [table_step] in Ht.
  rewrite Ht. cbn [outcome_bind]. destruct (k_peers (with_table k t) !! peer); [by eauto 10 with kad|].
  destruct (k_pending_dials (with_table k t) !! peer) as [actions|]; [|by eauto 10 with kad].
  pose proof (open_actions_wf peer actions (with_dials (with_table k t)
    (delete peer (k_pending_dials (with_table k t)))) ∅ ltac:(auto with kad)) as Ho.
  destruct (open_actions _ peer actions ∅) as [k1 ctx]. eauto 10 with kad.
Qed.

Lemma register_peer_failure_sound local e id p : engine_sound local e → engine_sound local (register_peer_failure e id p).
Proof. intros He. by apply sound_response_failure, sound_send_failure. Qed.

Lemma fail_actions_sound local peer query actions : ∀ e,
  engine_sound local e → engine_sound local (fail_actions e peer query actions).
Proof.
  unfold fail_actions. induction actions as [|[id a] actions IH]; intros e He; simpl; [done|].
  apply IH. case_decide; [done|]. by apply register_peer_failure_sound.
Qed.

#[local] Hint Resolve register_peer_failure_sound fail_actions_sound : kad.

Lemma disconnect_peer_total random k peer query : kad_wf k →
  ∃ k', k_disconnect_peer random k peer query = Done k' ∧ kad_wf k'.
Proof.
  intros Hk. unfold k_disconnect_peer.
  set (k1 := match query with Some q => _ | None => k end).
  assert (kad_wf k1) as Hk1 by (unfold k1; destruct query; eauto 10 with kad). clearbody k1.
  set (k2 := match k_peers k1 !! peer with Some a => _ | None => k1 end).
  assert (kad_wf k2) as Hk2.
  { unfold k2. destruct (k_peers k1 !! peer); [|done]. apply wf_engine; [by apply wf_peers|]. apply fail_actions_sound, (kw_sound _ Hk1). }
  clearbody k2.
  destruct (table_op_total k2 (OpDisconnected random peer) Hk2) as (t & Ht & Hwf). cbn [table_step] in Ht.
  rewrite Ht. cbn [outcome_bind]. eauto 10 with kad.
Qed.

(** Only requests are made to a peer: the assertion of [on_outbound_substream] does not fail. *)
Lemma next_peer_action_send e id p : match next_peer_action e id p with
  | Some (SendMessage _ p' _) => p' = p
  | Some _ => False
  | None => True
  end.
Proof.
  unfold next_peer_action. destruct (queries e !! id) as [[]|]; try done;
    unfold fn_next_peer_action, gr_next_peer_action, gp_next_peer_action; by case_decide.
Qed.

Lemma on_outbound_substream_total k peer id s : kad_wf k →
  ∃ k' r, k_on_outbound_substream debug k peer id s = Done (k', r) ∧ kad_wf k'.
Proof.
  intros Hk. unfold k_on_outbound_substream.
  destruct (k_peers (with_substreams k (delete id (k_pending_substreams k))) !! peer) as [ctx|]; [|by eauto 10 with kad].
  destruct (ctx !! id) as [[q|q m|q m]|]; [|by eauto 10 with kad..].
  pose proof (next_peer_action_send (k_engine k) q peer) as Ha. cbn [with_peers with_substreams k_engine].
  destruct (next_peer_action (k_engine k) q peer) as [[]|]; try done; eauto 10 with kad.
Qed.

Lemma on_inbound_substream_wf k peer s : kad_wf k → kad_wf (k_on_inbound_substream k peer s).
Proof. intros Hk. unfold k_on_inbound_substream. destruct (kc_mode _); auto with kad. Qed.

Lemma on_substream_open_failure_total random k id : kad_wf k →
  ∃ k', k_on_substream_open_failure random k id = Done k' ∧ kad_wf k'.
Proof.
  intros Hk. unfold k_on_substream_open_failure. destruct (k_pending_substreams k !! id) as [peer|]; [|by eauto].
  cbn zeta. destruct (k_peers _ !! peer) as [ctx|]; [|by eauto 10 with kad]. apply disconnect_peer_total. auto with kad.
Qed.

Lemma fail_all_wf peer actions : ∀ k, kad_wf k →
  kad_wf (foldl (λ k action, fail_request k (pa_query_id action) peer) k actions).
Proof. induction actions as [|a actions IH]; intros k Hk; simpl; [done|]. apply IH. auto with kad. Qed.

Lemma on_dial_failure_total random k peer addresses : kad_wf k →
  ∃ k', k_on_dial_failure random k peer addresses = Done k' ∧ kad_wf k'.
Proof.
  intros Hk. unfold k_on_dial_failure.
  destruct (table_op_total k (OpDialFailure random peer addresses) Hk) as (t & Ht & Hwf). cbn [table_step] in Ht.
  rewrite Ht. cbn [outcome_bind]. destruct (k_pending_dials _ !! peer) as [actions|]; [|by eauto 10 with kad].
  eexists. split; [done|]. apply fail_all_wf. auto with kad.
Qed.

Lemma add_pending_wf k peer id a : kad_wf k → kad_wf (add_pending k peer id a).
Proof. intros Hk. unfold add_pending. auto with kad. Qed.
#[local] Hint Resolve add_pending_wf : kad.

Lemma open_substream_or_dial_wf k peer a : kad_wf k → kad_wf (k_open_substream_or_dial k peer a).1.
Proof.
  intros Hk. unfold k_open_substream_or_dial.
  pose proof (wf_opened k peer Hk) as Ho.
  destruct (ks_open_substream (k_service k) peer) as [s [id|err]]; cbn [fst] in Ho; [by simpl; auto with kad|].
  pose proof (wf_dialed _ peer Ho) as Hd.
  destruct (ks_dial _ peer) as [s' [[]|err']]; cbn [fst] in Hd; [by simpl; auto 10 with kad|].
  destruct err'; try done. pose proof (wf_opened _ peer Hd) as Ho'.
  destruct (ks_open_substream _ peer) as [s'' [id|err'']]; simpl; auto 10 with kad.
Qed.
#[local] Hint Resolve open_substream_or_dial_wf on_inbound_substream_wf : kad.

(** *** Messages *)

Lemma discovered_total k peers : kad_wf k → ∃ k', k_register_discovered_peers k peers = Done k' ∧ kad_wf k'.
Proof.
  intros Hk. destruct (kw_service _ Hk) as [c Hc]. unfold k_register_discovered_peers.
  edestruct (add_addresses_total c) as (s & -> & Hs); [exact Hc|]. cbn [outcome_bind]. case_match; eauto 10 with kad.
Qed.

Lemma insert_proven_total random k proven : kad_wf k →
  ∃ k', k_insert_proven_server random k proven = Done k' ∧ kad_wf k'.
Proof.
  intros Hk. unfold k_insert_proven_server. destruct (kc_update_mode _); [by eauto 10 with kad|].
  destruct (table_op_total k (OpAddKnownPeer random (kad_peer proven) (kad_addresses proven)
    (k_connection k (kad_peer proven))) Hk) as (t & Ht & Hwf). cbn [table_step] in Ht.
  change (k_routing_table (emit k _)) with (k_routing_table k).
  change (k_connection (emit k _) (kad_peer proven)) with (k_connection k (kad_peer proven)).
  rewrite Ht. cbn [outcome_bind]. eauto 10 with kad.
Qed.

Lemma k_register_response_total now random k id p m : kad_wf k → message_keyed m →
  ∃ k', k_register_response now random k id p m = Done k' ∧ kad_wf k'.
Proof.
  intros Hk Hm. unfold k_register_response. pose proof (sound_response _ (k_engine k) now id p m (kw_sound _ Hk) Hm) as He.
  destruct (register_response (k_engine k) now id p m) as [e [proven|]]; [|by eauto 10 with kad].
  apply insert_proven_total. eauto 10 with kad.
Qed.

Lemma on_response_total now random k id p m peers s : kad_wf k → message_keyed m →
  ∃ k', k_on_response now random k id p m peers s = Done k' ∧ kad_wf k'.
Proof.
  intros Hk Hm. unfold k_on_response.
  destruct (discovered_total k peers Hk) as (k1 & -> & Hk1). cbn [outcome_bind].
  destruct (k_register_response_total now random k1 id p m Hk1 Hm) as (k' & -> & Hk'). cbn [outcome_bind]. eauto 10 with kad.
Qed.

Lemma on_put_value_total now random k p id r s : kad_wf k →
  ∃ k', k_on_put_value now random k p id r s = Done k' ∧ kad_wf k'.
Proof.
  intros Hk. unfold k_on_put_value. destruct id as [id|].
  - destruct (k_register_response_total now random k id p (MsgPutValue r) Hk I) as (k' & -> & Hk').
    cbn [outcome_bind]. eauto 10 with kad.
  - eexists. split; [done|]. apply emit_wf, wf_executor. destruct (kc_validation_mode _); [done|].
    exact (wf_store k (StorePut r) Hk).
Qed.

Lemma on_add_provider_wf now k p key providers : kad_wf k → kad_wf (k_on_add_provider now k p key providers).
Proof.
  intros Hk. unfold k_on_add_provider. destruct providers as [|provider [|? ?]]; try done.
  case_decide; [|done]. apply emit_wf.
  exact (wf_store k (StorePutProvider now key (mkContentProvider p (kad_addresses provider))) Hk).
Qed.

Lemma provider_peers_total l : ∃ ps, provider_peers l = Done ps.
Proof.
  induction l as [|p l [ps IH]]; [by eexists|]. cbn [provider_peers].
  destruct (KademliaPeer_new_total (content_peer p) (content_addresses p) NotConnected) as (n & -> & _).
  cbn [outcome_bind]. rewrite IH. by eexists.
Qed.

Lemma with_store_of k st op : kad_wf k → store_step (k_store k) op = st → kad_wf (with_kad_store k st).
Proof. intros Hk <-. by apply wf_store. Qed.

Lemma on_message_received_total now random k p id m s : kad_wf k →
  ∃ k' r, k_on_message_received now random k p id m s = Done (k', r) ∧ kad_wf k'.
Proof.
  intros Hk. unfold k_on_message_received, message_from_bytes.
  destruct (message_decode m) as [sm|]; [|by simpl; eauto].
  destruct (message_of_schema_total now (k_replication k) sm) as [[msg|] Hmsg]; rewrite Hmsg; cbn [outcome_bind]; [|by eauto].
  apply message_of_schema_keyed in Hmsg. set (msg' := if decide _ then _ else _).
  assert (message_keyed msg') as Hm by (unfold msg'; case_decide; [by apply retain_global_keyed|done]). clearbody msg'.
  enough (∃ k', match msg' with
    | MsgFindNode target peers => _ | MsgPutValue record => _ | MsgGetRecord key record peers => _
    | MsgAddProvider key providers => _ | MsgGetProviders key peers providers => _ end = Done k' ∧ kad_wf k')
    as (k' & -> & Hk') by (cbn [outcome_bind]; eauto).
  destruct msg' as [target peers|record|key record peers|key providers|key peers providers].
  - destruct id as [id|]; [by apply on_response_total|]. unfold k_reply. eauto 10 with kad.
  - by apply on_put_value_total.
  - destruct id as [id|]; [by apply on_response_total|]. destruct key as [key|]; [|by eauto].
    destruct (store_get (k_store k) now key) as [st value] eqn:E. unfold k_reply. eexists. split; [done|].
    apply wf_executor, (with_store_of k st (StoreGet now key)); [done|]. simpl. by rewrite E.
  - eexists. split; [done|]. by apply on_add_provider_wf.
  - destruct id as [id|]; [by apply on_response_total|]. destruct key as [key|]; [|by eauto].
    destruct (get_providers (k_store k) now key) as [st ps] eqn:E.
    unfold get_providers_response. edestruct provider_peers_total as [ps' ->]. cbn [outcome_bind].
    eexists. split; [done|]. apply wf_executor, (with_store_of k st (StoreGetProviders now key)); [done|].
    simpl. by rewrite E.
Qed.

(** *** The engine's actions *)

Lemma send_to_peers_wf peers a : ∀ k, kad_wf k → kad_wf (k_send_to_peers k peers a).
Proof.
  unfold k_send_to_peers. induction peers as [|p peers IH]; intros k Hk; simpl; [done|]. apply IH. auto with kad.
Qed.
#[local] Hint Resolve send_to_peers_wf : kad.

Lemma add_provider_total key p : ∃ m, add_provider key p = Done m.
Proof.
  unfold add_provider. destruct (KademliaPeer_new_total (content_peer p) (content_addresses p) CanConnect)
    as (n & -> & _). by eexists.
Qed.

Lemma on_query_action_total now k a : kad_wf k → ∃ k', k_on_query_action now k a = Done (k', Ok tt) ∧ kad_wf k'.
Proof.
  intros Hk. destruct a as [q p m|q target peers|q record peers quorum|q key|q key provider peers quorum|q key|q|q r|
    q key providers|q|q]; cbn [k_on_query_action]; try by eauto 10 with kad.
  - pose proof (open_substream_or_dial_wf k p (PaSendFindNode q) Hk) as Hw.
    destruct (k_open_substream_or_dial k p (PaSendFindNode q)) as [k1 [[]|err]]; eauto 10 with kad.
  - eexists. split; [done|]. apply set_query_start_wf; auto with kad.
  - destruct (add_provider_total key provider) as [m ->]. cbn [outcome_bind].
    eexists. split; [done|]. apply set_query_start_wf; auto with kad.
Qed.

(** What opening a substream or dialing leaves alone. *)
Definition same_queries k k' : Prop :=
  k_engine k' = k_engine k ∧ k_effects k' = k_effects k ∧ k_executor k' = k_executor k ∧
  k_next_query_id k' = k_next_query_id k ∧ k_config k' = k_config k ∧ k_store k' = k_store k ∧
  k_routing_table k' = k_routing_table k.

Lemma open_or_dial_same k p a : same_queries k (k_open_substream_or_dial k p a).1.
Proof.
  unfold k_open_substream_or_dial. destruct (ks_open_substream (k_service k) p) as [s [id|err]]; [done|].
  destruct (ks_dial _ p) as [s' [[]|err']]; [done|]. destruct err'; try done.
  by destruct (ks_open_substream _ p) as [s'' [id|err'']].
Qed.

Lemma send_to_peers_same peers a : ∀ k, same_queries k (k_send_to_peers k peers a).
Proof.
  unfold k_send_to_peers. induction peers as [|p peers IH]; intros k; simpl; [done|].
  destruct (IH (k_open_substream_or_dial k (kad_peer p) a).1) as (E1 & E2 & E3 & E4 & E5 & E6 & E7).
  destruct (open_or_dial_same k (kad_peer p) a) as (F1 & F2 & F3 & F4 & F5 & F6 & F7).
  repeat split; congruence.
Qed.

Lemma measure_set_le e id q : engine_measure (set_query e id q) ≤ query_measure q + engine_measure e.
Proof.
  destruct (queries e !! id) as [q'|] eqn:E.
  - pose proof (measure_update e id q' q E). lia.
  - by rewrite measure_insert.
Qed.

Lemma on_query_action_measure now k a k' r : k_on_query_action now k a = Done (k', r) →
  engine_measure (k_engine k') < engine_measure (k_engine k) + action_cost (Some a).
Proof.
  destruct a as [q p m|q target peers|q record peers quorum|q key|q key provider peers quorum|q key|q|q x|
    q key providers|q|q]; cbn [k_on_query_action]; intros Hr; simplify_eq/=; try lia.
  - destruct (open_or_dial_same k p (PaSendFindNode q)) as [He _].
    destruct (k_open_substream_or_dial k p (PaSendFindNode q)) as [k1 [[]|err]]; simplify_eq/=; rewrite <- He; [lia|].
    destruct (fail_request_settles (k_engine k1) q p) as [_ ->]. lia.
  - destruct (send_to_peers_same peers (PaSendPutValue q (message_encode (put_value now record))) k) as [He _].
    unfold start_put_record_tracking. rewrite He.
    match goal with |- context [set_query ?e ?i ?x] => pose proof (measure_set_le e i x) as Hm end. simpl in Hm. lia.
  - destruct (add_provider_total key provider) as [m Hm]. rewrite Hm in Hr. simplify_eq/=.
    destruct (send_to_peers_same peers (PaSendAddProvider q (message_encode m)) k) as [He _].
    unfold start_add_provider_tracking. rewrite He.
    match goal with |- context [set_query ?e ?i ?x] => pose proof (measure_set_le e i x) as Hs end. simpl in Hs. lia.
Qed.

(** The loop ends, because no action is left. *)
Lemma poll_engine_total now random fuel : ∀ k, kad_wf k → engine_measure (k_engine k) < fuel →
  ∃ k', k_poll_engine fuel now random k = Done (Some k') ∧ kad_wf k' ∧
        ∃ e, engine_next_action e now = Done (k_engine k', None).
Proof.
  induction fuel as [|fuel IH]; intros k Hk Hf; [lia|]. cbn [k_poll_engine].
  destruct (engine_next_action_spec (k_engine k) now (kw_engine _ Hk)) as (e & a & Ha & _ & _). rewrite Ha.
  destruct (sound_next_action _ _ _ _ _ (kw_sound _ Hk) Ha) as [He _].
  cbn [outcome_bind]. destruct (engine_next_action_polled _ _ _ _ (kw_engine _ Hk) Ha) as [Hm _].
  destruct a as [a|]; [|by eauto 10 with kad].
  destruct (on_query_action_total now (with_engine k e) a) as (k1 & Hact & Hk1); [by auto with kad|].
  rewrite Hact. cbn [outcome_bind]. apply on_query_action_measure in Hact. cbn [with_engine k_engine] in Hact.
  apply IH; [done|]. lia.
Qed.

(** *** Commands *)

Lemma put_record_targets_total local peers : ∀ t, table_wf t →
  ∃ t' l, put_record_targets local t peers = Done (t', l) ∧ table_wf t'.
Proof.
  induction peers as [|[p random] peers IH]; intros t Ht; cbn [put_record_targets]; [by eauto|].
  case_decide; [by apply IH|].
  destruct (table_entry_spec random t (key_of_peer p) Ht (key_of_peer_bound p)) as (t' & b & e & -> & Ht' & _).
  cbn [outcome_bind]. destruct (IH t' Ht') as (t'' & l & -> & Ht''). cbn [outcome_bind]. eauto.
Qed.

Lemma on_command_total now random k c : kad_wf k → ∃ k' x, k_on_command now random k c = Done (k', x) ∧ kad_wf k'.
Proof.
  intros Hk. unfold k_on_command.
  destruct c as [[peer l|peer id|r q id|r q id peers upd|key q id|key id|key q id|key|r]|]; [..|by eauto].
  - destruct (table_op_total k (OpAddKnownPeer (random 0) peer l (k_connection k peer)) Hk) as (t & Ht & Hwf).
    cbn [table_step] in Ht. rewrite Ht. cbn [outcome_bind]. destruct (kw_service _ Hk) as [c Hc].
    destruct (ks_address_law _ peer l _ Hc) as (s & -> & Hs). cbn [outcome_bind]. eauto 10 with kad.
  - eexists _, _. split; [done|]. apply set_query_start_wf; [done..|by apply lookup_started].
  - eexists _, _. split; [done|]. apply set_query_start_wf; [|done|by apply (lookup_started k)].
    by eapply (with_store_of k _ (StorePut _)).
  - set (k1 := if upd then _ else _).
    assert (kad_wf k1) as Hk1 by (unfold k1; destruct upd; [by eapply (with_store_of k _ (StorePut _))|done]).
    clearbody k1. edestruct (put_record_targets_total (ks_local_peer_id (k_service k))) as (t & ps & Ht & Hwf);
      [apply (kw_table _ Hk1)|]. rewrite Ht. apply (targets_sound _ _ _ _ _ _ (kw_table_sound _ Hk1)) in Ht.
    cbn [outcome_bind]. eexists _, _. split; [done|]. apply set_query_start_wf; [|done..].
    apply wf_table; [done|]. split; [done|]. rewrite Ht. apply Hk1.
  - destruct (store_get (k_store k) now key) as [st rec] eqn:E.
    assert (kad_wf (with_kad_store k st)) as Hk1.
    { apply (with_store_of k st (StoreGet now key)); [done|]. simpl. by rewrite E. }
    destruct rec as [rec|].
    + destruct q; [|by eauto 10 with kad|]; (eexists _, _; split; [done|]);
        (apply set_query_start_wf; [auto with kad|done|by apply (parallelism_pos k)]).
    + eexists _, _. split; [by destruct q|]. apply set_query_start_wf; [done..|by apply (parallelism_pos k)].
  - destruct (get_providers (k_store k) now key) as [st ps] eqn:E.
    assert (kad_wf (with_kad_store k st)) as Hk1.
    { apply (with_store_of k st (StoreGetProviders now key)); [done|]. simpl. by rewrite E. }
    unfold start_get_providers. destruct (peers_of_contents_total ps) as [ks ->]. cbn [outcome_bind].
    eexists _, _. split; [done|]. apply set_query_start_wf; [done..|by apply (parallelism_pos k)].
  - destruct (put_local_provider (k_store k) now key q) as [st acc] eqn:E.
    assert (kad_wf (with_kad_store k st)) as Hk1.
    { apply (with_store_of k st (StorePutLocal now key q)); [done|]. simpl. by rewrite E. }
    destruct acc; [|by eauto 10 with kad]. eexists _, _. split; [done|].
    apply set_query_start_wf; [done..|by apply (lookup_started k)].
  - eexists _, _. split; [done|]. by eapply (with_store_of k _ (StoreRemoveLocal _)).
  - eexists _, _. split; [done|]. by eapply (with_store_of k _ (StorePut _)).
Qed.

Lemma on_store_action_wf now k i : kad_wf k → kad_wf (k_on_store_action now k i).
Proof.
  intros Hk. unfold k_on_store_action. pose proof (wf_store k (StoreRefresh now i) Hk) as Hs.
  cbn [store_step] in Hs. unfold refresh_provider in Hs.
  destruct (next_action (k_store k) i) as [st [[[key p] q]|]]; [|done].
  apply set_query_start_wf; [by apply wf_counter|done|by apply (lookup_started k)].
Qed.

(** *** A turn *)

Lemma send_succeeded_wf k id p : kad_wf k → kad_wf (send_succeeded k id p).
Proof.
  intros Hk. unfold send_succeeded. destruct id; [|done]. apply wf_engine; [done|].
  apply sound_send_success, Hk.
Qed.
#[local] Hint Resolve send_succeeded_wf : kad.

Lemma on_query_result_total now random k c : kad_wf k → ∃ k', k_on_query_result now random k c = Done k' ∧ kad_wf k'.
Proof.
  intros Hk. unfold k_on_query_result. destruct (qc_result c) as [s|r|s m|r|];
    [by eauto 10 with kad|by apply disconnect_peer_total| |by apply disconnect_peer_total|by eauto 10 with kad].
  destruct (on_message_received_total now random (send_succeeded k (qc_query_id c) (qc_peer c)) (qc_peer c)
    (qc_query_id c) m s) as (k' & r & -> & Hk'); [by auto with kad|]. cbn [outcome_bind]. eauto.
Qed.

Lemma select_total now random k b : kad_wf k → ∃ k' x, k_select debug now random k b = Done (k', x) ∧ kad_wf k'.
Proof.
  intros Hk. destruct b as [ev|i w r|c|i]; cbn [k_select].
  - destruct ev as [[peer e|peer|peer l|peer proto fb [|id] s|id err]|]; cbn [k_on_service_event]; [..|by eauto].
    + destruct (on_connection_established_total (random 0) k peer e Hk) as (k' & r & -> & ?). simpl. eauto.
    + destruct (disconnect_peer_total (random 0) k peer None Hk) as (k' & -> & ?). simpl. eauto.
    + destruct (on_dial_failure_total (random 0) k peer l Hk) as (k' & -> & ?). simpl. eauto.
    + eauto 10 with kad.
    + destruct (on_outbound_substream_total k peer id s Hk) as (k' & r & -> & ?). simpl. eauto.
    + destruct (on_substream_open_failure_total (random 0) k id Hk) as (k' & -> & ?). simpl. eauto.
  - destruct (ex_next (k_executor k) i w r) as [[[x eff] c]|]; [|by eauto].
    edestruct (on_query_result_total now (random 0)) as (k' & -> & ?);
      [|cbn [outcome_bind]; by eauto]. auto with kad.
  - by apply on_command_total.
  - eauto using on_store_action_wf.
Qed.
End loop.
