(* ===== verification/KademliaRequests.v ===== *)
(** * Kademlia's outstanding requests

    Every peer a query waits for is being dialed, has a substream being opened to it or an
    exchange under way, unless its request was lost: the branches of the event loop that lose
    one are made explicit. The transport service is any service that keeps the contract of
    [ProtocolTypes]. *)

From stdpp Require Import base tactics option list gmap strings sorting fin_maps.
From Stdlib Require Import ZArith NArith Lia Init.Byte.
From S2P Require Import Prelude Multiaddr AddressStore PeerState BTreeMap KademliaTypes KBucket RoutingTable.
From S2P Require Import KademliaStore KademliaCommands KademliaMessage KademliaQuery QueryEngine QueryEngineFacts.
From S2P Require Import TransportManagerHandle ProtocolTypes KademliaExecutor KademliaHandle Kademlia KademliaLookups KademliaFacts.

Local Open Scope litep2p_scope.

(** ** Requests *)

(** The kind of request an action or a future makes. *)
Definition action_kind (a : PeerAction) : RequestKind :=
  match a with
  | PaSendFindNode _ => LookupRequest
  | PaSendPutValue _ _ => PutRequest
  | PaSendAddProvider _ _ => AddRequest
  end.

Definition task_kind (t : ExecutorTask) : option RequestKind :=
  match t with
  | TkSendRequestReadResponse _ => Some LookupRequest
  | TkSendRequestEatResponseFailure _ => Some PutRequest
  | TkSendMessage _ => Some AddRequest
  | TkSendMessageEatFailure _ | TkReadMessage => None
  end.

Notation Requests := (RequestKind → N → PeerId → Prop) (only parsing).

Definition action_request (a : PeerAction) (p : PeerId) : Requests :=
  λ kind id r, kind = action_kind a ∧ id = pa_query_id a ∧ r = p.

Definition future_request (f : ExecutorFuture) : Requests :=
  λ kind id r, task_kind (ef_task f) = Some kind ∧ ef_query_id f = Some id ∧ r = ef_peer f.

Section requests.
Context `{IpNetwork, HashOrder, Sha256, MultihashLib, MultiaddrBytes, MessageCodec} {S : Type} `{KadServiceLaws S}.
Context (debug : bool).
Implicit Types (k : Kademlia S) (L : Requests).

(** What may still bring an answer: a dial, a substream that is being opened, an exchange. *)
Inductive outstanding (c : Contract) k kind id p : Prop :=
| Out_dial l a : k_pending_dials k !! p = Some l → a ∈ l → action_request a p kind id p → outstanding c k kind id p
| Out_opening ctx sid a : k_peers k !! p = Some ctx → ctx !! sid = Some a → opening c !! sid = Some p →
    action_request a p kind id p → outstanding c k kind id p
| Out_future f : f ∈ k_executor k → future_request f kind id p → outstanding c k kind id p.

(** The requests in [L] are excused. *)
Record kad_inv L (c : Contract) k : Prop := {
  ki_service : ks_refines (k_service k) c;
  ki_contract : contract_wf c;
  ki_waits kind id p : waits (k_engine k) kind id p → outstanding c k kind id p ∨ L kind id p;
  ki_used p ctx sid a : k_peers k !! p = Some ctx → ctx !! sid = Some a → sid ∈ used c;
  ki_peers p ctx : k_peers k !! p = Some ctx → p ∈ connected c;
  ki_opening : k_pending_substreams k ⊆ opening c;
}.

Lemma inv_mono L L' c k : (∀ kind id p, L kind id p → L' kind id p) → kad_inv L c k → kad_inv L' c k.
Proof. intros HL []. split; try done. intros kind id p Hw. destruct (ki_waits0 _ _ _ Hw); auto. Qed.

(** Changes that do not concern the requests. *)
Lemma inv_frame L c k k' : kad_inv L c k →
  k_engine k' = k_engine k → k_peers k' = k_peers k → k_pending_dials k' = k_pending_dials k →
  k_pending_substreams k' = k_pending_substreams k → k_executor k' = k_executor k →
  ks_refines (k_service k') c → kad_inv L c k'.
Proof.
  intros [] He Hp Hd Hs Hx Hr. split; rewrite ?He, ?Hp, ?Hs; try done.
  intros kind id p Hw. destruct (ki_waits0 _ _ _ Hw) as [[]|]; [| | |by right]; left.
  - eapply Out_dial; [by rewrite Hd|done..].
  - eapply Out_opening; [by rewrite Hp|done..].
  - eapply Out_future; [by rewrite Hx|done].
Qed.

(** ** The engine *)

Lemma inv_engine L L' c k e : kad_inv L c k →
  (∀ kind id p, waits e kind id p → waits (k_engine k) kind id p ∧ (L kind id p → L' kind id p) ∨ L' kind id p) →
  kad_inv L' c (with_engine k e).
Proof.
  intros [] Hw. split; try done. intros kind id p Hx.
  destruct (Hw _ _ _ Hx) as [[Hx' HL]|]; [|by right].
  destruct (ki_waits0 _ _ _ Hx') as [[]|]; [left|left|left|right; by apply HL].
  - by eapply Out_dial.
  - by eapply Out_opening.
  - by eapply Out_future.
Qed.

Lemma inv_settles L c k e settled id peer : kad_inv L c k → settles (k_engine k) e settled id peer →
  kad_inv (λ kind i r, L kind i r ∧ ¬ (settled kind ∧ i = id ∧ r = peer)) c (with_engine k e).
Proof.
  intros Hi [_ Hs]. eapply inv_engine; [done|]. intros kind i r Hw. apply Hs in Hw as [Hw Hn]. left. auto.
Qed.

Lemma inv_fail_request L c k id peer : kad_inv L c k →
  kad_inv (λ kind i r, L kind i r ∧ ¬ (i = id ∧ r = peer)) c (fail_request k id peer).
Proof.
  intros Hi. destruct (fail_request_settles (k_engine k) id peer) as [Hs _].
  eapply inv_mono; [|by eapply inv_settles]. cbn. naive_solver.
Qed.

Lemma inv_send_succeeded L c k id peer : kad_inv L c k →
  kad_inv (λ kind i r, L kind i r ∧ ¬ (kind ≠ LookupRequest ∧ Some i = id ∧ r = peer)) c (send_succeeded k id peer).
Proof.
  intros Hi. unfold send_succeeded. destruct id as [id|].
  - eapply inv_mono; [|by eapply inv_settles, register_send_success_settles]. cbn. naive_solver.
  - eapply inv_mono; [|done]. naive_solver.
Qed.

(** ** Sending requests *)

Lemma inv_contract L c c' k s : kad_inv L c k → ks_refines s c' → contract_wf c' →
  connected c ⊆ connected c' → opening c ⊆ opening c' → used c ⊆ used c' → kad_inv L c' (with_service k s).
Proof.
  intros [] Hr Hwf Hc Ho Hu. split; try done; simpl.
  - intros kind id p Hw. destruct (ki_waits0 _ _ _ Hw) as [[]|]; [left|left|left|by right].
    + by eapply Out_dial.
    + eapply Out_opening; [done..| |done]. by eapply lookup_weaken.
    + by eapply Out_future.
  - intros p ctx sid a Hp Ha. by eapply Hu, ki_used0.
  - intros p ctx Hp. by eapply Hc, ki_peers0.
  - by etrans.
Qed.

(** An answer of [open_substream]. *)
Lemma inv_open_substream L c k p : kad_inv L c k →
  ∃ c', match ks_open_substream (k_service k) p with
        | (s, Ok id) => id ∉ used c ∧ p ∈ connected c' ∧ opening c' !! id = Some p ∧ id ∈ used c' ∧
            used c ⊆ used c' ∧ opening c ⊆ opening c' ∧ kad_inv L c' (with_service k s)
        | (s, Err _) => c' = c ∧ kad_inv L c (with_service k s)
        end.
Proof.
  intros Hi. destruct (ks_open_law (k_service k) p c (ki_service _ _ _ Hi)) as (c' & Ho & Hr).
  destruct (ks_open_substream (k_service k) p) as [s r]. simpl in *.
  pose proof (opens_wf _ _ _ _ (ki_contract _ _ _ Hi) Ho) as Hwf. inversion Ho as [c0 id Hp Hid|c0 e]; subst.
  - exists (mkContract (connected c) (<[id := p]> (opening c)) ({[id]} ∪ used c)). cbn [connected opening used].
    assert (opening c ⊆ <[id := p]> (opening c)) as Hsub.
    { apply insert_subseteq. destruct (opening c !! id) as [q|] eqn:E; [|done].
      destruct (ki_contract _ _ _ Hi id q E). done. }
    split_and!; [done|done|by rewrite lookup_insert_eq|set_solver|set_solver|done|].
    eapply inv_contract; [done..|set_solver|done|set_solver].
  - exists c'. split; [done|]. by eapply inv_contract.
Qed.

(** An action whose substream is being opened is outstanding. *)
Lemma inv_add_pending L c k p sid a : kad_inv (λ kind i r, L kind i r ∨ action_request a p kind i r) c k →
  p ∈ connected c → opening c !! sid = Some p → sid ∈ used c →
  (∀ q ctx, k_peers k !! q = Some ctx → ctx !! sid = None) →
  kad_inv L c (add_pending k p sid a).
Proof.
  intros [] Hp Ho Hu Hfresh. unfold add_pending. split; try done; simpl.
  - intros kind id r Hw. destruct (ki_waits0 _ _ _ Hw) as [[l b Hl Hb Hr|ctx i b Hctx Hb Hopen Hr|f Hf Hr]|[HL|Hr]];
      [left|left|left|by right|left].
    + by eapply Out_dial.
    + destruct (decide (r = p)) as [->|Hne].
      * eapply (Out_opening _ _ _ _ _ (<[sid := a]> (default ∅ (k_peers k !! p))) i b); [cbn; by rewrite lookup_insert_eq| |done..].
        rewrite Hctx. simpl. rewrite lookup_insert_ne; [done|]. intros ->. by rewrite (Hfresh _ _ Hctx) in Hb.
      * eapply Out_opening; [cbn; by rewrite lookup_insert_ne|done..].
    + by eapply Out_future.
    + pose proof Hr as (_ & _ & ->). eapply (Out_opening _ _ _ _ _ _ sid a); [cbn; by rewrite lookup_insert_eq| |done..].
      by rewrite lookup_insert_eq.
  - intros q ctx i b Hctx Hb. apply lookup_insert_Some in Hctx as [[<- <-]|[_ Hctx]]; [|by eapply ki_used0].
    apply lookup_insert_Some in Hb as [[<- _]|[_ Hb]]; [done|].
    destruct (k_peers k !! p) as [ctx|] eqn:E; simpl in Hb; [by eapply ki_used0|done].
  - intros q ctx Hctx. apply lookup_insert_Some in Hctx as [[<- _]|[_ Hctx]]; [done|by eapply ki_peers0].
  - by apply insert_subseteq_l.
Qed.

(** A peer that is being dialed. *)
Lemma inv_add_dial L c k p a : kad_inv (λ kind i r, L kind i r ∨ action_request a p kind i r) c k →
  kad_inv L c (with_dials k (<[p := default [] (k_pending_dials k !! p) ++ [a]]> (k_pending_dials k))).
Proof.
  intros []. split; try done; simpl. intros kind id r Hw.
  destruct (ki_waits0 _ _ _ Hw) as [[l b Hl Hb Hr|ctx i b Hctx Hb Hopen Hr|f Hf Hr]|[HL|Hr]];
    [left|left|left|by right|left].
  - destruct (decide (r = p)) as [->|Hne].
    + eapply (Out_dial _ _ _ _ _ _ b); [cbn; by rewrite lookup_insert_eq| |done]. rewrite Hl. set_solver.
    + eapply Out_dial; [cbn; by rewrite lookup_insert_ne|done..].
  - by eapply Out_opening.
  - by eapply Out_future.
  - pose proof Hr as (_ & _ & ->). eapply (Out_dial _ _ _ _ _ _ a); [cbn; by rewrite lookup_insert_eq|set_solver|done].
Qed.

Lemma inv_unused L c k sid : kad_inv L c k → sid ∉ used c →
  ∀ q ctx, k_peers k !! q = Some ctx → ctx !! sid = None.
Proof.
  intros Hi Hs q ctx Hq. destruct (ctx !! sid) as [a|] eqn:E; [|done]. by destruct (Hs (ki_used _ _ _ Hi _ _ _ _ Hq E)).
Qed.

(** A request goes out, unless neither a substream can be opened nor the peer be dialed. *)
Lemma inv_open_or_dial L c k p a : kad_inv (λ kind i r, L kind i r ∨ action_request a p kind i r) c k →
  ∃ c', match k_open_substream_or_dial k p a with
        | (k', Ok _) => kad_inv L c' k'
        | (k', Err _) => kad_inv (λ kind i r, L kind i r ∨ action_request a p kind i r) c' k'
        end.
Proof.
  intros Hi. unfold k_open_substream_or_dial.
  destruct (inv_open_substream _ _ _ p Hi) as (c1 & Ho).
  destruct (ks_open_substream (k_service k) p) as [s [id|err]].
  { destruct Ho as (Hf & Hp & Hop & Hu & _ & _ & Hi1). exists c1. eapply inv_add_pending; [done..|].
    exact (inv_unused _ _ _ _ Hi Hf). }
  destruct Ho as [-> Hi1]. pose proof (ks_dial_law _ p c (ki_service _ _ _ Hi1)) as Hd.
  destruct (ks_dial (k_service (with_service k s)) p) as [s' rd]. simpl in Hd.
  assert (kad_inv (λ kind i r, L kind i r ∨ action_request a p kind i r) c (with_service (with_service k s) s')) as Hi2.
  { by eapply inv_frame. }
  destruct rd as [[]|err']; [exists c; by apply inv_add_dial|].
  destruct err'; try (by exists c).
  destruct (inv_open_substream _ _ _ p Hi2) as (c2 & Ho).
  destruct (ks_open_substream (k_service (with_service (with_service k s) s')) p) as [s'' [id|err'']].
  - destruct Ho as (Hf & Hp & Hop & Hu & _ & _ & Hi3). exists c2. eapply inv_add_pending; [done..|].
    exact (inv_unused _ _ _ _ Hi2 Hf).
  - destruct Ho as [-> Hi3]. by exists c.
Qed.

(** ** Failing peers *)

Lemma fail_actions_waits p query actions : ∀ e,
  dom (queries (fail_actions e p query actions)) = dom (queries e) ∧
  ∀ kind i r, waits (fail_actions e p query actions) kind i r ↔
    waits e kind i r ∧ ¬ (r = p ∧ Some i ≠ query ∧ ∃ sid a, (sid, a) ∈ actions ∧ pa_query_id a = i).
Proof.
  unfold fail_actions. induction actions as [|[sid a] actions IH]; intros e; cbn [foldl].
  { split; [done|]. intros kind i r. split; [|tauto]. intros Hw. split; [done|]. intros (_ & _ & ? & ? & Hin & _).
    by apply not_elem_of_nil in Hin. }
  case_decide as Hq.
  - destruct (IH e) as [Hd Hw]. split; [done|]. intros kind i r. rewrite Hw. split.
    + intros [He Hn]. split; [done|]. intros (-> & Hi & s' & b & [[= -> ->]|Hin]%elem_of_cons & Hb); [by subst|].
      apply Hn. split_and!; [done..|]. eauto.
    + intros [He Hn]. split; [done|]. intros (-> & Hi & s' & b & Hin & Hb). apply Hn. split_and!; [done..|].
      exists s', b. split; [by right|done].
  - destruct (IH (register_peer_failure e (pa_query_id a) p)) as [Hd Hw].
    destruct (fail_request_settles e (pa_query_id a) p) as [[Hd' Hs] _]. split; [by rewrite Hd, <- Hd'|].
    intros kind i r. rewrite Hw. unfold register_peer_failure. rewrite Hs. split.
    + intros [[He Hn] Hn']. split; [done|]. intros (-> & Hi & s' & b & [[= -> ->]|Hin]%elem_of_cons & Hb); [naive_solver|].
      apply Hn'. split_and!; [done..|]. eauto.
    + intros [He Hn]. split_and!; [done| |].
      * intros (_ & -> & ->). apply Hn. split_and!; [done..|]. exists sid, a. split; [by left|done].
      * intros (-> & Hi & s' & b & Hin & Hb). apply Hn. split_and!; [done..|]. exists s', b. split; [by right|done].
Qed.

(** A peer has an action of a query. *)
Definition has_action k p (i : N) : Prop :=
  ∃ ctx sid a, k_peers k !! p = Some ctx ∧ ctx !! sid = Some a ∧ pa_query_id a = i.

Record disconnected k p query k' : Prop := {
  dc_dom : dom (queries (k_engine k')) = dom (queries (k_engine k));
  dc_waits kind i r : waits (k_engine k') kind i r ↔
    waits (k_engine k) kind i r ∧ ¬ (r = p ∧ (Some i = query ∨ has_action k p i));
  dc_peers : k_peers k' = delete p (k_peers k);
  dc_dials : k_pending_dials k' = k_pending_dials k;
  dc_substreams : k_pending_substreams k' = k_pending_substreams k;
  dc_executor : k_executor k' = k_executor k;
  dc_service : k_service k' = k_service k;
  dc_effects : k_effects k' = k_effects k;
  dc_counter : k_next_query_id k' = k_next_query_id k;
}.

Lemma disconnect_spec random k p query k' : k_disconnect_peer random k p query = Done k' → disconnected k p query k'.
Proof.
  unfold k_disconnect_peer. set (k1 := match query with Some q => _ | None => k end).
  assert (dom (queries (k_engine k1)) = dom (queries (k_engine k)) ∧
    ∀ kind i r, waits (k_engine k1) kind i r ↔ waits (k_engine k) kind i r ∧ ¬ (Some i = query ∧ r = p)) as [Hd1 Hw1].
  { unfold k1. destruct query as [q|].
    - destruct (fail_request_settles (k_engine k) q p) as [[Hd Hs] _]. split; [done|]. intros kind i r.
      cbn [with_engine k_engine]. unfold register_peer_failure. rewrite Hs. naive_solver.
    - split; [done|]. naive_solver. }
  assert (k_peers k1 = k_peers k) as Hp1 by (unfold k1; by destruct query).
  assert (same_rest : k_pending_dials k1 = k_pending_dials k ∧ k_pending_substreams k1 = k_pending_substreams k ∧
    k_executor k1 = k_executor k ∧ k_service k1 = k_service k ∧ k_effects k1 = k_effects k ∧
    k_next_query_id k1 = k_next_query_id k) by (unfold k1; by destruct query).
  clearbody k1. destruct same_rest as (R1 & R2 & R3 & R4 & R5 & R6).
  rewrite Hp1. destruct (k_peers k !! p) as [ctx|] eqn:Hctx; cbn zeta;
    destruct (table_on_disconnected _ _ _) as [t|]; cbn [outcome_bind]; try done; intros [= <-].
  - destruct (fail_actions_waits p query (map_order ctx) (k_engine k1)) as [Hd2 Hw2].
    split; cbn; try done; [by rewrite Hd2|]. intros kind i r. rewrite Hw2, Hw1.
    assert (has_action k p i ↔ ∃ sid a, (sid, a) ∈ map_order ctx ∧ pa_query_id a = i) as ->.
    { unfold has_action. rewrite Hctx. setoid_rewrite map_order_elem. naive_solver. }
    destruct (decide (Some i = query)); naive_solver.
  - assert (∀ i, ¬ has_action k p i) as Hn by (intros i (? & ? & ? & ? & _); congruence).
    split; cbn; try done; [|by rewrite delete_id]. intros kind i r. rewrite Hw1. naive_solver.
Qed.

Lemma inv_disconnected L c k p query k' : kad_inv L c k → disconnected k p query k' →
  kad_inv (λ kind i r, L kind i r ∧ ¬ (Some i = query ∧ r = p)) c k'.
Proof.
  intros [] []. split; rewrite ?dc_service0, ?dc_peers0, ?dc_substreams0; try done.
  - intros kind i r [Hw Hn]%dc_waits0. 
    destruct (ki_waits0 _ _ _ Hw) as [[l b Hl Hb Hr|ctx s b Hctx Hb Hopen Hr|f Hf Hr]|HL]; [left|left|left|right].
    + eapply Out_dial; [by rewrite dc_dials0|done..].
    + assert (r ≠ p).
      { intros ->. apply Hn. split; [done|]. right. destruct Hr as (_ & -> & _). by exists ctx, s, b. }
      eapply Out_opening; [|done..]. by rewrite dc_peers0, lookup_delete_ne.
    + eapply Out_future; [by rewrite dc_executor0|done].
    + split; [done|]. naive_solver.
  - intros q ctx s b [_ Hq]%lookup_delete_Some. by eapply ki_used0.
  - intros q ctx [_ Hq]%lookup_delete_Some. by eapply ki_peers0.
Qed.

(** The connection to a peer is closed. *)
Lemma inv_closed L c k s p k' : kad_inv L c k → (∀ id, opening c !! id ≠ Some p) →
  contract_wf (mkContract (connected c ∖ {[p]}) (opening c) (used c)) →
  ks_refines s (mkContract (connected c ∖ {[p]}) (opening c) (used c)) →
  disconnected (with_service k s) p None k' → kad_inv L (mkContract (connected c ∖ {[p]}) (opening c) (used c)) k'.
Proof.
  intros Hi Ho Hwf Hr Hd.
  assert (disconnected k p None (with_service k' (k_service k))) as Hd' by by destruct Hd.
  destruct (inv_disconnected _ _ _ _ _ _ Hi Hd') as []. cbn in *.
  split; try done; [by rewrite (dc_service _ _ _ _ Hd)|..].
  - intros kind i r Hw. destruct (ki_waits0 _ _ _ Hw) as [[l b Hl Hb Hq|ctx s' b Hctx Hb Hopen Hq|f Hf Hq]|[HL _]].
    + left. by eapply Out_dial.
    + left. by eapply Out_opening.
    + left. by eapply Out_future.
    + by right.
  - intros q ctx Hq. simpl. rewrite (dc_peers _ _ _ _ Hd) in Hq. pose proof Hq as [Hne _]%lookup_delete_Some.
    rewrite <- (dc_peers _ _ _ _ Hd) in Hq. specialize (ki_peers0 _ _ Hq). set_solver.
Qed.

(** ** Excuses that are not needed *)

Lemma inv_unneeded L (X : Requests) c k : kad_inv (λ kind i r, L kind i r ∨ X kind i r) c k →
  (∀ kind i r, X kind i r → waits (k_engine k) kind i r → outstanding c k kind i r ∨ L kind i r) → kad_inv L c k.
Proof. intros [] HX. split; try done. intros kind i r Hw. destruct (ki_waits0 _ _ _ Hw) as [?|[?|?]]; eauto. Qed.

Lemma next_peer_action_none e id p : next_peer_action e id p = None → ¬ waits e LookupRequest id p.
Proof.
  unfold next_peer_action. intros Hn (q & Hq & Hk & Hp). rewrite Hq in Hn.
  destruct q; try done; simpl in Hp; try (by apply not_elem_of_empty in Hp);
    unfold fn_next_peer_action, gr_next_peer_action, gp_next_peer_action in Hn; apply elem_of_dom in Hp;
    by case_decide.
Qed.

Lemma next_peer_action_some e id p q' p' m : engine_wf e → next_peer_action e id p = Some (SendMessage q' p' m) →
  q' = id ∧ p' = p.
Proof.
  intros He. unfold next_peer_action. destruct (queries e !! id) as [q|] eqn:E; [|done].
  specialize (He _ _ E). destruct q; try done; simpl in He;
    unfold fn_next_peer_action, gr_next_peer_action, gp_next_peer_action; case_decide; intros [= <- <- _]; done.
Qed.

(** ** Results of substreams *)

(** The action that waits for a substream. *)
Definition waiting_for k p sid : Requests :=
  λ kind i r, ∃ ctx a, k_peers k !! p = Some ctx ∧ ctx !! sid = Some a ∧ action_request a p kind i r.

(** A substream has its result; the action that waits for it is excused. *)
Lemma inv_resolved L c k p sid s :
  let c' := mkContract (connected c) (delete sid (opening c)) (used c) in
  kad_inv L c k → opening c !! sid = Some p → ks_refines s c' →
  kad_inv (λ kind i r, L kind i r ∨ waiting_for k p sid kind i r) c'
    (with_substreams (with_service k s) (delete sid (k_pending_substreams k))).
Proof.
  intros c' [] Ho Hr. split; try done; cbn; [by apply contract_wf_delete| |].
  - intros kind i r Hw. destruct (ki_waits0 _ _ _ Hw) as [[l b Hl Hb Hq|ctx s' b Hctx Hb Hopen Hq|f Hf Hq]|HL].
    + left. by eapply Out_dial.
    + destruct (decide (s' = sid)) as [->|Hne].
      * right. right. simplify_eq. by exists ctx, b.
      * left. eapply Out_opening; [done..| |done]. cbn. by rewrite lookup_delete_ne.
    + left. by eapply Out_future.
    + right. by left.
  - by apply delete_mono.
Qed.

Lemma inv_remove_action L c k p ctx sid : kad_inv L c k → k_peers k !! p = Some ctx → opening c !! sid = None →
  kad_inv L c (with_peers k (<[p := delete sid ctx]> (k_peers k))).
Proof.
  intros [] Hp Ho. split; try done; cbn.
  - intros kind i r Hw. destruct (ki_waits0 _ _ _ Hw) as [[l b Hl Hb Hq|ctx' s b Hctx Hb Hopen Hq|f Hf Hq]|HL];
      [left|left|left|by right].
    + by eapply Out_dial.
    + destruct (decide (r = p)) as [->|Hne].
      * simplify_eq. eapply (Out_opening _ _ _ _ _ (delete sid ctx) s b); [cbn; by rewrite lookup_insert_eq| |done..].
        rewrite lookup_delete_ne; [done|]. congruence.
      * eapply Out_opening; [cbn; by rewrite lookup_insert_ne|done..].
    + by eapply Out_future.
  - intros q ctx' s b Hq Hb. apply lookup_insert_Some in Hq as [[<- <-]|[_ Hq]]; [|by eapply ki_used0].
    apply lookup_delete_Some in Hb as [_ Hb]. by eapply ki_used0.
  - intros q ctx' Hq. apply lookup_insert_Some in Hq as [[<- _]|[_ Hq]]; by eapply ki_peers0.
Qed.

Lemma inv_add_future L c k f : kad_inv (λ kind i r, L kind i r ∨ future_request f kind i r) c k →
  kad_inv L c (with_executor k (k_executor k ++ [f])).
Proof.
  intros []. split; try done; cbn. intros kind i r Hw.
  destruct (ki_waits0 _ _ _ Hw) as [[l b Hl Hb Hq|ctx' s b Hctx Hb Hopen Hq|g Hg Hq]|[HL|Hq]];
    [left|left|left|by right|left].
  - by eapply Out_dial.
  - by eapply Out_opening.
  - eapply (Out_future _ _ _ _ _ g); [cbn; set_solver|done].
  - pose proof Hq as (_ & _ & ->). eapply (Out_future _ _ _ _ _ f); [cbn; set_solver|done].
Qed.

Lemma inv_take_future L c k i f : kad_inv L c k → k_executor k !! i = Some f →
  kad_inv (λ kind id r, L kind id r ∨ future_request f kind id r) c (with_executor k (take_nth (k_executor k) i)).
Proof.
  intros [] Hf. split; try done; cbn. intros kind id r Hw.
  destruct (ki_waits0 _ _ _ Hw) as [[l b Hl Hb Hq|ctx' s b Hctx Hb Hopen Hq|g Hg Hq]|HL].
  - left. by eapply Out_dial.
  - left. by eapply Out_opening.
  - destruct (take_nth_elem _ _ _ _ Hf Hg) as [->|Hin]; [right; by right|]. left. by eapply (Out_future _ _ _ _ _ g).
  - right. by left.
Qed.

(** A substream was opened for a request, which goes out over it. *)
Lemma inv_outbound L c k p sid s sub k' res :
  let c' := mkContract (connected c) (delete sid (opening c)) (used c) in
  engine_wf (k_engine k) → kad_inv L c k → opening c !! sid = Some p → ks_refines s c' →
  k_on_outbound_substream debug (with_service k s) p sid sub = Done (k', res) → kad_inv L c' k'.
Proof.
  intros c' He Hi Ho Hr. pose proof (inv_resolved L c k p sid s Hi Ho Hr) as Hk.
  unfold k_on_outbound_substream. cbn [with_service k_pending_substreams].
  change (with_substreams (mkKademlia s _ _ _ _ _ _ _ _ _ _ _) _)
    with (with_substreams (with_service k s) (delete sid (k_pending_substreams k))).
  set (k1 := with_substreams (with_service k s) (delete sid (k_pending_substreams k))) in *.
  cbn zeta. change (k_peers k1) with (k_peers k).
  destruct (k_peers k !! p) as [ctx|] eqn:Hctx.
  2:{ intros [= <- _]. eapply inv_unneeded; [exact Hk|]. intros kind i r (ctx & a & Hc & _). congruence. }
  assert (opening c' !! sid = None) as Hc' by (unfold c'; cbn; by rewrite lookup_delete_eq).
  pose proof (inv_remove_action _ _ k1 p ctx sid Hk Hctx Hc') as Hk2.
  change (k_peers k1) with (k_peers k) in Hk2. set (k2 := with_peers k1 _) in *.
  change (k_engine k2) with (k_engine k).
  assert (∀ a, ctx !! sid = Some a → kad_inv (λ kind i r, L kind i r ∨ action_request a p kind i r) c' k2) as Hk3.
  { intros a Ha. eapply inv_mono; [|exact Hk2]. intros kind i r [?|(? & ? & ? & ? & ?)]; [by left|]. right. congruence. }
  assert (ctx !! sid = None ∨ (∃ q, ctx !! sid = Some (PaSendFindNode q) ∧ next_peer_action (k_engine k) q p = None) →
    kad_inv L c' (close_substream k2 sub)) as Hclose.
  { intros Hn. eapply inv_frame with (k := k2); [|done..|exact (ki_service _ _ _ Hk2)]. destruct Hn as [Hn|(q & Hq & Hn)].
    - eapply inv_unneeded; [exact Hk2|]. intros kind i r (? & ? & ? & ? & _). congruence.
    - eapply inv_unneeded; [exact (Hk3 _ Hq)|]. intros kind i r (-> & -> & ->) Hw.
      by destruct (next_peer_action_none _ _ _ Hn). }
  destruct (ctx !! sid) as [[q|q m|q m]|] eqn:Ha.
  - pose proof (next_peer_action_send (k_engine k) q p) as Hs.
    destruct (next_peer_action (k_engine k) q p) as [act|] eqn:Hn; [|intros [= <- _]; apply Hclose; by eauto].
    destruct act; try done. destruct (next_peer_action_some _ _ _ _ _ _ He Hn) as [-> ->].
    intros [= <- _]. refine (inv_add_future _ _ k2 (mkExecutorFuture _ _ _ _) _). eapply inv_mono; [|exact (Hk3 _ eq_refl)].
    intros kind i r [?|(-> & -> & ->)]; [by left|right; done].
  - intros [= <- _]. refine (inv_add_future _ _ k2 (mkExecutorFuture _ _ _ _) _). eapply inv_mono; [|exact (Hk3 _ eq_refl)].
    intros kind i r [?|(-> & -> & ->)]; [by left|right; done].
  - intros [= <- _]. refine (inv_add_future _ _ k2 (mkExecutorFuture _ _ _ _) _). eapply inv_mono; [|exact (Hk3 _ eq_refl)].
    intros kind i r [?|(-> & -> & ->)]; [by left|right; done].
  - intros [= <- _]. apply Hclose. by left.
Qed.

(** ** Lost requests *)

Definition request_of (p : PeerId) (a : PeerAction) : RequestKind * N * PeerId := (action_kind a, pa_query_id a, p).

Lemma request_of_elem p a kind i r : (kind, i, r) = request_of p a ↔ action_request a p kind i r.
Proof. unfold request_of, action_request. naive_solver. Qed.

(** A substream that was opened for a peer after a dial is not among the pending substreams: if
    it fails, its action is forgotten where it is. *)
Definition open_failure_lost k (sid : SubstreamId) : list (RequestKind * N * PeerId) :=
  match k_pending_substreams k !! sid with
  | Some _ => []
  | None => map_order (k_peers k) ≫= λ '(p, ctx), request_of p <$> option_list (ctx !! sid)
  end.

Lemma inv_open_failure L c k p sid s random k' :
  let c' := mkContract (connected c) (delete sid (opening c)) (used c) in
  kad_inv L c k → opening c !! sid = Some p → ks_refines s c' →
  k_on_substream_open_failure random (with_service k s) sid = Done k' →
  kad_inv (λ kind i r, L kind i r ∨ (kind, i, r) ∈ open_failure_lost k sid) c' k'.
Proof.
  intros c' Hi Ho Hr. pose proof (inv_resolved L c k p sid s Hi Ho Hr) as Hk.
  unfold k_on_substream_open_failure, open_failure_lost. cbn [with_service k_pending_substreams].
  destruct (k_pending_substreams k !! sid) as [p'|] eqn:Hs.
  - pose proof (lookup_weaken _ _ _ _ Hs (ki_opening _ _ _ Hi)) as Hp'. simplify_eq.
    set (k1 := with_substreams _ _). change (with_substreams _ _) with k1 in Hk. cbn zeta.
    change (k_peers k1) with (k_peers k). destruct (k_peers k !! p) as [ctx|] eqn:Hctx.
    + assert (opening c' !! sid = None) as Hc' by (unfold c'; cbn; by rewrite lookup_delete_eq).
      pose proof (inv_remove_action _ _ k1 p ctx sid Hk Hctx Hc') as Hk2.
      intros Hd%disconnect_spec. eapply inv_mono; [|eapply inv_disconnected; [exact Hk2|exact Hd]]. cbn.
      intros kind i r [[?|(ctx' & a & Hc & Ha & (-> & -> & ->))] Hn]; [by left|]. destruct Hn. split; [|done].
      simplify_eq. by rewrite Ha.
    + intros [= <-]. eapply inv_mono; [|eapply inv_unneeded; [exact Hk|]]; [by left|].
      intros kind i r (ctx & a & Hc & _). congruence.
  - intros [= <-]. eapply inv_mono; [|eapply inv_frame; [exact Hk|done..| |done|done]].
    + intros kind i r [?|(ctx & a & Hctx & Ha & Hq)]; [by left|]. right. apply list_elem_of_bind.
      exists (p, ctx). split; [|by apply map_order_elem]. rewrite Ha. cbn. by apply list_elem_of_singleton, request_of_elem.
    + cbn. by rewrite delete_id.
Qed.

(** The actions other than lookups for which no substream could be opened after a dial. *)
Fixpoint unopened (s : S) (p : PeerId) (actions : list PeerAction) : list PeerAction :=
  match actions with
  | [] => []
  | a :: actions =>
      match ks_open_substream s p with
      | (s, Ok _) => unopened s p actions
      | (s, Err _) =>
          match a with
          | PaSendFindNode _ => unopened s p actions
          | _ => a :: unopened s p actions
          end
      end
  end.

(** The actions of a context that is not in [k_peers] yet. *)
Definition context_requests (c : Contract) (p : PeerId) (ctx : gmap SubstreamId PeerAction) : Requests :=
  λ kind i r, ∃ sid a, ctx !! sid = Some a ∧ opening c !! sid = Some p ∧ action_request a p kind i r.

Definition actions_requests (p : PeerId) (actions : list PeerAction) : Requests :=
  λ kind i r, ∃ a, a ∈ actions ∧ action_request a p kind i r.

Lemma context_requests_mono c c' p ctx kind i r : opening c ⊆ opening c' →
  context_requests c p ctx kind i r → context_requests c' p ctx kind i r.
Proof. intros Ho (sid & a & Ha & Hs & Hq). exists sid, a. split_and!; [done| |done]. by eapply lookup_weaken. Qed.

Lemma inv_open_actions p actions : ∀ L c k ctx,
  kad_inv (λ kind i r, L kind i r ∨ actions_requests p actions kind i r ∨ context_requests c p ctx kind i r) c k →
  (∀ sid a, ctx !! sid = Some a → sid ∈ used c) → k_peers k !! p = None → p ∈ connected c →
  ∃ c', let '(k', ctx') := open_actions k p actions ctx in
    kad_inv (λ kind i r, L kind i r ∨ actions_requests p (unopened (k_service k) p actions) kind i r ∨
                         context_requests c' p ctx' kind i r) c' k' ∧
    (∀ sid a, ctx' !! sid = Some a → sid ∈ used c') ∧ k_peers k' !! p = None ∧ p ∈ connected c'.
Proof.
  induction actions as [|a actions IH]; intros L c k ctx Hi Hu Hp Hc; cbn [open_actions unopened]; [by exists c|].
  destruct (inv_open_substream _ _ _ p Hi) as (c1 & Ho).
  destruct (ks_open_substream (k_service k) p) as [s [id|err]].
  - destruct Ho as (Hf & Hp1 & Hop & Hid & Hus & Hos & Hi1).
    apply (IH L c1 (with_service k s) (<[id := a]> ctx)); [|..|done|done].
    + eapply inv_mono; [|exact Hi1]. intros kind i r [HL|[(b & [->|Hb]%elem_of_cons & Hq)|Hx]].
      * by left.
      * right. right. exists id, a. split_and!; [by rewrite lookup_insert_eq|done..].
      * right. left. by exists b.
      * right. right. destruct Hx as (sid & b & Hb & Hs & Hq). exists sid, b. split_and!; [|by eapply lookup_weaken|done].
        rewrite lookup_insert_ne; [done|]. intros ->. by destruct (Hf (Hu _ _ Hb)).
    + intros sid b [[<- _]|[_ Hb]]%lookup_insert_Some; [done|]. by eapply Hus, Hu.
  - destruct Ho as [-> Hi1].
    assert (∀ act, act = a → action_kind act ≠ LookupRequest →
      ∃ c', let '(k', ctx') := open_actions (with_service k s) p actions ctx in
        kad_inv (λ kind i r, L kind i r ∨ actions_requests p (act :: unopened s p actions) kind i r ∨
                             context_requests c' p ctx' kind i r) c' k' ∧
        (∀ sid b, ctx' !! sid = Some b → sid ∈ used c') ∧ k_peers k' !! p = None ∧ p ∈ connected c') as Hkeep.
    { intros act -> _. destruct (IH (λ kind i r, L kind i r ∨ action_request a p kind i r) c (with_service k s) ctx)
        as (c' & Hc'); [|done..|].
      - eapply inv_mono; [|exact Hi1]. intros kind i r [?|[(b & [->|?]%elem_of_cons & ?)|?]]; [by auto..| |by auto].
        right. left. by exists b.
      - exists c'. destruct (open_actions _ p actions ctx) as [k' ctx']. destruct Hc' as [Hi' Hrest]. split; [|done].
        eapply inv_mono; [|exact Hi']. intros kind i r [[?|?]|[(b & ? & ?)|?]]; [by auto| |..|by auto];
          right; left; [by exists a; split; [left|]|by exists b; split; [right|]]. }
    destruct a as [q|q m|q m]; [|by apply Hkeep..].
    apply (IH L c (fail_request (with_service k s) q p) ctx); [|done..].
    eapply inv_mono; [|by apply inv_fail_request, Hi1]. cbn.
    intros kind i r [[?|[(b & [->|?]%elem_of_cons & Hq)|?]] Hn]; [by auto| | |by auto].
    + destruct Hq as (-> & -> & ->). by destruct Hn.
    + right. left. by exists b.
Qed.

(** A context with actions for a peer that has none. *)
Lemma inv_insert_context L c k p ctx :
  kad_inv (λ kind i r, L kind i r ∨ context_requests c p ctx kind i r) c k →
  (∀ sid a, ctx !! sid = Some a → sid ∈ used c) → k_peers k !! p = None → p ∈ connected c →
  kad_inv L c (with_peers k (<[p := ctx]> (k_peers k))).
Proof.
  intros [] Hu Hp Hc. split; try done; cbn.
  - intros kind i r Hw. destruct (ki_waits0 _ _ _ Hw) as [[l b Hl Hb Hq|ctx' s b Hctx Hb Hopen Hq|f Hf Hq]|[HL|Hx]];
      [left|left|left|by right|left].
    + by eapply Out_dial.
    + eapply Out_opening; [|done..]. cbn. rewrite lookup_insert_ne; [done|]. congruence.
    + by eapply Out_future.
    + destruct Hx as (sid & a & Ha & Hs & Hq). pose proof Hq as (_ & _ & ->).
      eapply (Out_opening _ _ _ _ _ ctx sid a); [cbn; by rewrite lookup_insert_eq|done..].
  - intros q ctx' s b Hq Hb. apply lookup_insert_Some in Hq as [[<- <-]|[_ Hq]]; [by eapply Hu|by eapply ki_used0].
  - intros q ctx' Hq. apply lookup_insert_Some in Hq as [[<- _]|[_ Hq]]; [done|by eapply ki_peers0].
Qed.

Lemma inv_remove_dials L c k p actions : kad_inv L c k → k_pending_dials k !! p = Some actions →
  kad_inv (λ kind i r, L kind i r ∨ actions_requests p actions kind i r) c
    (with_dials k (delete p (k_pending_dials k))).
Proof.
  intros [] Hp. split; try done; cbn. intros kind i r Hw.
  destruct (ki_waits0 _ _ _ Hw) as [[l b Hl Hb Hq|ctx' s b Hctx Hb Hopen Hq|f Hf Hq]|HL].
  - destruct (decide (r = p)) as [->|Hne].
    + right. right. simplify_eq. by exists b.
    + left. eapply Out_dial; [cbn; by rewrite lookup_delete_ne|done..].
  - left. by eapply Out_opening.
  - left. by eapply Out_future.
  - right. by left.
Qed.

Definition established_lost k (s : S) (p : PeerId) : list (RequestKind * N * PeerId) :=
  match k_pending_dials k !! p with
  | Some actions => request_of p <$> unopened s p actions
  | None => []
  end.

(** A connection is established, perhaps one that requests wait for. *)
Lemma inv_established L c k p e s random k' res :
  let c1 := mkContract ({[p]} ∪ connected c) (opening c) (used c) in
  kad_inv L c k → p ∉ connected c → ks_refines s c1 →
  k_on_connection_established random (with_service k s) p e = Done (k', res) →
  ∃ c', kad_inv (λ kind i r, L kind i r ∨ (kind, i, r) ∈ established_lost k s p) c' k'.
Proof.
  intros c1 Hi Hp Hr. assert (contract_wf c1) as Hwf1.
  { intros id q Hq. destruct (ki_contract _ _ _ Hi id q Hq). set_solver. }
  assert (kad_inv L c1 (with_service k s)) as Hi1.
  { eapply inv_contract; [done..|set_solver|done|done]. }
  assert (k_peers k !! p = None) as Hnone.
  { destruct (k_peers k !! p) as [ctx|] eqn:E; [|done]. by destruct (Hp (ki_peers _ _ _ Hi _ _ E)). }
  unfold k_on_connection_established. destruct (table_on_connection_established _ _ _ _) as [t|];
    cbn [outcome_bind]; [|done].
  assert (kad_inv L c1 (with_table (with_service k s) t)) as Hi2 by by eapply inv_frame.
  cbn zeta. set (k1 := with_table (with_service k s) t) in *.
  change (k_peers k1) with (k_peers k). change (k_pending_dials k1) with (k_pending_dials k).
  unfold established_lost. rewrite Hnone. destruct (k_pending_dials k !! p) as [actions|] eqn:Hd.
  - pose proof (inv_remove_dials _ _ k1 p actions Hi2 Hd) as Hi3. change (k_pending_dials k1) with (k_pending_dials k) in Hi3.
    set (k2 := with_dials k1 _) in *.
    destruct (inv_open_actions p actions L c1 k2 ∅) as (c' & Hc'); [|by intros ???|done|unfold c1; cbn; set_solver|].
    { eapply inv_mono; [|exact Hi3]. naive_solver. }
    change (k_service k2) with s in Hc'.
    destruct (open_actions k2 p actions ∅) as [k3 ctx]. destruct Hc' as (Hi4 & Hu & Hp4 & Hc4).
    intros [= <- _]. exists c'. apply inv_insert_context; [|done..]. eapply inv_mono; [|exact Hi4]. cbn.
    intros kind i r [?|[(a & Ha & Hq)|?]]; [by auto| |by auto]. left. right.
    apply list_elem_of_fmap. exists a. split; [by apply request_of_elem|done].
  - intros [= <- _]. exists c1. eapply inv_mono; [|exact Hi2]. by left.
Qed.

Lemma inv_fail_all L c p actions : ∀ k,
  kad_inv (λ kind i r, L kind i r ∨ actions_requests p actions kind i r) c k →
  kad_inv L c (foldl (λ k action, fail_request k (pa_query_id action) p) k actions).
Proof.
  induction actions as [|a actions IH]; intros k Hi; cbn [foldl].
  - eapply inv_mono; [|exact Hi]. intros kind i r [?|(a & Ha & _)]; [done|]. by apply not_elem_of_nil in Ha.
  - apply IH. eapply inv_mono; [|by apply inv_fail_request, Hi]. cbn.
    intros kind i r [[?|(b & [->|Hb]%elem_of_cons & Hq)] Hn]; [by left| |right; by exists b].
    destruct Hq as (_ & -> & ->). by destruct Hn.
Qed.

Lemma inv_dial_failure L c k p l random k' : kad_inv L c k →
  k_on_dial_failure random k p l = Done k' → kad_inv L c k'.
Proof.
  intros Hi. unfold k_on_dial_failure. destruct (table_on_dial_failure _ _ _ _) as [t|]; cbn [outcome_bind]; [|done].
  assert (kad_inv L c (with_table k t)) as Hi1 by (eapply inv_frame; [done..|apply Hi]).
  cbn zeta. change (k_pending_dials (with_table k t)) with (k_pending_dials k).
  destruct (k_pending_dials k !! p) as [actions|] eqn:Hd; intros [= <-]; [|done].
  apply inv_fail_all. by apply (inv_remove_dials L c (with_table k t) p actions).
Qed.

Lemma inv_inbound L c k p sub : kad_inv L c k → p ∈ connected c → kad_inv L c (k_on_inbound_substream k p sub).
Proof.
  intros Hi Hp. unfold k_on_inbound_substream. destruct (kc_mode _).
  { eapply inv_frame; [done..|apply Hi]. }
  refine (inv_add_future _ _ (with_peers k _) (mkExecutorFuture _ _ _ _) _).
  eapply inv_mono with (L := L); [by left|].
  destruct (k_peers k !! p) as [ctx|] eqn:E; cbn.
  - eapply inv_frame; [done|done|cbn; by rewrite insert_id|done..|apply Hi].
  - apply inv_insert_context; [|done..]. eapply inv_mono; [|done]. by left.
Qed.

(** ** Messages *)

Lemma inv_discovered L c k peers k' : kad_inv L c k → k_register_discovered_peers k peers = Done k' → kad_inv L c k'.
Proof.
  intros Hi. unfold k_register_discovered_peers.
  destruct (add_addresses_total c (filter (λ info, kad_peer info ≠ ks_local_peer_id (k_service k)) peers) (k_service k)
    (ki_service _ _ _ Hi)) as (s & -> & Hr). cbn [outcome_bind].
  case_match; intros [= <-]; by eapply inv_frame.
Qed.

Definition lookup_request (id : option N) (p : PeerId) : Requests :=
  λ kind i r, kind = LookupRequest ∧ Some i = id ∧ r = p.

Lemma inv_response L c k now random id p m k' :
  kad_inv (λ kind i r, L kind i r ∨ lookup_request (Some id) p kind i r) c k →
  k_register_response now random k id p m = Done k' → kad_inv L c k'.
Proof.
  intros Hi. unfold k_register_response. pose proof (register_response_settles (k_engine k) now id p m) as Hs.
  destruct (register_response (k_engine k) now id p m) as [e proven]. cbn [fst] in Hs.
  assert (kad_inv L c (with_engine k e)) as Hi1.
  { eapply inv_mono; [|eapply inv_settles; [exact Hi|exact Hs]]. cbn.
    intros kind i r [[?|(-> & [= ->] & ->)] Hn]; [done|]. by destruct Hn. }
  destruct proven as [proven|]; [|by intros [= <-]]. unfold k_insert_proven_server.
  destruct (kc_update_mode _); [intros [= <-]; by eapply inv_frame; [..|apply Hi1]|].
  destruct (add_known_peer _ _ _ _ _) as [tb|]; cbn [outcome_bind]; [|done].
  intros [= <-]. by eapply inv_frame; [..|apply Hi1].
Qed.

Lemma inv_close L c k sub : kad_inv L c k → kad_inv L c (close_substream k sub).
Proof. intros Hi. by eapply inv_frame; [..|apply Hi]. Qed.

Lemma inv_on_response L c k now random id p m peers sub k' :
  kad_inv (λ kind i r, L kind i r ∨ lookup_request (Some id) p kind i r) c k →
  k_on_response now random k id p m peers sub = Done k' → kad_inv L c k'.
Proof.
  intros Hi. unfold k_on_response. destruct (k_register_discovered_peers k peers) as [k1|] eqn:E1; cbn [outcome_bind]; [|done].
  destruct (k_register_response _ _ _ _ _ _) as [k2|] eqn:E; cbn [outcome_bind]; [|done].
  intros [= <-]. apply inv_close. eapply inv_response; [|done]. by eapply inv_discovered.
Qed.

(** A future that belongs to no query. *)
Lemma inv_plain_future L c k p sub task : kad_inv L c k →
  kad_inv L c (with_executor k (k_executor k ++ [mkExecutorFuture p None sub task])).
Proof. intros Hi. apply inv_add_future. eapply inv_mono; [|done]. by left. Qed.

Lemma inv_store L c k st : kad_inv L c k → kad_inv L c (with_kad_store k st).
Proof. intros Hi. by eapply inv_frame; [..|apply Hi]. Qed.
Lemma inv_emit L c k ev : kad_inv L c k → kad_inv L c (emit k ev).
Proof. intros Hi. by eapply inv_frame; [..|apply Hi]. Qed.

Lemma inv_no_lookup L c k p : kad_inv (λ kind i r, L kind i r ∨ lookup_request None p kind i r) c k → kad_inv L c k.
Proof. apply inv_mono. intros kind i r [?|(_ & ? & _)]; done. Qed.

(** A message that no query is told about, although it answers a request. *)
Definition unanswered (now : N) k (m : list byte) : bool :=
  match message_from_bytes now (k_replication k) m with
  | Done None | Done (Some (MsgAddProvider _ _)) => true
  | _ => false
  end.

Lemma inv_message L (X : Requests) c k now random p id m sub k' res :
  (∀ kind i r, X kind i r → lookup_request id p kind i r) →
  kad_inv (λ kind i r, L kind i r ∨ X kind i r) c k →
  k_on_message_received now random k p id m sub = Done (k', res) →
  kad_inv (λ kind i r, L kind i r ∨ X kind i r ∧ unanswered now k m = true) c k'.
Proof.
  intros HX HiX. assert (kad_inv (λ kind i r, L kind i r ∨ lookup_request id p kind i r) c k) as Hi.
  { eapply inv_mono; [|exact HiX]. naive_solver. }
  unfold k_on_message_received, unanswered.
  destruct (message_from_bytes now (k_replication k) m) as [[msg|]|]; cbn [outcome_bind]; [| |done].
  2:{ intros [= <- _]. eapply inv_mono; [|exact HiX]. naive_solver. }
  set (msg' := if decide _ then message_retain_global msg else msg).
  assert ((∃ key l, msg' = MsgAddProvider key l) → ∃ key l, msg = MsgAddProvider key l) as Hmsg.
  { unfold msg'. intros (key & l & E). case_decide; [|by eauto]. destruct msg; by eauto. }
  clearbody msg'.
  match goal with |- outcome_bind ?x _ = _ → _ => destruct x as [k1|] eqn:E end; cbn [outcome_bind]; [|done].
  intros [= <- _].
  assert (kad_inv L c k1 ∨ (∃ key l, msg' = MsgAddProvider key l) ∧
    kad_inv (λ kind i r, L kind i r ∨ X kind i r) c k1) as [Hk|[Ha Hk]].
  2:{ eapply inv_mono; [|exact Hk]. by left. }
  2:{ destruct (Hmsg Ha) as (key & l & ->). eapply inv_mono; [|exact Hk]. naive_solver. }
  destruct msg' as [target peers|record|key record peers|key providers|key peers providers].
  - left. destruct id as [id|]; [by eapply inv_on_response|]. injection E as <-. by eapply inv_plain_future, inv_no_lookup.
  - left. unfold k_on_put_value in E. destruct id as [id|].
    + destruct (k_register_response _ _ _ _ _ _) as [k2|] eqn:E2; cbn [outcome_bind] in E; [|done]. injection E as <-.
      by eapply inv_close, inv_response.
    + injection E as <-. apply inv_emit. apply inv_no_lookup in Hi.
      destruct (kc_validation_mode _); apply inv_plain_future; [done|by apply inv_store].
  - left. destruct id as [id|]; [by eapply inv_on_response|]. apply inv_no_lookup in Hi.
    destruct key as [key|]; [|by injection E as <-]. destruct (store_get (k_store k) now key) as [st v]. injection E as <-.
    by apply inv_plain_future, inv_store.
  - right. split; [by eauto|]. injection E as <-. unfold k_on_add_provider. repeat case_match; try done.
    by apply inv_emit, inv_store.
  - left. destruct id as [id|]; [by eapply inv_on_response|]. apply inv_no_lookup in Hi.
    destruct key as [key|]; [|by injection E as <-]. destruct (get_providers (k_store k) now key) as [st v].
    destruct (get_providers_response _ _) as [reply|]; cbn [outcome_bind] in E; [|done]. injection E as <-.
    by apply inv_plain_future, inv_store.
Qed.

(** ** Exchanges *)

(** The request of an exchange that ended with a reply no query is told about. *)
Definition reply_lost (now : N) k (f : ExecutorFuture) (w : WriteEnd) (r : ReadEnd) : list (RequestKind * N * PeerId) :=
  match (task_run (ef_substream f) (ef_task f) w r).2, ef_query_id f, task_kind (ef_task f) with
  | QrReadSuccess _ m, Some id, Some LookupRequest => if unanswered now k m then [(LookupRequest, id, ef_peer f)] else []
  | _, _, _ => []
  end.

(** The result of an exchange settles its request. *)
Lemma inv_query_result L c k now random f w r k' :
  let result := (task_run (ef_substream f) (ef_task f) w r).2 in
  kad_inv (λ kind i q, L kind i q ∨ future_request f kind i q) c k →
  k_on_query_result now random k (mkQueryContext (ef_peer f) (ef_query_id f) result) = Done k' →
  kad_inv (λ kind i q, L kind i q ∨ (kind, i, q) ∈ reply_lost now k f w r) c k'.
Proof.
  intros result Hi. unfold k_on_query_result, reply_lost. cbn [qc_peer qc_query_id qc_result]. fold result.
  assert (kad_inv (λ kind i q, L kind i q ∨ task_kind (ef_task f) = Some LookupRequest ∧
    lookup_request (ef_query_id f) (ef_peer f) kind i q) c (send_succeeded k (ef_query_id f) (ef_peer f))) as Hsent.
  { eapply inv_mono; [|apply inv_send_succeeded, Hi]. cbn. intros kind i q [[?|(Hk & Hid & ->)] Hn]; [by left|].
    right. rewrite Hk. destruct (decide (kind = LookupRequest)) as [->|]; [by rewrite Hid|].
    destruct Hn. by rewrite Hid. }
  assert (∀ k1, disconnected k (ef_peer f) (ef_query_id f) k1 → kad_inv L c k1) as Hfail.
  { intros k1 Hd. eapply inv_mono; [|eapply inv_disconnected; [exact Hi|exact Hd]]. cbn.
    intros kind i q [[?|(_ & -> & ->)] Hn]; [done|]. by destruct Hn. }
  assert (∀ sub, kad_inv (λ kind i q, L kind i q ∨ task_kind (ef_task f) = Some LookupRequest ∧
    lookup_request (ef_query_id f) (ef_peer f) kind i q) c
    (send_succeeded (close_substream k sub) (ef_query_id f) (ef_peer f))) as Hsent'.
  { intros sub. eapply inv_frame; [exact Hsent|..]; unfold send_succeeded; destruct (ef_query_id f); try done;
      apply Hi. }
  assert (task_kind (ef_task f) = Some LookupRequest → (∃ sub, result = QrSendSuccess sub) ∨ result = QrAssumeSendSuccess →
    False) as Hlookup.
  { unfold result, task_run, read_result. destruct (ef_task f), w; cbn; try done; repeat case_match; naive_solver. }
  clearbody result. destruct result as [sub|reason|sub m|reason|]; intros Hd.
  - injection Hd as <-. eapply inv_mono; [|apply Hsent']. cbn. intros kind i q [?|[Hk _]]; [by left|].
    destruct (Hlookup Hk). eauto.
  - eapply inv_mono; [|by eapply Hfail, disconnect_spec]. by left.
  - destruct (k_on_message_received _ _ _ _ _ _ _) as [[k1 res]|] eqn:E; cbn [outcome_bind] in Hd; [|done].
    injection Hd as <-.
    assert (unanswered now (send_succeeded k (ef_query_id f) (ef_peer f)) m = unanswered now k m) as Hun
      by (unfold send_succeeded; by destruct (ef_query_id f)).
    eapply inv_mono; [|eapply inv_message; [|exact Hsent|exact E]]; cbn; [|naive_solver].
    intros kind i q [?|[[-> (-> & Hid & ->)] Hm]]; [by left|]. right. rewrite Hun in Hm. rewrite Hm, <- Hid. by left.
  - eapply inv_mono; [|by eapply Hfail, disconnect_spec]. by left.
  - injection Hd as <-. eapply inv_mono; [|apply Hsent]. cbn. intros kind i q [?|[Hk _]]; [by left|].
    destruct (Hlookup Hk). eauto.
Qed.

(** ** Starting queries and carrying out their actions *)

Lemma inv_set_query L (X : Requests) c k id q : kad_inv L c k →
  (∀ p, p ∈ query_pending q → X (query_kind q) id p) →
  kad_inv (λ kind i r, L kind i r ∨ X kind i r) c (with_engine k (set_query (k_engine k) id q)).
Proof.
  intros Hi HX. eapply inv_engine; [done|]. intros kind i r (q' & Hq & <- & Hp). cbn in Hq.
  apply lookup_insert_Some in Hq as [[<- <-]|[_ Hq]]; [right; right; by apply HX|]. left. split; [by exists q'|]. by left.
Qed.

Lemma inv_begin L c k id q : kad_inv L c k → query_pending q = ∅ → kad_inv L c (with_engine k (set_query (k_engine k) id q)).
Proof.
  intros Hi Hq. eapply inv_mono; [|apply (inv_set_query L (λ _ _ _, False))]; [naive_solver|done|].
  rewrite Hq. set_solver.
Qed.

Lemma open_or_dial_engine k e p a : k_open_substream_or_dial (with_engine k e) p a =
  (with_engine (k_open_substream_or_dial k p a).1 e, (k_open_substream_or_dial k p a).2).
Proof.
  unfold k_open_substream_or_dial. cbn [with_engine k_service].
  destruct (ks_open_substream (k_service k) p) as [s [id|err]]; [done|]. cbn [with_service k_service].
  destruct (ks_dial s p) as [s' [[]|err']]; [done|]. destruct err'; try done. cbn [with_service k_service].
  by destruct (ks_open_substream s' p) as [s'' [id|err'']].
Qed.

Lemma send_to_peers_engine peers a : ∀ k e,
  k_send_to_peers (with_engine k e) peers a = with_engine (k_send_to_peers k peers a) e.
Proof.
  unfold k_send_to_peers. induction peers as [|x peers IH]; intros k e; cbn [foldl]; [done|].
  rewrite open_or_dial_engine. cbn [fst]. apply IH.
Qed.

(** The peers to which a request could not go out. *)
Fixpoint unsent k (peers : list KademliaPeer) (a : PeerAction) : list PeerId :=
  match peers with
  | [] => []
  | x :: peers =>
      match k_open_substream_or_dial k (kad_peer x) a with
      | (k, Ok _) => unsent k peers a
      | (k, Err _) => kad_peer x :: unsent k peers a
      end
  end.

Lemma unsent_engine peers a : ∀ k e, unsent (with_engine k e) peers a = unsent k peers a.
Proof.
  induction peers as [|x peers IH]; intros k e; cbn [unsent]; [done|]. rewrite open_or_dial_engine.
  destruct (k_open_substream_or_dial k (kad_peer x) a) as [k1 [[]|err]]; cbn [fst snd]; by rewrite IH.
Qed.

Definition peers_requests (a : PeerAction) (peers : list PeerId) : Requests :=
  λ kind i r, r ∈ peers ∧ action_request a r kind i r.

Lemma inv_send_to_peers a peers : ∀ L c k,
  kad_inv (λ kind i r, L kind i r ∨ peers_requests a (kad_peer <$> peers) kind i r) c k →
  ∃ c', kad_inv (λ kind i r, L kind i r ∨ peers_requests a (unsent k peers a) kind i r) c' (k_send_to_peers k peers a).
Proof.
  unfold k_send_to_peers. induction peers as [|x peers IH]; intros L c k Hi; cbn [foldl unsent]; [by exists c|].
  destruct (inv_open_or_dial (λ kind i r, L kind i r ∨ peers_requests a (kad_peer <$> peers) kind i r) c k
    (kad_peer x) a) as (c1 & Ho).
  { eapply inv_mono; [|exact Hi]. intros kind i r [?|[Hin Hq]]; [by auto|].
    rewrite fmap_cons in Hin. apply elem_of_cons in Hin as [->|Hin]; [by right|]. left. by right. }
  destruct (k_open_substream_or_dial k (kad_peer x) a) as [k1 [[]|err]]; cbn [fst]; [by eapply IH|].
  destruct (IH (λ kind i r, L kind i r ∨ action_request a (kad_peer x) kind i r) c1 k1) as (c' & Hc').
  { eapply inv_mono; [|exact Ho]. naive_solver. }
  exists c'. eapply inv_mono; [|exact Hc']. intros kind i r [[?|Hq]|[Hin Hq]]; [by left|..]; right.
  - pose proof Hq as (_ & _ & ->). split; [by left|done].
  - split; [by right|done].
Qed.

(** What an action of the engine loses. *)
Definition action_lost (now : N) k (a : QueryAction) : list (RequestKind * N * PeerId) :=
  match a with
  | ActPutRecordToFoundNodes query record peers _ =>
      let action := PaSendPutValue query (message_encode (put_value now record)) in
      (λ p, request_of p action) <$> unsent k peers action
  | ActAddProviderToFoundNodes query key provider peers _ =>
      match add_provider key provider with
      | Done m => let action := PaSendAddProvider query (message_encode m) in
                  (λ p, request_of p action) <$> unsent k peers action
      | Panic => []
      end
  | _ => []
  end.

(** The requests of a query that tells found peers are tracked once they are on their way. *)
Lemma inv_track L c k a peers id q : kad_inv L c k → query_kind q = action_kind a → id = pa_query_id a →
  query_pending q = list_to_set (kad_peer <$> peers) →
  ∃ c', kad_inv (λ kind i r, L kind i r ∨ (kind, i, r) ∈ (λ p, request_of p a) <$> unsent k peers a) c'
    (with_engine (k_send_to_peers k peers a) (set_query (k_engine (k_send_to_peers k peers a)) id q)).
Proof.
  intros Hi Hk Hid Hp. destruct (send_to_peers_same peers a k) as [He _]. rewrite He.
  rewrite <- send_to_peers_engine.
  destruct (inv_send_to_peers a peers L c (with_engine k (set_query (k_engine k) id q))) as (c' & Hc').
  { apply inv_set_query; [done|]. rewrite Hp. intros p Hin%elem_of_list_to_set. by split. }
  exists c'. eapply inv_mono; [|exact Hc']. intros kind i r [?|[Hin Hq]]; [by left|]. right.
  apply list_elem_of_fmap. exists r. split; [by apply request_of_elem|]. by rewrite unsent_engine in Hin.
Qed.

Lemma inv_action L c k now e a k' r : engine_wf (k_engine k) → kad_inv L c k →
  engine_next_action (k_engine k) now = Done (e, Some a) → k_on_query_action now (with_engine k e) a = Done (k', r) →
  ∃ c', kad_inv (λ kind i p, L kind i p ∨ (kind, i, p) ∈ action_lost now (with_engine k e) a) c' k'.
Proof.
  intros He Hi Ha. destruct (engine_next_action_polled _ _ _ _ He Ha) as [_ Hw].
  assert (kad_inv (λ kind i p, L kind i p ∨ asked (Some a) kind i p) c (with_engine k e)) as Hi1.
  { eapply inv_engine; [done|]. intros kind i p [[?|?] _]%Hw; [left; by auto|right; by right]. }
  assert ((∀ i p m, a ≠ SendMessage i p m) → kad_inv L c (with_engine k e)) as Hi2.
  { intros Hn. eapply inv_mono; [|exact Hi1]. intros kind i p [?|(_ & m & [= ?])]; [done|]. by edestruct Hn. }
  assert (∀ ev, (∀ i p m, a ≠ SendMessage i p m) → ∃ c', kad_inv (λ kind i p, L kind i p ∨ (kind, i, p) ∈ [])
    c' (emit (with_engine k e) ev)) as Hev.
  { intros ev Hn. exists c. apply inv_emit. eapply inv_mono; [|by apply Hi2]. by left. }
  destruct a as [q p m|q target peers|q record peers quorum|q key|q key provider peers quorum|q key|q|q x|
    q key providers|q|q]; cbn [k_on_query_action action_lost]; try (intros [= <- _]; by apply Hev).
  - assert (kad_inv (λ kind i r, L kind i r ∨ action_request (PaSendFindNode q) p kind i r) c (with_engine k e)) as Hi3.
    { eapply inv_mono; [|exact Hi1]. intros kind i r0 [?|(-> & m' & [= -> -> _])]; [by left|by right]. }
    destruct (inv_open_or_dial _ _ _ _ _ Hi3) as (c' & Ho).
    destruct (k_open_substream_or_dial (with_engine k e) p (PaSendFindNode q)) as [k1 [[]|err]];
      intros [= <- _]; exists c'.
    + eapply inv_mono; [|exact Ho]. by left.
    + eapply inv_mono; [|apply inv_fail_request, Ho]. cbn. intros kind i r0 [[?|(_ & -> & ->)] Hn]; [by left|]. by destruct Hn.
  - intros [= <- _]. by eapply inv_track; [by apply Hi2|..].
  - destruct (add_provider key provider) as [m|]; cbn [outcome_bind]; [|done]. intros [= <- _].
    by eapply inv_track; [by apply Hi2|..].
  - intros [= <- _]. exists c. eapply inv_mono; [|by apply Hi2]. by left.
Qed.

Lemma inv_command L c k now random cmd k' x : kad_inv L c k → k_on_command now random k cmd = Done (k', x) → kad_inv L c k'.
Proof.
  intros Hi. unfold k_on_command.
  destruct cmd as [[peer l|peer id|r q id|r q id peers upd|key q id|key id|key q id|key|r]|].
  - destruct (add_known_peer _ _ _ _ _) as [tb|]; cbn [outcome_bind]; [|done].
    destruct (ks_address_law _ peer l _ (ki_service _ _ _ Hi)) as (s & -> & Hs). cbn [outcome_bind].
    intros [= <- _]. by eapply inv_frame.
  - intros [= <- _]. apply inv_begin; [done|apply dom_empty_L].
  - intros [= <- _]. eapply (inv_begin L c (with_kad_store k _)); [by apply inv_store|apply dom_empty_L].
  - destruct (put_record_targets _ _ _) as [[tb ps]|]; cbn [outcome_bind]; [|done]. intros [= <- _].
    eapply (inv_begin L c (with_table (if upd then _ else k) tb)); [|done].
    destruct upd; by eapply inv_frame; [..|apply Hi].
  - destruct (store_get (k_store k) now key) as [st rec]. destruct rec as [rec|].
    + destruct q; intros [= <- _]; [|by apply inv_emit, inv_emit, inv_store|];
        (eapply (inv_begin L c (emit (with_kad_store k st) _)); [by apply inv_emit, inv_store|apply dom_empty_L]).
    + intros E. assert (k' = with_engine (with_kad_store k st) (start_get_record (k_engine k) id key
        (k_closest (with_kad_store k st) (Key_new key)) q false)) as -> by (destruct q; by injection E as <-).
      apply (inv_begin L c (with_kad_store k st)); [by apply inv_store|apply dom_empty_L].
  - destruct (get_providers (k_store k) now key) as [st ps]. unfold start_get_providers.
    destruct (peers_of_contents ps) as [ks|]; cbn [outcome_bind]; [|done]. intros [= <- _].
    apply (inv_begin L c (with_kad_store k st)); [by apply inv_store|apply dom_empty_L].
  - destruct (put_local_provider (k_store k) now key q) as [st [|]]; intros [= <- _].
    + apply (inv_begin L c (with_kad_store k st)); [by apply inv_store|apply dom_empty_L].
    + by apply inv_emit, inv_store.
  - intros [= <- _]. by apply inv_store.
  - intros [= <- _]. by apply inv_store.
  - by intros [= <- _].
Qed.

Lemma inv_store_action L c k now i : kad_inv L c k → kad_inv L c (k_on_store_action now k i).
Proof.
  intros Hi. unfold k_on_store_action. destruct (next_action (k_store k) i) as [st [[[key p] q]|]]; [|by apply inv_store].
  set (k1 := with_counter _ _). apply (inv_begin L c k1); [|apply dom_empty_L].
  by eapply inv_frame; [..|apply Hi].
Qed.
End requests.
