(* ===== verification/KademliaSystem.v ===== *)
(** * Kademlia and its user

    The event loop of [Kademlia], the user's handle and the transport service, composed. The
    loop over the engine's actions and the [select!] are steps of their own, so that calls of
    the user and the progress of the service come between them. *)

From stdpp Require Import base tactics option list gmap strings sorting fin_maps.
From Stdlib Require Import ZArith NArith Lia Init.Byte Permutation.
From S2P Require Import Prelude Multiaddr AddressStore PeerState BTreeMap KademliaTypes KBucket RoutingTable.
From S2P Require Import RoutingTableClosest RoutingTableInvariant KademliaStore KademliaStoreFacts.
From S2P Require Import KademliaCommands KademliaMessage KademliaQuery QueryEngine QueryEngineFacts.
From S2P Require Import TransportManagerHandle ProtocolTypes KademliaExecutor KademliaHandle Kademlia KademliaLookups KademliaFacts.
From S2P Require Import KademliaRequests.

Local Open Scope litep2p_scope.

(** The query an event ends. *)
Definition event_answer (e : KademliaEvent) : option QueryId :=
  match e with
  | KvFindNodeSuccess id _ _ | KvGetRecordSuccess id | KvGetProvidersSuccess id _ _ | KvPutRecordSuccess id _
  | KvAddProviderSuccess id _ | KvQueryFailed id => Some id
  | _ => None
  end.

Definition effect_event (e : KadEffect) : option KademliaEvent :=
  match e with KeEvent event => Some event | KeSubstream _ => None end.

Definition effect_answer (e : KadEffect) : option QueryId := effect_event e ≫= event_answer.

(** The query a command starts. *)
Definition command_query (c : KademliaCommand) : option QueryId :=
  match c with
  | KcFindNode _ id | KcPutRecord _ _ id | KcPutRecordToPeers _ _ id _ _ | KcGetRecord _ _ id | KcGetProviders _ id
  | KcStartProviding _ _ id => Some id
  | KcAddKnownPeer _ _ | KcStopProviding _ | KcStoreRecord _ => None
  end.

(** What happens to queries: started, answered to the user, a request of one lost. *)
Inductive KadMark :=
| KmAsked (id : QueryId)
| KmEnded (id : QueryId)
| KmLost (kind : RequestKind) (id : QueryId) (p : PeerId).

Definition km_asked (m : KadMark) : option QueryId := match m with KmAsked id => Some id | _ => None end.
Definition km_ended (m : KadMark) : option QueryId := match m with KmEnded id => Some id | _ => None end.

Definition lost_marks (l : list (RequestKind * N * PeerId)) : list KadMark :=
  (λ '(kind, id, p), KmLost kind id p) <$> l.

Definition read_marks (o : Poll (option KademliaEvent)) : list KadMark :=
  match o with
  | Ready (Some e) => KmEnded <$> option_list (event_answer e)
  | _ => []
  end.

Section system.
Context `{IpNetwork, HashOrder, Sha256, MultihashLib, MultiaddrBytes, MessageCodec} {S : Type} `{KadServiceLaws S}.
Context (debug : bool) (capacity : nat).
Implicit Types (k : Kademlia S) (h : KademliaHandle).

(** The events of a turn go to the handle. *)
Definition flush k h : Kademlia S * KademliaHandle :=
  (with_effects k [], mkKademliaHandle (kh_cmd_tx h) (kh_event_rx h ++ omap effect_event (k_effects k))).

(** A branch of the [select!] is ready: the state without what it received. *)
Inductive branch_ready k h : KadBranch → Kademlia S → KademliaHandle → Prop :=
| R_service event s : ks_polls (k_service k) event s → branch_ready k h (KbService (Some event)) (with_service k s) h
| R_executor i w r : branch_ready k h (KbExecutor i w r) k h
| R_command command commands : kh_cmd_tx h = command :: commands →
    branch_ready k h (KbCommand (Some command)) k (mkKademliaHandle commands (kh_event_rx h))
| R_store i : branch_ready k h (KbStore i) k h.

(** The queries a branch starts. *)
Definition branch_queries k (b : KadBranch) : list QueryId :=
  match b with
  | KbCommand (Some command) => option_list (command_query command)
  | KbStore i => match next_action (k_store k) i with (_, Some _) => [k_next_query_id k] | (_, None) => [] end
  | _ => []
  end.

(** Those that are not started by the user. *)
Definition own_queries k (b : KadBranch) : list QueryId :=
  match b with KbStore _ => branch_queries k b | _ => [] end.

(** The requests a branch loses. *)
Definition select_lost (now : N) k (b : KadBranch) : list (RequestKind * N * PeerId) :=
  match b with
  | KbService (Some (SvConnectionEstablished p _)) => established_lost k (k_service k) p
  | KbService (Some (SvSubstreamOpenFailure sid _)) => open_failure_lost k sid
  | KbExecutor i w r => match k_executor k !! i with Some f => reply_lost now k f w r | None => [] end
  | _ => []
  end.

(** A call of the user, an action of the engine, a turn of the [select!] once the engine has none
    left, or progress of the service. *)
Inductive kad_step : Kademlia S * KademliaHandle → list KadMark → Kademlia S * KademliaHandle → Prop :=
| Y_query k h call h' n id :
    kh_has_room capacity h = true → (k_next_query_id k < usize_max)%N →
    kh_start_query h (k_next_query_id k) call = (h', n, id) →
    kad_step (k, h) [KmAsked id] (with_counter k n, h')
| Y_try_query k h call h' n r :
    (k_next_query_id k < usize_max)%N →
    kh_try_start_query capacity h (k_next_query_id k) call = (h', n, r) →
    kad_step (k, h) match r with Ok id => [KmAsked id] | Err _ => [] end (with_counter k n, h')
| Y_call k h call :
    kh_has_room capacity h = true → kad_step (k, h) [] (k, kh_call h call)
| Y_read k h h' o :
    kh_poll_next false h = (h', o) → kad_step (k, h) (read_marks o) (k, h')
| Y_action k h now e a k' r :
    engine_next_action (k_engine k) now = Done (e, Some a) → k_on_query_action now (with_engine k e) a = Done (k', r) →
    kad_step (k, h) (lost_marks (action_lost now (with_engine k e) a)) (flush k' h)
| Y_select k h now random e b k1 h1 k' :
    engine_next_action (k_engine k) now = Done (e, None) → (k_next_query_id k < usize_max)%N →
    branch_ready (with_engine k e) h b k1 h1 → k_select debug now random k1 b = Done (k', false) →
    kad_step (k, h) ((KmAsked <$> own_queries k1 b) ++ lost_marks (select_lost now k1 b)) (flush k' h1)
| Y_service k h s :
    ks_idles (k_service k) s → kad_step (k, h) [] (with_service k s, h).

(** ** Queries and their answers *)

Definition active k : list QueryId := elements (dom (queries (k_engine k))).
Definition ended k : list QueryId := omap effect_answer (k_effects k).

Record quiet k k' : Prop := {
  qt_dom : dom (queries (k_engine k')) = dom (queries (k_engine k));
  qt_ended : ended k' = ended k;
  qt_counter : k_next_query_id k' = k_next_query_id k;
}.

Lemma quiet_refl k : quiet k k.
Proof. done. Qed.
Lemma quiet_trans k1 k2 k3 : quiet k1 k2 → quiet k2 k3 → quiet k1 k3.
Proof. intros [] []. split; congruence. Qed.

Lemma ended_app k l : ended (with_effects k (k_effects k ++ l)) = ended k ++ omap effect_answer l.
Proof. unfold ended. cbn. apply omap_app. Qed.

Lemma ended_emit k ev : ended (emit k ev) = ended k ++ option_list (event_answer ev).
Proof. unfold emit. rewrite ended_app. cbn. unfold effect_answer. cbn. by destruct (event_answer ev). Qed.

Lemma quiet_effects k l : omap effect_answer l = [] → quiet k (with_effects k (k_effects k ++ l)).
Proof. intros Hl. split; [done| |done]. by rewrite ended_app, Hl, app_nil_r. Qed.

Lemma quiet_close k s : quiet k (close_substream k s).
Proof. by apply quiet_effects. Qed.

Lemma quiet_emit k ev : event_answer ev = None → quiet k (emit k ev).
Proof. intros He. split; [done| |done]. by rewrite ended_emit, He, app_nil_r. Qed.

Lemma quiet_fail k id p : quiet k (fail_request k id p).
Proof. destruct (fail_request_settles (k_engine k) id p) as [[Hd _] _]. by split. Qed.

Lemma quiet_sent k id p : quiet k (send_succeeded k id p).
Proof.
  unfold send_succeeded. destruct id as [id|]; [|apply quiet_refl].
  destruct (register_send_success_settles (k_engine k) id p) as [Hd _]. by split.
Qed.

Lemma quiet_disconnected k p q k' : disconnected k p q k' → quiet k k'.
Proof. intros []. split; [done| |done]. unfold ended. congruence. Qed.

Lemma quiet_open_actions p actions : ∀ k ctx, quiet k (open_actions k p actions ctx).1.
Proof.
  induction actions as [|a actions IH]; intros k ctx; cbn [open_actions]; [done|].
  destruct (ks_open_substream (k_service k) p) as [s [id|err]].
  - eapply quiet_trans; [|apply IH]. done.
  - eapply quiet_trans; [|apply IH]. destruct a; [|done..].
    eapply quiet_trans; [|apply quiet_fail]. done.
Qed.

Lemma quiet_fail_all p actions : ∀ k, quiet k (foldl (λ k action, fail_request k (pa_query_id action) p) k actions).
Proof.
  induction actions as [|a actions IH]; intros k; cbn [foldl]; [done|]. eapply quiet_trans; [apply quiet_fail|apply IH].
Qed.

Lemma quiet_register now random k id p m k' : k_register_response now random k id p m = Done k' → quiet k k'.
Proof.
  unfold k_register_response. destruct (register_response_settles (k_engine k) now id p m) as [Hd _].
  destruct (register_response (k_engine k) now id p m) as [e proven]. cbn [fst] in Hd.
  assert (quiet k (with_engine k e)) as Hq by by split.
  destruct proven as [proven|]; [|by intros [= <-]]. unfold k_insert_proven_server.
  destruct (kc_update_mode _); [intros [= <-]; eapply quiet_trans; [exact Hq|by apply quiet_emit]|].
  destruct (add_known_peer _ _ _ _ _) as [tb|]; cbn [outcome_bind]; [|done]. intros [= <-].
  apply (quiet_trans _ (emit (with_engine k e) (KvRoutingTableUpdate [kad_peer proven]))); [|done].
  eapply quiet_trans; [exact Hq|by apply quiet_emit].
Qed.

Lemma quiet_on_response now random k id p m peers s k' : k_on_response now random k id p m peers s = Done k' → quiet k k'.
Proof.
  unfold k_on_response. destruct (k_register_discovered_peers k peers) as [k1|] eqn:Ed; cbn [outcome_bind]; [|done].
  destruct (k_register_response _ _ _ _ _ _) as [k2|] eqn:E; cbn [outcome_bind]; [|done].
  intros [= <-]. eapply quiet_trans; [|apply quiet_close]. eapply quiet_trans; [|by eapply quiet_register].
  unfold k_register_discovered_peers in Ed. destruct (add_addresses _ _) as [s'|]; cbn [outcome_bind] in Ed; [|done].
  case_match; injection Ed as <-; [done|]. eapply quiet_trans; [|by apply quiet_emit]. done.
Qed.

Lemma quiet_message now random k p id m s k' r : k_on_message_received now random k p id m s = Done (k', r) → quiet k k'.
Proof.
  unfold k_on_message_received. destruct (message_from_bytes _ _ _) as [[msg|]|]; cbn [outcome_bind]; [|by intros [= <- _]|done].
  set (msg' := if decide _ then message_retain_global msg else msg). clearbody msg'.
  match goal with |- outcome_bind ?x _ = _ → _ => destruct x as [k1|] eqn:E end; cbn [outcome_bind]; [|done].
  intros [= <- _]. destruct msg' as [target peers|record|key record peers|key providers|key peers providers].
  - destruct id as [id|]; [by eapply quiet_on_response|by injection E as <-].
  - unfold k_on_put_value in E. destruct id as [id|].
    + destruct (k_register_response _ _ _ _ _ _) as [k2|] eqn:E2; cbn [outcome_bind] in E; [|done]. injection E as <-.
      eapply quiet_trans; [by eapply quiet_register|apply quiet_close].
    + injection E as <-. eapply quiet_trans; [|by apply quiet_emit]. by destruct (kc_validation_mode _).
  - destruct id as [id|]; [by eapply quiet_on_response|]. destruct key as [key|]; [|by injection E as <-].
    destruct (store_get (k_store k) now key) as [st v]. by injection E as <-.
  - injection E as <-. unfold k_on_add_provider. repeat case_match; try done.
    eapply quiet_trans; [|by apply quiet_emit]. done.
  - destruct id as [id|]; [by eapply quiet_on_response|]. destruct key as [key|]; [|by injection E as <-].
    destruct (get_providers (k_store k) now key) as [st v].
    destruct (get_providers_response _ _) as [reply|]; cbn [outcome_bind] in E; [|done]. by injection E as <-.
Qed.

Lemma quiet_query_result now random k c k' : k_on_query_result now random k c = Done k' → quiet k k'.
Proof.
  unfold k_on_query_result. destruct (qc_result c) as [s|r|s m|r|].
  - intros [= <-]. eapply quiet_trans; [apply quiet_close|apply quiet_sent].
  - intros Hd%disconnect_spec. by eapply quiet_disconnected.
  - destruct (k_on_message_received _ _ _ _ _ _ _) as [[k1 res]|] eqn:E; cbn [outcome_bind]; [|done]. intros [= <-].
    eapply quiet_trans; [apply quiet_sent|by eapply quiet_message].
  - intros Hd%disconnect_spec. by eapply quiet_disconnected.
  - intros [= <-]. apply quiet_sent.
Qed.

Lemma quiet_service_event random k ev k' x : k_on_service_event debug random k ev = Done (k', x) → quiet k k'.
Proof.
  destruct ev as [[peer e|peer|peer l|peer proto fb [|id] s|id err]|]; cbn [k_on_service_event]; [..|by intros [= <- _]].
  - unfold k_on_connection_established. destruct (table_on_connection_established _ _ _ _) as [tb|];
      cbn [outcome_bind]; [|done]. destruct (k_peers _ !! peer); [by intros [= <- _]|].
    destruct (k_pending_dials _ !! peer) as [actions|]; [|by intros [= <- _]].
    set (k1 := with_dials _ _). pose proof (quiet_open_actions peer actions k1 ∅) as Hq.
    destruct (open_actions k1 peer actions ∅) as [k2 ctx]. cbn [outcome_bind]. intros [= <- _].
    eapply quiet_trans with (k2 := k2); [|done]. by eapply quiet_trans with (k2 := k1).
  - destruct (k_disconnect_peer _ _ _ _) as [k1|] eqn:E; cbn [outcome_bind]; [|done]. intros [= <- _].
    by eapply quiet_disconnected, disconnect_spec.
  - unfold k_on_dial_failure. destruct (table_on_dial_failure _ _ _ _) as [tb|]; cbn [outcome_bind]; [|done].
    destruct (k_pending_dials _ !! peer) as [actions|]; cbn [outcome_bind]; intros [= <- _]; [|done].
    eapply quiet_trans; [|apply quiet_fail_all]. done.
  - intros [= <- _]. unfold k_on_inbound_substream. destruct (kc_mode _); [apply quiet_close|done].
  - unfold k_on_outbound_substream. destruct (k_peers _ !! peer) as [ctx|]; cbn [outcome_bind]; [|by intros [= <- _]].
    set (k1 := with_peers _ _). assert (quiet k k1) as Hk1 by done.
    destruct (ctx !! id) as [[q|q m|q m]|]; cbn [outcome_bind].
    + pose proof (next_peer_action_send (k_engine k1) q peer) as Hs.
      destruct (next_peer_action (k_engine k1) q peer) as [[]|]; try done; cbn [outcome_bind]; intros [= <- _]; [done|].
      eapply quiet_trans; [exact Hk1|apply quiet_close].
    + by intros [= <- _].
    + by intros [= <- _].
    + intros [= <- _]. eapply quiet_trans; [exact Hk1|apply quiet_close].
  - unfold k_on_substream_open_failure. destruct (k_pending_substreams k !! id) as [p|]; cbn [outcome_bind]; [|by intros [= <- _]].
    destruct (k_peers _ !! p) as [ctx|]; cbn [outcome_bind]; [|by intros [= <- _]].
    destruct (k_disconnect_peer _ _ _ _) as [k1|] eqn:E; cbn [outcome_bind]; [|done]. intros [= <- _].
    eapply quiet_trans; [|by eapply quiet_disconnected, disconnect_spec]. done.
Qed.

(** The queries that are active or have ended, in terms of those before. *)
Definition balance k k' (started : list QueryId) : Prop := active k' ++ ended k' ≡ₚ started ++ active k ++ ended k.

Lemma quiet_balance k k' : quiet k k' → balance k k' [].
Proof. intros []. unfold balance, active. by rewrite qt_dom0, qt_ended0. Qed.

Lemma active_remove (X : gset N) id : id ∈ X → elements X ≡ₚ id :: elements (X ∖ {[id]}).
Proof.
  intros Hid. rewrite <- (elements_union_singleton (X ∖ {[id]}) id) by set_solver. by rewrite <- union_difference_singleton_L.
Qed.

Lemma no_succeeded e now qs e' a : next_action_loop e now qs = Done (e', Some a) → ∀ id, a ≠ QuerySucceeded id.
Proof.
  revert e. induction qs as [|[i q] qs IH]; intros e; cbn [next_action_loop]; [done|].
  destruct (query_next_action q now) as [q' [act|]]; [|apply IH].
  destruct act; try (intros Heq; simplify_eq; done).
  - unfold on_query_succeeded. destruct (queries _ !! query) as [q0|]; cbn [outcome_bind]; [|done].
    intros Heq. simplify_eq. by destruct q0.
  - unfold on_query_failed. destruct (queries _ !! query) as [q0|]; cbn [outcome_bind]; [|done]. intros Heq. by simplify_eq.
Qed.

Lemma emit_balance k k1 ev id : k_effects k1 = k_effects k → id ∈ dom (queries (k_engine k)) →
  dom (queries (k_engine k1)) = dom (queries (k_engine k)) ∖ {[id]} → event_answer ev = Some id →
  balance k (emit k1 ev) [].
Proof.
  intros He Hid Hd Hev. unfold balance, active. rewrite ended_emit, Hev. cbn. rewrite Hd. unfold ended. rewrite He.
  pose proof (active_remove _ _ Hid). solve_accounts.
Qed.

Lemma action_balance k now e a k' r : engine_wf (k_engine k) → engine_next_action (k_engine k) now = Done (e, Some a) →
  k_on_query_action now (with_engine k e) a = Done (k', r) →
  balance k k' [] ∧ k_next_query_id k' = k_next_query_id k.
Proof.
  intros He Ha. destruct (engine_next_action_spec (k_engine k) now He) as (e' & a' & Ha' & _ & Hs).
  rewrite Ha in Ha'. injection Ha' as <- <-. pose proof (no_succeeded _ _ _ _ _ Ha) as Hns.
  assert (∀ ev id, action_query a = (id, true) → event_answer ev = Some id →
    balance k (emit (with_engine k e) ev) [] ∧ k_next_query_id (emit (with_engine k e) ev) = k_next_query_id k) as Hemit.
  { intros ev id Hq Hev. unfold action_spec in Hs. rewrite Hq in Hs. destruct Hs as [Hid Hd]. split; [|done].
    by eapply emit_balance. }
  assert (∀ k1 q id, same_queries (with_engine k e) k1 → action_query a = (id, true) → 
    balance k (with_engine k1 (set_query (k_engine k1) id q)) [] ∧
    k_next_query_id (with_engine k1 (set_query (k_engine k1) id q)) = k_next_query_id k) as Htrack.
  { intros k1 q id (E1 & E2 & _ & E4 & _) Hq. unfold action_spec in Hs. rewrite Hq in Hs. destruct Hs as [Hid Hd].
    split; [|done]. apply quiet_balance. split; [|unfold ended; cbn; by rewrite E2|done]. cbn. rewrite E1. cbn.
    rewrite dom_insert_L, Hd. by rewrite <- union_difference_singleton_L. }
  destruct a as [q p m|q target peers|q record peers quorum|q key|q key provider peers quorum|q key|q|q x|
    q key providers|q|q]; cbn [k_on_query_action]; try (intros [= <- _]; by eapply Hemit).
  - cbn in Hs. destruct Hs as [_ Hd]. assert (quiet k (with_engine k e)) as Hq by by split.
    destruct (open_or_dial_same (with_engine k e) p (PaSendFindNode q)) as (E1 & E2 & _ & E4 & _).
    destruct (k_open_substream_or_dial (with_engine k e) p (PaSendFindNode q)) as [k1 [[]|err]]; cbn [fst] in *;
      intros [= <- _].
    + assert (quiet k k1) as Hq1 by (split; [by rewrite E1|unfold ended; by rewrite E2|done]).
      split; [by apply quiet_balance|done].
    + assert (quiet k k1) as Hq1 by (split; [by rewrite E1|unfold ended; by rewrite E2|done]).
      split; [|done]. apply quiet_balance. eapply quiet_trans; [done|apply quiet_fail].
  - intros [= <- _]. by apply Htrack; [apply send_to_peers_same|].
  - destruct (add_provider key provider) as [m|]; cbn [outcome_bind]; [|done]. intros [= <- _].
    by apply Htrack; [apply send_to_peers_same|].
  - cbn in Hs. destruct Hs as [_ Hd]. intros [= <- _]. split; [|done]. apply quiet_balance.
    eapply quiet_trans with (k2 := with_engine k e); [by split|by apply quiet_emit].
  - by destruct (Hns q).
Qed.

Lemma start_balance k k1 id q : k_effects k1 = k_effects k → k_engine k1 = k_engine k → id ∉ dom (queries (k_engine k)) →
  balance k (with_engine k1 (set_query (k_engine k1) id q)) [id].
Proof.
  intros He Hen Hid. unfold balance, active, ended. cbn. rewrite He, Hen, dom_insert_L.
  rewrite elements_union_singleton by done. done.
Qed.

Lemma command_balance now random k c k' x : 
  (∀ id, command_query c = Some id → id ∉ dom (queries (k_engine k))) →
  k_on_command now random k (Some c) = Done (k', x) →
  balance k k' (option_list (command_query c)) ∧ k_next_query_id k' = k_next_query_id k.
Proof.
  intros Hf. unfold k_on_command.
  destruct c as [peer l|peer id|r q id|r q id peers upd|key q id|key id|key q id|key|r]; cbn [command_query] in *.
  - destruct (add_known_peer _ _ _ _ _) as [tb|]; cbn [outcome_bind]; [|done]. destruct (ks_add_known_address _ _ _) as [s|]; cbn [outcome_bind]; [|done]. intros [= <- _].
    split; [by apply quiet_balance|done].
  - intros [= <- _]. split; [|done]. apply start_balance; [done..|by apply Hf].
  - intros [= <- _]. split; [|done]. by apply (start_balance k (with_kad_store k _)); [..|apply Hf].
  - destruct (put_record_targets _ _ _) as [[tb ps]|]; cbn [outcome_bind]; [|done]. intros [= <- _].
    split; [|by destruct upd]. eapply (start_balance k (with_table (if upd then _ else k) tb)); [by destruct upd..|by apply Hf].
  - destruct (store_get (k_store k) now key) as [st rec].
    assert (∀ l b, omap effect_answer l = [] → balance k (with_engine (with_effects (with_kad_store k st) (k_effects k ++ l))
      (start_get_record (k_engine k) id key (k_closest (with_kad_store k st) (Key_new key)) q b)) [id]) as Hgo.
    { intros l b Hl. unfold balance. 
      change (active (with_engine ?x ?y)) with (elements (dom (queries y))).
      change (ended (with_engine (with_effects ?x ?y) ?z)) with (omap effect_answer y).
      rewrite omap_app, Hl, app_nil_r. unfold active, ended. cbn. rewrite dom_insert_L.
      by rewrite elements_union_singleton by by apply Hf. }
    destruct rec as [rec|].
    + destruct q; intros [= <- _]; [by split; [apply (Hgo [KeEvent _])|]| |by split; [apply (Hgo [KeEvent _])|]].
      split; [|done]. unfold balance. rewrite !ended_emit. cbn [event_answer].
      change (option_list (Some id)) with [id]. change (option_list None) with (@nil N). change (active (emit _ _)) with (active k). change (ended (with_kad_store k st)) with (ended k). solve_accounts.
    + intros E. assert (k' = with_engine (with_kad_store k st) (start_get_record (k_engine k) id key
        (k_closest (with_kad_store k st) (Key_new key)) q false)) as -> by (destruct q; by injection E as <-).
      split; [|done]. by apply (start_balance k (with_kad_store k st)); [..|apply Hf].
  - destruct (get_providers (k_store k) now key) as [st ps]. unfold start_get_providers.
    destruct (peers_of_contents ps) as [ks|]; cbn [outcome_bind]; [|done]. intros [= <- _]. split; [|done].
    by apply (start_balance k (with_kad_store k st)); [..|apply Hf].
  - destruct (put_local_provider (k_store k) now key q) as [st [|]]; intros [= <- _]; (split; [|done]).
    + by apply (start_balance k (with_kad_store k st)); [..|apply Hf].
    + unfold balance. rewrite ended_emit. cbn [event_answer].
      change (option_list (Some id)) with [id]. change (option_list None) with (@nil N). change (active (emit _ _)) with (active k). change (ended (with_kad_store k st)) with (ended k). solve_accounts.
  - intros [= <- _]. split; [by apply quiet_balance|done].
  - intros [= <- _]. split; [by apply quiet_balance|done].
Qed.

Lemma store_balance now k i : k_next_query_id k ∉ dom (queries (k_engine k)) → (k_next_query_id k < usize_max)%N →
  balance k (k_on_store_action now k i) (branch_queries k (KbStore i)) ∧
  k_next_query_id (k_on_store_action now k i) =
    (k_next_query_id k + N.of_nat (length (branch_queries k (KbStore i))))%N.
Proof.
  intros Hf Hn. unfold k_on_store_action. cbn [branch_queries].
  destruct (next_action (k_store k) i) as [st [[[key p] q]|]].
  - split; [|cbn; by rewrite wrapping_succ].
    by eapply (start_balance k (with_counter (with_kad_store (with_kad_store k st) _) _)).
  - split; [by apply quiet_balance|cbn; lia].
Qed.

(** What a branch does to the queries and to the counter. *)
Lemma select_balance now random k b k' x : (k_next_query_id k < usize_max)%N →
  (∀ id, id ∈ branch_queries k b → id ∉ dom (queries (k_engine k))) →
  b ≠ KbCommand None → k_select debug now random k b = Done (k', x) →
  balance k k' (branch_queries k b) ∧
  k_next_query_id k' = (k_next_query_id k + N.of_nat (length (own_queries k b)))%N.
Proof.
  intros Hn Hf Hb. destruct b as [ev|i w r|[c|]|i]; cbn [k_select]; [| | |done|].
  - intros Hq%quiet_service_event. split; [by apply quiet_balance|]. rewrite (qt_counter _ _ Hq). cbn. lia.
  - destruct (ex_next (k_executor k) i w r) as [[[ex eff] ctx]|].
    2:{ intros [= <- _]. split; [by apply quiet_balance|cbn; lia]. }
    destruct (k_on_query_result _ _ _ _) as [k1|] eqn:E; cbn [outcome_bind]; [|done]. intros [= <- _].
    assert (quiet k k1) as Hq.
    { eapply quiet_trans; [|by eapply quiet_query_result]. split; [done| |done].
      unfold ended. cbn. rewrite omap_app.
      assert (omap effect_answer (KeSubstream <$> eff) = []) as ->; [|by rewrite app_nil_r].
      clear. by induction eff. }
    split; [by apply quiet_balance|]. rewrite (qt_counter _ _ Hq). cbn. lia.
  - intros Hc. destruct (command_balance _ _ _ _ _ _ ltac:(intros id Hid; apply Hf; cbn; rewrite Hid; by left) Hc)
      as [Hbal ->]. split; [done|]. cbn. lia.
  - intros [= <- _]. cbn [own_queries]. destruct (next_action (k_store k) i) as [st [a|]] eqn:E.
    + apply store_balance; [|done]. apply Hf. cbn [branch_queries]. rewrite E. by left.
    + unfold k_on_store_action, branch_queries. rewrite E. split; [by apply quiet_balance|cbn; lia].
Qed.

Lemma inv_select L c k h now random b k1 h1 k' x : engine_wf (k_engine k) → kad_inv L c k →
  branch_ready k h b k1 h1 → k_select debug now random k1 b = Done (k', x) →
  ∃ c', kad_inv (λ kind i p, L kind i p ∨ (kind, i, p) ∈ select_lost now k1 b) c' k'.
Proof.
  intros He Hi Hb. destruct Hb as [ev s Hp|i w r|cmd cmds Hc|i]; cbn [k_select select_lost].
  - destruct (ks_poll_law _ _ _ _ (ki_service _ _ _ Hi) Hp) as (c1 & Hd & Hr).
    destruct Hd as [c p e Hpc|c p Hpc Ho|c p l|c p proto fb sub Hpc|c p proto fb id sub Ho|c id err p Ho];
      cbn [k_on_service_event].
    + destruct (k_on_connection_established _ _ _ _) as [[k2 res]|] eqn:E; cbn [outcome_bind]; [|done].
      intros [= <- _]. exact (inv_established L c k p e s _ k2 res Hi Hpc Hr E).
    + destruct (k_disconnect_peer _ _ _ _) as [k2|] eqn:E; cbn [outcome_bind]; [|done]. intros [= <- _].
      apply disconnect_spec in E. eexists. eapply inv_mono; [|eapply (inv_closed L c k s p); [done|done| |done|exact E]]; [by left|].
      eapply delivers_wf; [apply Hi|by apply D_closed].
    + destruct (k_on_dial_failure _ _ _ _) as [k2|] eqn:E; cbn [outcome_bind]; [|done]. intros [= <- _].
      exists c. eapply inv_mono; [|eapply inv_dial_failure; [|exact E]]; [by left|]. by eapply inv_frame.
    + intros [= <- _]. exists c. eapply inv_mono; [|apply inv_inbound; [|done]]; [by left|]. by eapply inv_frame.
    + destruct (k_on_outbound_substream _ _ _ _ _) as [[k2 res]|] eqn:E; cbn [outcome_bind]; [|done]. intros [= <- _].
      eexists. eapply inv_mono; [|by eapply inv_outbound]. by left.
    + destruct (k_on_substream_open_failure _ _ _) as [k2|] eqn:E; cbn [outcome_bind]; [|done]. intros [= <- _].
      eexists. exact (inv_open_failure L c k p id s _ k2 Hi Ho Hr E).
  - unfold ex_next. destruct (k_executor k !! i) as [f|] eqn:Hf.
    2:{ intros [= <- _]. exists c. eapply inv_mono; [|exact Hi]. by left. }
    destruct (task_run (ef_substream f) (ef_task f) w r) as [eff result] eqn:Ht.
    destruct (k_on_query_result _ _ _ _) as [k2|] eqn:E; cbn [outcome_bind]; [|done]. intros [= <- _]. exists c.
    pose proof (inv_take_future L c k i f Hi Hf) as Hi1.
    assert (result = (task_run (ef_substream f) (ef_task f) w r).2) as Hres by by rewrite Ht. rewrite Hres in E.
    eapply inv_mono; [|eapply inv_query_result; [|exact E]]; cbn; [done|]. by eapply inv_frame; [exact Hi1|..|apply Hi].
  - intros Hk. exists c. eapply inv_mono; [|by eapply inv_command]. by left.
  - intros [= <- _]. exists c. eapply inv_mono; [|by apply inv_store_action]. by left.
Qed.

(** ** The invariant *)

(** The queries in the channels between the handle and the event loop. *)
Definition queued h : list QueryId := omap command_query (kh_cmd_tx h).
Definition unread h : list QueryId := omap event_answer (kh_event_rx h).

Record sys_inv (marks : list KadMark) (s : Kademlia S * KademliaHandle) : Prop := {
  si_wf : kad_wf s.1;
  si_requests : ∃ c, kad_inv (λ kind i p, KmLost kind i p ∈ marks) c s.1;
  si_effects : k_effects s.1 = [];
  si_account : omap km_asked marks ≡ₚ omap km_ended marks ++ unread s.2 ++ queued s.2 ++ active s.1;
  si_fresh : NoDup (omap km_asked marks);
  si_counter id : id ∈ omap km_asked marks → (id < k_next_query_id s.1)%N;
}.

Lemma add_bootstrap_total random c local known : ∀ t s, table_sound local t → ks_refines s c →
  ∃ t' s', add_bootstrap random known t s = Done (t', s') ∧ table_sound local t' ∧ ks_refines s' c.
Proof.
  induction known as [|[p l] known IH]; intros t s Ht Hs; cbn [add_bootstrap]; [by eauto|].
  destruct (table_step_sound local t (OpAddKnownPeer random p l NotConnected) Ht) as (t' & Ht1 & Ht').
  cbn [table_step] in Ht1. rewrite Ht1. cbn [outcome_bind].
  destruct (ks_address_law s p l c Hs) as (s' & -> & Hs'). by apply IH.
Qed.

Lemma sys_init random s config : ks_refines s Contract_init → 0 < max_providers_per_key (kc_memory_store_config config) →
  ∃ k, Kademlia_new random s config = Done k ∧ sys_inv [] (k, KademliaHandle_new).
Proof.
  intros Hs Hmax. unfold Kademlia_new.
  destruct (add_bootstrap_total random Contract_init (ks_local_peer_id s) (map_order (kc_known_peers config))
    (RoutingTable_new (key_of_peer (ks_local_peer_id s))) s) as (t & s' & -> & Ht & Hs');
    [split; [apply RoutingTable_new_wf, key_of_peer_bound|done]|done|]. cbn [outcome_bind].
  eexists. split; [done|]. split; cbn.
  - split; cbn; [done|apply with_config_wf|done| |by eexists].
    split; [|done..|]; intros id q Hq; cbn in Hq; by rewrite lookup_empty in Hq.
  - exists Contract_init. split; cbn; [done|apply contract_wf_init|..].
    + intros kind id p (q & Hq & _). cbn in Hq. by rewrite lookup_empty in Hq.
    + intros p ctx sid a. by rewrite lookup_empty.
    + intros p ctx. by rewrite lookup_empty.
    + apply map_empty_subseteq.
  - done.
  - unfold active. cbn. rewrite dom_empty_L. done.
  - constructor.
  - intros id Hid. by apply not_elem_of_nil in Hid.
Qed.

Lemma lost_mark kind id p l : KmLost kind id p ∈ lost_marks l ↔ (kind, id, p) ∈ l.
Proof.
  unfold lost_marks. rewrite list_elem_of_fmap. split.
  - by intros ([[? ?] ?] & [= -> -> ->] & ?).
  - intros Hl. by exists (kind, id, p).
Qed.

Lemma lost_not_asked l : omap km_asked (lost_marks l) = [] ∧ omap km_ended (lost_marks l) = [].
Proof. unfold lost_marks. induction l as [|[[? ?] ?] l [IH1 IH2]]; cbn; [done|]. by rewrite IH1, IH2. Qed.

Lemma asked_marks l : omap km_asked (KmAsked <$> l) = l ∧ omap km_ended (KmAsked <$> l) = [].
Proof. induction l as [|x l [IH1 IH2]]; cbn; [done|]. by rewrite IH1, IH2. Qed.

Lemma unread_flush k h : unread (flush k h).2 = unread h ++ ended k.
Proof.
  unfold flush, unread, ended. cbn. rewrite omap_app. f_equal. generalize (k_effects k). intros l.
  induction l as [|[ev|x] l IH]; cbn; [done| |done]. unfold effect_answer at 1. cbn.
  destruct (event_answer ev); cbn; by rewrite IH.
Qed.

(** The queries that are active are not asked for again. *)
Lemma active_asked marks k h id : sys_inv marks (k, h) → id ∈ dom (queries (k_engine k)) → id ∈ omap km_asked marks.
Proof. intros [_ _ _ Hacc _ _] Hid. rewrite Hacc. cbn. unfold active. set_solver. Qed.

(** A turn of the event loop, with the queries it starts of its own. *)
Lemma sys_turn marks k h h1 k' own started lost : sys_inv marks (k, h) →
  kad_wf k' → (∃ c, kad_inv (λ kind i p, KmLost kind i p ∈ marks ∨ (kind, i, p) ∈ lost) c k') →
  balance k k' started → started ++ queued h1 ≡ₚ own ++ queued h → kh_event_rx h1 = kh_event_rx h →
  k_next_query_id k' = (k_next_query_id k + N.of_nat (length own))%N → (own = [] ∨ own = [k_next_query_id k]) →
  sys_inv (marks ++ (KmAsked <$> own) ++ lost_marks lost) (flush k' h1).
Proof.
  intros [Hwf Hreq Heff Hacc Hnd Hlt] Hwf' (c & Hc) Hbal Hq Hrx Hn Hown. cbn in *.
  destruct (lost_not_asked lost) as [L1 L2]. destruct (asked_marks own) as [A1 A2].
  assert (∀ id, id ∈ own → id ∉ omap km_asked marks) as Hnew.
  { intros id Hid Hin%Hlt. destruct Hown as [->| ->]; [by apply not_elem_of_nil in Hid|].
    apply list_elem_of_singleton in Hid. lia. }
  split; cbn [fst snd].
  - by destruct Hwf'.
  - exists c. apply (inv_frame _ c k'); [|done..|apply Hc]. eapply inv_mono; [|exact Hc].
    intros kind i p [?|Hl%lost_mark]; rewrite !elem_of_app; auto.
  - done.
  - rewrite unread_flush. unfold flush, unread in *. cbn. unfold queued in *. cbn. rewrite !omap_app, L1, L2, A1, A2, Hrx.
    assert (active (with_effects k' []) = active k') as -> by done.
    assert (ended k = []) as Hek by (unfold ended; by rewrite Heff).
    unfold balance in Hbal. rewrite Hek in Hbal. solve_accounts.
  - rewrite !omap_app, L1, A1, app_nil_r. apply NoDup_app. split_and!; [done| |].
    + intros id Hin Hid. by destruct (Hnew id Hid).
    + destruct Hown as [->| ->]; [constructor|apply NoDup_singleton].
  - intros id. rewrite !omap_app, L1, A1, app_nil_r, elem_of_app. cbn. rewrite Hn. intros [?%Hlt|Hid]; [lia|].
    destruct Hown as [->| ->]; [by apply not_elem_of_nil in Hid|]. apply list_elem_of_singleton in Hid. cbn. lia.
Qed.

(** A query of the user goes into the channel. *)
Lemma sys_queue marks k h call : sys_inv marks (k, h) → (k_next_query_id k < usize_max)%N →
  sys_inv (marks ++ [KmAsked (k_next_query_id k)])
    (with_counter k (usize_wrapping_add (k_next_query_id k) 1), kh_queue h (query_command call (k_next_query_id k))).
Proof.
  intros [Hwf (c & Hc) Heff Hacc Hnd Hlt] Hn. cbn in *. split; cbn [fst snd].
  - by destruct Hwf.
  - exists c. apply (inv_frame _ c k); [|done..|apply Hc]. eapply inv_mono; [|exact Hc]. set_solver.
  - done.
  - rewrite !omap_app. unfold queued, unread in *. cbn [kh_queue kh_cmd_tx kh_event_rx]. rewrite omap_app.
    assert (omap command_query [query_command call (k_next_query_id k)] = [k_next_query_id k]) as -> by by destruct call.
    change (active (with_counter _ _)) with (active k). cbn [omap list_omap km_asked km_ended]. solve_accounts.
  - rewrite omap_app. apply NoDup_app. split_and!; [done| |apply NoDup_singleton].
    intros id Hid%Hlt [= ->]%list_elem_of_singleton. lia.
  - intros id. rewrite omap_app, elem_of_app. cbn. rewrite wrapping_succ by done.
    intros [?%Hlt| ->%list_elem_of_singleton]; lia.
Qed.

Lemma sys_same marks k h k' h' : sys_inv marks (k, h) → kad_wf k' → (∃ c, kad_inv (λ kind i p, KmLost kind i p ∈ marks) c k') →
  k_effects k' = k_effects k → active k' = active k → unread h' = unread h → queued h' = queued h →
  (k_next_query_id k ≤ k_next_query_id k')%N → sys_inv marks (k', h').
Proof.
  intros [] Hwf Hc He Ha Hu Hq Hn. cbn in *. split; cbn; try done; [congruence|by rewrite Ha, Hu, Hq|].
  intros id Hid. specialize (si_counter0 id Hid). lia.
Qed.

(** The user reads an event. *)
Lemma sys_read marks k h h' o : sys_inv marks (k, h) → kh_poll_next false h = (h', o) →
  sys_inv (marks ++ read_marks o) (k, h').
Proof.
  intros Hs. destruct h as [cmds [|ev evs]]; cbn; intros [= <- <-]; cbn [read_marks]; [by rewrite app_nil_r|].
  destruct Hs as [Hwf (c & Hc) Heff Hacc Hnd Hlt]. cbn [fst snd] in *.
  assert (omap km_asked (KmEnded <$> option_list (event_answer ev)) = [] ∧
    omap km_ended (KmEnded <$> option_list (event_answer ev)) = option_list (event_answer ev)) as [E1 E2]
    by by destruct (event_answer ev).
  assert (unread (mkKademliaHandle cmds (ev :: evs)) =
    option_list (event_answer ev) ++ unread (mkKademliaHandle cmds evs)) as Eev
    by (unfold unread; cbn; by destruct (event_answer ev)).
  split; cbn [fst snd]; try done.
  - exists c. eapply inv_mono; [|exact Hc]. set_solver.
  - rewrite !omap_app, E1, E2. rewrite Eev in Hacc.
    change (queued (mkKademliaHandle cmds evs)) with (queued (mkKademliaHandle cmds (ev :: evs))). solve_accounts.
  - by rewrite omap_app, E1, app_nil_r.
  - intros id. rewrite omap_app, E1, app_nil_r. apply Hlt.
Qed.

Lemma wf_polled k e s : kad_wf k → ks_polls (k_service k) e s → kad_wf (with_service k s).
Proof.
  intros Hk Hp. destruct (kw_service _ Hk) as [c Hc]. destruct (ks_poll_law _ _ _ _ Hc Hp) as (c' & _ & Hc').
  apply wf_service; [done|by exists c'].
Qed.

(** What a branch receives. *)
Record ready_spec k h b k1 h1 : Prop := {
  rd_wf : kad_wf k1;
  rd_engine : k_engine k1 = k_engine k;
  rd_effects : k_effects k1 = k_effects k;
  rd_counter : k_next_query_id k1 = k_next_query_id k;
  rd_queued : branch_queries k1 b ++ queued h1 ≡ₚ own_queries k1 b ++ queued h;
  rd_events : kh_event_rx h1 = kh_event_rx h;
  rd_command : b ≠ KbCommand None;
  rd_ids id : id ∈ branch_queries k1 b → id ∈ queued h ∨ id = k_next_query_id k;
  rd_own : own_queries k1 b = [] ∨ own_queries k1 b = [k_next_query_id k];
}.

Lemma ready_facts k h b k1 h1 : kad_wf k → branch_ready k h b k1 h1 → ready_spec k h b k1 h1.
Proof.
  intros Hwf Hb. destruct Hb as [ev s Hp|i w r|cmd cmds Hcmd|i].
  - split; try done; [by eapply wf_polled|intros id Hid; by apply not_elem_of_nil in Hid|by left].
  - split; try done; [intros id Hid; by apply not_elem_of_nil in Hid|by left].
  - assert (queued h = option_list (command_query cmd) ++ omap command_query cmds) as Hq.
    { unfold queued. rewrite Hcmd. cbn. by destruct (command_query cmd). }
    split; try done; cbn [branch_queries own_queries]; [by rewrite Hq| |by left].
    intros id Hid. left. rewrite Hq. apply elem_of_app. by left.
  - split; try done; cbn [own_queries branch_queries]; destruct (next_action _ _) as [st [x|]]; auto.
    + intros id ->%list_elem_of_singleton. by right.
    + intros id Hid. by apply not_elem_of_nil in Hid.
Qed.

Lemma sys_step marks s ms s' : sys_inv marks s → kad_step s ms s' → sys_inv (marks ++ ms) s'.
Proof.
  intros Hs Hst. destruct Hst as [k h call h' n id Hroom Hn Heq|k h call h' n r Hn Heq|k h call Hroom|k h h' o Heq|
    k h now e a k' r Ha Hk|k h now random e b k1 h1 k' Ha Hn Hb Hk|k h s Hi].
  - injection Heq as <- <- <-. by apply sys_queue.
  - unfold kh_try_start_query in Heq. cbn [kh_next_query_id] in Heq. destruct (kh_has_room capacity h).
    + injection Heq as <- <- <-. by apply sys_queue.
    + injection Heq as <- <- <-. rewrite app_nil_r. pose proof (si_requests _ _ Hs) as (c & Hc). pose proof (si_wf _ _ Hs) as Hwf.
      eapply sys_same; [done|by destruct Hwf| |done..|cbn; rewrite wrapping_succ by done; lia].
      exists c. by apply (inv_frame _ c k); [..|apply Hc].
  - rewrite app_nil_r. eapply sys_same; [done|apply Hs|apply Hs|done..| |done].
    unfold queued, kh_call. cbn. rewrite omap_app. destruct call; cbn; by rewrite app_nil_r.
  - by eapply sys_read.
  - pose proof (si_wf _ _ Hs) as Hwf. pose proof (si_requests _ _ Hs) as (c & Hc). cbn in *.
    destruct (action_balance _ _ _ _ _ _ (kw_engine _ Hwf) Ha Hk) as [Hbal Hcnt].
    destruct (inv_action _ _ _ _ _ _ _ _ (kw_engine _ Hwf) Hc Ha Hk) as (c' & Hc').
    destruct (sound_next_action _ _ _ _ _ (kw_sound _ Hwf) Ha) as [He _].
    destruct (on_query_action_total now (with_engine k e) a) as (k'' & Hk'' & Hwf'); [by apply wf_engine|].
    rewrite Hk in Hk''. injection Hk'' as <- ->.
    apply (sys_turn marks k h h k' [] []); [done|done|by exists c'|done|done|done|cbn; lia|by left].
  - pose proof (si_wf _ _ Hs) as Hwf. pose proof (si_requests _ _ Hs) as (c & Hc). cbn in *.
    destruct (engine_next_action_spec (k_engine k) now (kw_engine _ Hwf)) as (e' & a' & Ha' & He & Hd).
    rewrite Ha in Ha'. injection Ha' as <- <-. cbn in Hd.
    destruct (engine_next_action_polled _ _ _ _ (kw_engine _ Hwf) Ha) as [_ Hw].
    assert (kad_wf (with_engine k e)) as Hwfe.
    { apply wf_engine; [done|]. by destruct (sound_next_action _ _ _ _ _ (kw_sound _ Hwf) Ha). }
    assert (kad_inv (λ kind i p, KmLost kind i p ∈ marks) c (with_engine k e)) as Hce.
    { eapply inv_engine; [exact Hc|]. intros kind i p [[?|(_ & m & ?)] _]%Hw; [by left|done]. }
    destruct (inv_select _ c (with_engine k e) h now random b k1 h1 k' false He Hce Hb Hk) as (c' & Hc').
    destruct (ready_facts _ _ _ _ _ Hwfe Hb) as [Hwf1 Heng Heff Hcnt Hq Hrx Hcmd Hids Hown].
    cbn in Heng, Heff, Hcnt, Hown. assert (∀ id, id ∈ branch_queries k1 b → id ∉ dom (queries (k_engine k1))) as Hfresh.
    { intros id Hid. rewrite Heng. cbn. rewrite Hd. cbn in Hids. destruct (Hids id Hid) as [Hin| ->].
      - intros Hdom. pose proof (si_fresh _ _ Hs) as Hnd. rewrite (si_account _ _ Hs) in Hnd. cbn in Hnd.
        apply NoDup_app in Hnd as (_ & _ & Hnd). apply NoDup_app in Hnd as (_ & _ & Hnd).
        apply NoDup_app in Hnd as (_ & Hdis & _). apply (Hdis id Hin). unfold active; by apply elem_of_elements.
      - intros Hdom%(active_asked _ _ _ _ Hs). apply (si_counter _ _ Hs) in Hdom. cbn in Hdom. lia. }
    destruct (select_balance now random k1 b k' false) as [Hbal Hcnt']; [by rewrite Hcnt|done..|].
    destruct (select_total debug now random k1 b Hwf1) as (k'' & x & Hk'' & Hwf'). rewrite Hk in Hk''.
    injection Hk'' as <- _.
    apply (sys_turn marks k h h1 k' (own_queries k1 b) (branch_queries k1 b)); try done.
    + by exists c'.
    + unfold balance, active, ended in *. rewrite Heng, Heff in Hbal. cbn in Hbal. by rewrite Hd in Hbal.
    + by rewrite Hcnt', Hcnt.
  - rewrite app_nil_r. pose proof (si_wf _ _ Hs) as Hwf. pose proof (si_requests _ _ Hs) as (c & Hc).
    pose proof (ks_idle_law _ _ _ (ki_service _ _ _ Hc) Hi) as Hr.
    eapply sys_same; [done|apply wf_service; [done|by exists c]| |done..].
    exists c. by apply (inv_frame _ c k).
Qed.
End system.
