(* ===== verification/KademliaStalled.v ===== *)
(** * Kademlia queries that never end

    A lookup that waits only for peers from which nothing can come any more is never answered:
    not by failures, timeouts or the closing of connections. A reply that cannot be decoded
    brings a lookup into this state. *)

From stdpp Require Import base tactics option list gmap strings sorting fin_maps.
From Stdlib Require Import ZArith NArith Lia Init.Byte Permutation.
From S2P Require Import Prelude Multiaddr AddressStore PeerState BTreeMap KademliaTypes KBucket RoutingTable.
From S2P Require Import KademliaStore KademliaCommands KademliaMessage KademliaQuery QueryEngine QueryEngineFacts.
From S2P Require Import TransportManagerHandle ProtocolTypes KademliaExecutor KademliaHandle Kademlia KademliaLookups KademliaFacts.
From S2P Require Import KademliaRequests KademliaSystem.

Local Open Scope litep2p_scope.

(** A [FIND_NODE] query that waits for the peers [P], has no candidates left and not enough
    responses to end. *)
Definition starved (P : gset PeerId) (q : QueryType) : Prop :=
  match q with
  | QFindNode c => dom (fn_pending c) = P ∧ fn_candidates c = [] ∧
      length (fn_responses c) < fn_replication (fn_config c)
  | _ => False
  end.

Definition starving (P : gset PeerId) (e : QueryEngine) (id : N) : Prop :=
  ∃ q, queries e !! id = Some q ∧ starved P q.

Section engine.
Context `{IpNetwork, HashOrder, Sha256, MultihashLib} (P : gset PeerId).
Implicit Types (e : QueryEngine).

Lemma starving_update e id i q q' : starving P e id → queries e !! i = Some q → (i = id → starved P q → starved P q') →
  starving P (set_query e i q') id.
Proof.
  intros (x & Hx & Hs) Hq Hst. destruct (decide (i = id)) as [->|Hne].
  - exists q'. cbn. rewrite lookup_insert_eq. split; [done|]. simplify_eq. by apply Hst.
  - exists x. cbn. by rewrite lookup_insert_ne.
Qed.

Lemma starving_start e id i q : starving P e id → i ≠ id → starving P (set_query e i q) id.
Proof. intros (x & Hx & Hs) Hne. exists x. cbn. by rewrite lookup_insert_ne. Qed.

(** Events of other peers do not matter. *)
Lemma starving_response_failure e id i p : starving P e id → ¬ (i = id ∧ p ∈ P) →
  starving P (register_response_failure e i p) id.
Proof.
  intros Hs Hn. unfold register_response_failure. destruct (queries e !! i) as [q|] eqn:E; [|done].
  eapply starving_update; [done..|]. intros -> Hq. destruct q; try done. cbn in *. destruct Hq as (Hp & Hq).
  unfold fn_register_response_failure. assert (fn_pending c !! p = None) as ->; [|done].
  apply not_elem_of_dom. rewrite Hp. naive_solver.
Qed.

Lemma starving_send_failure e id i p : starving P e id → starving P (register_send_failure e i p) id.
Proof.
  intros Hs. unfold register_send_failure. destruct (queries e !! i) as [[]|] eqn:E; try done;
    (eapply starving_update; [done..|]; by intros -> Hq).
Qed.

Lemma starving_send_success e id i p : starving P e id → starving P (register_send_success e i p) id.
Proof.
  intros Hs. unfold register_send_success. destruct (queries e !! i) as [[]|] eqn:E; try done;
    (eapply starving_update; [done..|]; by intros -> Hq).
Qed.

Lemma starving_fail e id i p : starving P e id → ¬ (i = id ∧ p ∈ P) →
  starving P (register_response_failure (register_send_failure e i p) i p) id.
Proof. intros Hs Hn. apply starving_response_failure; [|done]. by apply starving_send_failure. Qed.

Lemma starving_response e now id i p m : starving P e id → ¬ (i = id ∧ p ∈ P) →
  starving P (register_response e now i p m).1 id.
Proof.
  intros Hs Hn. pose proof (starving_response_failure e id i p Hs Hn) as Hf. unfold register_response_failure in Hf.
  unfold register_response. destruct (queries e !! i) as [q|] eqn:E; [|done].
  destruct (query_response q now p m) as [q' r] eqn:Eq. cbn [fst]. eapply starving_update; [done..|].
  intros -> Hq. destruct q; try done. cbn in Hq. destruct Hq as (Hp & Hq).
  assert (fn_pending c !! p = None) as Hnone by (apply not_elem_of_dom; rewrite Hp; naive_solver).
  destruct m; cbn [query_response query_response_failure] in Eq; unfold fn_register_response, fn_register_response_failure in Eq;
    rewrite Hnone in Eq; by simplify_eq.
Qed.

(** A starved query has nothing to ask for. *)
Lemma starved_poll q now : starved P q → P ≠ ∅ → ∃ q', query_next_action q now = (q', None) ∧ starved P q'.
Proof.
  intros Hq HP. destruct q as [c| | | | | | |]; try done. destruct Hq as (Hp & Hc & Hl). cbn [query_next_action].
  unfold fn_next_action. assert (fn_is_done c = false) as ->.
  { unfold fn_is_done. rewrite bool_decide_eq_false_2; [done|]. intros E. apply HP. by rewrite <- Hp, E, dom_empty_L. }
  cbv zeta. cbn [fn_set_pending_responses fn_pending_responses fn_config fn_responses fn_candidates].
  destruct (_ =? _)%N; [by eexists|]. rewrite decide_True by done. unfold fn_schedule_next_peer. cbn. rewrite Hc. cbn.
  by eexists.
Qed.

Lemma starving_loop now qs id : P ≠ ∅ → ∀ e e' a, engine_wf e → starving P e id → NoDup qs.*1 →
  (∀ i q, (i, q) ∈ qs → queries e !! i = Some q) →
  next_action_loop e now qs = Done (e', a) → starving P e' id ∧ ∀ b, a = Some b → (action_query b).1 ≠ id.
Proof.
  intros HP. induction qs as [|[i q] qs IH]; intros e e' a He Hs Hnd Hqs; cbn [next_action_loop].
  { by intros [= <- <-]. }
  rewrite fmap_cons in Hnd. apply NoDup_cons in Hnd as [Hi Hnd]. pose proof (Hqs i q ltac:(by left)) as Hq.
  pose proof (query_next_action_own q now) as [Hq' Ho].
  assert (i = id → starved P q) as Hst by (intros ->; destruct Hs as (x & Hx & Hx'); by simplify_eq).
  destruct (query_next_action q now) as [q' act] eqn:Eq. cbn [fst snd] in *. rewrite (He i q Hq) in Hq', Ho.
  assert (i = id → act = None ∧ starved P q') as Hown.
  { intros Hid. destruct (starved_poll q now (Hst Hid) HP) as (q'' & Hpoll & ?). rewrite Eq in Hpoll. by simplify_eq. }
  assert (starving P (set_query e i q') id) as Hs1 by (eapply starving_update; [done..|intros ? _; by apply Hown]).
  assert (queries (set_query e i q') !! i = Some q') as Hl by (cbn; by rewrite lookup_insert_eq).
  assert (engine_wf (set_query e i q')) as He1 by by apply set_query_wf.
  assert (∀ j, j ≠ i → queries (set_query e i q') !! j = queries e !! j) as Hoth by (intros j ?; cbn; by rewrite lookup_insert_ne).
  set (e1 := set_query e i q') in *. clearbody e1.
  assert (∀ a0, act = Some a0 → i ≠ id) as Hne by (intros a0 -> Hid; by destruct (Hown Hid)).
  assert (i ≠ id → starving P (set_queries e1 (delete i (queries e1))) id) as Hdel.
  { intros Hn. destruct Hs1 as (x & Hx & ?). exists x. cbn. by rewrite lookup_delete_ne. }
  destruct act as [act|].
  - specialize (Hne _ eq_refl). destruct act; cbn in Ho; try done; subst.
    1,2: intros [= <- <-]; split; [done|by intros b [= <-]].
    + destruct (on_query_succeeded_spec _ _ _ He1 Hl) as (a' & -> & Ha'). cbn [outcome_bind]. intros [= <- <-].
      split; [by apply Hdel|]. intros b [= <-]. by rewrite Ha'.
    + rewrite (on_query_failed_spec _ _ _ Hl). cbn [outcome_bind]. intros [= <- <-]. split; [by apply Hdel|].
      by intros b [= <-].
  - apply IH; [done..|]. intros j x Hx. rewrite Hoth; [apply Hqs; by right|].
    intros ->. apply Hi, list_elem_of_fmap. by exists (i, x).
Qed.

Lemma starving_next_action e now id e' a : P ≠ ∅ → engine_wf e → starving P e id →
  engine_next_action e now = Done (e', a) → starving P e' id ∧ ∀ b, a = Some b → (action_query b).1 ≠ id.
Proof.
  intros HP He Hs. eapply starving_loop; [done..|apply map_order_keys_nodup|]. intros i q. by rewrite map_order_elem.
Qed.
End engine.

(** ** The event loop *)

Section stalled.
Context `{IpNetwork, HashOrder, Sha256, MultihashLib, MultiaddrBytes, MessageCodec} {S : Type} `{KadServiceLaws S}.
Context (debug : bool) (capacity : nat) (P : gset PeerId) (id : N).
Implicit Types (k : Kademlia S).

(** Something that belongs to a query and a peer: an action that waits for a dial or a substream,
    or an exchange. *)
Inductive mentions k (p : PeerId) : Prop :=
| M_dial l a : k_pending_dials k !! p = Some l → a ∈ l → pa_query_id a = id → mentions k p
| M_action ctx sid a : k_peers k !! p = Some ctx → ctx !! sid = Some a → pa_query_id a = id → mentions k p
| M_future f : f ∈ k_executor k → ef_peer f = p → ef_query_id f = Some id → mentions k p.

Record stalled k : Prop := {
  sl_query : starving P (k_engine k) id;
  sl_nothing p : p ∈ P → ¬ mentions k p;
}.

Lemma stalled_frame k k' : stalled k → k_engine k' = k_engine k → k_peers k' = k_peers k →
  k_pending_dials k' = k_pending_dials k → k_executor k' = k_executor k → stalled k'.
Proof.
  intros [Hq Hn] He Hp Hd Hx. split; [by rewrite He|]. intros p HpP [l a|ctx sid a|f].
  - apply (Hn p HpP). rewrite Hd in *. by eapply M_dial.
  - apply (Hn p HpP). rewrite Hp in *. by eapply M_action.
  - apply (Hn p HpP). rewrite Hx in *. by eapply M_future.
Qed.

(** The engine changes, and the rest mentions no more than before. *)
Lemma stalled_less k k' : stalled k → starving P (k_engine k') id →
  (∀ p, p ∈ P → mentions k' p → mentions k p) → stalled k'.
Proof. intros [Hq Hn] Hs Hm. split; [done|]. intros p Hp Hmp. by apply (Hn p Hp), Hm. Qed.

Lemma stalled_engine k e : stalled k → starving P e id → stalled (with_engine k e).
Proof.
  intros Hk He. eapply stalled_less; [done..|]. intros p _ [l a|ctx sid a|f].
  - by eapply M_dial.
  - by eapply M_action.
  - by eapply M_future.
Qed.

Lemma stalled_fail k i p : stalled k → ¬ (i = id ∧ p ∈ P) → stalled (fail_request k i p).
Proof. intros Hk Hn. apply stalled_engine; [done|]. apply starving_fail; [apply Hk|done]. Qed.

Lemma stalled_sent k i p : stalled k → stalled (send_succeeded k i p).
Proof.
  intros Hk. unfold send_succeeded. destruct i as [i|]; [|done]. apply stalled_engine; [done|].
  apply starving_send_success, Hk.
Qed.

Lemma stalled_fail_actions p query actions : ∀ e, starving P e id →
  (p ∈ P → ∀ sid a, (sid, a) ∈ actions → pa_query_id a ≠ id) → starving P (fail_actions e p query actions) id.
Proof.
  unfold fail_actions. induction actions as [|[sid a] actions IH]; intros e He Ha; cbn [foldl]; [done|].
  apply IH; [|intros Hp s b Hb; apply (Ha Hp s); by right]. case_decide; [done|].
  apply starving_fail; [done|]. intros [Hid Hp]. apply (Ha Hp sid a); [by left|done].
Qed.

(** A failure of a peer concerns only the queries that have something with it. *)
Lemma stalled_disconnect random k p query k' : stalled k → (query = Some id → p ∉ P) →
  k_disconnect_peer random k p query = Done k' → stalled k'.
Proof.
  intros Hk Hq Hd. pose proof (disconnect_spec _ _ _ _ _ Hd) as Hspec. revert Hd. unfold k_disconnect_peer.
  set (k1 := match query with Some q => _ | None => k end).
  assert (stalled k1) as Hk1.
  { unfold k1. destruct query as [q|]; [|done]. apply stalled_engine; [done|]. apply starving_fail; [apply Hk|].
    intros [-> Hp]. by apply Hq. }
  assert (k_peers k1 = k_peers k) as Hp1 by (unfold k1; by destruct query). clearbody k1. rewrite Hp1.
  set (k2 := match k_peers k !! p with Some a => _ | None => k1 end).
  destruct (table_on_disconnected _ _ _) as [t|]; cbn [outcome_bind]; [|done]. intros [= <-].
  eapply stalled_less; [exact Hk| |].
  - cbn. unfold k2. destruct (k_peers k !! p) as [ctx|] eqn:E; [|apply Hk1]. cbn.
    apply stalled_fail_actions; [apply Hk1|]. intros Hp sid a Ha%map_order_elem Hid.
    apply (sl_nothing _ Hk p Hp). by eapply M_action.
  - destruct Hspec as [_ _ Hpe Hdi _ Hex _ _ _]. intros r _ [l a Hl|ctx sid a Hc|f Hf].
    + rewrite Hdi in Hl. by eapply M_dial.
    + rewrite Hpe in Hc. apply lookup_delete_Some in Hc as [_ Hc]. by eapply M_action.
    + rewrite Hex in Hf. by eapply M_future.
Qed.

(** What does not belong to the query and one of the peers. *)
Definition elsewhere (i : option N) (p : PeerId) : Prop := i = Some id → p ∉ P.

Lemma stalled_dials k m : stalled k →
  (∀ p l a, m !! p = Some l → a ∈ l → elsewhere (Some (pa_query_id a)) p ∨ mentions k p) → stalled (with_dials k m).
Proof.
  intros Hk Hm. eapply stalled_less; [done|apply Hk|]. intros p Hp [l a Hl Ha Hid|ctx sid a|f].
  - destruct (Hm p l a Hl Ha) as [He|]; [|done]. destruct (He ltac:(by rewrite Hid) Hp).
  - by eapply M_action.
  - by eapply M_future.
Qed.

Lemma stalled_peers k m : stalled k →
  (∀ p ctx sid a, m !! p = Some ctx → ctx !! sid = Some a → elsewhere (Some (pa_query_id a)) p ∨ mentions k p) →
  stalled (with_peers k m).
Proof.
  intros Hk Hm. eapply stalled_less; [done|apply Hk|]. intros p Hp [l a|ctx sid a Hc Ha Hid|f].
  - by eapply M_dial.
  - destruct (Hm p ctx sid a Hc Ha) as [He|]; [|done]. destruct (He ltac:(by rewrite Hid) Hp).
  - by eapply M_future.
Qed.

Lemma stalled_futures k x : stalled k → (∀ f, f ∈ x → f ∈ k_executor k ∨ elsewhere (ef_query_id f) (ef_peer f)) →
  stalled (with_executor k x).
Proof.
  intros Hk Hx. eapply stalled_less; [done|apply Hk|]. intros p Hp [l a|ctx sid a|f Hf <- Hid].
  - by eapply M_dial.
  - by eapply M_action.
  - destruct (Hx f Hf) as [?|He]; [by eapply M_future|]. by destruct (He Hid).
Qed.

Lemma stalled_add_future k f : stalled k → elsewhere (ef_query_id f) (ef_peer f) →
  stalled (with_executor k (k_executor k ++ [f])).
Proof. intros Hk Hf. apply stalled_futures; [done|]. intros g [?|[= ->]%list_elem_of_singleton]%elem_of_app; auto. Qed.

Lemma stalled_emit k e : stalled k → stalled (emit k e).
Proof. intros Hk. by eapply stalled_frame. Qed.
Lemma stalled_close k s : stalled k → stalled (close_substream k s).
Proof. intros Hk. by eapply stalled_frame. Qed.
Lemma stalled_service k s : stalled k → stalled (with_service k s).
Proof. intros Hk. by eapply stalled_frame. Qed.
Lemma stalled_table k t : stalled k → stalled (with_table k t).
Proof. intros Hk. by eapply stalled_frame. Qed.
Lemma stalled_store k st : stalled k → stalled (with_kad_store k st).
Proof. intros Hk. by eapply stalled_frame. Qed.
Lemma stalled_substreams k m : stalled k → stalled (with_substreams k m).
Proof. intros Hk. by eapply stalled_frame. Qed.

(** The actions of a stalled query are with other peers. *)
Lemma stalled_action k p ctx sid a : stalled k → k_peers k !! p = Some ctx → ctx !! sid = Some a →
  elsewhere (Some (pa_query_id a)) p.
Proof. intros Hk Hc Ha [= Hid] Hp. apply (sl_nothing _ Hk p Hp). by eapply M_action. Qed.

Lemma stalled_dial k p l a : stalled k → k_pending_dials k !! p = Some l → a ∈ l → elsewhere (Some (pa_query_id a)) p.
Proof. intros Hk Hl Ha [= Hid] Hp. apply (sl_nothing _ Hk p Hp). by eapply M_dial. Qed.

Lemma stalled_remove_action k p ctx sid : stalled k → k_peers k !! p = Some ctx →
  stalled (with_peers k (<[p := delete sid ctx]> (k_peers k))).
Proof.
  intros Hk Hc. apply stalled_peers; [done|]. intros q c i a Hq Ha. left.
  apply lookup_insert_Some in Hq as [[<- <-]|[_ Hq]]; [|by eapply stalled_action].
  apply lookup_delete_Some in Ha as [_ Ha]. by eapply stalled_action.
Qed.

Lemma stalled_remove_dial k p : stalled k → stalled (with_dials k (delete p (k_pending_dials k))).
Proof. intros Hk. apply stalled_dials; [done|]. intros q l a [_ Hl]%lookup_delete_Some Ha. left. by eapply stalled_dial. Qed.

(** ** The events of the service *)

Lemma stalled_open_actions p actions : ∀ k ctx, stalled k →
  (∀ a, a ∈ actions → elsewhere (Some (pa_query_id a)) p) →
  (∀ sid a, ctx !! sid = Some a → elsewhere (Some (pa_query_id a)) p) →
  stalled (open_actions k p actions ctx).1 ∧
  ∀ sid a, (open_actions k p actions ctx).2 !! sid = Some a → elsewhere (Some (pa_query_id a)) p.
Proof.
  induction actions as [|a actions IH]; intros k ctx Hk Ha Hc; cbn [open_actions]; [done|].
  assert (∀ b, b ∈ actions → elsewhere (Some (pa_query_id b)) p) as Ha' by (intros b Hb; apply Ha; by right).
  destruct (ks_open_substream (k_service k) p) as [s [i|err]].
  - apply IH; [by apply stalled_service|done|]. intros sid b [[_ <-]|[_ Hb]]%lookup_insert_Some; [apply Ha; by left|by eapply Hc].
  - apply IH; [|done..]. destruct a as [q|q m|q m]; [|by apply stalled_service..].
    apply stalled_fail; [by apply stalled_service|]. intros [-> Hp]. by apply (Ha (PaSendFindNode id)); [left|..].
Qed.

Lemma stalled_established random k p e k' r : stalled k → k_on_connection_established random k p e = Done (k', r) → stalled k'.
Proof.
  intros Hk. unfold k_on_connection_established. destruct (table_on_connection_established _ _ _ _) as [t|];
    cbn [outcome_bind]; [|done]. apply (stalled_table _ t) in Hk. set (k1 := with_table k t) in *. clearbody k1.
  destruct (k_peers k1 !! p); [by intros [= <- _]|]. destruct (k_pending_dials k1 !! p) as [actions|] eqn:Hd; [|by intros [= <- _]].
  cbn zeta. destruct (stalled_open_actions p actions (with_dials k1 (delete p (k_pending_dials k1))) ∅) as [Hs Hc];
    [by apply stalled_remove_dial|intros a Ha; by eapply stalled_dial|by intros ??|].
  destruct (open_actions _ p actions ∅) as [k2 ctx]. cbn [fst snd] in *. intros [= <- _].
  apply stalled_peers; [done|]. intros q c i a Hq Ha. left.
  apply lookup_insert_Some in Hq as [[<- <-]|[_ Hq]]; [by eapply Hc|by eapply stalled_action].
Qed.

Lemma stalled_fail_all p actions : ∀ k, stalled k → (∀ a, a ∈ actions → elsewhere (Some (pa_query_id a)) p) →
  stalled (foldl (λ k action, fail_request k (pa_query_id action) p) k actions).
Proof.
  induction actions as [|a actions IH]; intros k Hk Ha; cbn [foldl]; [done|]. apply IH; [|intros b Hb; apply Ha; by right].
  apply stalled_fail; [done|]. intros [Hid Hp]. by destruct (Ha a ltac:(by left) ltac:(by rewrite Hid) Hp).
Qed.

Lemma stalled_outbound k p sid s k' r : engine_wf (k_engine k) → stalled k →
  k_on_outbound_substream debug k p sid s = Done (k', r) → stalled k'.
Proof.
  intros He Hk. unfold k_on_outbound_substream. apply (stalled_substreams _ (delete sid (k_pending_substreams k))) in Hk.
  set (k1 := with_substreams _ _) in *. assert (k_engine k1 = k_engine k) as Hk1 by done. clearbody k1. cbn zeta.
  destruct (k_peers k1 !! p) as [ctx|] eqn:Hc; [|by intros [= <- _]].
  pose proof (stalled_remove_action _ _ _ sid Hk Hc) as Hk2. set (k2 := with_peers _ _) in *.
  destruct (ctx !! sid) as [a|] eqn:Ha; [|intros [= <- _]; by apply stalled_close].
  pose proof (stalled_action _ _ _ _ _ Hk Hc Ha) as Hel.
  destruct a as [q|q m|q m]; [|intros [= <- _]; by apply (stalled_add_future k2)..].
  pose proof (next_peer_action_send (k_engine k2) q p) as Hs.
  destruct (next_peer_action (k_engine k2) q p) as [act|] eqn:Hn; [|intros [= <- _]; by apply stalled_close].
  destruct act; try done. change (k_engine k2) with (k_engine k1) in Hn. rewrite Hk1 in Hn.
  destruct (next_peer_action_some _ _ _ _ _ _ He Hn) as [-> ->]. intros [= <- _]. by apply (stalled_add_future k2).
Qed.

Lemma stalled_service_event random k ev k' x : engine_wf (k_engine k) → stalled k →
  k_on_service_event debug random k ev = Done (k', x) → stalled k'.
Proof.
  intros He Hk. destruct ev as [[p e|p|p l|p proto fb [|sid] s|sid err]|]; cbn [k_on_service_event]; [..|by intros [= <- _]].
  - destruct (k_on_connection_established _ _ _ _) as [[k1 r]|] eqn:E; cbn [outcome_bind]; [|done]. intros [= <- _].
    by eapply stalled_established.
  - destruct (k_disconnect_peer _ _ _ _) as [k1|] eqn:E; cbn [outcome_bind]; [|done]. intros [= <- _].
    by eapply (stalled_disconnect _ _ _ None).
  - unfold k_on_dial_failure. destruct (table_on_dial_failure _ _ _ _) as [t|]; cbn [outcome_bind]; [|done].
    apply (stalled_table _ t) in Hk. set (k1 := with_table k t) in *. clearbody k1.
    destruct (k_pending_dials k1 !! p) as [actions|] eqn:Hd; cbn [outcome_bind]; intros [= <- _]; [|done].
    apply stalled_fail_all; [by apply stalled_remove_dial|]. intros a Ha. by eapply stalled_dial.
  - intros [= <- _]. unfold k_on_inbound_substream. destruct (kc_mode _); [by apply stalled_close|].
    apply (stalled_add_future (with_peers k _)); [|done]. apply stalled_peers; [done|]. intros q c i a Hq Ha. left.
    apply lookup_insert_Some in Hq as [[<- <-]|[_ Hq]]; [|by eapply stalled_action].
    destruct (k_peers k !! p) as [ctx|] eqn:E; [by eapply stalled_action|]. done.
  - destruct (k_on_outbound_substream _ _ _ _ _) as [[k1 r]|] eqn:E; cbn [outcome_bind]; [|done]. intros [= <- _].
    by eapply stalled_outbound.
  - unfold k_on_substream_open_failure. destruct (k_pending_substreams k !! sid) as [p|]; cbn [outcome_bind]; [|by intros [= <- _]].
    apply (stalled_substreams _ (delete sid (k_pending_substreams k))) in Hk. set (k1 := with_substreams _ _) in *. clearbody k1.
    cbn zeta. destruct (k_peers k1 !! p) as [ctx|] eqn:Hc; cbn [outcome_bind]; [|by intros [= <- _]].
    destruct (k_disconnect_peer _ _ _ _) as [k2|] eqn:E; cbn [outcome_bind]; [|done]. intros [= <- _].
    eapply stalled_disconnect; [by apply stalled_remove_action| |exact E].
    destruct (ctx !! sid) as [a|] eqn:Ha; cbn; [|done]. by eapply stalled_action.
Qed.

(** ** Exchanges *)

Lemma stalled_response now random k i p m k' : stalled k → elsewhere (Some i) p →
  k_register_response now random k i p m = Done k' → stalled k'.
Proof.
  intros Hk Hp. unfold k_register_response.
  assert (starving P (register_response (k_engine k) now i p m).1 id) as Hs.
  { apply starving_response; [apply Hk|]. intros [-> Hin]. by apply Hp. }
  destruct (register_response (k_engine k) now i p m) as [e proven]. cbn [fst] in Hs.
  apply (stalled_engine _ _ Hk) in Hs. destruct proven as [proven|]; [|by intros [= <-]].
  unfold k_insert_proven_server. destruct (kc_update_mode _); [intros [= <-]; by apply stalled_emit|].
  destruct (add_known_peer _ _ _ _ _) as [tb|]; cbn [outcome_bind]; [|done]. intros [= <-].
  by apply stalled_table, stalled_emit.
Qed.

Lemma stalled_on_response now random k i p m peers s k' : stalled k → elsewhere (Some i) p →
  k_on_response now random k i p m peers s = Done k' → stalled k'.
Proof.
  intros Hk Hp. unfold k_on_response. destruct (k_register_discovered_peers k peers) as [k1|] eqn:Ed; cbn [outcome_bind]; [|done].
  destruct (k_register_response _ _ _ _ _ _) as [k2|] eqn:E; cbn [outcome_bind]; [|done].
  intros [= <-]. apply stalled_close. eapply stalled_response; [|done..].
  unfold k_register_discovered_peers in Ed. destruct (add_addresses _ _) as [s'|]; cbn [outcome_bind] in Ed; [|done].
  case_match; injection Ed as <-; [by apply stalled_service|by apply stalled_emit, stalled_service].
Qed.

Lemma stalled_message now random k p i m s k' r : stalled k → elsewhere i p →
  k_on_message_received now random k p i m s = Done (k', r) → stalled k'.
Proof.
  intros Hk Hp. unfold k_on_message_received.
  destruct (message_from_bytes _ _ _) as [[msg|]|]; cbn [outcome_bind]; [|by intros [= <- _]|done].
  set (msg' := if decide _ then message_retain_global msg else msg). clearbody msg'.
  match goal with |- outcome_bind ?x _ = _ → _ => destruct x as [k1|] eqn:E end; cbn [outcome_bind]; [|done].
  intros [= <- _]. destruct msg' as [target peers|record|key record peers|key providers|key peers providers].
  - destruct i as [i|]; [by eapply stalled_on_response|]. injection E as <-. by apply stalled_add_future.
  - unfold k_on_put_value in E. destruct i as [i|].
    + destruct (k_register_response _ _ _ _ _ _) as [k2|] eqn:E2; cbn [outcome_bind] in E; [|done]. injection E as <-.
      eapply stalled_close, stalled_response; done.
    + injection E as <-. apply stalled_emit. destruct (kc_validation_mode _); apply stalled_add_future; try done.
      by apply stalled_store.
  - destruct i as [i|]; [by eapply stalled_on_response|]. destruct key as [key|]; [|by injection E as <-].
    destruct (store_get (k_store k) now key) as [st v]. injection E as <-. apply stalled_add_future; [|done].
    by apply stalled_store.
  - injection E as <-. unfold k_on_add_provider. repeat case_match; try done. by apply stalled_emit, stalled_store.
  - destruct i as [i|]; [by eapply stalled_on_response|]. destruct key as [key|]; [|by injection E as <-].
    destruct (get_providers (k_store k) now key) as [st v].
    destruct (get_providers_response _ _) as [reply|]; cbn [outcome_bind] in E; [|done]. injection E as <-.
    apply stalled_add_future; [|done]. by apply stalled_store.
Qed.

Lemma stalled_query_result now random k c k' : stalled k → elsewhere (qc_query_id c) (qc_peer c) →
  k_on_query_result now random k c = Done k' → stalled k'.
Proof.
  intros Hk Hc. unfold k_on_query_result. destruct (qc_result c) as [s|r|s m|r|].
  - intros [= <-]. by apply stalled_sent, stalled_close.
  - intros Hd. by eapply stalled_disconnect.
  - destruct (k_on_message_received _ _ _ _ _ _ _) as [[k1 res]|] eqn:E; cbn [outcome_bind]; [|done]. intros [= <-].
    eapply stalled_message; [by apply stalled_sent|done..].
  - intros Hd. by eapply stalled_disconnect.
  - intros [= <-]. by apply stalled_sent.
Qed.

(** ** Queries *)

Lemma stalled_add_pending k p sid a : stalled k → pa_query_id a ≠ id → stalled (add_pending k p sid a).
Proof.
  intros Hk Ha. unfold add_pending. apply (stalled_peers (with_substreams k _)); [by apply stalled_substreams|].
  intros q c i b Hq Hb. left. apply lookup_insert_Some in Hq as [[<- <-]|[_ Hq]]; [|by eapply stalled_action].
  apply lookup_insert_Some in Hb as [[_ <-]|[_ Hb]]; [intros [= ?]; done|].
  destruct (k_peers k !! p) as [ctx|] eqn:E; [by eapply stalled_action|]. done.
Qed.

Lemma stalled_open_or_dial k p a : stalled k → pa_query_id a ≠ id → stalled (k_open_substream_or_dial k p a).1.
Proof.
  intros Hk Ha. unfold k_open_substream_or_dial. destruct (ks_open_substream (k_service k) p) as [s [i|err]].
  { apply stalled_add_pending; [by apply stalled_service|done]. }
  apply (stalled_service _ s) in Hk. set (k1 := with_service k s) in *. clearbody k1. cbn zeta.
  destruct (ks_dial (k_service k1) p) as [s1 r]. apply (stalled_service _ s1) in Hk. set (k2 := with_service k1 s1) in *.
  clearbody k2. destruct r as [[]|err1].
  - cbn. apply stalled_dials; [done|]. intros q l b Hl Hb. left.
    apply lookup_insert_Some in Hl as [[<- <-]|[_ Hl]]; [|by eapply stalled_dial].
    apply elem_of_app in Hb as [Hb|[= ->]%list_elem_of_singleton]; [|intros [= ?]; done].
    destruct (k_pending_dials k2 !! p) as [l|] eqn:E; [by eapply stalled_dial|]. by apply not_elem_of_nil in Hb.
  - destruct err1; try done. destruct (ks_open_substream (k_service k2) p) as [s2 [i|err2]]; cbn [fst];
      [apply stalled_add_pending; [|done]|]; by apply stalled_service.
Qed.

Lemma stalled_send_to_peers peers a : ∀ k, stalled k → pa_query_id a ≠ id → stalled (k_send_to_peers k peers a).
Proof.
  unfold k_send_to_peers. induction peers as [|x peers IH]; intros k Hk Ha; cbn [foldl]; [done|].
  apply IH; [|done]. by apply stalled_open_or_dial.
Qed.

Lemma stalled_start k k1 i q : stalled k1 → k_engine k1 = k_engine k → i ≠ id →
  stalled (with_engine k1 (set_query (k_engine k) i q)).
Proof. intros Hk E Hi. apply stalled_engine; [done|]. rewrite <- E. apply starving_start; [apply Hk|done]. Qed.

Lemma stalled_query_action now k a k' r : stalled k → (action_query a).1 ≠ id →
  k_on_query_action now k a = Done (k', r) → stalled k'.
Proof.
  intros Hk Ha. destruct a as [q p m|q target peers|q record peers quorum|q key|q key provider peers quorum|q key|q|q x|
    q key providers|q|q]; cbn [k_on_query_action action_query fst] in *; try (intros [= <- _]; by apply stalled_emit).
  - pose proof (stalled_open_or_dial k p (PaSendFindNode q) Hk Ha) as Hs.
    destruct (k_open_substream_or_dial k p (PaSendFindNode q)) as [k1 [[]|err]]; cbn [fst] in Hs; intros [= <- _]; [done|].
    apply stalled_fail; [done|]. by intros [? _].
  - intros [= <- _]. by apply stalled_start; [apply stalled_send_to_peers|..].
  - destruct (add_provider key provider) as [m|]; cbn [outcome_bind]; [|done]. intros [= <- _].
    by apply stalled_start; [apply stalled_send_to_peers|..].
  - by intros [= <- _].
Qed.

Lemma stalled_command now random k c k' x : stalled k → (∀ i, command_query c = Some i → i ≠ id) →
  k_on_command now random k (Some c) = Done (k', x) → stalled k'.
Proof.
  intros Hk Hc. unfold k_on_command.
  destruct c as [peer l|peer i|r q i|r q i peers upd|key q i|key i|key q i|key|r]; cbn [command_query] in *.
  - destruct (add_known_peer _ _ _ _ _) as [tb|]; cbn [outcome_bind]; [|done]. 
    destruct (ks_add_known_address _ _ _) as [s|]; cbn [outcome_bind]; [|done]. intros [= <- _]. by eapply stalled_frame.
  - intros [= <- _]. by apply stalled_start; [..|apply Hc].
  - intros [= <- _]. by apply stalled_start; [apply stalled_store|..|apply Hc].
  - destruct (put_record_targets _ _ _) as [[tb ps]|]; cbn [outcome_bind]; [|done]. intros [= <- _].
    apply stalled_start; [|by destruct upd|by apply Hc]. destruct upd; by eapply stalled_frame.
  - destruct (store_get (k_store k) now key) as [st rec]. destruct rec as [rec|].
    + destruct q; intros [= <- _]; [|by apply stalled_emit, stalled_emit, stalled_store|];
        (by apply stalled_start; [apply stalled_emit, stalled_store|..|apply Hc]).
    + intros E. assert (k' = with_engine (with_kad_store k st) (start_get_record (k_engine k) i key
        (k_closest (with_kad_store k st) (Key_new key)) q false)) as -> by (destruct q; by injection E as <-).
      by apply stalled_start; [apply stalled_store|..|apply Hc].
  - destruct (get_providers (k_store k) now key) as [st ps]. unfold start_get_providers.
    destruct (peers_of_contents ps) as [ks|]; cbn [outcome_bind]; [|done]. intros [= <- _].
    by apply stalled_start; [apply stalled_store|..|apply Hc].
  - destruct (put_local_provider (k_store k) now key q) as [st [|]]; intros [= <- _].
    + by apply stalled_start; [apply stalled_store|..|apply Hc].
    + by apply stalled_emit, stalled_store.
  - intros [= <- _]. by apply stalled_store.
  - intros [= <- _]. by apply stalled_store.
Qed.

Lemma stalled_store_action now k i : stalled k → k_next_query_id k ≠ id → stalled (k_on_store_action now k i).
Proof.
  intros Hk Hn. unfold k_on_store_action. destruct (next_action (k_store k) i) as [st [[[key p] q]|]]; [|by apply stalled_store].
  apply stalled_start; [by eapply stalled_frame|done..].
Qed.

(** ** Steps *)

Lemma stalled_select now random k h b k1 h1 k' x : engine_wf (k_engine k) → stalled k → branch_ready k h b k1 h1 →
  (∀ i, i ∈ branch_queries k1 b → i ≠ id) → k_select debug now random k1 b = Done (k', x) → stalled k'.
Proof.
  intros He Hk Hb Hq. destruct Hb as [ev s _|i w r|cmd cmds _|i]; cbn [k_select].
  - eapply stalled_service_event; [done|by apply stalled_service].
  - unfold ex_next. destruct (k_executor k !! i) as [f|] eqn:Hf; [|by intros [= <- _]].
    destruct (task_run (ef_substream f) (ef_task f) w r) as [eff result].
    destruct (k_on_query_result _ _ _ _) as [k2|] eqn:E; cbn [outcome_bind]; [|done]. intros [= <- _].
    assert (elsewhere (ef_query_id f) (ef_peer f)) as Hel.
    { intros Hid Hp. apply (sl_nothing _ Hk _ Hp). eapply M_future; [by eapply list_elem_of_lookup_2|done..]. }
    eapply stalled_query_result; [| |exact E]; [|exact Hel].
    eapply (stalled_frame (with_executor k (take_nth (k_executor k) i))); [|done..].
    apply stalled_futures; [done|]. intros g Hg. left. rewrite (take_nth_perm _ _ _ Hf). by right.
  - intros Hc. eapply stalled_command; [done| |exact Hc]. intros j Hj. apply Hq. cbn. rewrite Hj. by left.
  - intros [= <- _]. destruct (next_action (k_store k) i) as [st [a|]] eqn:E.
    + apply stalled_store_action; [done|]. apply Hq. cbn. rewrite E. by left.
    + unfold k_on_store_action. rewrite E. by apply stalled_store.
Qed.

(** The identifier of an active query is not used again. *)
Lemma active_alone marks k h : sys_inv marks (k, h) → id ∈ dom (queries (k_engine k)) →
  id ∉ queued h ∧ id ∉ unread h ∧ id ∉ omap km_ended marks ∧ id ≠ k_next_query_id k.
Proof.
  intros Hs Hid. pose proof (si_fresh _ _ Hs) as Hnd. rewrite (si_account _ _ Hs) in Hnd. cbn in Hnd.
  assert (id ∈ active k) as Ha by by apply elem_of_elements.
  apply NoDup_app in Hnd as (_ & He & Hnd). apply NoDup_app in Hnd as (_ & Hu & Hnd). apply NoDup_app in Hnd as (_ & Hq & _).
  split_and!; intros Hx.
  - by apply (Hq id).
  - apply (Hu id Hx). apply elem_of_app. by right.
  - apply (He id Hx). rewrite !elem_of_app. auto.
  - pose proof (si_counter _ _ Hs id (active_asked _ _ _ _ Hs Hid)) as Hl. cbn in Hl. lia.
Qed.

Lemma starving_active e : starving P e id → id ∈ dom (queries e).
Proof. intros (q & Hq & _). by apply elem_of_dom. Qed.

Lemma stalled_step marks k h ms s' : P ≠ ∅ → sys_inv marks (k, h) → stalled k →
  kad_step debug capacity (k, h) ms s' → stalled s'.1.
Proof.
  intros HP Hs Hk Hst. destruct (active_alone _ _ _ Hs (starving_active _ (sl_query _ Hk))) as (Hq & _ & _ & Hn).
  pose proof (kw_engine _ (si_wf _ _ Hs)) as He. cbn in He.
  assert (∀ k', stalled k' → stalled (with_effects k' [])) as Hfl by (intros k' Hk'; by apply (stalled_frame k')).
  inversion Hst as [k0 h0 call h' n i Hroom Hu Heq|k0 h0 call h' n r Hu Heq|k0 h0 call Hroom|k0 h0 h' o Heq|
    k0 h0 now e a k' r Ha Hk'|k0 h0 now random e b k1 h1 k' Ha Hu Hb Hk'|k0 h0 s Hi]; subst; cbn [fst].
  - by apply (stalled_frame k).
  - by apply (stalled_frame k).
  - done.
  - done.
  - destruct (starving_next_action P _ _ _ _ _ HP He (sl_query _ Hk) Ha) as [He1 Hne].
    apply Hfl. eapply stalled_query_action; [by apply (stalled_engine k e)|exact (Hne a eq_refl)|exact Hk'].
  - destruct (starving_next_action P _ _ _ _ _ HP He (sl_query _ Hk) Ha) as [He1 _].
    destruct (engine_next_action_spec (k_engine k) now He) as (e' & a' & Ha' & Hwf & _). rewrite Ha in Ha'. injection Ha' as <- _.
    assert (kad_wf (with_engine k e)) as Hw.
    { apply wf_engine; [apply (si_wf _ _ Hs)|]. by destruct (sound_next_action _ _ _ _ _ (kw_sound _ (si_wf _ _ Hs)) Ha). }
    destruct (ready_facts (with_engine k e) h b k1 h1 Hw Hb) as [_ _ _ _ _ _ _ Hids _].
    apply Hfl. eapply (stalled_select now random (with_engine k e)); [done|by apply stalled_engine|exact Hb| |exact Hk'].
    intros i Hi ->. by destruct (Hids id Hi).
  - by apply stalled_service.
Qed.

(** Two invariants along a run. *)
Lemma stalled_run marks s tr s' : P ≠ ∅ → sys_inv marks s → stalled s.1 →
  steps (kad_step debug capacity) s tr s' → sys_inv (marks ++ concat tr) s' ∧ stalled s'.1.
Proof.
  intros HP Hs Hk Hrun. revert marks Hs Hk. induction Hrun as [s|s ms s1 tr s2 Hst _ IH]; intros marks Hs Hk;
    [by rewrite app_nil_r|].
  destruct s as [k h]. cbn [concat]. rewrite app_assoc. apply IH; [by eapply sys_step|by eapply stalled_step].
Qed.
End stalled.
