(* ===== verification/KademliaService.v ===== *)
(** * Kademlia over the transport service

    The transport service with the handle of the transport manager, as the service Kademlia runs
    on: it keeps the contract, so that what holds of Kademlia over any service that does holds of
    the composed system. *)

From stdpp Require Import base tactics option list gmap strings sorting fin_maps.
From Stdlib Require Import ZArith NArith Lia Init.Byte Permutation.
From S2P Require Import Prelude Multiaddr AddressStore PeerState ConnectionLimits TransportManager.
From S2P Require Import TransportManagerFacts TransportManagerHandle ProtocolTypes ProtocolSet TransportService TransportServiceFacts.
From S2P Require Import TransportServiceRuns Kademlia KademliaFacts KademliaRequests.

Local Open Scope litep2p_scope.

(** The service with its connections, the handle of the manager, the clock, and what the calls
    of the protocol meet: the states of the channels to the connections, one for each call of
    [open_substream] to come, and the channel to the manager. A call without a state is one that
    fails. *)
Record KadTransport := mkKadTransport {
  kt_service : TransportService;
  kt_links : Links;
  kt_manager : TransportManager;
  kt_supported : gset SupportedTransport;
  kt_public : list Multiaddr;
  kt_now : N;
  kt_channels : list ChannelState;
  kt_commands : CommandChannel;
}.

Definition kt_with (s : KadTransport) (ts : TransportService) (l : Links) (channels : list ChannelState) : KadTransport :=
  mkKadTransport ts l (kt_manager s) (kt_supported s) (kt_public s) (kt_now s) channels (kt_commands s).

Definition kt_open_substream (s : KadTransport) (peer : PeerId) : KadTransport * result SubstreamError SubstreamId :=
  match kt_channels s with
  | [] => (s, Err SeConnectionClosed)
  | ch :: channels =>
      let '(ts, command, r) := ts_open_substream (kt_now s) ch (kt_service s) peer in
      (kt_with s ts (ask (kt_links s) command) channels, r)
  end.

Section transport.
Context `{IpNetwork, HashOrder, SleepQueue} (debug : bool).

Definition kt_add_known_address (s : KadTransport) (peer : PeerId) (addresses : list Multiaddr) : outcome KadTransport :=
  run (tm, _) <- ts_add_known_address (kt_supported s) (kt_manager s) peer addresses ;;
  Done (mkKadTransport (kt_service s) (kt_links s) tm (kt_supported s) (kt_public s) (kt_now s) (kt_channels s)
          (kt_commands s)).

#[local] Instance transport_kad_service : KadService KadTransport := {|
  ks_local_peer_id s := local_peer_id (kt_manager s);
  ks_open_substream := kt_open_substream;
  ks_dial s peer := (s, (@handle_dial (kt_commands s) (kt_manager s) peer).2);
  ks_add_known_address := kt_add_known_address;
  ks_public_addresses := kt_public;
|}.

(** The contract is kept, the manager is well formed, and there are identifiers for the calls to come. *)
Definition kt_refines (s : KadTransport) (c : Contract) : Prop :=
  refines (kt_links s) (kt_service s) c ∧ tm_wf (kt_manager s) ∧
  (ts_next_substream_id (kt_service s) + N.of_nat (length (kt_channels s)) ≤ usize_max)%N.

(** A poll of the service; its channel has what the connections report. *)
Inductive kt_polled (s : KadTransport) : Poll (option ServiceEvent) → KadTransport → Prop :=
| P_poll ch rx closed l' ts1 seen rest l1 poll :
    fed (kt_links s) rx l' → ts_poll_next debug (kt_now s) ch (kt_service s) rx closed = Done (ts1, rest, poll) →
    rx = seen ++ rest → fed (kt_links s) seen l1 →
    kt_polled s poll (kt_with s ts1 l1 (kt_channels s)).

(** A poll without an event; the rest of the node: the manager and other protocols do
    something, which keeps the manager well formed, identifiers of substreams are taken, time passes. *)
Inductive kt_idle (s : KadTransport) : KadTransport → Prop :=
| I_poll s' : kt_polled s Prelude.Pending s' → kt_idle s s'
| I_others n tm public now channels commands :
    (ts_next_substream_id (kt_service s) ≤ n)%N → (n + N.of_nat (length channels) ≤ usize_max)%N →
    (kt_now s ≤ now)%N → tm_wf tm → local_peer_id tm = local_peer_id (kt_manager s) →
    kt_idle s (mkKadTransport (ts_set_counter (kt_service s) n) (kt_links s) tm (kt_supported s) public now
                 channels commands).

(** ** Lemmas *)

Lemma on_event_counter now ch ts e ts' o : ts_on_event debug now ch ts e = Done (ts', o) →
  ts_next_substream_id ts' = ts_next_substream_id ts.
Proof.
  destruct e as [p c ep h|p c|p a|p proto fb d c s pm|s err]; cbn [ts_on_event].
  - unfold ts_on_connection_established. destruct (ts_connections ts !! p) as [ctx|]; [|by intros [= <- _]].
    destruct (secondary ctx); by intros [= <- _].
  - unfold ts_on_connection_closed. destruct (ts_connections _ !! p) as [ctx|].
    + destruct (_ =? _)%N; [destruct (secondary ctx)|]; cbn [outcome_bind]; case_match; by intros [= <- _].
    + unfold debug_assert. destruct debug; [done|]. cbn [outcome_bind]. case_match; by intros [= <- _].
  - cbn [to_transport_event outcome_bind]. by intros [= <- _].
  - intros [= <- _]. set (ts1 := match d with Inbound => ts | Outbound i => _ end).
    assert (ts_next_substream_id ts1 = ts_next_substream_id ts) as <- by (unfold ts1; by destruct d). clearbody ts1.
    destruct (_ && _); [|done]. cbn zeta. by destruct (ts_connections _ !! p).
  - by intros [= <- _].
Qed.

Lemma receive_counter now ch closed rx : ∀ ts ts' rest poll, ts_receive debug now ch ts rx closed = Done (ts', rest, poll) →
  ts_next_substream_id ts' = ts_next_substream_id ts.
Proof.
  induction rx as [|e rx IH]; intros ts ts' rest poll; cbn [ts_receive]; [by intros [= <- _ _]|].
  destruct (ts_on_event debug now ch ts e) as [[ts1 o]|] eqn:E; cbn [outcome_bind]; [|done].
  apply on_event_counter in E. destruct o; [by intros [= <- _ _]|]. intros Hr%IH. congruence.
Qed.

Lemma poll_counter now ch ts rx closed ts' rest poll : ts_poll_next debug now ch ts rx closed = Done (ts', rest, poll) →
  ts_next_substream_id ts' = ts_next_substream_id ts.
Proof.
  unfold ts_poll_next. destruct (ts_pending_events ts); [|by intros [= <- _ _]].
  destruct (ts_receive _ _ _ _ _ _) as [[[ts1 rest1] poll1]|] eqn:E; cbn [outcome_bind]; [|done].
  apply receive_counter in E. destruct poll1; [intros [= <- _ _]|by intros [= <- _ _]].
  rewrite <- E. exact (proj2 (proj2 (proj2 (expire_shape (Datatypes.S _) now ts1)))).
Qed.

Lemma polled_refines s poll s' c : kt_refines s c → kt_polled s poll s' →
  match poll with
  | Ready (Some e) => ∃ c', delivers c e c' ∧ kt_refines s' c'
  | _ => kt_refines s' c
  end.
Proof.
  intros (Hr & Hm & Hn) [ch rx closed l' ts1 seen rest l1 o Hfed Hpoll Hrx Hseen].
  pose proof (poll_counter _ _ _ _ _ _ _ _ Hpoll) as Hc.
  pose proof (polled_contract debug _ ch _ _ c rx closed l' ts1 seen rest l1 o Hr Hfed Hpoll Hrx Hseen) as Hp.
  unfold kt_refines. cbn. rewrite Hc. destruct o as [|[e|]]; [done| |done].
  destruct Hp as (c' & ? & ?). by exists c'.
Qed.

Lemma open_counter now ch ts p ts' cmd r : (ts_next_substream_id ts < usize_max)%N →
  ts_open_substream now ch ts p = (ts', cmd, r) →
  (ts_next_substream_id ts' ≤ ts_next_substream_id ts + 1)%N.
Proof.
  intros Hn. unfold ts_open_substream. destruct (ts_connections ts !! p) as [ctx|]; [|intros [= <- _ _]; lia].
  destruct (try_get_permit ch (primary ctx)) as [permit|]; [|intros [= <- _ _]; lia]. cbn zeta.
  cbn [ts_set_counter ts_substream_keep_alive]. destruct (ts_substream_keep_alive ts);
    destruct (handle_open_substream _ _ _ _ _ _ _); intros [= <- _ _]; cbn; rewrite wrapping_succ by done; lia.
Qed.

Lemma opened_refines s p c : kt_refines s c →
  ∃ c', opens p c (kt_open_substream s p).2 c' ∧ kt_refines (kt_open_substream s p).1 c'.
Proof.
  intros (Hr & Hm & Hn). unfold kt_open_substream. destruct (kt_channels s) as [|ch channels] eqn:E.
  { exists c. split; [constructor|]. split; [done|]. cbn [fst]. by rewrite E. }
  cbn [length] in Hn. destruct (ts_open_substream (kt_now s) ch (kt_service s) p) as [[ts cmd] r] eqn:Eo.
  assert (ts_next_substream_id (kt_service s) < usize_max)%N as Hlt by lia.
  destruct (open_ok _ _ _ _ _ _ _ _ _ Hr Hlt Eo) as (c' & Ho & Hr'). exists c'. split; [done|]. split; [done|]. split; [done|].
  cbn. pose proof (open_counter _ _ _ _ _ _ _ Hlt Eo). lia.
Qed.

Definition transport_kad_laws : KadServiceLaws KadTransport.
Proof using All.
  refine {| ks_refines := kt_refines; ks_polls s e := kt_polled s (Ready (Some e)); ks_idles := kt_idle |}.
  - intros s p c. apply opened_refines.
  - done.
  - intros s p l c (Hr & Hm & Hn). cbn. unfold kt_add_known_address, ts_add_known_address.
    destruct (add_known_address_wf (kt_supported s) (kt_manager s) p (set_order (ts_known_addresses p l)) Hm) as (tm & n & -> & Hm').
    eexists. by split; [done|].
  - intros s e s' c Hr Hp. exact (polled_refines s (Ready (Some e)) s' c Hr Hp).
  - intros s s' c Hr [s'' Hp|n tm public now channels commands Hn Hl _ Hm _].
    + exact (polled_refines s Prelude.Pending s'' c Hr Hp).
    + destruct Hr as [Hr _]. split; [by apply refines_counter|done].
Defined.
End transport.

#[export] Existing Instance transport_kad_service.
