(* ===== verification/KademliaRuns.v ===== *)
(** * Runs of Kademlia

    What holds of the event loop, the handle and the service from the start of a node on:
    queries and their answers, that a query which is not answered waits for something that is
    under way, that no turn panics or goes on forever, and how a query is lost. *)

From stdpp Require Import base tactics option list gmap strings sorting fin_maps.
From Stdlib Require Import ZArith NArith Lia Init.Byte Permutation.
From S2P Require Import Prelude Multiaddr AddressStore PeerState ConnectionLimits TransportManager BTreeMap.
From S2P Require Import KademliaTypes KBucket RoutingTable RoutingTableClosest RoutingTableInvariant.
From S2P Require Import KademliaStore KademliaStoreFacts KademliaCommands KademliaMessage KademliaQuery.
From S2P Require Import QueryEngine QueryEngineFacts TransportManagerHandle ProtocolTypes ProtocolSet TransportService.
From S2P Require Import TransportServiceFacts TransportServiceRuns KademliaExecutor KademliaHandle Kademlia.
From S2P Require Import KademliaLookups KademliaFacts KademliaRequests KademliaSystem KademliaStalled KademliaService.

Local Open Scope litep2p_scope.

Section runs.
Context `{IpNetwork, HashOrder, Sha256, MultihashLib, MultiaddrBytes, MessageCodec} {S : Type} `{KadServiceLaws S}.
Context (debug : bool) (capacity : nat).
Implicit Types (k : Kademlia S) (h : KademliaHandle).

(** A node was started with a service and a configuration, and the steps [tr] were made. *)
Inductive kad_reaches (s : S) (config : KadConfig) (tr : list (list KadMark)) (x : Kademlia S * KademliaHandle) : Prop :=
| Reaches random k0 : Kademlia_new random s config = Done k0 →
    steps (kad_step debug capacity) (k0, KademliaHandle_new) tr x → kad_reaches s config tr x.

Lemma reaches_inv s config tr x : ks_refines s Contract_init →
  0 < max_providers_per_key (kc_memory_store_config config) → kad_reaches s config tr x → sys_inv (concat tr) x.
Proof.
  intros Hs Hmax [random k0 Hk Hrun]. destruct (sys_init random s config Hs Hmax) as (k1 & Hk1 & Hinv).
  rewrite Hk in Hk1. injection Hk1 as <-.
  refine (steps_history (kad_step debug capacity) (λ tr x, sys_inv (concat tr) x) _ _ _ _ Hinv Hrun).
  intros past y ms y' Hy Hst. rewrite concat_app. cbn. rewrite app_nil_r. by eapply sys_step.
Qed.

(** C6. Every query of the user is answered exactly once or is still under way: the identifiers that
    were given out are distinct, and each is that of a query whose answer the user has read,
    whose answer waits to be read, that waits in the channel of the commands, or that is active;
    the queries that renew the records of this node are accounted for in the same way. *)
Theorem kademlia_queries_accounted s config tr k h :
  ks_refines s Contract_init → 0 < max_providers_per_key (kc_memory_store_config config) →
  kad_reaches s config tr (k, h) →
  NoDup (omap km_asked (concat tr)) ∧
  omap km_asked (concat tr) ≡ₚ omap km_ended (concat tr) ++ unread h ++ queued h ++ active k.
Proof. intros Hs Hmax Hr. by destruct (reaches_inv s config tr (k, h) Hs Hmax Hr). Qed.

(** C7. A query that is not answered yet is under way: once the engine has no action left, each
    active query waits for a peer that is being dialed, to which a substream is being opened or
    with which an exchange goes on, unless its request to that peer was lost in one of the
    places where the event loop loses requests. *)
Theorem kademlia_query_progress s config tr k h now e id :
  ks_refines s Contract_init → 0 < max_providers_per_key (kc_memory_store_config config) →
  kad_reaches s config tr (k, h) → engine_next_action (k_engine k) now = Done (e, None) → id ∈ active k →
  ∃ kind p, waits e kind id p ∧
    ((∃ c, ks_refines (k_service k) c ∧ outstanding c k kind id p) ∨ KmLost kind id p ∈ concat tr).
Proof.
  intros Hs Hmax Hr Ha Hid. destruct (reaches_inv s config tr (k, h) Hs Hmax Hr) as [Hwf (c & Hc) _ _ _ _]. cbn in *.
  destruct (sound_next_action _ _ _ _ _ (kw_sound _ Hwf) Ha) as [_ Hw].
  destruct (engine_next_action_spec (k_engine k) now (kw_engine _ Hwf)) as (e' & a' & Ha' & _ & Hd).
  rewrite Ha in Ha'. injection Ha' as <- <-. cbn in Hd. unfold active in Hid. apply elem_of_elements in Hid.
  rewrite <- Hd in Hid. apply elem_of_dom in Hid as [q Hq]. specialize (Hw eq_refl _ _ Hq).
  apply set_choose_L in Hw as [p Hp]. assert (waits e (query_kind q) id p) as Hwt by by exists q.
  exists (query_kind q), p. split; [done|].
  apply (engine_next_action_polled _ _ _ _ (kw_engine _ Hwf) Ha) in Hwt as [[Hwt|(_ & m & ?)] _]; [|done].
  destruct (ki_waits _ _ _ Hc _ _ _ Hwt); [left|by right]. exists c. split; [apply Hc|done].
Qed.

(** C14. No turn of the event loop panics or goes on forever: from any state a run reaches, the loop
    over the engine's actions returns, with the number of rounds bounded by what the queries
    have left to do, and leaves no action; and then every branch of the [select!] returns, in
    builds with debug assertions too. *)
Theorem kademlia_turn_total s config tr k h now random :
  ks_refines s Contract_init → 0 < max_providers_per_key (kc_memory_store_config config) →
  kad_reaches s config tr (k, h) →
  ∃ k', k_poll_engine (Datatypes.S (engine_measure (k_engine k))) now (random 0) k = Done (Some k') ∧
    (∃ e, engine_next_action e now = Done (k_engine k', None)) ∧
    ∀ b, k_select debug now random k' b ≠ Panic.
Proof.
  intros Hs Hmax Hr. destruct (reaches_inv s config tr (k, h) Hs Hmax Hr) as [Hwf _ _ _ _ _]. cbn in *.
  destruct (poll_engine_total now (random 0) (Datatypes.S (engine_measure (k_engine k))) k Hwf ltac:(lia))
    as (k' & Hk' & Hwf' & He). exists k'. split; [done|]. split; [done|].
  intros b. destruct (select_total debug now random k' b Hwf') as (k'' & x & -> & _). done.
Qed.

(** A lookup whose last request got a reply that cannot be decoded is stalled. *)
Lemma undecodable_stalls now random k e i p id sub req m c k' :
  engine_wf (k_engine k) → queries (k_engine k) !! id = Some (QFindNode c) → dom (fn_pending c) = {[p]} →
  fn_candidates c = [] → length (fn_responses c) < fn_replication (fn_config c) →
  k_executor k !! i = Some (mkExecutorFuture p (Some id) sub (TkSendRequestReadResponse req)) →
  ¬ mentions id (with_executor k (take_nth (k_executor k) i)) p →
  message_from_bytes now (k_replication k) m = Done None →
  engine_next_action (k_engine k) now = Done (e, None) →
  k_select debug now random (with_engine k e) (KbExecutor i WriteOk (ReadItem (Some (Ok m)))) = Done (k', false) →
  stalled {[p]} id k'.
Proof.
  intros He Hq Hp Hc Hl Hf Hn Hm Ha. assert (starving {[p]} (k_engine k) id) as Hst by by exists (QFindNode c).
  destruct (starving_next_action {[p]} _ _ _ _ _ ltac:(set_solver) He Hst Ha) as [Hst' _].
  cbn [k_select]. unfold ex_next. cbn [with_engine k_executor]. rewrite Hf. cbn [ef_substream ef_task task_run read_result].
  unfold k_on_query_result. cbn [qc_result qc_peer qc_query_id ef_peer ef_query_id].
  unfold k_on_message_received. change (k_replication (send_succeeded ?x _ _)) with (k_replication k). rewrite Hm.
  cbn [outcome_bind]. intros [= <-]. eapply (stalled_sent _ _ (with_effects (with_executor (with_engine k e) _) _) (Some id) p).
  split; [done|]. intros r ->%elem_of_singleton Hmen. apply Hn.
  destruct Hmen as [l a Hla|ctx sid a Hca|f Hfa]; [by eapply M_dial|by eapply M_action|by eapply M_future].
Qed.

(** C40. A reply that cannot be decoded makes a lookup hang. In any reachable state, take a
    [FIND_NODE] lookup that waits for one peer only, has no candidates left to ask and fewer
    responses than the replication factor, and let the exchange with that peer be the only
    thing in the node that mentions the lookup and the peer together. If the peer's reply
    cannot be decoded, then, whatever happens afterwards, the lookup stays active and the user
    never gets an answer to it. *)
Theorem undecodable_reply_never_answered s config tr k h now random e i p id sub req m c k' tr' k'' h'' :
  ks_refines s Contract_init → 0 < max_providers_per_key (kc_memory_store_config config) →
  kad_reaches s config tr (k, h) →
  queries (k_engine k) !! id = Some (QFindNode c) → dom (fn_pending c) = {[p]} →
  fn_candidates c = [] → length (fn_responses c) < fn_replication (fn_config c) →
  k_executor k !! i = Some (mkExecutorFuture p (Some id) sub (TkSendRequestReadResponse req)) →
  ¬ mentions id (with_executor k (take_nth (k_executor k) i)) p →
  message_from_bytes now (k_replication k) m = Done None →
  engine_next_action (k_engine k) now = Done (e, None) → (k_next_query_id k < usize_max)%N →
  k_select debug now random (with_engine k e) (KbExecutor i WriteOk (ReadItem (Some (Ok m)))) = Done (k', false) →
  steps (kad_step debug capacity) (flush k' h) tr' (k'', h'') →
  id ∈ active k'' ∧ id ∉ unread h'' ∧ id ∉ omap km_ended (concat tr ++ concat tr').
Proof.
  intros Hs Hmax Hr Hq Hp Hc Hl Hf Hn Hm Ha Hu Hk' Hrun.
  pose proof (reaches_inv s config tr (k, h) Hs Hmax Hr) as Hinv.
  pose proof (undecodable_stalls now random k e i p id sub req m c k' (kw_engine _ (si_wf _ _ Hinv)) Hq Hp Hc Hl Hf Hn Hm Ha Hk')
    as Hst.
  pose proof (sys_step _ _ _ _ _ _ Hinv (Y_select debug capacity k h now random e _ (with_engine k e) h k' Ha Hu
    (R_executor _ _ i WriteOk _) Hk')) as Hinv'.
  destruct (stalled_run debug capacity {[p]} id _ _ _ _ ltac:(set_solver) Hinv' ltac:(by apply (stalled_frame {[p]} id k')) Hrun)
    as [Hinv'' Hst'']. cbn in Hst''.
  pose proof (starving_active {[p]} id _ (sl_query _ _ _ Hst'')) as Hact.
  destruct (active_alone id _ _ _ Hinv'' Hact) as (_ & Hun & Hen & _).
  split; [by apply elem_of_elements|]. split; [done|]. rewrite !omap_app in *. set_solver.
Qed.
End runs.

(** ** A run

    A node over the transport service, with one bootstrap peer. The peer connects; a lookup asks
    it, over a substream; its reply is garbled. *)
Module KademliaExample.
Import ServiceExample.
#[local] Existing Instance sample_network.
#[local] Existing Instance canonical_order.
#[local] Existing Instance eager_sleep.
#[local] Existing Instance toy_sha256.
#[local] Existing Instance toy_multihash.

(** Addresses are not sent; messages are their type and their key. *)
#[local] Instance no_addresses : MultiaddrBytes := {| multiaddr_to_vec _ := []; multiaddr_of_vec _ := None |}.
#[local] Instance typed_keys : MessageCodec := {|
  message_encode m := match Byte.of_N (Z.to_N (sm_type m)) with Some b => b :: sm_key m | None => [] end;
  message_decode bs := match bs with
                       | [] => None
                       | b :: key => Some (mkSchemaMessage (Z.of_N (Byte.to_N b)) 10 key None [] [])
                       end;
|}.
#[local] Instance laws : KadServiceLaws KadTransport := transport_kad_laws true.

Definition local : PeerId := mkPeerId (mkMultihash 0 []).
Definition random : nat → PeerId := λ _, local.
Definition address : Multiaddr := [Ip4 134744072; Tcp 80].
Definition manager : TransportManager := mkTransportManager local ∅ ∅ ∅ 0 [TransportTcp] ∅ ∅
  (ConnectionLimits_new (mkLimitsConfig None None)) ∅ [].
Definition transport (ts : TransportService) (l : Links) (now : N) (calls : list ChannelState) : KadTransport :=
  mkKadTransport ts l manager {[TransportTcp]} [] now calls {| try_send _ := Ok tt |}.
Definition config : KadConfig := mkKadConfig [] 20 {[peer := [address]]} UpdateAutomatic ModeServer ValidationAutomatic
  DEFAULT_TTL AddressAll (mkMemoryStoreConfig 8 64 8 8 2 100 200) DEFAULT_MAX_MESSAGE_SIZE.

Definition kt0 := transport ts0 Links_init 1 [channels].
Definition k0 : Kademlia KadTransport :=
  match Kademlia_new local kt0 config with Done k => k | Panic => mkKademlia kt0 (key_of_peer local) config ∅
    (RoutingTable_new (key_of_peer local)) (MemoryStore_with_config local (kc_memory_store_config config)) ∅ ∅ 0
    (QueryEngine_new local 20 3) [] [] end.

(** The engine after a poll, a branch and an action carried out. *)
Definition polled_engine (k : Kademlia KadTransport) : QueryEngine * option QueryAction :=
  match engine_next_action (k_engine k) 1 with Done r => r | Panic => (k_engine k, None) end.
Definition branched (k : Kademlia KadTransport) (b : KadBranch) : Kademlia KadTransport :=
  match k_select true 1 random k b with Done (k, _) => k | Panic => k end.
Definition acted (k : Kademlia KadTransport) : Kademlia KadTransport :=
  match polled_engine k with
  | (e, Some a) => match k_on_query_action 1 (with_engine k e) a with Done (k, _) => k | Panic => k end
  | (e, None) => k
  end.

(** Computations that return, without their results. *)
Definition returns {A} (x : outcome A) : bool := match x with Done _ => true | Panic => false end.
Definition goes_on {A} (x : outcome (A * bool)) : bool := match x with Done (_, false) => true | _ => false end.

Lemma k0_new : Kademlia_new local kt0 config = Done k0.
Proof.
  assert (returns (Kademlia_new local kt0 config) = true) as Hr by by vm_compute.
  unfold k0. by destruct (Kademlia_new local kt0 config).
Qed.

Lemma engine_run k : returns (engine_next_action (k_engine k) 1) = true →
  engine_next_action (k_engine k) 1 = Done (polled_engine k).
Proof. unfold polled_engine. by destruct (engine_next_action (k_engine k) 1). Qed.

(** A turn of the [select!] and an action, computed. *)
Lemma select_run k h b k1 h1 ms h' :
  returns (engine_next_action (k_engine k) 1) = true → (polled_engine k).2 = None →
  (k_next_query_id k <? usize_max)%N = true → branch_ready (with_engine k (polled_engine k).1) h b k1 h1 →
  goes_on (k_select true 1 random k1 b) = true →
  (KmAsked <$> own_queries k1 b) ++ lost_marks (select_lost 1 k1 b) = ms → (flush (branched k1 b) h1).2 = h' →
  kad_step true 8 (k, h) ms (with_effects (branched k1 b) [], h').
Proof.
  intros Ha%engine_run Hnone Hn%N.ltb_lt Hb Hk <- <-. apply (Y_select true 8 k h 1 random (polled_engine k).1 b k1 h1); [|done..|].
  - rewrite Ha, <- Hnone. by destruct (polled_engine k).
  - unfold branched, goes_on in *. by destruct (k_select true 1 random k1 b) as [[? []]|].
Qed.

Lemma action_run k h a ms h' :
  returns (engine_next_action (k_engine k) 1) = true → (polled_engine k).2 = Some a →
  returns (k_on_query_action 1 (with_engine k (polled_engine k).1) a) = true →
  lost_marks (action_lost 1 (with_engine k (polled_engine k).1) a) = ms → (flush (acted k) h).2 = h' →
  kad_step true 8 (k, h) ms (with_effects (acted k) [], h').
Proof.
  intros Ha%engine_run Hs Hk <- <-. unfold acted. destruct (polled_engine k) as [e o]. cbn in *. subst o.
  destruct (k_on_query_action 1 (with_engine k e) a) as [[k' r]|] eqn:E; [|done]. by eapply Y_action.
Qed.

Definition ready (k : Kademlia KadTransport) (ts : TransportService) (l : Links) : Kademlia KadTransport :=
  with_service (with_engine k (polled_engine k).1) (kt_with (k_service k) ts l (kt_channels (k_service k))).

(** What a poll returns, without the state. *)
Definition poll_result (ts : TransportService) (rx : list InnerTransportEvent) :
    option (list InnerTransportEvent * Poll (option ServiceEvent)) :=
  match ts_poll_next true 1 channels ts rx false with Done (_, rest, o) => Some (rest, o) | Panic => None end.

Lemma service_ready k h l rx ev : kt_links (k_service k) = l → kt_now (k_service k) = 1%N → fed l rx up1 →
  poll_result (kt_service (k_service k)) rx = Some ([], Ready (Some ev)) →
  branch_ready (with_engine k (polled_engine k).1) h (KbService (Some ev))
    (ready k (polled 1 (kt_service (k_service k)) rx) up1) h.
Proof.
  intros Hl Hnow Hfed Hp. apply R_service. unfold poll_result, polled in *.
  destruct (ts_poll_next _ _ _ _ _ _) as [[[ts rest] o]|] eqn:E; [|done]. injection Hp as -> ->.
  cbn [ready with_engine k_service].
  apply (P_poll true _ channels rx false up1 ts rx [] up1);
    [by rewrite Hl|by rewrite Hnow|by rewrite app_nil_r|by rewrite Hl].
Qed.

Definition established : ServiceEvent := SvConnectionEstablished peer (Listener [] 3).
Definition arrived : InnerTransportEvent := ItConnectionEstablished peer 3 (Listener [] 3) (ConnectionHandle_new 3).
Definition ts1' := polled 1 (kt_service (k_service k0)) [arrived].
Definition k1 := with_effects (branched (ready k0 ts1' up1) (KbService (Some established))) [].
Definition target : PeerId := mkPeerId (mkMultihash 0 [x01; x02]).
Definition h2 := mkKademliaHandle [KcFindNode target 0] [].
Definition k2 := with_counter k1 1.
Definition k3 := with_effects (branched (with_engine k2 (polled_engine k2).1) (KbCommand (Some (KcFindNode target 0)))) [].
Definition k4 := with_effects (acted k3) [].
Definition opened : InnerTransportEvent := ItSubstreamOpened peer "/notif/1" None (Outbound 0) 3 9 0.
Definition ts5 := polled 1 (kt_service (k_service k4)) [opened].
Definition k5 :=
  with_effects (branched (ready k4 ts5 up1) (KbService (Some (SvSubstreamOpened peer "/notif/1" None (Outbound 0) 9)))) [].

Lemma dialed_fed : fed up2 [opened] up1.
Proof. econstructor; [by apply F_outbound|]. vm_compute. constructor. Qed.

Lemma step1 : kad_step true 8 (k0, KademliaHandle_new) [] (k1, KademliaHandle_new).
Proof.
  apply (select_run k0 KademliaHandle_new (KbService (Some established)) (ready k0 ts1' up1) KademliaHandle_new);
    [by vm_compute..| |by vm_compute|by vm_compute|by vm_compute].
  apply (service_ready k0 _ Links_init); [by vm_compute..|apply established_fed|by vm_compute].
Qed.

Lemma step2 : kad_step true 8 (k1, KademliaHandle_new) [KmAsked 0] (k2, h2).
Proof.
  apply (Y_query true 8 k1 KademliaHandle_new (CallFindNode target) h2 1 0); [done|by apply N.ltb_lt; vm_compute|by vm_compute].
Qed.

Lemma step3 : kad_step true 8 (k2, h2) [] (k3, KademliaHandle_new).
Proof.
  apply (select_run k2 h2 (KbCommand (Some (KcFindNode target 0))) (with_engine k2 (polled_engine k2).1) KademliaHandle_new);
    [by vm_compute..|by apply R_command|by vm_compute|by vm_compute|by vm_compute].
Qed.

Lemma step4 : kad_step true 8 (k3, KademliaHandle_new) [] (k4, KademliaHandle_new).
Proof. eapply (action_run k3 KademliaHandle_new); [by vm_compute|vm_compute; reflexivity|by vm_compute..]. Qed.

Lemma step5 : kad_step true 8 (k4, KademliaHandle_new) [] (k5, KademliaHandle_new).
Proof.
  apply (select_run k4 KademliaHandle_new (KbService (Some (SvSubstreamOpened peer "/notif/1" None (Outbound 0) 9)))
    (ready k4 ts5 up1) KademliaHandle_new); [by vm_compute..| |by vm_compute|by vm_compute|by vm_compute].
  apply (service_ready k4 _ up2); [by vm_compute..|apply dialed_fed|by vm_compute].
Qed.

Lemma lookup_run : kad_reaches true 8 kt0 config [[]; [KmAsked 0]; []; []; []] (k5, KademliaHandle_new).
Proof.
  apply (Reaches true 8 _ _ _ _ local k0 k0_new).
  eapply steps_cons; [exact step1|]. eapply steps_cons; [exact step2|]. eapply steps_cons; [exact step3|].
  eapply steps_cons; [exact step4|]. eapply steps_cons; [exact step5|]. constructor.
Qed.

Lemma kt0_refines : ks_refines kt0 Contract_init.
Proof.
  split; [apply refines_init|]. split; [|by vm_compute].
  split; [|apply ConnectionLimits_new_wf|]; intros x y Hx; cbn in Hx; by rewrite lookup_empty in Hx.
Qed.

Lemma config_providers : 0 < max_providers_per_key (kc_memory_store_config config).
Proof. cbn. lia. Qed.

Lemma nothing_mentioned (k : Kademlia KadTransport) p id : k_pending_dials k !! p = None →
  map_to_list (default ∅ (k_peers k !! p)) = [] → k_executor k = [] → ¬ mentions id k p.
Proof.
  intros Hd Hp%map_to_list_empty_iff Hx [l a Hl|ctx sid a Hc Ha _|f Hf];
    [congruence| |by rewrite Hx in Hf; apply not_elem_of_nil in Hf].
  rewrite Hc in Hp. cbn in Hp. subst ctx. by rewrite lookup_empty in Ha.
Qed.

(** The lookup waits for the one peer, with which there is one exchange. *)
Definition request : list byte := request_bytes (FindNodeRequest (PeerId_to_bytes target)).
Definition lookup : FindNodeContext PeerId :=
  match queries (k_engine k5) !! 0%N with
  | Some (QFindNode c) => c
  | _ => FindNodeContext_new (find_node_config (k_engine k5) 0 (key_of_peer target)) (FindNodeRequest []) []
  end.

Lemma lookup_active : queries (k_engine k5) !! 0%N = Some (QFindNode lookup).
Proof.
  assert (match queries (k_engine k5) !! 0%N with Some (QFindNode _) => true | _ => false end = true) as Hq by by vm_compute.
  unfold lookup. by destruct (queries (k_engine k5) !! 0%N) as [[]|].
Qed.

Lemma lookup_pending : dom (fn_pending lookup) = {[peer]}.
Proof. apply (bool_decide_unpack _). by vm_compute. Qed.

Lemma exchange : k_executor k5 !! 0 = Some (mkExecutorFuture peer (Some 0%N) 9 (TkSendRequestReadResponse request)).
Proof. by vm_compute. Qed.

Lemma no_other_exchange : ¬ mentions 0 (with_executor k5 (take_nth (k_executor k5) 0)) peer.
Proof. by apply nothing_mentioned; vm_compute. Qed.
End KademliaExample.

Section witnesses.
Import KademliaExample.
#[local] Existing Instance sample_network.
#[local] Existing Instance canonical_order.
#[local] Existing Instance eager_sleep.
#[local] Existing Instance toy_sha256.
#[local] Existing Instance toy_multihash.
#[local] Existing Instance no_addresses.
#[local] Existing Instance typed_keys.
#[local] Existing Instance laws.

Lemma kademlia_queries_accounted_witness : [0%N] ≡ₚ [] ++ [] ++ [] ++ active k5.
Proof. exact (proj2 (kademlia_queries_accounted true 8 kt0 config _ k5 _ kt0_refines config_providers lookup_run)). Defined.

Lemma kademlia_query_progress_witness : ∃ kind p, waits (polled_engine k5).1 kind 0 p ∧
  ((∃ c, ks_refines (k_service k5) c ∧ outstanding c k5 kind 0 p) ∨ KmLost kind 0 p ∈ [KmAsked 0]).
Proof.
  refine (kademlia_query_progress true 8 kt0 config _ k5 _ 1 _ 0 kt0_refines config_providers lookup_run _ _).
  - rewrite (engine_run k5) by by vm_compute. assert ((polled_engine k5).2 = None) as Hn by by vm_compute.
    destruct (polled_engine k5) as [e o]. cbn in *. by subst.
  - unfold active. apply elem_of_elements, elem_of_dom. exists (QFindNode lookup). apply lookup_active.
Defined.

Lemma kademlia_turn_total_witness : ∃ k', k_poll_engine (Datatypes.S (engine_measure (k_engine k3))) 1 local k3 = Done (Some k').
Proof.
  assert (kad_reaches true 8 kt0 config [[]; [KmAsked 0]; []] (k3, KademliaHandle_new)) as Hr.
  { apply (Reaches true 8 _ _ _ _ local k0 k0_new).
    eapply steps_cons; [exact step1|]. eapply steps_cons; [exact step2|]. eapply steps_cons; [exact step3|]. constructor. }
  destruct (kademlia_turn_total true 8 kt0 config _ k3 _ 1 random kt0_refines config_providers Hr) as (k' & Hk' & _).
  by exists k'.
Defined.

Lemma undecodable_reply_never_answered_witness : ∃ k', 0%N ∈ active k' ∧
  k_select true 1 random (with_engine k5 (polled_engine k5).1) (KbExecutor 0 WriteOk (ReadItem (Some (Ok [])))) = Done (k', false).
Proof.
  set (b := KbExecutor 0 WriteOk (ReadItem (Some (Ok [])))).
  assert (k_select true 1 random (with_engine k5 (polled_engine k5).1) b =
    Done (branched (with_engine k5 (polled_engine k5).1) b, false)) as Hk.
  { assert (goes_on (k_select true 1 random (with_engine k5 (polled_engine k5).1) b) = true) as Hg by by vm_compute.
    unfold branched, goes_on in *. by destruct (k_select true 1 random (with_engine k5 (polled_engine k5).1) b) as [[? []]|]. }
  exists (branched (with_engine k5 (polled_engine k5).1) b). split; [|exact Hk].
  assert (engine_next_action (k_engine k5) 1 = Done ((polled_engine k5).1, None)) as Ha.
  { rewrite (engine_run k5) by by vm_compute. assert ((polled_engine k5).2 = None) as Hn by by vm_compute.
    destruct (polled_engine k5) as [e o]. cbn in *. by subst. }
  destruct (undecodable_reply_never_answered true 8 kt0 config _ k5 KademliaHandle_new 1 random _ 0 ServiceExample.peer 0 9 request [] lookup
    _ [] _ _ kt0_refines config_providers lookup_run lookup_active lookup_pending ltac:(by vm_compute)
    ltac:(apply Nat.ltb_lt; by vm_compute) exchange no_other_exchange ltac:(by vm_compute) Ha
    ltac:(apply N.ltb_lt; by vm_compute) Hk (steps_nil _ _)) as [Hact _]. exact Hact.
Defined.
End witnesses.
