(* ===== verification/HandshakeService.v ===== *)
(** * The handshake service of the notification protocol

    [src/src/protocol/notification/negotiation.rs]: reads and writes the handshakes of the
    substreams that are being negotiated. A substream is known by a handle; what its sink and
    stream answer when they are polled, and whether a timer has expired, is an argument of
    [hs_poll_next]. *)

From stdpp Require Import base tactics option list gmap.
From Stdlib Require Import NArith Lia Init.Byte.
From S2P Require Import Prelude Multiaddr ProtocolTypes.

Inductive HsDirection := HsOutbound | HsInbound.

#[export] Instance HsDirection_eq_dec : EqDecision HsDirection.
Proof. solve_decision. Defined.
#[export] Program Instance HsDirection_countable : Countable HsDirection :=
  inj_countable' (λ d, match d with HsOutbound => true | HsInbound => false end)
                 (λ b, if b then HsOutbound else HsInbound) _.
Next Obligation. by intros []. Qed.

Inductive HandshakeEvent :=
| HsNegotiated (peer : PeerId) (handshake : list byte) (substream : Substream) (d : HsDirection)
| HsNegotiationError (peer : PeerId) (d : HsDirection).

(** [HandshakeState] of [negotiation.rs]. *)
Inductive HsState := SendHandshake | SinkReady | HandshakeSent | ReadHandshake.

#[export] Instance HsState_eq_dec : EqDecision HsState.
Proof. solve_decision. Defined.

Notation HsKey := (PeerId * HsDirection)%type (only parsing).

Record HandshakeService := mkHandshakeService {
  hs_handshake : list byte;
  hs_substreams : gmap HsKey (Substream * HsState);
  hs_ready : list (HsKey * list byte);
}.

Definition HandshakeService_new (handshake : list byte) : HandshakeService :=
  mkHandshakeService handshake ∅ [].

Definition hs_set (s : HandshakeService) (m : gmap HsKey (Substream * HsState)) :
    HandshakeService := mkHandshakeService (hs_handshake s) m (hs_ready s).

(** ** Operations *)

Definition remove_outbound (s : HandshakeService) (peer : PeerId) : HandshakeService :=
  hs_set s (delete (peer, HsOutbound) (hs_substreams s)).

Definition remove_inbound (s : HandshakeService) (peer : PeerId) : HandshakeService :=
  hs_set s (delete (peer, HsInbound) (hs_substreams s)).

Definition negotiate_outbound (s : HandshakeService) (peer : PeerId) (substream : Substream) :
    HandshakeService :=
  hs_set s (<[(peer, HsOutbound) := (substream, SendHandshake)]> (hs_substreams s)).

Definition read_handshake (s : HandshakeService) (peer : PeerId) (substream : Substream) :
    HandshakeService :=
  hs_set s (<[(peer, HsInbound) := (substream, ReadHandshake)]> (hs_substreams s)).

Definition send_handshake (s : HandshakeService) (peer : PeerId) (substream : Substream) :
    HandshakeService :=
  hs_set s (<[(peer, HsInbound) := (substream, SendHandshake)]> (hs_substreams s)).

Definition hs_is_empty (s : HandshakeService) : bool := bool_decide (hs_substreams s = ∅).

(** ** Polling *)

(** What a substream and its timer answer during one poll. *)
Record HsAnswers := mkHsAnswers {
  hs_timer : bool;
  hs_poll_ready : Poll (result unit unit);
  hs_start_send : list byte → result unit unit;
  hs_poll_flush : Poll (result unit unit);
  hs_read : Poll (option (result unit (list byte)));
}.

(** How the loop over one substream ends: it goes on to the next substream, possibly with a
    handshake that completes this one, or the poll returns an error. *)
Inductive EntryEnd := EntryPending | EntryReady (handshake : list byte) | EntryError.

(** The loop over one substream. A round moves to a later state, so four are enough. *)
Fixpoint entry_loop (fuel : nat) (handshake : list byte) (d : HsDirection) (io : HsAnswers)
    (st : HsState) : option (HsState * EntryEnd) :=
  match fuel with
  | 0 => None
  | S fuel =>
      match st with
      | SendHandshake =>
          match hs_poll_ready io with
          | Ready (Ok _) => entry_loop fuel handshake d io SinkReady
          | Ready (Err _) => Some (st, EntryError)
          | Pending => Some (st, EntryPending)
          end
      | SinkReady =>
          match hs_start_send io handshake with
          | Ok _ => entry_loop fuel handshake d io HandshakeSent
          | Err _ => Some (st, EntryError)
          end
      | HandshakeSent =>
          match hs_poll_flush io with
          | Ready (Ok _) =>
              match d with
              | HsOutbound => entry_loop fuel handshake d io ReadHandshake
              | HsInbound => Some (st, EntryReady [])
              end
          | Ready (Err _) => Some (st, EntryError)
          | Pending => Some (st, EntryPending)
          end
      | ReadHandshake =>
          match hs_read io with
          | Ready (Some (Ok h)) => Some (st, EntryReady h)
          | Ready (Some (Err _)) => Some (st, EntryError)
          | Ready None => Some (st, EntryError)
          | Pending => Some (st, EntryPending)
          end
      end
  end.

Definition ENTRY_FUEL : nat := 4.

(** The loop over the substreams, in the order of the map. *)
Fixpoint hs_scan (answers : HsKey → HsAnswers) (entries : list (HsKey * (Substream * HsState)))
    (s : HandshakeService) : outcome (HandshakeService * option HandshakeEvent) :=
  match entries with
  | [] => Done (s, None)
  | ((peer, d), (substream, st)) :: entries =>
      let io := answers (peer, d) in
      if hs_timer io then Done (s, Some (HsNegotiationError peer d))
      else
        match entry_loop ENTRY_FUEL (hs_handshake s) d io st with
        | None => Panic
        | Some (st, e) =>
            let s := hs_set s (<[(peer, d) := (substream, st)]> (hs_substreams s)) in
            match e with
            | EntryPending => hs_scan answers entries s
            | EntryReady h =>
                hs_scan answers entries
                  (mkHandshakeService (hs_handshake s) (hs_substreams s)
                    (hs_ready s ++ [((peer, d), h)]))
            | EntryError => Done (s, Some (HsNegotiationError peer d))
            end
        end
  end.

(** [HandshakeService::pop_event] *)
Fixpoint pop_ready (handshake : list byte) (m : gmap HsKey (Substream * HsState))
    (ready : list (HsKey * list byte)) : HandshakeService * option HandshakeEvent :=
  match ready with
  | [] => (mkHandshakeService handshake m [], None)
  | ((peer, d), h) :: ready =>
      match m !! (peer, d) with
      | Some (substream, _) =>
          (mkHandshakeService handshake (delete (peer, d) m) ready,
           Some (HsNegotiated peer h substream d))
      | None => pop_ready handshake m ready
      end
  end.

Definition pop_event (s : HandshakeService) : HandshakeService * option HandshakeEvent :=
  pop_ready (hs_handshake s) (hs_substreams s) (hs_ready s).

(** [HandshakeService::poll_next] *)
Definition hs_poll_next `{HashOrder} (answers : HsKey → HsAnswers) (s : HandshakeService) :
    outcome (HandshakeService * Poll HandshakeEvent) :=
  match pop_event s with
  | (s, Some e) => Done (s, Ready e)
  | (s, None) =>
      if hs_is_empty s then Done (s, Pending)
      else
        match hs_scan answers (map_order (hs_substreams s)) s with
        | Panic => Panic
        | Done (s, Some e) => Done (s, Ready e)
        | Done (s, None) =>
            match hs_ready s with
            | [] => Done (s, Pending)
            | ((peer, d), h) :: ready =>
                match hs_substreams s !! (peer, d) with
                | None => Panic
                | Some (substream, _) =>
                    Done (mkHandshakeService (hs_handshake s)
                            (delete (peer, d) (hs_substreams s)) ready,
                          Ready (HsNegotiated peer h substream d))
                end
            end
        end
  end.

(** ** What a poll does *)

(** The substreams that are being negotiated, without their progress. *)
Definition handles (s : HandshakeService) : gmap HsKey Substream := fst <$> hs_substreams s.

(** How a substream answers a poll. *)
Definition entry_answer (answers : HsKey → HsAnswers) (h : list byte)
    (e : HsKey * (Substream * HsState)) : EntryEnd :=
  if hs_timer (answers e.1) then EntryError
  else default EntryError (snd <$> entry_loop ENTRY_FUEL h e.1.2 (answers e.1) e.2.2).

Definition completed (answers : HsKey → HsAnswers) (h : list byte)
    (entries : list (HsKey * (Substream * HsState))) : list (HsKey * list byte) :=
  omap (λ e, match entry_answer answers h e with EntryReady h => Some (e.1, h) | _ => None end) entries.

(** The loop over a substream ends within its fuel. *)
Lemma entry_loop_total h d io st :
  ∃ st' e, entry_loop ENTRY_FUEL h d io st = Some (st', e).
Proof. destruct st; simpl; repeat case_match; eauto. Qed.

Lemma handles_insert s k sub st st' :
  hs_substreams s !! k = Some (sub, st) →
  handles (hs_set s (<[k := (sub, st')]> (hs_substreams s))) = handles s.
Proof.
  intros Hk. unfold handles. simpl. rewrite fmap_insert. simpl.
  apply insert_id. by rewrite lookup_fmap, Hk.
Qed.

(** How a scan ends: at the first substream that fails, or at the end; the handshakes that are
    complete are queued. *)
Definition scan_end (answers : HsKey → HsAnswers) (h : list byte)
    (entries : list (HsKey * (Substream * HsState))) (new : list (HsKey * list byte))
    (r : option HandshakeEvent) : Prop :=
  ∃ pre post, entries = pre ++ post ∧ new = completed answers h pre ∧
    Forall (λ e, entry_answer answers h e ≠ EntryError) pre ∧
    match post with
    | [] => r = None
    | e :: _ => r = Some (HsNegotiationError e.1.1 e.1.2) ∧ entry_answer answers h e = EntryError
    end.

Lemma scan_end_fail answers h e entries : entry_answer answers h e = EntryError →
  scan_end answers h (e :: entries) [] (Some (HsNegotiationError e.1.1 e.1.2)).
Proof. intros He. by exists [], (e :: entries). Qed.

Lemma scan_end_cons answers h e entries new r : entry_answer answers h e ≠ EntryError →
  scan_end answers h entries new r →
  scan_end answers h (e :: entries) (completed answers h [e] ++ new) r.
Proof.
  intros He (pre & post & -> & -> & Hpre & Hpost). exists (e :: pre), post.
  split_and!; [done|symmetry; apply (omap_app _ [e] pre)|by constructor|done].
Qed.

Lemma hs_scan_spec answers entries : ∀ s,
  NoDup entries.*1 → (∀ k v, (k, v) ∈ entries → hs_substreams s !! k = Some v) →
  ∃ s' r new, hs_scan answers entries s = Done (s', r) ∧
    handles s' = handles s ∧ hs_handshake s' = hs_handshake s ∧
    hs_ready s' = hs_ready s ++ new ∧ scan_end answers (hs_handshake s) entries new r.
Proof.
  induction entries as [|[[p d] [sub st]] entries IH]; intros s Hnd Hin.
  { exists s, None, []. split_and!; try done; [by rewrite app_nil_r|]. by exists [], []. }
  assert (hs_substreams s !! (p, d) = Some (sub, st)) as Hk by (apply Hin; left).
  apply NoDup_cons in Hnd as [Hnot Hnd]. cbn [fmap list_fmap hs_scan].
  pose proof (eq_refl (entry_answer answers (hs_handshake s) (p, d, (sub, st)))) as He.
  unfold entry_answer in He at 2. cbn [fst snd] in He. destruct (hs_timer (answers (p, d))).
  { exists s, (Some (HsNegotiationError p d)), []. split_and!; try done; [by rewrite app_nil_r|].
    by apply (scan_end_fail _ _ (p, d, (sub, st))). }
  destruct (entry_loop_total (hs_handshake s) d (answers (p, d)) st) as (st' & e & Hl).
  rewrite Hl in He |- *. cbn in He.
  pose proof (handles_insert s (p, d) sub st st' Hk) as Hh.
  assert (∀ q k v, (k, v) ∈ entries → hs_substreams (mkHandshakeService (hs_handshake s)
    (<[(p, d) := (sub, st')]> (hs_substreams s)) q) !! k = Some v) as Hin1.
  { intros q k v Hkv. cbn. rewrite lookup_insert_ne; [apply Hin; by right|]. intros <-.
    apply Hnot, list_elem_of_fmap. by exists ((p, d), v). }
  destruct e as [|h|].
  - destruct (IH _ Hnd (Hin1 (hs_ready s))) as (s' & r & new & Hs & Hh' & ? & ? & Hend).
    exists s', r, new. split_and!; [done|by rewrite Hh', <- Hh|done..|].
    cbn [hs_handshake hs_set] in Hend. apply (scan_end_cons _ _ (p, d, (sub, st))) in Hend; [|by rewrite He].
    by unfold completed in Hend at 1; cbn in Hend; rewrite He in Hend.
  - destruct (IH _ Hnd (Hin1 (hs_ready s ++ [((p, d), h)]))) as (s' & r & new & Hs & Hh' & ? & Hr & Hend).
    exists s', r, (((p, d), h) :: new). cbn in Hr. rewrite <- app_assoc in Hr.
    split_and!; [done|by rewrite Hh', <- Hh|done..|].
    cbn [hs_handshake hs_set] in Hend. apply (scan_end_cons _ _ (p, d, (sub, st))) in Hend; [|by rewrite He].
    by unfold completed in Hend at 1; cbn in Hend; rewrite He in Hend.
  - eexists _, _, []. split_and!; try done; [by rewrite app_nil_r|].
    by apply (scan_end_fail _ _ (p, d, (sub, st))).
Qed.

Lemma pop_ready_None h m ready s : pop_ready h m ready = (s, None) → s = mkHandshakeService h m [].
Proof.
  induction ready as [|[[p d] hs] ready IH]; cbn [pop_ready]; [congruence|].
  destruct (m !! (p, d)) as [[]|]; [discriminate|done].
Qed.

Lemma pop_ready_Some h m ready s e : pop_ready h m ready = (s, Some e) →
  ∃ p d hs sub st rest, e = HsNegotiated p hs sub d ∧ m !! (p, d) = Some (sub, st) ∧
    ((p, d), hs) ∈ ready ∧ s = mkHandshakeService h (delete (p, d) m) rest.
Proof.
  induction ready as [|[[p d] hs] ready IH]; cbn [pop_ready]; [congruence|].
  destruct (m !! (p, d)) as [[sub st]|] eqn:E.
  - intros [= <- <-]. exists p, d, hs, sub, st, ready. split_and!; [done..|left|done].
  - intros (p' & d' & hs' & sub & st & rest & ? & ? & ? & ?)%IH.
    exists p', d', hs', sub, st, rest. split_and!; [done..|by right|done].
Qed.

(** The handshakes of earlier polls that still find a substream. *)
Definition queued (s : HandshakeService) : list (HsKey * list byte) :=
  filter (λ kh, is_Some (hs_substreams s !! kh.1)) (hs_ready s).

Lemma pop_stale (h : list byte) (m : gmap HsKey (Substream * HsState)) (ready : list (HsKey * list byte)) :
  filter (λ kh, is_Some (m !! kh.1)) ready = [] →
  pop_ready h m ready = (mkHandshakeService h m [], None).
Proof.
  induction ready as [|[[p d] hs] ready IH]; cbn [pop_ready]; [done|]. rewrite filter_cons. cbn [fst].
  destruct (m !! (p, d)) as [[sub st]|]; [by rewrite decide_True|]. rewrite decide_False by (by intros []). done.
Qed.

Lemma pop_queued (h : list byte) (m : gmap HsKey (Substream * HsState)) (ready : list (HsKey * list byte)) p d hs q :
  filter (λ kh, is_Some (m !! kh.1)) ready = ((p, d), hs) :: q →
  ∃ sub rest, pop_ready h m ready = (mkHandshakeService h (delete (p, d) m) rest, Some (HsNegotiated p hs sub d)).
Proof.
  induction ready as [|[[p' d'] hs'] ready IH]; cbn [pop_ready]; [done|]. rewrite filter_cons. cbn [fst].
  destruct (m !! (p', d')) as [[sub st]|]; [rewrite decide_True by done|rewrite decide_False by (by intros []); done].
  intros [= -> -> -> _]. eauto.
Qed.

(** The effect of an event on the substreams: a negotiated substream leaves the service, a failed
    one is still in it. *)
Definition event_of (s s' : HandshakeService) (r : Poll HandshakeEvent) : Prop :=
  match r with
  | Pending => handles s' = handles s
  | Ready (HsNegotiated p _ sub d) =>
      handles s !! (p, d) = Some sub ∧ handles s' = delete (p, d) (handles s)
  | Ready (HsNegotiationError p d) => is_Some (handles s !! (p, d)) ∧ handles s' = handles s
  end.

Section poll.
Context `{HashOrder}.

Lemma scan_pre s : NoDup (map_order (hs_substreams s)).*1 ∧
  ∀ k v, (k, v) ∈ map_order (hs_substreams s) → hs_substreams s !! k = Some v.
Proof. split; [apply map_order_keys_nodup|]. intros k v. by rewrite map_order_elem. Qed.

Lemma hs_poll_next_event answers s :
  ∃ s' r, hs_poll_next answers s = Done (s', r) ∧ hs_handshake s' = hs_handshake s ∧ event_of s s' r.
Proof.
  unfold hs_poll_next, pop_event. destruct (pop_ready _ _ _) as [s1 [e|]] eqn:Epop.
  { apply pop_ready_Some in Epop as (p & d & hs & sub & st & rest & -> & Hk & _ & ->).
    eexists _, _. split_and!; [done..|]. unfold event_of, handles; cbn [hs_substreams]. by rewrite lookup_fmap, Hk, fmap_delete. }
  apply pop_ready_None in Epop as ->. case_match; [by eexists _, _|].
  set (s1 := mkHandshakeService _ _ _). destruct (scan_pre s1) as [Hnd Hin].
  destruct (hs_scan_spec answers _ s1 Hnd Hin) as (s2 & r & new & -> & Hh & Hs & Hr & pre & post & Hpp & Hnew & _ & Hend).
  destruct post as [|e post]; [subst r|].
  - cbn in Hr. rewrite Hr. destruct new as [|[[p d] h] new]; [by eexists _, _|].
    assert (∃ sub st, hs_substreams s2 !! (p, d) = Some (sub, st)) as (sub & st & Hk).
    { assert (((p, d), h) ∈ completed answers (hs_handshake s1) pre) as Hc by (rewrite <- Hnew; left).
      apply list_elem_of_omap in Hc as ([k [sub st]] & Hkin & Hc). case_match; simplify_eq/=.
      assert (hs_substreams s !! (p, d) = Some (sub, st)) as Hk
        by (apply Hin; rewrite Hpp, app_nil_r; done).
      assert (handles s2 !! (p, d) = Some sub) as Hk2 by (rewrite Hh; unfold handles; cbn [hs_substreams s1]; by rewrite lookup_fmap, Hk).
      unfold handles in Hk2. rewrite lookup_fmap in Hk2.
      destruct (hs_substreams s2 !! (p, d)) as [[]|]; naive_solver. }
    rewrite Hk. eexists _, _. split_and!; [done..|]. unfold event_of. rewrite <- (Hh : handles s2 = handles s).
    unfold event_of, handles; cbn [hs_substreams]. by rewrite lookup_fmap, Hk, fmap_delete.
  - destruct Hend as [-> Hend]. eexists _, _. split_and!; [done..|]. cbn. split; [|done].
    destruct e as [[p d] [sub st]]. exists sub. change (handles s !! (p, d) = Some sub).
    assert (hs_substreams s !! (p, d) = Some (sub, st)) as Hk by (apply Hin; rewrite Hpp; set_solver).
    unfold handles. by rewrite lookup_fmap, Hk.
Qed.

(** C20. Polling the handshake service never panics and never loops. If a handshake is queued from an earlier
    poll and its peer still has a substream in that direction, the first such handshake is reported,
    with the substream that is there now. Otherwise the substreams are polled: the result is nothing if
    all of them are waiting, a failure of a substream that failed or timed out, or, if none failed, the
    handshake of a substream that completed in this poll. A substream that is reported with its
    handshake leaves the service; the others stay in it. *)
Theorem handshake_poll answers s :
  ∃ s' r, hs_poll_next answers s = Done (s', r) ∧ event_of s s' r ∧
  let answer k := entry_answer answers (hs_handshake s) <$> ((k,.) <$> hs_substreams s !! k) in
  match queued s, r with
  | ((p, d), h) :: _, _ => ∃ sub, r = Ready (HsNegotiated p h sub d)
  | [], Pending => ∀ k e, answer k = Some e → e = EntryPending
  | [], Ready (HsNegotiated p h _ d) => answer (p, d) = Some (EntryReady h) ∧
      ∀ k e, answer k = Some e → e ≠ EntryError
  | [], Ready (HsNegotiationError p d) => answer (p, d) = Some EntryError
  end.
Proof.
  destruct (hs_poll_next_event answers s) as (s' & r & Heq & _ & Hev).
  exists s', r. split_and!; [done..|]. revert Heq.
  unfold hs_poll_next, pop_event. destruct (queued s) as [|[[p d] h] q] eqn:Hq.
  2: { destruct (pop_queued (hs_handshake s) _ _ _ _ _ _ Hq) as (sub & rest & ->). intros [= <- <-]. by exists sub. }
  rewrite (pop_stale (hs_handshake s) _ _ Hq).
  set (s1 := mkHandshakeService _ _ _). unfold hs_is_empty. case_bool_decide as Hemp.
  { intros [= <- <-]. intros k e. by rewrite (Hemp : hs_substreams s = ∅), lookup_empty. }
  destruct (scan_pre s1) as [Hnd Hin].
  destruct (hs_scan_spec answers _ s1 Hnd Hin) as (s2 & r2 & new & -> & Hh & Hs & Hr & pre & post & Hpp & Hnew & Hpre & Hend).
  change (hs_handshake s1) with (hs_handshake s) in Hnew, Hpre, Hend.
  assert (∀ k e, entry_answer answers (hs_handshake s) <$> ((k,.) <$> hs_substreams s !! k) = Some e ↔
    ∃ v, (k, v) ∈ map_order (hs_substreams s) ∧ entry_answer answers (hs_handshake s) (k, v) = e) as Hans.
  { intros k e. setoid_rewrite map_order_elem. destruct (hs_substreams s !! k); naive_solver. }
  destruct post as [|[[p d] v] post].
  - subst r2. cbn in Hr. rewrite Hr. rewrite app_nil_r in Hpp. cbn in Hpp.
    rewrite Forall_forall in Hpre. destruct new as [|[[p d] h] new].
    + intros [= <- <-] k e (v & Hv & He)%Hans. rewrite Hpp in Hv.
      destruct e as [|h|]; [done| |by destruct (Hpre (k, v))].
      assert ((k, h) ∈ ([] : list (HsKey * list byte))) as Hc; [rewrite Hnew|set_solver].
      apply list_elem_of_omap. exists (k, v). split; [done|]. by rewrite He.
    + destruct (hs_substreams s2 !! (p, d)) as [[sub st]|]; [|discriminate]. intros [= <- <-]. split.
      * assert (((p, d), h) ∈ completed answers (hs_handshake s) pre) as Hc by (rewrite <- Hnew; left).
        apply list_elem_of_omap in Hc as ([k v] & Hkin & Hc). case_match; simplify_eq/=.
        apply Hans. by exists v.
      * intros k e (v & Hv & <-)%Hans. apply (Hpre (k, v)). by rewrite <- Hpp.
  - destruct Hend as [-> Hend]. intros [= <- <-]. apply Hans. exists v. split; [|done]. cbn in Hpp. rewrite Hpp. set_solver.
Qed.
End poll.

(** A service that reads one handshake. *)
Lemma handshake_poll_witness :
  let p := mkPeerId (mkMultihash 0 []) in
  let io := mkHsAnswers false Pending (λ _, Ok tt) Pending (Ready (Some (Ok [Byte.x01]))) in
  ∃ s, hs_poll_next (H := canonical_order) (λ _, io) (read_handshake (HandshakeService_new []) p 7) =
    Done (s, Ready (HsNegotiated p [Byte.x01] 7 HsInbound)).
Proof.
  intros p io.
  destruct (@handshake_poll canonical_order (λ _, io) (read_handshake (HandshakeService_new []) p 7))
    as (s & r & Heq & _ & _).
  exists s. rewrite Heq. vm_compute in Heq. by injection Heq as <- <-.
Defined.
