(* ===== verification/Notification.v ===== *)
(** * The notification protocol

    [NotificationProtocol] of [src/src/protocol/notification/mod.rs]: a pair of substreams per
    peer, negotiated with handshakes that the user validates. What the protocol tells the user,
    the transport service and the connection tasks is returned as a list of effects; the
    answers of the transport service are arguments. [debug] says whether [debug_assert!] is
    compiled in: without it a failed assertion leaves the peer [NpPoisoned]. *)

From stdpp Require Import base tactics option list gmap strings.
From Stdlib Require Import NArith Lia Init.Byte.
From S2P Require Import Prelude Multiaddr ProtocolTypes HandshakeService.

Local Open Scope litep2p_scope.

(** ** Data *)

(** [notification::types::Direction] *)
Inductive NpDirection := NpInbound | NpOutbound.

Inductive ValidationResult := VAccept | VReject.

#[export] Instance ValidationResult_eq_dec : EqDecision ValidationResult.
Proof. solve_decision. Defined.

(** [NotificationError], the constructors the protocol reports. *)
Inductive NotificationError :=
| NeRejected
| NeNoConnection
| NeChannelClogged
| NeValidationPending
| NeDialFailure.

#[export] Instance NotificationError_eq_dec : EqDecision NotificationError.
Proof. solve_decision. Defined.

Inductive ConnectionState := CsOpen | CsClosed.

#[export] Instance ConnectionState_eq_dec : EqDecision ConnectionState.
Proof. solve_decision. Defined.

Inductive InboundState :=
| InClosed
| InReadingHandshake
| InValidating (inbound : Substream)
| InSendingHandshake
| InOpen (inbound : Substream).

Inductive OutboundState :=
| OutClosed
| OutInitiated (substream : SubstreamId)
| OutNegotiating
| OutOpen (handshake : list byte) (outbound : Substream).

(** [OutboundState::pending_open] *)
Definition pending_open (o : OutboundState) : option SubstreamId :=
  match o with OutInitiated id => Some id | _ => None end.

Definition out_closed (o : OutboundState) : bool :=
  match o with OutClosed => true | _ => false end.

(** [notification::PeerState]. The sender that shuts a connection task down is known by the
    inbound substream of the task. *)
Inductive NpPeerState :=
| NpPoisoned
| NpValidationPending (state : ConnectionState)
| NpClosed (pending_open : option SubstreamId)
| NpDialing
| NpOutboundInitiated (substream : SubstreamId)
| NpValidating (protocol : ProtocolName) (fallback : option ProtocolName)
    (outbound : OutboundState) (inbound : InboundState) (direction : NpDirection)
| NpOpen (shutdown : Substream).

Record NotificationProtocol := mkNotificationProtocol {
  np_peers : gmap PeerId NpPeerState;
  np_pending_outbound : gmap SubstreamId PeerId;
  np_negotiation : HandshakeService;
  np_pending_validations : list PeerId;
  np_timers : list PeerId;
  np_auto_accept : bool;
  np_should_dial : bool;
}.

(** [NotificationProtocol::new] *)
Definition NotificationProtocol_new (handshake : list byte) (auto_accept should_dial : bool) :
    NotificationProtocol :=
  mkNotificationProtocol ∅ ∅ (HandshakeService_new handshake) [] [] auto_accept should_dial.

Definition np_set (np : NotificationProtocol) (p : PeerId) (st : NpPeerState) :
    NotificationProtocol :=
  mkNotificationProtocol (<[p := st]> (np_peers np)) (np_pending_outbound np) (np_negotiation np)
    (np_pending_validations np) (np_timers np) (np_auto_accept np) (np_should_dial np).
Definition np_remove (np : NotificationProtocol) (p : PeerId) : NotificationProtocol :=
  mkNotificationProtocol (delete p (np_peers np)) (np_pending_outbound np) (np_negotiation np)
    (np_pending_validations np) (np_timers np) (np_auto_accept np) (np_should_dial np).
Definition np_set_outbound (np : NotificationProtocol) (m : gmap SubstreamId PeerId) :
    NotificationProtocol :=
  mkNotificationProtocol (np_peers np) m (np_negotiation np)
    (np_pending_validations np) (np_timers np) (np_auto_accept np) (np_should_dial np).
Definition np_negotiate (np : NotificationProtocol) (s : HandshakeService) : NotificationProtocol :=
  mkNotificationProtocol (np_peers np) (np_pending_outbound np) s
    (np_pending_validations np) (np_timers np) (np_auto_accept np) (np_should_dial np).
Definition np_validations (np : NotificationProtocol) (l : list PeerId) : NotificationProtocol :=
  mkNotificationProtocol (np_peers np) (np_pending_outbound np) (np_negotiation np)
    l (np_timers np) (np_auto_accept np) (np_should_dial np).
Definition np_set_timers (np : NotificationProtocol) (l : list PeerId) : NotificationProtocol :=
  mkNotificationProtocol (np_peers np) (np_pending_outbound np) (np_negotiation np)
    (np_pending_validations np) l (np_auto_accept np) (np_should_dial np).

(** What the protocol does to the outside: events for the user, calls of the transport service,
    substreams it closes, connection tasks it starts and stops. *)
Inductive NpEffect :=
| NpValidateSubstream (protocol : ProtocolName) (fallback : option ProtocolName) (peer : PeerId)
    (handshake : list byte)
| NpStreamOpened (protocol : ProtocolName) (fallback : option ProtocolName)
    (direction : NpDirection) (peer : PeerId) (handshake : list byte)
| NpOpenFailure (peer : PeerId) (error : NotificationError)
| NpDial (peer : PeerId)
| NpOpenSubstream (peer : PeerId)
| NpForceClose (peer : PeerId)
| NpUnregister
| NpClose (s : Substream)
| NpShutdown (connection : Substream)
| NpStartConnection (peer : PeerId) (inbound outbound : Substream).

(** [crate::Error], as far as the handlers return it. *)
Inductive NpError := NpPeerAlreadyExists | NpPeerDoesntExist | NpServiceError.

#[export] Instance np_asks : Asks NpEffect := λ e,
  match e with NpOpenSubstream p => Some p | _ => None end.

Section notification.
Context (debug : bool).

Notation step := (outcome (NotificationProtocol * list NpEffect)) (only parsing).
Notation fallible := (outcome (NotificationProtocol * list NpEffect * result NpError unit)) (only parsing).

(** ** Handlers *)

(** [NotificationProtocol::on_open_substream] *)
Definition np_on_open_substream (sv : ServiceAnswers) (np : NotificationProtocol) (peer : PeerId) :
    NotificationProtocol * list NpEffect * result NpError unit :=
  match np_peers np !! peer with
  | None =>
      if negb (np_should_dial np) then (np, [NpOpenFailure peer NeDialFailure], Ok tt)
      else
        match sv_dial sv peer with
        | Err _ => (np, [NpDial peer; NpOpenFailure peer NeDialFailure], Err NpServiceError)
        | Ok _ => (np_set np peer NpDialing, [NpDial peer], Ok tt)
        end
  | Some (NpClosed (Some id)) =>
      (np_set (np_set_outbound np (<[id := peer]> (np_pending_outbound np))) peer
         (NpOutboundInitiated id), [], Ok tt)
  | Some (NpClosed None) =>
      match sv_open sv peer with
      | Ok id =>
          (np_set (np_set_outbound np (<[id := peer]> (np_pending_outbound np))) peer
             (NpOutboundInitiated id), [NpOpenSubstream peer], Ok tt)
      | Err _ =>
          (np_set np peer (NpClosed None),
           [NpOpenSubstream peer; NpOpenFailure peer NeNoConnection], Ok tt)
      end
  | Some (NpValidationPending _) => (np, [NpOpenFailure peer NeValidationPending], Ok tt)
  | Some _ => (np, [], Ok tt)
  end.

(** [NotificationProtocol::on_connection_established] *)
Definition np_on_connection_established (sv : ServiceAnswers) (np : NotificationProtocol)
    (peer : PeerId) : fallible :=
  match np_peers np !! peer with
  | None => Done (np_set np peer (NpClosed None), [], Ok tt)
  | Some NpDialing => Done (np_on_open_substream sv (np_set np peer (NpClosed None)) peer)
  | Some (NpValidationPending state) =>
      debug_assert debug (state = CsClosed)
        (Done (np_set np peer (NpValidationPending CsOpen), [], Ok tt))
  | Some _ => debug_assert debug False (Done (np_set np peer NpPoisoned, [], Err NpPeerAlreadyExists))
  end.

(** [NotificationProtocol::on_connection_closed] *)
Definition np_on_connection_closed (np : NotificationProtocol) (peer : PeerId) : fallible :=
  let np := np_set_outbound np (filter (λ '(_, p), p ≠ peer) (np_pending_outbound np)) in
  match np_peers np !! peer with
  | None => debug_assert debug False (Done (np, [], Err NpPeerDoesntExist))
  | Some state =>
      let np := np_remove np peer in
      let np := np_negotiate np (remove_inbound (remove_outbound (np_negotiation np) peer) peer) in
      match state with
      | NpOutboundInitiated _ => Done (np, [NpOpenFailure peer NeRejected], Ok tt)
      | NpOpen shutdown => Done (np, [NpShutdown shutdown], Ok tt)
      | NpValidating _ _ outbound inbound _ =>
          match outbound, inbound with
          | OutClosed, InValidating _ => Done (np_set np peer (NpValidationPending CsClosed), [], Ok tt)
          | (OutInitiated _ | OutNegotiating | OutOpen _ _), _ =>
              Done (np, [NpOpenFailure peer NeRejected], Ok tt)
          | _, _ => Done (np, [], Ok tt)
          end
      | NpValidationPending _ => Done (np_set np peer (NpValidationPending CsClosed), [], Ok tt)
      | _ => Done (np, [], Ok tt)
      end
  end.

(** [NotificationProtocol::on_outbound_substream] *)
Definition np_on_outbound_substream (np : NotificationProtocol) (protocol : ProtocolName)
    (fallback : option ProtocolName) (peer : PeerId) (substream_id : SubstreamId)
    (outbound : Substream) : fallible :=
  match np_peers np !! peer with
  | None => debug_assert debug False (Done (np, [], Err NpPeerDoesntExist))
  | Some state =>
      let pending_peer := np_pending_outbound np !! substream_id in
      let np := np_set_outbound np (delete substream_id (np_pending_outbound np)) in
      let negotiated := np_negotiate np (negotiate_outbound (np_negotiation np) peer outbound) in
      let invalid := debug_assert debug False (Done (np_set np peer NpPoisoned, [NpClose outbound], Ok tt)) in
      match state with
      | NpOutboundInitiated substream =>
          debug_assert debug (substream = substream_id) (debug_assert debug (pending_peer = Some peer)
            (Done (np_set negotiated peer
                     (NpValidating protocol fallback OutNegotiating InClosed NpOutbound), [], Ok tt)))
      | NpValidating protocol fallback outbound_state inbound direction =>
          let next := np_set negotiated peer
                        (NpValidating protocol fallback OutNegotiating inbound direction) in
          match inbound, outbound_state with
          | (InSendingHandshake | InOpen _), _ => Done (next, [], Ok tt)
          | _, OutInitiated substream =>
              debug_assert debug (substream = substream_id) (Done (next, [], Ok tt))
          | _, _ => invalid
          end
      | NpClosed pending =>
          if decide (pending = Some substream_id)
          then Done (np_set np peer (NpClosed None), [NpClose outbound], Ok tt)
          else invalid
      | _ => invalid
      end
  end.

(** [NotificationProtocol::on_inbound_substream] *)
Definition np_on_inbound_substream (np : NotificationProtocol) (protocol : ProtocolName)
    (fallback : option ProtocolName) (peer : PeerId) (substream : Substream) : fallible :=
  match np_peers np !! peer with
  | None => debug_assert debug False (Done (np, [], Err NpPeerDoesntExist))
  | Some state =>
      let reading := np_negotiate np (read_handshake (np_negotiation np) peer substream) in
      match state with
      | NpClosed None =>
          Done (np_set reading peer
                  (NpValidating protocol fallback OutClosed InReadingHandshake NpInbound), [], Ok tt)
      | NpValidating protocol fallback outbound InClosed direction =>
          Done (np_set reading peer
                  (NpValidating protocol fallback outbound InReadingHandshake direction), [], Ok tt)
      | NpOutboundInitiated outbound =>
          Done (np_set reading peer
                  (NpValidating protocol fallback (OutInitiated outbound) InReadingHandshake NpOutbound),
                [], Ok tt)
      | NpValidating _ _ OutClosed (InValidating pending) _ =>
          Done (np_set np peer (NpValidationPending CsOpen), [NpClose substream; NpClose pending], Ok tt)
      | _ => Done (np, [NpClose substream], Ok tt)
      end
  end.

(** [NotificationProtocol::on_substream_open_failure] *)
Definition np_on_substream_open_failure (np : NotificationProtocol) (substream_id : SubstreamId) :
    step :=
  match np_pending_outbound np !! substream_id with
  | None => debug_assert debug False (Done (np, []))
  | Some peer =>
      let np := np_set_outbound np (delete substream_id (np_pending_outbound np)) in
      match np_peers np !! peer with
      | None => debug_assert debug False (Done (np, []))
      | Some (NpOutboundInitiated _) =>
          Done (np_set np peer (NpClosed None), [NpOpenFailure peer NeRejected])
      | Some (NpValidating _ _ outbound _ _) =>
          let np := np_negotiate np (remove_outbound (remove_inbound (np_negotiation np) peer) peer) in
          let failed := if out_closed outbound then [] else [NpOpenFailure peer NeRejected] in
          Done (np_set np peer (NpClosed (pending_open outbound)), failed)
      | Some (NpClosed pending) =>
          debug_assert debug (pending = Some substream_id) (Done (np_set np peer (NpClosed None), []))
      | Some _ => debug_assert debug False (Done (np_set np peer (NpClosed None), []))
      end
  end.

(** [NotificationProtocol::on_close_substream] *)
Definition np_on_close_substream (np : NotificationProtocol) (peer : PeerId) :
    NotificationProtocol * list NpEffect :=
  match np_peers np !! peer with
  | Some (NpOpen shutdown) => (np_set np peer (NpClosed None), [NpShutdown shutdown])
  | _ => (np, [])
  end.

(** [NotificationProtocol::on_validation_result] *)
Definition np_on_validation_result (sv : ServiceAnswers) (np : NotificationProtocol) (peer : PeerId)
    (r : ValidationResult) : NotificationProtocol * list NpEffect * result NpError unit :=
  match np_peers np !! peer with
  | None => (np, [], Err NpPeerDoesntExist)
  | Some (NpValidating protocol fallback outbound (InValidating inbound) direction) =>
      let sending := np_negotiate np (send_handshake (np_negotiation np) peer inbound) in
      match r, outbound with
      | VReject, _ =>
          let np := np_negotiate np (remove_inbound (remove_outbound (np_negotiation np) peer) peer) in
          (np_set np peer (NpClosed (pending_open outbound)), [NpClose inbound], Ok tt)
      | VAccept, OutClosed =>
          match sv_open sv peer with
          | Ok substream =>
              (np_set (np_set_outbound sending (<[substream := peer]> (np_pending_outbound np))) peer
                 (NpValidating protocol fallback (OutInitiated substream) InSendingHandshake direction),
               [NpOpenSubstream peer], Ok tt)
          | Err _ =>
              (np_set np peer (NpClosed None),
               [NpOpenSubstream peer; NpClose inbound; NpOpenFailure peer NeRejected], Err NpServiceError)
          end
      | VAccept, _ =>
          (np_set sending peer (NpValidating protocol fallback outbound InSendingHandshake direction),
           [], Ok tt)
      end
  | Some (NpValidationPending CsOpen) =>
      (np_set np peer (NpClosed None),
       match r with VAccept => [NpOpenFailure peer NeRejected] | VReject => [] end, Ok tt)
  | Some (NpValidationPending CsClosed) =>
      (np_remove np peer,
       match r with VAccept => [NpOpenFailure peer NeNoConnection] | VReject => [] end, Ok tt)
  | Some _ => (np, [], Ok tt)
  end.

(** The end of [on_handshake_event]: when both substreams are open the stream is reported and its
    connection task started, otherwise a timer is set. *)
Definition np_check_open (np : NotificationProtocol) (peer : PeerId) (state : NpPeerState) :
    NotificationProtocol * list NpEffect :=
  match state with
  | NpValidating protocol fallback (OutOpen handshake outbound) (InOpen inbound) direction =>
      (np_set np peer (NpOpen inbound),
       [NpStreamOpened protocol fallback direction peer handshake;
        NpStartConnection peer inbound outbound])
  | _ => (np_set (np_set_timers np (np_timers np ++ [peer])) peer state, [])
  end.

(** [NotificationProtocol::on_handshake_event] *)
Definition np_on_handshake_event (np : NotificationProtocol) (event : HandshakeEvent) : step :=
  let peer := match event with HsNegotiated p _ _ _ | HsNegotiationError p _ => p end in
  match np_peers np !! peer with
  | None => debug_assert debug False (Done (np, []))
  | Some state =>
      match event with
      | HsNegotiated _ handshake substream HsOutbound =>
          let np := np_negotiate np (remove_outbound (np_negotiation np) peer) in
          match state with
          | NpValidating protocol fallback OutNegotiating inbound direction =>
              Done (np_check_open np peer
                      (NpValidating protocol fallback (OutOpen handshake substream) inbound direction))
          | _ => debug_assert debug False (Done (np_check_open np peer NpPoisoned))
          end
      | HsNegotiated _ handshake substream HsInbound =>
          let np := np_negotiate np (remove_inbound (np_negotiation np) peer) in
          match state with
          | NpValidating protocol fallback outbound InReadingHandshake direction =>
              if negb (out_closed outbound) && np_auto_accept np then
                let np := np_negotiate np (send_handshake (np_negotiation np) peer substream) in
                Done (np_set np peer
                        (NpValidating protocol fallback outbound InSendingHandshake direction), [])
              else
                let np := np_validations np (np_pending_validations np ++ [peer]) in
                let '(np, effects) := np_check_open np peer
                  (NpValidating protocol fallback outbound (InValidating substream) direction) in
                Done (np, NpValidateSubstream protocol fallback peer handshake :: effects)
          | NpValidating protocol fallback outbound InSendingHandshake direction =>
              Done (np_check_open np peer
                      (NpValidating protocol fallback outbound (InOpen substream) direction))
          | _ => debug_assert debug False (Done (np_check_open np peer NpPoisoned))
          end
      | HsNegotiationError _ _ =>
          let np := np_negotiate np (remove_inbound (remove_outbound (np_negotiation np) peer) peer) in
          match state with
          | NpValidating _ _ outbound _ _ =>
              let state := NpClosed (pending_open outbound) in
              if out_closed outbound then Done (np_check_open np peer state)
              else Done (np_set np peer state, [NpOpenFailure peer NeRejected])
          | _ => debug_assert debug False (Done (np_check_open np peer NpPoisoned))
          end
      end
  end.

(** [NotificationProtocol::on_dial_failure] *)
Definition np_on_dial_failure (np : NotificationProtocol) (peer : PeerId) :
    NotificationProtocol * list NpEffect :=
  match np_peers np !! peer with
  | Some NpDialing => (np_remove np peer, [NpOpenFailure peer NeDialFailure])
  | _ => (np, [])
  end.

(** The branches of [next_event] for a connection task that ended and for an expired timer. *)
Definition np_on_shutdown (np : NotificationProtocol) (peer : PeerId) : NotificationProtocol :=
  match np_peers np !! peer with
  | Some _ => np_set np peer (NpClosed None)
  | None => np
  end.

Definition np_on_timer (np : NotificationProtocol) (peer : PeerId) :
    NotificationProtocol * list NpEffect :=
  match np_peers np !! peer with
  | Some (NpValidating _ _ (OutOpen _ outbound) InClosed _) =>
      (np_set np peer (NpClosed None),
       [NpClose outbound; NpOpenFailure peer NeRejected; NpForceClose peer])
  | _ => (np, [])
  end.

(** ** The event loop *)

Inductive NotificationCommand :=
| NcOpenSubstream (peers : gset PeerId)
| NcCloseSubstream (peers : gset PeerId)
| NcForceClose (peer : PeerId).

(** The branches of [tokio::select!] below the handshake service, with what they received. *)
Inductive NpBranch :=
| BrShutdown (peer : option PeerId)
| BrTimer (peer : PeerId)
| BrService (event : option ServiceEvent)
| BrValidation (peer : PeerId) (r : ValidationResult)
| BrCommand (command : option NotificationCommand).

(** Remove one occurrence, as a completed future leaves a [FuturesUnordered]. *)
Fixpoint remove_one (p : PeerId) (l : list PeerId) : list PeerId :=
  match l with
  | [] => []
  | q :: l => if decide (p = q) then l else q :: remove_one p l
  end.

Definition np_on_service_event (sv : ServiceAnswers) (np : NotificationProtocol) (event : ServiceEvent) :
    step :=
  match event with
  | SvConnectionEstablished peer _ =>
      run (r, _) <- np_on_connection_established sv np peer ;; Done r
  | SvConnectionClosed peer => run (r, _) <- np_on_connection_closed np peer ;; Done r
  | SvSubstreamOpened peer protocol fallback Inbound substream =>
      run (r, _) <- np_on_inbound_substream np protocol fallback peer substream ;; Done r
  | SvSubstreamOpened peer protocol fallback (Outbound id) substream =>
      run (r, _) <- np_on_outbound_substream np protocol fallback peer id substream ;; Done r
  | SvSubstreamOpenFailure substream _ => np_on_substream_open_failure np substream
  | SvDialFailure peer _ => Done (np_on_dial_failure np peer)
  end.

Fixpoint np_open_all (sv : ServiceAnswers) (np : NotificationProtocol) (peers : list PeerId) :
    NotificationProtocol * list NpEffect :=
  match peers with
  | [] => (np, [])
  | p :: peers =>
      let '(np, effects, _) := np_on_open_substream sv np p in
      let '(np, rest) := np_open_all sv np peers in (np, effects ++ rest)
  end.

Fixpoint np_close_all (np : NotificationProtocol) (peers : list PeerId) :
    NotificationProtocol * list NpEffect :=
  match peers with
  | [] => (np, [])
  | p :: peers =>
      let '(np, effects) := np_on_close_substream np p in
      let '(np, rest) := np_close_all np peers in (np, effects ++ rest)
  end.

(** One branch; the flag says that the protocol exits. *)
Definition np_branch `{HashOrder} (sv : ServiceAnswers) (np : NotificationProtocol) (b : NpBranch) :
    outcome (NotificationProtocol * list NpEffect * bool) :=
  match b with
  | BrShutdown None => Done (np, [], false)
  | BrShutdown (Some peer) => Done (np_on_shutdown np peer, [], false)
  | BrTimer peer =>
      Done (np_on_timer (np_set_timers np (remove_one peer (np_timers np))) peer, false)
  | BrService None => Done (np, [], true)
  | BrService (Some event) => run r <- np_on_service_event sv np event ;; Done (r, false)
  | BrValidation peer r =>
      let np := np_validations np (remove_one peer (np_pending_validations np)) in
      Done ((np_on_validation_result sv np peer r).1, false)
  | BrCommand None => Done (np, [NpUnregister], true)
  | BrCommand (Some (NcOpenSubstream peers)) => Done (np_open_all sv np (set_order peers), false)
  | BrCommand (Some (NcCloseSubstream peers)) => Done (np_close_all np (set_order peers), false)
  | BrCommand (Some (NcForceClose peer)) => Done (np, [NpForceClose peer], false)
  end.

(** The poll of the handshake service, if it has substreams. *)
Definition np_poll `{HashOrder} (answers : PeerId * HsDirection → HsAnswers)
    (np : NotificationProtocol) : outcome (NotificationProtocol * option HandshakeEvent) :=
  if hs_is_empty (np_negotiation np) then Done (np, None)
  else
    run (s, r) <- hs_poll_next answers (np_negotiation np) ;;
    Done (np_negotiate np s, match r with Ready event => Some event | Pending => None end).

(** [NotificationProtocol::next_event]: the handshake service is polled first; when it has
    nothing to report, one of the other branches runs. [None]: no branch is ready. *)
Definition np_next_event `{HashOrder} (sv : ServiceAnswers) (answers : PeerId * HsDirection → HsAnswers)
    (b : option NpBranch) (np : NotificationProtocol) :
    outcome (NotificationProtocol * list NpEffect * bool) :=
  run (np, event) <- np_poll answers np ;;
  match event, b with
  | Some event, _ => run r <- np_on_handshake_event np event ;; Done (r, false)
  | None, Some b => np_branch sv np b
  | None, None => Done (np, [], false)
  end.
End notification.
