(* ===== verification/NotificationFacts.v ===== *)
(** * The notification protocol: invariant and safety

    Against the contract of the transport service, the protocol keeps the states of its peers in
    step with the connections, the substreams that are opening and the handshakes in progress,
    and none of its assertions fails. *)

From stdpp Require Import base tactics option list gmap strings.
From Stdlib Require Import NArith Lia Init.Byte.
From S2P Require Import Prelude Multiaddr ProtocolTypes HandshakeService Notification.

Local Open Scope litep2p_scope.

(** ** The handshake service as a map of handles *)

Lemma handles_delete s k : handles (hs_set s (delete k (hs_substreams s))) = delete k (handles s).
Proof. unfold handles. cbn. by rewrite fmap_delete. Qed.
Lemma handles_remove_outbound s p : handles (remove_outbound s p) = delete (p, HsOutbound) (handles s).
Proof. apply handles_delete. Qed.
Lemma handles_remove_inbound s p : handles (remove_inbound s p) = delete (p, HsInbound) (handles s).
Proof. apply handles_delete. Qed.
Lemma handles_negotiate_outbound s p sub :
  handles (negotiate_outbound s p sub) = <[(p, HsOutbound) := sub]> (handles s).
Proof. unfold handles. cbn. by rewrite fmap_insert. Qed.
Lemma handles_read_handshake s p sub :
  handles (read_handshake s p sub) = <[(p, HsInbound) := sub]> (handles s).
Proof. unfold handles. cbn. by rewrite fmap_insert. Qed.
Lemma handles_send_handshake s p sub :
  handles (send_handshake s p sub) = <[(p, HsInbound) := sub]> (handles s).
Proof. unfold handles. cbn. by rewrite fmap_insert. Qed.

#[local] Arguments handles : simpl never.
#[local] Arguments remove_outbound : simpl never.
#[local] Arguments remove_inbound : simpl never.
#[local] Arguments negotiate_outbound : simpl never.
#[local] Arguments read_handshake : simpl never.
#[local] Arguments send_handshake : simpl never.

Create HintDb handles.
#[export] Hint Rewrite handles_remove_outbound handles_remove_inbound handles_negotiate_outbound
  handles_read_handshake handles_send_handshake : handles.

(** ** The invariant *)

(** The outbound substream a peer is waiting for. *)
Definition waiting_for (st : option NpPeerState) : option SubstreamId :=
  match st with
  | Some (NpClosed id) => id
  | Some (NpOutboundInitiated id) => Some id
  | Some (NpValidating _ _ o _ _) => pending_open o
  | _ => None
  end.

(** The state of a peer agrees with its connection and with the handshakes in progress. *)
Definition status_ok (st : option NpPeerState) (conn : Prop) (out inn : option Substream) : Prop :=
  match st with
  | None | Some NpDialing | Some (NpValidationPending CsClosed) => ¬ conn ∧ out = None ∧ inn = None
  | Some (NpValidationPending CsOpen) | Some (NpClosed _) | Some (NpOutboundInitiated _)
  | Some (NpOpen _) => conn ∧ out = None ∧ inn = None
  | Some (NpValidating _ _ o i _) =>
      conn ∧ match o with OutNegotiating => is_Some out | _ => out = None end ∧
      match i with InReadingHandshake | InSendingHandshake => is_Some inn | _ => inn = None end
  | Some NpPoisoned => False
  end.

Lemma status_ok_iff st conn conn' out inn : (conn ↔ conn') →
  status_ok st conn out inn → status_ok st conn' out inn.
Proof. intros Hc. destruct st as [[|[]| | | | |]|]; cbn; tauto. Qed.

Definition peer_ok (np : NotificationProtocol) (c : Contract) (p : PeerId) : Prop :=
  status_ok (np_peers np !! p) (p ∈ connected c)
    (handles (np_negotiation np) !! (p, HsOutbound)) (handles (np_negotiation np) !! (p, HsInbound)) ∧
  (∀ id, opening c !! id = Some p →
     np_pending_outbound np !! id = Some p ∧ waiting_for (np_peers np !! p) = Some id) ∧
  (∀ id, waiting_for (np_peers np !! p) = Some id →
     id ∈ used c ∧ ∀ q, opening c !! id = Some q → q = p).

Definition np_inv (np : NotificationProtocol) (c : Contract) : Prop :=
  contract_wf c ∧ ∀ p, peer_ok np c p.

Lemma np_inv_init h aa sd : np_inv (NotificationProtocol_new h aa sd) Contract_init.
Proof.
  split; [apply contract_wf_init|]. intros p. unfold peer_ok, handles. cbn.
  rewrite fmap_empty, !lookup_empty. cbn. setoid_rewrite lookup_empty. split_and!; [set_solver|done..].
Qed.

(** A handler touches one peer: the others keep their states, handshakes and substreams. *)
Definition only_peer (p : PeerId) (np np' : NotificationProtocol) (c c' : Contract) : Prop :=
  (∀ q, q ≠ p → np_peers np' !! q = np_peers np !! q) ∧
  (∀ q d, q ≠ p → handles (np_negotiation np') !! (q, d) = handles (np_negotiation np) !! (q, d)) ∧
  (∀ q, q ≠ p → q ∈ connected c' ↔ q ∈ connected c) ∧
  (∀ id q, q ≠ p → opening c' !! id = Some q → np_pending_outbound np !! id = Some q →
     np_pending_outbound np' !! id = Some q) ∧
  (∀ id q, opening c' !! id = Some q → opening c !! id = Some q ∨ q = p ∧ id ∉ used c) ∧
  used c ⊆ used c'.

Lemma np_inv_update p np np' c c' : np_inv np c → contract_wf c' → only_peer p np np' c c' →
  peer_ok np' c' p → np_inv np' c'.
Proof.
  intros [Hwf Hall] Hwf' (Hpeers & Hneg & Hconn & Hpend & Hopen & Hused) Hp. split; [done|].
  intros q. destruct (decide (q = p)) as [->|Hne]; [done|].
  destruct (Hall q) as (Hst & Hop & Hwait). unfold peer_ok.
  rewrite Hpeers, !Hneg by done. split_and!.
  - eapply status_ok_iff; [|done]. by rewrite (Hconn q Hne).
  - intros id Hid. destruct (Hopen id q Hid) as [Ho|[? _]]; [|done].
    destruct (Hop id Ho). split; [|done]. by apply (Hpend id q).
  - intros id Hid. destruct (Hwait id Hid) as [Hu Hq]. split; [set_solver|].
    intros q' Hq'. destruct (Hopen id q' Hq') as [?|[-> Hnot]]; [by apply Hq|done].
Qed.

(** Lookups in the state after a handler. *)
Ltac np_lookup := cbn; autorewrite with handles; simplify_map_eq; try done.

Section handlers.
Context (sv : ServiceAnswers).
Implicit Types (np : NotificationProtocol) (c : Contract) (p : PeerId).

(** A state in which only the state of [p] changes. *)
Lemma np_inv_set np c p st : np_inv np c →
  status_ok (Some st) (p ∈ connected c)
    (handles (np_negotiation np) !! (p, HsOutbound)) (handles (np_negotiation np) !! (p, HsInbound)) →
  waiting_for (Some st) = waiting_for (np_peers np !! p) →
  np_inv (np_set np p st) c.
Proof.
  intros Hinv Hst Hw. pose proof Hinv as [Hwf Hall]. apply (np_inv_update p np _ c c Hinv Hwf).
  - split_and!; intros; np_lookup; by left.
  - destruct (Hall p) as (_ & Hop & Hwait). unfold peer_ok. cbn. rewrite lookup_insert_eq, Hw. done.
Qed.

(** A new outbound substream is opening. *)
Lemma np_inv_open np np' c p id st : np_inv np c → p ∈ connected c → id ∉ used c →
  waiting_for (np_peers np !! p) = None → waiting_for (Some st) = Some id →
  np_peers np' = <[p := st]> (np_peers np) →
  np_pending_outbound np' = <[id := p]> (np_pending_outbound np) →
  (∀ q d, q ≠ p → handles (np_negotiation np') !! (q, d) = handles (np_negotiation np) !! (q, d)) →
  status_ok (Some st) (p ∈ connected c)
    (handles (np_negotiation np') !! (p, HsOutbound)) (handles (np_negotiation np') !! (p, HsInbound)) →
  np_inv np' (mkContract (connected c) (<[id := p]> (opening c)) ({[id]} ∪ used c)).
Proof.
  intros Hinv Hp Hid Hw Hw' Hpeers Hpend Hneg Hst. pose proof Hinv as [Hwf Hall].
  assert (opening c !! id = None) as Hnone.
  { destruct (opening c !! id) eqn:E; [|done]. by destruct (Hwf _ _ E). }
  apply (np_inv_update p np _ c _ Hinv).
  - apply (opens_wf p c (Ok id)); [done|by constructor].
  - split_and!; cbn; [|done..| | |set_solver].
    + intros q Hq. by rewrite Hpeers, lookup_insert_ne.
    + intros i q Hq Hi Hpi. rewrite Hpend. rewrite lookup_insert_ne; [done|]. intros ->.
      rewrite lookup_insert_eq in Hi. congruence.
    + intros i q [[<- <-]|[_ Hi]]%lookup_insert_Some; by auto.
  - destruct (Hall p) as (_ & Hop & _). unfold peer_ok. cbn. rewrite Hpeers, lookup_insert_eq, Hw', Hpend.
    split_and!; [done| |].
    + intros i [[-> _]|[Hne Hi]]%lookup_insert_Some; [by rewrite lookup_insert_eq|].
      destruct (Hop i Hi). congruence.
    + intros i [= <-]. split; [set_solver|]. intros q. rewrite lookup_insert_eq. congruence.
Qed.

Lemma np_on_open_substream_inv np c p np' eff r c' : np_inv np c →
  np_on_open_substream sv np p = (np', eff, r) → calls sv c eff c' → np_inv np' c'.
Proof.
  intros Hinv Heq Hc. pose proof Hinv as [Hwf Hall]. destruct (Hall p) as (Hst & Hop & Hwait).
  unfold np_on_open_substream in Heq.
  destruct (np_peers np !! p) as [[|cs|[id|]| |id|proto fb o i d|sh]|] eqn:Ep;
    repeat case_match; simplify_eq; inv_calls; try done.
  - apply (np_inv_update p np _ c' c' Hinv Hwf).
    + split_and!; intros; np_lookup; [|by left]. rewrite lookup_insert_ne; [done|]. intros ->.
      destruct (Hwait _ eq_refl) as [_ Hq]. naive_solver.
    + unfold peer_ok. cbn. rewrite !lookup_insert_eq. split_and!; [apply Hst..| |done].
      intros i Hi. destruct (Hop i Hi) as [_ [= <-]]. by rewrite lookup_insert_eq.
  - apply (np_inv_open np _ c p a (NpOutboundInitiated a)); try done; by rewrite Ep.
  - apply np_inv_set; [done..|by rewrite Ep].
  - apply np_inv_set; [done..|by rewrite Ep].
Qed.
(** The parts of [only_peer] that hold by computation. *)
Ltac np_frame :=
  unfold only_peer; split_and!; cbn; intros; autorewrite with handles; simplify_map_eq;
  try done; auto; try (rewrite ?lookup_delete_ne, ?lookup_insert_ne by congruence; done);
  try match goal with H : ?q ≠ _ |- ?q ∈ _ ↔ _ => clear -H; set_solver end.

Ltac np_cases Hst Hop Hwait np p Ep :=
  destruct (np_peers np !! p) as [[|[]|[w|]| |w|pr f o i d|sh]|] eqn:Ep; cbn in Hst, Hop, Hwait.

Lemma debug_assert_true {A} debug (P : Prop) `{Decision P} (m : outcome A) : P → debug_assert debug P m = m.
Proof. intros HP. unfold debug_assert. destruct debug; [by rewrite decide_True|done]. Qed.

Lemma np_on_connection_established_inv debug np c p : np_inv np c → p ∉ connected c →
  ∃ np' eff r, np_on_connection_established debug sv np p = Done (np', eff, r) ∧
  ∀ c', calls sv (mkContract ({[p]} ∪ connected c) (opening c) (used c)) eff c' → np_inv np' c'.
Proof.
  intros Hinv Hp. set (c1 := mkContract _ _ _). pose proof Hinv as [Hwf Hall].
  destruct (Hall p) as (Hst & Hop & Hwait).
  assert (contract_wf c1) as Hwf1 by (apply (delivers_wf c (SvConnectionEstablished p (Listener [] 0))); [done|by constructor]).
  assert (∀ st, status_ok (Some st) True None None → waiting_for (Some st) = None →
    handles (np_negotiation np) !! (p, HsOutbound) = None → handles (np_negotiation np) !! (p, HsInbound) = None →
    waiting_for (np_peers np !! p) = None → np_inv (np_set np p st) c1) as Hset.
  { intros st Hs Hw Ho Hi Hw0. apply (np_inv_update p np _ c c1 Hinv Hwf1); [np_frame|].
    unfold peer_ok. cbn. rewrite lookup_insert_eq, Ho, Hi, Hw. split_and!; [| |done].
    - eapply status_ok_iff; [|done]. clear. set_solver.
    - intros id Hid. destruct (Hop id Hid). congruence. }
  unfold np_on_connection_established.
  np_cases Hst Hop Hwait np p Ep; try tauto; destruct Hst as (_ & Ho & Hi).
  - rewrite debug_assert_true by done. eexists _, _, _. split; [done|]. intros c' Hc. inv_calls. by apply Hset.
  - destruct (np_on_open_substream sv _ p) as [[np' eff] r] eqn:E. eexists _, _, _. split; [done|].
    intros c' Hc. eapply np_on_open_substream_inv; [|done..]. by apply Hset.
  - eexists _, _, _. split; [done|]. intros c' Hc. inv_calls. by apply Hset.
Qed.

Lemma np_on_connection_closed_inv debug np c p : np_inv np c → p ∈ connected c →
  (∀ id, opening c !! id ≠ Some p) →
  ∃ np' eff r, np_on_connection_closed debug np p = Done (np', eff, r) ∧
  ∀ c', calls sv (mkContract (connected c ∖ {[p]}) (opening c) (used c)) eff c' → np_inv np' c'.
Proof.
  intros Hinv Hp Hno. set (c1 := mkContract _ _ _). pose proof Hinv as [Hwf Hall].
  destruct (Hall p) as (Hst & Hop & Hwait).
  assert (contract_wf c1) as Hwf1 by (apply (delivers_wf c (SvConnectionClosed p)); [done|by constructor]).
  set (np1 := np_negotiate (np_remove (np_set_outbound np (filter (λ '(_, p0), p0 ≠ p)
    (np_pending_outbound np))) p) (remove_inbound (remove_outbound (np_negotiation np) p) p)).
  assert (np_inv np1 c1) as Hrem.
  { apply (np_inv_update p np _ c c1 Hinv Hwf1).
    - np_frame. by apply map_lookup_filter_Some.
    - unfold peer_ok. cbn. autorewrite with handles. simplify_map_eq. split_and!; try done; [set_solver|].
      intros id Hid. by destruct (Hno id). }
  assert (np_inv (np_set np1 p (NpValidationPending CsClosed)) c1) as Hset.
  { apply np_inv_set; [done| |]; cbn; autorewrite with handles; simplify_map_eq; set_solver. }
  unfold np_on_connection_closed. cbn [np_peers np_set_outbound].
  np_cases Hst Hop Hwait np p Ep; try tauto.
  all: try (eexists _, _, _; split; [done|]; intros c' Hc; inv_calls; done).
  destruct o, i; eexists _, _, _; (split; [done|]); intros c' Hc; inv_calls; done.
Qed.
(** The result of an outbound substream arrived; the peer may still remember it. *)
Lemma np_inv_resolved np np' c p id st : np_inv np c → opening c !! id = Some p →
  (∀ i, waiting_for (Some st) = Some i → i = id) →
  np_peers np' = <[p := st]> (np_peers np) →
  np_pending_outbound np' = delete id (np_pending_outbound np) →
  (∀ q d, q ≠ p → handles (np_negotiation np') !! (q, d) = handles (np_negotiation np) !! (q, d)) →
  status_ok (Some st) (p ∈ connected c)
    (handles (np_negotiation np') !! (p, HsOutbound)) (handles (np_negotiation np') !! (p, HsInbound)) →
  np_inv np' (mkContract (connected c) (delete id (opening c)) (used c)).
Proof.
  intros Hinv Hid Hw Hpeers Hpend Hneg Hst. pose proof Hinv as [Hwf Hall].
  destruct (Hall p) as (_ & Hop & Hwait). destruct (Hop id Hid) as [Hpid Hwid].
  apply (np_inv_update p np _ c _ Hinv).
  - by apply contract_wf_delete.
  - split_and!; cbn; [|done..| | |done].
    + intros q Hq. by rewrite Hpeers, lookup_insert_ne.
    + intros i q Hq [Hne Hi]%lookup_delete_Some Hpi. by rewrite Hpend, lookup_delete_ne.
    + intros i q [_ Hi]%lookup_delete_Some. by left.
  - unfold peer_ok. cbn. rewrite Hpeers, lookup_insert_eq. split_and!; [done| |].
    + intros i [Hne Hi]%lookup_delete_Some. destruct (Hop i Hi). congruence.
    + intros i ->%Hw. destruct (Hwait id Hwid) as [Hu _]. split; [done|]. intros q.
      by rewrite lookup_delete_eq.
Qed.

Lemma np_on_outbound_substream_inv debug np c proto fb p id sub : np_inv np c →
  opening c !! id = Some p →
  ∃ np' eff r, np_on_outbound_substream debug np proto fb p id sub = Done (np', eff, r) ∧
  ∀ c', calls sv (mkContract (connected c) (delete id (opening c)) (used c)) eff c' → np_inv np' c'.
Proof.
  intros Hinv Hid. pose proof Hinv as [Hwf Hall]. destruct (Hall p) as (Hst & Hop & Hwait).
  destruct (Hop id Hid) as [Hpid Hwid]. unfold np_on_outbound_substream.
  np_cases Hst Hop Hwait np p Ep; try done; simplify_eq/=.
  - rewrite decide_True by done. eexists _, _, _. split; [done|]. intros c' Hc. inv_calls.
    by apply (np_inv_resolved np _ c p id (NpClosed None)).
  - rewrite !debug_assert_true by done. eexists _, _, _. split; [done|]. intros c' Hc. inv_calls.
    apply (np_inv_resolved np _ c p id (NpValidating proto fb OutNegotiating InClosed NpOutbound)); try done;
      np_lookup; [|naive_solver]. intros q d Hq. by rewrite lookup_insert_ne by congruence.
  - destruct o as [|id'| |]; try done. simplify_eq/=.
    set (np1 := np_set _ p (NpValidating pr f OutNegotiating i d)).
    assert (np_inv np1 (mkContract (connected c) (delete id (opening c)) (used c))) as Hnext.
    { apply (np_inv_resolved np _ c p id (NpValidating pr f OutNegotiating i d)); try done;
        np_lookup; [|naive_solver]. intros q d' Hq. by rewrite lookup_insert_ne by congruence. }
    destruct i; rewrite ?debug_assert_true by done; eexists _, _, _; (split; [done|]); intros c' Hc;
      inv_calls; done.
Qed.

Lemma np_on_inbound_substream_inv debug np c proto fb p sub : np_inv np c → p ∈ connected c →
  ∃ np' eff r, np_on_inbound_substream debug np proto fb p sub = Done (np', eff, r) ∧
  ∀ c', calls sv c eff c' → np_inv np' c'.
Proof.
  intros Hinv Hp. pose proof Hinv as [Hwf Hall]. destruct (Hall p) as (Hst & Hop & Hwait).
  assert (∀ st, waiting_for (Some st) = waiting_for (np_peers np !! p) →
    status_ok (Some st) (p ∈ connected c) (handles (np_negotiation np) !! (p, HsOutbound)) (Some sub) →
    np_inv (np_set (np_negotiate np (read_handshake (np_negotiation np) p sub)) p st) c) as Hread.
  { intros st Hw Hs. apply (np_inv_update p np _ c c Hinv Hwf); [np_frame|].
    unfold peer_ok. cbn. autorewrite with handles. simplify_map_eq. by rewrite Hw. }
  unfold np_on_inbound_substream. np_cases Hst Hop Hwait np p Ep; try tauto.
  all: try (eexists _, _, _; split; [done|]; intros c' Hc; inv_calls; done).
  - eexists _, _, _. split; [done|]. intros c' Hc. inv_calls. apply Hread; [done|]. cbn. naive_solver.
  - eexists _, _, _. split; [done|]. intros c' Hc. inv_calls. apply Hread; [done|]. cbn. naive_solver.
  - destruct o, i; eexists _, _, _; (split; [done|]); intros c' Hc; inv_calls; try done;
      first [apply np_inv_set; [done| |by rewrite Ep]|apply Hread; [done|]]; cbn in *; naive_solver.
Qed.
Lemma np_on_substream_open_failure_inv debug np c id p : np_inv np c → opening c !! id = Some p →
  ∃ np' eff, np_on_substream_open_failure debug np id = Done (np', eff) ∧
  ∀ c', calls sv (mkContract (connected c) (delete id (opening c)) (used c)) eff c' → np_inv np' c'.
Proof.
  intros Hinv Hid. pose proof Hinv as [Hwf Hall]. destruct (Hall p) as (Hst & Hop & Hwait).
  destruct (Hop id Hid) as [Hpid Hwid]. unfold np_on_substream_open_failure. rewrite Hpid.
  cbn [np_peers np_set_outbound]. np_cases Hst Hop Hwait np p Ep; try done; simplify_eq/=.
  - rewrite debug_assert_true by done. eexists _, _. split; [done|]. intros c' Hc. inv_calls.
    by apply (np_inv_resolved np _ c p id (NpClosed None)).
  - eexists _, _. split; [done|]. intros c' Hc. inv_calls.
    by apply (np_inv_resolved np _ c p id (NpClosed None)).
  - destruct o as [|w| |]; try done. simplify_eq/=. eexists _, _. split; [done|]. intros c' Hc. inv_calls.
    apply (np_inv_resolved np _ c p id (NpClosed (Some id))); np_lookup; [naive_solver| |naive_solver].
    intros q d' Hq. by rewrite !lookup_delete_ne by congruence.
Qed.

(** The peer gives up its handshakes. *)
Lemma np_inv_forget np c p st : np_inv np c → waiting_for (Some st) = waiting_for (np_peers np !! p) →
  status_ok (Some st) (p ∈ connected c) None None →
  np_inv (np_set (np_negotiate np (remove_inbound (remove_outbound (np_negotiation np) p) p)) p st) c.
Proof.
  intros Hinv Hw Hs. pose proof Hinv as [Hwf Hall]. destruct (Hall p) as (_ & Hop & Hwait).
  apply (np_inv_update p np _ c c Hinv Hwf); [np_frame|].
  unfold peer_ok. cbn. autorewrite with handles. simplify_map_eq. by rewrite Hw.
Qed.

Lemma np_inv_validations np c l : np_inv np c → np_inv (np_validations np l) c.
Proof. done. Qed.
Lemma np_inv_timers np c l : np_inv np c → np_inv (np_set_timers np l) c.
Proof. done. Qed.

Lemma np_on_validation_result_inv np c p res np' eff r c' : np_inv np c →
  np_on_validation_result sv np p res = (np', eff, r) → calls sv c eff c' → np_inv np' c'.
Proof.
  intros Hinv Heq Hc. pose proof Hinv as [Hwf Hall]. destruct (Hall p) as (Hst & Hop & Hwait).
  assert (∀ st sub, waiting_for (Some st) = waiting_for (np_peers np !! p) →
    status_ok (Some st) (p ∈ connected c) (handles (np_negotiation np) !! (p, HsOutbound)) (Some sub) →
    np_inv (np_set (np_negotiate np (send_handshake (np_negotiation np) p sub)) p st) c) as Hsend.
  { intros st sub Hw Hs. apply (np_inv_update p np _ c c Hinv Hwf); [np_frame|].
    unfold peer_ok. cbn. autorewrite with handles. simplify_map_eq. by rewrite Hw. }
  unfold np_on_validation_result in Heq. np_cases Hst Hop Hwait np p Ep; simplify_eq; inv_calls; try done.
  - destruct res; inv_calls; apply np_inv_set; try done; by rewrite Ep.
  - assert (np_inv (np_remove np p) c) as Hrem.
    { apply (np_inv_update p np _ c c Hinv Hwf); [np_frame|]. unfold peer_ok. cbn. by simplify_map_eq. }
    destruct res; inv_calls; done.
  - destruct i as [| |sub| |]; simplify_eq; inv_calls; try done.
    destruct Hst as (Hconn & Hout & Hin). destruct res; [|simplify_eq; inv_calls; by apply np_inv_forget; [|rewrite Ep|]].
    destruct o as [|w| |h out].
    2-4: simplify_eq; inv_calls; apply Hsend; cbn; naive_solver.
    destruct (sv_open sv p) as [id|e] eqn:Eo; simplify_eq; inv_calls.
    + apply (np_inv_open np _ c p id (NpValidating pr f (OutInitiated id) InSendingHandshake d)); try done;
        np_lookup. intros q d' Hq. by rewrite lookup_insert_ne by congruence.
    + apply np_inv_set; [done|done|by rewrite Ep].
Qed.
(** The handshakes of one peer change, and its state with them. *)
Lemma np_inv_handshakes np c p s st : np_inv np c →
  (∀ q d, q ≠ p → handles s !! (q, d) = handles (np_negotiation np) !! (q, d)) →
  waiting_for (Some st) = waiting_for (np_peers np !! p) →
  status_ok (Some st) (p ∈ connected c) (handles s !! (p, HsOutbound)) (handles s !! (p, HsInbound)) →
  np_inv (np_set (np_negotiate np s) p st) c.
Proof.
  intros Hinv Hs Hw Hst. pose proof Hinv as [Hwf Hall]. destruct (Hall p) as (_ & Hop & Hwait).
  apply (np_inv_update p np _ c c Hinv Hwf); [np_frame; by apply Hs|].
  unfold peer_ok. cbn. rewrite lookup_insert_eq, Hw. done.
Qed.

(** The state a handshake event leads to, before the check whether the stream is open. *)
Lemma np_check_open_inv np c p st np' eff c' : np_inv (np_set np p st) c →
  np_check_open np p st = (np', eff) → calls sv c eff c' → np_inv np' c'.
Proof.
  intros Hinv Heq Hc. unfold np_check_open in Heq.
  destruct st as [| | | | |pr f [] [] d|]; simplify_eq; inv_calls; try done.
  assert (np_set np p (NpOpen inbound) = np_set (np_set np p
    (NpValidating pr f (OutOpen handshake outbound) (InOpen inbound) d)) p (NpOpen inbound)) as ->.
  { unfold np_set. cbn. by rewrite insert_insert_eq. }
  pose proof Hinv as [_ Hall]. destruct (Hall p) as (Hst & _ & _). cbn in Hst. rewrite lookup_insert_eq in Hst.
  apply np_inv_set; [done|done|]. cbn. by rewrite lookup_insert_eq.
Qed.

Lemma np_on_handshake_event_inv debug np c s e : np_inv np c →
  event_of (np_negotiation np) s (Ready e) →
  ∃ np' eff, np_on_handshake_event debug (np_negotiate np s) e = Done (np', eff) ∧
  ∀ c', calls sv c eff c' → np_inv np' c'.
Proof.
  intros Hinv Hev. pose proof Hinv as [Hwf Hall].
  assert (∀ p st s', (∀ q d, q ≠ p → handles s' !! (q, d) = handles (np_negotiation np) !! (q, d)) →
    waiting_for (Some st) = waiting_for (np_peers np !! p) →
    status_ok (Some st) (p ∈ connected c) (handles s' !! (p, HsOutbound)) (handles s' !! (p, HsInbound)) →
    ∀ l, ∃ np' eff, Done (np_check_open (np_validations (np_negotiate np s') l) p st) = Done (np', eff) ∧
      ∀ c', calls sv c eff c' → np_inv np' c') as Hcheck.
  { intros p st s' Hs Hw Hst l. destruct (np_check_open _ p st) as [np' eff] eqn:E.
    eexists _, _. split; [done|]. intros c' Hc. eapply np_check_open_inv; [|done..].
    by apply (np_inv_handshakes np c p s'). }
  destruct e as [p h sub d|p d]; cbn in Hev; destruct Hev as [Hk Hs]; unfold np_on_handshake_event;
    cbn [np_peers np_negotiate]; destruct (Hall p) as (Hst & Hop & Hwait).
  - assert (∀ s' q d', q ≠ p → handles s' = delete (p, d) (handles s) →
      handles s' !! (q, d') = handles (np_negotiation np) !! (q, d')) as Hoth.
    { intros s' q d' Hq ->. rewrite Hs. by rewrite !lookup_delete_ne by congruence. }
    destruct (np_peers np !! p) as [[|[]| | | |pr f o i dir|]|] eqn:Ep; cbn in Hst; try done;
      try (by destruct Hst as (_ & Ho & Hi); destruct d; congruence).
    destruct Hst as (Hconn & Ho & Hi). destruct d.
    + destruct o; try congruence. apply (Hcheck p _ (remove_outbound s p)); [|by rewrite Ep|].
      * intros q d' Hq. apply Hoth; [done|]. apply handles_remove_outbound.
      * rewrite handles_remove_outbound, Hs. cbn. by simplify_map_eq.
    + destruct i; try congruence.
      * match goal with |- context [if ?b then _ else _] => destruct b end.
        -- eexists _, _. split; [done|]. intros c' Hc. inv_calls.
           apply (np_inv_handshakes np c' p (send_handshake (remove_inbound s p) p sub)); [done| |by rewrite Ep|].
           ++ intros q d' Hq. rewrite handles_send_handshake, handles_remove_inbound, Hs.
              by rewrite lookup_insert_ne, !lookup_delete_ne by congruence.
           ++ rewrite handles_send_handshake, handles_remove_inbound, Hs. cbn. by simplify_map_eq.
        -- destruct (Hcheck p (NpValidating pr f o (InValidating sub) dir) (remove_inbound s p))
             with (l := np_pending_validations np ++ [p]) as (np' & eff & E & Hinv').
           ++ intros q d' Hq. apply Hoth; [done|]. apply handles_remove_inbound.
           ++ by rewrite Ep.
           ++ rewrite handles_remove_inbound, Hs. cbn. by simplify_map_eq.
           ++ apply (f_equal (λ r, match r with Done x => x | Panic => (np, []) end)) in E.
              cbn beta iota in E. cbn [np_pending_validations np_negotiate np_negotiation].
              change (np_negotiate (np_negotiate np s) ?t) with (np_negotiate np t). rewrite E.
              eexists _, _. split; [done|].
              intros c' Hc. inv_calls. by apply Hinv'.
      * apply (Hcheck p _ (remove_inbound s p)); [|by rewrite Ep|].
        -- intros q d' Hq. apply Hoth; [done|]. apply handles_remove_inbound.
        -- rewrite handles_remove_inbound, Hs. cbn. by simplify_map_eq.
  - destruct Hk as [sub Hk].
    assert (∀ st, waiting_for (Some st) = waiting_for (np_peers np !! p) → status_ok (Some st) (p ∈ connected c) None None →
      np_inv (np_set (np_negotiate np (remove_inbound (remove_outbound s p) p)) p st) c) as Hset.
    { intros st Hw Hstat. apply (np_inv_handshakes np c p _ st); [done| |done|].
      - intros q d' Hq. autorewrite with handles. by rewrite !lookup_delete_ne, Hs by congruence.
      - autorewrite with handles. by simplify_map_eq. }
    destruct (np_peers np !! p) as [[|[]| | | |pr f o i dir|]|] eqn:Ep; cbn in Hst; try done;
      try (by destruct Hst as (_ & Ho & Hi); destruct d; congruence).
    destruct Hst as (Hconn & _ & _). destruct (out_closed o).
    + apply (Hcheck p (NpClosed (pending_open o)) (remove_inbound (remove_outbound s p) p)); [|by rewrite Ep|].
      * intros q d' Hq. autorewrite with handles. by rewrite !lookup_delete_ne, Hs by congruence.
      * autorewrite with handles. by simplify_map_eq.
    + eexists _, _. split; [done|]. intros c' Hc. inv_calls. by apply Hset.
Qed.

(** A connection task reports its end while its peer is still in the state it left it in. *)
Definition shutdown_on_time (np : NotificationProtocol) (p : PeerId) : Prop :=
  match np_peers np !! p with
  | None | Some (NpOpen _) | Some (NpClosed None) => True
  | _ => False
  end.

Lemma np_on_shutdown_inv np c p : np_inv np c → shutdown_on_time np p → np_inv (np_on_shutdown np p) c.
Proof.
  intros Hinv Hp. pose proof Hinv as [_ Hall]. destruct (Hall p) as (Hst & _ & _).
  unfold np_on_shutdown, shutdown_on_time in *.
  destruct (np_peers np !! p) as [[| |[]| | | |]|] eqn:Ep; try done; apply np_inv_set; try done; by rewrite Ep.
Qed.

Lemma np_on_close_substream_inv np c p np' eff : np_inv np c →
  np_on_close_substream np p = (np', eff) → np_inv np' c ∧ ∀ c', calls sv c eff c' → c' = c.
Proof.
  intros Hinv Heq. pose proof Hinv as [_ Hall]. destruct (Hall p) as (Hst & _ & _).
  unfold np_on_close_substream in Heq. destruct (np_peers np !! p) as [[]|] eqn:Ep; simplify_eq;
    (split; [|intros c' Hc; by inv_calls]); try done.
  apply np_inv_set; [done..|by rewrite Ep].
Qed.

Lemma np_on_dial_failure_inv np c p np' eff c' : np_inv np c →
  np_on_dial_failure np p = (np', eff) → calls sv c eff c' → np_inv np' c'.
Proof.
  intros Hinv Heq Hc. pose proof Hinv as [Hwf Hall]. destruct (Hall p) as (Hst & Hop & _).
  unfold np_on_dial_failure in Heq. destruct (np_peers np !! p) as [[]|] eqn:Ep; simplify_eq; inv_calls; try done.
  apply (np_inv_update p np _ c' c' Hinv Hwf); [np_frame|]. unfold peer_ok. cbn. rewrite lookup_delete_eq.
  by split_and!.
Qed.

Lemma np_on_timer_inv np c p np' eff c' : np_inv np c →
  np_on_timer np p = (np', eff) → calls sv c eff c' → np_inv np' c'.
Proof.
  intros Hinv Heq Hc. pose proof Hinv as [_ Hall]. destruct (Hall p) as (Hst & _ & _).
  unfold np_on_timer in Heq.
  destruct (np_peers np !! p) as [[| | | | |pr f [] [] d|]|] eqn:Ep; simplify_eq; inv_calls; try done.
  apply np_inv_set; [done..|by rewrite Ep].
Qed.
End handlers.

(** ** Runs *)

(** The branches that may run in a state: what the service delivers follows its contract, timers
    and validations are those that are pending, connection tasks report their end on time. *)
Inductive admissible (np : NotificationProtocol) (c : Contract) : NpBranch → Contract → Prop :=
| A_shutdown p : shutdown_on_time np p → admissible np c (BrShutdown (Some p)) c
| A_no_shutdown : admissible np c (BrShutdown None) c
| A_timer p : p ∈ np_timers np → admissible np c (BrTimer p) c
| A_service e c' : delivers c e c' → admissible np c (BrService (Some e)) c'
| A_service_exit : admissible np c (BrService None) c
| A_validation p r : p ∈ np_pending_validations np → admissible np c (BrValidation p r) c
| A_command cmd : admissible np c (BrCommand cmd) c.

(** A turn of the event loop, with the branch that ran and its effects. *)
Inductive np_turn `{HashOrder} (debug : bool) : NotificationProtocol * Contract →
    option NpBranch → list NpEffect → NotificationProtocol * Contract → Prop :=
| St_handshake np c sv answers np1 e np' eff c' :
    np_poll answers np = Done (np1, Some e) → np_on_handshake_event debug np1 e = Done (np', eff) →
    calls sv c eff c' → np_turn debug (np, c) None eff (np', c')
| St_branch np c sv answers np1 b c1 np' eff exit c' :
    np_poll answers np = Done (np1, None) → admissible np1 c b c1 →
    np_branch debug sv np1 b = Done (np', eff, exit) → calls sv c1 eff c' →
    np_turn debug (np, c) (Some b) eff (np', c')
| St_idle np c answers np1 :
    np_poll answers np = Done (np1, None) → np_turn debug (np, c) None [] (np1, c).

Definition np_step `{HashOrder} (debug : bool) (s s' : NotificationProtocol * Contract) : Prop :=
  ∃ b eff, np_turn debug s b eff s'.

Section runs.
Context `{HashOrder} (debug : bool).

Lemma np_poll_inv answers np : ∃ np1 e, np_poll answers np = Done (np1, e) ∧
  ∃ s, np1 = np_negotiate np s ∧
       event_of (np_negotiation np) s (match e with Some e => Ready e | None => Pending end).
Proof.
  unfold np_poll. destruct (hs_is_empty _).
  - eexists _, _. split; [done|]. exists (np_negotiation np). by destruct np.
  - destruct (hs_poll_next_event answers (np_negotiation np)) as (s & r & -> & _ & Hev).
    eexists _, _. split; [done|]. exists s. split; [done|]. by destruct r.
Qed.

Lemma np_inv_polled np c s : np_inv np c → handles s = handles (np_negotiation np) →
  np_inv (np_negotiate np s) c.
Proof. intros [Hwf Hall] Hs. split; [done|]. intros p. unfold peer_ok. cbn. rewrite Hs. apply Hall. Qed.

Lemma np_open_all_inv sv l : ∀ np c np' eff c', np_inv np c →
  np_open_all sv np l = (np', eff) → calls sv c eff c' → np_inv np' c'.
Proof.
  induction l as [|p l IH]; intros np c np' eff c' Hinv Heq Hc; cbn [np_open_all] in Heq.
  { simplify_eq. by inv_calls. }
  destruct (np_on_open_substream sv np p) as [[np1 eff1] r] eqn:E.
  destruct (np_open_all sv np1 l) as [np2 eff2] eqn:E2. simplify_eq.
  apply calls_app in Hc as (c1 & Hc1 & Hc2).
  eapply IH; [|done..]. by eapply np_on_open_substream_inv.
Qed.

Lemma np_close_all_inv sv l : ∀ np c np' eff c', np_inv np c →
  np_close_all np l = (np', eff) → calls sv c eff c' → np_inv np' c'.
Proof.
  induction l as [|p l IH]; intros np c np' eff c' Hinv Heq Hc; cbn [np_close_all] in Heq.
  { simplify_eq. by inv_calls. }
  destruct (np_on_close_substream np p) as [np1 eff1] eqn:E.
  destruct (np_close_all np1 l) as [np2 eff2] eqn:E2. simplify_eq.
  apply calls_app in Hc as (c1 & Hc1 & Hc2).
  destruct (np_on_close_substream_inv sv np c p np1 eff1 Hinv E) as [Hinv1 Hsame].
  rewrite (Hsame _ Hc1) in Hc2. by eapply IH.
Qed.

Lemma np_on_service_event_inv sv np c e c1 : np_inv np c → delivers c e c1 →
  ∃ np' eff, np_on_service_event debug sv np e = Done (np', eff) ∧
  ∀ c', calls sv c1 eff c' → np_inv np' c'.
Proof.
  intros Hinv Hd. destruct Hd; cbn [np_on_service_event].
  - destruct (np_on_connection_established_inv sv debug np c p) as (np' & eff & r & -> & ?); eauto.
  - destruct (np_on_connection_closed_inv sv debug np c p) as (np' & eff & r & -> & ?); eauto.
  - destruct (np_on_dial_failure np p) as [np' eff] eqn:E. eexists _, _. split; [done|].
    intros c' Hc. by eapply np_on_dial_failure_inv.
  - destruct (np_on_inbound_substream_inv sv debug np c proto fb p s) as (np' & eff & r & -> & ?); eauto.
  - destruct (np_on_outbound_substream_inv sv debug np c proto fb p id s) as (np' & eff & r & -> & ?); eauto.
  - destruct (np_on_substream_open_failure_inv sv debug np c id p) as (np' & eff & -> & ?); eauto.
Qed.

Lemma np_branch_inv sv np c b c1 : np_inv np c → admissible np c b c1 →
  ∃ np' eff exit, np_branch debug sv np b = Done (np', eff, exit) ∧
  ∀ c', calls sv c1 eff c' → np_inv np' c'.
Proof.
  intros Hinv Ha. destruct Ha as [p Hp| |p Hp|e c' Hd| |p r Hp|cmd]; cbn [np_branch].
  - eexists _, _, _. split; [done|]. intros c' Hc. inv_calls. by apply np_on_shutdown_inv.
  - eexists _, _, _. split; [done|]. intros c' Hc. by inv_calls.
  - destruct (np_on_timer _ p) as [np' eff] eqn:E. eexists _, _, _. split; [done|]. intros c' Hc.
    eapply np_on_timer_inv; [|done..]. by apply np_inv_timers.
  - destruct (np_on_service_event_inv sv np c e c') as (np' & eff & -> & ?); [done..|]. eauto.
  - eexists _, _, _. split; [done|]. intros c' Hc. by inv_calls.
  - destruct (np_on_validation_result sv _ p r) as [[np' eff] r'] eqn:E. eexists _, _, _. split; [done|].
    intros c' Hc. eapply np_on_validation_result_inv; [|done..]. by apply np_inv_validations.
  - destruct cmd as [[peers|peers|p]|].
    + destruct (np_open_all sv np _) as [np' eff] eqn:E. eexists _, _, _. split; [done|].
      intros c' Hc. by eapply np_open_all_inv.
    + destruct (np_close_all np _) as [np' eff] eqn:E. eexists _, _, _. split; [done|].
      intros c' Hc. by eapply np_close_all_inv.
    + eexists _, _, _. split; [done|]. intros c' Hc. by inv_calls.
    + eexists _, _, _. split; [done|]. intros c' Hc. by inv_calls.
Qed.

Lemma np_step_inv s s' : np_step debug s s' → np_inv s.1 s.2 → np_inv s'.1 s'.2.
Proof.
  intros (b0 & eff0 & Hs) Hinv. destruct Hs as [np c sv answers np1 e np' eff c' Hpoll Heq Hc
    |np c sv answers np1 b c1 np' eff exit c' Hpoll Ha Heq Hc|np c answers np1 Hpoll]; cbn in *;
    destruct (np_poll_inv answers np) as (np1' & e' & Hpoll' & s & -> & Hev); rewrite Hpoll in Hpoll'; simplify_eq.
  - destruct (np_on_handshake_event_inv sv debug np c s e Hinv Hev) as (np2 & eff2 & Heq2 & Hinv2).
    rewrite Heq in Heq2. simplify_eq. by apply Hinv2.
  - destruct (np_branch_inv sv (np_negotiate np s) c b c1) as (np2 & eff2 & ex & Heq2 & Hinv2);
      [by apply np_inv_polled|done|]. rewrite Heq in Heq2. simplify_eq. by apply Hinv2.
  - by apply np_inv_polled.
Qed.

(** The notification protocol is safe against its environment: however handshakes, user commands,
    validations, timers and the events the transport service may deliver interleave, every
    reachable state agrees with the connections, the opening substreams and the handshakes in
    progress, no peer is poisoned, and no assertion of the next event can fail, as long as
    connection tasks report their end on time. *)
Theorem notification_safe h auto_accept should_dial np c :
  rtc (np_step debug) (NotificationProtocol_new h auto_accept should_dial, Contract_init) (np, c) →
  np_inv np c ∧
  ∀ sv answers b,
    (∀ np1, np_poll answers np = Done (np1, None) → ∃ c1, admissible np1 c b c1) →
    np_next_event debug sv answers (Some b) np ≠ Panic.
Proof.
  intros Hrun. assert (np_inv np c) as Hinv.
  { apply (rtc_invariant (np_step debug) (λ s, np_inv s.1 s.2) np_step_inv _ _ Hrun), np_inv_init. }
  split; [done|]. intros sv answers b Hb. unfold np_next_event.
  destruct (np_poll_inv answers np) as (np1 & e & Hpoll & s & -> & Hev). rewrite Hpoll. cbn [outcome_bind].
  destruct e as [e|].
  - destruct (np_on_handshake_event_inv sv debug np c s e Hinv Hev) as (np2 & eff2 & -> & _). done.
  - destruct (Hb _ Hpoll) as [c1 Ha].
    destruct (np_branch_inv sv (np_negotiate np s) c b c1) as (np2 & eff2 & ex & -> & _);
      [by apply np_inv_polled|done|done].
Qed.
End runs.
