(* ===== verification/NotificationRuns.v ===== *)
(** * The notification protocol: what the user is told

    Accounts of the events the user gets for the requests it makes, on every run of the event
    loop, and runs in which the protocol goes wrong. *)

From stdpp Require Import base tactics option list gmap strings.
From Stdlib Require Import NArith Lia Init.Byte.
From S2P Require Import Prelude Multiaddr TransportManagerHandle ProtocolTypes HandshakeService Notification NotificationFacts.

Local Open Scope litep2p_scope.

(** What the event loop receives in one turn. *)
Record NpInput := mkNpInput {
  in_service : ServiceAnswers;
  in_answers : PeerId * HsDirection → HsAnswers;
  in_branch : option NpBranch;
}.

(** Turns of the event loop, and the effects of all of them. *)
Fixpoint np_run `{HashOrder} (debug : bool) (np : NotificationProtocol) (inputs : list NpInput) :
    outcome (NotificationProtocol * list NpEffect) :=
  match inputs with
  | [] => Done (np, [])
  | i :: inputs =>
      run (np, effects, _) <- np_next_event debug (in_service i) (in_answers i) (in_branch i) np ;;
      run (np, rest) <- np_run debug np inputs ;;
      Done (np, effects ++ rest)
  end.

(** ** Requests and answers *)

(** The user is told that the stream with [p] is open, or that it could not be opened. *)
Definition is_answer (p : PeerId) (e : NpEffect) : bool :=
  match e with
  | NpStreamOpened _ _ _ q _ | NpOpenFailure q _ => bool_decide (q = p)
  | _ => false
  end.
Definition is_opened (p : PeerId) (e : NpEffect) : bool :=
  match e with NpStreamOpened _ _ _ q _ => bool_decide (q = p) | _ => false end.

(** The user asks for a stream with [p], or accepts one. *)
Definition asks (p : PeerId) (b : option NpBranch) : nat :=
  match b with
  | Some (BrCommand (Some (NcOpenSubstream peers))) => if decide (p ∈ peers) then 1 else 0
  | _ => 0
  end.
Definition accepts (p : PeerId) (b : option NpBranch) : nat :=
  match b with
  | Some (BrValidation q VAccept) => if decide (q = p) then 1 else 0
  | _ => 0
  end.

Definition total (f : option NpBranch → nat) (inputs : list NpInput) : nat :=
  sum_list (f ∘ in_branch <$> inputs).

(** A request of the user that has no answer yet. *)
Definition in_progress (st : option NpPeerState) : nat :=
  match st with
  | Some NpDialing | Some (NpOutboundInitiated _) => 1
  | Some (NpValidating _ _ o _ _) => if out_closed o then 0 else 1
  | _ => 0
  end.

(** An inbound substream that the user accepted and that is not reported open yet. *)
Definition accepted (st : option NpPeerState) : nat :=
  match st with
  | Some (NpValidating _ _ _ (InSendingHandshake | InOpen _) _) => 1
  | _ => 0
  end.

(** An inbound substream is accepted only when the outbound one is at least requested. *)
Definition paired (st : option NpPeerState) : Prop :=
  match st with
  | Some (NpValidating _ _ OutClosed (InSendingHandshake | InOpen _) _) => False
  | _ => True
  end.

(** What a handler tells the user is paid for. *)
Definition paid (np np' : NotificationProtocol) (effects : list NpEffect)
    (asked accept : PeerId → nat) : Prop :=
  np_auto_accept np' = np_auto_accept np ∧ ∀ p,
  paired (np_peers np !! p) →
  paired (np_peers np' !! p) ∧
  count (is_answer p) effects + in_progress (np_peers np' !! p) ≤
    in_progress (np_peers np !! p) + asked p + accept p ∧
  (np_auto_accept np = false →
   count (is_opened p) effects + accepted (np_peers np' !! p) ≤
     accepted (np_peers np !! p) + accept p).

Definition just (p : PeerId) (q : PeerId) : nat := if decide (q = p) then 1 else 0.
Definition none (q : PeerId) : nat := 0.

Lemma paid_refl np asked accept : paid np np [] asked accept.
Proof. split; [done|]. intros p Hp. cbn. split_and!; [done|lia..]. Qed.

(** Check the accounts of a handler of [p] branch by branch. *)
Ltac settle p Ep :=
  split; [done|]; let q := fresh "q" in intros q; unfold just, none;
  destruct (decide (q = p)) as [->|]; cbn;
  rewrite ?lookup_insert_eq, ?lookup_delete_eq, ?lookup_insert_ne, ?lookup_delete_ne, ?Ep by done; cbn;
  intros ?; (split; [try done|]);
  repeat case_bool_decide; try congruence; repeat case_match; simplify_eq/=; try done; try lia.

Lemma np_on_open_substream_paid sv np p np' eff r :
  np_on_open_substream sv np p = (np', eff, r) → paid np np' eff (just p) none.
Proof.
  unfold np_on_open_substream. intros Heq.
  destruct (np_peers np !! p) as [[|cs|[id|]| |id|pr f o i d|sh]|] eqn:Ep; repeat case_match; simplify_eq;
    settle p Ep.
Qed.

Lemma np_on_connection_established_paid debug sv np p np' eff r :
  np_on_connection_established debug sv np p = Done (np', eff, r) → paid np np' eff none none.
Proof.
  unfold np_on_connection_established, debug_assert. intros Heq.
  destruct (np_peers np !! p) as [[|cs|id| |id|pr f o i d|sh]|] eqn:Ep.
  4: { injection Heq as Heq. unfold np_on_open_substream in Heq. cbn in Heq. rewrite lookup_insert_eq in Heq.
       repeat case_match; simplify_eq; settle p Ep. }
  all: repeat case_match; simplify_eq; settle p Ep.
Qed.

Lemma np_on_connection_closed_paid debug np p np' eff r :
  np_on_connection_closed debug np p = Done (np', eff, r) → paid np np' eff none none.
Proof.
  unfold np_on_connection_closed, debug_assert. intros Heq. cbn in Heq.
  destruct (np_peers np !! p) as [[|cs|id| |id|pr f o i d|sh]|] eqn:Ep;
    try destruct o, i; repeat case_match; simplify_eq; settle p Ep.
Qed.

Lemma np_on_outbound_substream_paid debug np pr f p id sub np' eff r :
  np_on_outbound_substream debug np pr f p id sub = Done (np', eff, r) → paid np np' eff none none.
Proof.
  unfold np_on_outbound_substream, debug_assert. intros Heq.
  destruct (np_peers np !! p) as [[|cs|id'| |id'|pr' f' o i d|sh]|] eqn:Ep;
    try destruct o, i; repeat case_match; simplify_eq; settle p Ep.
Qed.

Lemma np_on_inbound_substream_paid debug np pr f p sub np' eff r :
  np_on_inbound_substream debug np pr f p sub = Done (np', eff, r) → paid np np' eff none none.
Proof.
  unfold np_on_inbound_substream, debug_assert. intros Heq.
  destruct (np_peers np !! p) as [[|cs|[id'|]| |id'|pr' f' o i d|sh]|] eqn:Ep;
    try destruct o, i; repeat case_match; simplify_eq; settle p Ep.
Qed.

Lemma np_on_substream_open_failure_paid debug np id np' eff :
  np_on_substream_open_failure debug np id = Done (np', eff) → paid np np' eff none none.
Proof.
  unfold np_on_substream_open_failure, debug_assert. intros Heq.
  destruct (np_pending_outbound np !! id) as [p|]; [|case_match; simplify_eq; apply paid_refl].
  cbn in Heq. destruct (np_peers np !! p) as [[|cs|id'| |id'|pr f o i d|sh]|] eqn:Ep;
    try destruct o; repeat case_match; simplify_eq; settle p Ep.
Qed.

Lemma np_on_close_substream_paid np p np' eff :
  np_on_close_substream np p = (np', eff) → paid np np' eff none none.
Proof.
  unfold np_on_close_substream. intros Heq.
  destruct (np_peers np !! p) as [[]|] eqn:Ep; simplify_eq; settle p Ep.
Qed.

Lemma np_on_dial_failure_paid np p np' eff :
  np_on_dial_failure np p = (np', eff) → paid np np' eff none none.
Proof.
  unfold np_on_dial_failure. intros Heq.
  destruct (np_peers np !! p) as [[]|] eqn:Ep; simplify_eq; settle p Ep.
Qed.

Lemma np_on_timer_paid np p np' eff :
  np_on_timer np p = (np', eff) → paid np np' eff none none.
Proof.
  unfold np_on_timer. intros Heq.
  destruct (np_peers np !! p) as [[| | | | |pr f [] [] d|]|] eqn:Ep; simplify_eq; settle p Ep.
Qed.

Lemma np_on_shutdown_paid np p : paid np (np_on_shutdown np p) [] none none.
Proof.
  unfold np_on_shutdown. destruct (np_peers np !! p) as [st|] eqn:Ep; [|apply paid_refl]. settle p Ep.
Qed.

Lemma np_on_validation_result_paid sv np p res np' eff r :
  np_on_validation_result sv np p res = (np', eff, r) →
  paid np np' eff none (if decide (res = VAccept) then just p else none).
Proof.
  unfold np_on_validation_result. intros Heq.
  destruct (np_peers np !! p) as [[|[]|id'| |id'|pr f o i d|sh]|] eqn:Ep; destruct res;
    try destruct o, i; repeat case_match; simplify_eq; try discriminate; settle p Ep.
Qed.

Lemma np_on_handshake_event_paid debug np e np' eff :
  np_on_handshake_event debug np e = Done (np', eff) → paid np np' eff none none.
Proof.
  unfold np_on_handshake_event, debug_assert. intros Heq.
  destruct e as [p h sub []|p dir]; cbn in Heq;
    destruct (np_peers np !! p) as [[|cs|id'| |id'|pr f o i d|sh]|] eqn:Ep;
    try destruct o, i; try destruct (np_auto_accept np) eqn:Ea; cbn in Heq; repeat case_match; simplify_eq; settle p Ep.
  all: split; [lia|congruence].
Qed.

Lemma paid_trans np np1 np2 e1 e2 a1 a2 b1 b2 : paid np np1 e1 a1 b1 → paid np1 np2 e2 a2 b2 →
  paid np np2 (e1 ++ e2) (λ p, a1 p + a2 p) (λ p, b1 p + b2 p).
Proof.
  intros [Ha1 H1] [Ha2 H2]. split; [congruence|]. intros p Hp. rewrite !count_app.
  destruct (H1 p Hp) as (Hp1 & ? & Ho1). destruct (H2 p Hp1) as (Hp2 & ? & Ho2). split_and!; [done|lia|].
  intros Hf. specialize (Ho1 Hf). rewrite Ha1 in Ho2. specialize (Ho2 Hf). lia.
Qed.

Lemma paid_weaken np np' e a a' b b' : paid np np' e a b → (∀ p, a p ≤ a' p) → (∀ p, b p ≤ b' p) →
  paid np np' e a' b'.
Proof.
  intros [Hauto Hp] Ha Hb. split; [done|]. intros p Hpair. destruct (Hp p Hpair) as (? & ? & Ho).
  specialize (Ha p). specialize (Hb p). split_and!; [done|lia|]. intros Hf. specialize (Ho Hf). lia.
Qed.

Lemma np_open_all_paid sv l : ∀ np np' eff, NoDup l → np_open_all sv np l = (np', eff) →
  paid np np' eff (λ p, if decide (p ∈ l) then 1 else 0) none.
Proof.
  induction l as [|p l IH]; intros np np' eff Hnd Heq; cbn [np_open_all] in Heq.
  { simplify_eq. apply paid_refl. }
  destruct (np_on_open_substream sv np p) as [[np1 e1] r] eqn:E1.
  destruct (np_open_all sv np1 l) as [np2 e2] eqn:E2. simplify_eq. apply NoDup_cons in Hnd as [Hp Hnd].
  eapply paid_weaken; [eapply paid_trans; [by eapply np_on_open_substream_paid|by apply IH]| |done].
  intros q. unfold just. cbn. repeat case_decide; subst; try lia; exfalso; set_solver.
Qed.

Lemma np_close_all_paid l : ∀ np np' eff, np_close_all np l = (np', eff) → paid np np' eff none none.
Proof.
  induction l as [|p l IH]; intros np np' eff Heq; cbn [np_close_all] in Heq.
  { simplify_eq. apply paid_refl. }
  destruct (np_on_close_substream np p) as [np1 e1] eqn:E1.
  destruct (np_close_all np1 l) as [np2 e2] eqn:E2. simplify_eq.
  eapply paid_weaken; [eapply paid_trans; [by eapply np_on_close_substream_paid|by apply IH]|done..].
Qed.

Lemma np_on_service_event_paid debug sv np e np' eff :
  np_on_service_event debug sv np e = Done (np', eff) → paid np np' eff none none.
Proof.
  intros Heq. destruct e as [p ep|p|p l|p pr f [|id] s|id err]; cbn in Heq.
  - destruct (np_on_connection_established debug sv np p) as [[[??]?]|] eqn:E; simplify_eq/=.
    by eapply np_on_connection_established_paid.
  - destruct (np_on_connection_closed debug np p) as [[[??]?]|] eqn:E; simplify_eq/=.
    by eapply np_on_connection_closed_paid.
  - simplify_eq. by eapply np_on_dial_failure_paid.
  - destruct (np_on_inbound_substream debug np pr f p s) as [[[??]?]|] eqn:E; simplify_eq/=.
    by eapply np_on_inbound_substream_paid.
  - destruct (np_on_outbound_substream debug np pr f p id s) as [[[??]?]|] eqn:E; simplify_eq/=.
    by eapply np_on_outbound_substream_paid.
  - by eapply np_on_substream_open_failure_paid.
Qed.

Section accounts.
Context `{HashOrder} (debug : bool).

Lemma np_branch_paid sv np b np' eff exit :
  np_branch debug sv np b = Done (np', eff, exit) →
  paid np np' eff (λ p, asks p (Some b)) (λ p, accepts p (Some b)).
Proof.
  intros Heq. destruct b as [[p|]|p|[e|]|p r|[[peers|peers|p]|]]; cbn [np_branch] in Heq; simplify_eq;
    try (split; [done|]; intros q Hq; cbn; split_and!; [done|lia..]).
  - apply np_on_shutdown_paid.
  - by apply (np_on_timer_paid (np_set_timers np (remove_one p (np_timers np))) p).
  - destruct (np_on_service_event debug sv np e) as [[np1 e1]|] eqn:E; simplify_eq/=.
    by eapply np_on_service_event_paid.
  - destruct (np_on_validation_result sv _ p r) as [[np1 e1] r1] eqn:E. simplify_eq/=.
    apply np_on_validation_result_paid in E. eapply paid_weaken; [apply E|done|].
    intros q. cbn. unfold just, none. destruct r; cbn; repeat case_decide; simplify_eq; lia.
  - apply np_open_all_paid in Heq; [|apply set_order_nodup]. eapply paid_weaken; [done| |done].
    intros q. cbn. repeat case_decide; try lia. by destruct (set_order_elem peers q); tauto.
  - eapply paid_weaken; [by eapply np_close_all_paid|done..].
Qed.

Lemma np_next_event_paid sv answers b np np' eff exit :
  np_next_event debug sv answers b np = Done (np', eff, exit) →
  paid np np' eff (λ p, asks p b) (λ p, accepts p b).
Proof.
  unfold np_next_event. destruct (np_poll answers np) as [[np1 e]|] eqn:Epoll; [|done]. cbn [outcome_bind].
  assert (∃ s, np1 = np_negotiate np s) as [s ->].
  { unfold np_poll in Epoll. destruct (hs_is_empty _); [simplify_eq; exists (np_negotiation np1); by destruct np1|].
    destruct (hs_poll_next _ _) as [[s r]|]; simplify_eq/=. by exists s. }
  assert (∀ np2 e2 a b, paid (np_negotiate np s) np2 e2 a b → paid np np2 e2 a b) as Hneg by done.
  intros Heq. apply Hneg. destruct e as [e|].
  - destruct (np_on_handshake_event debug _ e) as [[np2 e2]|] eqn:E; simplify_eq/=.
    eapply paid_weaken; [by eapply np_on_handshake_event_paid|intros; apply Nat.le_0_l..].
  - destruct b as [b|]; [by eapply np_branch_paid|]. simplify_eq. apply paid_refl.
Qed.

Lemma np_run_paid inputs : ∀ np np' eff, np_run debug np inputs = Done (np', eff) →
  paid np np' eff (λ p, total (asks p) inputs) (λ p, total (accepts p) inputs).
Proof.
  induction inputs as [|i inputs IH]; intros np np' eff Heq; cbn [np_run] in Heq.
  { simplify_eq. apply paid_refl. }
  destruct (np_next_event _ _ _ _ np) as [[[np1 e1] ex]|] eqn:E1; [|done]. cbn [outcome_bind] in Heq.
  destruct (np_run debug np1 inputs) as [[np2 e2]|] eqn:E2; [|done]. cbn [outcome_bind] in Heq. simplify_eq.
  eapply paid_weaken; [eapply paid_trans; [by eapply np_next_event_paid|by apply IH]|done..].
Qed.

(** C19. The user's books balance on every run of the event loop, whatever the other components do: a
    peer gets at most one answer (stream opened, or failure to open it) per request (a command
    to open a stream, or the acceptance of an inbound substream), requests in progress
    included; and without auto-accept a stream with a peer is opened at most once per
    inbound substream of that peer that the user accepted. *)
Theorem notification_answers h auto_accept should_dial inputs np effects p :
  np_run debug (NotificationProtocol_new h auto_accept should_dial) inputs = Done (np, effects) →
  count (is_answer p) effects + in_progress (np_peers np !! p) ≤
    total (asks p) inputs + total (accepts p) inputs ∧
  (auto_accept = false → count (is_opened p) effects ≤ total (accepts p) inputs).
Proof.
  intros Hrun. apply np_run_paid in Hrun as [_ Hpaid].
  destruct (Hpaid p) as (_ & Ha & Ho); [done|]. cbn in *. rewrite lookup_empty in Ha, Ho. cbn in *.
  split; [done|]. intros Hf. specialize (Ho Hf). lia.
Qed.
End accounts.

(** ** A failed substream blocks its peer *)

(** [p] waits for the result of an outbound substream that has already got it. *)
Definition blocked (np : NotificationProtocol) (c : Contract) (p : PeerId) (id : SubstreamId) : Prop :=
  waiting_for (np_peers np !! p) = Some id ∧ id ∈ used c ∧ opening c !! id = None.

(** Runs in which the connection to [p] stays up, and their effects. *)
Inductive np_turns `{HashOrder} (debug : bool) (p : PeerId) :
    NotificationProtocol * Contract → list NpEffect → NotificationProtocol * Contract → Prop :=
| T_refl s : np_turns debug p s [] s
| T_step s b e s1 l s2 : b ≠ Some (BrService (Some (SvConnectionClosed p))) →
    np_turn debug s b e s1 → np_turns debug p s1 l s2 → np_turns debug p s (e ++ l) s2.

(** A handler leaves [p] waiting for [id] and does not report its stream open. *)
Definition still_waiting (np np' : NotificationProtocol) (eff : list NpEffect) (p : PeerId) (id : SubstreamId) : Prop :=
  waiting_for (np_peers np !! p) = Some id →
  waiting_for (np_peers np' !! p) = Some id ∧ count (is_opened p) eff = 0.

(** A resolved identifier stays resolved. *)
Definition resolved (c : Contract) (id : SubstreamId) : Prop := id ∈ used c ∧ opening c !! id = None.

Lemma delivers_resolved c e c' id : delivers c e c' → resolved c id → resolved c' id.
Proof. intros Hd [Hu Ho]. destruct Hd; split; cbn; try done; by apply lookup_delete_None; right. Qed.

Lemma calls_resolved sv c l c' id : calls sv c l c' → resolved c id → resolved c' id.
Proof.
  induction 1 as [|c e p c1 l c2 _ Ho _ IH|c e l c2 _ _ IH]; [done| |done]. intros [Hu Hop]. apply IH.
  destruct Ho; [|done]. split; cbn; [set_solver|]. rewrite lookup_insert_ne; [done|]. by intros ->.
Qed.

(** The two cases of a handler of [q]: [p] is another peer, or it is in one of its states. *)
Ltac other_peer :=
  repeat (case_match; simplify_eq/=); simplify_eq/=; try done;
  cbn; rewrite ?lookup_insert_ne, ?lookup_delete_ne by done;
  rewrite ?bool_decide_eq_false_2 by done; done.

Section waiting.
Context (debug : bool) (sv : ServiceAnswers).

Lemma np_on_open_substream_waiting np q np' eff r p id :
  np_on_open_substream sv np q = (np', eff, r) → still_waiting np np' eff p id.
Proof.
  unfold np_on_open_substream. intros Heq Hw. destruct (decide (p = q)) as [->|Hne].
  - destruct (np_peers np !! q) as [[|cs|[i|]| |i|pr f o i d|sh]|] eqn:Ep; cbn in Hw; simplify_eq;
      cbn; rewrite ?lookup_insert_eq, ?Ep; done.
  - other_peer.
Qed.

Lemma np_open_all_waiting l p id : ∀ np np' eff, np_open_all sv np l = (np', eff) → still_waiting np np' eff p id.
Proof.
  induction l as [|q l IH]; intros np np' eff Heq Hw; cbn in Heq; [by simplify_eq|].
  destruct (np_on_open_substream sv np q) as [[np1 e1] r] eqn:E1.
  destruct (np_open_all sv np1 l) as [np2 e2] eqn:E2. simplify_eq.
  destruct (np_on_open_substream_waiting np q np1 e1 r p id E1 Hw) as [Hw1 Hc1].
  destruct (IH np1 np' e2 E2 Hw1) as [Hw2 Hc2]. split; [done|]. rewrite count_app. lia.
Qed.

Lemma np_on_close_substream_waiting np q np' eff p id :
  np_on_close_substream np q = (np', eff) → still_waiting np np' eff p id.
Proof.
  unfold np_on_close_substream. intros Heq Hw. destruct (decide (p = q)) as [->|Hne].
  - destruct (np_peers np !! q) as [[]|] eqn:Ep; cbn in Hw; simplify_eq; by rewrite Ep.
  - other_peer.
Qed.

Lemma np_close_all_waiting l p id : ∀ np np' eff, np_close_all np l = (np', eff) → still_waiting np np' eff p id.
Proof.
  induction l as [|q l IH]; intros np np' eff Heq Hw; cbn in Heq; [by simplify_eq|].
  destruct (np_on_close_substream np q) as [np1 e1] eqn:E1.
  destruct (np_close_all np1 l) as [np2 e2] eqn:E2. simplify_eq.
  destruct (np_on_close_substream_waiting np q np1 e1 p id E1 Hw) as [Hw1 Hc1].
  destruct (IH np1 np' e2 E2 Hw1) as [Hw2 Hc2]. split; [done|]. rewrite count_app. lia.
Qed.

Lemma np_on_validation_result_waiting np q res np' eff r p id :
  np_on_validation_result sv np q res = (np', eff, r) → still_waiting np np' eff p id.
Proof.
  unfold np_on_validation_result. intros Heq Hw. destruct (decide (p = q)) as [->|Hne].
  - destruct (np_peers np !! q) as [[|[]|i| |i|pr f [] [] d|sh]|] eqn:Ep; destruct res; cbn in Hw; simplify_eq;
      cbn; rewrite ?lookup_insert_eq, ?Ep; done.
  - other_peer.
Qed.

Lemma np_on_inbound_substream_waiting c np pr f q sub np' eff r p id : np_inv np c → q ∈ connected c →
  np_on_inbound_substream debug np pr f q sub = Done (np', eff, r) → still_waiting np np' eff p id.
Proof.
  unfold np_on_inbound_substream, debug_assert. intros [_ Hall] Hq Heq Hw. destruct (Hall q) as [Hst _].
  destruct (decide (p = q)) as [->|Hne].
  - destruct (np_peers np !! q) as [[|[]|[]| |i|pr' f' [] [] d|sh]|] eqn:Ep; cbn in Hw, Hst; simplify_eq;
      cbn; rewrite ?lookup_insert_eq, ?Ep; try done; tauto.
  - other_peer.
Qed.

Lemma np_on_service_event_waiting c np e c1 np' eff p id : np_inv np c → delivers c e c1 → resolved c id →
  e ≠ SvConnectionClosed p →
  np_on_service_event debug sv np e = Done (np', eff) → still_waiting np np' eff p id.
Proof.
  intros Hinv Hd Hres He Heq Hw. pose proof Hinv as [_ Hall]. destruct (Hall p) as (Hst & Hop & _).
  destruct Hd as [c q ep Hq|c q Hq Hno|c q l|c q pr f s Hq|c q pr f i s Hi|c i err q Hi]; cbn in Heq.
  - assert (p ≠ q) as Hne.
    { intros ->. destruct (np_peers np !! q) as [[|[]| | | | |]|]; cbn in Hw, Hst; try done; tauto. }
    unfold np_on_connection_established, debug_assert in Heq.
    destruct (np_peers np !! q) as [[| | | | | |]|] eqn:Ep.
    4: { cbn in Heq.
         destruct (np_on_open_substream sv _ q) as [[np1 e1] r1] eqn:E1. simplify_eq/=.
         eapply (np_on_open_substream_waiting _ q np' eff r1 p id); [done|]. cbn. by rewrite lookup_insert_ne. }
    all: other_peer.
  - assert (p ≠ q) as Hne by congruence. unfold np_on_connection_closed, debug_assert in Heq. cbn in Heq. other_peer.
  - unfold np_on_dial_failure in Heq. destruct (decide (p = q)) as [->|Hne]; [|other_peer].
    destruct (np_peers np !! q) as [[]|] eqn:Ep; cbn in Hw; simplify_eq; by rewrite Ep.
  - destruct (np_on_inbound_substream debug np pr f q s) as [[[np1 e1] r]|] eqn:E; simplify_eq/=.
    by eapply np_on_inbound_substream_waiting.
  - assert (p ≠ q) as Hne.
    { intros ->. destruct (Hop i Hi) as [_ Hi']. destruct Hres. congruence. }
    unfold np_on_outbound_substream, debug_assert in Heq. cbn in Heq.
    destruct (np_peers np !! q) as [[| | | | |? ? [] []|]|] eqn:Ep; other_peer.
  - assert (p ≠ q) as Hne.
    { intros ->. destruct (Hop i Hi) as [_ Hi']. destruct Hres. congruence. }
    destruct (Hall q) as (_ & Hopq & _). destruct (Hopq i Hi) as [Hpi _].
    unfold np_on_substream_open_failure, debug_assert in Heq. rewrite Hpi in Heq. cbn in Heq. other_peer.
Qed.

Lemma np_on_handshake_event_waiting c np s e np' eff p id : np_inv np c →
  event_of (np_negotiation np) s (Ready e) →
  np_on_handshake_event debug (np_negotiate np s) e = Done (np', eff) → still_waiting np np' eff p id.
Proof.
  intros [_ Hall] Hev Heq Hw. destruct (Hall p) as (Hst & _).
  unfold np_on_handshake_event, debug_assert, np_check_open in Heq.
  destruct e as [q h sub d|q d]; cbn in Hev, Heq; destruct Hev as [Hk _]; destruct (decide (p = q)) as [->|Hne].
  - destruct (np_peers np !! q) as [[|[]|i| |i|pr' f' o i dir|sh]|] eqn:Ep; cbn in Hw, Hst; simplify_eq.
    all: try (by destruct Hst as (_ & ? & ?), d; congruence).
    destruct o, d; simplify_eq/=; try (by destruct Hst as (_ & ? & ?); congruence).
    destruct i; try (by destruct Hst as (_ & ? & ?); congruence); destruct (np_auto_accept np); simplify_eq;
      cbn; rewrite ?lookup_insert_eq; done.
  - destruct (np_peers np !! q) as [[| | | | |? ? [] []|]|] eqn:Ep, d; other_peer.
  - destruct Hk as [sub Hk].
    destruct (np_peers np !! q) as [[|[]|i| |i|pr' f' o i dir|sh]|] eqn:Ep; cbn in Hw, Hst; simplify_eq.
    all: try (by destruct Hst as (_ & ? & ?), d; congruence).
    destruct o; simplify_eq/=. by rewrite lookup_insert_eq.
  - other_peer.
Qed.
End waiting.

Section blocked.
Context `{HashOrder} (debug : bool).

Lemma np_branch_waiting sv np c b c1 np' eff exit p id : np_inv np c → admissible np c b c1 → resolved c id →
  b ≠ BrService (Some (SvConnectionClosed p)) →
  np_branch debug sv np b = Done (np', eff, exit) → still_waiting np np' eff p id.
Proof.
  intros Hinv Ha Hres Hb Heq Hw. destruct Ha as [q Hq| |q Hq|e c' Hd| |q r Hq|cmd]; cbn in Heq; simplify_eq; try done.
  - unfold np_on_shutdown, shutdown_on_time in *.
    destruct (decide (p = q)) as [->|Hne]; [|by destruct (np_peers np !! q); cbn; rewrite ?lookup_insert_ne].
    by destruct (np_peers np !! q) as [[| |[]| | | |]|].
  - unfold np_on_timer in Heq. cbn in Heq. destruct (decide (p = q)) as [->|Hne].
    + destruct (np_peers np !! q) as [[| | | | |? ? [] []|]|] eqn:Ep; cbn in Hw; simplify_eq; cbn; by rewrite Ep.
    + destruct (np_peers np !! q) as [[| | | | |? ? [] []|]|] eqn:Ep; other_peer.
  - destruct (np_on_service_event debug sv np e) as [[np1 e1]|] eqn:E; simplify_eq/=.
    eapply np_on_service_event_waiting; [done..| |done|done]. congruence.
  - destruct (np_on_validation_result sv _ q r) as [[np1 e1] r1] eqn:E. simplify_eq/=.
    by eapply np_on_validation_result_waiting.
  - destruct cmd as [[peers|peers|q]|]; simplify_eq; try done.
    + by eapply np_open_all_waiting.
    + by eapply np_close_all_waiting.
Qed.

Lemma np_turn_blocked s b eff s' p id : np_inv s.1 s.2 → np_turn debug s b eff s' →
  b ≠ Some (BrService (Some (SvConnectionClosed p))) →
  blocked s.1 s.2 p id → blocked s'.1 s'.2 p id ∧ count (is_opened p) eff = 0.
Proof.
  intros Hinv Ht Hb (Hw & Hres). destruct Ht as [np c sv answers np1 e np' eff c' Hpoll Heq Hc
    |np c sv answers np1 b c1 np' eff exit c' Hpoll Ha Heq Hc|np c answers np1 Hpoll]; cbn in *;
    destruct (np_poll_inv answers np) as (np1' & e' & Hpoll' & s & -> & Hev); rewrite Hpoll in Hpoll'; simplify_eq.
  - destruct (np_on_handshake_event_waiting debug c np s e np' eff p id Hinv Hev Heq Hw) as [? ?].
    split; [|done]. split; [done|]. by eapply calls_resolved.
  - destruct (np_branch_waiting sv (np_negotiate np s) c b c1 np' eff exit p id) as [? ?]; try done;
      [by apply np_inv_polled|congruence|]. split; [|done]. split; [done|]. eapply calls_resolved; [done|].
    destruct Ha; try done. by eapply delivers_resolved.
  - done.
Qed.

(** A failed outbound substream can block its peer: when opening it fails while an inbound
    substream of the peer is negotiated, the peer is left waiting for the failed substream. From
    then on, as long as the connection is up, no stream with the peer is ever opened, and a
    command to open one gets no answer right away but waits for the dead substream. *)
Theorem failed_substream_blocks np c p id pr f i d :
  np_inv np c → opening c !! id = Some p →
  np_peers np !! p = Some (NpValidating pr f (OutInitiated id) i d) →
  ∃ np1, np_on_substream_open_failure debug np id = Done (np1, [NpOpenFailure p NeRejected]) ∧
  let c1 := mkContract (connected c) (delete id (opening c)) (used c) in
  (∀ s eff, np_turns debug p (np1, c1) eff s → count (is_opened p) eff = 0) ∧
  (∀ sv, ∃ np2, np_on_open_substream sv np1 p = (np2, [], Ok tt) ∧
     np_peers np2 !! p = Some (NpOutboundInitiated id)).
Proof.
  intros Hinv Hid Hp. pose proof Hinv as [Hwf Hall]. destruct (Hall p) as (_ & Hop & _).
  destruct (Hop id Hid) as [Hpend _]. set (sv0 := mkServiceAnswers (λ _, Err TaskClosed) (λ _, Err SeConnectionClosed)).
  destruct (np_on_substream_open_failure_inv sv0 debug np c id p Hinv Hid) as (np1 & eff1 & Heq & Hinv1).
  pose proof Heq as Heq'. unfold np_on_substream_open_failure in Heq. rewrite Hpend in Heq. cbn in Heq. rewrite Hp in Heq.
  cbn in Heq. injection Heq as <- <-. eexists. split; [done|]. cbn zeta. split.
  - set (s0 := (_, mkContract _ _ _)). intros s eff Hrun.
    assert (np_inv s0.1 s0.2) as Hi by (apply Hinv1; by repeat constructor).
    assert (blocked s0.1 s0.2 p id) as Hb.
    { split; cbn; [by rewrite lookup_insert_eq|]. split; [by eapply Hwf|]. by rewrite lookup_delete_eq. }
    clearbody s0. induction Hrun as [|s b e s1 l s2 Hne Ht _ IH]; [done|].
    destruct (np_turn_blocked s b e s1 p id Hi Ht Hne Hb) as [Hb1 Hc]. rewrite count_app, Hc. cbn.
    apply IH; [|done]. apply (np_step_inv debug s); [by eexists _, _|done].
  - intros sv. unfold np_on_open_substream. cbn. rewrite lookup_insert_eq. cbn. eexists. split; [done|]. cbn.
    by rewrite lookup_insert_eq.
Qed.
End blocked.

(** ** Runs that go wrong *)

Section examples.
#[local] Existing Instance canonical_order.

Definition np_peer : PeerId := mkPeerId (mkMultihash 0 [Byte.x01]).

(** A substream on which nothing happens, one that takes and returns a handshake, and one that the
    remote closed. *)
Definition io_waiting : HsAnswers := mkHsAnswers false Pending (λ _, Ok tt) Pending Pending.
Definition io_done (h : list byte) : HsAnswers :=
  mkHsAnswers false (Ready (Ok tt)) (λ _, Ok tt) (Ready (Ok tt)) (Ready (Some (Ok h))).
Definition io_eof : HsAnswers := mkHsAnswers false Pending (λ _, Ok tt) Pending (Ready None).

Definition sv_answer (id : SubstreamId) : ServiceAnswers := mkServiceAnswers (λ _, Ok tt) (λ _, Ok id).

(** Turns in which every substream waits, so that the branch runs, and turns in which the
    handshake service has something to report. *)
Definition turn (id : SubstreamId) (b : NpBranch) : NpInput :=
  mkNpInput (sv_answer id) (λ _, io_waiting) (Some b).
Definition poll_turn (inbound outbound : HsAnswers) : NpInput :=
  mkNpInput (sv_answer 0) (λ k, match k.2 with HsInbound => inbound | HsOutbound => outbound end) None.

Definition opened_event (d : Direction) (s : Substream) : NpBranch :=
  BrService (Some (SvSubstreamOpened np_peer "/notif/1" None d s)).

(** The remote's handshake arrives on the first outbound substream in the poll in which the inbound
    one turns out to be closed. The second outbound substream (12) gets no answer at all. *)
Definition stale_inputs : list NpInput :=
  [ turn 0 (BrService (Some (SvConnectionEstablished np_peer (Listener [] 0))));
    turn 0 (BrCommand (Some (NcOpenSubstream {[np_peer]})));
    turn 0 (opened_event (Outbound 0) 10);
    turn 0 (opened_event Inbound 11);
    poll_turn io_eof (io_done [Byte.xaa]);
    turn 1 (BrCommand (Some (NcOpenSubstream {[np_peer]})));
    turn 0 (opened_event (Outbound 1) 12);
    poll_turn io_waiting io_waiting;
    turn 0 (opened_event Inbound 13);
    poll_turn (io_done [Byte.xbb]) io_waiting;
    turn 0 (BrValidation np_peer VAccept);
    poll_turn (io_done []) io_waiting ].

(** A handshake can outlive its substream: when a substream of a peer completes its handshake in
    the poll in which the other one fails, the handshake stays queued and completes the next
    substream in the same direction. In this run a stream is reported open with the handshake
    of a substream that was given up, on an outbound substream that never accepted or
    returned a byte. *)
Theorem stale_handshake_opens_stream debug :
  ∃ np effects, np_run debug (NotificationProtocol_new [Byte.x00] false true) stale_inputs = Done (np, effects) ∧
  NpStreamOpened "/notif/1" None NpOutbound np_peer [Byte.xaa] ∈ effects ∧
  NpStartConnection np_peer 13 12 ∈ effects ∧
  Forall (λ i, in_answers i (np_peer, HsOutbound) = io_waiting) (drop 6 stale_inputs).
Proof.
  destruct debug; eexists _, _; (split; [vm_compute; reflexivity|]); (split; [|split]);
    try (repeat (left + right)); by repeat constructor.
Qed.

(** A stream is opened and closed by the user; before the connection task, which had seen the
    remote close its substream, gets to report its end, the remote opens a new substream. *)
Definition late_shutdown_inputs : list NpInput :=
  [ turn 0 (BrService (Some (SvConnectionEstablished np_peer (Listener [] 0))));
    turn 0 (opened_event Inbound 10);
    poll_turn (io_done [Byte.xaa]) io_waiting;
    turn 0 (BrValidation np_peer VAccept);
    poll_turn (io_done []) io_waiting;
    turn 0 (opened_event (Outbound 0) 11);
    poll_turn io_waiting (io_done [Byte.xaa]);
    turn 0 (BrCommand (Some (NcCloseSubstream {[np_peer]})));
    turn 0 (opened_event Inbound 12);
    turn 0 (BrShutdown (Some np_peer));
    poll_turn (io_done [Byte.xaa]) io_waiting ].

(** This run reaches the state of the theorem below. *)
Lemma late_shutdown_run :
  np_run true (NotificationProtocol_new [] false true) late_shutdown_inputs = Panic ∧
  ∃ np effects, np_run false (NotificationProtocol_new [] false true) late_shutdown_inputs = Done (np, effects) ∧
  np_peers np !! np_peer = Some NpPoisoned.
Proof. split; [vm_compute; reflexivity|]. eexists _, _. split; vm_compute; reflexivity. Qed.

(** The peer of an event of the handshake service. *)
Definition event_peer (e : HandshakeEvent) : PeerId :=
  match e with HsNegotiated p _ _ _ | HsNegotiationError p _ => p end.

(** The report of a connection task leaves the handshake service as it is. *)
Lemma np_poll_shutdown `{HashOrder} answers np p np1 r : np_poll answers np = Done (np1, r) →
  np_poll answers (np_on_shutdown np p) = Done (np_on_shutdown np1 p, r) ∧ np_peers np1 = np_peers np.
Proof.
  unfold np_poll, np_on_shutdown. destruct (np_peers np !! p) as [st|] eqn:E; cbn.
  all: destruct (hs_is_empty (np_negotiation np)); [intros [= <- <-]; by rewrite E|].
  all: destruct (hs_poll_next answers (np_negotiation np)) as [[s []]|]; cbn; try done;
    intros [= <- <-]; cbn; by rewrite E.
Qed.

(** An event of a closed peer. *)
Lemma closed_handshake_event np event id : np_peers np !! event_peer event = Some (NpClosed id) →
  np_on_handshake_event true np event = Panic ∧
  ∃ np', np_on_handshake_event false np event = Done (np', []) ∧
  np_peers np' !! event_peer event = Some NpPoisoned.
Proof.
  intros E. unfold np_on_handshake_event. destruct event as [p h s []|p e]; cbn [event_peer] in *; rewrite E;
    (split; [done|]); eexists; (split; [reflexivity|]); apply lookup_insert_eq.
Qed.

(** C37. The report of a connection task is applied to whatever state its peer is in. Take any
    state of the protocol in which the next poll of the handshake service has an event for a
    known peer, a handshake that completed or failed. If the report of an earlier connection
    task of that peer is taken first, then the turn with that poll panics in a build with debug
    assertions. In a build without them it poisons the peer without telling the user anything,
    and a request to open a stream to the peer then has no effect and no answer. *)
Theorem late_shutdown_poisons `{HashOrder} np p st sv answers b np1 event :
  np_peers np !! p = Some st → np_poll answers np = Done (np1, Some event) → event_peer event = p →
  np_next_event true sv answers b (np_on_shutdown np p) = Panic ∧
  ∃ np2, np_next_event false sv answers b (np_on_shutdown np p) = Done (np2, [], false) ∧
  np_peers np2 !! p = Some NpPoisoned ∧
  ∀ sv', np_on_open_substream sv' np2 p = (np2, [], Ok tt).
Proof.
  intros Hst [Hpoll Hpeers]%(np_poll_shutdown _ _ p) <-. unfold np_next_event. rewrite Hpoll. cbn.
  destruct (closed_handshake_event (np_on_shutdown np1 (event_peer event)) event None) as (-> & np2 & -> & Hp).
  - unfold np_on_shutdown. rewrite Hpeers, Hst. apply lookup_insert_eq.
  - split; [done|]. exists np2. split; [done|]. split; [done|]. intros sv'.
    unfold np_on_open_substream. by rewrite Hp.
Qed.

(** A run with two requests, two answers and one opened stream. *)
Lemma notification_answers_witness :
  ∃ np effects, np_run false (NotificationProtocol_new [Byte.x00] false true) stale_inputs = Done (np, effects) ∧
  count (is_answer np_peer) effects = 2 ∧ count (is_opened np_peer) effects ≤ total (accepts np_peer) stale_inputs.
Proof.
  destruct (np_run false (NotificationProtocol_new [Byte.x00] false true) stale_inputs) as [[np eff]|] eqn:E;
    [|vm_compute in E; discriminate].
  pose proof (notification_answers false [Byte.x00] false true stale_inputs np eff np_peer E) as [_ Ho].
  exists np, eff. split; [reflexivity|]. split; [|by apply Ho].
  vm_compute in E. injection E as <- <-. vm_compute. reflexivity.
Defined.

(** A peer whose outbound substream is opening while the handshake of its inbound one is read. *)
Definition crossing : NotificationProtocol :=
  mkNotificationProtocol
    {[np_peer := NpValidating "/notif/1" None (OutInitiated 0) InReadingHandshake NpOutbound]}
    {[0%N := np_peer]} (read_handshake (HandshakeService_new []) np_peer 1) [] [] false true.
Definition crossing_contract : Contract := mkContract {[np_peer]} {[0%N := np_peer]} {[0%N]}.

Lemma crossing_inv : np_inv crossing crossing_contract.
Proof.
  split.
  - intros id q Hq. cbn in *. apply lookup_singleton_Some in Hq as [<- <-]. set_solver.
  - intros q. unfold peer_ok. cbn [np_negotiation crossing]. rewrite handles_read_handshake.
    change (handles (HandshakeService_new [])) with (fst <$> (∅ : gmap (PeerId * HsDirection) (Substream * HsState))).
    rewrite fmap_empty. cbn [np_peers np_pending_outbound connected opening used crossing crossing_contract].
    destruct (decide (q = np_peer)) as [->|Hq].
    + rewrite lookup_insert_ne, lookup_insert_eq, lookup_empty by done. rewrite lookup_singleton_eq. cbn. split_and!.
      * set_solver.
      * done.
      * by eexists.
      * intros id [<- _]%lookup_singleton_Some. by rewrite lookup_singleton_eq.
      * intros id [= <-]. split; [set_solver|]. intros q [_ <-]%lookup_singleton_Some. done.
    + rewrite !lookup_insert_ne, lookup_empty by congruence. rewrite lookup_singleton_ne by done. cbn. split_and!.
      * set_solver.
      * done.
      * done.
      * intros id [_ <-]%lookup_singleton_Some. done.
      * done.
Qed.

Lemma failed_substream_blocks_witness :
  ∃ np1, np_on_substream_open_failure false crossing 0 = Done (np1, [NpOpenFailure np_peer NeRejected]) ∧
    ∃ np2, np_on_open_substream (sv_answer 1) np1 np_peer = (np2, [], Ok tt).
Proof.
  destruct (failed_substream_blocks false crossing crossing_contract np_peer 0 "/notif/1" None
    InReadingHandshake NpOutbound crossing_inv) as (np1 & Heq & _ & Hopen); [reflexivity..|].
  exists np1. split; [exact Heq|]. destruct (Hopen (sv_answer 1)) as (np2 & Hnp2 & _). by exists np2.
Defined.

(** The handshake of the inbound substream of [crossing] arrives after such a report. *)
Lemma late_shutdown_poisons_witness :
  np_next_event true (sv_answer 0) (λ _, io_done [Byte.xaa]) None (np_on_shutdown crossing np_peer) = Panic.
Proof.
  destruct (np_poll (λ _, io_done [Byte.xaa]) crossing) as [[np1 [event|]]|] eqn:E;
    [|vm_compute in E; discriminate..].
  apply (late_shutdown_poisons crossing np_peer
    (NpValidating "/notif/1" None (OutInitiated 0) InReadingHandshake NpOutbound) _ _ None np1 event); [done|done|].
  vm_compute in E. by injection E as _ <-.
Defined.

(** After a connection is established the peer is closed, and the next inbound substream is taken. *)
Lemma notification_safe_witness :
  np_next_event true (sv_answer 0) (λ _, io_waiting) (Some (opened_event Inbound 1))
    (np_set (NotificationProtocol_new [] false true) np_peer (NpClosed None)) ≠ Panic.
Proof.
  destruct (notification_safe true [] false true
    (np_set (NotificationProtocol_new [] false true) np_peer (NpClosed None))
    (mkContract {[np_peer]} ∅ ∅)) as [_ Hsafe].
  - apply rtc_once. eexists _, _. eapply (St_branch true _ _ (sv_answer 0) (λ _, io_waiting) _
      (BrService (Some (SvConnectionEstablished np_peer (Listener [] 0)))) (mkContract ({[np_peer]} ∪ ∅) ∅ ∅)).
    + reflexivity.
    + apply A_service, D_established. cbn. set_solver.
    + reflexivity.
    + replace ({[np_peer]} : gset PeerId) with ({[np_peer]} ∪ ∅ : gset PeerId) by set_solver. apply C_nil.
  - apply Hsafe. intros np1 Hpoll. exists (mkContract {[np_peer]} ∅ ∅). apply A_service, D_inbound. cbn. set_solver.
Defined.
End examples.
