(* ===== verification/NotificationService.v ===== *)
(** * Notifications over the transport service

    The notification protocol and the transport service it runs on, composed: the events the
    protocol handles are those the service's poll returns, and the substreams it opens are
    opened by the service. *)

From stdpp Require Import base tactics option list gmap strings relations.
From Stdlib Require Import NArith Lia Init.Byte.
From S2P Require Import Prelude Multiaddr AddressStore PeerState ConnectionLimits TransportManager.
From S2P Require Import TransportManagerHandle ProtocolTypes ProtocolSet TransportService TransportServiceFacts.
From S2P Require Import TransportServiceRuns HandshakeService Notification NotificationFacts.

Local Open Scope litep2p_scope.

(** The branches of the event loop other than the service. *)
Definition own_branch (np : NotificationProtocol) (b : NpBranch) : Prop :=
  match b with
  | BrShutdown (Some p) => shutdown_on_time np p
  | BrTimer p => p ∈ np_timers np
  | BrValidation p _ => p ∈ np_pending_validations np
  | BrService _ => False
  | BrShutdown None | BrCommand _ => True
  end.

Lemma own_branch_admissible np c b : own_branch np b → admissible np c b c.
Proof. destruct b as [[p|]|p|o|p r|cmd]; cbn; intros Hb; try done; by constructor. Qed.

Notation NsState := (NotificationProtocol * (TransportService * Links))%type.

(** A turn of the event loop, or a substream identifier that someone else takes. *)
Inductive ns_step `{HashOrder, SleepQueue} (debug : bool) : NsState → NsState → Prop :=
| N_handshake np s answers np1 e np' (eff : list NpEffect) now ch sv s' :
    np_poll answers np = Done (np1, Some e) → np_on_handshake_event debug np1 e = Done (np', eff) →
    serves now ch sv s eff s' → ns_step debug (np, s) (np', s')
| N_branch np s answers np1 b np' (eff : list NpEffect) exit now ch sv s' :
    np_poll answers np = Done (np1, None) → own_branch np1 b →
    np_branch debug sv np1 b = Done (np', eff, exit) → serves now ch sv s eff s' →
    ns_step debug (np, s) (np', s')
| N_service np ts l answers np1 now ch rx closed l' ts1 seen rest l1 o np' eff exit sv s' :
    np_poll answers np = Done (np1, None) → fed l rx l' →
    ts_poll_next debug now ch ts rx closed = Done (ts1, rest, Ready o) → rx = seen ++ rest → fed l seen l1 →
    np_branch debug sv np1 (BrService o) = Done (np', eff, exit) → serves now ch sv (ts1, l1) eff s' →
    ns_step debug (np, (ts, l)) (np', s')
| N_idle np ts l answers np1 now ch rx closed l' ts1 seen rest l1 :
    np_poll answers np = Done (np1, None) → fed l rx l' →
    ts_poll_next debug now ch ts rx closed = Done (ts1, rest, Prelude.Pending) → rx = seen ++ rest → fed l seen l1 →
    ns_step debug (np, (ts, l)) (np1, (ts1, l1))
| N_counter np ts l n :
    (ts_next_substream_id ts ≤ n ≤ usize_max)%N → ns_step debug (np, (ts, l)) (np, (ts_set_counter ts n, l)).

Section composition.
Context `{HashOrder, SleepQueue} (debug : bool).

Definition ns_inv (s : NsState) : Prop := ∃ c, np_inv s.1 c ∧ refines s.2.2 s.2.1 c.

Lemma ns_branch_inv np s c np1 b c1 np' eff exit now ch sv s' answers :
  np_inv np c → np_poll answers np = Done (np1, None) → admissible np1 c b c1 → refines s.2 s.1 c1 →
  np_branch debug sv np1 b = Done (np', eff, exit) → serves now ch sv s eff s' → ns_inv (np', s').
Proof.
  intros Hnp Hpoll Ha Hr Hb Hs. destruct (np_poll_inv answers np) as (np2 & e2 & Hpoll2 & h & -> & Hev).
  rewrite Hpoll in Hpoll2. simplify_eq.
  destruct (np_branch_inv debug sv (np_negotiate np h) c b c1) as (np3 & eff3 & ex3 & Heq3 & Hinv3);
    [by apply np_inv_polled|done|]. rewrite Hb in Heq3. simplify_eq.
  destruct (serves_calls now ch sv s eff3 s' c1 Hs Hr) as (c' & Hc & Hr'). exists c'. split; [by apply Hinv3|done].
Qed.

Lemma ns_step_inv s s' : ns_step debug s s' → ns_inv s → ns_inv s'.
Proof.
  intros Hs (c & Hnp & Hr). destruct Hs as [np s answers np1 e np' eff now ch sv s' Hpoll He Hsv
    |np s answers np1 b np' eff exit now ch sv s' Hpoll Hb Heq Hsv
    |np ts l answers np1 now ch rx closed l' ts1 seen rest l1 o np' eff exit sv s' Hpoll Hfed Hp Hrx Hseen Heq Hsv
    |np ts l answers np1 now ch rx closed l' ts1 seen rest l1 Hpoll Hfed Hp Hrx Hseen|np ts l n Hn]; cbn in Hnp, Hr.
  - destruct (np_poll_inv answers np) as (np2 & e2 & Hpoll2 & h & -> & Hev). rewrite Hpoll in Hpoll2. simplify_eq.
    destruct (np_on_handshake_event_inv sv debug np c h e Hnp Hev) as (np3 & eff3 & Heq3 & Hinv3).
    rewrite He in Heq3. simplify_eq.
    destruct (serves_calls now ch sv s eff3 s' c Hsv Hr) as (c' & Hc & Hr'). exists c'. split; [by apply Hinv3|done].
  - by eapply (ns_branch_inv np s c np1 b c), Hsv; [..|apply own_branch_admissible| |].
  - pose proof (polled_contract debug now ch ts l c rx closed l' ts1 seen rest l1 _ Hr Hfed Hp Hrx Hseen) as Hpolled.
    destruct o as [e|].
    + destruct Hpolled as (c1 & Hd & Hr1). by eapply (ns_branch_inv np (ts1, l1) c np1 _ c1), Hsv; [..|constructor| |].
    + by eapply (ns_branch_inv np (ts1, l1) c np1 _ c), Hsv; [..|constructor| |].
  - pose proof (polled_contract debug now ch ts l c rx closed l' ts1 seen rest l1 _ Hr Hfed Hp Hrx Hseen) as Hpolled.
    destruct (np_poll_inv answers np) as (np2 & e2 & Hpoll2 & h & -> & Hev). rewrite Hpoll in Hpoll2. simplify_eq.
    exists c. split; [by apply np_inv_polled|done].
  - exists c. split; [done|]. apply refines_counter; [done|lia].
Qed.

(** C3. The notification protocol over the transport service is safe, with nothing assumed between the
    two: for every sequence of reports of the connections (at most two to a peer), user commands,
    validations, handshakes, timers and connection tasks that end, where the end of a task is
    reported only while its peer's stream is open or closed and no new one is negotiated, in every
    reachable state neither the poll of the service nor the handling of what it returns fails an
    assertion or panics, and the peers of the protocol agree with the service's
    connections and pending substreams through a state of the contract. *)
Theorem notification_over_service_safe protocol fallbacks n timeout ka h auto_accept should_dial np ts l :
  rtc (ns_step debug)
    (NotificationProtocol_new h auto_accept should_dial,
     (TransportService_new protocol fallbacks n timeout ka, Links_init)) (np, (ts, l)) →
  (∃ c, np_inv np c ∧ refines l ts c) ∧
  ∀ answers now ch rx closed l', fed l rx l' →
    ∃ ts1 rest poll, ts_poll_next debug now ch ts rx closed = Done (ts1, rest, poll) ∧
    ∀ sv o, poll = Ready o → np_next_event debug sv answers (Some (BrService o)) np ≠ Panic.
Proof.
  intros Hrun. assert (ns_inv (np, (ts, l))) as (c & Hnp & Hr).
  { apply (rtc_invariant (ns_step debug) ns_inv ns_step_inv _ _ Hrun).
    exists Contract_init. split; [apply np_inv_init|apply refines_init]. }
  cbn in Hnp, Hr. split; [by exists c|]. intros answers now ch rx closed l' Hfed.
  destruct (poll_ok debug now ch closed rx l ts c l' Hr Hfed) as (ts1 & rest & poll & _ & l1 & Heq & _ & _ & _ & Hp).
  exists ts1, rest, poll. split; [done|]. intros sv o ->. unfold np_next_event.
  destruct (np_poll_inv answers np) as (np1 & e & -> & s & -> & Hev). cbn [outcome_bind]. destruct e as [e|].
  - by destruct (np_on_handshake_event_inv sv debug np c s e Hnp Hev) as (np2 & eff2 & -> & _).
  - assert (∃ c1, admissible (np_negotiate np s) c (BrService o) c1) as [c1 Ha].
    { destruct o as [e|]; [|exists c; constructor]. destruct Hp as (c1 & Hd & _). exists c1. by constructor. }
    by destruct (np_branch_inv debug sv (np_negotiate np s) c (BrService o) c1) as (np2 & eff2 & ex & -> & _);
      [apply np_inv_polled|..].
Qed.
End composition.

(** ** A run

    A connection is established and the user opens a stream. *)
Module StreamExample.
Import ServiceExample.
#[local] Existing Instance canonical_order.
#[local] Existing Instance eager_sleep.

Definition service : ServiceAnswers := mkServiceAnswers (λ _, Ok tt) (λ _, Ok 0%N).
Definition silent : PeerId * HsDirection → HsAnswers := 
  λ _, mkHsAnswers false Prelude.Pending (λ _, Ok tt) Prelude.Pending Prelude.Pending.
Definition np0 := NotificationProtocol_new [x01] false true.
Definition branch (np : NotificationProtocol) (b : NpBranch) : NotificationProtocol :=
  match np_branch true service np b with Done (np, _, _) => np | Panic => np end.
Definition np1 := branch np0 (BrService (Some (SvConnectionEstablished peer (Listener [] 3)))).
Definition np2 := branch np1 (BrCommand (Some (NcOpenSubstream {[peer]}))).

Lemma stream_run : rtc (ns_step true) (np0, (ts0, Links_init)) (np2, (ts2, up2)).
Proof.
  eapply rtc_l; [|eapply rtc_l; [|reflexivity]].
  - eapply (N_service true np0 ts0 Links_init silent np0 1 channels _ false up1 ts1 [_] [] up1 _ np1 [] false service);
      [by vm_compute|apply established_fed|by vm_compute|done|apply established_fed|by vm_compute|constructor].
  - eapply (N_branch true np1 (ts1, up1) silent np1 (BrCommand (Some (NcOpenSubstream {[peer]}))) np2
      [NpOpenSubstream peer] false 2 channels service); [by vm_compute|done|by vm_compute|].
    eapply (V_open _ _ _ ts1 up1 _ peer ts2 (Some (PcOpenSubstream "/notif/1" [] 0 3 3 KaYes)));
      [done|done|vm_compute; reflexivity|constructor].
Qed.
End StreamExample.

Lemma notification_over_service_safe_witness : let _ := canonical_order in let _ := eager_sleep in
  ∃ ts rest poll, ts_poll_next true 3 ServiceExample.channels ServiceExample.ts2
    [ItConnectionClosed ServiceExample.peer 3] false = Done (ts, rest, poll) ∧
  ∀ o, poll = Ready o →
    np_next_event true StreamExample.service StreamExample.silent (Some (BrService o)) StreamExample.np2 ≠ Panic.
Proof.
  cbv zeta. destruct (notification_over_service_safe (H := canonical_order) (H0 := eager_sleep) true _ _ _ _ _ _ _ _ _ _ _
    StreamExample.stream_run) as [_ Hsafe].
  destruct (Hsafe StreamExample.silent 3%N ServiceExample.channels _ false _ ServiceExample.closed_fed)
    as (ts & rest & poll & Hpoll & Hnp). exists ts, rest, poll. split; [done|]. intros o. apply Hnp.
Defined.
