(* ===== verification/RequestResponse.v ===== *)
(** * The request-response protocol

    [RequestResponseProtocol] of [src/src/protocol/request_response/mod.rs] and the errors of
    [handle.rs]: requests over a substream each, answered by the remote, and requests of the
    remote answered by the user. The futures of the protocol are records of what they wait
    for; how they end is an argument of the branch that handles their end. What the protocol
    tells the user, the service and the substreams is a list of effects. The user's handle is
    alive: sending it an event does not fail. *)

From stdpp Require Import base tactics option list gmap strings.
From Stdlib Require Import NArith Lia Init.Byte.
From S2P Require Import Prelude Multiaddr TransportManagerHandle ProtocolTypes.

Local Open Scope litep2p_scope.

(** ** Data *)

(** [RequestId], drawn from a counter that the user's handle shares. *)
Notation RequestId := N (only parsing).

Inductive RejectReason :=
| RjSubstreamOpenError (error : SubstreamError)
| RjConnectionClosed
| RjSubstreamClosed
| RjDialFailed (error : option ImmediateDialError).

Inductive RequestResponseError :=
| ReRejected (reason : RejectReason)
| ReCanceled
| ReTimeout
| ReNotConnected
| ReTooLargePayload
| ReUnsupportedProtocol.

(** [From<SubstreamError> for RejectReason] *)
Definition reject_reason (error : SubstreamError) : RejectReason :=
  match error with
  | SeConnectionClosed
  | SeIo IoNotConnected
  | SeYamux (YamuxIo IoNotConnected) _
  | SeNegotiation (NegIo IoNotConnected)
  | SeNegotiation (NegSelectIo IoNotConnected) => RjConnectionClosed
  | error => RjSubstreamOpenError error
  end.

Record RequestContext := mkRequestContext {
  rc_peer : PeerId;
  rc_request_id : RequestId;
  rc_request : list byte;
  rc_fallback : option (ProtocolName * list byte);
}.

(** [request_response::PeerContext] *)
Record RrPeer := mkRrPeer {
  rp_active : gset RequestId;
  rp_active_inbound : gmap RequestId (option ProtocolName);
}.

(** [PeerContext::new] *)
Definition RrPeer_new : RrPeer := mkRrPeer ∅ ∅.

(** A future of [pending_inbound]: the request has to be sent over the substream, then the
    response is awaited. *)
Record RequestFuture := mkRequestFuture {
  rf_peer : PeerId;
  rf_request_id : RequestId;
  rf_fallback : option ProtocolName;
  rf_substream : Substream;
  rf_request : list byte;
}.

(** A future of [pending_inbound_requests], which reads a request of the remote, or of
    [pending_outbound_responses], which waits for the user's answer to it. *)
Record InboundFuture := mkInboundFuture {
  if_peer : PeerId;
  if_request_id : RequestId;
  if_substream : Substream;
}.

(** [RequestResponseProtocol]. [rr_cancels] are the requests whose cancellation handle has
    neither been used nor dropped. *)
Record RequestResponseProtocol := mkRequestResponse {
  rr_peers : gmap PeerId RrPeer;
  rr_pending_outbound : gmap SubstreamId RequestContext;
  rr_outbound_responses : list InboundFuture;
  rr_cancels : gset RequestId;
  rr_inbound : list RequestFuture;
  rr_inbound_requests : list InboundFuture;
  rr_pending_dials : gmap PeerId RequestContext;
  rr_next_request_id : N;
  rr_max_inbound : option nat;
}.

(** [RequestResponseProtocol::new] *)
Definition RequestResponse_new (next_request_id : N) (max : option nat) : RequestResponseProtocol :=
  mkRequestResponse ∅ ∅ [] ∅ [] [] ∅ next_request_id max.

Definition rr_set_peers (rr : RequestResponseProtocol) m := mkRequestResponse m (rr_pending_outbound rr)
  (rr_outbound_responses rr) (rr_cancels rr) (rr_inbound rr) (rr_inbound_requests rr) (rr_pending_dials rr)
  (rr_next_request_id rr) (rr_max_inbound rr).
Definition rr_set_outbound (rr : RequestResponseProtocol) m := mkRequestResponse (rr_peers rr) m
  (rr_outbound_responses rr) (rr_cancels rr) (rr_inbound rr) (rr_inbound_requests rr) (rr_pending_dials rr)
  (rr_next_request_id rr) (rr_max_inbound rr).
Definition rr_set_responses (rr : RequestResponseProtocol) l := mkRequestResponse (rr_peers rr)
  (rr_pending_outbound rr) l (rr_cancels rr) (rr_inbound rr) (rr_inbound_requests rr) (rr_pending_dials rr)
  (rr_next_request_id rr) (rr_max_inbound rr).
Definition rr_set_cancels (rr : RequestResponseProtocol) s := mkRequestResponse (rr_peers rr)
  (rr_pending_outbound rr) (rr_outbound_responses rr) s (rr_inbound rr) (rr_inbound_requests rr)
  (rr_pending_dials rr) (rr_next_request_id rr) (rr_max_inbound rr).
Definition rr_set_inbound (rr : RequestResponseProtocol) l := mkRequestResponse (rr_peers rr)
  (rr_pending_outbound rr) (rr_outbound_responses rr) (rr_cancels rr) l (rr_inbound_requests rr)
  (rr_pending_dials rr) (rr_next_request_id rr) (rr_max_inbound rr).
Definition rr_set_requests (rr : RequestResponseProtocol) l := mkRequestResponse (rr_peers rr)
  (rr_pending_outbound rr) (rr_outbound_responses rr) (rr_cancels rr) (rr_inbound rr) l
  (rr_pending_dials rr) (rr_next_request_id rr) (rr_max_inbound rr).
Definition rr_set_dials (rr : RequestResponseProtocol) m := mkRequestResponse (rr_peers rr)
  (rr_pending_outbound rr) (rr_outbound_responses rr) (rr_cancels rr) (rr_inbound rr) (rr_inbound_requests rr)
  m (rr_next_request_id rr) (rr_max_inbound rr).
Definition rr_set_next (rr : RequestResponseProtocol) n := mkRequestResponse (rr_peers rr)
  (rr_pending_outbound rr) (rr_outbound_responses rr) (rr_cancels rr) (rr_inbound rr) (rr_inbound_requests rr)
  (rr_pending_dials rr) n (rr_max_inbound rr).

(** Events for the user, calls of the service, and what is done to substreams. The receiver of
    [RrRequestReceived] holds the sender that the future with the same identifier waits on. *)
Inductive RrEffect :=
| RrRequestReceived (peer : PeerId) (fallback : option ProtocolName) (request_id : RequestId)
    (request : list byte)
| RrResponseReceived (peer : PeerId) (fallback : option ProtocolName) (request_id : RequestId)
    (response : list byte)
| RrRequestFailed (peer : PeerId) (request_id : RequestId) (error : RequestResponseError)
| RrDial (peer : PeerId)
| RrOpenSubstream (peer : PeerId)
| RrSend (substream : Substream) (message : list byte)
| RrClose (substream : Substream).

#[export] Instance rr_asks : Asks RrEffect := λ e,
  match e with RrOpenSubstream p => Some p | _ => None end.

(** [crate::Error], as far as the handlers return it. *)
Inductive RrError := RrPeerAlreadyExists | RrPeerDoesntExist | RrInvalidState | RrInvalidData.

Section request_response.
Context `{HashOrder} (debug : bool).

Notation fallible := (RequestResponseProtocol * list RrEffect * result RrError unit)%type (only parsing).

(** ** Connections *)

(** [RequestResponseProtocol::on_connection_established] *)
Definition rr_on_connection_established (sv : ServiceAnswers) (rr : RequestResponseProtocol)
    (peer : PeerId) : outcome fallible :=
  match rr_peers rr !! peer with
  | Some _ => debug_assert debug False (Done (rr, [], Err RrPeerAlreadyExists))
  | None =>
      match rr_pending_dials rr !! peer with
      | None => Done (rr_set_peers rr (<[peer := RrPeer_new]> (rr_peers rr)), [], Ok tt)
      | Some context =>
          let rr := rr_set_dials rr (delete peer (rr_pending_dials rr)) in
          match sv_open sv peer with
          | Ok substream_id =>
              let rr := rr_set_peers rr (<[peer := mkRrPeer {[rc_request_id context]} ∅]> (rr_peers rr)) in
              Done (rr_set_outbound rr
                      (<[substream_id := mkRequestContext peer (rc_request_id context) (rc_request context)
                                           (rc_fallback context)]> (rr_pending_outbound rr)),
                    [RrOpenSubstream peer], Ok tt)
          | Err error =>
              Done (rr, [RrOpenSubstream peer;
                         RrRequestFailed peer (rc_request_id context) (ReRejected (reject_reason error))], Ok tt)
          end
      end
  end.

(** [RequestResponseProtocol::on_connection_closed] *)
Definition rr_on_connection_closed (rr : RequestResponseProtocol) (peer : PeerId) :
    RequestResponseProtocol * list RrEffect :=
  let rr := rr_set_outbound rr (filter (λ kv, rc_peer kv.2 ≠ peer) (rr_pending_outbound rr)) in
  match rr_peers rr !! peer with
  | None => (rr, [])
  | Some context =>
      (rr_set_peers rr (delete peer (rr_peers rr)),
       (λ request_id, RrRequestFailed peer request_id (ReRejected RjConnectionClosed)) <$>
         set_order (rp_active context))
  end.

(** ** Outbound requests *)

(** [RequestResponseProtocol::on_outbound_substream] *)
Definition rr_on_outbound_substream (rr : RequestResponseProtocol) (peer : PeerId) (substream_id : SubstreamId)
    (substream : Substream) (fallback_protocol : option ProtocolName) : outcome fallible :=
  match rr_pending_outbound rr !! substream_id with
  | None => debug_assert debug False (Done (rr, [], Err RrInvalidState))
  | Some context =>
      let rr := rr_set_outbound rr (delete substream_id (rr_pending_outbound rr)) in
      let request := match fallback_protocol, rc_fallback context with
                     | Some protocol, Some (name, fallback_request) =>
                         if decide (protocol = name) then fallback_request else rc_request context
                     | _, _ => rc_request context
                     end in
      let rr := rr_set_cancels rr ({[rc_request_id context]} ∪ rr_cancels rr) in
      Done (rr_set_inbound rr (rr_inbound rr ++
              [mkRequestFuture peer (rc_request_id context) fallback_protocol substream request]), [], Ok tt)
  end.

(** How sending a message ended: [tokio::time::timeout] of [send_framed]. *)
Inductive SendEnd := SendTimeout | SendError (error : SubstreamError) | SendOk.

(** Which branch of the [select!] of a request completed. *)
Inductive WaitEnd := WaitCanceled | WaitTimeout | WaitNext (item : option (result SubstreamError (list byte))).

(** The result of the future of [on_outbound_substream], and what it did to its substream. *)
Definition request_future (f : RequestFuture) (sent : SendEnd) (wait : WaitEnd) :
    list RrEffect * result RequestResponseError (list byte) :=
  match sent with
  | SendTimeout => ([], Err ReTimeout)
  | SendError (SeIo IoPermissionDenied) => ([], Err ReTooLargePayload)
  | SendError error => ([], Err (ReRejected (reject_reason error)))
  | SendOk =>
      let send := RrSend (rf_substream f) (rf_request f) in
      match wait with
      | WaitCanceled => ([send; RrClose (rf_substream f)], Err ReCanceled)
      | WaitTimeout => ([send; RrClose (rf_substream f)], Err ReTimeout)
      | WaitNext (Some (Ok response)) => ([send], Ok response)
      | WaitNext (Some (Err error)) => ([send], Err (ReRejected (reject_reason error)))
      | WaitNext None => ([send], Err (ReRejected RjSubstreamClosed))
      end
  end.

(** [RequestResponseProtocol::on_substream_event] *)
Definition rr_on_substream_event (rr : RequestResponseProtocol) (peer : PeerId) (request_id : RequestId)
    (fallback : option ProtocolName) (message : result RequestResponseError (list byte)) : fallible :=
  match rr_peers rr !! peer with
  | None => (rr, [], Err RrPeerDoesntExist)
  | Some context =>
      if decide (request_id ∈ rp_active context) then
        let rr := rr_set_peers rr
          (<[peer := mkRrPeer (rp_active context ∖ {[request_id]}) (rp_active_inbound context)]> (rr_peers rr)) in
        match message with
        | Ok response => (rr, [RrResponseReceived peer fallback request_id response], Ok tt)
        | Err ReCanceled => (rr, [], Ok tt)
        | Err error => (rr, [RrRequestFailed peer request_id error], Ok tt)
        end
      else (rr, [], Err RrInvalidState)
  end.

(** The branch of the event loop for a request that ended. *)
Definition rr_on_request_end (rr : RequestResponseProtocol) (i : nat) (sent : SendEnd) (wait : WaitEnd) :
    RequestResponseProtocol * list RrEffect :=
  match rr_inbound rr !! i with
  | None => (rr, [])
  | Some f =>
      let rr := rr_set_inbound rr (take_nth (rr_inbound rr) i) in
      let '(done, message) := request_future f sent wait in
      let '(rr, effects, _) := rr_on_substream_event rr (rf_peer f) (rf_request_id f) (rf_fallback f) message in
      (rr_set_cancels rr (rr_cancels rr ∖ {[rf_request_id f]}), done ++ effects)
  end.

(** [RequestResponseProtocol::on_dial_failure] *)
Definition rr_on_dial_failure (rr : RequestResponseProtocol) (peer : PeerId) :
    RequestResponseProtocol * list RrEffect :=
  match rr_pending_dials rr !! peer with
  | None => (rr, [])
  | Some context =>
      let rr := rr_set_dials rr (delete peer (rr_pending_dials rr)) in
      (rr_set_peers rr (alter (λ p, mkRrPeer (rp_active p ∖ {[rc_request_id context]}) (rp_active_inbound p)) peer
                          (rr_peers rr)),
       [RrRequestFailed peer (rc_request_id context) (ReRejected (RjDialFailed None))])
  end.

(** [RequestResponseProtocol::on_substream_open_failure] *)
Definition rr_on_substream_open_failure (rr : RequestResponseProtocol) (substream : SubstreamId)
    (error : SubstreamError) : outcome fallible :=
  match rr_pending_outbound rr !! substream with
  | None => debug_assert debug False (Done (rr, [], Err RrInvalidState))
  | Some context =>
      let rr := rr_set_outbound rr (delete substream (rr_pending_outbound rr)) in
      Done (rr_set_peers rr (alter (λ p, mkRrPeer (rp_active p ∖ {[rc_request_id context]}) (rp_active_inbound p))
                               (rc_peer context) (rr_peers rr)),
            [RrRequestFailed (rc_peer context) (rc_request_id context)
               match error with
               | SeNegotiation NegSelectFailed => ReUnsupportedProtocol
               | error => ReRejected (reject_reason error)
               end], Ok tt)
  end.

Inductive DialOptions := DialPeerOption | RejectOption.

(** [RequestResponseProtocol::on_send_request] *)
Definition rr_on_send_request (sv : ServiceAnswers) (rr : RequestResponseProtocol) (peer : PeerId)
    (request_id : RequestId) (request : list byte) (dial_options : DialOptions)
    (fallback : option (ProtocolName * list byte)) :
    outcome (RequestResponseProtocol * list RrEffect * result RequestResponseError unit) :=
  match rr_peers rr !! peer with
  | None =>
      match dial_options with
      | RejectOption => Done (rr, [], Err ReNotConnected)
      | DialPeerOption =>
          match sv_dial sv peer with
          | Ok _ =>
              Done (rr_set_dials rr (<[peer := mkRequestContext peer request_id request fallback]>
                                       (rr_pending_dials rr)), [RrDial peer], Ok tt)
          | Err error => Done (rr, [RrDial peer], Err (ReRejected (RjDialFailed (Some error))))
          end
      end
  | Some context =>
      match sv_open sv peer with
      | Ok substream_id =>
          debug_assert debug (request_id ∉ rp_active context)
            (let rr := rr_set_peers rr
               (<[peer := mkRrPeer ({[request_id]} ∪ rp_active context) (rp_active_inbound context)]> (rr_peers rr)) in
             Done (rr_set_outbound rr (<[substream_id := mkRequestContext peer request_id request fallback]>
                                         (rr_pending_outbound rr)), [RrOpenSubstream peer], Ok tt))
      | Err error => Done (rr, [RrOpenSubstream peer], Err (ReRejected (reject_reason error)))
      end
  end.

(** [RequestResponseProtocol::on_cancel_request]: the handle is used and gone. *)
Definition rr_on_cancel_request (rr : RequestResponseProtocol) (request_id : RequestId) :
    RequestResponseProtocol :=
  rr_set_cancels rr (rr_cancels rr ∖ {[request_id]}).

(** ** Inbound requests *)

(** [RequestResponseProtocol::on_inbound_substream] *)
Definition rr_on_inbound_substream (rr : RequestResponseProtocol) (peer : PeerId)
    (fallback : option ProtocolName) (substream : Substream) : fallible :=
  let full := match rr_max_inbound rr with
              | Some max => max <=? length (rr_inbound_requests rr) + length (rr_outbound_responses rr)
              | None => false
              end in
  if full then (rr, [RrClose substream], Ok tt)
  else
    let request_id := rr_next_request_id rr in
    let rr := rr_set_next rr (usize_wrapping_add request_id 1) in
    match rr_peers rr !! peer with
    | None => (rr, [], Err RrPeerDoesntExist)
    | Some context =>
        let rr := rr_set_peers rr
          (<[peer := mkRrPeer (rp_active context) (<[request_id := fallback]> (rp_active_inbound context))]>
             (rr_peers rr)) in
        (rr_set_requests rr (rr_inbound_requests rr ++ [mkInboundFuture peer request_id substream]), [], Ok tt)
    end.

(** [RequestResponseProtocol::on_inbound_request] *)
Definition rr_on_inbound_request (rr : RequestResponseProtocol) (f : InboundFuture)
    (request : result SubstreamError (list byte)) : fallible :=
  match rr_peers rr !! if_peer f with
  | None => (rr, [], Err RrPeerDoesntExist)
  | Some context =>
      match rp_active_inbound context !! if_request_id f with
      | None => (rr, [], Err RrInvalidState)
      | Some fallback =>
          let rr := rr_set_peers rr
            (<[if_peer f := mkRrPeer (rp_active context) (delete (if_request_id f) (rp_active_inbound context))]>
               (rr_peers rr)) in
          match request with
          | Err _ => (rr, [], Err RrInvalidData)
          | Ok request =>
              (rr_set_responses rr (rr_outbound_responses rr ++ [f]),
               [RrRequestReceived (if_peer f) fallback (if_request_id f) request], Ok tt)
          end
      end
  end.

(** The branch of the event loop for a request of the remote that was read. *)
Definition rr_on_request_read (rr : RequestResponseProtocol) (i : nat)
    (request : result SubstreamError (list byte)) : RequestResponseProtocol * list RrEffect :=
  match rr_inbound_requests rr !! i with
  | None => (rr, [])
  | Some f => (rr_on_inbound_request (rr_set_requests rr (take_nth (rr_inbound_requests rr) i)) f request).1
  end.

(** The user's answer: the sender was dropped, or a response was given and sending it ended. *)
Inductive ResponseEnd := ResponseRejected | ResponseGiven (response : list byte) (sent : SendEnd).

(** The branch of the event loop for an answer that was sent, and the future of
    [on_inbound_request]. *)
Definition rr_on_response_end (rr : RequestResponseProtocol) (i : nat) (e : ResponseEnd) :
    RequestResponseProtocol * list RrEffect :=
  match rr_outbound_responses rr !! i with
  | None => (rr, [])
  | Some f =>
      (rr_set_responses rr (take_nth (rr_outbound_responses rr) i),
       match e with
       | ResponseRejected => [RrClose (if_substream f)]
       | ResponseGiven response SendOk => [RrSend (if_substream f) response]
       | ResponseGiven _ _ => []
       end)
  end.

(** ** The event loop *)

Inductive RequestResponseCommand :=
| RcSendRequest (peer : PeerId) (request_id : RequestId) (request : list byte) (dial_options : DialOptions)
| RcSendRequestWithFallback (peer : PeerId) (request_id : RequestId) (request : list byte)
    (fallback : ProtocolName * list byte) (dial_options : DialOptions)
| RcCancelRequest (request_id : RequestId).

(** [RequestResponseProtocol::handle_service_event] *)
Definition rr_handle_service_event (sv : ServiceAnswers) (rr : RequestResponseProtocol) (event : ServiceEvent) :
    outcome (RequestResponseProtocol * list RrEffect) :=
  match event with
  | SvConnectionEstablished peer _ => run (r, _) <- rr_on_connection_established sv rr peer ;; Done r
  | SvConnectionClosed peer => Done (rr_on_connection_closed rr peer)
  | SvSubstreamOpened peer _ fallback Inbound substream =>
      Done (rr_on_inbound_substream rr peer fallback substream).1
  | SvSubstreamOpened peer _ fallback (Outbound id) substream =>
      run (r, _) <- rr_on_outbound_substream rr peer id substream fallback ;; Done r
  | SvSubstreamOpenFailure substream error =>
      run (r, _) <- rr_on_substream_open_failure rr substream error ;; Done r
  | SvDialFailure peer _ => Done (rr_on_dial_failure rr peer)
  end.

(** A request whose sending fails is reported. *)
Definition rr_send_or_report (sv : ServiceAnswers) (rr : RequestResponseProtocol) (peer : PeerId)
    (request_id : RequestId) (request : list byte) (dial_options : DialOptions)
    (fallback : option (ProtocolName * list byte)) : outcome (RequestResponseProtocol * list RrEffect) :=
  run (rr, effects, r) <- rr_on_send_request sv rr peer request_id request dial_options fallback ;;
  Done (rr, effects ++ match r with Ok _ => [] | Err error => [RrRequestFailed peer request_id error] end).

(** [RequestResponseProtocol::handle_user_command] *)
Definition rr_handle_user_command (sv : ServiceAnswers) (rr : RequestResponseProtocol)
    (command : RequestResponseCommand) : outcome (RequestResponseProtocol * list RrEffect) :=
  match command with
  | RcSendRequest peer request_id request dial_options =>
      rr_send_or_report sv rr peer request_id request dial_options None
  | RcSendRequestWithFallback peer request_id request fallback dial_options =>
      rr_send_or_report sv rr peer request_id request dial_options (Some fallback)
  | RcCancelRequest request_id => Done (rr_on_cancel_request rr request_id, [])
  end.

(** The branches of [tokio::select!], with what they received. *)
Inductive RrBranch :=
| RbService (event : option ServiceEvent)
| RbRequestEnd (i : nat) (sent : SendEnd) (wait : WaitEnd)
| RbResponseEnd (i : nat) (e : ResponseEnd)
| RbRequestRead (i : nat) (request : result SubstreamError (list byte))
| RbCommand (command : option RequestResponseCommand).

(** One turn of [RequestResponseProtocol::run]; the flag says that the protocol exits. *)
Definition rr_turn (sv : ServiceAnswers) (rr : RequestResponseProtocol) (b : RrBranch) :
    outcome (RequestResponseProtocol * list RrEffect * bool) :=
  match b with
  | RbService None | RbCommand None => Done (rr, [], true)
  | RbService (Some event) => run r <- rr_handle_service_event sv rr event ;; Done (r, false)
  | RbRequestEnd i sent wait => Done (rr_on_request_end rr i sent wait, false)
  | RbResponseEnd i e => Done (rr_on_response_end rr i e, false)
  | RbRequestRead i request => Done (rr_on_request_read rr i request, false)
  | RbCommand (Some command) => run r <- rr_handle_user_command sv rr command ;; Done (r, false)
  end.
End request_response.
