(* ===== verification/RequestResponseFacts.v ===== *)
(** * The request-response protocol: safety and the account of requests

    Against the contract of the transport service no assertion of the protocol fails, and every
    request of the user is accounted for: it is answered once, in progress, canceled, or replaced
    by another request to a peer that is being dialed. *)

From stdpp Require Import base tactics option list gmap strings relations.
From Stdlib Require Import NArith Lia Init.Byte.
From S2P Require Import Prelude Multiaddr TransportManagerHandle ProtocolTypes RequestResponse.

Local Open Scope litep2p_scope.

(** ** Requests in progress *)

(** The requests that an effect answers, as the user sees it. *)
Definition answered (effects : list RrEffect) : list RequestId :=
  omap (λ e, match e with
             | RrResponseReceived _ _ id _ | RrRequestFailed _ id _ => Some id
             | _ => None
             end) effects.

Lemma answered_app l l' : answered (l ++ l') = answered l ++ answered l'.
Proof. unfold answered. apply omap_app. Qed.

(** The requests of a map of contexts, and the requests that the user waits for at the peers. *)
Definition context_ids {K} `{Countable K} (m : gmap K RequestContext) : list RequestId :=
  (λ kv, rc_request_id kv.2) <$> map_to_list m.

Definition active_ids (m : gmap PeerId RrPeer) : list RequestId :=
  map_to_list m ≫= λ kv, elements (rp_active kv.2).

(** The user waits for the requests that are being dialed for and those that are active. *)
Definition outstanding (rr : RequestResponseProtocol) : list RequestId :=
  context_ids (rr_pending_dials rr) ++ active_ids (rr_peers rr).

(** The requests on their way: waiting for a connection, for a substream, for a response. *)
Definition flow (rr : RequestResponseProtocol) : list RequestId :=
  context_ids (rr_pending_dials rr) ++ context_ids (rr_pending_outbound rr) ++
  (rf_request_id <$> rr_inbound rr).

Section ids.
Context {K} `{Countable K}.
Implicit Types (m : gmap K RequestContext).

Lemma context_ids_insert m k ctx : m !! k = None →
  context_ids (<[k := ctx]> m) ≡ₚ rc_request_id ctx :: context_ids m.
Proof. intros Hk. unfold context_ids. by rewrite map_to_list_insert. Qed.

Lemma context_ids_delete m k ctx : m !! k = Some ctx →
  context_ids m ≡ₚ rc_request_id ctx :: context_ids (delete k m).
Proof. intros Hk. unfold context_ids. by rewrite <- (map_to_list_delete m k ctx). Qed.

Lemma context_ids_elem m id : id ∈ context_ids m ↔ ∃ k ctx, m !! k = Some ctx ∧ rc_request_id ctx = id.
Proof.
  unfold context_ids. rewrite list_elem_of_fmap. split.
  - intros ([k ctx] & -> & Hin%elem_of_map_to_list). eauto.
  - intros (k & ctx & Hk & <-). exists (k, ctx). split; [done|]. by apply elem_of_map_to_list.
Qed.

Lemma context_ids_nodup m : NoDup (context_ids m) ↔
  ∀ k1 c1 k2 c2, m !! k1 = Some c1 → m !! k2 = Some c2 → rc_request_id c1 = rc_request_id c2 → k1 = k2.
Proof.
  split.
  - intros Hnd k1 c1 k2 c2 H1 H2 Heq. destruct (decide (k1 = k2)) as [|Hne]; [done|]. exfalso.
    rewrite (context_ids_delete m k1 c1 H1) in Hnd. apply NoDup_cons in Hnd as [Hnin _]. apply Hnin.
    apply context_ids_elem. exists k2, c2. by rewrite lookup_delete_ne.
  - intros Hinj. apply NoDup_fmap_2_strong; [|apply NoDup_map_to_list].
    intros [k1 c1] [k2 c2] H1%elem_of_map_to_list H2%elem_of_map_to_list Heq. cbn in Heq.
    assert (k1 = k2) as -> by by eapply Hinj. congruence.
Qed.

(** What a filter keeps. *)
Lemma context_ids_filter m (P : RequestContext → Prop) `{∀ ctx, Decision (P ctx)} :
  NoDup (context_ids m) → NoDup (context_ids (filter (λ kv, P kv.2) m)).
Proof.
  rewrite !context_ids_nodup. intros Hinj k1 c1 k2 c2 [? _]%map_lookup_filter_Some [? _]%map_lookup_filter_Some.
  by apply Hinj.
Qed.

Lemma context_ids_filter_elem m (P : RequestContext → Prop) `{∀ ctx, Decision (P ctx)} id :
  id ∈ context_ids (filter (λ kv, P kv.2) m) → id ∈ context_ids m.
Proof. rewrite !context_ids_elem. intros (k & ctx & [? _]%map_lookup_filter_Some & <-). eauto. Qed.
End ids.

Section active.
Implicit Types (m : gmap PeerId RrPeer).

Lemma active_ids_insert m p pc : m !! p = None →
  active_ids (<[p := pc]> m) ≡ₚ elements (rp_active pc) ++ active_ids m.
Proof. intros Hp. unfold active_ids. by rewrite map_to_list_insert. Qed.

Lemma active_ids_delete m p pc : m !! p = Some pc →
  active_ids m ≡ₚ elements (rp_active pc) ++ active_ids (delete p m).
Proof. intros Hp. unfold active_ids. by rewrite <- (map_to_list_delete m p pc). Qed.

Lemma active_ids_update m p pc pc' l : m !! p = Some pc →
  l ++ elements (rp_active pc') ≡ₚ elements (rp_active pc) →
  l ++ active_ids (<[p := pc']> m) ≡ₚ active_ids m.
Proof.
  intros Hp Hl. rewrite <- insert_delete_eq, active_ids_insert by by rewrite lookup_delete_eq.
  by rewrite (active_ids_delete m p pc Hp), app_assoc, Hl.
Qed.

Lemma active_ids_same m p pc pc' : m !! p = Some pc → rp_active pc' = rp_active pc →
  active_ids (<[p := pc']> m) ≡ₚ active_ids m.
Proof. intros Hp Heq. apply (active_ids_update m p pc pc' []); [done|]. by rewrite Heq. Qed.

Lemma active_ids_elem m id : id ∈ active_ids m ↔ ∃ p pc, m !! p = Some pc ∧ id ∈ rp_active pc.
Proof.
  unfold active_ids. rewrite list_elem_of_bind. split.
  - intros ([p pc] & Hin%elem_of_elements & Hp%elem_of_map_to_list). eauto.
  - intros (p & pc & Hp & Hin). exists (p, pc). split; [by apply elem_of_elements|by apply elem_of_map_to_list].
Qed.
End active.

(** Taking a request out of the active ones. *)
Lemma elements_remove (s : gset RequestId) id : id ∈ s → [id] ++ elements (s ∖ {[id]}) ≡ₚ elements s.
Proof.
  intros Hid. cbn. rewrite <- elements_union_singleton by set_solver. by rewrite <- union_difference_singleton_L.
Qed.

(** ** The invariant *)

Record rr_inv (sent : list RequestId) (rr : RequestResponseProtocol) (c : Contract) : Prop := {
  inv_wf : contract_wf c;
  inv_connected : ∀ p, is_Some (rr_peers rr !! p) → p ∈ connected c;
  inv_opening : rc_peer <$> rr_pending_outbound rr = opening c;
  inv_flow : NoDup (flow rr);
  inv_sent : ∀ id, id ∈ flow rr → id ∈ sent;
  inv_outbound : ∀ s ctx, rr_pending_outbound rr !! s = Some ctx →
    ∃ pc, rr_peers rr !! rc_peer ctx = Some pc ∧ rc_request_id ctx ∈ rp_active pc;
  inv_active : ∀ p pc id, rr_peers rr !! p = Some pc → id ∈ rp_active pc →
    (∃ s ctx, rr_pending_outbound rr !! s = Some ctx ∧ rc_request_id ctx = id ∧ rc_peer ctx = p) ∨
    (∃ f, f ∈ rr_inbound rr ∧ rf_request_id f = id ∧ rf_peer f = p);
}.

Lemma rr_inv_init n max : rr_inv [] (RequestResponse_new n max) Contract_init.
Proof.
  split; cbn.
  - apply contract_wf_init.
  - intros p [? Hp]. by rewrite lookup_empty in Hp.
  - apply fmap_empty.
  - constructor.
  - set_solver.
  - intros s ctx. by rewrite lookup_empty.
  - intros p pc id. by rewrite lookup_empty.
Qed.

(** The outcome of a handler: the invariant, and every request that was outstanding or is new is
    answered, [lost], or outstanding. *)
Definition accounted (sent : list RequestId) (rr : RequestResponseProtocol) (asked : list RequestId)
    (rr' : RequestResponseProtocol) (effects : list RrEffect) (lost : list RequestId) (c : Contract) : Prop :=
  rr_inv (asked ++ sent) rr' c ∧
  answered effects ++ lost ++ outstanding rr' ≡ₚ asked ++ outstanding rr.

(** ** The handlers *)

Section handlers.
Context `{HashOrder} (debug : bool) (sv : ServiceAnswers).
Implicit Types (rr : RequestResponseProtocol) (c : Contract).

(** Requests only leave their places, or enter with a new identifier. *)
Lemma flow_shrinks sent rr c asked rr' : rr_inv sent rr c → NoDup asked → (∀ id, id ∈ asked → id ∉ sent) →
  flow rr' ⊆+ asked ++ flow rr → NoDup (flow rr') ∧ ∀ id, id ∈ flow rr' → id ∈ asked ++ sent.
Proof.
  intros Hinv Hnd Hnew Hsub. split.
  - apply submseteq_Permutation in Hsub as [k Hk].
    assert (NoDup (flow rr' ++ k)) as Hnd'; [|by apply NoDup_app in Hnd' as (? & _)].
    rewrite <- Hk. apply NoDup_app. split_and!; [done| |apply Hinv]. intros id Hid Hf. by apply (Hnew id), Hinv.
  - intros id Hid. apply (elem_of_submseteq _ _ _ Hid) in Hsub. apply elem_of_app in Hsub as [?|Hf%Hinv];
      apply elem_of_app; auto.
Qed.

(** The same requests wait for the same peers. *)
Lemma active_ids_ext m m' : rp_active <$> m = rp_active <$> m' → active_ids m ≡ₚ active_ids m'.
Proof.
  intros Heq. assert (∀ m : gmap PeerId RrPeer, active_ids m ≡ₚ map_to_list (rp_active <$> m) ≫= λ kv, elements kv.2) as Hm.
  { intros m0. unfold active_ids. rewrite map_to_list_fmap.
    induction (map_to_list m0) as [|kv l IH]; [done|]. cbn. by rewrite IH. }
  by rewrite (Hm m), (Hm m'), Heq.
Qed.

Lemma accounted_same sent rr c rr' effects : rr_inv sent rr c →
  rr_pending_dials rr' = rr_pending_dials rr → rr_pending_outbound rr' = rr_pending_outbound rr →
  rr_inbound rr' = rr_inbound rr → rp_active <$> rr_peers rr' = rp_active <$> rr_peers rr →
  answered effects = [] → accounted sent rr [] rr' effects [] c.
Proof.
  intros [Hwf Hcon Hop Hnd Hsent Hout Hact] Hd Ho Hi Hp Heff.
  assert (∀ p pc, rr_peers rr' !! p = Some pc → ∃ pc0, rr_peers rr !! p = Some pc0 ∧ rp_active pc = rp_active pc0) as Hto.
  { intros p pc Hpc. apply (f_equal (lookup p)) in Hp. rewrite !lookup_fmap, Hpc in Hp.
    destruct (rr_peers rr !! p) as [pc0|]; [|done]. cbn in Hp. exists pc0. split; [done|congruence]. }
  assert (∀ p pc, rr_peers rr !! p = Some pc → ∃ pc0, rr_peers rr' !! p = Some pc0 ∧ rp_active pc = rp_active pc0) as Hfrom.
  { intros p pc Hpc. apply (f_equal (lookup p)) in Hp. rewrite !lookup_fmap, Hpc in Hp.
    destruct (rr_peers rr' !! p) as [pc0|]; [|done]. cbn in Hp. exists pc0. split; [done|congruence]. }
  split; [split; unfold flow in *; rewrite ?Hd, ?Ho, ?Hi; try done|].
  - intros p [pc Hpc]. destruct (Hto p pc Hpc) as (pc0 & ? & _). apply Hcon. by eexists.
  - intros s ctx Hs. destruct (Hout s ctx Hs) as (pc & Hpc & Hin). destruct (Hfrom _ _ Hpc) as (pc0 & ? & Heq).
    exists pc0. by rewrite <- Heq.
  - intros p pc id Hpc Hin. destruct (Hto p pc Hpc) as (pc0 & Hpc0 & Heq). eapply Hact; [done|]. by rewrite <- Heq.
  - rewrite Heff. unfold outstanding. rewrite Hd. cbn. by rewrite (active_ids_ext _ _ Hp).
Qed.

(** A peer that is not known has nothing on its way. *)
Lemma inv_unknown sent rr c p : rr_inv sent rr c → rr_peers rr !! p = None →
  ∀ s ctx, rr_pending_outbound rr !! s = Some ctx → rc_peer ctx ≠ p.
Proof. intros Hinv Hp s ctx Hs <-. destruct (inv_outbound _ _ _ Hinv s ctx Hs) as (pc & Hpc & _). congruence. Qed.

(** A fresh substream is not pending. *)
Lemma inv_fresh sent rr c s : rr_inv sent rr c → s ∉ used c → rr_pending_outbound rr !! s = None.
Proof.
  intros Hinv Hs. destruct (rr_pending_outbound rr !! s) as [ctx|] eqn:E; [|done]. exfalso. apply Hs.
  apply (inv_wf _ _ _ Hinv s (rc_peer ctx)). rewrite <- (inv_opening _ _ _ Hinv), lookup_fmap, E. done.
Qed.

(** Steps that the handlers are made of. *)

Lemma inv_weaken sent sent' rr c : rr_inv sent rr c → (∀ id, id ∈ sent → id ∈ sent') → rr_inv sent' rr c.
Proof. intros [? ? ? ? Hs ? ?] Hsub. split; try done. intros id ?%Hs. auto. Qed.

Lemma inv_connect sent rr c p : rr_inv sent rr c → p ∉ connected c →
  rr_inv sent rr (mkContract ({[p]} ∪ connected c) (opening c) (used c)).
Proof.
  intros Hinv Hp. pose proof Hinv as [Hwf Hcon ? ? ? ? ?]. split; try done.
  - eapply delivers_wf, (D_established c p (Listener [] 0)); done.
  - intros q Hq%Hcon. cbn. set_solver.
Qed.

Lemma inv_new_peer sent rr c p : rr_inv sent rr c → rr_peers rr !! p = None → p ∈ connected c →
  rr_inv sent (rr_set_peers rr (<[p := RrPeer_new]> (rr_peers rr))) c ∧
  active_ids (<[p := RrPeer_new]> (rr_peers rr)) ≡ₚ active_ids (rr_peers rr).
Proof.
  intros Hinv Hp Hc. pose proof Hinv as [Hwf Hcon ? ? ? Hout Hact]. split; [split; try done|]; cbn.
  - intros q. rewrite lookup_insert_is_Some. intros [<-|[_ ?]]; auto.
  - intros s ctx Hs. destruct (Hout s ctx Hs) as (pc & Hpc & Hin). exists pc.
    rewrite lookup_insert_ne; [done|]. intros ->. congruence.
  - intros q pc id [[<- <-]|[_ Hq]]%lookup_insert_Some Hin; [set_solver|eauto].
  - by rewrite active_ids_insert.
Qed.

Lemma inv_undial sent rr c p ctx : rr_inv sent rr c → rr_pending_dials rr !! p = Some ctx →
  rr_inv sent (rr_set_dials rr (delete p (rr_pending_dials rr))) c ∧
  rc_request_id ctx ∈ sent ∧ rc_request_id ctx ∉ flow (rr_set_dials rr (delete p (rr_pending_dials rr))).
Proof.
  intros Hinv Hd. pose proof Hinv as [? ? ? Hnd Hsent ? ?].
  assert (flow rr ≡ₚ rc_request_id ctx :: flow (rr_set_dials rr (delete p (rr_pending_dials rr)))) as Hflow.
  { unfold flow. cbn. by rewrite (context_ids_delete _ _ _ Hd). }
  rewrite Hflow in Hnd. apply NoDup_cons in Hnd as [Hnin Hnd]. split_and!; [split; try done| |done].
  - intros id Hid. apply Hsent. rewrite Hflow. by right.
  - apply Hsent. rewrite Hflow. by left.
Qed.

Lemma inv_flow_inbound sent rr c : rr_inv sent rr c → NoDup (rf_request_id <$> rr_inbound rr).
Proof.
  intros Hinv. pose proof (inv_flow _ _ _ Hinv) as Hnd. unfold flow in Hnd.
  apply NoDup_app in Hnd as (_ & _ & Hnd). by apply NoDup_app in Hnd as (_ & _ & Hnd).
Qed.

(** A request that is active is on its way. *)
Lemma inv_active_flow sent rr c p pc id : rr_inv sent rr c → rr_peers rr !! p = Some pc → id ∈ rp_active pc →
  id ∈ context_ids (rr_pending_outbound rr) ++ (rf_request_id <$> rr_inbound rr).
Proof.
  intros Hinv Hp Hin. rewrite elem_of_app, context_ids_elem, list_elem_of_fmap.
  destruct (inv_active _ _ _ Hinv p pc id Hp Hin) as [(s & ctx & ? & ? & _)|(f & ? & ? & _)]; [left|right]; eauto.
Qed.

Lemma inv_start sent rr c p pc ctx s : rr_inv sent rr c → rr_peers rr !! p = Some pc → rc_peer ctx = p →
  s ∉ used c → rc_request_id ctx ∉ flow rr →
  let id := rc_request_id ctx in
  let peers := <[p := mkRrPeer ({[id]} ∪ rp_active pc) (rp_active_inbound pc)]> (rr_peers rr) in
  rr_inv (id :: sent) (rr_set_outbound (rr_set_peers rr peers) (<[s := ctx]> (rr_pending_outbound rr)))
    (mkContract (connected c) (<[s := p]> (opening c)) ({[s]} ∪ used c)) ∧
  id ∉ rp_active pc ∧ active_ids peers ≡ₚ id :: active_ids (rr_peers rr).
Proof.
  intros Hinv Hp Hpeer Hs Hid. cbn zeta. pose proof Hinv as [Hwf Hcon Hop Hnd Hsent Hout Hact].
  pose proof (inv_fresh _ _ _ _ Hinv Hs) as Hfs.
  assert (rc_request_id ctx ∉ rp_active pc) as Hna.
  { intros Hin. apply Hid. unfold flow. apply elem_of_app. right. by eapply inv_active_flow. }
  assert (flow (rr_set_outbound rr (<[s := ctx]> (rr_pending_outbound rr))) ≡ₚ rc_request_id ctx :: flow rr) as Hflow.
  { unfold flow. cbn. rewrite context_ids_insert by done. symmetry. apply Permutation_middle. }
  split_and!; [split; cbn| |].
  - eapply opens_wf, (O_ok p); [done|apply Hcon; by eexists|done].
  - intros q. rewrite lookup_insert_is_Some. intros [<-|[_ ?]]; [apply Hcon; by eexists|auto].
  - by rewrite fmap_insert, Hop, Hpeer.
  - unfold flow in *. cbn in *. rewrite Hflow. by constructor.
  - intros id. unfold flow in *. cbn in *. rewrite Hflow, !elem_of_cons. intros [->|?]; auto.
  - intros s' ctx' [[<- <-]|[_ Hs']]%lookup_insert_Some.
    + rewrite Hpeer, lookup_insert_eq. eexists. split; [done|]. cbn. set_solver.
    + destruct (Hout s' ctx' Hs') as (pc' & Hpc' & Hin). destruct (decide (rc_peer ctx' = p)) as [Heq|Hne].
      * rewrite Heq, lookup_insert_eq. eexists. split; [done|]. cbn. rewrite Heq in Hpc'. simplify_eq. set_solver.
      * rewrite lookup_insert_ne by done. eauto.
  - intros q pc' id [[<- <-]|[_ Hq]]%lookup_insert_Some Hin; cbn in *.
    + apply elem_of_union in Hin as [->%elem_of_singleton|Hin].
      * left. exists s, ctx. by rewrite lookup_insert_eq.
      * destruct (Hact p pc id Hp Hin) as [(s' & ctx' & Hs' & ?)|?]; [left|by right].
        exists s', ctx'. rewrite lookup_insert_ne; [done|]. congruence.
    + destruct (Hact q pc' id Hq Hin) as [(s' & ctx' & Hs' & ?)|?]; [left|by right].
      exists s', ctx'. rewrite lookup_insert_ne; [done|]. congruence.
  - done.
  - rewrite <- insert_delete_eq, active_ids_insert by by rewrite lookup_delete_eq. cbn.
    rewrite elements_union_singleton by done. by rewrite (active_ids_delete _ _ _ Hp).
Qed.

Lemma established_accounted sent rr c p c1 : rr_inv sent rr c → p ∉ connected c →
  c1 = mkContract ({[p]} ∪ connected c) (opening c) (used c) →
  ∃ rr' effects r, rr_on_connection_established debug sv rr p = Done (rr', effects, r) ∧
  ∀ c', calls sv c1 effects c' → accounted sent rr [] rr' effects [] c'.
Proof.
  intros Hinv Hp Hc1. unfold rr_on_connection_established. pose proof (inv_connect _ _ _ _ Hinv Hp) as Hinv1.
  rewrite <- Hc1 in Hinv1.
  destruct (rr_peers rr !! p) as [pc|] eqn:Ep; [destruct Hp; apply Hinv; by eexists|].
  assert (p ∈ connected c1) as Hpc1 by (subst c1; cbn; set_solver). clear Hc1.
  destruct (rr_pending_dials rr !! p) as [ctx|] eqn:Ed.
  - destruct (inv_undial _ _ _ _ _ Hinv1 Ed) as (Hinv2 & Hrid & Hnf).
    set (rr2 := rr_set_dials rr (delete p (rr_pending_dials rr))) in *.
    destruct (inv_new_peer _ rr2 _ p Hinv2 Ep Hpc1) as [Hinv3 Hact3]. change (rr_peers rr2) with (rr_peers rr) in Hact3.
    destruct (sv_open sv p) as [s|e] eqn:Es; eexists _, _, _; (split; [done|]); intros c' Hc; inv_calls.
    + destruct (inv_start _ _ _ p RrPeer_new (mkRequestContext p (rc_request_id ctx) (rc_request ctx) (rc_fallback ctx))
        s Hinv3) as (Hinv4 & _ & Hact4); [cbn; apply lookup_insert_eq|done|done|done|].
      cbn in Hinv4, Hact4. rewrite insert_insert_eq, union_empty_r_L in Hinv4, Hact4.
      split; [eapply inv_weaken; [exact Hinv4|]; cbn; intros id [->|?]%elem_of_cons; done|].
      unfold outstanding. cbn. rewrite Hact4, Hact3, (context_ids_delete _ _ _ Ed).
      symmetry. apply Permutation_middle.
    + split; [done|]. unfold outstanding. cbn. by rewrite (context_ids_delete _ _ _ Ed).
  - eexists _, _, _. split; [done|]. intros c' Hc. inv_calls.
    destruct (inv_new_peer _ _ _ _ Hinv1 Ep Hpc1) as [Hinv2 Hact]. split; [done|].
    unfold outstanding. cbn. by rewrite Hact.
Qed.

Lemma set_order_elements (s : gset RequestId) : set_order s ≡ₚ elements s.
Proof.
  apply NoDup_Permutation; [apply set_order_nodup|apply NoDup_elements|].
  intros id. by rewrite set_order_elem, elem_of_elements.
Qed.

Lemma closed_accounted sent rr c p : rr_inv sent rr c → p ∈ connected c → (∀ s, opening c !! s ≠ Some p) →
  let '(rr', effects) := rr_on_connection_closed rr p in
  accounted sent rr [] rr' effects [] (mkContract (connected c ∖ {[p]}) (opening c) (used c)).
Proof.
  intros Hinv Hp Hno. pose proof Hinv as [Hwf Hcon Hop Hnd Hsent Hout Hact]. unfold rr_on_connection_closed.
  assert (∀ s ctx, rr_pending_outbound rr !! s = Some ctx → rc_peer ctx ≠ p) as Hne.
  { intros s ctx Hs Heq. apply (Hno s). rewrite <- Hop, lookup_fmap, Hs. cbn. by rewrite Heq. }
  assert (filter (λ kv, rc_peer kv.2 ≠ p) (rr_pending_outbound rr) = rr_pending_outbound rr) as ->.
  { apply map_filter_id. intros s ctx Hs. by eapply Hne. }
  assert (contract_wf (mkContract (connected c ∖ {[p]}) (opening c) (used c))) as Hwf'.
  { by eapply delivers_wf, (D_closed c p). }
  cbn [rr_peers rr_set_outbound]. destruct (rr_peers rr !! p) as [pc|] eqn:Ep.
  - split; [split; cbn; try done|].
    + intros q [pc' [Hne' Hq]%lookup_delete_Some]. assert (q ∈ connected c) by (apply Hcon; by eexists). set_solver.
    + intros s ctx Hs. destruct (Hout s ctx Hs) as (pc' & Hpc' & ?). exists pc'.
      rewrite lookup_delete_ne; [done|]. intros ->. by apply (Hne s ctx).
    + intros q pc' id [Hne' Hq]%lookup_delete_Some. by apply Hact.
    + unfold outstanding. cbn. rewrite (active_ids_delete _ _ _ Ep).
      assert (∀ l, answered ((λ id, RrRequestFailed p id (ReRejected RjConnectionClosed)) <$> l) = l) as ->.
      { intros l. induction l as [|id l IH]; [done|]. cbn. by f_equal. }
      rewrite set_order_elements. apply Permutation_app_swap_app.
  - split; [|done]. split; cbn; try done. intros q [pc' Hq]. assert (q ∈ connected c) by (apply Hcon; by eexists).
    assert (q ≠ p) by congruence. set_solver.
Qed.

(** The context of a substream that is opening. *)
Lemma inv_context sent rr c s p : rr_inv sent rr c → opening c !! s = Some p →
  ∃ ctx, rr_pending_outbound rr !! s = Some ctx ∧ rc_peer ctx = p.
Proof.
  intros Hinv Hs. rewrite <- (inv_opening _ _ _ Hinv), lookup_fmap, fmap_Some in Hs.
  destruct Hs as (ctx & ? & ->). eauto.
Qed.

Lemma outbound_accounted sent rr c p s sub fb : rr_inv sent rr c → opening c !! s = Some p →
  ∃ rr' r, rr_on_outbound_substream debug rr p s sub fb = Done (rr', [], r) ∧
  accounted sent rr [] rr' [] [] (mkContract (connected c) (delete s (opening c)) (used c)).
Proof.
  intros Hinv Hs. destruct (inv_context _ _ _ _ _ Hinv Hs) as (ctx & Hctx & Hpeer).
  unfold rr_on_outbound_substream. rewrite Hctx. eexists _, _. split; [done|].
  pose proof Hinv as [Hwf Hcon Hop Hnd Hsent Hout Hact]. split; [|done].
  set (f := mkRequestFuture _ _ _ _ _).
  assert (∀ rr0, rr_pending_dials rr0 = rr_pending_dials rr →
    rr_pending_outbound rr0 = delete s (rr_pending_outbound rr) → rr_inbound rr0 = rr_inbound rr ++ [f] →
    flow rr0 ≡ₚ flow rr) as Hflow.
  { intros rr0 Hd Ho Hi. unfold flow. rewrite Hd, Ho, Hi, (context_ids_delete _ _ _ Hctx), fmap_app.
    apply Permutation_app_head. rewrite app_assoc. symmetry. apply Permutation_cons_append. }
  split; cbn.
  - by apply contract_wf_delete.
  - done.
  - by rewrite fmap_delete, Hop.
  - by rewrite Hflow.
  - intros id. rewrite Hflow by done. apply Hsent.
  - intros s' ctx' [_ Hs']%lookup_delete_Some. eauto.
  - intros q pc id Hq Hin. destruct (Hact q pc id Hq Hin) as [(s' & ctx' & Hs' & Hid & Hpe)|(g & Hg & ?)].
    + destruct (decide (s' = s)) as [->|Hne].
      * right. exists f. simplify_eq. split; [apply elem_of_app; right; by apply list_elem_of_singleton|done].
      * left. exists s', ctx'. by rewrite lookup_delete_ne.
    + right. exists g. split; [|done]. apply elem_of_app. by left.
Qed.

(** A request stops being active, and nothing else is on its way for it. *)
Lemma inv_settle sent rr c p pc id : rr_inv sent rr c → rr_peers rr !! p = Some pc →
  id ∉ context_ids (rr_pending_outbound rr) →
  rr_inv sent (rr_set_peers rr (<[p := mkRrPeer (rp_active pc ∖ {[id]}) (rp_active_inbound pc)]> (rr_peers rr))) c.
Proof.
  intros Hinv Hp Hid. pose proof Hinv as [Hwf Hcon Hop Hnd Hsent Hout Hact]. split; cbn; try done.
  - intros q. rewrite lookup_insert_is_Some. intros [<-|[_ ?]]; [apply Hcon; by eexists|auto].
  - intros s ctx Hs. destruct (Hout s ctx Hs) as (pc' & Hpc' & Hin).
    assert (rc_request_id ctx ≠ id) by (intros <-; apply Hid, context_ids_elem; eauto).
    destruct (decide (rc_peer ctx = p)) as [Heq|Hne].
    + rewrite Heq, lookup_insert_eq. eexists. split; [done|]. cbn. rewrite Heq in Hpc'. simplify_eq. set_solver.
    + rewrite lookup_insert_ne by done. eauto.
  - intros q pc' id' [[<- <-]|[_ Hq]]%lookup_insert_Some Hin; [|eauto]. cbn in Hin. eapply Hact; [done|set_solver].
Qed.

(** A substream that is no longer pending, and its request no longer active. *)
Lemma inv_fail sent rr c s ctx pc : rr_inv sent rr c → rr_pending_outbound rr !! s = Some ctx →
  rr_peers rr !! rc_peer ctx = Some pc →
  rr_inv sent (rr_set_peers (rr_set_outbound rr (delete s (rr_pending_outbound rr)))
    (<[rc_peer ctx := mkRrPeer (rp_active pc ∖ {[rc_request_id ctx]}) (rp_active_inbound pc)]> (rr_peers rr)))
    (mkContract (connected c) (delete s (opening c)) (used c)).
Proof.
  intros Hinv Hs Hpc. pose proof Hinv as [Hwf Hcon Hop Hnd Hsent Hout Hact].
  assert (flow rr ≡ₚ rc_request_id ctx :: flow (rr_set_outbound rr (delete s (rr_pending_outbound rr)))) as Hflow.
  { unfold flow. cbn. rewrite (context_ids_delete _ _ _ Hs). cbn. symmetry. apply Permutation_middle. }
  rewrite Hflow in Hnd. apply NoDup_cons in Hnd as [Hnin Hnd].
  assert (∀ s' ctx', rr_pending_outbound rr !! s' = Some ctx' → s' ≠ s → rc_request_id ctx' ≠ rc_request_id ctx) as Hother.
  { intros s' ctx' Hs' Hne Heq. apply Hnin. unfold flow. cbn. rewrite !elem_of_app. right. left.
    apply context_ids_elem. exists s', ctx'. by rewrite lookup_delete_ne. }
  split; cbn.
  - by apply contract_wf_delete.
  - intros q. rewrite lookup_insert_is_Some. intros [<-|[_ ?]]; [apply Hcon; by eexists|auto].
  - by rewrite fmap_delete, Hop.
  - done.
  - intros id Hid. apply Hsent. rewrite Hflow. by right.
  - intros s' ctx' [Hne Hs']%lookup_delete_Some. destruct (Hout s' ctx' Hs') as (pc' & Hpc' & Hin).
    specialize (Hother s' ctx' Hs' ltac:(done)). destruct (decide (rc_peer ctx' = rc_peer ctx)) as [Heq|Hne'].
    + rewrite Heq, lookup_insert_eq. eexists. split; [done|]. cbn. rewrite Heq in Hpc'. simplify_eq. set_solver.
    + rewrite lookup_insert_ne by done. eauto.
  - intros q pc' id Hq Hin.
    assert (∃ pc0, rr_peers rr !! q = Some pc0 ∧ id ∈ rp_active pc0 ∧ (q = rc_peer ctx → id ≠ rc_request_id ctx)) as (pc0 & Hq0 & Hin0 & Hne).
    { apply lookup_insert_Some in Hq as [[<- <-]|[Hne Hq]]; [exists pc; cbn in Hin; set_solver|]. exists pc'. naive_solver. }
    destruct (Hact q pc0 id Hq0 Hin0) as [(s' & ctx' & Hs' & Hid & Hpe)|?]; [left|by right].
    exists s', ctx'. rewrite lookup_delete_ne; [done|]. intros ->. simplify_eq. by apply Hne.
Qed.

Lemma open_failure_accounted sent rr c p s e : rr_inv sent rr c → opening c !! s = Some p →
  ∃ rr' effects r, rr_on_substream_open_failure debug rr s e = Done (rr', effects, r) ∧
  (∀ c1 c', calls sv c1 effects c' → c' = c1) ∧
  accounted sent rr [] rr' effects [] (mkContract (connected c) (delete s (opening c)) (used c)).
Proof.
  intros Hinv Hs. destruct (inv_context _ _ _ _ _ Hinv Hs) as (ctx & Hctx & Hpeer).
  unfold rr_on_substream_open_failure. rewrite Hctx. eexists _, _, _. split; [done|].
  split; [intros c1 c' Hc; by inv_calls|].
  destruct (inv_outbound _ _ _ Hinv s ctx Hctx) as (pc & Hpc & Hin). pose proof (inv_fail _ _ _ _ _ _ Hinv Hctx Hpc) as Hinv'.
  cbn [rr_peers rr_set_outbound]. rewrite (alter_present _ _ _ _ Hpc). split; [done|].
  unfold outstanding. cbn. rewrite Permutation_middle. apply Permutation_app_head.
  apply (active_ids_update _ _ pc _ [rc_request_id ctx]); [done|]. by apply elements_remove.
Qed.

Lemma dial_failure_accounted sent rr c p : rr_inv sent rr c →
  let '(rr', effects) := rr_on_dial_failure rr p in
  (∀ c1 c', calls sv c1 effects c' → c' = c1) ∧ accounted sent rr [] rr' effects [] c.
Proof.
  intros Hinv. unfold rr_on_dial_failure. destruct (rr_pending_dials rr !! p) as [ctx|] eqn:Ed.
  2: { split; [intros c1 c' Hc; by inv_calls|]. by apply accounted_same. }
  split; [intros c1 c' Hc; by inv_calls|]. destruct (inv_undial _ _ _ _ _ Hinv Ed) as (Hinv2 & _ & Hnf).
  set (rr2 := rr_set_dials rr (delete p (rr_pending_dials rr))) in *.
  set (peers := alter _ p (rr_peers rr2)).
  destruct (accounted_same sent rr2 c (rr_set_peers rr2 peers) [] Hinv2) as [Hinv3 Hout]; try done.
  { cbn. subst peers. destruct (rr_peers rr2 !! p) as [pc|] eqn:Ep.
    - rewrite (alter_present _ _ _ _ Ep), fmap_insert. apply insert_id.
      change (rr_peers rr2) with (rr_peers rr) in *. rewrite lookup_fmap, Ep. cbn. f_equal. symmetry. apply difference_disjoint_L. apply disjoint_singleton_r. intros Hin.
      apply Hnf. unfold flow. apply elem_of_app. right. by eapply inv_active_flow.
    - f_equal. apply map_eq. intros q. destruct (decide (q = p)) as [->|Hne].
      + by rewrite lookup_alter_eq, Ep.
      + by rewrite lookup_alter_ne. }
  split; [done|]. cbn. cbn in Hout. rewrite Hout. unfold outstanding. cbn. by rewrite (context_ids_delete _ _ _ Ed).
Qed.

Lemma closed_quiet rr p c1 c' : calls sv c1 (rr_on_connection_closed rr p).2 c' → c' = c1.
Proof.
  unfold rr_on_connection_closed. cbn [rr_peers rr_set_outbound]. destruct (rr_peers rr !! p) as [pc|]; cbn.
  - induction (set_order (rp_active pc)) as [|id l IH]; cbn; intros Hc; inv_calls; auto.
  - intros Hc. by inv_calls.
Qed.

(** The request that a request to a peer being dialed for replaces. *)
Definition replaced rr p (dial : DialOptions) : list RequestId :=
  match rr_peers rr !! p, dial, sv_dial sv p with
  | None, DialPeerOption, Ok _ =>
      match rr_pending_dials rr !! p with Some ctx => [rc_request_id ctx] | None => [] end
  | _, _, _ => []
  end.

Lemma inv_dial sent rr c p ctx : rr_inv sent rr c → rc_request_id ctx ∉ sent →
  rr_inv (rc_request_id ctx :: sent) (rr_set_dials rr (<[p := ctx]> (rr_pending_dials rr))) c.
Proof.
  intros Hinv Hid. pose proof Hinv as [? ? ? Hnd Hsent ? ?].
  destruct (flow_shrinks sent rr c [rc_request_id ctx] (rr_set_dials rr (<[p := ctx]> (rr_pending_dials rr))) Hinv)
    as [Hnd' Hsent']; [apply NoDup_singleton|by intros id ->%list_elem_of_singleton| |].
  - unfold flow. cbn. rewrite <- insert_delete_eq, context_ids_insert by by rewrite lookup_delete_eq. cbn.
    apply submseteq_skip, submseteq_skips_r. destruct (rr_pending_dials rr !! p) as [old|] eqn:E.
    + rewrite (context_ids_delete _ _ _ E). by apply submseteq_cons.
    + by rewrite delete_id.
  - split; try done.
Qed.

Lemma send_accounted sent rr c p id req dial fb : rr_inv sent rr c → id ∉ sent →
  ∃ rr' effects, rr_send_or_report debug sv rr p id req dial fb = Done (rr', effects) ∧
  ∀ c', calls sv c effects c' → accounted sent rr [id] rr' effects (replaced rr p dial) c'.
Proof.
  intros Hinv Hid. unfold rr_send_or_report, rr_on_send_request, replaced.
  assert (rr_inv (id :: sent) rr c) as Hinv1 by (eapply inv_weaken; [done|]; intros; by right).
  assert (∀ effects, answered effects = [id] → accounted sent rr [id] rr effects [] c) as Hfail.
  { intros effects Heff. split; [done|]. by rewrite Heff. }
  destruct (rr_peers rr !! p) as [pc|] eqn:Ep.
  - destruct (sv_open sv p) as [s|e] eqn:Es; cbn.
    + assert (id ∉ flow rr) as Hnf by (intros ?%(inv_sent _ _ _ Hinv); done).
      assert (id ∉ rp_active pc) as Hna.
      { intros Hin. apply Hnf. unfold flow. apply elem_of_app. right. by eapply inv_active_flow. }
      unfold debug_assert. rewrite decide_True by done.
      replace (if debug then _ else _) with (Done (rr_set_outbound
        (rr_set_peers rr (<[p:=mkRrPeer ({[id]} ∪ rp_active pc) (rp_active_inbound pc)]> (rr_peers rr)))
        (<[s:=mkRequestContext p id req fb]> (rr_pending_outbound rr)), [RrOpenSubstream p], @Ok RequestResponseError unit tt)) by by destruct debug.
      cbn. eexists _, _. split; [done|]. intros c' Hc. inv_calls.
      destruct (inv_start sent rr c p pc (mkRequestContext p id req fb) s) as (Hinv2 & _ & Hact); [done..|].
      cbn in Hinv2, Hact. split; [done|]. unfold outstanding. cbn. rewrite Hact. symmetry. apply Permutation_middle.
    + eexists _, _. split; [done|]. intros c' Hc. inv_calls. by apply Hfail.
  - destruct dial; [destruct (sv_dial sv p) as [u|e] eqn:Edial|]; cbn; eexists _, _; (split; [done|]); intros c' Hc;
      inv_calls; try by apply Hfail.
    split; [by apply (inv_dial sent rr _ p (mkRequestContext p id req fb))|]. unfold outstanding. cbn.
    rewrite <- insert_delete_eq, context_ids_insert by by rewrite lookup_delete_eq. cbn.
    destruct (rr_pending_dials rr !! p) as [old|] eqn:E; cbn.
    + rewrite (context_ids_delete _ _ _ E). cbn. apply perm_swap.
    + by rewrite delete_id.
Qed.

(** A future ends whose request is not active any more. *)
Lemma inv_end sent rr c i f : rr_inv sent rr c → rr_inbound rr !! i = Some f →
  (∀ pc, rr_peers rr !! rf_peer f = Some pc → rf_request_id f ∉ rp_active pc) →
  rr_inv sent (rr_set_inbound rr (take_nth (rr_inbound rr) i)) c.
Proof.
  intros Hinv Hi Hna. pose proof Hinv as [? ? ? Hnd Hsent ? Hact].
  destruct (flow_shrinks sent rr c [] (rr_set_inbound rr (take_nth (rr_inbound rr) i)) Hinv) as [Hnd' Hsent'];
    [constructor|set_solver| |].
  - unfold flow. cbn. do 2 apply submseteq_skips_l. apply sublist_submseteq.
    unfold take_nth. rewrite <- (take_drop_middle _ _ _ Hi) at 3. rewrite !fmap_app. apply sublist_app; [done|].
    cbn. by apply sublist_cons.
  - split; try done. intros q pc id Hq Hin.
    destruct (Hact q pc id Hq Hin) as [?|(g & Hg & Hid & Hpe)]; [by left|right]. exists g. split; [|done].
    destruct (take_nth_elem _ _ _ _ Hi Hg) as [->|?]; [|done]. subst. by destruct (Hna pc Hq).
Qed.

Lemma inv_cancels sent rr c cancels : rr_inv sent rr c → rr_inv sent (rr_set_cancels rr cancels) c.
Proof. by intros [? ? ? ? ? ? ?]; split. Qed.

(** What a request that was canceled leaves. *)
Definition canceled rr (i : nat) (done : SendEnd) (wait : WaitEnd) : list RequestId :=
  match rr_inbound rr !! i, done, wait with
  | Some f, SendOk, WaitCanceled =>
      match rr_peers rr !! rf_peer f with
      | Some pc => if decide (rf_request_id f ∈ rp_active pc) then [rf_request_id f] else []
      | None => []
      end
  | _, _, _ => []
  end.

Lemma request_future_answered f done wait : answered (request_future f done wait).1 = [].
Proof. destruct done as [|[| | |[]| | | |]|], wait as [| |[[]|]]; done. Qed.

(** Only a cancellation ends a request without an answer. *)
Lemma request_future_canceled f done wait : (request_future f done wait).2 = Err ReCanceled ↔
  done = SendOk ∧ wait = WaitCanceled.
Proof.
  split; [|by intros [-> ->]]. destruct done as [|[| | |[]| | | |]|], wait as [| |[[]|]]; done.
Qed.

Lemma request_end_accounted sent rr c i done wait : rr_inv sent rr c →
  let '(rr', effects) := rr_on_request_end rr i done wait in
  (∀ c1 c', calls sv c1 effects c' → c' = c1) ∧
  accounted sent rr [] rr' effects (canceled rr i done wait) c.
Proof.
  intros Hinv. unfold rr_on_request_end, canceled. destruct (rr_inbound rr !! i) as [f|] eqn:Ei.
  2: { split; [intros c1 c' Hc; by inv_calls|]. by apply accounted_same. }
  assert (∀ effects, (∀ e, e ∈ effects → asks e = None) → ∀ c1 c', calls sv c1 effects c' → c' = c1) as Hquiet.
  { intros effects Hq c1 c' Hc. induction Hc as [|? e ? ? ? ? He|? ? ? ? ? ? IH]; [done| |apply IH; set_solver].
    rewrite (Hq e) in He; [done|left]. }
  pose proof (request_future_answered f done wait) as Hans. pose proof (request_future_canceled f done wait) as Hcan.
  assert (∀ e, e ∈ (request_future f done wait).1 → asks e = None) as Hasks.
  { intros e. destruct done as [|[| | |[]| | | |]|], wait as [| |[[]|]]; cbn; set_solver. }
  destruct (request_future f done wait) as [eff msg]. cbn [fst snd] in Hans, Hcan, Hasks.
  unfold rr_on_substream_event. cbn [rr_peers rr_set_inbound].
  destruct (rr_peers rr !! rf_peer f) as [pc|] eqn:Ep.
  2: { rewrite app_nil_r. split; [by apply Hquiet|]. split; [|by rewrite Hans; destruct done, wait].
       apply inv_cancels, (inv_end _ _ _ _ _ Hinv Ei). by rewrite Ep. }
  destruct (decide (rf_request_id f ∈ rp_active pc)) as [Hin|Hnin].
  2: { rewrite app_nil_r. split; [by apply Hquiet|]. split; [|by rewrite Hans; destruct done, wait].
       apply inv_cancels, (inv_end _ _ _ _ _ Hinv Ei). rewrite Ep. by intros ? [= <-]. }
  set (peers := <[rf_peer f := mkRrPeer (rp_active pc ∖ {[rf_request_id f]}) (rp_active_inbound pc)]> (rr_peers rr)).
  assert (rf_request_id f ∉ context_ids (rr_pending_outbound rr)) as Hno.
  { intros Ho. pose proof (inv_flow _ _ _ Hinv) as Hnd. unfold flow in Hnd.
    apply NoDup_app in Hnd as (_ & _ & Hnd). apply NoDup_app in Hnd as (_ & Hdis & _).
    apply (Hdis _ Ho). apply list_elem_of_fmap. exists f. split; [done|]. by eapply list_elem_of_lookup_2. }
  pose proof (inv_settle _ _ _ _ _ _ Hinv Ep Hno) as Hinv2. fold peers in Hinv2.
  assert (rr_inv sent (rr_set_inbound (rr_set_peers rr peers) (take_nth (rr_inbound rr) i)) c) as Hinv3.
  { apply (inv_end _ (rr_set_peers rr peers) _ _ _ Hinv2 Ei). cbn. subst peers. rewrite lookup_insert_eq.
    intros ? [= <-]. cbn. set_solver. }
  assert (active_ids (rr_peers rr) ≡ₚ rf_request_id f :: active_ids peers) as Hact.
  { symmetry. apply (active_ids_update _ _ pc _ [rf_request_id f]); [done|]. by apply elements_remove. }
  assert (rr_inv sent (rr_set_cancels (rr_set_inbound (rr_set_peers rr peers) (take_nth (rr_inbound rr) i))
    (rr_cancels rr ∖ {[rf_request_id f]})) c) as Hinv4 by by apply inv_cancels.
  assert (∀ e, asks e = None → answered [e] = [rf_request_id f] → ¬ (done = SendOk ∧ wait = WaitCanceled) →
    (∀ c1 c', calls sv c1 (eff ++ [e]) c' → c' = c1) ∧
    accounted sent rr [] (rr_set_cancels (rr_set_inbound (rr_set_peers rr peers) (take_nth (rr_inbound rr) i))
      (rr_cancels rr ∖ {[rf_request_id f]})) (eff ++ [e])
      match done, wait with SendOk, WaitCanceled => [rf_request_id f] | _, _ => [] end c) as Hend.
  { intros e He Hae Hnc. split; [apply Hquiet; set_solver|]. split; [done|].
    rewrite answered_app, Hans, Hae. unfold outstanding. cbn. rewrite Hact.
    replace (match done with SendOk => _ | _ => _ end) with (@nil RequestId) by (destruct done, wait; naive_solver).
    cbn. apply Permutation_middle. }
  destruct msg as [m|e]; [apply (Hend (RrResponseReceived _ _ _ _)); naive_solver|].
  destruct e; try (apply (Hend (RrRequestFailed _ _ _)); naive_solver).
  destruct Hcan as [[-> ->] _]; [done|]. rewrite app_nil_r. split; [by apply Hquiet|]. split; [done|].
  rewrite Hans. unfold outstanding. cbn. rewrite Hact. apply Permutation_middle.
Qed.

(** ** A turn of the event loop *)

(** The request that a branch takes in, and those that it leaves without an answer. *)
Definition command_ids (cmd : RequestResponseCommand) : list RequestId :=
  match cmd with
  | RcSendRequest _ id _ _ | RcSendRequestWithFallback _ id _ _ _ => [id]
  | RcCancelRequest _ => []
  end.

Definition taken (b : RrBranch) : list RequestId :=
  match b with RbCommand (Some cmd) => command_ids cmd | _ => [] end.

Definition turn_replaced rr (b : RrBranch) : list RequestId :=
  match b with
  | RbCommand (Some (RcSendRequest p _ _ dial)) | RbCommand (Some (RcSendRequestWithFallback p _ _ _ dial)) =>
      replaced rr p dial
  | _ => []
  end.

Definition turn_canceled rr (b : RrBranch) : list RequestId :=
  match b with RbRequestEnd i done wait => canceled rr i done wait | _ => [] end.

(** What the branch may be: events as the contract has them, and requests under new identifiers. *)
Definition turn_ok (sent : list RequestId) (c : Contract) (b : RrBranch) (c1 : Contract) : Prop :=
  match b with
  | RbService (Some e) => delivers c e c1
  | _ => c1 = c ∧ ∀ id, id ∈ taken b → id ∉ sent
  end.

Lemma quiet_accounted sent rr c asked rr' effects lost :
  (∀ c1 c', calls sv c1 effects c' → c' = c1) ∧ accounted sent rr asked rr' effects lost c →
  ∀ c', calls sv c effects c' → accounted sent rr asked rr' effects lost c'.
Proof. by intros [Hq Ha] c' ->%Hq. Qed.

Lemma inbound_substream_accounted sent rr c p fb sub : rr_inv sent rr c →
  let '(rr', effects) := (rr_on_inbound_substream rr p fb sub).1 in
  (∀ c1 c', calls sv c1 effects c' → c' = c1) ∧ accounted sent rr [] rr' effects [] c.
Proof.
  intros Hinv. unfold rr_on_inbound_substream. destruct (match rr_max_inbound rr with Some _ => _ | None => _ end).
  { split; [intros c1 c' Hc; by inv_calls|]. by apply accounted_same. }
  cbn [rr_peers rr_set_next]. destruct (rr_peers rr !! p) as [pc|] eqn:Ep; cbn.
  - split; [intros c1 c' Hc; by inv_calls|]. apply accounted_same; try done. cbn.
    rewrite fmap_insert. apply insert_id. by rewrite lookup_fmap, Ep.
  - split; [intros c1 c' Hc; by inv_calls|]. by apply accounted_same.
Qed.

Lemma request_read_accounted sent rr c i req : rr_inv sent rr c →
  let '(rr', effects) := rr_on_request_read rr i req in
  (∀ c1 c', calls sv c1 effects c' → c' = c1) ∧ accounted sent rr [] rr' effects [] c.
Proof.
  intros Hinv. unfold rr_on_request_read. destruct (rr_inbound_requests rr !! i) as [f|] eqn:Ei.
  2: { split; [intros c1 c' Hc; by inv_calls|]. by apply accounted_same. }
  unfold rr_on_inbound_request. cbn [rr_peers rr_set_requests].
  destruct (rr_peers rr !! if_peer f) as [pc|] eqn:Ep; cbn.
  2: { split; [intros c1 c' Hc; by inv_calls|]. by apply accounted_same. }
  assert (rp_active <$> <[if_peer f := mkRrPeer (rp_active pc) (delete (if_request_id f) (rp_active_inbound pc))]>
    (rr_peers rr) = rp_active <$> rr_peers rr).
  { rewrite fmap_insert. apply insert_id. by rewrite lookup_fmap, Ep. }
  destruct (rp_active_inbound pc !! if_request_id f) as [fb|]; [destruct req|]; cbn;
    (split; [intros c1 c' Hc; by inv_calls|]); by apply accounted_same.
Qed.

Lemma response_end_accounted sent rr c i e : rr_inv sent rr c →
  let '(rr', effects) := rr_on_response_end rr i e in
  (∀ c1 c', calls sv c1 effects c' → c' = c1) ∧ accounted sent rr [] rr' effects [] c.
Proof.
  intros Hinv. unfold rr_on_response_end. destruct (rr_outbound_responses rr !! i) as [f|] eqn:Ei.
  - split; [intros c1 c' Hc; destruct e as [|? []]; by inv_calls|]. apply accounted_same; try done.
    by destruct e as [|? []].
  - split; [intros c1 c' Hc; by inv_calls|]. by apply accounted_same.
Qed.

Lemma command_accounted sent rr c cmd : rr_inv sent rr c → (∀ id, id ∈ command_ids cmd → id ∉ sent) →
  ∃ rr' effects, rr_handle_user_command debug sv rr cmd = Done (rr', effects) ∧
  ∀ c', calls sv c effects c' →
    accounted sent rr (command_ids cmd) rr' effects (turn_replaced rr (RbCommand (Some cmd))) c'.
Proof.
  intros Hinv Hnew. destruct cmd as [p id req dial|p id req fb dial|id]; cbn -[accounted].
  - apply send_accounted; [done|]. apply Hnew. by left.
  - apply send_accounted; [done|]. apply Hnew. by left.
  - eexists _, _. split; [done|]. intros c' Hc. inv_calls. by apply accounted_same.
Qed.

Lemma event_accounted sent rr c e c1 : rr_inv sent rr c → delivers c e c1 →
  ∃ rr' effects, rr_handle_service_event debug sv rr e = Done (rr', effects) ∧
  ∀ c', calls sv c1 effects c' → accounted sent rr [] rr' effects [] c'.
Proof.
  intros Hinv Hd. destruct Hd as [c p e Hp|c p Hp Hno|c p l|c p proto fb sub Hp|c p proto fb id sub Hs|c id e p Hs];
    cbn [rr_handle_service_event].
  - destruct (established_accounted sent rr c p _ Hinv Hp eq_refl) as (rr' & eff & r & -> & Ha). eexists _, _. by split.
  - pose proof (closed_accounted sent rr c p Hinv Hp Hno) as Ha. pose proof (closed_quiet rr p) as Hq.
    destruct (rr_on_connection_closed rr p) as [rr' eff]. eexists _, _. split; [done|]. by apply quiet_accounted.
  - pose proof (dial_failure_accounted sent rr c p Hinv) as Ha.
    destruct (rr_on_dial_failure rr p) as [rr' eff]. eexists _, _. split; [done|]. by apply quiet_accounted.
  - pose proof (inbound_substream_accounted sent rr c p fb sub Hinv) as Ha.
    destruct (rr_on_inbound_substream rr p fb sub).1 as [rr' eff]. eexists _, _. split; [done|]. by apply quiet_accounted.
  - destruct (outbound_accounted sent rr c p id sub fb Hinv Hs) as (rr' & r & -> & Ha). eexists _, _. split; [done|].
    intros c' Hc. by inv_calls.
  - destruct (open_failure_accounted sent rr c p id e Hinv Hs) as (rr' & eff & r & -> & Ha). eexists _, _. split; [done|].
    by apply quiet_accounted.
Qed.

(** Every turn keeps the invariant and the account, and does not panic. *)
Lemma turn_accounted sent rr c b c1 : rr_inv sent rr c → turn_ok sent c b c1 →
  ∃ rr' effects exit, rr_turn debug sv rr b = Done (rr', effects, exit) ∧
  ∀ c', calls sv c1 effects c' →
    accounted sent rr (taken b) rr' effects (turn_replaced rr b ++ turn_canceled rr b) c'.
Proof.
  intros Hinv Hok. destruct b as [[e|]|i done wait|i e|i req|[cmd|]]; cbn [rr_turn].
  - destruct (event_accounted sent rr c e c1 Hinv Hok) as (rr' & eff & -> & Ha). eexists _, _, _. by split.
  - destruct Hok as [-> _]. eexists _, _, _. split; [done|]. intros c' Hc. inv_calls. by apply accounted_same.
  - destruct Hok as [-> _]. pose proof (request_end_accounted sent rr c i done wait Hinv) as Ha.
    destruct (rr_on_request_end rr i done wait) as [rr' eff]. eexists _, _, _. split; [done|]. by apply quiet_accounted.
  - destruct Hok as [-> _]. pose proof (response_end_accounted sent rr c i e Hinv) as Ha.
    destruct (rr_on_response_end rr i e) as [rr' eff]. eexists _, _, _. split; [done|]. by apply quiet_accounted.
  - destruct Hok as [-> _]. pose proof (request_read_accounted sent rr c i req Hinv) as Ha.
    destruct (rr_on_request_read rr i req) as [rr' eff]. eexists _, _, _. split; [done|]. by apply quiet_accounted.
  - destruct Hok as [-> Hnew]. destruct (command_accounted sent rr c cmd Hinv Hnew) as (rr' & eff & -> & Ha).
    eexists _, _, _. split; [done|]. cbn [turn_canceled]. rewrite app_nil_r. done.
  - destruct Hok as [-> _]. eexists _, _, _. split; [done|]. intros c' Hc. inv_calls. by apply accounted_same.
Qed.
End handlers.
