(* ===== verification/RequestResponseHandle.v ===== *)
(** * The user's handle of the request-response protocol

    [RequestResponseHandle] of [src/src/protocol/request_response/handle.rs]: it numbers the
    requests of the user, queues them as commands for the protocol, hands its events to the
    user and keeps the senders for the responses that the user owes. Channels are the lists of
    what they hold; a sender that waits for room in one is a call that is not made yet. The
    counter of the identifiers is shared with the protocol and therefore an argument. *)

From stdpp Require Import base tactics option list gmap strings.
From Stdlib Require Import NArith Lia Init.Byte.
From S2P Require Import Prelude Multiaddr TransportManagerHandle ProtocolTypes RequestResponse.

Local Open Scope litep2p_scope.

(** ** Data *)

(** The sender of the response is that of the channel of the request with the same identifier. *)
Inductive InnerRequestResponseEvent :=
| InRequestReceived (peer : PeerId) (fallback : option ProtocolName) (request_id : RequestId)
    (request : list byte) (response_tx : RequestId)
| InResponseReceived (peer : PeerId) (fallback : option ProtocolName) (request_id : RequestId)
    (response : list byte)
| InRequestFailed (peer : PeerId) (request_id : RequestId) (error : RequestResponseError).

Inductive RequestResponseEvent :=
| EvRequestReceived (peer : PeerId) (fallback : option ProtocolName) (request_id : RequestId)
    (request : list byte)
| EvResponseReceived (peer : PeerId) (fallback : option ProtocolName) (request_id : RequestId)
    (response : list byte)
| EvRequestFailed (peer : PeerId) (request_id : RequestId) (error : RequestResponseError).

(** What the protocol sends over its channel to the handle. *)
Definition inner_event (e : RrEffect) : option InnerRequestResponseEvent :=
  match e with
  | RrRequestReceived peer fallback request_id request =>
      Some (InRequestReceived peer fallback request_id request request_id)
  | RrResponseReceived peer fallback request_id response =>
      Some (InResponseReceived peer fallback request_id response)
  | RrRequestFailed peer request_id error => Some (InRequestFailed peer request_id error)
  | RrDial _ | RrOpenSubstream _ | RrSend _ _ | RrClose _ => None
  end.

(** [From<InnerRequestResponseEvent> for RequestResponseEvent] *)
Definition event_into (e : InnerRequestResponseEvent) : outcome RequestResponseEvent :=
  match e with
  | InResponseReceived peer fallback request_id response =>
      Done (EvResponseReceived peer fallback request_id response)
  | InRequestFailed peer request_id error => Done (EvRequestFailed peer request_id error)
  | _ => Panic
  end.

Record RequestResponseHandle := mkRequestResponseHandle {
  rh_event_rx : list InnerRequestResponseEvent;
  rh_command_tx : list RequestResponseCommand;
  rh_pending_responses : gmap RequestId RequestId;
}.

(** [RequestResponseHandle::new] *)
Definition RequestResponseHandle_new : RequestResponseHandle := mkRequestResponseHandle [] [] ∅.

(** ** Requests *)

(** [RequestResponseHandle::next_request_id], with the new value of the counter *)
Definition rh_next_request_id (counter : N) : RequestId * N := (counter, usize_wrapping_add counter 1).

Inductive RhError := RhChannelClogged.

Section capacity.
(** The room in the channel of commands. *)
Context (capacity : nat).

Definition has_room (h : RequestResponseHandle) : bool := length (rh_command_tx h) <? capacity.

Definition rh_queue (h : RequestResponseHandle) (command : RequestResponseCommand) : RequestResponseHandle :=
  mkRequestResponseHandle (rh_event_rx h) (rh_command_tx h ++ [command]) (rh_pending_responses h).

Definition request_command (peer : PeerId) (request_id : RequestId) (request : list byte)
    (fallback : option (ProtocolName * list byte)) (dial_options : DialOptions) : RequestResponseCommand :=
  match fallback with
  | None => RcSendRequest peer request_id request dial_options
  | Some fallback => RcSendRequestWithFallback peer request_id request fallback dial_options
  end.

(** [RequestResponseHandle::send_request] and [send_request_with_fallback], once there is room *)
Definition rh_send_request (h : RequestResponseHandle) (counter : N) (peer : PeerId) (request : list byte)
    (fallback : option (ProtocolName * list byte)) (dial_options : DialOptions) :
    RequestResponseHandle * N * RequestId :=
  let '(request_id, counter) := rh_next_request_id counter in
  (rh_queue h (request_command peer request_id request fallback dial_options), counter, request_id).

(** [RequestResponseHandle::try_send_request] and [try_send_request_with_fallback] *)
Definition rh_try_send_request (h : RequestResponseHandle) (counter : N) (peer : PeerId) (request : list byte)
    (fallback : option (ProtocolName * list byte)) (dial_options : DialOptions) :
    RequestResponseHandle * N * result RhError RequestId :=
  let '(request_id, counter) := rh_next_request_id counter in
  if has_room h then
    (rh_queue h (request_command peer request_id request fallback dial_options), counter, Ok request_id)
  else (h, counter, Err RhChannelClogged).

(** [RequestResponseHandle::cancel_request], once there is room *)
Definition rh_cancel_request (h : RequestResponseHandle) (request_id : RequestId) : RequestResponseHandle :=
  rh_queue h (RcCancelRequest request_id).
End capacity.

(** ** Responses *)

(** [RequestResponseHandle::reject_request], and the sender that is dropped *)
Definition rh_reject_request (h : RequestResponseHandle) (request_id : RequestId) :
    RequestResponseHandle * option RequestId :=
  match rh_pending_responses h !! request_id with
  | None => (h, None)
  | Some sender =>
      (mkRequestResponseHandle (rh_event_rx h) (rh_command_tx h) (delete request_id (rh_pending_responses h)),
       Some sender)
  end.

(** [RequestResponseHandle::send_response] and [send_response_with_feedback], and what is sent
    over which sender *)
Definition rh_send_response (h : RequestResponseHandle) (request_id : RequestId) (response : list byte) :
    RequestResponseHandle * option (RequestId * list byte) :=
  match rh_pending_responses h !! request_id with
  | None => (h, None)
  | Some response_tx =>
      (mkRequestResponseHandle (rh_event_rx h) (rh_command_tx h) (delete request_id (rh_pending_responses h)),
       Some (response_tx, response))
  end.

(** ** Events *)

(** The protocol sends its events. *)
Definition rh_receive (h : RequestResponseHandle) (effects : list RrEffect) : RequestResponseHandle :=
  mkRequestResponseHandle (rh_event_rx h ++ omap inner_event effects) (rh_command_tx h) (rh_pending_responses h).

(** The protocol takes the next command. *)
Definition rh_next_command (h : RequestResponseHandle) :
    option (RequestResponseHandle * RequestResponseCommand) :=
  match rh_command_tx h with
  | [] => None
  | command :: commands => Some (mkRequestResponseHandle (rh_event_rx h) commands (rh_pending_responses h), command)
  end.

(** [Stream::poll_next]; [closed] says that the protocol has exited. *)
Definition rh_poll_next (closed : bool) (h : RequestResponseHandle) :
    outcome (RequestResponseHandle * Poll (option RequestResponseEvent)) :=
  match rh_event_rx h with
  | [] => Done (h, if closed then Ready None else Prelude.Pending)
  | InRequestReceived peer fallback request_id request response_tx :: events =>
      Done (mkRequestResponseHandle events (rh_command_tx h)
              (<[request_id := response_tx]> (rh_pending_responses h)),
            Ready (Some (EvRequestReceived peer fallback request_id request)))
  | event :: events =>
      run event <- event_into event ;;
      Done (mkRequestResponseHandle events (rh_command_tx h) (rh_pending_responses h), Ready (Some event))
  end.
