(* ===== verification/RequestResponseService.v ===== *)
(** * Requests and responses over the transport service

    The user's handle, the request-response protocol and the transport service it runs on,
    composed: identifiers come from the shared counter, commands and events go through the
    channels between the handle and the protocol, the events of the service are those its poll
    returns, and a request is canceled when its cancellation handle is gone. *)

From stdpp Require Import base tactics option list gmap strings relations.
From Stdlib Require Import NArith Lia Init.Byte Permutation.
From S2P Require Import Prelude Multiaddr AddressStore PeerState ConnectionLimits TransportManager.
From S2P Require Import TransportManagerHandle ProtocolTypes ProtocolSet TransportService TransportServiceFacts.
From S2P Require Import TransportServiceRuns RequestResponse RequestResponseFacts RequestResponseHandle.

Local Open Scope litep2p_scope.

(** The handle, the protocol, the service with its connections, and the channels of the
    responses: [Some response] was sent over, or [None] when the sender was dropped. *)
Record RrSystem := mkRrSystem {
  rs_protocol : RequestResponseProtocol;
  rs_handle : RequestResponseHandle;
  rs_answers : gmap RequestId (option (list byte));
  rs_service : TransportService * Links;
}.

(** What happens to the requests of the user: asked for, answered to the user, replaced while
    dialing, canceled, and asked to be canceled. *)
Inductive RrMark :=
| MkAsked (id : RequestId)
| MkEnded (id : RequestId)
| MkReplaced (id : RequestId)
| MkCanceled (id : RequestId)
| MkCancelAsked (id : RequestId).

Definition asked_id (m : RrMark) : option RequestId := match m with MkAsked id => Some id | _ => None end.
Definition ended_id (m : RrMark) : option RequestId := match m with MkEnded id => Some id | _ => None end.
Definition replaced_id (m : RrMark) : option RequestId := match m with MkReplaced id => Some id | _ => None end.
Definition canceled_id (m : RrMark) : option RequestId := match m with MkCanceled id => Some id | _ => None end.

(** The request an event of the handle answers. *)
Definition event_id (e : RequestResponseEvent) : option RequestId :=
  match e with
  | EvResponseReceived _ _ id _ | EvRequestFailed _ id _ => Some id
  | EvRequestReceived _ _ _ _ => None
  end.

Definition poll_marks (o : Poll (option RequestResponseEvent)) : list RrMark :=
  match o with
  | Ready (Some e) => match event_id e with Some id => [MkEnded id] | None => [] end
  | _ => []
  end.

Section system.
Context `{HashOrder, SleepQueue} (debug : bool) (capacity : nat).

(** A branch of the event loop is ready: the branch, and the system without what it received. *)
Inductive ready (now : N) (ch : ChannelState) : RrSystem → RrBranch → RrSystem → Prop :=
| B_request_end s i sent wait :
    (wait = WaitCanceled → ∀ f, rr_inbound (rs_protocol s) !! i = Some f →
       rf_request_id f ∉ rr_cancels (rs_protocol s)) →
    ready now ch s (RbRequestEnd i sent wait) s
| B_response_end s i f e answer :
    rr_outbound_responses (rs_protocol s) !! i = Some f → rs_answers s !! if_request_id f = Some answer →
    match answer with Some r => ∃ sent, e = ResponseGiven r sent | None => e = ResponseRejected end →
    ready now ch s (RbResponseEnd i e) s
| B_request_read s i request : ready now ch s (RbRequestRead i request) s
| B_command rr h answers service h' command :
    rh_next_command h = Some (h', command) →
    ready now ch (mkRrSystem rr h answers service) (RbCommand (Some command)) (mkRrSystem rr h' answers service)
| B_service rr h answers ts l rx closed l' ts1 seen rest l1 o :
    fed l rx l' → ts_poll_next debug now ch ts rx closed = Done (ts1, rest, Ready o) →
    rx = seen ++ rest → fed l seen l1 →
    ready now ch (mkRrSystem rr h answers (ts, l)) (RbService o) (mkRrSystem rr h answers (ts1, l1)).

(** A call of the user, a turn of the event loop, or an identifier of a substream that someone
    else takes. *)
Inductive rs_step : RrSystem → list RrMark → RrSystem → Prop :=
| S_send rr h answers service peer request fallback dial h' n' id :
    has_room capacity h = true → (rr_next_request_id rr < usize_max)%N →
    rh_send_request h (rr_next_request_id rr) peer request fallback dial = (h', n', id) →
    rs_step (mkRrSystem rr h answers service) [MkAsked id] (mkRrSystem (rr_set_next rr n') h' answers service)
| S_try_send rr h answers service peer request fallback dial h' n' r :
    (rr_next_request_id rr < usize_max)%N →
    rh_try_send_request capacity h (rr_next_request_id rr) peer request fallback dial = (h', n', r) →
    rs_step (mkRrSystem rr h answers service) match r with Ok id => [MkAsked id] | Err _ => [] end
      (mkRrSystem (rr_set_next rr n') h' answers service)
| S_cancel rr h answers service id :
    has_room capacity h = true →
    rs_step (mkRrSystem rr h answers service) [MkCancelAsked id]
      (mkRrSystem rr (rh_cancel_request h id) answers service)
| S_respond rr h answers service id response h' o :
    rh_send_response h id response = (h', o) →
    rs_step (mkRrSystem rr h answers service) []
      (mkRrSystem rr h' (match o with Some (tx, r) => <[tx := Some r]> answers | None => answers end) service)
| S_reject rr h answers service id h' o :
    rh_reject_request h id = (h', o) →
    rs_step (mkRrSystem rr h answers service) []
      (mkRrSystem rr h' (match o with Some tx => <[tx := None]> answers | None => answers end) service)
| S_poll rr h answers service h' o :
    rh_poll_next false h = Done (h', o) →
    rs_step (mkRrSystem rr h answers service) (poll_marks o) (mkRrSystem rr h' answers service)
| S_turn now ch s b rr h answers service rr' eff exit sv service' :
    ready now ch s b (mkRrSystem rr h answers service) → (rr_next_request_id rr < usize_max)%N →
    rr_turn debug sv rr b = Done (rr', eff, exit) → serves now ch sv service eff service' →
    rs_step s ((MkReplaced <$> turn_replaced sv rr b) ++ (MkCanceled <$> turn_canceled rr b))
      (mkRrSystem rr' (rh_receive h eff) answers service')
| S_idle rr h answers ts l now ch rx closed l' ts1 seen rest l1 :
    fed l rx l' → ts_poll_next debug now ch ts rx closed = Done (ts1, rest, Prelude.Pending) →
    rx = seen ++ rest → fed l seen l1 →
    rs_step (mkRrSystem rr h answers (ts, l)) [] (mkRrSystem rr h answers (ts1, l1))
| S_counter rr h answers ts l n :
    (ts_next_substream_id ts ≤ n ≤ usize_max)%N →
    rs_step (mkRrSystem rr h answers (ts, l)) [] (mkRrSystem rr h answers (ts_set_counter ts n, l)).

(** ** The account *)

(** The requests in the queues between the handle and the protocol. *)
Definition queued (h : RequestResponseHandle) : list RequestId := rh_command_tx h ≫= command_ids.

Definition unread (h : RequestResponseHandle) : list RequestId :=
  omap (λ e, match e with InResponseReceived _ _ id _ | InRequestFailed _ id _ => Some id | _ => None end)
    (rh_event_rx h).

Definition waiting (s : RrSystem) : list RequestId :=
  unread (rs_handle s) ++ queued (rs_handle s) ++ outstanding (rs_protocol s).

Record rs_account (marks : list RrMark) (s : RrSystem) : Prop := {
  ac_protocol : ∃ c sent, rr_inv sent (rs_protocol s) c ∧ refines (rs_service s).2 (rs_service s).1 c ∧
    omap asked_id marks ≡ₚ sent ++ queued (rs_handle s);
  ac_counter : ∀ id, id ∈ omap asked_id marks → (id < rr_next_request_id (rs_protocol s))%N;
  ac_fresh : NoDup (omap asked_id marks);
  ac_account : omap asked_id marks ≡ₚ
    omap ended_id marks ++ omap replaced_id marks ++ omap canceled_id marks ++ waiting s;
  ac_canceled : ∀ id, id ∈ omap canceled_id marks → MkCancelAsked id ∈ marks;
  ac_commands : ∀ id, RcCancelRequest id ∈ rh_command_tx (rs_handle s) → MkCancelAsked id ∈ marks;
  ac_handles : ∀ f, f ∈ rr_inbound (rs_protocol s) →
    rf_request_id f ∈ rr_cancels (rs_protocol s) ∨ MkCancelAsked (rf_request_id f) ∈ marks;
}.

Lemma unread_receive h eff : unread (rh_receive h eff) = unread h ++ answered eff.
Proof.
  unfold unread, rh_receive, answered. cbn. rewrite omap_app. f_equal.
  induction eff as [|[] eff IH]; cbn; by rewrite ?IH.
Qed.

Lemma queued_snoc h cmd : queued (rh_queue h cmd) = queued h ++ command_ids cmd.
Proof. unfold queued. cbn. rewrite bind_app. cbn. by rewrite app_nil_r. Qed.

Lemma request_command_ids p id req fb dial : command_ids (request_command p id req fb dial) = [id].
Proof. by destruct fb. Qed.

Lemma outstanding_set_next rr n : outstanding (rr_set_next rr n) = outstanding rr.
Proof. done. Qed.

(** The handlers of a turn, opened up. *)
Ltac unfold_turn H :=
  unfold rr_turn, rr_handle_service_event, rr_handle_user_command, rr_on_connection_established,
    rr_on_outbound_substream, rr_on_inbound_substream, rr_on_connection_closed, rr_on_dial_failure,
    rr_on_substream_open_failure, rr_on_request_end, rr_on_substream_event, rr_on_response_end, rr_on_request_read,
    rr_on_inbound_request, rr_send_or_report, rr_on_send_request, rr_on_cancel_request, debug_assert in H.

(** What a turn does to the futures of the requests and their cancellation handles. *)
Lemma turn_futures sv rr b rr' eff exit : rr_turn debug sv rr b = Done (rr', eff, exit) →
  (rr_inbound rr' = rr_inbound rr ∧ rr_cancels rr' = rr_cancels rr) ∨
  (∃ f, rr_inbound rr' = rr_inbound rr ++ [f] ∧ rr_cancels rr' = {[rf_request_id f]} ∪ rr_cancels rr) ∨
  (∃ i f, rr_inbound rr !! i = Some f ∧ rr_inbound rr' = take_nth (rr_inbound rr) i ∧
     rr_cancels rr' = rr_cancels rr ∖ {[rf_request_id f]}) ∨
  (∃ id, b = RbCommand (Some (RcCancelRequest id)) ∧ rr_inbound rr' = rr_inbound rr ∧
     rr_cancels rr' = rr_cancels rr ∖ {[id]}).
Proof.
  intros Hb. destruct b as [[[]|]| | | |[[]|]]; 
    unfold_turn Hb;
    repeat case_match; simplify_eq; cbn in *; simplify_eq; try (by left); eauto 10.
Qed.

Lemma turn_counter sv rr b rr' eff exit : rr_turn debug sv rr b = Done (rr', eff, exit) →
  (rr_next_request_id rr < usize_max)%N → (rr_next_request_id rr ≤ rr_next_request_id rr')%N.
Proof.
  intros Hb Hmax. destruct b as [[[]|]| | | |[[]|]];
    unfold_turn Hb;
    repeat case_match; simplify_eq; cbn in *; simplify_eq; rewrite ?wrapping_succ by done; cbn; try done; lia.
Qed.

#[local] Arguments rh_queue : simpl never.
#[local] Arguments rh_receive : simpl never.

(** A request of the user: the identifier is new. *)
Lemma account_request marks rr h answers service p req fb dial :
  (rr_next_request_id rr < usize_max)%N → rs_account marks (mkRrSystem rr h answers service) →
  rs_account (marks ++ [MkAsked (rr_next_request_id rr)])
    (mkRrSystem (rr_set_next rr (usize_wrapping_add (rr_next_request_id rr) 1))
       (rh_queue h (request_command p (rr_next_request_id rr) req fb dial)) answers service).
Proof.
  intros Hmax [(c & sent & Hinv & Hr & Hsent) Hcnt Hnd Hacc Hcan Hcmd Hfut]. cbn in *.
  rewrite wrapping_succ by done. set (id := rr_next_request_id rr) in *.
  assert (id ∉ omap asked_id marks) as Hnew by (intros ?%Hcnt; lia).
  split; cbn; rewrite ?omap_app; cbn.
  - exists c, sent. split; [by destruct Hinv; split|]. split; [done|].
    rewrite queued_snoc, request_command_ids. solve_accounts.
  - intros i [?%Hcnt| ->%list_elem_of_singleton]%elem_of_app; lia.
  - apply NoDup_app. split; [done|]. split; [|apply NoDup_singleton]. intros i Hi ->%list_elem_of_singleton. done.
  - unfold waiting in *. cbn in *. rewrite queued_snoc, request_command_ids, outstanding_set_next.
    change (unread (rh_queue _ _)) with (unread h). solve_accounts.
  - rewrite app_nil_r. intros i Hi. apply elem_of_app. left. auto.
  - unfold rh_queue. cbn. intros i [Hi|Hi%list_elem_of_singleton]%elem_of_app;
      [apply elem_of_app; left; auto|by destruct fb].
  - intros f Hf. rewrite elem_of_app. destruct (Hfut f Hf); auto.
Qed.

(** Steps that leave the requests alone. *)
Lemma account_same marks rr h answers service rr' h' answers' service' :
  rs_account marks (mkRrSystem rr h answers service) →
  (∀ c sent, rr_inv sent rr c → refines service.2 service.1 c →
     ∃ c', rr_inv sent rr' c' ∧ refines service'.2 service'.1 c') →
  (rr_next_request_id rr ≤ rr_next_request_id rr')%N → outstanding rr' = outstanding rr →
  rr_inbound rr' = rr_inbound rr → rr_cancels rr' = rr_cancels rr →
  rh_command_tx h' = rh_command_tx h → unread h' = unread h →
  rs_account marks (mkRrSystem rr' h' answers' service').
Proof.
  intros [(c & sent & Hinv & Hr & Hsent) Hcnt Hnd Hacc Hcan Hcmd Hfut] Hto Hn Hout Hin Hc Htx Hun. cbn in *.
  split; cbn; rewrite ?Hin, ?Hc, ?Htx; try done.
  - destruct (Hto c sent Hinv Hr) as (c' & ? & ?). exists c', sent. split; [done|]. split; [done|].
    unfold queued. by rewrite Htx.
  - intros id Hid%Hcnt. lia.
  - unfold waiting, queued in *. cbn in *. by rewrite Hun, Htx, Hout.
Qed.

(** The branch that is ready takes its requests from the queue of commands, and only that. *)
Lemma ready_account now ch marks s b rr h answers service :
  ready now ch s b (mkRrSystem rr h answers service) → rs_account marks s →
  ∃ c sent c1, rr_inv sent rr c ∧ turn_ok sent c b c1 ∧ refines service.2 service.1 c1 ∧ rs_protocol s = rr ∧
    omap asked_id marks ≡ₚ taken b ++ sent ++ queued h ∧
    queued (rs_handle s) ≡ₚ taken b ++ queued h ∧ unread (rs_handle s) = unread h ∧
    (∀ id, RcCancelRequest id ∈ rh_command_tx h → MkCancelAsked id ∈ marks) ∧
    (∀ id, b = RbCommand (Some (RcCancelRequest id)) → MkCancelAsked id ∈ marks) ∧
    (∀ i sent wait, b = RbRequestEnd i sent wait → wait = WaitCanceled →
       ∀ f, rr_inbound rr !! i = Some f → rf_request_id f ∉ rr_cancels rr).
Proof.
  intros Hready [(c & sent & Hinv & Hr & Hsent) Hcnt Hnd Hacc Hcan Hcmd Hfut].
  inversion Hready as [? ? ? ? Hcancel|? ? ? ? ? ? ? ?|? ? ?|? ? ? ? ? cmd Hnext|? ? ? ts l rx closed l' ts1 seen rest l1 o Hfed Hpoll Hrx Hseen];
    subst; cbn in *.
  - exists c, sent, c. repeat (split; [set_solver|]); naive_solver.
  - exists c, sent, c. repeat (split; [set_solver|]); naive_solver.
  - exists c, sent, c. repeat (split; [set_solver|]); naive_solver.
  - destruct h0 as [ev [|cmd0 cmds] pend]; [done|]. cbn in Hnext. injection Hnext as <- ->.
    assert (queued (mkRequestResponseHandle ev (cmd :: cmds) pend) =
      command_ids cmd ++ queued (mkRequestResponseHandle ev cmds pend)) as Hq by done.
    rewrite Hq in Hsent. exists c, sent, c. split; [done|]. split.
    { split; [done|]. intros id Hid Hs. rewrite Hsent in Hnd. apply NoDup_app in Hnd as (_ & Hdis & _).
      apply (Hdis id Hs). apply elem_of_app. by left. }
    split; [done|]. split; [done|]. split; [solve_accounts|]. rewrite Hq. split_and!; try done.
    + intros id Hid. apply Hcmd. by right.
    + intros id [= ->]. apply Hcmd. left.
  - pose proof (polled_contract debug now ch ts l c _ closed l' ts1 seen rest l1 _ Hr Hfed Hpoll eq_refl Hseen) as Hp.
    destruct o as [e|]; [destruct Hp as (c1 & Hd & Hr1); exists c, sent, c1|exists c, sent, c];
      repeat (split; [set_solver|]); naive_solver.
Qed.

Lemma turn_marks l l' : let marks := (MkReplaced <$> l) ++ (MkCanceled <$> l') in
  omap asked_id marks = [] ∧ omap ended_id marks = [] ∧ omap replaced_id marks = l ∧ omap canceled_id marks = l'.
Proof.
  cbv zeta. rewrite !omap_app.
  assert (omap replaced_id (MkReplaced <$> l) = l) as Hr by (induction l as [|? ? IH]; cbn; by rewrite ?IH).
  assert (omap canceled_id (MkCanceled <$> l') = l') as Hc by (induction l' as [|? ? IH]; cbn; by rewrite ?IH).
  assert (∀ f : RrMark → option RequestId, (∀ id, f (MkReplaced id) = None) → omap f (MkReplaced <$> l) = []) as Hl.
  { intros f Hf. clear Hr. induction l as [|? ? IH]; cbn; by rewrite ?Hf, ?IH. }
  assert (∀ f : RrMark → option RequestId, (∀ id, f (MkCanceled id) = None) → omap f (MkCanceled <$> l') = []) as Hl'.
  { intros f Hf. clear Hc. induction l' as [|? ? IH]; cbn; by rewrite ?Hf, ?IH. }
  rewrite Hr, Hc, !Hl, !Hl' by done. cbn. by rewrite app_nil_r.
Qed.

(** A request that is canceled has no cancellation handle any more. *)
Lemma turn_canceled_handle rr b id :
  (∀ i sent wait, b = RbRequestEnd i sent wait → wait = WaitCanceled →
     ∀ f, rr_inbound rr !! i = Some f → rf_request_id f ∉ rr_cancels rr) →
  id ∈ turn_canceled rr b → ∃ f, f ∈ rr_inbound rr ∧ rf_request_id f = id ∧ id ∉ rr_cancels rr.
Proof.
  intros Hwait Hid. destruct b as [| i done wait | | |]; try by apply not_elem_of_nil in Hid. cbn in Hid.
  unfold canceled in Hid. repeat case_match; try by apply not_elem_of_nil in Hid.
  apply list_elem_of_singleton in Hid as ->. eexists. split; [by eapply list_elem_of_lookup_2|].
  split; [done|]. by eapply Hwait.
Qed.

(** A turn of the event loop. *)
Lemma account_turn now ch marks s b rr h answers service rr' eff exit sv service' :
  ready now ch s b (mkRrSystem rr h answers service) → (rr_next_request_id rr < usize_max)%N →
  rr_turn debug sv rr b = Done (rr', eff, exit) → serves now ch sv service eff service' →
  rs_account marks s →
  rs_account (marks ++ (MkReplaced <$> turn_replaced sv rr b) ++ (MkCanceled <$> turn_canceled rr b))
    (mkRrSystem rr' (rh_receive h eff) answers service').
Proof.
  intros Hready Hmax Hturn Hsv Hac.
  destruct (ready_account _ _ _ _ _ _ _ _ _ Hready Hac)
    as (c & sent & c1 & Hinv & Hok & Hr & Hrr & Hsent & Hq & Hu & Hcmd' & Hcan' & Hwait).
  destruct Hac as [_ Hcnt Hnd Hacc Hcan Hcmd Hfut]. rewrite Hrr in *.
  destruct (turn_accounted debug sv sent rr c b c1 Hinv Hok) as (rr2 & eff2 & exit2 & Hturn2 & Hacct).
  rewrite Hturn in Hturn2. simplify_eq.
  destruct (serves_calls now ch sv service eff2 service' c1 Hsv Hr) as (c' & Hcalls & Hr').
  destruct (Hacct c' Hcalls) as [Hinv' Hperm]. clear Hacct.
  pose proof (turn_marks (turn_replaced sv (rs_protocol s) b) (turn_canceled (rs_protocol s) b)) as (Hma & Hme & Hmr & Hmc).
  split; cbn; rewrite ?(omap_app _ marks), ?Hma, ?Hme, ?Hmr, ?Hmc, ?app_nil_r; try done.
  - exists c', (taken b ++ sent). split; [done|]. split; [done|].
    change (queued (rh_receive h eff2)) with (queued h). by rewrite <- app_assoc.
  - intros id Hid%Hcnt. by eapply N.lt_le_trans, turn_counter.
  - unfold waiting in *. cbn. rewrite unread_receive. change (queued (rh_receive h eff2)) with (queued h).
    rewrite Hu in Hacc. solve_accounts.
  - intros id [Hid|Hid]%elem_of_app; apply elem_of_app; left; [auto|].
    destruct (turn_canceled_handle _ _ _ Hwait Hid) as (f & Hf & <- & Hn). by destruct (Hfut f Hf).
  - intros id Hid. apply elem_of_app. left. auto.
  - intros f Hf. rewrite elem_of_app.
    destruct (turn_futures _ _ _ _ _ _ Hturn) as [[Hi Hc]|[(g & Hi & Hc)|[(i & g & Hg & Hi & Hc)|(id & -> & Hi & Hc)]]];
      rewrite Hi in Hf; rewrite Hc.
    + destruct (Hfut f Hf); auto.
    + apply elem_of_app in Hf as [Hf| ->%list_elem_of_singleton]; [destruct (Hfut f Hf); set_solver|set_solver].
    + pose proof (take_nth_other rf_request_id _ _ _ _ (inv_flow_inbound _ _ _ Hinv) Hg Hf) as [Hin Hne].
      destruct (Hfut f Hin); set_solver.
    + destruct (decide (rf_request_id f = id)) as [<-|Hne]; [auto|]. destruct (Hfut f Hf); set_solver.
Qed.

Lemma inv_next sent rr c n : rr_inv sent rr c → rr_inv sent (rr_set_next rr n) c.
Proof. by intros [? ? ? ? ? ? ?]; split. Qed.

(** A request to be canceled is queued. *)
Lemma account_cancel marks rr h answers service id : rs_account marks (mkRrSystem rr h answers service) →
  rs_account (marks ++ [MkCancelAsked id]) (mkRrSystem rr (rh_cancel_request h id) answers service).
Proof.
  intros [(c & sent & Hinv & Hr & Hsent) Hcnt Hnd Hacc Hcan Hcmd Hfut]. unfold rh_cancel_request.
  split; cbn in *; rewrite ?omap_app; cbn; rewrite ?app_nil_r; try done.
  - exists c, sent. split; [done|]. split; [done|]. rewrite queued_snoc. cbn. by rewrite app_nil_r.
  - unfold waiting in *. cbn in *. change (unread (rh_queue _ _)) with (unread h). rewrite queued_snoc. cbn.
    by rewrite app_nil_r.
  - intros i Hi. apply elem_of_app. left. auto.
  - unfold rh_queue. cbn. intros i [Hi|Hi]%elem_of_app; apply elem_of_app; [left; auto|right]. set_solver.
  - intros f Hf. rewrite elem_of_app. destruct (Hfut f Hf); auto.
Qed.

(** The user takes an answer from the queue. *)
Lemma account_ended marks rr h h' answers service id : rs_account marks (mkRrSystem rr h answers service) →
  rh_command_tx h' = rh_command_tx h → unread h = id :: unread h' →
  rs_account (marks ++ [MkEnded id]) (mkRrSystem rr h' answers service).
Proof.
  intros [(c & sent & Hinv & Hr & Hsent) Hcnt Hnd Hacc Hcan Hcmd Hfut] Htx Hu.
  assert (queued h' = queued h) as Hq by (unfold queued; by rewrite Htx).
  split; cbn in *; rewrite ?omap_app, ?Hq, ?Htx; cbn; rewrite ?app_nil_r; try done.
  - by exists c, sent.
  - unfold waiting in *. cbn in *. rewrite Hq. rewrite Hu in Hacc. solve_accounts.
  - intros i Hi. apply elem_of_app. left. auto.
  - intros i Hi. apply elem_of_app. left. auto.
  - intros f Hf. rewrite elem_of_app. destruct (Hfut f Hf); auto.
Qed.

Lemma account_step marks s m s' : rs_account marks s → rs_step s m s' → rs_account (marks ++ m) s'.
Proof.
  intros Hac Hs. destruct Hs as [rr h answers service p req fb dial h' n' id Hroom Hmax Heq
    |rr h answers service p req fb dial h' n' r Hmax Heq|rr h answers service id Hroom
    |rr h answers service id resp h' o Heq|rr h answers service id h' o Heq|rr h answers service h' o Heq
    |now ch s b rr h answers service rr' eff exit sv service' Hready Hmax Hturn Hsv
    |rr h answers ts l now ch rx closed l' ts1 seen rest l1 Hfed Hpoll Hrx Hseen|rr h answers ts l n Hn].
  - unfold rh_send_request in Heq. cbn in Heq. simplify_eq. by apply account_request.
  - unfold rh_try_send_request, rh_next_request_id in Heq. destruct (has_room capacity h); simplify_eq.
    + by apply account_request.
    + rewrite app_nil_r. eapply account_same; [done|..]; try done.
      * intros c sent Hinv Hr. exists c. split; [by apply inv_next|done].
      * cbn. rewrite wrapping_succ by done. lia.
  - by apply account_cancel.
  - rewrite app_nil_r. unfold rh_send_response in Heq. eapply account_same; [done|..]; try done;
      first eauto; by destruct (rh_pending_responses h !! id); simplify_eq.
  - rewrite app_nil_r. unfold rh_reject_request in Heq. eapply account_same; [done|..]; try done;
      first eauto; by destruct (rh_pending_responses h !! id); simplify_eq.
  - destruct h as [[|e ev] cmds pend]; cbn in Heq; [simplify_eq; by rewrite app_nil_r|].
    destruct e; cbn in Heq; simplify_eq; cbn.
    + rewrite app_nil_r. eapply account_same; [done|..]; try done. eauto.
    + by eapply account_ended.
    + by eapply account_ended.
  - by eapply account_turn.
  - rewrite app_nil_r. eapply account_same; [done|..]; try done. intros c sent Hinv Hr. exists c. split; [done|].
    by apply (polled_contract debug now ch ts l c rx closed l' ts1 seen rest l1 _ Hr Hfed Hpoll Hrx Hseen).
  - rewrite app_nil_r. eapply account_same; [done|..]; try done. intros c sent Hinv Hr. exists c. split; [done|].
    apply refines_counter; [done|lia].
Qed.

Definition RrSystem_new (protocol : ProtocolName) (fallbacks : list ProtocolName) (n : N) (timeout : N)
    (ka : SubstreamKeepAlive) (next : N) (max : option nat) : RrSystem :=
  mkRrSystem (RequestResponse_new next max) RequestResponseHandle_new ∅
    (TransportService_new protocol fallbacks n timeout ka, Links_init).

Lemma account_init protocol fallbacks n timeout ka next max :
  rs_account [] (RrSystem_new protocol fallbacks n timeout ka next max).
Proof.
  split; cbn; try set_solver; [|constructor].
  exists Contract_init, []. split; [apply rr_inv_init|]. split; [apply refines_init|done].
Qed.

(** Nothing that is ready makes the protocol panic. *)
Lemma account_safe now ch marks s b s1 sv : rs_account marks s → ready now ch s b s1 →
  rr_turn debug sv (rs_protocol s1) b ≠ Panic.
Proof.
  intros Hac Hready. destruct s1 as [rr h answers service].
  destruct (ready_account _ _ _ _ _ _ _ _ _ Hready Hac) as (c & sent & c1 & Hinv & Hok & _).
  cbn. by destruct (turn_accounted debug sv sent rr c b c1 Hinv Hok) as (? & ? & ? & -> & _).
Qed.

Lemma handle_poll_safe closed h : rh_poll_next closed h ≠ Panic.
Proof. by destruct h as [[|[] ?] ? ?]. Qed.

Lemma run_account protocol fallbacks n timeout ka next max tr s :
  steps rs_step (RrSystem_new protocol fallbacks n timeout ka next max) tr s → rs_account (concat tr) s.
Proof.
  intros Hrun.
  refine (steps_history rs_step (λ tr, rs_account (concat tr)) _ _ _ _ (account_init _ _ _ _ _ _ _) Hrun).
  intros tr' s0 m s1 H1 H2. rewrite concat_app. cbn. rewrite app_nil_r. by eapply account_step.
Qed.

(** C5. Requests are accounted for, with nothing assumed between the handle, the protocol and the
    transport service. Whatever the user, the connections and the remotes do: the requests of
    the user have different identifiers; each of them is answered to the user exactly once,
    or was replaced by another request to a peer that was being dialed, or was canceled, or is
    still in a queue or in progress; a request that is canceled was asked to be; and no
    assertion or [panic!] of the protocol, the handle or the service is reached. *)
Theorem requests_accounted protocol fallbacks n timeout ka next max tr s :
  steps rs_step (RrSystem_new protocol fallbacks n timeout ka next max) tr s →
  let marks := concat tr in
  NoDup (omap asked_id marks) ∧
  omap asked_id marks ≡ₚ
    omap ended_id marks ++ omap replaced_id marks ++ omap canceled_id marks ++ waiting s ∧
  (∀ id, id ∈ omap canceled_id marks → MkCancelAsked id ∈ marks) ∧
  (∀ now ch b s1 sv, ready now ch s b s1 → rr_turn debug sv (rs_protocol s1) b ≠ Panic) ∧
  (∀ closed, rh_poll_next closed (rs_handle s) ≠ Panic) ∧
  ∀ now ch rx closed l', fed (rs_service s).2 rx l' →
    ts_poll_next debug now ch (rs_service s).1 rx closed ≠ Panic.
Proof.
  intros Hrun marks. pose proof (run_account _ _ _ _ _ _ _ _ _ Hrun) as Hac.
  split_and!; try apply Hac.
  - intros now ch b s1 sv Hready. by eapply account_safe.
  - intros closed. apply handle_poll_safe.
  - intros now ch rx closed l' Hfed. destruct Hac as [(c & sent & _ & Hr & _) _ _ _ _ _ _].
    by destruct (poll_ok debug now ch closed rx _ _ c l' Hr Hfed) as (? & ? & ? & ? & ? & -> & _).
Qed.

(** C38. A request that was replaced while its peer was being dialed is forgotten: the user gets no
    answer to it, not even a failure, now or later. *)
Theorem replaced_never_answered protocol fallbacks n timeout ka next max tr s id :
  steps rs_step (RrSystem_new protocol fallbacks n timeout ka next max) tr s →
  MkReplaced id ∈ concat tr →
  MkEnded id ∉ concat tr ∧ id ∉ waiting s ∧ MkCanceled id ∉ concat tr.
Proof.
  intros Hrun Hid. destruct (run_account _ _ _ _ _ _ _ _ _ Hrun) as [_ _ Hnd Hacc _ _ _].
  rewrite Hacc in Hnd. apply NoDup_app in Hnd as (_ & Hend & Hnd). apply NoDup_app in Hnd as (_ & Hrep & _).
  assert (id ∈ omap replaced_id (concat tr)) as Hr by (apply list_elem_of_omap; by eexists).
  specialize (Hrep id Hr). rewrite not_elem_of_app in Hrep. split_and!; [|apply Hrep|].
  - intros He. apply (Hend id); [apply list_elem_of_omap; by eexists|]. apply elem_of_app. by left.
  - intros He. apply (proj1 Hrep), list_elem_of_omap. by eexists.
Qed.

(** ** Requests of the remotes *)

(** The requests that were handed to the user, or are about to be, and not answered yet. *)
Definition received_id (e : InnerRequestResponseEvent) : option RequestId :=
  match e with InRequestReceived _ _ id _ _ => Some id | _ => None end.

Definition owed (h : RequestResponseHandle) : list RequestId :=
  omap received_id (rh_event_rx h) ++ (map_to_list (rh_pending_responses h)).*1.

Record rs_inbound (max : option nat) (s : RrSystem) : Prop := {
  ib_max : rr_max_inbound (rs_protocol s) = max;
  ib_bound : ∀ m, max = Some m →
    length (rr_inbound_requests (rs_protocol s)) + length (rr_outbound_responses (rs_protocol s)) ≤ m;
  ib_ids : NoDup ((if_request_id <$> rr_inbound_requests (rs_protocol s)) ++
                  (if_request_id <$> rr_outbound_responses (rs_protocol s)));
  ib_fresh : ∀ f, f ∈ rr_inbound_requests (rs_protocol s) ++ rr_outbound_responses (rs_protocol s) →
    (if_request_id f < rr_next_request_id (rs_protocol s))%N;
  ib_responses : ∀ id, id ∈ if_request_id <$> rr_outbound_responses (rs_protocol s) →
    id ∈ owed (rs_handle s) ∨ is_Some (rs_answers s !! id);
  ib_owed : NoDup (owed (rs_handle s));
  ib_unanswered : ∀ id, id ∈ owed (rs_handle s) →
    id ∈ if_request_id <$> rr_outbound_responses (rs_protocol s) ∧ rs_answers s !! id = None;
  ib_answers : ∀ id, is_Some (rs_answers s !! id) →
    (id < rr_next_request_id (rs_protocol s))%N ∧
    id ∉ if_request_id <$> rr_inbound_requests (rs_protocol s);
  ib_pending : ∀ id tx, rh_pending_responses (rs_handle s) !! id = Some tx → tx = id;
  ib_events : ∀ p fb id r tx, InRequestReceived p fb id r tx ∈ rh_event_rx (rs_handle s) → tx = id;
}.

Lemma failed_received p r l :
  omap received_id (omap inner_event ((λ id, RrRequestFailed p id r) <$> l)) = [].
Proof. by induction l. Qed.

Lemma request_future_received f done wait : omap received_id (omap inner_event (request_future f done wait).1) = [].
Proof. destruct done as [|[| | |[]| | | |]|], wait as [| |[[]|]]; done. Qed.

(** What a turn does to the futures of the remotes' requests. *)
Lemma turn_inbound sv rr b rr' eff exit : rr_turn debug sv rr b = Done (rr', eff, exit) →
  rr_max_inbound rr' = rr_max_inbound rr ∧
  let requests := rr_inbound_requests rr in
  let responses := rr_outbound_responses rr in
  let received := omap received_id (omap inner_event eff) in
  (rr_inbound_requests rr' = requests ∧ rr_outbound_responses rr' = responses ∧ received = []) ∨
  (∃ f, rr_inbound_requests rr' = requests ++ [f] ∧ rr_outbound_responses rr' = responses ∧ received = [] ∧
     if_request_id f = rr_next_request_id rr ∧
     rr_next_request_id rr' = usize_wrapping_add (rr_next_request_id rr) 1 ∧
     ∀ m, rr_max_inbound rr = Some m → length requests + length responses < m) ∨
  (∃ i f, requests !! i = Some f ∧ rr_inbound_requests rr' = take_nth requests i ∧
     ((rr_outbound_responses rr' = responses ∧ received = []) ∨
      (rr_outbound_responses rr' = responses ++ [f] ∧ received = [if_request_id f]))) ∨
  (∃ i f e, b = RbResponseEnd i e ∧ responses !! i = Some f ∧ rr_inbound_requests rr' = requests ∧
     rr_outbound_responses rr' = take_nth responses i ∧ received = []).
Proof.
  intros Hb.
  destruct b as [[[]|]|i done wait| | |[[]|]].
  7: { pose proof (request_future_received) as Hf. unfold_turn Hb.
       destruct (rr_inbound rr !! i) as [f|]; [specialize (Hf f done wait)|simplify_eq; cbn; by auto].
       destruct (request_future f done wait) as [eff0 msg]. cbn [fst] in Hf.
       repeat case_match; simplify_eq; cbn in *; (split; [done|]); left; (split; [done|]); (split; [done|]);
         by rewrite ?omap_app, ?Hf. }
  all: unfold_turn Hb; repeat case_match; simplify_eq; cbn in *; simplify_eq; (split; [done|]);
    try (by left); try (left; split; [done|]; split; [done|]; apply failed_received);
    try (right; left; eexists; split_and!; try done; intros m [= <-]; by apply Nat.leb_gt);
    try (right; right; left; eexists _, _; split; [done|]; split; [done|]; by auto);
    right; right; right; eexists _, _, _; split_and!; try done; by repeat case_match.
Qed.

(** The user takes events and queues requests. *)
Lemma inbound_same max rr h answers service rr' h' service' :
  rs_inbound max (mkRrSystem rr h answers service) →
  rr_max_inbound rr' = rr_max_inbound rr → rr_inbound_requests rr' = rr_inbound_requests rr →
  rr_outbound_responses rr' = rr_outbound_responses rr → (rr_next_request_id rr ≤ rr_next_request_id rr')%N →
  owed h' ≡ₚ owed h →
  (∀ id tx, rh_pending_responses h' !! id = Some tx → tx = id) →
  (∀ p fb id r tx, InRequestReceived p fb id r tx ∈ rh_event_rx h' → tx = id) →
  rs_inbound max (mkRrSystem rr' h' answers service').
Proof.
  intros [Hmax Hb Hids Hfr Hre How Hun Han Hpe Hev] Hm Hq Hr Hn Ho Hp' He'. cbn in *.
  split; cbn; rewrite ?Hm, ?Hq, ?Hr, ?Ho; try done.
  - intros f Hf%Hfr. lia.
  - intros id Hid. rewrite Ho. auto.
  - intros id. rewrite Ho. auto.
  - intros id [? ?]%Han. split; [lia|done].
Qed.

(** The user answers a request. *)
Lemma inbound_answer max rr h answers service id tx a : rs_inbound max (mkRrSystem rr h answers service) →
  rh_pending_responses h !! id = Some tx →
  rs_inbound max (mkRrSystem rr
    (mkRequestResponseHandle (rh_event_rx h) (rh_command_tx h) (delete id (rh_pending_responses h)))
    (<[tx := a]> answers) service).
Proof.
  intros [Hmax Hb Hids Hfr Hre How Hun Han Hpe Hev] Hid. cbn in *. assert (tx = id) as -> by eauto.
  set (h' := mkRequestResponseHandle _ _ _).
  assert (owed h ≡ₚ id :: owed h') as Ho.
  { unfold owed. cbn. rewrite <- (map_to_list_delete _ _ _ Hid). cbn. symmetry. apply Permutation_middle. }
  rewrite Ho in How. apply NoDup_cons in How as [Hnin How].
  assert (id ∈ if_request_id <$> rr_outbound_responses rr ∧ answers !! id = None) as [Hin _].
  { apply Hun. rewrite Ho. left. }
  split; cbn; try done.
  - intros i Hi. destruct (Hre i Hi) as [Hi'|Hi'].
    + rewrite Ho in Hi'. apply elem_of_cons in Hi' as [->|?]; [right; by rewrite lookup_insert_eq|by left].
    + right. apply lookup_insert_is_Some'. by right.
  - intros i Hi. assert (i ≠ id) by (by intros ->). rewrite lookup_insert_ne by done. apply Hun. rewrite Ho. by right.
  - intros i. rewrite lookup_insert_is_Some. intros [<-|[_ ?]]; [|auto]. split.
    + apply list_elem_of_fmap in Hin as (f & -> & Hf). apply Hfr. apply elem_of_app. by right.
    + intros Hi. apply NoDup_app in Hids as (_ & Hdis & _). by apply (Hdis id).
  - intros i t [_ ?]%lookup_delete_Some. eauto.
Qed.

(** A branch is ready: what it received is not about the requests of the remotes, and an answer
    that arrives is not owed any more. *)
Lemma ready_inbound now ch max s b rr h answers service :
  ready now ch s b (mkRrSystem rr h answers service) → rs_inbound max s →
  rs_inbound max (mkRrSystem rr h answers service) ∧
  ∀ i e f, b = RbResponseEnd i e → rr_outbound_responses rr !! i = Some f → is_Some (answers !! if_request_id f).
Proof.
  intros Hready Hin. inversion Hready; subst; (split; [|intros ? ? ? [= <- <-] ?]); simplify_eq/=; try done.
  - destruct h0 as [ev [|cmd0 cmds] pend]; [done|].
    match goal with Hn : rh_next_command _ = _ |- _ => cbn in Hn; injection Hn as <- <- end.
    eapply inbound_same; [exact Hin|..]; try done; apply Hin.
  - eapply inbound_same; [exact Hin|..]; try done; apply Hin.
Qed.

Lemma owed_receive h eff : owed (rh_receive h eff) ≡ₚ omap received_id (omap inner_event eff) ++ owed h.
Proof.
  unfold owed, rh_receive. cbn. rewrite omap_app. rewrite <- app_assoc. rewrite Permutation_app_comm.
  rewrite <- app_assoc. apply Permutation_app_head, Permutation_app_comm.
Qed.

Lemma events_receive h eff p fb id r tx :
  (∀ p fb id r tx, InRequestReceived p fb id r tx ∈ rh_event_rx h → tx = id) →
  InRequestReceived p fb id r tx ∈ rh_event_rx (rh_receive h eff) → tx = id.
Proof.
  intros Hev. unfold rh_receive. cbn. intros [?|Hin]%elem_of_app; [eauto|].
  apply list_elem_of_omap in Hin as ([] & _ & He); cbn in He; congruence.
Qed.

(** A turn of the event loop. *)
Lemma inbound_turn sv max rr h answers service b rr' eff exit service' :
  rs_inbound max (mkRrSystem rr h answers service) → (rr_next_request_id rr < usize_max)%N →
  rr_turn debug sv rr b = Done (rr', eff, exit) →
  (∀ i e f, b = RbResponseEnd i e → rr_outbound_responses rr !! i = Some f → is_Some (answers !! if_request_id f)) →
  rs_inbound max (mkRrSystem rr' (rh_receive h eff) answers service').
Proof.
  intros Hin Hlt Hturn Hans. pose proof (turn_counter _ _ _ _ _ _ Hturn Hlt) as Hn.
  pose proof (owed_receive h eff) as Ho. pose proof (events_receive h eff) as Hev'.
  pose proof Hin as [Hmax Hb Hids Hfr Hre How Hun Han Hpe Hev]. cbn in *.
  destruct (turn_inbound _ _ _ _ _ _ Hturn) as [Hm [(Hq & Hr & He)|[(f & Hq & Hr & He & Hid & Hnext & Hroom)
    |[(i & f & Hi & Hq & [[Hr He]|[Hr He]])|(i & f & e & -> & Hi & Hq & Hr & He)]]]]; rewrite He in Ho; cbn in Ho.
  - eapply inbound_same; [exact Hin|..]; try done. by intros; eapply Hev'.
  - rewrite wrapping_succ in Hnext by done.
    assert (∀ g, g ∈ rr_inbound_requests rr ++ rr_outbound_responses rr → if_request_id g ≠ if_request_id f) as Hnew.
    { intros g Hg%Hfr. lia. }
    split; cbn; rewrite ?Hm, ?Hq, ?Hr, ?Ho; try done.
    + intros m Hm'. rewrite length_app. cbn. specialize (Hroom m). rewrite Hmax in Hroom. specialize (Hroom Hm'). lia.
    + rewrite fmap_app. cbn. rewrite <- app_assoc. rewrite (Permutation_app_comm [_]), app_assoc.
      apply NoDup_app. split; [done|]. split; [|apply NoDup_singleton].
      intros id. rewrite <- fmap_app. intros (g & -> & Hg)%list_elem_of_fmap Hg'%list_elem_of_singleton. by apply (Hnew g).
    + intros g. rewrite !elem_of_app, list_elem_of_singleton. intros [[Hg| ->]|Hg]; [|lia|].
      * specialize (Hfr g). set_solver by lia.
      * specialize (Hfr g). set_solver by lia.
    + intros id Hid'. rewrite Ho. auto.
    + intros id. rewrite Ho. auto.
    + intros id [? ?]%Han. split; [lia|]. rewrite fmap_app. cbn. set_solver by lia.
    + by intros; eapply Hev'.
  - pose proof (take_nth_perm _ _ _ Hi) as Hp. rewrite <- Hq in Hp. rewrite Hp in Hids. setoid_rewrite Hp in Hfr. setoid_rewrite Hp in Han. cbn in Hids.
    apply NoDup_cons in Hids as [_ Hids]. split; cbn; rewrite ?Hm, ?Hr, ?Ho; try done.
    + intros m Hm'. specialize (Hb m Hm'). rewrite Hp in Hb. cbn in Hb. lia.
    + intros g Hg. eapply N.lt_le_trans, Hn. apply Hfr. by right.
    + intros id Hid'. rewrite Ho. auto.
    + intros id. rewrite Ho. auto.
    + intros id [? Hid]%Han. cbn in Hid. split; [lia|]. set_solver.
    + by intros; eapply Hev'.
  - pose proof (take_nth_perm _ _ _ Hi) as Hp. rewrite <- Hq in Hp. rewrite Hp in Hids. setoid_rewrite Hp in Hfr. setoid_rewrite Hp in Han. cbn in Hids.
    pose proof Hids as [Hnin _]%NoDup_cons. rewrite not_elem_of_app in Hnin. destruct Hnin as [Hnq Hnr].
    assert (if_request_id f ∉ owed h) as Hno by (by intros [? _]%Hun).
    split; cbn; rewrite ?Hm, ?Hr, ?Ho; try done.
    + intros m Hm'. specialize (Hb m Hm'). rewrite Hp in Hb. rewrite length_app. cbn in *. lia.
    + rewrite fmap_app. cbn. eapply NoDup_Permutation_proper; [|exact Hids]. rewrite app_assoc.
      symmetry. apply Permutation_cons_append.
    + intros g Hg. eapply N.lt_le_trans, Hn. apply Hfr. set_solver.
    + intros id. rewrite fmap_app, elem_of_app, Ho. cbn. rewrite list_elem_of_singleton.
      intros [Hid| ->]; [|left; left]. destruct (Hre id Hid); [left; by right|by right].
    + by constructor.
    + intros id. rewrite Ho, elem_of_cons, fmap_app, elem_of_app. intros [->|Hid].
      * split; [right; cbn; set_solver|]. destruct (answers !! if_request_id f) eqn:E; [|done].
        exfalso. destruct (Han (if_request_id f)) as [_ Hnot]; [by eexists|]. apply Hnot. cbn. left.
      * destruct (Hun id Hid) as [? ->]. auto.
    + intros id [? Hid]%Han. cbn in Hid. split; [lia|]. set_solver.
    + by intros; eapply Hev'.
  - pose proof (take_nth_perm _ _ _ Hi) as Hp. rewrite <- Hr in Hp. rewrite Hp in Hids. setoid_rewrite Hp in Hfr.
    cbn in Hids. rewrite <- Permutation_middle in Hids. apply NoDup_cons in Hids as [_ Hids].
    destruct (Hans i e f eq_refl Hi) as [a Ha].
    split; cbn; rewrite ?Hm, ?Hq, ?Ho; try done.
    + intros m Hm'. specialize (Hb m Hm'). rewrite Hp in Hb. cbn in *. lia.
    + intros g Hg. eapply N.lt_le_trans, Hn. apply Hfr. set_solver.
    + intros id Hid. rewrite Ho. apply Hre. rewrite Hp. cbn. by right.
    + intros id. rewrite Ho. intros Hid. destruct (Hun id Hid) as [Hid' Hnone]. split; [|done].
      rewrite Hp in Hid'. cbn in Hid'. apply elem_of_cons in Hid' as [->|?]; [congruence|done].
    + intros id [? Hid]%Han. split; [lia|done].
    + by intros; eapply Hev'.
Qed.

Lemma inbound_poll max rr h answers service h' o : rs_inbound max (mkRrSystem rr h answers service) →
  rh_poll_next false h = Done (h', o) → rs_inbound max (mkRrSystem rr h' answers service).
Proof.
  intros Hin Heq. pose proof Hin as [_ _ _ _ _ How _ _ Hpe Hev]. cbn in *.
  destruct h as [[|e ev] cmds pend]; cbn in Heq; [by simplify_eq|].
  destruct e as [p fb id r tx|p fb id r|p id r]; cbn in Heq; injection Heq as <- <-.
  - unfold owed in How. cbn in How. apply NoDup_cons in How as [Hnin _].
    rewrite (Hev p fb id r tx) by left. eapply inbound_same; [exact Hin|..]; try done.
    + unfold owed. cbn. rewrite map_to_list_insert; [symmetry; apply Permutation_middle|].
      destruct (pend !! id) as [t|] eqn:E; [|done]. destruct Hnin. apply elem_of_app. right.
      apply list_elem_of_fmap. exists (id, t). split; [done|]. by apply elem_of_map_to_list.
    + cbn. intros i t [[<- <-]|[_ ?]]%lookup_insert_Some; eauto.
    + intros. eapply Hev. by right.
  - eapply inbound_same; [exact Hin|..]; try done. intros. eapply Hev. by right.
  - eapply inbound_same; [exact Hin|..]; try done. intros. eapply Hev. by right.
Qed.

Lemma inbound_step max s m s' : rs_inbound max s → rs_step s m s' → rs_inbound max s'.
Proof.
  intros Hin Hs. destruct Hs as [rr h answers service p req fb dial h' n' id Hroom Hlt Heq
    |rr h answers service p req fb dial h' n' r Hlt Heq|rr h answers service id Hroom
    |rr h answers service id resp h' o Heq|rr h answers service id h' o Heq|rr h answers service h' o Heq
    |now ch s b rr h answers service rr' eff exit sv service' Hready Hlt Hturn Hsv
    |rr h answers ts l now ch rx closed l' ts1 seen rest l1 Hfed Hpoll Hrx Hseen|rr h answers ts l n Hn].
  - unfold rh_send_request, rh_next_request_id in Heq. simplify_eq.
    eapply inbound_same; [exact Hin|..]; try done; try apply Hin. cbn. rewrite wrapping_succ by done. lia.
  - unfold rh_try_send_request, rh_next_request_id in Heq.
    destruct (has_room capacity h); simplify_eq; (eapply inbound_same; [exact Hin|..]; try done; try apply Hin);
      cbn; rewrite wrapping_succ by done; lia.
  - eapply inbound_same; [exact Hin|..]; try done; apply Hin.
  - unfold rh_send_response in Heq. destruct (rh_pending_responses h !! id) as [tx|] eqn:E; simplify_eq; [|done].
    by apply inbound_answer.
  - unfold rh_reject_request in Heq. destruct (rh_pending_responses h !! id) as [tx|] eqn:E; simplify_eq; [|done].
    by apply inbound_answer.
  - by eapply inbound_poll.
  - destruct (ready_inbound _ _ _ _ _ _ _ _ _ Hready Hin) as [Hin' Hans]. by eapply inbound_turn.
  - eapply inbound_same; [exact Hin|..]; try done; apply Hin.
  - eapply inbound_same; [exact Hin|..]; try done; apply Hin.
Qed.

(** C8. The requests of the remotes are bounded: with a limit of [max] concurrent ones, at most
    [max] are being read or wait for an answer; the user owes an answer to at most as many as
    wait for one; and each that waits is either owed by the user, in the queue of events or in
    the table of the handle, or was answered or rejected, so that no channel for a response
    is lost. *)
Theorem inbound_requests_bounded protocol fallbacks n timeout ka next max tr s :
  steps rs_step (RrSystem_new protocol fallbacks n timeout ka next (Some max)) tr s →
  length (rr_inbound_requests (rs_protocol s)) + length (rr_outbound_responses (rs_protocol s)) ≤ max ∧
  length (omap received_id (rh_event_rx (rs_handle s))) + size (rh_pending_responses (rs_handle s)) ≤
    length (rr_outbound_responses (rs_protocol s)) ∧
  ∀ f, f ∈ rr_outbound_responses (rs_protocol s) →
    if_request_id f ∈ owed (rs_handle s) ∨ is_Some (rs_answers s !! if_request_id f).
Proof.
  intros Hrun. assert (rs_inbound (Some max) s) as Hin.
  { refine (steps_history rs_step (λ _, rs_inbound (Some max)) _ _ _ _ _ Hrun).
    - intros _ s0 m s1 H1 H2. by eapply inbound_step.
    - split; cbn; try set_solver; try constructor; try lia. all: intros; by rewrite lookup_empty in *. }
  destruct Hin as [_ Hb _ _ Hre How Hun _ _ _]. split; [by apply Hb|]. split.
  - replace (length _ + _) with (length (owed (rs_handle s))).
    2: { unfold owed. by rewrite length_app, length_fmap, length_map_to_list. }
    rewrite <- (length_fmap if_request_id (rr_outbound_responses (rs_protocol s))).
    apply submseteq_length, NoDup_submseteq; [done|]. intros id Hid. by apply Hun.
  - intros f Hf. apply Hre. by apply list_elem_of_fmap_2.
Qed.

(** A turn with its marks and its result computed. *)
Lemma turn_step now ch s b rr h answers service rr' eff exit sv service' m s' :
  ready now ch s b (mkRrSystem rr h answers service) → (rr_next_request_id rr < usize_max)%N →
  rr_turn debug sv rr b = Done (rr', eff, exit) → serves now ch sv service eff service' →
  (MkReplaced <$> turn_replaced sv rr b) ++ (MkCanceled <$> turn_canceled rr b) = m →
  mkRrSystem rr' (rh_receive h eff) answers service' = s' → rs_step s m s'.
Proof. intros ? ? ? ? <- <-. by econstructor. Qed.
End system.

(** ** Runs *)
Module RequestExample.
Import ServiceExample.
#[local] Existing Instance canonical_order.
#[local] Existing Instance eager_sleep.

Definition service : ServiceAnswers := mkServiceAnswers (λ _, Ok tt) (λ _, Ok 0%N).
Definition s0 := RrSystem_new "/notif/1" [] 0 5 KaYes 0 (Some 1).
Definition request0 : RequestResponseCommand := RcSendRequest peer 0 [x01] DialPeerOption.
Definition request1 : RequestResponseCommand := RcSendRequest peer 1 [x02] DialPeerOption.

Definition turned (rr : RequestResponseProtocol) (b : RrBranch) : RequestResponseProtocol :=
  match rr_turn true service rr b with Done (rr, _, _) => rr | Panic => rr end.
Definition idle (rr : RequestResponseProtocol) (ts : TransportService * Links) : RrSystem :=
  mkRrSystem rr RequestResponseHandle_new ∅ ts.

(** Two requests to a peer without a connection, which is being dialed. *)
Definition rr1 := turned (rr_set_next (rs_protocol s0) 1) (RbCommand (Some request0)).
Definition rr2 := turned (rr_set_next rr1 2) (RbCommand (Some request1)).
Definition dialing := idle rr2 (rs_service s0).

Lemma command_step rr rr' cmd m s : ready true 0 channels s (RbCommand (Some cmd)) (idle rr (rs_service s0)) →
  (rr_next_request_id rr <? usize_max)%N = true →
  rr_turn true service rr (RbCommand (Some cmd)) = Done (rr', [RrDial peer], false) →
  (MkReplaced <$> turn_replaced service rr (RbCommand (Some cmd))) ++ [] = m →
  rs_step true 8 s m (idle rr' (rs_service s0)).
Proof.
  intros Hready Hlt%N.ltb_lt Hturn Hm. eapply turn_step; [done|done|done| |done|done]. by repeat constructor.
Qed.

Lemma dialing_run : steps (rs_step true 8) s0 [[MkAsked 0]; []; [MkAsked 1]; [MkReplaced 0]] dialing.
Proof.
  eapply steps_cons; [by apply (S_send true 8 _ _ _ _ peer [x01] None DialPeerOption)|].
  eapply steps_cons; [by apply (command_step (rr_set_next (rs_protocol s0) 1) rr1 request0); [constructor|..]|].
  eapply steps_cons; [by apply (S_send true 8 _ _ _ _ peer [x02] None DialPeerOption)|].
  eapply steps_cons; [by apply (command_step (rr_set_next rr1 2) rr2 request1); [constructor|..]|constructor].
Qed.

(** A connection over which a request arrives; it is read and handed to the user. *)
Definition opened : InnerTransportEvent := ItSubstreamOpened peer "/notif/1" None Inbound 3 7 0.
Definition ts2' := polled 2 ts1 [opened].
Definition in1 := turned (rs_protocol s0) (RbService (Some (SvConnectionEstablished peer (Listener [] 3)))).
Definition in2 := turned in1 (RbService (Some (SvSubstreamOpened peer "/notif/1" None Inbound 7))).
Definition in3 := turned in2 (RbRequestRead 0 (Ok [x05])).
Definition asked_user := mkRrSystem in3 (mkRequestResponseHandle [] [] {[0%N := 0%N]}) ∅ (ts2', up1).

Lemma opened_fed : fed up1 [opened] up1.
Proof. econstructor; [by apply F_inbound|constructor]. Qed.

Lemma inbound_run : steps (rs_step true 8) s0 [[]; []; []; []] asked_user.
Proof.
  eapply steps_cons.
  { eapply (turn_step true 8 1 channels s0 (RbService (Some (SvConnectionEstablished peer (Listener [] 3)))) (rs_protocol s0) RequestResponseHandle_new ∅ (ts1, up1)
      in1 [] false service); [|done|by vm_compute|constructor|done|done].
    by eapply (B_service true 1 channels _ _ _ ts0 Links_init _ false up1 ts1 [_] []);
      [apply established_fed|vm_compute; reflexivity|done|apply established_fed]. }
  eapply steps_cons.
  { eapply (turn_step true 8 2 channels _ (RbService (Some (SvSubstreamOpened peer "/notif/1" None Inbound 7))) in1 RequestResponseHandle_new ∅ (ts2', up1)
      in2 [] false service); [|done|by vm_compute|constructor|done|done].
    by eapply (B_service true 2 channels _ _ _ ts1 up1 _ false up1 ts2' [_] []);
      [apply opened_fed|vm_compute; reflexivity|done|apply opened_fed]. }
  eapply steps_cons.
  { eapply (turn_step true 8 2 channels _ (RbRequestRead 0 (Ok [x05])) in2 RequestResponseHandle_new ∅ (ts2', up1)
      in3 [RrRequestReceived peer None 0 [x05]] false service);
      [constructor|done|by vm_compute|by repeat constructor|done|done]. }
  eapply steps_cons; [|constructor].
  by apply (S_poll true 8 _ _ _ _ (mkRequestResponseHandle [] [] {[0%N := 0%N]})
    (Ready (Some (EvRequestReceived peer None 0 [x05])))).
Qed.
End RequestExample.

Lemma requests_accounted_witness : [0%N; 1%N] ≡ₚ [0%N] ++ waiting RequestExample.dialing.
Proof.
  exact (proj1 (proj2 (requests_accounted (H := canonical_order) (H0 := eager_sleep) true 8 _ _ _ _ _ _ _ _ _
    RequestExample.dialing_run))).
Defined.

Lemma replaced_never_answered_witness : MkReplaced 0 ∈ concat [[MkAsked 0]; []; [MkAsked 1]; [MkReplaced 0]] ∧
  0%N ∉ waiting RequestExample.dialing.
Proof.
  assert (MkReplaced 0 ∈ concat [[MkAsked 0]; []; [MkAsked 1]; [MkReplaced 0]]) as Hin by (cbn; set_solver).
  split; [exact Hin|].
  apply (replaced_never_answered (H := canonical_order) (H0 := eager_sleep) true 8 _ _ _ _ _ _ _ _ _ _
    RequestExample.dialing_run Hin).
Defined.

Lemma inbound_requests_bounded_witness :
  length (rr_outbound_responses (rs_protocol RequestExample.asked_user)) = 1 ∧
  0 + length (rr_outbound_responses (rs_protocol RequestExample.asked_user)) ≤ 1.
Proof.
  split; [reflexivity|].
  exact (proj1 (inbound_requests_bounded (H := canonical_order) (H0 := eager_sleep) true 8 _ _ _ _ _ _ _ _ _
    RequestExample.inbound_run)).
Defined.
