(* ===== verification/WebRtcSubstream.v ===== *)
(** * WebRTC substreams

    [src/src/transport/webrtc/substream.rs]: a substream is a pair of a [Substream], which a
    protocol reads and writes, and a [SubstreamHandle], which the connection polls for what to
    send and gives what it received. The two halves share three states and two bounded
    channels; an endpoint is the pair. Time is in seconds. Wakers are not modelled: a state
    that is read is the state that was last set. *)

From stdpp Require Import base tactics option list.
From Stdlib Require Import NArith Lia Init.Byte.
From S2P Require Import Prelude ProtocolTypes.

Local Open Scope litep2p_scope.

(** ** Data *)

Definition FIN_ACK_TIMEOUT : N := 10.
Definition TEARDOWN_TIMEOUT : N := 10.
Definition MAX_INFLIGHT_MESSAGES : nat := 256.
(** [util::MAX_FRAME_SIZE], 16 KiB *)
Definition WEBRTC_MAX_FRAME_SIZE : nat := Nat.pow 2 14.
#[global] Arguments WEBRTC_MAX_FRAME_SIZE : simpl never.

(** [schema::webrtc::message::Flag] *)
Inductive Flag := FlFin | FlStopSending | FlResetStream | FlFinAck.

Record WsMessage := mkWsMessage { msg_payload : list byte; msg_flag : option Flag }.

(** [util::WebRtcMessage] *)
Record WebRtcMessage := mkWebRtcMessage { wm_payload : option (list byte); wm_flag : option Flag }.

(** *** Shared states

    A state is stored as a byte. *)
Class AtomicState (T : Type) : Type := { from_u8 : N → T; into_u8 : T → N }.

Record SharedState (T : Type) := mkSharedState { shared_byte : N }.
Arguments mkSharedState {T} _.
Arguments shared_byte {T} _.

(** [SharedState::new] and [SharedState::set] *)
Definition shared `{AtomicState T} (v : T) : SharedState T := mkSharedState (into_u8 v).
(** [SharedState::get] and [SharedState::register_and_get] *)
Definition shared_get `{AtomicState T} (s : SharedState T) : T := from_u8 (shared_byte s).

#[global] Arguments shared_get : simpl never.
#[global] Arguments shared : simpl never.

(** [substream::ChannelState] *)
Inductive WsChannel := ChOpen | ChInitReset | ChReset.
Inductive ReaderState := RdOpen | RdFin | RdFinAck.
Inductive WriterState := WrOpen | WrFin | WrFinAck | WrStopSending.

#[export] Instance channel_atomic : AtomicState WsChannel := {
  from_u8 b := match b with 0 => ChOpen | 1 => ChInitReset | 2 => ChReset | _ => ChReset end%N;
  into_u8 s := match s with ChOpen => 0 | ChInitReset => 1 | ChReset => 2 end%N;
}.
#[export] Instance reader_atomic : AtomicState ReaderState := {
  from_u8 b := match b with 0 => RdOpen | 1 => RdFin | 2 => RdFinAck | _ => RdFinAck end%N;
  into_u8 s := match s with RdOpen => 0 | RdFin => 1 | RdFinAck => 2 end%N;
}.
#[export] Instance writer_atomic : AtomicState WriterState := {
  from_u8 b := match b with 0 => WrOpen | 1 => WrFin | 2 => WrFinAck | 3 => WrStopSending | _ => WrFinAck end%N;
  into_u8 s := match s with WrOpen => 0 | WrFin => 1 | WrFinAck => 2 | WrStopSending => 3 end%N;
}.

#[export] Instance WsChannel_eq_dec : EqDecision WsChannel.
Proof. solve_decision. Defined.
#[export] Instance ReaderState_eq_dec : EqDecision ReaderState.
Proof. solve_decision. Defined.
#[export] Instance WriterState_eq_dec : EqDecision WriterState.
Proof. solve_decision. Defined.
#[export] Instance Flag_eq_dec : EqDecision Flag.
Proof. solve_decision. Defined.

(** *** Bounded channels

    [tokio::sync::mpsc::channel(MAX_INFLIGHT_MESSAGES)]: what is buffered, whether there is a
    sender, and whether the receiver neither was dropped nor closed the channel. *)
Record Channel := mkChannel {
  chan_queue : list WsMessage;
  chan_tx : bool;
  chan_rx : bool;
}.

Definition Channel_new : Channel := mkChannel [] true true.

Inductive WsTrySend := TsFull | TsClosed.

(** [Sender::try_send] *)
Definition try_send (c : Channel) (m : WsMessage) : Channel * result WsTrySend unit :=
  if chan_rx c then
    if length (chan_queue c) <? MAX_INFLIGHT_MESSAGES then
      (mkChannel (chan_queue c ++ [m]) (chan_tx c) (chan_rx c), Ok tt)
    else (c, Err TsFull)
  else (c, Err TsClosed).

(** [Receiver::poll_recv] *)
Definition poll_recv (c : Channel) : Channel * Poll (option WsMessage) :=
  match chan_queue c with
  | m :: q => (mkChannel q (chan_tx c) (chan_rx c), Ready (Some m))
  | [] => (c, if chan_tx c && chan_rx c then Prelude.Pending else Ready None)
  end.

(** [Receiver::is_closed] *)
Definition rx_is_closed (c : Channel) : bool := negb (chan_tx c && chan_rx c).

(** A sender that is dropped, [Receiver::close], and a receiver that is dropped with what it holds *)
Definition drop_tx (c : Channel) : Channel := mkChannel (chan_queue c) false (chan_rx c).
Definition close_rx (c : Channel) : Channel := mkChannel (chan_queue c) (chan_tx c) false.
Definition drop_rx (c : Channel) : Channel := mkChannel [] (chan_tx c) false.

(** *** Endpoints

    [Substream] and [SubstreamHandle]. The optional senders [tx] and [message_tx] are present
    when the outbound and the inbound channel have a sender. The sender [tx] is a [PollSender], which
    is closed by itself once it has found the channel closed ([ws_tx_closed]). *)
Record WsEndpoint := mkWsEndpoint {
  ws_channel : SharedState WsChannel;
  ws_writer : SharedState WriterState;
  ws_reader : SharedState ReaderState;
  ws_read_buffer : list byte;
  ws_inbound : Channel;
  ws_outbound : Channel;
  ws_fin_ack_timeout : option N;
  ws_stop_sending_sent : bool;
  ws_teardown_deadline : option N;
  ws_tx_closed : bool;
}.

(** [Substream::new] *)
Definition WsEndpoint_new : WsEndpoint :=
  mkWsEndpoint (shared ChOpen) (shared WrOpen) (shared RdOpen) [] Channel_new Channel_new None false None false.

Definition ws_set_channel (e : WsEndpoint) (s : WsChannel) : WsEndpoint :=
  mkWsEndpoint (shared s) (ws_writer e) (ws_reader e) (ws_read_buffer e) (ws_inbound e) (ws_outbound e)
    (ws_fin_ack_timeout e) (ws_stop_sending_sent e) (ws_teardown_deadline e) (ws_tx_closed e).
Definition ws_set_writer (e : WsEndpoint) (s : WriterState) : WsEndpoint :=
  mkWsEndpoint (ws_channel e) (shared s) (ws_reader e) (ws_read_buffer e) (ws_inbound e) (ws_outbound e)
    (ws_fin_ack_timeout e) (ws_stop_sending_sent e) (ws_teardown_deadline e) (ws_tx_closed e).
Definition ws_set_reader (e : WsEndpoint) (s : ReaderState) : WsEndpoint :=
  mkWsEndpoint (ws_channel e) (ws_writer e) (shared s) (ws_read_buffer e) (ws_inbound e) (ws_outbound e)
    (ws_fin_ack_timeout e) (ws_stop_sending_sent e) (ws_teardown_deadline e) (ws_tx_closed e).
Definition ws_set_read_buffer (e : WsEndpoint) b : WsEndpoint :=
  mkWsEndpoint (ws_channel e) (ws_writer e) (ws_reader e) b (ws_inbound e) (ws_outbound e)
    (ws_fin_ack_timeout e) (ws_stop_sending_sent e) (ws_teardown_deadline e) (ws_tx_closed e).
Definition ws_set_inbound (e : WsEndpoint) c : WsEndpoint :=
  mkWsEndpoint (ws_channel e) (ws_writer e) (ws_reader e) (ws_read_buffer e) c (ws_outbound e)
    (ws_fin_ack_timeout e) (ws_stop_sending_sent e) (ws_teardown_deadline e) (ws_tx_closed e).
Definition ws_set_outbound (e : WsEndpoint) c : WsEndpoint :=
  mkWsEndpoint (ws_channel e) (ws_writer e) (ws_reader e) (ws_read_buffer e) (ws_inbound e) c
    (ws_fin_ack_timeout e) (ws_stop_sending_sent e) (ws_teardown_deadline e) (ws_tx_closed e).
Definition ws_set_fin_ack_timeout (e : WsEndpoint) t : WsEndpoint :=
  mkWsEndpoint (ws_channel e) (ws_writer e) (ws_reader e) (ws_read_buffer e) (ws_inbound e) (ws_outbound e)
    t (ws_stop_sending_sent e) (ws_teardown_deadline e) (ws_tx_closed e).
Definition ws_set_stop_sending_sent (e : WsEndpoint) b : WsEndpoint :=
  mkWsEndpoint (ws_channel e) (ws_writer e) (ws_reader e) (ws_read_buffer e) (ws_inbound e) (ws_outbound e)
    (ws_fin_ack_timeout e) b (ws_teardown_deadline e) (ws_tx_closed e).
Definition ws_set_teardown_deadline (e : WsEndpoint) t : WsEndpoint :=
  mkWsEndpoint (ws_channel e) (ws_writer e) (ws_reader e) (ws_read_buffer e) (ws_inbound e) (ws_outbound e)
    (ws_fin_ack_timeout e) (ws_stop_sending_sent e) t (ws_tx_closed e).
Definition ws_close_tx (e : WsEndpoint) : WsEndpoint :=
  mkWsEndpoint (ws_channel e) (ws_writer e) (ws_reader e) (ws_read_buffer e) (ws_inbound e) (ws_outbound e)
    (ws_fin_ack_timeout e) (ws_stop_sending_sent e) (ws_teardown_deadline e) true.

Definition flag_message (f : Flag) : WsMessage := mkWsMessage [] (Some f).

(** ** Messages of the remote *)

Inductive WsError := WsConnectionClosed.

(** The end of a substream on which the remote or this side gave up. *)
Definition ws_tear_down (e : WsEndpoint) : WsEndpoint :=
  let e := ws_set_channel e ChReset in
  let e := ws_set_outbound e (close_rx (ws_outbound e)) in
  ws_set_inbound e (drop_tx (ws_inbound e)).

(** The flag of a message, handled after its payload *)
Definition ws_on_flag (e : WsEndpoint) (flag : option Flag) : WsEndpoint * result WsError unit :=
  match flag with
  | None => (e, Ok tt)
  | Some FlFin =>
      match shared_get (ws_reader e) with
      | RdFin | RdFinAck => (e, Ok tt)
      | RdOpen =>
          let e := ws_set_reader e RdFin in
          (ws_set_inbound e (drop_tx (ws_inbound e)), Ok tt)
      end
  | Some FlFinAck =>
      match shared_get (ws_writer e) with
      | WrFin => (ws_set_writer e WrFinAck, Ok tt)
      | _ => (ws_tear_down e, Err WsConnectionClosed)
      end
  | Some FlStopSending =>
      match shared_get (ws_channel e), shared_get (ws_writer e) with
      | ChReset, _ | _, WrFin | _, WrFinAck => (e, Ok tt)
      | _, _ =>
          let e := ws_set_writer e WrStopSending in
          (ws_set_outbound e (close_rx (ws_outbound e)), Ok tt)
      end
  | Some FlResetStream => (ws_tear_down e, Err WsConnectionClosed)
  end.

(** [SubstreamHandle::on_message] *)
Definition ws_on_message (e : WsEndpoint) (message : WebRtcMessage) : WsEndpoint * result WsError unit :=
  match shared_get (ws_channel e) with
  | ChReset | ChInitReset => (e, Ok tt)
  | ChOpen =>
      match chan_tx (ws_inbound e), wm_payload message with
      | true, Some ((_ :: _) as payload) =>
          match try_send (ws_inbound e) (mkWsMessage payload None) with
          | (inbound, Ok _) => ws_on_flag (ws_set_inbound e inbound) (wm_flag message)
          | (_, Err TsClosed) => ws_on_flag e (wm_flag message)
          | (_, Err TsFull) => (ws_set_channel e ChInitReset, Ok tt)
          end
      | _, _ => ws_on_flag e (wm_flag message)
      end
  end.

(** ** Messages to the remote *)

(** The substream is reset and the remote is told. *)
Definition ws_reset (e : WsEndpoint) : WsEndpoint * Poll (option WsMessage) :=
  (ws_set_channel e ChReset, Ready (Some (flag_message FlResetStream))).

(** [SubstreamHandle::poll_half_close] *)
Definition ws_poll_half_close (now : N) (e : WsEndpoint) : WsEndpoint * Poll (option WsMessage) :=
  match shared_get (ws_writer e) with
  | WrOpen | WrStopSending =>
      let e := ws_set_fin_ack_timeout e (Some (now + FIN_ACK_TIMEOUT)%N) in
      (ws_set_writer e WrFin, Ready (Some (flag_message FlFin)))
  | WrFin =>
      let expired := match ws_fin_ack_timeout e with Some t => (t <=? now)%N | None => true end in
      if expired then
        let '(e, message) := ws_reset e in (ws_set_fin_ack_timeout e None, message)
      else (e, Prelude.Pending)
  | WrFinAck => (e, Ready None)
  end.

(** [SubstreamHandle::poll_teardown_deadline] *)
Definition ws_poll_teardown_deadline (now : N) (e : WsEndpoint) : WsEndpoint * bool :=
  match ws_teardown_deadline e with
  | Some t => (e, (t <=? now)%N)
  | None => (ws_set_teardown_deadline e (Some (now + TEARDOWN_TIMEOUT)%N), false)
  end.

(** Whether the [Substream] was dropped while the remote may still write:
    [self.message_tx.as_ref().is_some_and(|tx| tx.is_closed())] *)
Definition ws_abandoned (e : WsEndpoint) : bool := chan_tx (ws_inbound e) && negb (chan_rx (ws_inbound e)).

(** The part of [poll_progress] that depends on the writer's state *)
Definition ws_poll_writer (now : N) (pull_payload : bool) (e : WsEndpoint) :
    WsEndpoint * Poll (option WsMessage) :=
  match shared_get (ws_writer e) with
  | WrOpen =>
      if pull_payload then
        match poll_recv (ws_outbound e) with
        | (outbound, Ready None) => ws_poll_half_close now (ws_set_outbound e outbound)
        | (outbound, res) => (ws_set_outbound e outbound, res)
        end
      else if rx_is_closed (ws_outbound e) && bool_decide (chan_queue (ws_outbound e) = []) then
        ws_poll_half_close now e
      else if rx_is_closed (ws_outbound e) then
        let '(e, expired) := ws_poll_teardown_deadline now e in
        if expired : bool then ws_reset e else (e, Prelude.Pending)
      else (e, Prelude.Pending)
  | WrFin | WrStopSending => ws_poll_half_close now e
  | WrFinAck => (e, Ready None)
  end.

(** [SubstreamHandle::poll_progress] *)
Definition ws_poll_progress (now : N) (pull_payload : bool) (e : WsEndpoint) :
    WsEndpoint * Poll (option WsMessage) :=
  match shared_get (ws_channel e) with
  | ChInitReset => ws_reset e
  | ChReset => (e, Ready None)
  | ChOpen =>
      if negb (ws_stop_sending_sent e) && bool_decide (shared_get (ws_reader e) = RdOpen) && ws_abandoned e then
        (ws_set_stop_sending_sent e true, Ready (Some (flag_message FlStopSending)))
      else
        let '(e, expired) := if ws_abandoned e then ws_poll_teardown_deadline now e else (e, false) in
        if expired : bool then ws_reset e
        else if decide (shared_get (ws_reader e) = RdFin) then
          (ws_set_reader e RdFinAck, Ready (Some (flag_message FlFinAck)))
        else
          match ws_poll_writer now pull_payload e with
          | (e, Ready None) =>
              (e, if decide (shared_get (ws_reader e) = RdFinAck) then Ready None else Prelude.Pending)
          | res => res
          end
  end.

(** [Drop for SubstreamHandle], and the ends of the channels that are dropped with it *)
Definition ws_drop_handle (e : WsEndpoint) : WsEndpoint :=
  let graceful := bool_decide (shared_get (ws_writer e) = WrFinAck) && bool_decide (shared_get (ws_reader e) = RdFinAck) in
  let e := if graceful then e else ws_set_channel e ChReset in
  ws_set_outbound (ws_set_inbound e (drop_tx (ws_inbound e))) (drop_rx (ws_outbound e)).

(** ** The protocol's side *)

(** [AsyncRead::poll_read] into a buffer with room for [capacity] bytes *)
Definition ws_poll_read (capacity : nat) (e : WsEndpoint) : WsEndpoint * Poll (result IoKind (list byte)) :=
  match ws_read_buffer e with
  | _ :: _ =>
      let num_bytes := Nat.min (length (ws_read_buffer e)) capacity in
      (ws_set_read_buffer e (drop num_bytes (ws_read_buffer e)), Ready (Ok (take num_bytes (ws_read_buffer e))))
  | [] =>
      match poll_recv (ws_inbound e) with
      | (inbound, Prelude.Pending) => (ws_set_inbound e inbound, Prelude.Pending)
      | (inbound, Ready None) =>
          (ws_set_inbound e inbound,
           Ready (if decide (shared_get (ws_channel e) = ChReset) then Err IoConnectionReset else Ok []))
      | (inbound, Ready (Some message)) =>
          let e := ws_set_inbound e inbound in
          let payload := msg_payload message in
          if WEBRTC_MAX_FRAME_SIZE <? length payload then (e, Ready (Err IoPermissionDenied))
          else if length payload <=? capacity then (e, Ready (Ok payload))
          else (ws_set_read_buffer e (ws_read_buffer e ++ drop capacity payload), Ready (Ok (take capacity payload)))
      end
  end.

(** [AsyncWrite::poll_write] *)
Definition ws_poll_write (buf : list byte) (e : WsEndpoint) : WsEndpoint * Poll (result IoKind nat) :=
  if chan_tx (ws_outbound e) then
    let num_bytes := Nat.min WEBRTC_MAX_FRAME_SIZE (length buf) in
    match try_send (ws_outbound e) (mkWsMessage (take num_bytes buf) None) with
    | (outbound, Ok _) => (ws_set_outbound e outbound, Ready (Ok num_bytes))
    | (_, Err TsFull) => (e, Prelude.Pending)
    | (_, Err TsClosed) => (ws_close_tx e, Ready (Err IoBrokenPipe))
    end
  else (e, Ready (Err IoBrokenPipe)).

(** [AsyncWrite::poll_flush]; [PollSender::is_closed] tells of the sender, not of the channel *)
Definition ws_poll_flush (e : WsEndpoint) : result IoKind unit :=
  if chan_tx (ws_outbound e) && negb (ws_tx_closed e) then Ok tt else Err IoBrokenPipe.

(** [AsyncWrite::poll_shutdown] *)
Definition ws_poll_shutdown (e : WsEndpoint) : WsEndpoint * Poll (result IoKind unit) :=
  let e := ws_set_outbound e (drop_tx (ws_outbound e)) in
  (e, match shared_get (ws_channel e), shared_get (ws_writer e) with
      | ChReset, _ | _, WrFinAck | _, WrStopSending => Ready (Ok tt)
      | _, _ => Prelude.Pending
      end).

(** A [Substream] that is dropped *)
Definition ws_drop_substream (e : WsEndpoint) : WsEndpoint :=
  ws_set_outbound (ws_set_inbound e (drop_rx (ws_inbound e))) (drop_tx (ws_outbound e)).
