(* ===== verification/WebRtcFraming.v ===== *)
(** * WebRTC messages on the wire

    [src/src/transport/webrtc/util.rs]: a message is encoded as protobuf and prefixed with its
    length; the bytes that arrive on a data channel are collected until they hold a frame. The
    protobuf code of the [Message] schema is generated, so it is a parameter, as are the varints. *)

From stdpp Require Import base tactics option list.
From Stdlib Require Import NArith ZArith Lia Init.Byte Strings.Byte.
From S2P Require Import Prelude Varint ProtocolTypes WebRtcSubstream.

Local Open Scope litep2p_scope.

(** ** The generated code *)

(** [schema::webrtc::Message] *)
Record WmSchema := mkWmSchema { sm_flag : option Z; sm_message : option (list byte) }.

Class WebRtcSchema : Type := {
  schema_encode : WmSchema → list byte;
  schema_decode : list byte → option WmSchema;
}.

(** The sizes of the fields: a tag of one byte each, and the length of the payload. *)
Definition varint_length (n : N) : nat := length (leb128 n).
Definition schema_length (m : WmSchema) : nat :=
  match sm_flag m with Some f => 1 + varint_length (Z.to_N f) | None => 0 end +
  match sm_message m with Some p => 1 + varint_length (N.of_nat (length p)) + length p | None => 0 end.

(** Protobuf as documented, for the messages that are sent: their flags are not negative. *)
Class WebRtcSchemaLaws (P : WebRtcSchema) : Prop := {
  schema_decode_encode m : (∀ f, sm_flag m = Some f → (0 ≤ f < 128)%Z) →
    (∀ p, sm_message m = Some p → (N.of_nat (length p) < 2 ^ 32)%N) →
    schema_decode (schema_encode m) = Some m;
  schema_encode_length m : (∀ f, sm_flag m = Some f → (0 ≤ f < 128)%Z) →
    length (schema_encode m) = schema_length m;
}.

(** [unsigned_varint::decode::Error::Insufficient], reported when bytes are missing *)
Class VarintInsufficient : Type := uvi_insufficient : list byte → bool.

Class VarintInsufficientLaws (U : UnsignedVarint) (I : VarintInsufficient) : Prop :=
  uvi_insufficient_prefix bs n : (n < 2 ^ 64)%N → bs `prefix_of` leb128 n → bs ≠ leb128 n →
    uvi_decode_usize bs = None ∧ uvi_insufficient bs = true.

(** ** Messages *)

(** [Flag as i32] and [Flag::try_from] *)
Definition flag_to_i32 (f : Flag) : Z :=
  match f with FlFin => 0 | FlStopSending => 1 | FlResetStream => 2 | FlFinAck => 3 end.
Definition flag_try_from (n : Z) : option Flag :=
  match n with
  | 0 => Some FlFin
  | 1 => Some FlStopSending
  | 2 => Some FlResetStream
  | 3 => Some FlFinAck
  | _ => None
  end%Z.

Inductive WmParseError := WmInvalidData.

Section framing.
Context `{U : UnsignedVarint} `{I : VarintInsufficient} `{P : WebRtcSchema}.

Definition wm_schema (payload : list byte) (flag : option Flag) : WmSchema :=
  mkWmSchema (flag_to_i32 <$> flag) (match payload with [] => None | _ => Some payload end).

(** [WebRtcMessage::encode] *)
Definition wm_encode (payload : list byte) (flag : option Flag) : list byte :=
  let protobuf := schema_encode (wm_schema payload flag) in
  uvi_encode (N.of_nat (length protobuf)) ++ protobuf.

(** [WebRtcMessage::decode] *)
Definition wm_decode (protobuf_data : list byte) : result WmParseError WebRtcMessage :=
  match schema_decode protobuf_data with
  | Some message => Ok (mkWebRtcMessage (sm_message message) (sm_flag message ≫= flag_try_from))
  | None => Err WmInvalidData
  end.

(** [extract_framed_message], with what is left in the buffer *)
Definition extract_framed_message (buffer : list byte) :
    list byte * result WmParseError (option (list byte)) :=
  match uvi_decode_usize buffer with
  | None => (buffer, if uvi_insufficient buffer then Ok None else Err WmInvalidData)
  | Some (len, remaining) =>
      let len := N.to_nat len in
      if WEBRTC_MAX_FRAME_SIZE <? len then (buffer, Err WmInvalidData)
      else if length remaining <? len then (buffer, Ok None)
      else (drop len remaining, Ok (Some (take len remaining)))
  end.

(** The loop of [on_inbound_data] over the frames in the buffer. A frame has a byte at least, so
    the length of the buffer bounds the iterations. *)
Fixpoint extract_frames (fuel : nat) (buffer : list byte) : list byte * result WmParseError (list (list byte)) :=
  match fuel with
  | 0 => (buffer, Ok [])
  | S fuel =>
      match extract_framed_message buffer with
      | (buffer, Ok None) => (buffer, Ok [])
      | (buffer, Err e) => (buffer, Err e)
      | (buffer, Ok (Some body)) =>
          match extract_frames fuel buffer with
          | (buffer, Ok bodies) => (buffer, Ok (body :: bodies))
          | (buffer, Err e) => (buffer, Err e)
          end
      end
  end.

(** The bytes that arrive in one piece are appended to the buffer of the channel. *)
Definition receive_bytes (buffer data : list byte) : list byte * result WmParseError (list (list byte)) :=
  extract_frames (S (length (buffer ++ data))) (buffer ++ data).

Fixpoint receive_pieces (buffer : list byte) (pieces : list (list byte)) :
    list byte * result WmParseError (list (list byte)) :=
  match pieces with
  | [] => (buffer, Ok [])
  | data :: pieces =>
      match receive_bytes buffer data with
      | (buffer, Err e) => (buffer, Err e)
      | (buffer, Ok bodies) =>
          match receive_pieces buffer pieces with
          | (buffer, Ok bodies') => (buffer, Ok (bodies ++ bodies'))
          | (buffer, Err e) => (buffer, Err e)
          end
      end
  end.

(** ** Frames *)

Context `{!UnsignedVarintLaws U} `{!VarintInsufficientLaws U I} `{!WebRtcSchemaLaws P}.

Definition small (body : list byte) : Prop := length body ≤ WEBRTC_MAX_FRAME_SIZE.

Definition frame (body : list byte) : list byte := leb128 (N.of_nat (length body)) ++ body.

#[local] Arguments frame : simpl never.

(** A frame of which a part is missing. *)
Definition partial (bs : list byte) : Prop := ∃ body, small body ∧ bs `prefix_of` frame body ∧ bs ≠ frame body.

Lemma small_u64 body : small body → (N.of_nat (length body) < 2 ^ 64)%N.
Proof.
  unfold small. intros Hs. apply N.le_lt_trans with (N.of_nat WEBRTC_MAX_FRAME_SIZE); [lia|by vm_compute].
Qed.

Lemma frame_length body : 1 ≤ length (frame body).
Proof.
  unfold frame. rewrite length_app. pose proof (leb128_not_nil (N.of_nat (length body))).
  destruct (leb128 _); [done|]. cbn. lia.
Qed.

Lemma extract_complete body tail : small body →
  extract_framed_message (frame body ++ tail) = (tail, Ok (Some body)).
Proof using UnsignedVarintLaws0.
  intros Hs. unfold extract_framed_message, frame. rewrite <- app_assoc, uvi_decode_usize_leb128 by by apply small_u64.
  rewrite Nat2N.id, length_app. unfold small in Hs.
  rewrite (proj2 (Nat.ltb_ge _ _)) by done. rewrite (proj2 (Nat.ltb_ge _ _)) by lia.
  by rewrite drop_app_length, take_app_length.
Qed.

Lemma extract_partial bs : partial bs → extract_framed_message bs = (bs, Ok None).
Proof using UnsignedVarintLaws0 VarintInsufficientLaws0.
  intros (body & Hs & Hpre & Hne). unfold extract_framed_message, frame in *. pose proof (small_u64 body Hs) as Hu.
  set (n := N.of_nat (length body)) in *.
  assert (bs `prefix_of` leb128 n ∧ bs ≠ leb128 n ∨ ∃ x, bs = leb128 n ++ x ∧ length x < length body)
    as [[Hp Hn]|(x & -> & Hx)].
  { destruct (prefix_app_cases _ _ _ Hpre) as [?|(x & -> & Hx)]; [by left|right]. exists x. split; [done|].
    pose proof (prefix_length _ _ Hx). destruct (decide (length x = length body)) as [Heq|]; [|lia].
    destruct Hne. f_equal. by apply prefix_length_eq; [|lia]. }
  - by destruct (uvi_insufficient_prefix bs n Hu Hp Hn) as [-> ->].
  - rewrite uvi_decode_usize_leb128 by done. subst n. rewrite Nat2N.id. unfold small in Hs.
    rewrite (proj2 (Nat.ltb_ge _ _)) by done. by rewrite (proj2 (Nat.ltb_lt _ _)).
Qed.

Lemma partial_nil : partial [].
Proof.
  exists []. split; [unfold small; cbn; lia|]. split; [apply prefix_nil|]. by vm_compute.
Qed.

Lemma frames_length bodies : length bodies ≤ length (concat (frame <$> bodies)).
Proof.
  induction bodies as [|b bodies IH]; [done|]. rewrite fmap_cons. cbn [concat length]. rewrite length_app.
  pose proof (frame_length b). lia.
Qed.

Lemma extract_frames_spec bodies bs fuel : Forall small bodies → partial bs → length bodies < fuel →
  extract_frames fuel (concat (frame <$> bodies) ++ bs) = (bs, Ok bodies).
Proof using UnsignedVarintLaws0 VarintInsufficientLaws0.
  intros Hs Hp. revert fuel. induction Hs as [|b bodies Hb _ IH]; intros [|fuel] Hf; cbn in *; try lia.
  - by rewrite extract_partial.
  - rewrite <- app_assoc, extract_complete by done. rewrite IH by lia. done.
Qed.

(** What has arrived of a sequence of frames is a sequence of frames and a part of one. *)
Lemma frames_prefix bodies : ∀ xs rest bs, Forall small bodies → partial bs →
  xs ++ rest = concat (frame <$> bodies) ++ bs →
  ∃ b1 b2 p, bodies = b1 ++ b2 ∧ xs = concat (frame <$> b1) ++ p ∧ partial p ∧
    p ++ rest = concat (frame <$> b2) ++ bs.
Proof.
  induction bodies as [|b bodies IH]; intros xs rest bs Hs Hp Heq; cbn in *.
  - exists [], [], xs. split; [done|]. split; [done|]. split; [|done].
    destruct Hp as (body & ? & [k Hk] & Hne). exists body. split; [done|]. split.
    + exists (rest ++ k). by rewrite app_assoc, Heq.
    + intros Hx. apply Hne. destruct k as [|b k]; [by rewrite app_nil_r in Hk|]. exfalso.
      apply (f_equal length) in Heq. apply (f_equal length) in Hk. rewrite Hx in Heq. rewrite !length_app in *.
      cbn in *. lia.
  - apply Forall_cons in Hs as [Hb Hs].
    destruct (prefix_app_cases xs (frame b) (concat (frame <$> bodies) ++ bs)) as [[Hx Hne]|(x & -> & [k Hx])].
    + exists rest. by rewrite app_assoc.
    + exists [], (b :: bodies), xs. split; [done|]. split; [done|]. split; [by exists b|done].
    + rewrite <- !app_assoc in Heq. apply app_inv_head in Heq.
      destruct (IH x rest bs Hs Hp Heq) as (b1 & b2 & p & -> & -> & ? & ?).
      exists (b :: b1), b2, p. cbn. by rewrite app_assoc.
Qed.

Lemma receive_pieces_spec pieces : ∀ buffer bodies bs, Forall small bodies → partial buffer → partial bs →
  buffer ++ concat pieces = concat (frame <$> bodies) ++ bs →
  receive_pieces buffer pieces = (bs, Ok bodies).
Proof using UnsignedVarintLaws0 VarintInsufficientLaws0.
  induction pieces as [|data pieces IH]; intros buffer bodies bs Hs Hbuf Hbs Heq; cbn [concat receive_pieces] in *.
  - rewrite app_nil_r in Heq. pose proof (extract_partial buffer Hbuf) as Hno. subst buffer.
    destruct bodies as [|b bodies]; [done|]. apply Forall_cons in Hs as [Hb Hs].
    rewrite fmap_cons in Hno. cbn [concat] in Hno. by rewrite <- app_assoc, extract_complete in Hno.
  - rewrite app_assoc in Heq. destruct (frames_prefix _ _ _ _ Hs Hbs Heq) as (b1 & b2 & p & -> & Hx & Hp & Hrest).
    apply Forall_app in Hs as [Hs1 Hs2]. unfold receive_bytes. rewrite Hx, extract_frames_spec; [|done|done|].
    + by rewrite (IH p b2 bs).
    + rewrite length_app. pose proof (frames_length b1). lia.
Qed.

(** ** Messages and frames *)

(** The message as the remote's substream gets it. *)
Definition as_received (m : WsMessage) : WebRtcMessage :=
  mkWebRtcMessage (match msg_payload m with [] => None | p => Some p end) (msg_flag m).

Definition body_of (m : WsMessage) : list byte := schema_encode (wm_schema (msg_payload m) (msg_flag m)).

(** The frame of a message is small enough to be accepted. *)
Definition fits (m : WsMessage) : Prop := schema_length (wm_schema (msg_payload m) (msg_flag m)) ≤ WEBRTC_MAX_FRAME_SIZE.

Lemma flag_range m f : sm_flag (wm_schema (msg_payload m) (msg_flag m)) = Some f → (0 ≤ f < 128)%Z.
Proof. destruct (msg_flag m) as [[]|]; cbn; intros; simplify_eq; lia. Qed.

Lemma body_length m : length (body_of m) = schema_length (wm_schema (msg_payload m) (msg_flag m)).
Proof using WebRtcSchemaLaws0. apply schema_encode_length. apply flag_range. Qed.

Lemma encode_frame m : fits m → wm_encode (msg_payload m) (msg_flag m) = frame (body_of m).
Proof using UnsignedVarintLaws0 WebRtcSchemaLaws0.
  intros Hf. unfold wm_encode, frame. fold (body_of m). rewrite uvi_encode_leb128; [done|].
  apply small_u64. unfold small. by rewrite body_length.
Qed.

Lemma payload_bound m : fits m → length (msg_payload m) ≤ WEBRTC_MAX_FRAME_SIZE.
Proof.
  unfold fits, schema_length, wm_schema. cbn. destruct (msg_payload m); [cbn; lia|].
  destruct (flag_to_i32 <$> msg_flag m); lia.
Qed.

Lemma decode_body m : fits m → wm_decode (body_of m) = Ok (as_received m).
Proof using WebRtcSchemaLaws0.
  intros Hf. unfold wm_decode, body_of. rewrite schema_decode_encode; [|apply flag_range|].
  - by destruct m as [[|? ?] [[]|]].
  - intros p Hp. apply payload_bound in Hf. apply N.le_lt_trans with (N.of_nat WEBRTC_MAX_FRAME_SIZE); [|by vm_compute].
    destruct (msg_payload m); cbn in Hp; simplify_eq. lia.
Qed.

(** Messages survive the wire: messages whose frames are not too large are received complete and
    in order, whatever pieces the data channel delivers their bytes in. *)
Theorem webrtc_framing ms pieces : Forall fits ms →
  concat pieces = concat ((λ m, wm_encode (msg_payload m) (msg_flag m)) <$> ms) →
  ∃ bodies, receive_pieces [] pieces = ([], Ok bodies) ∧ wm_decode <$> bodies = Ok <$> (as_received <$> ms).
Proof using UnsignedVarintLaws0 VarintInsufficientLaws0 WebRtcSchemaLaws0.
  intros Hf Heq. exists (body_of <$> ms). split.
  - apply receive_pieces_spec; try apply partial_nil.
    + apply Forall_fmap. eapply Forall_impl; [done|]. intros m Hm. cbn. unfold small. by rewrite body_length.
    + cbn. rewrite app_nil_r, Heq. f_equal. rewrite <- list_fmap_compose. apply list_fmap_ext.
      intros i m Hm. cbn. apply encode_frame. by eapply Forall_lookup_1.
  - rewrite <- !list_fmap_compose. apply list_fmap_ext. intros i m Hm. cbn. apply decode_body.
    by eapply Forall_lookup_1.
Qed.

(** A frame that is too large is refused as soon as its length is known. *)
Lemma oversized_refused m tail : ¬ fits m → length (msg_payload m) ≤ WEBRTC_MAX_FRAME_SIZE →
  extract_framed_message (wm_encode (msg_payload m) (msg_flag m) ++ tail) =
  (wm_encode (msg_payload m) (msg_flag m) ++ tail, Err WmInvalidData).
Proof using UnsignedVarintLaws0 WebRtcSchemaLaws0.
  unfold fits. rewrite <- body_length. intros Hf Hp. unfold extract_framed_message, wm_encode. fold (body_of m).
  assert (length (body_of m) ≤ WEBRTC_MAX_FRAME_SIZE + 22) as Hle.
  { rewrite body_length. unfold schema_length, wm_schema, varint_length. cbn [sm_flag sm_message].
    destruct (flag_to_i32 <$> msg_flag m) as [z|]; [pose proof (leb128_length (Z.to_N z))|];
      (destruct (msg_payload m) as [|b p] eqn:E; [lia|]);
      pose proof (leb128_length (N.of_nat (length (b :: p)))); lia. }
  assert (N.of_nat (length (body_of m)) < 2 ^ 64)%N as Hu.
  { apply N.le_lt_trans with (N.of_nat (WEBRTC_MAX_FRAME_SIZE + 22)); [lia|by vm_compute]. }
  rewrite uvi_encode_leb128, <- app_assoc, uvi_decode_usize_leb128 by done. rewrite Nat2N.id.
  by rewrite (proj2 (Nat.ltb_lt _ _)) by lia.
Qed.
End framing.

(** ** Concrete codecs

    The wire format as functions, for concrete runs. *)
Definition pb_codec : WebRtcSchema := {|
  schema_encode m :=
    match sm_flag m with Some f => Byte.x08 :: leb128 (Z.to_N f) | None => [] end ++
    match sm_message m with Some p => Byte.x12 :: leb128 (N.of_nat (length p)) ++ p | None => [] end;
  schema_decode bs :=
    '(flag, rest) ← match bs with
                    | Byte.x08 :: bs => '(n, rest) ← leb128_decode (2 ^ 64) bs; Some (Some (Z.of_N n), rest)
                    | _ => Some (None, bs)
                    end;
    match rest with
    | [] => Some (mkWmSchema flag None)
    | Byte.x12 :: bs =>
        '(n, p) ← leb128_decode (2 ^ 64) bs;
        if decide (N.of_nat (length p) = n) then Some (mkWmSchema flag (Some p)) else None
    | _ => None
    end;
|}.

Lemma pb_codec_laws : WebRtcSchemaLaws pb_codec.
Proof.
  split.
  - intros [[f|] [p|]] Hf Hp; cbn [schema_encode schema_decode pb_codec sm_flag sm_message] in *;
      try specialize (Hf f eq_refl); try specialize (Hp p eq_refl); try done.
    + rewrite <- app_comm_cons, leb128_decode_ok by (done || lia). cbn -[leb128 leb128_decode]. rewrite Z2N.id by lia.
      rewrite leb128_decode_ok by (done || lia). cbn. by rewrite decide_True.
    + rewrite app_nil_r, <- (app_nil_r (leb128 _)), leb128_decode_ok by (done || lia). cbn. by rewrite Z2N.id by lia.
    + cbn -[leb128 leb128_decode]. rewrite leb128_decode_ok by (done || lia). cbn. by rewrite decide_True.
  - intros [[f|] [p|]] Hf; unfold schema_length, varint_length; cbn [schema_encode pb_codec sm_flag sm_message];
      rewrite ?length_app; cbn [length]; rewrite ?length_app; lia.
Qed.

Definition leb128_insufficient : VarintInsufficient := λ bs, forallb has_msb bs && (length bs <? 10).

Lemma undo128_unfinished k bs : forallb has_msb bs = true → undo128 k bs = None.
Proof.
  revert bs. induction k as [|k IH]; intros [|b bs] Hb; cbn in *; try done.
  apply andb_true_iff in Hb as [Hb Hbs]. unfold has_msb in Hb. rewrite (proj2 (N.ltb_ge _ _)) by by apply N.leb_le.
  by rewrite IH.
Qed.

Lemma base128_prefix k n bs : bs `prefix_of` base128 k n → bs ≠ base128 k n →
  forallb has_msb bs = true ∧ length bs < k.
Proof.
  revert n bs. induction k as [|k IH]; intros n [|b bs] Hp Hne; cbn [base128 forallb length] in *; try done.
  - by apply prefix_nil_inv in Hp.
  - split; [done|lia].
  - destruct (N.ltb_spec n 128) as [Hn|Hn].
    + pose proof (prefix_cons_inv_1 _ _ _ _ Hp) as ->. apply prefix_cons_inv_2, prefix_nil_inv in Hp. by subst.
    + pose proof (prefix_cons_inv_1 _ _ _ _ Hp) as ->. apply prefix_cons_inv_2 in Hp.
      destruct (IH _ _ Hp) as [-> Hlen]; [congruence|]. split; [|lia].
      pose proof (N.mod_lt n 128 ltac:(done)) as Hm. revert Hm. generalize (n mod 128)%N. intros r Hm.
      rewrite has_msb_byte_of by lia. rewrite (proj2 (N.leb_le _ _)) by lia. done.
Qed.

Lemma leb128_insufficient_laws : VarintInsufficientLaws leb128_codec leb128_insufficient.
Proof.
  intros bs n Hn Hp Hne. destruct (base128_prefix 10 n bs Hp Hne) as [Hm Hlen]. split.
  - cbn [uvi_decode_usize leb128_codec]. unfold leb128_decode. by rewrite undo128_unfinished.
  - unfold uvi_insufficient, leb128_insufficient. rewrite Hm. by apply Nat.ltb_lt.
Qed.

Lemma webrtc_framing_witness : ∃ bodies,
  receive_pieces (U := leb128_codec) (I := leb128_insufficient) [] [[x05; x12]; [x03; x01; x02; x03; x02; x08]; [x00]] =
    ([], Ok bodies) ∧
  wm_decode (P := pb_codec) <$> bodies = Ok <$> [mkWebRtcMessage (Some [x01; x02; x03]) None; mkWebRtcMessage None (Some FlFin)].
Proof.
  apply (webrtc_framing (UnsignedVarintLaws0 := leb128_codec_laws) (VarintInsufficientLaws0 := leb128_insufficient_laws)
    (WebRtcSchemaLaws0 := pb_codec_laws) [mkWsMessage [x01; x02; x03] None; mkWsMessage [] (Some FlFin)]).
  - repeat constructor; unfold fits; apply Nat.leb_le; reflexivity.
  - reflexivity.
Defined.
