(* ===== verification/WebRtcStream.v ===== *)
(** * Two ends of a WebRTC substream

    Two endpoints that run the code of [substream.rs], connected by a data channel that is
    reliable and ordered in both directions, over the frames of [util.rs]: what is read at one
    end is what was written at the other. *)

From stdpp Require Import base tactics option list sets relations.
From Stdlib Require Import NArith Lia Init.Byte.
From S2P Require Import Prelude Varint ProtocolTypes WebRtcSubstream WebRtcFraming.

Local Open Scope litep2p_scope.

(** ** What the handle does, case by case *)

Lemma get_channel v : shared_get (T := WsChannel) (shared v) = v.
Proof. by destruct v. Qed.
Lemma get_writer v : shared_get (T := WriterState) (shared v) = v.
Proof. by destruct v. Qed.
Lemma get_reader v : shared_get (T := ReaderState) (shared v) = v.
Proof. by destruct v. Qed.

(** The parts of two endpoints that agree: the states and the channels. *)
Definition same_channel (e e' : WsEndpoint) : Prop := ws_channel e' = ws_channel e.
Definition same_writer (e e' : WsEndpoint) : Prop := ws_writer e' = ws_writer e ∧ ws_outbound e' = ws_outbound e.
Definition same_reader (e e' : WsEndpoint) : Prop :=
  ws_reader e' = ws_reader e ∧ ws_inbound e' = ws_inbound e ∧ ws_read_buffer e' = ws_read_buffer e.

Inductive progress (e e' : WsEndpoint) : Poll (option WsMessage) → Prop :=
| Pr_idle r : (∀ m, r ≠ Ready (Some m)) → same_channel e e' → same_writer e e' → same_reader e e' →
    ws_stop_sending_sent e' = ws_stop_sending_sent e → progress e e' r
| Pr_reset : shared_get (ws_channel e') = ChReset → same_writer e e' → same_reader e e' →
    ws_stop_sending_sent e' = ws_stop_sending_sent e → progress e e' (Ready (Some (flag_message FlResetStream)))
| Pr_stop : ws_abandoned e = true → same_channel e e' → same_writer e e' → same_reader e e' →
    progress e e' (Ready (Some (flag_message FlStopSending)))
| Pr_ack : shared_get (ws_reader e) = RdFin → shared_get (ws_reader e') = RdFinAck → same_channel e e' → same_writer e e' →
    ws_inbound e' = ws_inbound e → ws_read_buffer e' = ws_read_buffer e →
    ws_stop_sending_sent e' = ws_stop_sending_sent e → progress e e' (Ready (Some (flag_message FlFinAck)))
| Pr_data m q : shared_get (ws_writer e) = WrOpen → chan_queue (ws_outbound e) = m :: q →
    ws_outbound e' = mkChannel q (chan_tx (ws_outbound e)) (chan_rx (ws_outbound e)) →
    ws_writer e' = ws_writer e → same_channel e e' → same_reader e e' →
    ws_stop_sending_sent e' = ws_stop_sending_sent e → progress e e' (Ready (Some m))
| Pr_fin : shared_get (ws_writer e) = WrOpen ∧ chan_queue (ws_outbound e) = [] ∧ rx_is_closed (ws_outbound e) = true ∨
      shared_get (ws_writer e) = WrStopSending →
    shared_get (ws_writer e') = WrFin → ws_outbound e' = ws_outbound e → same_channel e e' → same_reader e e' →
    ws_stop_sending_sent e' = ws_stop_sending_sent e → progress e e' (Ready (Some (flag_message FlFin))).

Lemma poll_progress_cases now pull e e' r : ws_poll_progress now pull e = (e', r) → progress e e' r.
Proof.
  unfold ws_poll_progress, ws_poll_writer, ws_poll_half_close, ws_poll_teardown_deadline, ws_reset, poll_recv.
  intros Heq. repeat case_match; simplify_eq/=;
    repeat match goal with
    | H : _ && _ = true |- _ => apply andb_true_iff in H as [? ?]
    | H : bool_decide _ = true |- _ => apply bool_decide_eq_true in H
    | H : (if ?b then _ else _) = Ready None |- _ => destruct b eqn:?; simplify_eq/=
    | H : (if ?b then _ else _) = Prelude.Pending |- _ => destruct b eqn:?; simplify_eq/=
    end;
    first [by apply Pr_idle|by apply Pr_reset|by apply Pr_stop|by apply Pr_ack|by eapply Pr_data|apply Pr_fin; try done].
  all: first [by right|left; split_and!; try done; unfold rx_is_closed in *].
  all: match goal with H : _ && _ = false |- _ => by rewrite H | _ => by destruct (_ && _) end.
Qed.

(** ** The two ends *)

(** An end: the endpoint, whether its handle and its [Substream] are alive, and what the
    protocol has written and read so far. *)
Record Side := mkSide {
  sd_end : WsEndpoint;
  sd_handle : bool;
  sd_sub : bool;
  sd_written : list byte;
  sd_read : list byte;
}.

Definition Side_new : Side := mkSide WsEndpoint_new true true [] [].

(** Two ends and the messages under way between them. *)
Record Ends := mkEnds {
  left_side : Side;
  right_side : Side;
  to_right : list WsMessage;
  to_left : list WsMessage;
}.

Definition Ends_new : Ends := mkEnds Side_new Side_new [] [].

(** The same, seen from the other end. *)
Definition swap (p : Ends) : Ends := mkEnds (right_side p) (left_side p) (to_left p) (to_right p).

Section stream.
Context `{U : UnsignedVarint} `{I : VarintInsufficient} `{P : WebRtcSchema}.

(** A message goes over the wire: it is encoded, extracted at the other end and decoded. *)
Definition transmit (m : WsMessage) : option WebRtcMessage :=
  match extract_framed_message (wm_encode (msg_payload m) (msg_flag m)) with
  | (_, Ok (Some body)) => match wm_decode body with Ok wm => Some wm | Err _ => None end
  | _ => None
  end.

(** What happens at an end: calls of the protocol, a poll of the handle by the connection, and
    messages from the wire. The connection drops a handle when it likes, and when it gets a
    frame that it cannot read. The lists are the messages that arrive and those that are sent. *)
Inductive side_step : Side → list WsMessage → Side → list WsMessage → list WsMessage → Prop :=
| St_read e h w r capacity e' res wire :
    ws_poll_read capacity e = (e', res) →
    side_step (mkSide e h true w r) wire
      (mkSide e' h true w (r ++ match res with Ready (Ok bs) => bs | _ => [] end)) wire []
| St_write e h w r buf e' res wire :
    ws_poll_write buf e = (e', res) →
    side_step (mkSide e h true w r) wire
      (mkSide e' h true (w ++ match res with Ready (Ok n) => take n buf | _ => [] end) r) wire []
| St_shutdown e h w r e' res wire :
    ws_poll_shutdown e = (e', res) → side_step (mkSide e h true w r) wire (mkSide e' h true w r) wire []
| St_drop e h w r wire :
    side_step (mkSide e h true w r) wire (mkSide (ws_drop_substream e) h false w r) wire []
| St_poll e s w r now pull e' res wire :
    ws_poll_progress now pull e = (e', res) →
    side_step (mkSide e true s w r) wire (mkSide e' true s w r) wire
      match res with Ready (Some m) => [m] | _ => [] end
| St_message e s w r m wm e' res wire :
    transmit m = Some wm → ws_on_message e wm = (e', res) →
    side_step (mkSide e true s w r) (m :: wire) (mkSide e' true s w r) wire []
| St_refused e s w r m wire :
    transmit m = None →
    side_step (mkSide e true s w r) (m :: wire) (mkSide (ws_drop_handle e) false s w r) wire []
| St_lost e s w r m wire : side_step (mkSide e false s w r) (m :: wire) (mkSide e false s w r) wire []
| St_close e s w r wire :
    side_step (mkSide e true s w r) wire (mkSide (ws_drop_handle e) false s w r) wire [].

Inductive ends_step : Ends → Ends → Prop :=
| E_left l r lr rl l' rl' sent :
    side_step l rl l' rl' sent → ends_step (mkEnds l r lr rl) (mkEnds l' r (lr ++ sent) rl')
| E_right l r lr rl r' lr' sent :
    side_step r lr r' lr' sent → ends_step (mkEnds l r lr rl) (mkEnds l r' lr' (rl ++ sent)).

Lemma swap_step p p' : ends_step p p' → ends_step (swap p) (swap p').
Proof. intros [? ? ? ? ? ? ? Hs|? ? ? ? ? ? ? Hs]; by constructor. Qed.

(** ** The invariant of one direction *)

Definition data (ms : list WsMessage) : list byte := concat (msg_payload <$> ms).
#[local] Arguments data : simpl never.
Definition carries (f : Flag) (m : WsMessage) : bool := bool_decide (msg_flag m = Some f).

(** What goes over the wire: payload without a flag, or a flag without payload. *)
Definition plain (m : WsMessage) : Prop := msg_flag m = None ∧ length (msg_payload m) ≤ WEBRTC_MAX_FRAME_SIZE.
Definition wire_message (m : WsMessage) : Prop := plain m ∨ ∃ f, m = flag_message f.

(** Everything that has arrived at an end. *)
Definition arrived (s : Side) : list byte :=
  sd_read s ++ ws_read_buffer (sd_end s) ++ data (chan_queue (ws_inbound (sd_end s))).

Definition closed_writer (e : WsEndpoint) : Prop :=
  shared_get (ws_writer e) = WrFin ∨ shared_get (ws_writer e) = WrFinAck.

Definition accepting (s : Side) : Prop :=
  sd_handle s = true ∧ shared_get (ws_channel (sd_end s)) = ChOpen ∧ chan_tx (ws_inbound (sd_end s)) = true.

(** From [a] to [b], with [ab] and [ba] under way and [sent] sent by the handle of [a]. *)
Record direction (sent : list byte) (a b : Side) (ab ba : list WsMessage) : Prop := {
  d_queue : Forall plain (chan_queue (ws_outbound (sd_end a)));
  d_sent : ∃ rest, sd_written a = sent ++ rest ∧
    (sd_handle a = true → rest = data (chan_queue (ws_outbound (sd_end a))));
  d_closed : closed_writer (sd_end a) → sd_sub b = true →
    sd_written a = sent ∧ rx_is_closed (ws_outbound (sd_end a)) = true;
  d_wire : Forall wire_message ab;
  d_fin : ∀ w1 m w2, ab = w1 ++ m :: w2 → carries FlFin m = true → data w2 = [];
  d_accepting : sd_sub b = true → accepting b → arrived b ++ data ab = sent;
  d_arrived : sd_sub b = true → arrived b `prefix_of` sent;
  d_inbound : Forall (λ m, plain m ∧ msg_payload m ≠ []) (chan_queue (ws_inbound (sd_end b)));
  d_reader : shared_get (ws_reader (sd_end b)) ≠ RdOpen →
    closed_writer (sd_end a) ∧ (sd_sub b = true → arrived b = sent) ∧ chan_tx (ws_inbound (sd_end b)) = false;
  d_ended : chan_tx (ws_inbound (sd_end b)) = false →
    shared_get (ws_channel (sd_end b)) = ChReset ∨ shared_get (ws_reader (sd_end b)) ≠ RdOpen;
  d_sub : chan_rx (ws_inbound (sd_end b)) = sd_sub b;
  d_stop : (∃ m, m ∈ ba ∧ carries FlStopSending m = true) ∨ shared_get (ws_writer (sd_end a)) = WrStopSending →
    sd_sub b = false;
  d_acks : count (carries FlFin) ab + (if decide (shared_get (ws_reader (sd_end b)) = RdFin) then 1 else 0) +
      count (carries FlFinAck) ba ≤ 1;
  d_waits : 1 ≤ count (carries FlFin) ab + (if decide (shared_get (ws_reader (sd_end b)) = RdFin) then 1 else 0) +
      count (carries FlFinAck) ba → shared_get (ws_writer (sd_end a)) = WrFin;
  d_acked : 1 ≤ count (carries FlFinAck) ba ∨ shared_get (ws_writer (sd_end a)) = WrFinAck →
    shared_get (ws_reader (sd_end b)) = RdFinAck;
}.

Lemma data_app ms ms' : data (ms ++ ms') = data ms ++ data ms'.
Proof. unfold data. by rewrite fmap_app, concat_app. Qed.

(** A message of the other end is gone from the wire. *)
Lemma direction_ba sent a b ab m ba : direction sent a b ab (m :: ba) → direction sent a b ab ba.
Proof.
  intros [? ? ? ? ? ? ? ? ? ? ? Hst Hac Hwa Hak]. split; try done.
  - intros [(m' & ? & ?)|?]; apply Hst; [left; exists m'; split; [by right|done]|by right].
  - cbn [count] in Hac. lia.
  - intros Hle. apply Hwa. cbn [count]. lia.
  - intros [?|?]; apply Hak; [left; cbn [count]; lia|by right].
Qed.

(** The sender's end changes in what does not matter. *)
Lemma direction_sender sent a b ab ba a' : direction sent a b ab ba →
  ws_writer (sd_end a') = ws_writer (sd_end a) → ws_outbound (sd_end a') = ws_outbound (sd_end a) →
  sd_written a' = sd_written a → (sd_handle a' = true → sd_handle a = true) →
  direction sent a' b ab ba.
Proof.
  intros [Hq Hs Hc ? ? ? ? ? Hr ? ? Hst ? Hwa Hak] Hw Ho Hwr Hh.
  split; unfold closed_writer in *; rewrite ?Hw, ?Ho, ?Hwr; try done.
  destruct Hs as (rest & -> & Hrest). exists rest. split; [done|]. auto.
Qed.

(** The receiver's end changes in what does not matter. *)
Lemma direction_receiver sent a b ab ba b' out : direction sent a b ab ba →
  ws_reader (sd_end b') = ws_reader (sd_end b) → ws_inbound (sd_end b') = ws_inbound (sd_end b) →
  ws_read_buffer (sd_end b') = ws_read_buffer (sd_end b) → sd_read b' = sd_read b → sd_sub b' = sd_sub b →
  (sd_handle b' = true → sd_handle b = true) →
  (shared_get (ws_channel (sd_end b')) = ChReset ∨ ws_channel (sd_end b') = ws_channel (sd_end b)) →
  count (carries FlFinAck) out = 0 → (∀ m, m ∈ out → carries FlStopSending m = false) →
  direction sent a b' ab (ba ++ out).
Proof.
  intros [? ? Hc ? ? Hacc Harr Hin Hr He Hsub Hst Hac Hwa Hak] Hrd Hi Hb Hrr Hs Hh Hch Hca Hcs.
  assert (arrived b' = arrived b) as Har by (unfold arrived; by rewrite Hrr, Hb, Hi).
  split; rewrite ?Hrd, ?Hi, ?Hs, ?Har, ?count_app, ?Hca, ?Nat.add_0_r; try done.
  - intros Hsb (Hh' & Ho & Htx). apply Hacc; [done|]. unfold accepting. rewrite Hi in Htx.
    destruct Hch as [Hch|<-]; [congruence|]. auto.
  - intros Htx. destruct Hch as [Hch| ->]; [by left|auto].
  - intros [(m & [?|Hm]%elem_of_app & Hca')|?]; apply Hst; [left; eauto|by rewrite Hcs in Hca'|by right].
Qed.

(** ** The sender's end *)

Context `{!UnsignedVarintLaws U} `{!VarintInsufficientLaws U I} `{!WebRtcSchemaLaws P}.

Lemma transmit_received m wm : wire_message m → transmit m = Some wm → wm = as_received m.
Proof using UnsignedVarintLaws0 WebRtcSchemaLaws0.
  intros Hw Ht. unfold transmit in Ht.
  assert (length (msg_payload m) ≤ WEBRTC_MAX_FRAME_SIZE) as Hlen.
  { destruct Hw as [[_ ?]|[f ->]]; [done|cbn; lia]. }
  destruct (decide (fits m)) as [Hf|Hf].
  - rewrite encode_frame in Ht by done. rewrite <- (app_nil_r (frame _)), extract_complete in Ht.
    + rewrite decode_body in Ht by done. congruence.
    + unfold small. by rewrite body_length.
  - rewrite <- (app_nil_r (wm_encode _ _)), oversized_refused in Ht by done. done.
Qed.

(** The protocol writes. *)
Lemma direction_write sent e h w r b ab ba buf e' res :
  direction sent (mkSide e h true w r) b ab ba → ws_poll_write buf e = (e', res) →
  direction sent (mkSide e' h true (w ++ match res with Ready (Ok n) => take n buf | _ => [] end) r) b ab ba.
Proof.
  intros Hd Heq. unfold ws_poll_write in Heq. destruct (chan_tx (ws_outbound e)) eqn:Htx.
  2: { simplify_eq. rewrite app_nil_r. by eapply direction_sender. }
  unfold try_send in Heq. destruct (chan_rx (ws_outbound e)) eqn:Hrx.
  2: { simplify_eq. rewrite app_nil_r. by eapply direction_sender. }
  destruct (length (chan_queue (ws_outbound e)) <? MAX_INFLIGHT_MESSAGES).
  2: { simplify_eq. rewrite app_nil_r. by eapply direction_sender. }
  simplify_eq. remember (Nat.min WEBRTC_MAX_FRAME_SIZE (length buf)) as n eqn:Hn.
  destruct Hd as [Hq Hs Hc ? ? ? ? ? Hr ? ? Hst ? Hwa Hak]. cbn in *.
  assert (∀ P : Prop, (closed_writer e → sd_sub b = true → P)) as Hopen.
  { intros Q Hcl Hsb. destruct (Hc Hcl Hsb) as [_ Hcl']. unfold rx_is_closed in Hcl'. by rewrite Htx, Hrx in Hcl'. }
  split; try done; cbn.
  - apply Forall_app. split; [done|]. constructor; [|done]. split; [done|].
    cbn [msg_payload]. rewrite length_take. lia.
  - destruct Hs as (rest & -> & Hrest). eexists. split; [symmetry; apply app_assoc|]. intros Hh.
    rewrite data_app, <- Hrest by done. f_equal. unfold data. cbn. by rewrite app_nil_r.
  - intros Hcl Hsb. by apply Hopen.
Qed.

(** The protocol will not write any more, or what it writes is not taken any more. *)
Lemma direction_close sent a b ab ba a' : direction sent a b ab ba →
  ws_writer (sd_end a') = ws_writer (sd_end a) →
  chan_queue (ws_outbound (sd_end a')) = chan_queue (ws_outbound (sd_end a)) →
  rx_is_closed (ws_outbound (sd_end a')) = true →
  sd_written a' = sd_written a → sd_handle a' = sd_handle a → direction sent a' b ab ba.
Proof.
  intros [Hq Hs Hc ? ? ? ? ? Hr ? ? Hst ? Hwa Hak] Hw Ho Hcl Hwr Hh.
  split; unfold closed_writer in *; rewrite ?Hw, ?Ho, ?Hwr, ?Hh; try done.
  intros Hcw Hsb. by destruct (Hc Hcw Hsb).
Qed.

(** The handle of the sender is gone. *)
Lemma direction_drop_handle sent e s w r b ab ba : direction sent (mkSide e true s w r) b ab ba →
  direction sent (mkSide (ws_drop_handle e) false s w r) b ab ba.
Proof.
  intros [Hq Hs Hc ? ? ? ? ? Hr ? ? Hst ? Hwa Hak]. cbn in *.
  assert (ws_writer (ws_drop_handle e) = ws_writer e) as Hw by (unfold ws_drop_handle; by destruct (bool_decide _ && _)).
  assert (ws_outbound (ws_drop_handle e) = drop_rx (ws_outbound e)) as Ho by (unfold ws_drop_handle; by destruct (bool_decide _ && _)).
  split; unfold closed_writer in *; cbn [sd_end sd_written sd_handle]; rewrite ?Hw, ?Ho; try done.
  - destruct Hs as (rest & -> & Hrest). by exists rest.
  - intros Hcl Hsb. destruct (Hc Hcl Hsb) as [? _]. split; [done|]. unfold rx_is_closed. cbn.
    by rewrite andb_false_r.
Qed.

Lemma count_flag f g : count (carries f) [flag_message g] = if decide (g = f) then 1 else 0.
Proof. by destruct f, g. Qed.

Lemma fin_snoc ab m : (∀ w1 x w2, ab = w1 ++ x :: w2 → carries FlFin x = true → data w2 = []) →
  (∀ x, x ∈ ab → carries FlFin x = true → msg_payload m = []) →
  ∀ w1 x w2, ab ++ [m] = w1 ++ x :: w2 → carries FlFin x = true → data w2 = [].
Proof.
  intros Hold Hm w1 x w2 Heq Hx. destruct w2 as [|y w2 _] using rev_ind; [done|].
  rewrite app_comm_cons, app_assoc in Heq. apply app_inj_tail in Heq as [Heq <-]. rewrite data_app, (Hold w1 x w2) by done.
  unfold data. cbn. rewrite app_nil_r. apply (Hm x); [|done]. rewrite Heq. apply elem_of_app. right. left.
Qed.

(** A flag other than [FIN] is sent. *)
Lemma direction_out_flag sent a b ab ba f : direction sent a b ab ba → f ≠ FlFin →
  direction sent a b (ab ++ [flag_message f]) ba.
Proof.
  intros [Hq Hs Hc Hwi Hfi Hacc ? ? Hr ? ? Hst Hac Hwa Hak] Hf. split; try done.
  - apply Forall_app. split; [done|]. constructor; [|done]. right. by exists f.
  - by apply fin_snoc.
  - intros ? ?. rewrite data_app. unfold data at 2. cbn. rewrite app_nil_r. auto.
  - rewrite count_app, count_flag, decide_False by done. by rewrite Nat.add_0_r.
  - rewrite count_app, count_flag, decide_False by done. by rewrite Nat.add_0_r.
Qed.

Lemma count_zero_carries f ms : count (carries f) ms = 0 → ∀ m, m ∈ ms → carries f m = false.
Proof.
  intros Hz m Hm. destruct (carries f m) eqn:E; [|done]. pose proof (count_pos _ _ _ Hm E). lia.
Qed.

(** Payload is sent. *)
Lemma direction_data sent e s w r b ab ba e' m q : direction sent (mkSide e true s w r) b ab ba →
  shared_get (ws_writer e) = WrOpen → chan_queue (ws_outbound e) = m :: q →
  ws_outbound e' = mkChannel q (chan_tx (ws_outbound e)) (chan_rx (ws_outbound e)) → ws_writer e' = ws_writer e →
  direction (sent ++ msg_payload m) (mkSide e' true s w r) b (ab ++ [m]) ba.
Proof.
  intros [Hq Hs Hc Hwi Hfi Hacc Harr ? Hr ? ? Hst Hac Hwa Hak] Hw Hm Ho Hw'. cbn in *. rewrite Hm in *.
  apply Forall_cons in Hq as [Hp Hq].
  assert (count (carries FlFin) ab = 0) as Hz.
  { destruct (count (carries FlFin) ab) eqn:E; [done|]. rewrite Hw in Hwa. discriminate Hwa. lia. }
  assert (count (carries FlFin) [m] = 0) as Hz'.
  { destruct m as [? fl]. destruct Hp as [Hf _]. cbn in Hf. subst. done. }
  assert (¬ closed_writer e) as Hnc by (intros [?|?]; congruence).
  split; cbn; unfold closed_writer in *; rewrite ?Hw', ?Ho; cbn; try done.
  - destruct Hs as (rest & -> & Hrest). exists (data q). split; [|done]. rewrite Hrest by done.
    unfold data. cbn. by rewrite <- app_assoc.
  - apply Forall_app. split; [done|]. constructor; [by left|done].
  - apply fin_snoc; [done|]. intros x Hx Hcx. by rewrite (count_zero_carries _ _ Hz x Hx) in Hcx.
  - intros Hsb Ha. rewrite data_app, app_assoc, Hacc by done. unfold data. cbn. by rewrite app_nil_r.
  - intros Hsb. apply prefix_app_r. auto.
  - intros Hrd. by destruct (Hr Hrd).
  - rewrite count_app, Hz'. lia.
  - rewrite count_app, Hz'. rewrite Nat.add_0_r. done.
Qed.

(** [FIN] is sent. *)
Lemma direction_send_fin sent e s w r b ab ba e' : direction sent (mkSide e true s w r) b ab ba →
  shared_get (ws_writer e) = WrOpen ∧ chan_queue (ws_outbound e) = [] ∧ rx_is_closed (ws_outbound e) = true ∨
    shared_get (ws_writer e) = WrStopSending →
  shared_get (ws_writer e') = WrFin → ws_outbound e' = ws_outbound e →
  direction sent (mkSide e' true s w r) b (ab ++ [flag_message FlFin]) ba.
Proof.
  intros [Hq Hs Hc Hwi Hfi Hacc Harr ? Hr ? ? Hst Hac Hwa Hak] Hw Hw' Ho. cbn in *.
  assert (shared_get (ws_writer e) ≠ WrFin ∧ shared_get (ws_writer e) ≠ WrFinAck) as [Hn1 Hn2].
  { destruct Hw as [(-> & _)| ->]; done. }
  assert (shared_get (ws_reader (sd_end b)) = RdOpen) as Hro.
  { destruct (shared_get (ws_reader (sd_end b))) eqn:E; [done|..]; destruct (proj1 (Hr ltac:(done))) as [?|?]; done. }
  assert (count (carries FlFin) ab + (if decide (shared_get (ws_reader (sd_end b)) = RdFin) then 1 else 0) +
    count (carries FlFinAck) ba = 0) as Hz.
  { destruct (_ + _ + _) eqn:E; [done|]. destruct Hn1. apply Hwa. lia. }
  split; cbn; unfold closed_writer in *; rewrite ?Hw', ?Ho; cbn; try done.
  - intros _ Hsb. destruct Hw as [(_ & Hqe & Hcl)|Hstop]; [|rewrite Hst in Hsb by auto; done].
    split; [|done]. destruct Hs as (rest & -> & Hrest). rewrite Hrest, Hqe by done. unfold data. cbn. by rewrite app_nil_r.
  - apply Forall_app. split; [done|]. constructor; [|done]. right. by exists FlFin.
  - by apply fin_snoc.
  - intros Hsb Ha. rewrite data_app. unfold data at 2. cbn. rewrite app_nil_r. auto.
  - intros [?|?]; [|done]. apply Hst. by left.
  - rewrite count_app, count_flag, decide_True by done. lia.
  - intros [?|?]; [lia|done].
Qed.

(** The connection polls the sender's handle. *)
Lemma direction_poll sent e s w r b ab ba e' res : direction sent (mkSide e true s w r) b ab ba →
  progress e e' res → ∃ sent',
  direction sent' (mkSide e' true s w r) b (ab ++ match res with Ready (Some m) => [m] | _ => [] end) ba.
Proof.
  intros Hd Hp. destruct Hp as [res Hno Hc [Hw Ho] Hr Hss|Hc [Hw Ho] Hr Hss|Hab Hc [Hw Ho] Hr|Hrd Hrd' Hc [Hw Ho] Hi Hb Hss
    |m q Hw Hq Ho Hw' Hc Hr Hss|Hw Hw' Ho Hc Hr Hss].
  - exists sent. replace (match res with Ready (Some m) => [m] | _ => [] end) with (@nil WsMessage).
    + rewrite app_nil_r. by eapply direction_sender.
    + destruct res as [|[m|]]; [done| |done]. by destruct (Hno m).
  - exists sent. apply direction_out_flag; [|done]. by eapply direction_sender.
  - exists sent. apply direction_out_flag; [|done]. by eapply direction_sender.
  - exists sent. apply direction_out_flag; [|done]. by eapply direction_sender.
  - eexists. by eapply direction_data.
  - eexists. by eapply direction_send_fin.
Qed.

Lemma close_rx_closed c : rx_is_closed (close_rx c) = true.
Proof. unfold rx_is_closed. cbn. by rewrite andb_false_r. Qed.

(** The sender's handle gets a message of the other end. *)
Lemma direction_got_ack sent a b ab ba a' : direction sent a b ab (flag_message FlFinAck :: ba) →
  shared_get (ws_writer (sd_end a')) = WrFinAck → ws_outbound (sd_end a') = ws_outbound (sd_end a) →
  sd_written a' = sd_written a → sd_handle a' = sd_handle a → direction sent a' b ab ba.
Proof.
  intros Hd Hw Ho Hwr Hh. pose proof (direction_ba _ _ _ _ _ _ Hd) as [Hq Hs Hc ? ? ? ? ? Hr ? ? Hst Hac Hwa Hak].
  pose proof (d_acks _ _ _ _ _ Hd) as Hac'. pose proof (d_acked _ _ _ _ _ Hd) as Hak'.
  pose proof (d_waits _ _ _ _ _ Hd) as Hwa'. cbn [count] in *. replace (carries FlFinAck (flag_message FlFinAck)) with true in * by done.
  assert (shared_get (ws_writer (sd_end a)) = WrFin) as Hold by (apply Hwa'; lia).
  split; unfold closed_writer in *; rewrite ?Hw, ?Ho, ?Hwr, ?Hh; try done.
  - intros _ Hsb. apply Hc; [by left|done].
  - intros Hrd. destruct (Hr Hrd) as (_ & ? & ?). auto.
  - intros [?|?]; [|done]. apply Hst. by left.
  - intros Hle. lia.
  - intros _. apply Hak'. left. lia.
Qed.

Lemma direction_got_stop sent a b ab ba a' : direction sent a b ab (flag_message FlStopSending :: ba) →
  shared_get (ws_writer (sd_end a)) ≠ WrFin → shared_get (ws_writer (sd_end a)) ≠ WrFinAck →
  shared_get (ws_writer (sd_end a')) = WrStopSending →
  chan_queue (ws_outbound (sd_end a')) = chan_queue (ws_outbound (sd_end a)) →
  sd_written a' = sd_written a → sd_handle a' = sd_handle a → direction sent a' b ab ba.
Proof.
  intros Hd Hn1 Hn2 Hw Ho Hwr Hh. pose proof (direction_ba _ _ _ _ _ _ Hd) as [Hq Hs Hc ? ? ? ? ? Hr ? ? Hst Hac Hwa Hak].
  assert (sd_sub b = false) as Hsb.
  { apply (d_stop _ _ _ _ _ Hd). left. exists (flag_message FlStopSending). split; [left|done]. }
  split; unfold closed_writer in *; rewrite ?Hw, ?Ho, ?Hwr, ?Hh; try done.
  - intros [?|?]; done.
  - intros Hrd. by destruct (Hr Hrd) as ([?|?] & _).
  - intros Hle. by specialize (Hwa Hle).
  - intros [Hle|?]; [|done]. destruct Hn1. apply Hwa. lia.
Qed.

Lemma direction_sender_message sent e s w r b ab m ba e' res :
  direction sent (mkSide e true s w r) b ab (m :: ba) → wire_message m →
  ws_on_message e (as_received m) = (e', res) → direction sent (mkSide e' true s w r) b ab ba.
Proof.
  intros Hd Hm Heq. pose proof (direction_ba _ _ _ _ _ _ Hd) as Hd'. unfold ws_on_message in Heq.
  destruct (shared_get (ws_channel e)) eqn:Ech; [|by simplify_eq..].
  destruct Hm as [[Hf Hlen]|[f ->]].
  - destruct m as [payload fl]. cbn in Hf. subst fl. cbn in Heq.
    assert (ws_writer e' = ws_writer e ∧ ws_outbound e' = ws_outbound e) as [Hw Ho].
    { unfold try_send, ws_on_flag in Heq. repeat case_match; by simplify_eq. }
    by eapply direction_sender.
  - cbn in Heq.
    assert (ws_on_flag e (Some f) = (e', res)) as Hfl by (by destruct (chan_tx (ws_inbound e))). clear Heq.
    destruct f; cbn in Hfl.
    + assert (ws_writer e' = ws_writer e ∧ ws_outbound e' = ws_outbound e) as [Hw Ho] by (case_match; by simplify_eq).
      by eapply direction_sender.
    + rewrite Ech in Hfl. destruct (shared_get (ws_writer e)) eqn:Ew; simplify_eq; try done;
        (eapply direction_got_stop; [done|cbn; by rewrite Ew|cbn; by rewrite Ew|apply get_writer|done|done|done]).
    + simplify_eq. by eapply direction_close; [..|apply close_rx_closed| |].
    + destruct (shared_get (ws_writer e)) eqn:Ew.
      2: { simplify_eq. by eapply direction_got_ack; [done|apply get_writer|..]. }
      all: simplify_eq; by eapply direction_close; [..|apply close_rx_closed| |].
Qed.

(** Every step of the sender's end keeps the invariant. *)
Lemma direction_sender_step sent a b ab ba a' ba' out :
  direction sent a b ab ba → Forall wire_message ba → side_step a ba a' ba' out →
  ∃ sent', direction sent' a' b (ab ++ out) ba'.
Proof using UnsignedVarintLaws0 WebRtcSchemaLaws0.
  intros Hd Hw Hs. destruct Hs as [e h w r cap e' res wire Heq|e h w r buf e' res wire Heq|e h w r e' res wire Heq|e h w r wire
    |e s w r now pull e' res wire Heq|e s w r m wm e' res wire Ht Heq|e s w r m wire Ht|e s w r m wire|e s w r wire];
    rewrite ?app_nil_r.
  - exists sent. eapply direction_sender; [done|..]; try done;
      unfold ws_poll_read, poll_recv in Heq; repeat case_match; by simplify_eq.
  - exists sent. by eapply direction_write.
  - exists sent. unfold ws_poll_shutdown in Heq. simplify_eq. by eapply direction_close.
  - exists sent. by eapply direction_close.
  - eapply direction_poll; [done|]. by eapply poll_progress_cases.
  - exists sent. apply Forall_cons in Hw as [Hm _]. apply transmit_received in Ht as ->; [|done].
    by eapply direction_sender_message.
  - exists sent. apply direction_drop_handle. by eapply direction_ba.
  - exists sent. by eapply direction_ba.
  - exists sent. by apply direction_drop_handle.
Qed.

(** ** The receiver's end *)

(** What has arrived stays the same, and so do the states. *)
Lemma direction_arrived sent a b ab ba b' : direction sent a b ab ba →
  arrived b' = arrived b → ws_reader (sd_end b') = ws_reader (sd_end b) → ws_channel (sd_end b') = ws_channel (sd_end b) →
  chan_tx (ws_inbound (sd_end b')) = chan_tx (ws_inbound (sd_end b)) →
  chan_rx (ws_inbound (sd_end b')) = chan_rx (ws_inbound (sd_end b)) →
  Forall (λ m, plain m ∧ msg_payload m ≠ []) (chan_queue (ws_inbound (sd_end b'))) →
  sd_sub b' = sd_sub b → sd_handle b' = sd_handle b → direction sent a b' ab ba.
Proof.
  intros [? ? ? ? ? Hacc ? ? Hr ? ? ? ? ? ?] Har Hrd Hch Htx Hrx Hq Hs Hh.
  split; unfold accepting in *; rewrite ?Har, ?Hrd, ?Hch, ?Htx, ?Hrx, ?Hs, ?Hh; try done.
Qed.

Lemma poll_read_arrived capacity e e' res r : Forall (λ m, plain m ∧ msg_payload m ≠ []) (chan_queue (ws_inbound e)) →
  ws_poll_read capacity e = (e', res) →
  (r ++ match res with Ready (Ok bs) => bs | _ => [] end) ++ ws_read_buffer e' ++ data (chan_queue (ws_inbound e')) =
    r ++ ws_read_buffer e ++ data (chan_queue (ws_inbound e)) ∧
  Forall (λ m, plain m ∧ msg_payload m ≠ []) (chan_queue (ws_inbound e')) ∧
  ws_reader e' = ws_reader e ∧ ws_channel e' = ws_channel e ∧
  chan_tx (ws_inbound e') = chan_tx (ws_inbound e) ∧ chan_rx (ws_inbound e') = chan_rx (ws_inbound e).
Proof.
  intros Hq Heq. unfold ws_poll_read in Heq. destruct (ws_read_buffer e) as [|x buf] eqn:Eb.
  2: { simplify_eq. cbn [ws_read_buffer ws_inbound ws_set_read_buffer].
       split; [|done]. rewrite <- Eb, <- app_assoc. f_equal. rewrite app_assoc. f_equal.
       rewrite Eb. apply take_drop. }
  unfold poll_recv in Heq. destruct (chan_queue (ws_inbound e)) as [|m q] eqn:Eq.
  { assert (ws_inbound e' = ws_inbound e ∧ ws_read_buffer e' = [] ∧ ws_reader e' = ws_reader e ∧ ws_channel e' = ws_channel e ∧
      match res with Ready (Ok bs) => bs | _ => [] end = []) as (Hi & Hb & Hr & Hc & Hres).
    { repeat case_match; by simplify_eq. }
    rewrite Hi, Hb, Hr, Hc, Hres, Eq, app_nil_r. done. }
  apply Forall_cons in Hq as [[[_ Hlen] Hne] Hq]. rewrite (proj2 (Nat.ltb_ge _ _)) in Heq by done.
  destruct (length (msg_payload m) <=? capacity) eqn:Ecap; simplify_eq;
    cbn [ws_read_buffer ws_inbound ws_set_read_buffer ws_set_inbound chan_queue]; rewrite ?Eb; cbn [app];
    (split; [|done]).
  - rewrite <- app_assoc. done.
  - rewrite <- app_assoc. f_equal. rewrite app_assoc, take_drop. done.
Qed.

(** The protocol at the receiver's end is gone. *)
Lemma direction_drop_sub sent a e h w r ab ba : direction sent a (mkSide e h true w r) ab ba →
  direction sent a (mkSide (ws_drop_substream e) h false w r) ab ba.
Proof.
  intros [? ? Hc ? ? Hacc ? ? Hr He ? Hst ? ? ?]. split; cbn in *; try done.
  intros Hrd. by destruct (Hr Hrd) as (? & _ & ?).
Qed.

(** The handle of the receiver is gone. *)
Lemma direction_lose_handle sent a e s w r ab ba : direction sent a (mkSide e true s w r) ab ba →
  direction sent a (mkSide (ws_drop_handle e) false s w r) ab ba.
Proof.
  intros [? ? Hc ? ? Hacc ? Hin Hr He Hsub Hst ? ? ?]. unfold ws_drop_handle.
  set (graceful := bool_decide _ && _). assert (graceful = true → shared_get (ws_reader e) = RdFinAck) as Hg.
  { intros [_ Hg]%andb_true_iff. by apply bool_decide_eq_true in Hg. }
  clearbody graceful. unfold arrived in *.
  split; unfold arrived in *; destruct graceful; cbn in *; try done.
  - by intros _ (? & _).
  - by intros _ (? & _).
  - intros Hrd. destruct (Hr Hrd) as (? & ? & _). auto.
  - intros Hrd. destruct (Hr Hrd) as (? & ? & _). auto.
  - intros _. right. by rewrite Hg.
  - intros _. left. apply get_channel.
Qed.

(** A message that is taken from the wire without effect, because the receiver does not accept
    any, or because it is none of payload and [FIN]. *)
Lemma direction_skip sent a b ab ba m : direction sent a b (m :: ab) ba →
  ¬ (accepting b ∧ sd_sub b = true) ∨ msg_payload m = [] → direction sent a b ab ba.
Proof.
  intros [? ? Hc Hwi Hfi Hacc ? Hin Hr He Hsub Hst Hac Hwa ?] Hskip. split; try done.
  - by apply Forall_cons in Hwi as [_ ?].
  - intros w1 x w2 -> Hx. by apply (Hfi (m :: w1) x w2).
  - intros Hsb Ha. destruct Hskip as [Hn|Hp]; [by destruct Hn|]. rewrite <- (Hacc Hsb Ha). f_equal.
    unfold data. cbn. by rewrite Hp.
  - cbn [count] in Hac. lia.
  - intros Hle. apply Hwa. cbn [count]. lia.
Qed.

(** The connection polls the receiver's handle. *)
Lemma direction_receiver_poll sent a e s w r ab ba e' res : direction sent a (mkSide e true s w r) ab ba →
  Forall plain (chan_queue (ws_outbound e)) → progress e e' res →
  direction sent a (mkSide e' true s w r) ab (ba ++ match res with Ready (Some m) => [m] | _ => [] end).
Proof.
  intros Hd Hq Hp. destruct Hp as [res Hno Hc Hw (Hr & Hi & Hb) Hss|Hc Hw (Hr & Hi & Hb) Hss|Hab Hc Hw (Hr & Hi & Hb)
    |Hrd Hrd' Hc Hw Hi Hb Hss|m q Hw Eq Ho Hw' Hc (Hr & Hi & Hb) Hss|Hw Hw' Ho Hc (Hr & Hi & Hb) Hss].
  - replace (match res with Ready (Some m) => [m] | _ => [] end) with (@nil WsMessage).
    + eapply direction_receiver; [done..|by right|done|]. by intros ? ?%not_elem_of_nil.
    + destruct res as [|[m|]]; [done| |done]. by destruct (Hno m).
  - eapply direction_receiver; [done..|by left|done|]. by intros ? ->%list_elem_of_singleton.
  - assert (s = false) as ->.
    { pose proof (d_sub _ _ _ _ _ Hd) as Hsub. cbn in Hsub. rewrite <- Hsub. unfold ws_abandoned in Hab.
      destruct (chan_rx (ws_inbound e)); [|done]. by rewrite andb_false_r in Hab. }
    destruct Hd as [? ? ? ? ? Hacc ? ? Hrd He ? ? Hac Hwa Hak]. unfold arrived in *.
    split; unfold accepting, arrived in *; cbn [sd_end sd_sub sd_handle sd_read] in *; rewrite ?Hr, ?Hi, ?Hb, ?Hc, ?count_app, ?Nat.add_0_r; try done.
  - destruct Hd as [? ? ? ? ? Hacc ? ? Hrd2 He ? Hst Hac Hwa Hak].
    split; unfold accepting, arrived in *; cbn [sd_end sd_sub sd_handle sd_read] in *;
      rewrite ?Hrd', ?Hi, ?Hb, ?Hc; rewrite ?Hrd in *; try done.
    + intros _. by apply Hrd2.
    + intros Htx. right. done.
    + intros [(m & [?|Hm]%elem_of_app & Hca')|?]; apply Hst; [left; eauto| |by right].
      apply list_elem_of_singleton in Hm as ->. done.
    + rewrite count_app, count_flag, (decide_False (P := RdFinAck = RdFin)), (decide_True (P := FlFinAck = FlFinAck)) by done.
      rewrite decide_True in Hac by done. lia.
    + intros _. apply Hwa. rewrite decide_True by done. lia.
  - rewrite Eq in Hq. apply Forall_cons in Hq as [[Hf _] _].
    assert (∀ f, carries f m = false) as Hcf by (intros f; unfold carries; by rewrite Hf).
    eapply direction_receiver; [done..|by right| |].
    + cbn. by rewrite Hcf.
    + by intros ? ->%list_elem_of_singleton.
  - eapply direction_receiver; [done..|by right|done|]. by intros ? ->%list_elem_of_singleton.
Qed.

(** [FIN] arrives. *)
Lemma direction_got_fin sent a e s w r ab ba e' :
  direction sent a (mkSide e true s w r) (flag_message FlFin :: ab) ba →
  shared_get (ws_channel e) = ChOpen → shared_get (ws_reader e) = RdOpen →
  shared_get (ws_reader e') = RdFin → ws_channel e' = ws_channel e → ws_inbound e' = drop_tx (ws_inbound e) →
  ws_read_buffer e' = ws_read_buffer e → direction sent a (mkSide e' true s w r) ab ba.
Proof.
  intros [? Hse Hcl Hwi Hfi Hacc Harr Hin Hr He Hsub Hst Hac Hwa Hak] Hch Hro Hro' Hc Hi Hb.
  replace (count (carries FlFin) (flag_message FlFin :: ab)) with (1 + count (carries FlFin) ab) in * by done.
  assert (shared_get (ws_writer (sd_end a)) = WrFin) as Hwf by (apply Hwa; lia).
  assert (data ab = []) as Hnil by by apply (Hfi [] (flag_message FlFin) ab).
  assert (chan_tx (ws_inbound e) = true) as Htx.
  { cbn in He. destruct (chan_tx (ws_inbound e)); [done|]. destruct (He eq_refl); congruence. }
  split; unfold accepting, arrived in *; cbn [sd_end sd_sub sd_handle sd_read] in *; rewrite ?Hro', ?Hc, ?Hi, ?Hb; try done.
  - by apply Forall_cons in Hwi as [_ ?].
  - intros w1 x w2 -> Hx. by apply (Hfi (flag_message FlFin :: w1) x w2).
  - by intros _ (_ & _ & ?).
  - intros _. split; [by left|]. split; [|done]. intros Hsb.
    rewrite <- (Hacc Hsb (conj eq_refl (conj Hch Htx))). change (data (flag_message FlFin :: ab)) with (data ab).
    by rewrite Hnil, app_nil_r.
  - intros _. by right.
  - rewrite decide_True by done. rewrite Hro, decide_False in Hac by done. lia.
  - intros [?|Hack]; [|congruence]. rewrite Hro, decide_False in Hac by done. lia.
Qed.

(** Payload arrives. *)
Lemma direction_got_data sent a e s w r ab ba m : direction sent a (mkSide e true s w r) (m :: ab) ba →
  plain m → msg_payload m ≠ [] → chan_tx (ws_inbound e) = true → shared_get (ws_channel e) = ChOpen → chan_rx (ws_inbound e) = true →
  direction sent a (mkSide (ws_set_inbound e (mkChannel (chan_queue (ws_inbound e) ++ [mkWsMessage (msg_payload m) None])
    (chan_tx (ws_inbound e)) (chan_rx (ws_inbound e)))) true s w r) ab ba.
Proof.
  intros Hd Hp Hne Htx Hch Hrx.
  destruct Hd as [? ? Hc Hwi Hfi Hacc Harr Hin Hr He Hsub Hst Hac Hwa ?].
  assert (count (carries FlFin) [m] = 0) as Hz.
  { destruct m as [? fl]. destruct Hp as [Hf _]. cbn in Hf. subst. done. }
  cbn [sd_end sd_sub ws_inbound] in *. assert (s = true) as -> by congruence.
  assert (∀ x, data (m :: x) = msg_payload m ++ data x) as Hdm by done.
  assert (arrived (mkSide e true true w r) ++ msg_payload m ++ data ab = sent) as Hsent.
  { rewrite <- Hdm. by apply Hacc. }
  split; unfold accepting, arrived in *; cbn [sd_end sd_sub sd_handle sd_read ws_inbound ws_set_inbound ws_read_buffer
    ws_channel ws_reader chan_queue chan_tx chan_rx] in *; try done.
  - by apply Forall_cons in Hwi as [_ ?].
  - intros w1 x w2 -> Hx. by apply (Hfi (m :: w1) x w2).
  - intros _ _. rewrite <- Hsent, data_app. unfold data at 2. cbn. by rewrite app_nil_r, <- !app_assoc.
  - intros _. exists (data ab). rewrite <- Hsent, data_app. unfold data at 4. cbn. by rewrite app_nil_r, <- !app_assoc.
  - apply Forall_app. split; [done|]. constructor; [|done]. split; [|done]. by destruct Hp.
  - intros Hrd. destruct (Hr Hrd) as (_ & _ & ?). congruence.
  - cbn [count] in Hac, Hz. lia.
  - intros Hle. apply Hwa. cbn [count] in *. lia.
Qed.

(** The receiver gives up on the substream. *)
Lemma direction_give_up sent a e s w r ab ba m e' : direction sent a (mkSide e true s w r) (m :: ab) ba →
  shared_get (ws_channel e') ≠ ChOpen → ws_reader e' = ws_reader e → ws_read_buffer e' = ws_read_buffer e →
  chan_queue (ws_inbound e') = chan_queue (ws_inbound e) → chan_rx (ws_inbound e') = chan_rx (ws_inbound e) →
  chan_tx (ws_inbound e') = true ∧ chan_tx (ws_inbound e) = true ∨
    shared_get (ws_channel e') = ChReset ∧ chan_tx (ws_inbound e') = false →
  direction sent a (mkSide e' true s w r) ab ba.
Proof.
  intros [? ? Hc Hwi Hfi Hacc Harr Hin Hr He Hsub Hst Hac Hwa ?] Hch Hrd Hb Hq Hrx Htx.
  split; unfold accepting, arrived in *; cbn [sd_end sd_sub sd_handle sd_read] in *; rewrite ?Hrd, ?Hb, ?Hq, ?Hrx; try done.
  - by apply Forall_cons in Hwi as [_ ?].
  - intros w1 x w2 -> Hx. by apply (Hfi (m :: w1) x w2).
  - by intros _ (_ & ? & _).
  - intros Hro. destruct (Hr Hro) as (? & ? & Htx'). split; [done|]. split; [done|].
    destruct Htx as [[_ ?]|[_ ?]]; congruence.
  - intros Hf. destruct Htx as [[? _]|[? _]]; [congruence|by left].
  - cbn [count] in Hac. lia.
  - intros Hle. apply Hwa. cbn [count]. lia.
Qed.

Lemma direction_receiver_flag sent a e s w r ab ba f e' res :
  direction sent a (mkSide e true s w r) (flag_message f :: ab) ba → shared_get (ws_channel e) = ChOpen →
  ws_on_flag e (Some f) = (e', res) → direction sent a (mkSide e' true s w r) ab ba.
Proof.
  intros Hd Hch Hfl. pose proof (direction_skip _ _ _ _ _ _ Hd (or_intror eq_refl)) as Hskip.
  assert (∀ e', ws_reader e' = ws_reader e → ws_inbound e' = ws_inbound e → ws_read_buffer e' = ws_read_buffer e →
    ws_channel e' = ws_channel e → direction sent a (mkSide e' true s w r) ab ba) as Hsame.
  { intros e0 Hr Hi Hb Hc. rewrite <- (app_nil_r ba). eapply direction_receiver; [done..|by right|done|].
    by intros ? ?%not_elem_of_nil. }
  assert (direction sent a (mkSide (ws_tear_down e) true s w r) ab ba) as Hdown.
  { eapply direction_give_up; [done|..]; try done. right. split; [apply get_channel|done]. }
  destruct f; cbn in Hfl.
  - destruct (shared_get (ws_reader e)) eqn:Er; simplify_eq; try done. by eapply direction_got_fin; [..|apply get_reader| | |].
  - rewrite Hch in Hfl. destruct (shared_get (ws_writer e)); simplify_eq; by apply Hsame.
  - by simplify_eq.
  - destruct (shared_get (ws_writer e)); simplify_eq; try done; by apply Hsame.
Qed.

Lemma direction_receiver_message sent a e s w r ab ba m e' res :
  direction sent a (mkSide e true s w r) (m :: ab) ba → wire_message m →
  ws_on_message e (as_received m) = (e', res) → direction sent a (mkSide e' true s w r) ab ba.
Proof.
  intros Hd Hm Heq. unfold ws_on_message in Heq.
  destruct (shared_get (ws_channel e)) eqn:Ech.
  2: { simplify_eq. eapply direction_skip; [done|]. left. intros [(_ & Hop & _) _]. cbn in Hop. congruence. }
  2: { simplify_eq. eapply direction_skip; [done|]. left. intros [(_ & Hop & _) _]. cbn in Hop. congruence. }
  destruct Hm as [Hp|[f ->]].
  2: { eapply direction_receiver_flag; [done|done|]. cbn in Heq. by destruct (chan_tx (ws_inbound e)). }
  pose proof Hp as [Hf Hlen]. unfold as_received in Heq. rewrite Hf in Heq. cbn [wm_payload wm_flag ws_on_flag] in Heq.
  destruct (msg_payload m) as [|b p] eqn:Epl.
  { replace e' with e by (destruct (chan_tx (ws_inbound e)); by simplify_eq).
    eapply direction_skip; [done|]. by right. }
  destruct (chan_tx (ws_inbound e)) eqn:Etx.
  2: { simplify_eq. eapply direction_skip; [done|]. left. intros [(_ & _ & Htx) _]. cbn in Htx. congruence. }
  unfold try_send in Heq. destruct (chan_rx (ws_inbound e)) eqn:Erx.
  2: { simplify_eq. eapply direction_skip; [done|]. left. intros [_ Hs].
       pose proof (d_sub _ _ _ _ _ Hd) as Hsub. cbn in *. congruence. }
  destruct (_ <? _); simplify_eq.
  - assert (msg_payload m ≠ []) as Hne by by rewrite Epl.
    pose proof (direction_got_data _ _ _ _ _ _ _ _ _ Hd Hp Hne Etx Ech Erx) as Hg. rewrite Epl, Erx, Etx in Hg. by rewrite Etx.
  - eapply direction_give_up; [done|..]; try done. by left.
Qed.

(** Every step of the receiver's end keeps the invariant. *)
Lemma direction_receiver_step sent a b ab ba b' ab' out :
  direction sent a b ab ba → Forall plain (chan_queue (ws_outbound (sd_end b))) → side_step b ab b' ab' out →
  direction sent a b' ab' (ba ++ out).
Proof using UnsignedVarintLaws0 WebRtcSchemaLaws0.
  intros Hd Hq Hs. pose proof (d_inbound _ _ _ _ _ Hd) as Hin.
  assert (∀ e' w' h s w r e wire, direction sent a (mkSide e h s w r) wire ba →
    ws_reader e' = ws_reader e → ws_inbound e' = ws_inbound e → ws_read_buffer e' = ws_read_buffer e →
    ws_channel e' = ws_channel e → direction sent a (mkSide e' h s w' r) wire ba) as Hsame.
  { intros e0 w' h s w r e wire Hd0 Hr Hi Hb Hc. rewrite <- (app_nil_r ba). eapply direction_receiver; [exact Hd0|..]; try done.
    - by right.
    - by intros ? ?%not_elem_of_nil. }
  destruct Hs as [e h w r cap e' res wire Heq|e h w r buf e' res wire Heq|e h w r e' res wire Heq|e h w r wire
    |e s w r now pull e' res wire Heq|e s w r m wm e' res wire Ht Heq|e s w r m wire Ht|e s w r m wire|e s w r wire];
    rewrite ?app_nil_r; cbn in Hin.
  - destruct (poll_read_arrived cap e e' res r Hin Heq) as (Har & ? & ? & ? & ? & ?).
    by eapply direction_arrived.
  - unfold ws_poll_write in Heq. eapply Hsame; [done|..]; repeat case_match; by simplify_eq.
  - unfold ws_poll_shutdown in Heq. simplify_eq. by eapply Hsame.
  - by apply direction_drop_sub.
  - eapply direction_receiver_poll; [done|done|]. by eapply poll_progress_cases.
  - pose proof (d_wire _ _ _ _ _ Hd) as Hw. apply Forall_cons in Hw as [Hm _].
    apply transmit_received in Ht as ->; [|done]. by eapply direction_receiver_message.
  - apply direction_lose_handle in Hd. eapply direction_skip; [done|]. left. by intros [(? & _) _].
  - eapply direction_skip; [done|]. left. by intros [(? & _) _].
  - by apply direction_lose_handle.
Qed.

(** ** Both directions *)

Definition ends_inv (p : Ends) : Prop := ∃ sl sr,
  direction sl (left_side p) (right_side p) (to_right p) (to_left p) ∧
  direction sr (right_side p) (left_side p) (to_left p) (to_right p).

Lemma ends_inv_init : ends_inv Ends_new.
Proof.
  assert (direction [] Side_new Side_new [] []); [|by exists [], []].
  split; cbn; unfold closed_writer; try done; try lia.
  - by exists [].
  - by intros [?|?].
  - by intros [] ? ?.
  - by intros [(m & ?%not_elem_of_nil & _)|?].
  - rewrite decide_False by done. lia.
  - rewrite decide_False by done. lia.
  - intros [?|?]; [lia|done].
Qed.

Lemma ends_inv_left l r lr rl l' rl' sent : ends_inv (mkEnds l r lr rl) → side_step l rl l' rl' sent →
  ends_inv (mkEnds l' r (lr ++ sent) rl').
Proof using UnsignedVarintLaws0 WebRtcSchemaLaws0.
  intros (sl & sr & Hl & Hr) Hs. cbn in *.
  destruct (direction_sender_step _ _ _ _ _ _ _ _ Hl (d_wire _ _ _ _ _ Hr) Hs) as (sl' & Hl').
  exists sl', sr. split; [done|]. cbn. eapply direction_receiver_step; [done|apply Hl|done].
Qed.

Lemma ends_step_inv p p' : ends_step p p' → ends_inv p → ends_inv p'.
Proof using UnsignedVarintLaws0 WebRtcSchemaLaws0.
  intros [l r lr rl l' rl' sent Hs|l r lr rl r' lr' sent Hs] Hinv.
  - by eapply ends_inv_left.
  - destruct Hinv as (sl & sr & Hl & Hr).
    destruct (ends_inv_left r l rl lr r' lr' sent) as (sl' & sr' & ? & ?); [by exists sr, sl|done|].
    by exists sr', sl'.
Qed.

(** From one end to the other, in the state [p]: what has arrived is what was written, from the
    start and without a gap; a read that returns nothing, with room for something, means that
    everything was read; an acknowledged [FIN] means that everything has arrived; and
    no message of the other end that the receiver accepts, a reset apart, is answered with an error. *)
Definition transfers (p : Ends) : Prop :=
  let a := left_side p in
  let b := right_side p in
  (sd_sub b = true → arrived b `prefix_of` sd_written a) ∧
  (∀ capacity e', sd_sub b = true → 0 < capacity →
     ws_poll_read capacity (sd_end b) = (e', Ready (Ok [])) → sd_read b = sd_written a) ∧
  (shared_get (ws_writer (sd_end a)) = WrFinAck → sd_sub b = true → arrived b = sd_written a) ∧
  (∀ m wire wm e' err, to_left p = m :: wire → transmit m = Some wm →
     ws_on_message (sd_end a) wm = (e', Err err) → m = flag_message FlResetStream).

Lemma end_of_stream capacity e e' : 0 < capacity →
  Forall (λ m, plain m ∧ msg_payload m ≠ []) (chan_queue (ws_inbound e)) →
  ws_poll_read capacity e = (e', Ready (Ok [])) →
  ws_read_buffer e = [] ∧ chan_queue (ws_inbound e) = [] ∧ shared_get (ws_channel e) ≠ ChReset ∧
  chan_tx (ws_inbound e) && chan_rx (ws_inbound e) = false.
Proof.
  intros Hcap Hq Heq. unfold ws_poll_read in Heq. destruct (ws_read_buffer e) as [|x buf] eqn:Eb.
  2: { simplify_eq. destruct capacity; [lia|done]. }
  unfold poll_recv in Heq. destruct (chan_queue (ws_inbound e)) as [|m q] eqn:Eq.
  - destruct (chan_tx (ws_inbound e) && chan_rx (ws_inbound e)); [done|].
    destruct (decide (shared_get (ws_channel e) = ChReset)); simplify_eq. auto.
  - apply Forall_cons in Hq as [[[_ Hlen] Hne] _]. rewrite (proj2 (Nat.ltb_ge _ _)) in Heq by done.
    destruct (msg_payload m); [done|]. destruct (_ <=? capacity); [done|]. destruct capacity; [lia|done].
Qed.

Lemma inv_transfers p : ends_inv p → transfers p.
Proof using UnsignedVarintLaws0 WebRtcSchemaLaws0.
  intros (sl & sr & Hl & Hr). destruct p as [a b ab ba]. cbn in *.
  destruct Hl as [? (rest & Hwr & _) Hcl ? ? ? Harr Hin Hrd He Hsub Hst Hac Hwa Hak].
  assert (shared_get (ws_reader (sd_end b)) ≠ RdOpen → sd_sub b = true → arrived b = sd_written a) as Hall.
  { intros Hro Hs. destruct (Hrd Hro) as (Hc & Ha & _). rewrite Ha by done. by destruct (Hcl Hc Hs). }
  split_and!; cbn.
  - intros Hs. rewrite Hwr. apply prefix_app_r. auto.
  - intros cap e' Hs Hcap Heq. destruct (end_of_stream cap _ e' Hcap Hin Heq) as (Hb & Hq & Hnr & Htx).
    rewrite Hsub, Hs, andb_true_r in Htx. destruct (He Htx) as [?|Hro]; [done|]. rewrite <- (Hall Hro Hs).
    unfold arrived. rewrite Hb, Hq. cbn. by rewrite app_nil_r.
  - intros Hw Hs. apply Hall; [|done]. rewrite Hak; [done|by right].
  - intros m wire wm e' err -> Ht Heq. pose proof (d_wire _ _ _ _ _ Hr) as Hw. apply Forall_cons in Hw as [Hm _].
    apply transmit_received in Ht as ->; [|done]. unfold ws_on_message in Heq.
    destruct (shared_get (ws_channel (sd_end a))); [|done..].
    destruct Hm as [[Hf _]|[f ->]].
    + unfold as_received, try_send, ws_on_flag in Heq. rewrite Hf in Heq. cbn in Heq. repeat case_match; by simplify_eq.
    + destruct f; try done; cbn in Heq; try (repeat case_match; by simplify_eq).
      assert (shared_get (ws_writer (sd_end a)) = WrFin) as Hwf.
      { apply Hwa. cbn [count]. replace (carries FlFinAck (flag_message FlFinAck)) with true by done. lia. }
      rewrite Hwf in Heq. repeat case_match; by simplify_eq.
Qed.

(** C9. A WebRTC substream is a reliable stream of bytes in both directions, between two ends that
    run this code over a reliable, ordered data channel: whatever the protocols at the two ends,
    the connections that poll them and drop them, and the timers do, each direction [transfers]: what
    has arrived is a prefix of what was written, the end of the stream is reported only when everything
    was read, an acknowledged [FIN] means that everything has arrived, and of the messages that can be
    decoded only a reset makes the receiving connection fail. *)
Theorem webrtc_stream_delivers p : rtc ends_step Ends_new p → transfers p ∧ transfers (swap p).
Proof using UnsignedVarintLaws0 WebRtcSchemaLaws0.
  intros Hrun. assert (ends_inv p) as Hinv by (apply (rtc_invariant ends_step ends_inv ends_step_inv _ _ Hrun ends_inv_init)).
  split; apply inv_transfers; [done|]. destruct Hinv as (sl & sr & ? & ?). by exists sr, sl.
Qed.

Lemma max_frame_size : N.of_nat WEBRTC_MAX_FRAME_SIZE = 16384%N.
Proof. by vm_compute. Qed.

Lemma leb128_two_bytes n : (128 ≤ n)%N → 2 ≤ length (leb128 n).
Proof.
  intros Hn. unfold leb128. change 10 with (S (S 8)). cbn [base128]. rewrite (proj2 (N.ltb_ge _ _)) by done.
  destruct (n / 128 <? 128)%N; cbn [length]; lia.
Qed.

(** C39. A write of nearly a full frame or more is accepted, but its message is lost: with the protobuf
    fields around the payload, the frame is larger than the other end accepts, and it closes
    the substream. *)
Theorem full_write_refused buf e e' n : WEBRTC_MAX_FRAME_SIZE - 2 ≤ length buf →
  ws_poll_write buf e = (e', Ready (Ok n)) →
  ∃ m, chan_queue (ws_outbound e') = chan_queue (ws_outbound e) ++ [m] ∧ msg_payload m = take n buf ∧ transmit m = None.
Proof using UnsignedVarintLaws0 WebRtcSchemaLaws0.
  intros Hbuf Heq. unfold ws_poll_write, try_send in Heq.
  remember (Nat.min WEBRTC_MAX_FRAME_SIZE (length buf)) as k eqn:Ek.
  destruct (chan_tx (ws_outbound e)); [|done]. destruct (chan_rx (ws_outbound e)); [|done].
  destruct (_ <? MAX_INFLIGHT_MESSAGES); [|done]. injection Heq as <- <-.
  exists (mkWsMessage (take k buf) None). split; [done|]. split; [done|]. unfold transmit.
  pose proof max_frame_size as Hmax.
  assert (length (take k buf) = k) as Hk by (rewrite length_take; lia).
  rewrite <- (app_nil_r (wm_encode _ _)), oversized_refused; [done| |].
  - unfold fits, schema_length, wm_schema, varint_length. cbn [msg_payload msg_flag sm_flag sm_message fmap option_fmap option_map].
    destruct (take k buf) as [|b p] eqn:E; [cbn in Hk; lia|]. rewrite Hk.
    pose proof (leb128_two_bytes (N.of_nat k) ltac:(lia)). lia.
  - cbn [msg_payload]. lia.
Qed.
End stream.

(** ** Runs *)
Module StreamRun.
#[local] Existing Instance leb128_codec.
#[local] Existing Instance leb128_insufficient.
#[local] Existing Instance pb_codec.

(** One end writes and closes, the other end reads. *)
Definition payload := mkWsMessage [x01; x02; x03] None.
Definition fin := flag_message FlFin.
Definition l1 := Eval vm_compute in (ws_poll_write [x01; x02; x03] WsEndpoint_new).1.
Definition l2 := Eval vm_compute in (ws_poll_shutdown l1).1.
Definition l3 := Eval vm_compute in (ws_poll_progress 0 true l2).1.
Definition l4 := Eval vm_compute in (ws_poll_progress 0 true l3).1.
Definition r1 := Eval vm_compute in (ws_on_message WsEndpoint_new (as_received payload)).1.
Definition r2 := Eval vm_compute in (ws_on_message r1 (as_received fin)).1.
Definition r3 := Eval vm_compute in (ws_poll_read 8 r2).1.

Definition ends (l r : WsEndpoint) (w rd : list byte) (lr : list WsMessage) : Ends :=
  mkEnds (mkSide l true true w []) (mkSide r true true [] rd) lr [].
Definition final := ends l4 r3 [x01; x02; x03] [x01; x02; x03] [].

Lemma left_step l l' w w' r rd lr sent :
  side_step (mkSide l true true w []) [] (mkSide l' true true w' []) [] sent →
  ends_step (ends l r w rd lr) (ends l' r w' rd (lr ++ sent)).
Proof. intros Hs. by apply E_left. Qed.

Lemma right_step l w r r' rd rd' lr lr' :
  side_step (mkSide r true true [] rd) lr (mkSide r' true true [] rd') lr' [] →
  ends_step (ends l r w rd lr) (ends l r' w rd' lr').
Proof. intros Hs. exact (E_right _ _ _ [] _ _ [] Hs). Qed.

Lemma webrtc_run : rtc ends_step Ends_new final.
Proof.
  set (bs := [x01; x02; x03]). set (e0 := WsEndpoint_new).
  eapply rtc_l; [apply (left_step e0 l1 [] bs e0 [] [] []);
    refine (St_write e0 true [] [] bs l1 (Ready (Ok 3)) [] _); by vm_compute|].
  eapply rtc_l; [apply (left_step l1 l2 bs bs e0 [] [] []);
    refine (St_shutdown l1 true bs [] l2 Prelude.Pending [] _); by vm_compute|].
  eapply rtc_l; [apply (left_step l2 l3 bs bs e0 [] [] [payload]);
    refine (St_poll l2 true bs [] 0 true l3 (Ready (Some payload)) [] _); by vm_compute|].
  eapply rtc_l; [apply (left_step l3 l4 bs bs e0 [] [payload] [fin]);
    refine (St_poll l3 true bs [] 0 true l4 (Ready (Some fin)) [] _); by vm_compute|].
  eapply rtc_l; [apply (right_step l4 bs e0 r1 [] [] [payload; fin] [fin]);
    refine (St_message e0 true [] [] payload (as_received payload) r1 (Ok tt) [fin] _ _); by vm_compute|].
  eapply rtc_l; [apply (right_step l4 bs r1 r2 [] [] [fin] []);
    refine (St_message r1 true [] [] fin (as_received fin) r2 (Ok tt) [] _ _); by vm_compute|].
  eapply rtc_l; [apply (right_step l4 bs r2 r3 [] bs [] []);
    refine (St_read r2 true [] [] 8 r3 (Ready (Ok bs)) [] _); by vm_compute|].
  apply rtc_refl.
Qed.
End StreamRun.

Lemma webrtc_stream_delivers_witness :
  ws_poll_read 8 (sd_end (right_side StreamRun.final)) = (StreamRun.r3, Ready (Ok [])) ∧
  sd_read (right_side StreamRun.final) = sd_written (left_side StreamRun.final).
Proof.
  destruct (webrtc_stream_delivers (UnsignedVarintLaws0 := leb128_codec_laws) (WebRtcSchemaLaws0 := pb_codec_laws)
    StreamRun.final StreamRun.webrtc_run) as [(_ & Hread & _) _].
  assert (ws_poll_read 8 (sd_end (right_side StreamRun.final)) = (StreamRun.r3, Ready (Ok []))) as Heq
    by by vm_compute.
  split; [exact Heq|]. apply (Hread 8 StreamRun.r3); [reflexivity|lia|exact Heq].
Defined.

Lemma full_write_refused_witness :
  ∃ m, transmit (U := leb128_codec) (I := leb128_insufficient) (P := pb_codec) m = None.
Proof.
  destruct (full_write_refused (I := leb128_insufficient) (UnsignedVarintLaws0 := leb128_codec_laws) (WebRtcSchemaLaws0 := pb_codec_laws)
    (replicate WEBRTC_MAX_FRAME_SIZE x00) WsEndpoint_new
    (ws_poll_write (replicate WEBRTC_MAX_FRAME_SIZE x00) WsEndpoint_new).1 WEBRTC_MAX_FRAME_SIZE) as (m & _ & _ & Hm).
  - rewrite length_replicate. lia.
  - unfold ws_poll_write. cbn [WsEndpoint_new ws_outbound chan_tx Channel_new try_send chan_rx chan_queue].
    rewrite length_replicate, Nat.min_id. reflexivity.
  - exists m. exact Hm.
Defined.
