(* ===== verification/WebRtcTeardown.v ===== *)
(** * WebRTC substreams: well-formedness and teardown

    Invariants of one end of a substream whatever the remote sends, and that a substream which
    its protocol has dropped does not stay open: whatever the remote sends meanwhile, its handle
    reaches the end within a number of polls that its state bounds, if they are ten seconds
    apart. *)

From stdpp Require Import base tactics option list relations.
From Stdlib Require Import NArith Lia Init.Byte.
From S2P Require Import Prelude ProtocolTypes WebRtcSubstream WebRtcStream.

Local Open Scope litep2p_scope.

(** What happens at an end, with the time of the last poll. The remote may send anything. *)
Inductive end_step : WsEndpoint * N → WsEndpoint * N → Prop :=
| En_message e t wm : end_step (e, t) ((ws_on_message e wm).1, t)
| En_poll e t now pull : (t ≤ now)%N → end_step (e, t) ((ws_poll_progress now pull e).1, now)
| En_read e t capacity : end_step (e, t) ((ws_poll_read capacity e).1, t)
| En_write e t buf : end_step (e, t) ((ws_poll_write buf e).1, t)
| En_shutdown e t : end_step (e, t) ((ws_poll_shutdown e).1, t)
| En_drop e t : end_step (e, t) (ws_drop_substream e, t)
| En_drop_handle e t : end_step (e, t) (ws_drop_handle e, t).

Definition valid_state `{AtomicState T} (s : SharedState T) : Prop := ∃ v, s = shared v.

Definition timer_set (t : N) (timer : option N) : Prop := ∀ d, timer = Some d → (d ≤ t + 10)%N.

Record end_wf (e : WsEndpoint) (t : N) : Prop := {
  wf_channel : valid_state (ws_channel e);
  wf_writer : valid_state (ws_writer e);
  wf_reader : valid_state (ws_reader e);
  wf_inbound : length (chan_queue (ws_inbound e)) ≤ MAX_INFLIGHT_MESSAGES;
  wf_outbound : length (chan_queue (ws_outbound e)) ≤ MAX_INFLIGHT_MESSAGES;
  wf_read_buffer : length (ws_read_buffer e) ≤ WEBRTC_MAX_FRAME_SIZE;
  wf_ended : chan_tx (ws_inbound e) = false →
    shared_get (ws_channel e) = ChReset ∨ shared_get (ws_reader e) ≠ RdOpen;
  wf_fin : shared_get (ws_reader e) ≠ RdOpen → chan_tx (ws_inbound e) = false;
  wf_fin_ack : timer_set t (ws_fin_ack_timeout e);
  wf_teardown : timer_set t (ws_teardown_deadline e);
}.

Lemma end_wf_init t : end_wf WsEndpoint_new t.
Proof. split; try (by eexists); cbn; try lia; try done. Qed.

Lemma timer_later t t' timer : (t ≤ t')%N → timer_set t timer → timer_set t' timer.
Proof. intros Ht Hs d Hd. specialize (Hs d Hd). lia. Qed.

Lemma wf_later e t t' : (t ≤ t')%N → end_wf e t → end_wf e t'.
Proof. intros Ht [? ? ? ? ? ? ? ? ? ?]. split; try done; by eapply timer_later. Qed.

Lemma timer_now t : timer_set t (Some (t + 10)%N).
Proof. intros d [= <-]. lia. Qed.

Lemma valid_shared `{AtomicState T} (v : T) : valid_state (shared v).
Proof. by exists v. Qed.

#[local] Hint Resolve timer_now valid_shared : core.

Lemma try_send_length c m c' r : try_send c m = (c', r) → length (chan_queue c) ≤ MAX_INFLIGHT_MESSAGES →
  length (chan_queue c') ≤ MAX_INFLIGHT_MESSAGES ∧ chan_tx c' = chan_tx c.
Proof.
  unfold try_send. intros Heq Hlen. destruct (chan_rx c); [|by simplify_eq].
  destruct (Nat.ltb_spec (length (chan_queue c)) MAX_INFLIGHT_MESSAGES); simplify_eq; cbn; [|done].
  rewrite length_app. cbn. split; [lia|done].
Qed.

Lemma wf_flag e t flag : end_wf e t → end_wf (ws_on_flag e flag).1 t.
Proof.
  intros [? ? ? ? ? ? He Hf ? ?]. destruct flag as [[]|]; cbn; [..|by split].
  - destruct (shared_get (ws_reader e)) eqn:Er; split; cbn; auto; try done; rewrite ?Er; auto.
  - destruct (shared_get (ws_channel e)) eqn:Ec, (shared_get (ws_writer e)); split; cbn; rewrite ?Ec; auto.
  - split; cbn; auto.
  - destruct (shared_get (ws_writer e)); split; cbn; auto.
Qed.

Lemma wf_message e t wm : end_wf e t → end_wf (ws_on_message e wm).1 t.
Proof.
  intros Hwf. unfold ws_on_message. destruct (shared_get (ws_channel e)) eqn:Ec; [|done..].
  destruct (chan_tx (ws_inbound e)) eqn:Etx; [|by apply wf_flag].
  destruct (wm_payload wm) as [[|b p]|]; [by apply wf_flag| |by apply wf_flag].
  destruct (try_send (ws_inbound e) _) as [inbound [[]|err]] eqn:Es.
  - destruct (try_send_length _ _ _ _ Es (wf_inbound _ _ Hwf)) as [Hlen Htx]. apply wf_flag.
    destruct Hwf as [? ? ? ? ? ? He Hf ? ?]. split; cbn; try done; rewrite Htx; auto.
  - destruct err; [|by apply wf_flag]. destruct Hwf as [? ? ? ? ? ? He Hf ? ?]. split; cbn; auto.
    intros Hn. rewrite Etx in Hn. done.
Qed.

Lemma wf_reset e t : end_wf e t → end_wf (ws_set_channel e ChReset) t.
Proof. intros [? ? ? ? ? ? He Hf ? ?]. split; cbn; auto. Qed.

Lemma wf_half_close e t : end_wf e t → end_wf (ws_poll_half_close t e).1 t.
Proof.
  intros Hwf. unfold ws_poll_half_close. destruct (shared_get (ws_writer e)); [| |done|].
  1, 3: destruct Hwf as [? ? ? ? ? ? He Hf ? ?]; split; cbn; auto.
  destruct (match ws_fin_ack_timeout e with Some _ => _ | None => _ end); [|done].
  apply wf_reset in Hwf as [? ? ? ? ? ? He Hf ? ?]. split; cbn; auto. by intros d Hd.
Qed.

Lemma wf_deadline e t : end_wf e t → end_wf (ws_poll_teardown_deadline t e).1 t.
Proof.
  intros Hwf. unfold ws_poll_teardown_deadline. destruct (ws_teardown_deadline e) eqn:E; [done|].
  destruct Hwf as [? ? ? ? ? ? He Hf ? ?]. split; cbn; auto.
Qed.

Lemma wf_set_outbound e t c : end_wf e t → length (chan_queue c) ≤ MAX_INFLIGHT_MESSAGES →
  end_wf (ws_set_outbound e c) t.
Proof. intros [? ? ? ? ? ? He Hf ? ?] Hc. split; cbn; auto. Qed.

Lemma wf_poll_writer e t pull : end_wf e t → end_wf (ws_poll_writer t pull e).1 t.
Proof.
  intros Hwf. unfold ws_poll_writer. destruct (shared_get (ws_writer e)); [|by apply wf_half_close|done|by apply wf_half_close].
  destruct pull.
  - unfold poll_recv. pose proof (wf_outbound _ _ Hwf) as Ho. destruct (chan_queue (ws_outbound e)) as [|m q] eqn:Eq.
    + assert (end_wf (ws_set_outbound e (ws_outbound e)) t) by (apply wf_set_outbound; [done|]; by rewrite Eq).
      destruct (chan_tx (ws_outbound e) && chan_rx (ws_outbound e)); [done|]. by apply wf_half_close.
    + apply wf_set_outbound; [done|]. cbn in *. lia.
  - destruct (rx_is_closed (ws_outbound e) && _); [by apply wf_half_close|].
    destruct (rx_is_closed (ws_outbound e)); [|done].
    pose proof (wf_deadline e t Hwf) as Hd. destruct (ws_poll_teardown_deadline t e) as [e' []]; [by apply wf_reset|done].
Qed.

Lemma wf_poll e t pull : end_wf e t → end_wf (ws_poll_progress t pull e).1 t.
Proof.
  intros Hwf. unfold ws_poll_progress. destruct (shared_get (ws_channel e)); [|by apply wf_reset|done].
  destruct (_ && _ && _); [destruct Hwf as [? ? ? ? ? ? He Hf ? ?]; split; cbn; auto|].
  assert (end_wf (if ws_abandoned e then ws_poll_teardown_deadline t e else (e, false)).1 t) as Hd.
  { destruct (ws_abandoned e); [by apply wf_deadline|done]. }
  destruct (if ws_abandoned e then _ else _) as [e' []]; [by apply wf_reset|]. cbn in Hd.
  destruct (decide (shared_get (ws_reader e') = RdFin)) as [Hr|Hr].
  - destruct Hd as [? ? ? ? ? ? He Hf ? ?]. split; cbn; auto.
    intros _. apply Hf. by rewrite Hr.
  - pose proof (wf_poll_writer e' t pull Hd) as Hw. by destruct (ws_poll_writer t pull e') as [e'' [|[m|]]].
Qed.

Lemma wf_read e t capacity : end_wf e t → end_wf (ws_poll_read capacity e).1 t.
Proof.
  intros [? ? ? Hi ? Hb He Hf ? ?]. unfold ws_poll_read. destruct (ws_read_buffer e) as [|b buf] eqn:Eb.
  2: { split; cbn [fst ws_set_read_buffer ws_read_buffer]; auto. rewrite length_drop. lia. }
  unfold poll_recv. destruct (chan_queue (ws_inbound e)) as [|m q] eqn:Eq.
  - assert (end_wf (ws_set_inbound e (ws_inbound e)) t) by (split; cbn; rewrite ?Eb, ?Eq; auto).
    by destruct (_ && _).
  - assert (∀ buf', length buf' ≤ WEBRTC_MAX_FRAME_SIZE → end_wf (ws_set_read_buffer (ws_set_inbound e
      (mkChannel q (chan_tx (ws_inbound e)) (chan_rx (ws_inbound e)))) buf') t) as Hwf.
    { intros buf' Hbuf. split; cbn in *; auto. lia. }
    destruct (Nat.ltb_spec WEBRTC_MAX_FRAME_SIZE (length (msg_payload m))); [rewrite <- Eb in Hb; by apply (Hwf (ws_read_buffer e))|].
    destruct (_ <=? _); [rewrite <- Eb in Hb; by apply (Hwf (ws_read_buffer e))|]. apply Hwf.
    cbn [ws_read_buffer ws_set_inbound]. rewrite Eb. cbn [app]. rewrite length_drop. lia.
Qed.

Lemma end_step_wf s s' : end_step s s' → end_wf s.1 s.2 → end_wf s'.1 s'.2.
Proof.
  intros Hs. destruct Hs as [e t wm|e t now pull Ht|e t cap|e t buf|e t|e t|e t]; cbn [fst snd]; intros Hwf.
  - by apply wf_message.
  - apply wf_poll. by eapply wf_later.
  - by apply wf_read.
  - unfold ws_poll_write. destruct (chan_tx (ws_outbound e)); [|done].
    destruct (try_send (ws_outbound e) _) as [outbound [[]|[]]] eqn:Es; [|done|by destruct Hwf; split].
    apply wf_set_outbound; [done|]. by destruct (try_send_length _ _ _ _ Es (wf_outbound _ _ Hwf)).
  - apply wf_set_outbound; [done|]. apply Hwf.
  - destruct Hwf as [? ? ? ? ? ? He Hf ? ?]. split; cbn; auto. lia.
  - unfold ws_drop_handle. destruct Hwf as [? ? ? ? ? ? He Hf ? ?].
    destruct (bool_decide (shared_get (ws_writer e) = WrFinAck)), (bool_decide (shared_get (ws_reader e) = RdFinAck)) eqn:Er;
      split; cbn; auto; try lia.
    apply bool_decide_eq_true in Er. intros _. right. by rewrite Er.
Qed.

(** C15. An end of a WebRTC substream is well formed whatever its protocol, its connection and the
    remote do: the bytes that hold its three states are encodings of states, so that the
    fallbacks of [from_u8] are never used; its queues hold at most 256 messages, and its
    buffer at most a frame; the sender of the queue of the reader is gone only after a [FIN] or
    a reset; and its timers end at most ten seconds after the last poll. *)
Theorem webrtc_end_well_formed t0 e t : rtc end_step (WsEndpoint_new, t0) (e, t) → end_wf e t.
Proof. intros Hrun. exact (rtc_invariant end_step (λ s, end_wf s.1 s.2) end_step_wf _ _ Hrun (end_wf_init t0)). Qed.

(** ** Teardown *)

(** The protocol has dropped its [Substream]. *)
Definition dropped (e : WsEndpoint) : Prop := chan_rx (ws_inbound e) = false ∧ chan_tx (ws_outbound e) = false.

(** A bound on the messages that the handle still sends. *)
Definition effort (e : WsEndpoint) : nat :=
  match shared_get (ws_channel e) with
  | ChReset => 0
  | ChInitReset => 1
  | ChOpen =>
      2 + length (chan_queue (ws_outbound e)) +
      match shared_get (ws_writer e) with WrOpen | WrStopSending => 1 | WrFin | WrFinAck => 0 end +
      match shared_get (ws_reader e) with RdOpen | RdFin => 1 | RdFinAck => 0 end +
      (if ws_stop_sending_sent e then 0 else 1)
  end.

Lemma poll_effort now pull e e' m : ws_poll_progress now pull e = (e', Ready (Some m)) → effort e' < effort e.
Proof.
  unfold ws_poll_progress, ws_poll_writer, ws_poll_half_close, ws_poll_teardown_deadline, ws_reset, poll_recv.
  intros Heq. repeat case_match; simplify_eq/=; unfold effort; cbn;
    rewrite ?get_channel, ?get_writer, ?get_reader.
  all: repeat match goal with H : shared_get _ = _ |- _ => rewrite H; clear H end.
  all: repeat match goal with H : chan_queue _ = _ |- _ => rewrite H; clear H end; cbn; try lia.
  all: match goal with
       | H : negb (ws_stop_sending_sent ?e) && _ && _ = true |- _ => destruct (ws_stop_sending_sent e); [done|lia]
       | H : shared_get (ws_reader _) = RdFin |- _ => rewrite H; lia
       end.
Qed.

Lemma dropped_closed e : dropped e → rx_is_closed (ws_outbound e) = true.
Proof. intros [_ Htx]. unfold rx_is_closed. by rewrite Htx. Qed.

(** Polls keep a substream dropped. *)
Lemma poll_dropped now pull e e' r : ws_poll_progress now pull e = (e', r) → dropped e → dropped e'.
Proof.
  intros Heq [Hrx Htx]. destruct (poll_progress_cases _ _ _ _ _ Heq) as [? _ _ [_ Ho] (_ & Hi & _) _|_ [_ Ho] (_ & Hi & _) _
    |_ _ [_ Ho] (_ & Hi & _)|_ _ _ [_ Ho] Hi _ _|? ? _ _ Ho _ _ (_ & Hi & _) _|_ _ Ho _ (_ & Hi & _) _];
    unfold dropped; by rewrite Hi, Ho.
Qed.

(** What a dropped substream waits for is bounded by a timer that has been set. *)
Definition waits_until (limit : N) (e : WsEndpoint) : Prop :=
  shared_get (ws_channel e) = ChOpen ∧
  (ws_abandoned e = true ∧ ws_stop_sending_sent e = true ∧
     (∃ d, ws_teardown_deadline e = Some d ∧ (d ≤ limit)%N) ∨
   ws_abandoned e = false ∧ shared_get (ws_reader e) = RdFinAck ∧
     (shared_get (ws_writer e) = WrOpen ∧ (∃ d, ws_teardown_deadline e = Some d ∧ (d ≤ limit)%N) ∨
      shared_get (ws_writer e) = WrFin ∧ (∃ d, ws_fin_ack_timeout e = Some d ∧ (d ≤ limit)%N))).

Lemma deadline_set t e : end_wf e t → ∃ d, ws_teardown_deadline (ws_poll_teardown_deadline t e).1 = Some d ∧ (d ≤ t + 10)%N.
Proof.
  intros Hwf. unfold ws_poll_teardown_deadline. destruct (ws_teardown_deadline e) as [d|] eqn:E; cbn.
  - exists d. split; [done|]. by apply (wf_teardown _ _ Hwf).
  - eexists. split; [done|]. unfold TEARDOWN_TIMEOUT. lia.
Qed.

(** What the writer's part of a poll leaves alone when it sends nothing. *)
Lemma poll_writer_quiet t pull e e' r : ws_poll_writer t pull e = (e', r) → (∀ m, r ≠ Ready (Some m)) →
  ws_channel e' = ws_channel e ∧ ws_inbound e' = ws_inbound e ∧ ws_stop_sending_sent e' = ws_stop_sending_sent e ∧
  ws_reader e' = ws_reader e ∧ ∀ d, ws_teardown_deadline e = Some d → ws_teardown_deadline e' = Some d.
Proof.
  unfold ws_poll_writer, ws_poll_half_close, ws_poll_teardown_deadline, ws_reset, poll_recv.
  intros Heq Hno. repeat case_match; simplify_eq/=; try done; try (by edestruct Hno); naive_solver.
Qed.

Lemma poll_pending t pull e e' : end_wf e t → dropped e →
  ws_poll_progress t pull e = (e', Prelude.Pending) → waits_until (t + 10) e'.
Proof.
  intros Hwf Hd Heq. unfold ws_poll_progress in Heq. destruct (shared_get (ws_channel e)) eqn:Ec; [|done..].
  destruct (negb (ws_stop_sending_sent e) && bool_decide (shared_get (ws_reader e) = RdOpen) && ws_abandoned e) eqn:Est; [done|].
  pose proof Hwf as [_ _ _ _ _ _ He Hf _ _]. pose proof Hd as [Hrx _].
  destruct (ws_abandoned e) eqn:Ea.
  - assert (chan_tx (ws_inbound e) = true) as Htx by (unfold ws_abandoned in Ea; by destruct (chan_tx (ws_inbound e))).
    assert (shared_get (ws_reader e) = RdOpen) as Hr.
    { destruct (decide (shared_get (ws_reader e) = RdOpen)) as [|Hne]; [done|]. by rewrite (Hf Hne) in Htx. }
    rewrite Hr, bool_decide_eq_true_2, !andb_true_r in Est by done. apply negb_false_iff in Est.
    destruct (deadline_set t e Hwf) as (d & Hset & Hle).
    assert (let e1 := (ws_poll_teardown_deadline t e).1 in ws_channel e1 = ws_channel e ∧ ws_inbound e1 = ws_inbound e ∧
      ws_stop_sending_sent e1 = ws_stop_sending_sent e ∧ ws_reader e1 = ws_reader e) as Hsame.
    { unfold ws_poll_teardown_deadline. by destruct (ws_teardown_deadline e). }
    destruct (ws_poll_teardown_deadline t e) as [e1 []]; [done|]. cbn in Hset, Hsame. destruct Hsame as (Hc1 & Hi1 & Hs1 & Hr1).
    rewrite Hr1, Hr, decide_False in Heq by done.
    destruct (ws_poll_writer t pull e1) as [e2 r] eqn:Ew.
    assert (e2 = e' ∧ ∀ m, r ≠ Ready (Some m)) as [-> Hno] by (destruct r as [|[m|]]; naive_solver).
    destruct (poll_writer_quiet _ _ _ _ _ Ew Hno) as (Hc2 & Hi2 & Hs2 & _ & Hd2). split; [by rewrite Hc2, Hc1|].
    left. unfold ws_abandoned in *. rewrite Hi2, Hi1, Hs2, Hs1. split; [done|]. split; [done|]. exists d. auto.
  - assert (chan_tx (ws_inbound e) = false) as Htx.
    { unfold ws_abandoned in Ea. rewrite Hrx, andb_true_r in Ea. done. }
    destruct (He Htx) as [?|Hro]; [congruence|].
    destruct (decide (shared_get (ws_reader e) = RdFin)) as [|Hnf]; [done|].
    assert (shared_get (ws_reader e) = RdFinAck) as Hr by by destruct (shared_get (ws_reader e)).
    destruct (ws_poll_writer t pull e) as [e2 r] eqn:Ew.
    assert (e2 = e' ∧ r = Prelude.Pending) as [-> ->].
    { destruct r as [|[m|]]; [by simplify_eq|done|]. destruct (poll_writer_quiet _ _ _ _ _ Ew) as (_ & _ & _ & Hr2 & _); [done|].
      rewrite Hr2, Hr, decide_True in Heq by done. done. }
    destruct (poll_writer_quiet _ _ _ _ _ Ew) as (Hc2 & Hi2 & Hs2 & Hr2 & Hd2); [done|].
    split; [by rewrite Hc2|]. right. unfold ws_abandoned in *. rewrite Hi2, Hr2. split; [done|]. split; [done|].
    unfold ws_poll_writer in Ew. destruct (shared_get (ws_writer e)) eqn:Ewr.
    + left. unfold ws_poll_half_close, poll_recv in Ew. rewrite (dropped_closed e Hd) in Ew. cbn [andb] in Ew.
      destruct pull.
      { destruct (chan_queue (ws_outbound e)); [|done]. rewrite (proj2 Hd) in Ew. cbn in Ew. by rewrite Ewr in Ew. }
      destruct (bool_decide (chan_queue (ws_outbound e) = [])); [by rewrite Ewr in Ew|].
      destruct (deadline_set t e Hwf) as (d & Hset & Hle).
      assert (ws_writer (ws_poll_teardown_deadline t e).1 = ws_writer e) as Hw.
      { unfold ws_poll_teardown_deadline. by destruct (ws_teardown_deadline e). }
      destruct (ws_poll_teardown_deadline t e) as [e1 []]; [done|]. simplify_eq. cbn in *. rewrite Hw. eauto.
    + right. unfold ws_poll_half_close in Ew. rewrite Ewr in Ew. pose proof (wf_fin_ack _ _ Hwf) as Ht.
      destruct (ws_fin_ack_timeout e) as [d|] eqn:Et; [|done]. destruct (d <=? t)%N; simplify_eq.
      split; [done|]. exists d. split; [done|]. by apply Ht.
    + done.
    + unfold ws_poll_half_close in Ew. by rewrite Ewr in Ew.
Qed.

(** A poll from [limit] on makes progress. *)
Definition ready_by (limit : N) (e : WsEndpoint) : Prop :=
  shared_get (ws_channel e) ≠ ChOpen ∨ waits_until limit e ∨
  ws_abandoned e = false ∧ (shared_get (ws_reader e) = RdFin ∨
    shared_get (ws_reader e) = RdFinAck ∧ (shared_get (ws_writer e) = WrFinAck ∨ shared_get (ws_writer e) = WrStopSending)).

Lemma ready_progress limit e now pull : dropped e → ready_by limit e → (limit ≤ now)%N →
  (ws_poll_progress now pull e).2 ≠ Prelude.Pending.
Proof.
  intros Hd Hready Hlim. unfold ws_poll_progress. destruct (shared_get (ws_channel e)) eqn:Hc; [|done..].
  destruct Hready as [?|[(_ & [(Ha & Hs & d & Ht & Hle)|(Ha & Hr & Hw)])|(Ha & [Hr|[Hr Hw]])]]; [done|..].
  - rewrite Hs. cbn [negb andb]. rewrite Ha. unfold ws_poll_teardown_deadline. rewrite Ht.
    by rewrite (proj2 (N.leb_le _ _)) by lia.
  - rewrite Ha, andb_false_r. rewrite Hr, decide_False by done.
    assert ((ws_poll_writer now pull e).2 ≠ Prelude.Pending) as Hp.
    { unfold ws_poll_writer. destruct Hw as [(Hwr & d & Ht & Hle)|(Hwr & d & Ht & Hle)]; rewrite Hwr.
      - rewrite (dropped_closed e Hd). cbn [andb]. unfold poll_recv, ws_poll_half_close, ws_poll_teardown_deadline.
        rewrite Ht, (proj2 Hd), (proj2 (N.leb_le _ _)) by lia. cbn [andb].
        destruct pull; [destruct (chan_queue (ws_outbound e)); cbn; by rewrite ?Hwr|].
        destruct (bool_decide _); cbn; by rewrite ?Hwr.
      - unfold ws_poll_half_close. rewrite Hwr, Ht. by rewrite (proj2 (N.leb_le _ _)) by lia. }
    destruct (ws_poll_writer now pull e) as [e2 r] eqn:Ew. cbn in Hp. destruct r as [|[m|]]; [done|done|].
    destruct (poll_writer_quiet _ _ _ _ _ Ew) as (_ & _ & _ & Hr2 & _); [done|].
    by rewrite Hr2, Hr, decide_True.
  - rewrite Ha, andb_false_r. by rewrite Hr, decide_True.
  - rewrite Ha, andb_false_r. rewrite Hr, decide_False by done. unfold ws_poll_writer, ws_poll_half_close.
    destruct Hw as [-> | ->]; cbn; [|done]. by rewrite Hr, decide_True.
Qed.

(** *** Messages that arrive after the drop

    Their payload is discarded. *)
Lemma message_dropped_cases e wm : dropped e →
  (ws_on_message e wm).1 = e ∨ (ws_on_message e wm).1 = (ws_on_flag e (wm_flag wm)).1 ∧ shared_get (ws_channel e) = ChOpen.
Proof.
  intros [Hrx _]. unfold ws_on_message, try_send. destruct (shared_get (ws_channel e)); [|by left..]. right. split; [|done].
  destruct (chan_tx (ws_inbound e)); [|done]. destruct (wm_payload wm) as [[|b p]|]; [done| |done]. by rewrite Hrx.
Qed.

Lemma flag_dropped e flag : dropped e → dropped (ws_on_flag e flag).1.
Proof.
  intros [Hrx Htx]. destruct flag as [[]|]; cbn; [..|done]; repeat case_match; by split.
Qed.

Lemma flag_effort e flag : effort (ws_on_flag e flag).1 ≤ effort e.
Proof.
  destruct flag as [[]|]; cbn; [..|done]; repeat case_match; unfold effort; cbn; rewrite ?get_channel, ?get_writer, ?get_reader;
    repeat match goal with H : shared_get _ = _ |- _ => rewrite H; clear H end; try lia; repeat case_match; lia.
Qed.

(** Nothing is waited for once the writer is done or told to stop. *)
Lemma ready_writer limit e w c : shared_get (ws_channel e) = ChOpen → ready_by limit e → w = WrFinAck ∨ w = WrStopSending →
  ready_by limit (ws_set_outbound (ws_set_writer e w) c).
Proof.
  intros Hc Hready Hw. destruct Hready as [?|[(_ & [(Ha & Hs & Hd)|(Ha & Hr & _)])|(Ha & [Hr|[Hr _]])]]; [done|..].
  - right. left. split; [done|]. by left.
  - right. right. unfold ws_abandoned in *. cbn. rewrite get_writer. auto.
  - right. right. unfold ws_abandoned in *. cbn. auto.
  - right. right. unfold ws_abandoned in *. cbn. rewrite get_writer. auto.
Qed.

Lemma flag_ready limit e flag : dropped e → shared_get (ws_channel e) = ChOpen → ready_by limit e → ready_by limit (ws_on_flag e flag).1.
Proof.
  intros [Hrx _] Hc Hready. destruct flag as [[]|]; cbn [ws_on_flag]; [..|done].
  - destruct (shared_get (ws_reader e)) eqn:Er; [|done..]. right. right. unfold ws_abandoned. cbn. rewrite get_reader. auto.
  - rewrite Hc. destruct (shared_get (ws_writer e)) eqn:Ew; [|done|done|]; apply ready_writer; by auto.
  - left. cbn. by rewrite get_channel.
  - destruct (shared_get (ws_writer e)) eqn:Ew; try (left; cbn; by rewrite get_channel).
    apply (ready_writer _ _ _ (ws_outbound e)); [done..|by left].
Qed.

Lemma message_teardown e wm : dropped e → dropped (ws_on_message e wm).1 ∧ effort (ws_on_message e wm).1 ≤ effort e ∧
  ∀ limit, ready_by limit e → ready_by limit (ws_on_message e wm).1.
Proof.
  intros Hd. destruct (message_dropped_cases e wm Hd) as [-> |[-> Hc]]; [by split_and!|].
  split_and!; [by apply flag_dropped|apply flag_effort|]. intros limit. by apply flag_ready.
Qed.

Lemma pending_effort now pull e e' : ws_poll_progress now pull e = (e', Prelude.Pending) →
  effort e' = effort e ∧ 0 < effort e.
Proof.
  intros Heq. pose proof (poll_progress_cases _ _ _ _ _ Heq) as Hp.
  inversion Hp as [? _ Hc [Hw Ho] (Hr & _ & _) Hs| | | | |]; subst. unfold effort. rewrite Hc, Hw, Ho, Hr, Hs.
  split; [done|]. unfold ws_poll_progress in Heq. destruct (shared_get (ws_channel e)); [lia|done..].
Qed.

(** What happens to a handle whose substream is dropped. *)
Inductive TeardownEvent := TePoll (now : N) (pull : bool) | TeMessage (message : WebRtcMessage).

(** Whether the handle says that it is done, in one of the polls. *)
Fixpoint ends (e : WsEndpoint) (evs : list TeardownEvent) : bool :=
  match evs with
  | [] => false
  | TeMessage wm :: evs => ends (ws_on_message e wm).1 evs
  | TePoll now pull :: evs =>
      match ws_poll_progress now pull e with
      | (_, Ready None) => true
      | (e, _) => ends e evs
      end
  end.

(** The first poll is not before [t], and polls are ten seconds apart. *)
Fixpoint spaced (t : N) (evs : list TeardownEvent) : Prop :=
  match evs with
  | [] => True
  | TeMessage _ :: evs => spaced t evs
  | TePoll now _ :: evs => (t ≤ now)%N ∧ spaced (now + 10) evs
  end.

Fixpoint polls (evs : list TeardownEvent) : nat :=
  match evs with
  | [] => 0
  | TeMessage _ :: evs => polls evs
  | TePoll _ _ :: evs => S (polls evs)
  end.

Lemma polls_end evs : ∀ e t, end_wf e t → dropped e → spaced t evs →
  (2 * effort e < polls evs → ends e evs = true) ∧
  (ready_by t e → 2 * effort e ≤ polls evs → 0 < polls evs → ends e evs = true).
Proof.
  induction evs as [|[now pull|wm] evs IH]; intros e t Hwf Hd Hsp; [by split; cbn; lia| |].
  - destruct Hsp as [Ht Hsp]. assert (end_wf e now) as Hwf1 by by eapply wf_later.
    pose proof (wf_poll e now pull Hwf1) as Hwf2. cbn [ends polls].
    destruct (ws_poll_progress now pull e) as [e' r] eqn:Ep. cbn in Hwf2.
    pose proof (poll_dropped _ _ _ _ _ Ep Hd) as Hd'.
    destruct (IH e' (now + 10)%N) as [IH1 IH2]; [eapply wf_later; [|done]; lia|done|done|].
    destruct r as [|[m|]]; [| |by split].
    + split.
      * destruct (pending_effort _ _ _ _ Ep) as [Heff Hpos]. rewrite <- Heff in *. intros Hlen.
        apply IH2; [right; left; exact (poll_pending _ _ _ _ Hwf1 Hd Ep)|lia..].
      * intros Hw _ _. exfalso. apply (ready_progress t e now pull Hd Hw Ht). by rewrite Ep.
    + apply poll_effort in Ep. split; intros; apply IH1; lia.
  - destruct (message_teardown e wm Hd) as (Hd' & He & Hr). cbn [ends polls]. cbn in Hsp.
    destruct (IH _ t (wf_message e t wm Hwf) Hd' Hsp) as [IH1 IH2]. split; intros; [apply IH1; lia|apply IH2; [auto|lia..]].
Qed.

(** C13. A substream that its protocol has dropped comes to its end: its handle is done after a number of
    polls that its state bounds, provided that polls are ten seconds apart, with
    backpressure or without, whatever the remote has sent before the drop and
    whatever it sends, or does not send, between the polls. *)
Theorem dropped_substream_ends t0 e t evs : rtc end_step (WsEndpoint_new, t0) (e, t) → dropped e →
  spaced t evs → 2 * effort e < polls evs → ends e evs = true.
Proof.
  intros Hrun Hd Hsp. apply (polls_end evs e t); [|done|done].
  exact (rtc_invariant end_step (λ s, end_wf s.1 s.2) end_step_wf _ _ Hrun (end_wf_init t0)).
Qed.

(** ** Runs *)
Module TeardownRun.
Definition e1 := Eval vm_compute in (ws_poll_write [x01] WsEndpoint_new).1.
Definition e2 := Eval vm_compute in ws_drop_substream e1.

Lemma teardown_run : rtc end_step (WsEndpoint_new, 0%N) (e2, 0%N).
Proof.
  eapply rtc_l; [exact (En_write WsEndpoint_new 0 [x01])|].
  eapply rtc_l; [exact (En_drop _ 0)|]. apply rtc_refl.
Qed.
End TeardownRun.

Lemma webrtc_end_well_formed_witness : length (chan_queue (ws_outbound TeardownRun.e2)) = 1 ∧ end_wf TeardownRun.e2 0.
Proof. split; [reflexivity|]. exact (webrtc_end_well_formed 0 _ 0 TeardownRun.teardown_run). Defined.

(** The connection is backpressured: nothing is pulled from the queue. *)
Lemma dropped_substream_ends_witness :
  ends TeardownRun.e2 (TeMessage (mkWebRtcMessage (Some [x02]) None) ::
    ((λ i, TePoll (10 * N.of_nat i) false) <$> seq 0 13)) = true.
Proof.
  apply (dropped_substream_ends 0 _ 0 _ TeardownRun.teardown_run); [split; reflexivity| |].
  - repeat split; vm_compute; discriminate.
  - apply Nat.ltb_lt. reflexivity.
Defined.
