(* ===== verification/AsyncIo.v ===== *)
(** * Byte streams

    What the components above a transport ask of the stream they read from and write to:
    [futures::io] and [tokio::io]'s [AsyncRead] and [AsyncWrite]. *)

From stdpp Require Import base tactics option list.
From Stdlib Require Import NArith Lia Init.Byte.
From S2P Require Import Prelude ProtocolTypes.

(** A read is into a buffer with room for the given number of bytes and answers with those that were
    read; a write answers with the number of bytes that were taken, at most those it was given. *)
Class AsyncIo (S : Type) : Type := {
  io_poll_read : nat → S → S * Poll (result IoKind (list byte));
  io_poll_write : list byte → S → S * Poll (result IoKind nat);
  io_poll_flush : S → S * Poll (result IoKind unit);
  io_poll_shutdown : S → S * Poll (result IoKind unit);
}.

(** ** Streams with their history

    [io_input] and [io_output] are the bytes that were read and written so far, [io_ready] is a bound
    on the bytes that can be read before a read has to wait. *)
Class AsyncIoLaws (S : Type) {IO : AsyncIo S} : Type := {
  io_input : S → list byte;
  io_output : S → list byte;
  io_ready : S → nat;
  io_read_law n s s' r : io_poll_read n s = (s', r) → io_output s' = io_output s ∧
    match r with
    | Ready (Ok bs) => length bs ≤ n ∧ io_input s' = io_input s ++ bs ∧ io_ready s' + length bs ≤ io_ready s
    | _ => io_input s' = io_input s
    end;
  io_write_law bs s s' r : io_poll_write bs s = (s', r) → io_input s' = io_input s ∧
    match r with
    | Ready (Ok n) => n ≤ length bs ∧ io_output s' = io_output s ++ take n bs
    | _ => io_output s' = io_output s
    end;
  io_flush_law s s' r : io_poll_flush s = (s', r) → io_input s' = io_input s ∧ io_output s' = io_output s;
  io_shutdown_law s s' r : io_poll_shutdown s = (s', r) → io_input s' = io_input s ∧ io_output s' = io_output s;
}.

(** The operations, whatever they answer. *)
Inductive io_op {S} `{AsyncIo S} : S → S → Prop :=
| Io_read n s s' r : io_poll_read n s = (s', r) → io_op s s'
| Io_write bs s s' r : io_poll_write bs s = (s', r) → io_op s s'
| Io_flush s s' r : io_poll_flush s = (s', r) → io_op s s'
| Io_shutdown s s' r : io_poll_shutdown s = (s', r) → io_op s s'.

(** ** A pipe

    A stream that has some bytes to read and takes a few bytes at a time. *)
Record Pipe := mkPipe { pipe_bytes : list byte; pipe_chunk : nat; pipe_in : list byte; pipe_out : list byte }.

Definition pipe_read (n : nat) (p : Pipe) : Pipe * Poll (result IoKind (list byte)) :=
  let bs := take (Nat.min n (pipe_chunk p)) (pipe_bytes p) in
  match bs with
  | [] => (p, Prelude.Pending)
  | _ => (mkPipe (drop (length bs) (pipe_bytes p)) (pipe_chunk p) (pipe_in p ++ bs) (pipe_out p), Ready (Ok bs))
  end.

Definition pipe_write (bs : list byte) (p : Pipe) : Pipe * Poll (result IoKind nat) :=
  let n := Nat.min (length bs) (pipe_chunk p) in
  (mkPipe (pipe_bytes p) (pipe_chunk p) (pipe_in p) (pipe_out p ++ take n bs), Ready (Ok n)).

#[export] Instance pipe_io : AsyncIo Pipe := {|
  io_poll_read := pipe_read;
  io_poll_write := pipe_write;
  io_poll_flush p := (p, Ready (Ok tt));
  io_poll_shutdown p := (p, Ready (Ok tt));
|}.

#[export] Instance pipe_laws : AsyncIoLaws Pipe.
Proof.
  refine {| io_input := pipe_in; io_output := pipe_out; io_ready p := length (pipe_bytes p) |}.
  - intros n p p' r. cbn. unfold pipe_read. set (bs := take _ _). destruct bs eqn:E; intros [= <- <-]; [done|].
    rewrite <- E. cbn. split; [done|]. subst bs. pose proof (f_equal length E) as Hl. rewrite length_drop, !length_take in *. cbn in Hl. split_and!; [lia|done|lia].
  - intros bs p p' r [= <- <-]. cbn. split_and!; [done|lia|done].
  - by intros p p' r [= <- <-].
  - by intros p p' r [= <- <-].
Defined.
