(* ===== verification/FramedSubstream.v ===== *)
(** * Substreams

    [src/src/substream/mod.rs]: the substream a protocol holds. Over the byte stream of a transport it
    sends and receives frames, as the codec of the protocol says: frames of a fixed size, or
    frames behind their length as an unsigned varint. *)

From stdpp Require Import base tactics option list gmap.
From Stdlib Require Import NArith Lia Init.Byte.
From S2P Require Import Prelude ProtocolTypes AsyncIo ProtocolSet Varint.

Local Open Scope litep2p_scope.

(** ** Data *)

(** [SubstreamType], without the substream itself *)
Inductive SubstreamType := StTcp | StWebSocket | StQuic | StWebRtc.

Definition BACKPRESSURE_BOUNDARY : N := 65536.

(** The length of [unsigned_varint::encode::usize_buffer]. *)
Definition USIZE_BUFFER : nat := 10.

(** [substream::Substream]; the peer is only logged. *)
Record FramedSubstream (S : Type) := mkFramed {
  fs_substream : S;
  fs_type : SubstreamType;
  fs_substream_id : SubstreamId;
  fs_codec : ProtocolCodec;
  fs_pending_out_frames : list (list byte);
  fs_pending_out_bytes : N;
  fs_pending_out_frame : option (list byte);
  fs_read_buffer : list byte;
  fs_offset : nat;
  fs_pending_frames : list (list byte);
  fs_current_frame_size : option N;
  fs_size_vec : list byte;
}.
Arguments mkFramed {S}.
Arguments fs_substream {S}.
Arguments fs_type {S}.
Arguments fs_substream_id {S}.
Arguments fs_codec {S}.
Arguments fs_pending_out_frames {S}.
Arguments fs_pending_out_bytes {S}.
Arguments fs_pending_out_frame {S}.
Arguments fs_read_buffer {S}.
Arguments fs_offset {S}.
Arguments fs_pending_frames {S}.
Arguments fs_current_frame_size {S}.
Arguments fs_size_vec {S}.

Definition zeroes (n : nat) : list byte := replicate n x00.

(** [BytesMut::zeroed], which panics when a [Vec] cannot have that capacity. *)
Definition isize_max : N := (2 ^ 63 - 1)%N.
Definition zeroed (n : N) : outcome (list byte) :=
  if (isize_max <? n)%N then Panic else Done (zeroes (N.to_nat n)).

(** [Substream::new] *)
Definition FramedSubstream_new {S} (substream_id : SubstreamId) (type : SubstreamType) (substream : S)
    (codec : ProtocolCodec) : FramedSubstream S :=
  mkFramed substream type substream_id codec [] 0 None (zeroes 1024) 0 [] None (zeroes USIZE_BUFFER).

Section framed.
Context {S : Type} `{IO : AsyncIo S} `{U : Varint.UnsignedVarint}.
Implicit Types (ss : FramedSubstream S).

Definition fs_set_io ss (s : S) : FramedSubstream S :=
  mkFramed s (fs_type ss) (fs_substream_id ss) (fs_codec ss) (fs_pending_out_frames ss) (fs_pending_out_bytes ss)
    (fs_pending_out_frame ss) (fs_read_buffer ss) (fs_offset ss) (fs_pending_frames ss) (fs_current_frame_size ss)
    (fs_size_vec ss).
Definition fs_set_read ss (buffer : list byte) (offset : nat) (size : option N) (size_vec : list byte) :
    FramedSubstream S :=
  mkFramed (fs_substream ss) (fs_type ss) (fs_substream_id ss) (fs_codec ss) (fs_pending_out_frames ss)
    (fs_pending_out_bytes ss) (fs_pending_out_frame ss) buffer offset (fs_pending_frames ss) size size_vec.
Definition fs_set_pending_frames ss frames : FramedSubstream S :=
  mkFramed (fs_substream ss) (fs_type ss) (fs_substream_id ss) (fs_codec ss) (fs_pending_out_frames ss)
    (fs_pending_out_bytes ss) (fs_pending_out_frame ss) (fs_read_buffer ss) (fs_offset ss) frames
    (fs_current_frame_size ss) (fs_size_vec ss).
Definition fs_set_out ss (frames : list (list byte)) (bytes : N) (frame : option (list byte)) : FramedSubstream S :=
  mkFramed (fs_substream ss) (fs_type ss) (fs_substream_id ss) (fs_codec ss) frames bytes frame (fs_read_buffer ss)
    (fs_offset ss) (fs_pending_frames ss) (fs_current_frame_size ss) (fs_size_vec ss).

(** ** Receiving *)

Inductive ReadError := RdOverflow | RdNotEnoughBytes | RdDecodeError.

(** [read_payload_size]: the payload size and the number of bytes it took to encode it *)
Definition read_payload_size (buffer : list byte) : result ReadError (N * nat) :=
  match list_find (λ b, has_msb b = false) (take USIZE_BUFFER buffer) with
  | Some (i, _) =>
      match uvi_decode_usize (take (i + 1) buffer) with
      | Some (size, _) => Ok (size, i + 1)
      | None => Err RdDecodeError
      end
  | None => Err (if length buffer <? USIZE_BUFFER then RdNotEnoughBytes else RdOverflow)
  end.

(** What [Stream::poll_next] returns. *)
Notation Frame := (Poll (option (result SubstreamError (list byte)))) (only parsing).

(** The body of the loop for [ProtocolCodec::Identity]; [None] is another turn of the loop. The slice
    that is read into has to be inside the buffer. *)
Definition fs_read_identity ss (payload_size : N) : outcome (FramedSubstream S * option Frame) :=
  let size := N.to_nat payload_size in
  if (fs_offset ss <=? size) && (size <=? length (fs_read_buffer ss)) then
    let '(s, r) := io_poll_read (size - fs_offset ss) (fs_substream ss) in
    let ss := fs_set_io ss s in
    match r with
    | Prelude.Pending => Done (ss, Some Prelude.Pending)
    | Ready (Err error) => Done (ss, Some (Ready (Some (Err (SeIo error)))))
    | Ready (Ok []) => Done (ss, Some (Ready None))
    | Ready (Ok bs) =>
        let buffer := overwrite (fs_read_buffer ss) (fs_offset ss) bs in
        let offset := fs_offset ss + length bs in
        if decide (offset = size) then
          run next <- zeroed payload_size ;;
          Done (fs_set_read ss next 0 (fs_current_frame_size ss) (fs_size_vec ss),
                Some (Ready (Some (Ok (take size buffer)))))
        else Done (fs_set_read ss buffer offset (fs_current_frame_size ss) (fs_size_vec ss), None)
    end
  else Panic.

(** The length of a frame is complete, or wrong, or more bytes of it follow. *)
Definition fs_on_size (debug : bool) ss (max_size : option N) : outcome (FramedSubstream S * option Frame) :=
  let failure := Some (Ready (Some (Err (SeReadFailure (Some (fs_substream_id ss)))))) in
  match read_payload_size (take (fs_offset ss) (fs_size_vec ss)) with
  | Err RdNotEnoughBytes => Done (ss, None)
  | Err _ => Done (ss, failure)
  | Ok (size, num_bytes) =>
      debug_assert debug (num_bytes = fs_offset ss)
        (if match max_size with Some max => (max <? size)%N | None => false end then Done (ss, failure)
         else if decide (size = 0%N) then
           Done (fs_set_read ss (fs_read_buffer ss) 0 None (fs_size_vec ss), Some (Ready (Some (Ok []))))
         else
           run buffer <- zeroed size ;;
           Done (fs_set_read ss buffer 0 (Some size) (fs_size_vec ss), None))
  end.

(** The body of the loop for [ProtocolCodec::UnsignedVarint] *)
Definition fs_read_varint (debug : bool) ss (max_size : option N) : outcome (FramedSubstream S * option Frame) :=
  match fs_pending_frames ss with
  | frame :: frames => Done (fs_set_pending_frames ss frames, Some (Ready (Some (Ok frame))))
  | [] =>
      match fs_current_frame_size ss with
      | Some frame_size =>
          if fs_offset ss <=? length (fs_read_buffer ss) then
            let '(s, r) := io_poll_read (length (fs_read_buffer ss) - fs_offset ss) (fs_substream ss) in
            let ss := fs_set_io ss s in
            match r with
            | Prelude.Pending => Done (ss, Some Prelude.Pending)
            | Ready (Err _) | Ready (Ok []) => Done (ss, Some (Ready None))
            | Ready (Ok bs) =>
                let buffer := overwrite (fs_read_buffer ss) (fs_offset ss) bs in
                let offset := fs_offset ss + length bs in
                if decide (N.of_nat offset = frame_size) then
                  Done (fs_set_read ss [] 0 None (fs_size_vec ss), Some (Ready (Some (Ok buffer))))
                else Done (fs_set_read ss buffer offset (Some frame_size) (fs_size_vec ss), None)
            end
          else Panic
      | None =>
          if fs_offset ss + 1 <=? length (fs_size_vec ss) then
            let '(s, r) := io_poll_read 1 (fs_substream ss) in
            let ss := fs_set_io ss s in
            match r with
            | Prelude.Pending => Done (ss, Some Prelude.Pending)
            | Ready (Err _) | Ready (Ok []) => Done (ss, Some (Ready None))
            | Ready (Ok bs) =>
                fs_on_size debug
                  (fs_set_read ss (fs_read_buffer ss) (fs_offset ss + 1) None
                     (overwrite (fs_size_vec ss) (fs_offset ss) bs)) max_size
            end
          else Panic
      end
  end.

Definition fs_read_turn (debug : bool) ss : outcome (FramedSubstream S * option Frame) :=
  match fs_codec ss with
  | Identity payload_size => fs_read_identity ss payload_size
  | ProtocolSet.UnsignedVarint max_size => fs_read_varint debug ss max_size
  | Unspecified => Panic
  end.

(** [Stream::poll_next]; a turn of the loop that does not return reads at least a byte. [None] is a
    loop that goes on. *)
Fixpoint fs_poll_next (debug : bool) (fuel : nat) ss : outcome (option (FramedSubstream S * Frame)) :=
  match fuel with
  | 0 => Done None
  | Datatypes.S fuel =>
      run (ss, r) <- fs_read_turn debug ss ;;
      match r with
      | Some r => Done (Some (ss, r))
      | None => fs_poll_next debug fuel ss
      end
  end.

(** ** Sending *)

(** [Sink::start_send] *)
Definition fs_start_send ss (item : list byte) : outcome (FramedSubstream S * result SubstreamError unit) :=
  let len := N.of_nat (length item) in
  match fs_codec ss with
  | Identity payload_size =>
      if decide (len = payload_size) then
        Done (fs_set_out ss (fs_pending_out_frames ss ++ [item]) (fs_pending_out_bytes ss + len) (fs_pending_out_frame ss),
              Ok tt)
      else Done (ss, Err (SeIo IoPermissionDenied))
  | ProtocolSet.UnsignedVarint max_size =>
      if match max_size with Some max => (max <? len)%N | None => false end then
        Done (ss, Err (SeIo IoPermissionDenied))
      else
        let prefix := uvi_encode len in
        Done (fs_set_out ss (fs_pending_out_frames ss ++ [prefix; item])
                (fs_pending_out_bytes ss + (N.of_nat (length prefix) + len)) (fs_pending_out_frame ss), Ok tt)
  | Unspecified => Panic
  end.

(** Errors of the transport's substream, [SubstreamError::from] *)
Definition io_result (r : Poll (result IoKind unit)) : Poll (result SubstreamError unit) :=
  match r with
  | Prelude.Pending => Prelude.Pending
  | Ready (Ok u) => Ready (Ok u)
  | Ready (Err kind) => Ready (Err (SeIo kind))
  end.

(** The next frame to write: the one that was written in part, or the first one of the queue. *)
Definition fs_next_out ss : option (list byte * list (list byte)) :=
  match fs_pending_out_frame ss, fs_pending_out_frames ss with
  | Some frame, frames => Some (frame, frames)
  | None, frame :: frames => Some (frame, frames)
  | None, [] => None
  end.

(** The loop of [Sink::poll_flush]. A turn that does not return writes a byte or skips an empty frame. *)
Fixpoint fs_flush_loop (fuel : nat) ss : option (FramedSubstream S * Poll (result SubstreamError unit)) :=
  match fuel with
  | 0 => None
  | Datatypes.S fuel =>
      match fs_next_out ss with
      | None =>
          let '(s, r) := io_poll_flush (fs_substream ss) in
          Some (fs_set_io ss s, io_result r)
      | Some ([], frames) => fs_flush_loop fuel (fs_set_out ss frames (fs_pending_out_bytes ss) None)
      | Some (frame, frames) =>
          let '(s, r) := io_poll_write frame (fs_substream ss) in
          let ss := fs_set_out (fs_set_io ss s) frames (fs_pending_out_bytes ss) None in
          match r with
          | Ready (Err error) => Some (ss, Ready (Err (SeIo error)))
          | Prelude.Pending => Some (fs_set_out ss frames (fs_pending_out_bytes ss) (Some frame), Prelude.Pending)
          | Ready (Ok 0) =>
              Some (fs_set_out ss frames (fs_pending_out_bytes ss) (Some frame), Ready (Err (SeIo IoWriteZero)))
          | Ready (Ok nwritten) =>
              let rest := drop nwritten frame in
              fs_flush_loop fuel
                (fs_set_out ss frames (fs_pending_out_bytes ss - N.of_nat nwritten)
                   match rest with [] => None | _ => Some rest end)
          end
      end
  end.

(** The frames that wait to be written. *)
Definition out_frames ss : list (list byte) := option_list (fs_pending_out_frame ss) ++ fs_pending_out_frames ss.

Definition flush_measure ss : nat := length (concat (out_frames ss)) + length (out_frames ss).

(** [Sink::poll_flush] *)
Definition fs_poll_flush ss : option (FramedSubstream S * Poll (result SubstreamError unit)) :=
  fs_flush_loop (Datatypes.S (flush_measure ss)) ss.

(** [Sink::poll_ready] *)
Definition fs_poll_ready ss : option (FramedSubstream S * Poll (result SubstreamError unit)) :=
  if (BACKPRESSURE_BOUNDARY <=? fs_pending_out_bytes ss)%N then fs_poll_flush ss else Some (ss, Ready (Ok tt)).

(** [Sink::poll_close] *)
Definition fs_poll_close ss : FramedSubstream S * Poll (result SubstreamError unit) :=
  let '(s, r) := io_poll_shutdown (fs_substream ss) in (fs_set_io ss s, io_result r).

(** ** [Substream::send_framed]

    The future of a call: what remains to be written, how an error of a write is reported, and
    whether the stream is flushed at the end. *)
Record SendFuture := mkSendFuture {
  sf_rest : list (list byte);
  sf_error : IoKind → SubstreamError;
  sf_flush : bool;
}.

(** The start of the call: a frame of the wrong size is refused. *)
Definition fs_send_framed ss (bytes : list byte) : outcome (result SubstreamError SendFuture) :=
  let len := N.of_nat (length bytes) in
  match fs_codec ss with
  | Unspecified => Panic
  | Identity payload_size =>
      Done (if decide (len = payload_size) then Ok (mkSendFuture [bytes] (λ _, SeConnectionClosed) true)
            else Err (SeIo IoPermissionDenied))
  | ProtocolSet.UnsignedVarint max_size =>
      Done (if match max_size with Some max => (max <? len)%N | None => false end then Err (SeIo IoPermissionDenied)
            else match fs_type ss with
                 | StQuic => Ok (mkSendFuture [uvi_encode len; bytes] (λ _, SeConnectionClosed) false)
                 | _ => Ok (mkSendFuture [uvi_encode len; bytes] SeIo true)
                 end)
  end.

(** A poll of the future: [AsyncWriteExt::write_all] for one part after the other, then [flush]. *)
Fixpoint sf_poll (fuel : nat) (f : SendFuture) ss :
    option (SendFuture * FramedSubstream S * Poll (result SubstreamError unit)) :=
  match fuel with
  | 0 => None
  | Datatypes.S fuel =>
      match sf_rest f with
      | [] =>
          if sf_flush f then
            let '(s, r) := io_poll_flush (fs_substream ss) in Some (f, fs_set_io ss s, io_result r)
          else Some (f, ss, Ready (Ok tt))
      | [] :: parts => sf_poll fuel (mkSendFuture parts (sf_error f) (sf_flush f)) ss
      | part :: parts =>
          let '(s, r) := io_poll_write part (fs_substream ss) in
          let ss := fs_set_io ss s in
          match r with
          | Prelude.Pending => Some (f, ss, Prelude.Pending)
          | Ready (Err error) => Some (f, ss, Ready (Err (sf_error f error)))
          | Ready (Ok 0) => Some (f, ss, Ready (Err (sf_error f IoWriteZero)))
          | Ready (Ok nwritten) =>
              sf_poll fuel (mkSendFuture (drop nwritten part :: parts) (sf_error f) (sf_flush f)) ss
          end
      end
  end.
End framed.

(** ** Substream sets *)

Section set.
Context {K S : Type} `{Countable K} {O : HashOrder}.
Context (poll_next : S → outcome (S * Poll (option (result SubstreamError (list byte))))).

(** [SubstreamSet], the map *)
Notation SubstreamSet := (gmap K S).

(** [SubstreamSet::insert] *)
Definition set_insert (debug : bool) (set : SubstreamSet) (key : K) (substream : S) : outcome SubstreamSet :=
  match set !! key with
  | None => Done (<[key := substream]> set)
  | Some _ => debug_assert debug False (Done set)
  end.

(** [SubstreamSet::remove] *)
Definition set_remove (set : SubstreamSet) (key : K) : SubstreamSet * option S := (delete key set, set !! key).

(** The loop of [SubstreamSet::poll_next] *)
Fixpoint set_poll (set : SubstreamSet) (entries : list (K * S)) :
    outcome (SubstreamSet * Poll (option (K * result SubstreamError (list byte)))) :=
  match entries with
  | [] => Done (set, Prelude.Pending)
  | (key, substream) :: entries =>
      run (substream, r) <- poll_next substream ;;
      let set := <[key := substream]> set in
      match r with
      | Prelude.Pending => set_poll set entries
      | Ready (Some data) => Done (set, Ready (Some (key, data)))
      | Ready None => Done (set, Ready (Some (key, Err SeConnectionClosed)))
      end
  end.

(** [SubstreamSet::poll_next] *)
Definition set_poll_next (set : SubstreamSet) := set_poll set (map_order set).
End set.
