(* ===== verification/FramedSubstreamFacts.v ===== *)
(** * Frames arrive as they were sent

    What a substream reads and writes of a byte stream: every poll takes the bytes of at most one
    frame, the frames that are queued are written in order, and two substreams with the same
    codec, one of which reads what the other one has written, exchange frames. *)

From stdpp Require Import base tactics option list gmap relations.
From Stdlib Require Import NArith Lia Init.Byte.
From S2P Require Import Prelude ProtocolTypes AsyncIo ProtocolSet Varint FramedSubstream.

Local Open Scope litep2p_scope.
#[local] Arguments leb128 : simpl never.
#[local] Arguments zeroes : simpl never.
#[local] Arguments isize_max : simpl never.

(** ** Frames on the wire *)

Definition wire (codec : ProtocolCodec) (f : list byte) : list byte :=
  match codec with
  | Identity _ => f
  | ProtocolSet.UnsignedVarint _ => leb128 (N.of_nat (length f)) ++ f
  | Unspecified => []
  end.

(** The frames a codec allows. *)
Definition fits (codec : ProtocolCodec) (f : list byte) : Prop :=
  match codec with
  | Identity n => N.of_nat (length f) = n
  | ProtocolSet.UnsignedVarint (Some max) => (N.of_nat (length f) ≤ max)%N
  | _ => False
  end.

(** Codecs with which polling is safe: a size of at most the initial buffer, or a limit. *)
Definition codec_ok (codec : ProtocolCodec) : Prop :=
  match codec with
  | Identity n => (0 < n ≤ 1024)%N
  | ProtocolSet.UnsignedVarint (Some max) => (max ≤ isize_max)%N
  | _ => False
  end.

Definition msb (bs : list byte) : Prop := Forall (λ b, has_msb b = true) bs.

Lemma base128_shape k n : (n < 128 ^ N.of_nat (S k))%N →
  ∃ l b, base128 (S k) n = l ++ [b] ∧ msb l ∧ has_msb b = false.
Proof.
  revert n. induction k as [|k IH]; intros n Hn; cbn [base128]; destruct (N.ltb_spec n 128) as [Hs|Hs].
  1,3: exists [], (byte_of n); split_and!; [done|constructor|]; rewrite has_msb_byte_of by lia; by apply N.leb_gt.
  { change (128 ^ N.of_nat 1)%N with 128%N in Hn. lia. }
  rewrite Nat2N.inj_succ, N.pow_succ_r' in Hn.
  destruct (IH (n / 128)%N) as (l & b & He & Hl & Hb); [by apply N.Div0.div_lt_upper_bound|].
  cbn [base128] in He. rewrite He. exists (byte_of (128 + n mod 128) :: l), b. split_and!; [done| |done].
  constructor; [|done]. pose proof (N.mod_lt n 128 ltac:(done)) as Hm. revert Hm. generalize (n mod 128)%N. intros m Hm.
  rewrite has_msb_byte_of by lia. apply N.leb_le. lia.
Qed.

Lemma leb128_shape n : (n < 2 ^ 64)%N → ∃ l b, leb128 n = l ++ [b] ∧ msb l ∧ has_msb b = false.
Proof.
  intros Hn. apply (base128_shape 9). assert (2 ^ 64 ≤ 128 ^ N.of_nat 10)%N by by vm_compute. lia.
Qed.

(** The first byte without the bit ends a length. *)
Lemma msb_split l1 b1 x l2 b2 y : msb l1 → has_msb b1 = false → msb l2 → has_msb b2 = false →
  l1 ++ b1 :: x = l2 ++ b2 :: y → l1 = l2 ∧ b1 = b2 ∧ x = y.
Proof.
  intros Hl1 Hb1. revert l2. induction l1 as [|c l1 IH]; intros [|d l2] Hl2 Hb2 Heq; injection Heq as Hc Heq; [by subst|..].
  - apply Forall_cons in Hl2 as [Hd _]. congruence.
  - apply Forall_cons in Hl1 as [Hd _]. congruence.
  - apply Forall_cons in Hl1 as [_ Hl1]. apply Forall_cons in Hl2 as [_ Hl2].
    destruct (IH Hl1 l2 Hl2 Hb2 Heq) as (-> & -> & ->). by subst.
Qed.

Lemma msb_prefix l b y : has_msb b = false → ∀ m, msb m → m `prefix_of` l ++ b :: y → m `prefix_of` l.
Proof.
  intros Hb. induction l as [|c l IH]; intros [|d m] Hm Hp; try apply prefix_nil.
  - apply prefix_cons_inv_1 in Hp as ->. apply Forall_cons in Hm as [Hd _]. congruence.
  - pose proof (prefix_cons_inv_1 _ _ _ _ Hp) as ->. apply prefix_cons_inv_2 in Hp.
    apply Forall_cons in Hm as [_ Hm]. by apply prefix_cons, IH.
Qed.

Lemma isize_u64 n : (n ≤ isize_max)%N → (n < 2 ^ 64)%N.
Proof. unfold isize_max. change (2 ^ 63 - 1)%N with 9223372036854775807%N. change (2^64)%N with 18446744073709551616%N. lia. Qed.

Section facts.
Context {U : Varint.UnsignedVarint} {ULaws : UnsignedVarintLaws U}.

(** What [read_payload_size] makes of the bytes read so far. *)
Lemma read_payload_size_more l : msb l → length l < USIZE_BUFFER → read_payload_size l = Err RdNotEnoughBytes.
Proof.
  intros Hl Hlen. unfold read_payload_size. rewrite (proj2 (list_find_None _ _)).
  - by rewrite (proj2 (Nat.ltb_lt _ _)).
  - apply Forall_take. eapply Forall_impl; [exact Hl|]. intros b Hb. cbn in *. congruence.
Qed.

Lemma read_payload_size_overflow l : msb l → USIZE_BUFFER ≤ length l → read_payload_size l = Err RdOverflow.
Proof.
  intros Hl Hlen. unfold read_payload_size. rewrite (proj2 (list_find_None _ _)).
  - by rewrite (proj2 (Nat.ltb_ge _ _)).
  - apply Forall_take. eapply Forall_impl; [exact Hl|]. intros b Hb. cbn in *. congruence.
Qed.

Lemma read_payload_size_last l b : msb l → has_msb b = false → length l < USIZE_BUFFER →
  match read_payload_size (l ++ [b]) with
  | Ok (size, n) => (size < 2 ^ 64)%N ∧ leb128 size = l ++ [b] ∧ n = length (l ++ [b])
  | Err RdDecodeError => ∀ size, (size < 2 ^ 64)%N → leb128 size ≠ l ++ [b]
  | Err _ => False
  end.
Proof using ULaws.
  intros Hl Hb Hlen. unfold read_payload_size.
  assert (length (l ++ [b]) ≤ USIZE_BUFFER) as Hall by (rewrite length_app; cbn; lia).
  rewrite take_ge by done.
  assert (list_find (λ b, has_msb b = false) (l ++ [b]) = Some (length l, b)) as ->.
  { apply list_find_app_Some. right. split; [lia|]. rewrite Nat.sub_diag. split.
    - apply list_find_None. eapply Forall_impl; [exact Hl|]. intros c Hc. cbn in *. congruence.
    - cbn. by rewrite decide_True. }
  rewrite take_ge by (rewrite length_app; cbn; lia).
  destruct (uvi_decode_usize (l ++ [b])) as [[size tail]|] eqn:E.
  - apply uvi_decode_usize_sound in E as [Hs He]. destruct (leb128_shape size Hs) as (l' & b' & Hshape & Hl' & Hb').
    rewrite Hshape, <- app_assoc in He. apply (msb_split l b [] l' b' tail) in He as (-> & -> & <-); try done.
    split_and!; [done..|]. rewrite length_app. cbn. lia.
  - intros size Hs He. pose proof (uvi_decode_usize_leb128 size [] Hs) as Hd. rewrite app_nil_r, He in Hd. congruence.
Qed.

(** ** Receiving *)

Section reading.
Context {S : Type} {IO : AsyncIo S} {Laws : AsyncIoLaws S}.
Implicit Types (ss : FramedSubstream S).

(** The bytes of the current frame that were read. *)
Definition partial ss : list byte :=
  match fs_codec ss, fs_current_frame_size ss with
  | Identity _, _ => take (fs_offset ss) (fs_read_buffer ss)
  | ProtocolSet.UnsignedVarint _, None => take (fs_offset ss) (fs_size_vec ss)
  | ProtocolSet.UnsignedVarint _, Some size => leb128 size ++ take (fs_offset ss) (fs_read_buffer ss)
  | Unspecified, _ => []
  end.

Definition reading_wf ss : Prop :=
  fs_pending_frames ss = [] ∧ codec_ok (fs_codec ss) ∧
  match fs_codec ss, fs_current_frame_size ss with
  | Identity n, _ => fs_offset ss < N.to_nat n ≤ length (fs_read_buffer ss)
  | ProtocolSet.UnsignedVarint _, None =>
      length (fs_size_vec ss) = USIZE_BUFFER ∧ fs_offset ss < USIZE_BUFFER ∧ msb (take (fs_offset ss) (fs_size_vec ss))
  | ProtocolSet.UnsignedVarint (Some max), Some size =>
      length (fs_size_vec ss) = USIZE_BUFFER ∧ (size ≤ max)%N ∧ fs_offset ss < N.to_nat size ∧
      length (fs_read_buffer ss) = N.to_nat size
  | _, _ => False
  end.

(** The sending half of two substreams is the same. *)
Definition same_sending ss ss' : Prop :=
  fs_codec ss' = fs_codec ss ∧ fs_type ss' = fs_type ss ∧ fs_substream_id ss' = fs_substream_id ss ∧
  fs_pending_out_frames ss' = fs_pending_out_frames ss ∧ fs_pending_out_bytes ss' = fs_pending_out_bytes ss ∧
  fs_pending_out_frame ss' = fs_pending_out_frame ss ∧ io_output (fs_substream ss') = io_output (fs_substream ss).

(** What reading the bytes [d] does, for each answer. *)
Definition read_post ss ss' (d : list byte) (r : Poll (option (result SubstreamError (list byte)))) : Prop :=
  match r with
  | Prelude.Pending => reading_wf ss' ∧ partial ss' = partial ss ++ d
  | Ready (Some (Ok f)) => reading_wf ss' ∧ fits (fs_codec ss) f ∧ partial ss ++ d = wire (fs_codec ss) f ∧ partial ss' = []
  | Ready None | Ready (Some (Err (SeIo _))) => ∀ f, fits (fs_codec ss) f → ¬ wire (fs_codec ss) f `prefix_of` partial ss ++ d
  | Ready (Some (Err e)) => e = SeReadFailure (Some (fs_substream_id ss)) ∧
      ∀ f rest, fits (fs_codec ss) f → ¬ partial ss ++ d `prefix_of` wire (fs_codec ss) f ++ rest
  end.

Definition turn_post ss ss' (r : option (Poll (option (result SubstreamError (list byte))))) : Prop :=
  same_sending ss ss' ∧ ∃ d, io_input (fs_substream ss') = io_input (fs_substream ss) ++ d ∧
  match r with
  | Some r => read_post ss ss' d r
  | None => d ≠ [] ∧ io_ready (fs_substream ss') < io_ready (fs_substream ss) ∧ reading_wf ss' ∧ partial ss' = partial ss ++ d
  end.

(** A frame that was not read completely. *)
Lemma partial_strict ss f : reading_wf ss → fits (fs_codec ss) f → ¬ wire (fs_codec ss) f `prefix_of` partial ss.
Proof using ULaws.
  intros (_ & Hok & Hwf) Hf Hpre. unfold partial in *. destruct (fs_codec ss) as [n|[max|]|]; try done; cbn in Hok, Hf.
  - apply prefix_length in Hpre. rewrite length_take in Hpre. cbn in Hpre. lia.
  - destruct (fs_current_frame_size ss) as [size|].
    + destruct Hpre as [x Hpre]. cbn in Hpre. rewrite <- app_assoc in Hpre.
      apply leb128_app_inj in Hpre as [Hs Hpre]; [|by apply isize_u64; lia..].
      apply (f_equal length) in Hpre. rewrite length_app, length_take in Hpre. lia.
    + destruct Hwf as (_ & _ & Hm). destruct (leb128_shape (N.of_nat (length f))) as (l & b & He & _ & Hb); [by apply isize_u64; lia|].
      cbn in Hpre. rewrite He in Hpre. destruct Hpre as [x Hpre]. rewrite Hpre, <- !app_assoc in Hm.
      apply Forall_app in Hm as [_ Hm]. cbn in Hm. apply Forall_cons in Hm as [Hm _]. congruence.
Qed.

Lemma zeroed_ok n : (n ≤ isize_max)%N → zeroed n = Done (zeroes (N.to_nat n)).
Proof. intros Hn. unfold zeroed. by rewrite (proj2 (N.ltb_ge _ _)). Qed.

Lemma identity_turn ss n : fs_codec ss = Identity n → reading_wf ss →
  ∃ ss' r, fs_read_identity ss n = Done (ss', r) ∧ turn_post ss ss' r.
Proof using Laws ULaws.
  intros Hc Hall. pose proof Hall as (Hp & Hok & Hwf). rewrite Hc in Hwf, Hok. cbn in Hok. unfold fs_read_identity.
  rewrite (proj2 (Nat.leb_le _ _)), (proj2 (Nat.leb_le _ _)) by lia. cbn [andb].
  destruct (io_poll_read _ _) as [s r] eqn:E. apply io_read_law in E as [Hout Hr].
  destruct r as [|[[|b bs]|k]].
  - eexists _, _. split; [done|]. split; [by split_and!|]. exists []. rewrite app_nil_r. split; [done|]. cbn.
    unfold reading_wf, partial. cbn. rewrite Hc, app_nil_r. done.
  - eexists _, _. split; [done|]. split; [by split_and!|]. exists []. destruct Hr as (_ & Hr & _). split; [exact Hr|]. cbn. rewrite app_nil_r.
    intros f. by apply partial_strict.
  - destruct Hr as (Hlen & Hin & Hready). set (new := b :: bs) in *.
    assert (0 < length new) as Hpos by (cbn; lia). clearbody new. destruct new as [|b' bs'] eqn:En; [cbn in Hpos; lia|].
    rewrite <- En in *. clear Hpos. assert (0 < length new) as Hpos by (subst; cbn; lia). clear En b' bs'.
    cbn [fs_set_io fs_offset fs_read_buffer].
    destruct (decide (fs_offset ss + length new = N.to_nat n)) as [Hd|Hd].
    + rewrite zeroed_ok by (unfold isize_max; cbn; lia). cbn. eexists _, _. split; [done|]. split; [by split_and!|].
      exists new. split; [done|]. cbn. unfold reading_wf, partial. cbn. rewrite Hc. cbn.
      unfold zeroes. rewrite length_replicate, take_0. rewrite <- Hd, overwrite_take by lia.
      split_and!; try done; try lia. rewrite length_app, length_take. lia.
    + eexists _, _. split; [done|]. split; [by split_and!|]. exists new. split; [done|]. cbn.
      split; [intros ->; cbn in Hpos; lia|]. split; [lia|]. split.
      * unfold reading_wf. cbn. rewrite Hc, overwrite_length by lia. split_and!; try done; lia.
      * unfold partial. cbn. rewrite Hc. apply overwrite_take. lia.
  - eexists _, _. split; [done|]. split; [by split_and!|]. exists []. cbn. rewrite !app_nil_r. split; [done|]. intros f. by apply partial_strict.
Qed.

(** The length of a frame: one byte was read. *)
Lemma size_turn debug ss (max : N) b : fs_codec ss = ProtocolSet.UnsignedVarint (Some max) → fs_pending_frames ss = [] →
  (max ≤ isize_max)%N → fs_current_frame_size ss = None → length (fs_size_vec ss) = USIZE_BUFFER →
  fs_offset ss < USIZE_BUFFER → msb (take (fs_offset ss) (fs_size_vec ss)) →
  let ss1 := fs_set_read ss (fs_read_buffer ss) (fs_offset ss + 1) None (overwrite (fs_size_vec ss) (fs_offset ss) [b]) in
  ∃ ss' r, fs_on_size debug ss1 (Some max) = Done (ss', r) ∧ fs_substream ss' = fs_substream ss ∧ same_sending ss ss' ∧
    match r with
    | Some r => read_post ss ss' [b] r
    | None => reading_wf ss' ∧ partial ss' = partial ss ++ [b]
    end.
Proof using Laws ULaws.
  intros Hc Hp Hmax Hs Hv Ho Hmsb ss1. assert (same_sending ss ss1) as Hsame by by split_and!. set (l := take (fs_offset ss) (fs_size_vec ss)) in *.
  assert (length l = fs_offset ss) as Hl by (unfold l; rewrite length_take; lia).
  assert (take (fs_offset ss1) (fs_size_vec ss1) = l ++ [b]) as Ht.
  { cbn. change 1 with (length [b]) at 1. rewrite overwrite_take; [done|lia]. }
  assert (partial ss = l) as Hpart by (unfold partial; by rewrite Hc, Hs).
  assert (length (overwrite (fs_size_vec ss) (fs_offset ss) [b]) = USIZE_BUFFER) as Hov
    by (rewrite overwrite_length; cbn; lia).
  unfold fs_on_size. rewrite Ht. destruct (has_msb b) eqn:Hb.
  - assert (msb (l ++ [b])) as Hm by (apply Forall_app; split; [done|by constructor]).
    destruct (decide (length (l ++ [b]) < USIZE_BUFFER)) as [Hlt|Hge].
    + rewrite read_payload_size_more by done. eexists _, _. split; [done|]. split; [done|]. split; [by split_and!|].
      rewrite length_app in Hlt. cbn in Hlt. rewrite Hpart. unfold reading_wf, partial. cbn. rewrite Hc. cbn. cbn in Ht.
      rewrite Ht. split_and!; try done; lia.
    + rewrite read_payload_size_overflow by (done || lia). eexists _, _. split; [done|]. split; [done|].
      split; [by split_and!|]. cbn. split; [done|]. rewrite Hpart, Hc. cbn. intros f rest Hf Hpre.
      destruct (leb128_shape (N.of_nat (length f))) as (l' & b' & He & Hl' & Hb'); [by apply isize_u64; lia|].
      rewrite He, <- !app_assoc in Hpre. apply (msb_prefix l' b') in Hpre; [|done|done].
      apply prefix_length in Hpre. pose proof (leb128_length (N.of_nat (length f))) as Hlen.
      rewrite He, !length_app in Hlen. rewrite length_app in Hpre, Hge. cbn in *. unfold USIZE_BUFFER in *. lia.
  - pose proof (read_payload_size_last l b Hmsb Hb ltac:(lia)) as Hr.
    destruct (read_payload_size (l ++ [b])) as [[size n]|[]]; [|done|done|].
    + destruct Hr as (Hsize & Hleb & ->).
      assert (∀ m : outcome (FramedSubstream S * option (Poll (option (result SubstreamError (list byte))))),
        debug_assert debug (length (l ++ [b]) = fs_offset ss1) m = m) as Hda.
      { intros m. unfold debug_assert. destruct debug; [|done]. rewrite decide_True; [done|]. rewrite length_app. cbn. lia. }
      rewrite Hda. destruct (N.ltb_spec max size) as [Hbig|Hsmall].
      { eexists _, _. split; [done|]. split; [done|]. split; [by split_and!|]. cbn. split; [done|].
        rewrite Hpart, Hc, <- Hleb. cbn. intros f rest Hf [x Hpre].
        rewrite <- !app_assoc in Hpre. apply leb128_app_inj in Hpre as [Heq _]; [|by apply isize_u64; lia|done]. lia. }
      destruct (decide (size = 0%N)) as [->|Hnz].
      * eexists _, _. split; [done|]. split; [done|]. split; [by split_and!|]. cbn. rewrite Hpart, <- Hleb.
        unfold reading_wf, partial. cbn. rewrite Hc. cbn. split_and!; try done; try lia. constructor.
      * rewrite zeroed_ok by lia. cbn. eexists _, _. split; [done|]. split; [done|]. split; [by split_and!|].
        rewrite Hpart, <- Hleb. unfold reading_wf, partial. cbn. rewrite Hc. cbn. rewrite app_nil_r.
        unfold zeroes. rewrite length_replicate. split_and!; try done; lia.
    + eexists _, _. split; [done|]. split; [done|]. split; [by split_and!|]. cbn. split; [done|].
      rewrite Hpart, Hc. cbn. intros f rest Hf [x Hpre].
      destruct (leb128_shape (N.of_nat (length f))) as (l' & b' & He & Hl' & Hb'); [by apply isize_u64; lia|].
      apply (Hr (N.of_nat (length f))); [by apply isize_u64; lia|].
      rewrite He, <- !app_assoc in Hpre. cbn in Hpre. apply msb_split in Hpre as (-> & -> & _); done.
Qed.

Lemma varint_turn debug ss (max : N) : fs_codec ss = ProtocolSet.UnsignedVarint (Some max) → reading_wf ss →
  ∃ ss' r, fs_read_varint debug ss (Some max) = Done (ss', r) ∧ turn_post ss ss' r.
Proof using Laws ULaws.
  intros Hc Hall. pose proof Hall as (Hp & Hok & Hwf). rewrite Hc in Hwf, Hok. cbn in Hok. unfold fs_read_varint. rewrite Hp.
  destruct (fs_current_frame_size ss) as [size|] eqn:Hs.
  - destruct Hwf as (Hv & Hmax & Hoff & Hlen). rewrite (proj2 (Nat.leb_le _ _)) by lia.
    destruct (io_poll_read _ _) as [s r] eqn:E. apply io_read_law in E as [Hout Hr].
    assert (same_sending ss (fs_set_io ss s)) as Hsame by by split_and!.
    destruct r as [|[[|b bs]|k]].
    2,4: eexists _, _; split; [done|]; split; [done|]; exists []; rewrite app_nil_r; (split; [|intros f; rewrite app_nil_r; by apply partial_strict]);
      first [exact Hr|destruct Hr as (_ & Hr & _); rewrite app_nil_r in Hr; exact Hr].
    + eexists _, _. split; [done|]. split; [done|]. exists []. rewrite app_nil_r. split; [done|].
      cbn. unfold reading_wf, partial. cbn. rewrite Hc, Hs, app_nil_r. done.
    + destruct Hr as (Hl & Hin & Hready). cbn [fs_set_io fs_offset fs_read_buffer fs_size_vec].
      remember (b :: bs) as new eqn:En. assert (0 < length new) as Hpos by (subst; cbn; lia). clear En b bs.
      assert (partial ss ++ new = leb128 size ++ take (fs_offset ss + length new) (overwrite (fs_read_buffer ss) (fs_offset ss) new))
        as Hpart by (unfold partial; rewrite Hc, Hs, overwrite_take, app_assoc by lia; done).
      assert (length (overwrite (fs_read_buffer ss) (fs_offset ss) new) = N.to_nat size) as Hbuf by (rewrite overwrite_length; lia).
      destruct (decide (N.of_nat (fs_offset ss + length new) = size)) as [Hd|Hd]; eexists _, _; (split; [done|]);
        (split; [by split_and!|]); exists new; (split; [done|]); cbn.
      * rewrite Hpart, take_ge by lia. unfold reading_wf, partial. cbn. rewrite Hc. cbn. rewrite Hbuf, N2Nat.id.
        split_and!; try done; try (unfold USIZE_BUFFER; lia). constructor.
      * rewrite Hpart. unfold reading_wf, partial. cbn. rewrite Hc. split_and!; try done; try lia.
        intros ->. cbn in Hpos. lia.
  - destruct Hwf as (Hv & Hoff & Hm). rewrite (proj2 (Nat.leb_le _ _)) by lia.
    destruct (io_poll_read _ _) as [s r] eqn:E. apply io_read_law in E as [Hout Hr].
    assert (same_sending ss (fs_set_io ss s)) as Hsame by by split_and!.
    destruct r as [|[[|b bs]|k]].
    2,4: eexists _, _; split; [done|]; split; [done|]; exists []; rewrite app_nil_r; (split; [|intros f; rewrite app_nil_r; by apply partial_strict]);
      first [exact Hr|destruct Hr as (_ & Hr & _); rewrite app_nil_r in Hr; exact Hr].
    + eexists _, _. split; [done|]. split; [done|]. exists []. rewrite app_nil_r. split; [done|].
      cbn. unfold reading_wf, partial. cbn. rewrite Hc, Hs, app_nil_r. done.
    + destruct Hr as (Hl & Hin & Hready). destruct bs; [|cbn in Hl; lia].
      destruct (size_turn debug (fs_set_io ss s) max b) as (ss' & r & He & Hio & Hsame' & Hpost); try done.
      rewrite He. eexists _, _. split; [done|]. split.
      { destruct Hsame as (? & ? & ? & ? & ? & ? & ?), Hsame' as (? & ? & ? & ? & ? & ? & ?). split_and!; congruence. }
      exists [b]. rewrite Hio. split; [done|]. destruct r as [r|]; [|by cbn in *; split_and!; [done|lia|..]; apply Hpost].
      exact Hpost.
Qed.

Lemma read_turn_ok debug ss : reading_wf ss → ∃ ss' r, fs_read_turn debug ss = Done (ss', r) ∧ turn_post ss ss' r.
Proof using Laws ULaws.
  intros Hwf. pose proof Hwf as (_ & Hok & _). unfold fs_read_turn.
  destruct (fs_codec ss) as [n|[max|]|] eqn:Hc; [by apply identity_turn|by apply varint_turn|done..].
Qed.

Lemma same_sending_trans ss1 ss2 ss3 : same_sending ss1 ss2 → same_sending ss2 ss3 → same_sending ss1 ss3.
Proof. intros (? & ? & ? & ? & ? & ? & ?) (? & ? & ? & ? & ? & ? & ?). split_and!; congruence. Qed.

(** A poll returns once it has read what is there. *)
Lemma poll_next_total debug fuel ss : reading_wf ss → io_ready (fs_substream ss) < fuel →
  ∃ ss' r, fs_poll_next debug fuel ss = Done (Some (ss', r)).
Proof using Laws ULaws.
  revert ss. induction fuel as [|fuel IH]; intros ss Hwf Hf; [lia|]. cbn.
  destruct (read_turn_ok debug ss Hwf) as (ss1 & [r|] & -> & Hsame & d & Hin & Hpost); cbn; [by eauto|].
  apply IH; [apply Hpost|]. destruct Hpost. lia.
Qed.

(** A poll reads at most one frame. *)
Lemma poll_next_post debug fuel ss ss' r : reading_wf ss → fs_poll_next debug fuel ss = Done (Some (ss', r)) →
  ∃ d, same_sending ss ss' ∧ io_input (fs_substream ss') = io_input (fs_substream ss) ++ d ∧ read_post ss ss' d r.
Proof using Laws ULaws.
  revert ss. induction fuel as [|fuel IH]; intros ss Hwf Heq; cbn in Heq; [done|].
  destruct (read_turn_ok debug ss Hwf) as (ss1 & [r1|] & He & Hsame & d & Hin & Hpost); rewrite He in Heq; cbn in Heq;
    [simplify_eq; eauto|].
  destruct Hpost as (_ & _ & Hwf1 & Hpart). destruct (IH ss1 Hwf1 Heq) as (d' & Hsame' & Hin' & Hpost').
  exists (d ++ d'). split; [by eapply same_sending_trans|]. split; [by rewrite Hin', Hin, app_assoc|].
  destruct Hsame as (Hc & _ & Hid & _). unfold read_post in *. rewrite Hc, Hid, Hpart in Hpost'. by rewrite app_assoc.
Qed.

(** ** Sending *)

(** The receiving half of two substreams is the same. *)
Definition same_reading ss ss' : Prop :=
  fs_codec ss' = fs_codec ss ∧ fs_type ss' = fs_type ss ∧ fs_substream_id ss' = fs_substream_id ss ∧
  fs_read_buffer ss' = fs_read_buffer ss ∧ fs_offset ss' = fs_offset ss ∧ fs_pending_frames ss' = fs_pending_frames ss ∧
  fs_current_frame_size ss' = fs_current_frame_size ss ∧ fs_size_vec ss' = fs_size_vec ss ∧
  io_input (fs_substream ss') = io_input (fs_substream ss).

Lemma same_reading_trans ss1 ss2 ss3 : same_reading ss1 ss2 → same_reading ss2 ss3 → same_reading ss1 ss3.
Proof. intros (? & ? & ? & ? & ? & ? & ? & ? & ?) (? & ? & ? & ? & ? & ? & ? & ? & ?). split_and!; congruence. Qed.

Lemma same_reading_wf ss ss' : same_reading ss ss' → reading_wf ss → reading_wf ss' ∧ partial ss' = partial ss.
Proof.
  intros (Hc & _ & _ & Hb & Ho & Hp & Hs & Hv & _) Hwf. unfold reading_wf, partial in *.
  by rewrite Hc, Hb, Ho, Hp, Hs, Hv.
Qed.

(** The bytes that are written, those that wait, and their number. *)
Definition stream_out ss : list byte := io_output (fs_substream ss) ++ concat (out_frames ss).
Definition counted ss : Prop := fs_pending_out_bytes ss = N.of_nat (length (concat (out_frames ss))).

(** What a poll writes: nothing is lost and nothing is reordered, unless a write fails. *)
Definition flush_post ss ss' (r : Poll (result SubstreamError unit)) : Prop :=
  same_reading ss ss' ∧
  match r with
  | Ready (Err _) => True
  | _ => stream_out ss' = stream_out ss ∧ (counted ss → counted ss') ∧
         length (concat (out_frames ss')) ≤ length (concat (out_frames ss)) ∧ (r = Ready (Ok tt) → out_frames ss' = [])
  end.

Lemma next_out_frames ss : fs_next_out ss =
  match out_frames ss with [] => None | frame :: frames => Some (frame, frames) end.
Proof. unfold fs_next_out, out_frames. destruct (fs_pending_out_frame ss), (fs_pending_out_frames ss); done. Qed.

Lemma flush_ok fuel ss : flush_measure ss < fuel →
  ∃ ss' r, fs_flush_loop fuel ss = Some (ss', r) ∧ flush_post ss ss' r.
Proof using Laws.
  unfold flush_measure. revert ss. induction fuel as [|fuel IH]; intros ss Hf; [lia|]. cbn [fs_flush_loop].
  rewrite next_out_frames. destruct (out_frames ss) as [|[|b frame] frames] eqn:Eo.
  - destruct (io_poll_flush _) as [s r] eqn:E. apply io_flush_law in E as [Hi Ho]. eexists _, _. split; [done|].
    split; [by split_and!|]. unfold stream_out, counted. change (out_frames (fs_set_io ss s)) with (out_frames ss).
    rewrite Eo. cbn. rewrite Ho. by destruct r as [|[[]|]].
  - destruct (IH (fs_set_out ss frames (fs_pending_out_bytes ss) None)) as (ss' & r & -> & Hpost); [cbn in *; lia|].
    eexists _, _. split; [done|]. destruct Hpost as [Hsame Hpost]. split; [exact Hsame|].
    unfold stream_out, counted in *. rewrite Eo. by destruct r as [|[]].
  - destruct (io_poll_write _ _) as [s r] eqn:E. apply io_write_law in E as [Hi Ho]. destruct r as [|[[|n]|k]].
    + eexists _, _. split; [done|]. split; [by split_and!|]. unfold stream_out, counted. rewrite Eo. cbn. by rewrite Ho.
    + eexists _, _. split; [done|]. by split; [by split_and!|].
    + destruct Ho as [Hn Ho]. remember (b :: frame) as f eqn:Ef. cbn zeta.
      match goal with |- context [fs_flush_loop fuel ?x] => set (ss1 := x) end.
      assert (concat (out_frames ss1) = drop (Datatypes.S n) f ++ concat frames ∧ length (out_frames ss1) ≤ Datatypes.S (length frames))
        as [Hcat Hlen] by (subst ss1; unfold out_frames; cbn; destruct (drop _ f); cbn; split; (done || lia)).
      assert (length f = Datatypes.S n + length (drop (Datatypes.S n) f)) as Hf' by (rewrite length_drop; lia).
      destruct (IH ss1) as (ss' & r & -> & Hsame & Hpost); [rewrite Hcat, !length_app in *; cbn in Hf; rewrite length_app in Hf; lia|].
      assert (same_reading ss ss1) as Hsame1 by by split_and!.
      assert (stream_out ss1 = stream_out ss) as Hout.
      { unfold stream_out. rewrite Hcat, Eo. cbn. by rewrite Ho, <- !app_assoc, (app_assoc (take _ _)), take_drop. }
      assert (counted ss → counted ss1) as Hcount.
      { unfold counted. rewrite Hcat, Eo. cbn. rewrite !length_app. intros ->. lia. }
      eexists _, _. split; [done|]. split; [by eapply same_reading_trans|].
      rewrite Hcat, length_app, Hout in Hpost. rewrite Eo. cbn [concat]. rewrite length_app.
      destruct r as [|[]]; [|..|done]; destruct Hpost as (? & ? & ? & ?); split_and!; auto; lia.
    + eexists _, _. split; [done|]. by split; [by split_and!|].
Qed.

Lemma poll_flush_ok ss : ∃ ss' r, fs_poll_flush ss = Some (ss', r) ∧ flush_post ss ss' r.
Proof using Laws. apply flush_ok. lia. Qed.

Lemma poll_ready_ok ss : counted ss → ∃ ss' r, fs_poll_ready ss = Some (ss', r) ∧ same_reading ss ss' ∧
  match r with
  | Ready (Err _) => True
  | _ => stream_out ss' = stream_out ss ∧ counted ss' ∧
         (r = Ready (Ok tt) → length (concat (out_frames ss')) < N.to_nat BACKPRESSURE_BOUNDARY) ∧
         length (concat (out_frames ss')) ≤ length (concat (out_frames ss))
  end.
Proof using Laws.
  intros Hcount. unfold fs_poll_ready. destruct (N.leb_spec BACKPRESSURE_BOUNDARY (fs_pending_out_bytes ss)) as [Hb|Hb].
  - destruct (poll_flush_ok ss) as (ss' & r & -> & Hsame & Hpost). exists ss', r. split; [done|]. split; [done|].
    destruct r as [|[[]|]]; [|..|done]; destruct Hpost as (? & ? & ? & He); split_and!; auto; [done|].
    intros _. rewrite He by done. cbn. unfold BACKPRESSURE_BOUNDARY. lia.
  - exists ss, (Ready (Ok tt)). split; [done|]. split; [by split_and!|]. split_and!; [done|done| |done].
    intros _. unfold counted in Hcount. lia.
Qed.

Lemma start_send_ok ss item : codec_ok (fs_codec ss) →
  ∃ ss' r, fs_start_send ss item = Done (ss', r) ∧ same_reading ss ss' ∧
    match r with
    | Ok _ => fits (fs_codec ss) item ∧ stream_out ss' = stream_out ss ++ wire (fs_codec ss) item ∧ (counted ss → counted ss') ∧
        length (concat (out_frames ss')) = length (concat (out_frames ss)) + length (wire (fs_codec ss) item)
    | Err _ => ss' = ss ∧ ¬ fits (fs_codec ss) item
    end.
Proof using Laws ULaws.
  intros Hok. unfold fs_start_send. unfold stream_out, counted.
  assert (∀ fs n, out_frames (fs_set_out ss (fs_pending_out_frames ss ++ fs) n (fs_pending_out_frame ss)) = out_frames ss ++ fs)
    as Hof by (intros; unfold out_frames; cbn; by rewrite app_assoc).
  destruct (fs_codec ss) as [n|[max|]|] eqn:Hc; try done; cbn in Hok.
  - destruct (decide (N.of_nat (length item) = n)) as [Hn|Hn]; eexists _, _; (split; [done|]).
    + split; [by split_and!|]. rewrite Hof, concat_app. cbn. rewrite app_nil_r, !length_app, app_assoc.
      split_and!; [done|done| |done]. intros ->. lia.
    + by split; [by split_and!|].
  - destruct (N.ltb_spec max (N.of_nat (length item))) as [Hm|Hm]; eexists _, _; (split; [done|]).
    + split; [by split_and!|]. split; [done|]. cbn. lia.
    + split; [by split_and!|]. rewrite Hof, concat_app. cbn. rewrite app_nil_r, uvi_encode_leb128 by (apply isize_u64; lia).
      rewrite !length_app, app_assoc. split_and!; [done|done| |done]. intros ->. lia.
Qed.

(** [Substream::send_framed] writes what it was given, and leaves the queue alone. *)
Lemma sf_poll_post fuel f ss f' ss' r : sf_poll fuel f ss = Some (f', ss', r) → same_reading ss ss' ∧
  out_frames ss' = out_frames ss ∧ fs_pending_out_bytes ss' = fs_pending_out_bytes ss ∧
  match r with
  | Ready (Err _) => True
  | _ => io_output (fs_substream ss') ++ concat (sf_rest f') = io_output (fs_substream ss) ++ concat (sf_rest f) ∧
         (r = Ready (Ok tt) → sf_rest f' = [])
  end.
Proof using Laws.
  revert f ss. induction fuel as [|fuel IH]; intros f ss Heq; cbn in Heq; [done|].
  destruct (sf_rest f) as [|[|b part] parts] eqn:Er.
  - destruct (sf_flush f); [|simplify_eq; rewrite Er; by split; [by split_and!|]].
    destruct (io_poll_flush _) as [s r0] eqn:E. apply io_flush_law in E as [Hi Ho]. simplify_eq. rewrite Er. cbn. rewrite Ho.
    split; [by split_and!|]. split; [done|]. split; [done|]. by destruct r0 as [|[]].
  - apply IH in Heq. exact Heq.
  - destruct (io_poll_write _ _) as [s r0] eqn:E. apply io_write_law in E as [Hi Ho].
    destruct r0 as [|[[|n]|k]]; simplify_eq; try (by split; [by split_and!|]).
    + split; [by split_and!|]. split; [done|]. split; [done|]. cbn. by rewrite Er, Ho.
    + destruct Ho as [Hn Ho]. apply IH in Heq as (Hsame & Hout & Hb & Hpost).
      assert (same_reading ss (fs_set_io ss s)) as Hsame1 by by split_and!.
      split; [by eapply same_reading_trans|]. split; [done|]. split; [done|]. cbn -[take drop] in Hpost.
      rewrite Ho, <- !app_assoc, (app_assoc (take _ _)), take_drop in Hpost. by destruct r as [|[]].
Qed.

Lemma sf_poll_total fuel f ss : length (concat (sf_rest f)) + length (sf_rest f) < fuel → sf_poll fuel f ss ≠ None.
Proof using Laws.
  revert f ss. induction fuel as [|fuel IH]; intros f ss Hf; [lia|]. cbn.
  destruct (sf_rest f) as [|[|b part] parts] eqn:Er; cbn in Hf.
  - destruct (sf_flush f); [|done]. by destruct (io_poll_flush _).
  - apply IH. cbn. lia.
  - destruct (io_poll_write _ _) as [s r] eqn:E. apply io_write_law in E as [_ Ho]. destruct r as [|[[|n]|k]]; try done.
    apply IH. destruct Ho as [Hn _]. cbn [sf_rest concat length] in *. rewrite length_app in *. rewrite length_drop. cbn in *. lia.
Qed.

Lemma send_framed_ok ss item : codec_ok (fs_codec ss) →
  match fs_send_framed ss item with
  | Done (Ok f) => fits (fs_codec ss) item ∧ concat (sf_rest f) = wire (fs_codec ss) item
  | Done (Err _) => ¬ fits (fs_codec ss) item
  | Panic => False
  end.
Proof using ULaws.
  intros Hok. unfold fs_send_framed. destruct (fs_codec ss) as [n|[max|]|]; try done; cbn in Hok.
  - destruct (decide _); [|done]. cbn. by rewrite app_nil_r.
  - destruct (N.ltb_spec max (N.of_nat (length item))) as [Hm|Hm]; [cbn; lia|].
    destruct (fs_type ss); cbn; rewrite app_nil_r, uvi_encode_leb128 by (apply isize_u64; lia); done.
Qed.

(** ** The use of a substream

    A substream with the frames that were sent and received over it, and the call of
    [send_framed] that is under way. The protocol polls for frames, sends frames through the
    sink, which it asks whether it is ready first, or with [send_framed], while nothing is
    queued; in between, the transport does its part. An operation that fails ends the use. *)
Record Conversation := mkConversation {
  cv_substream : FramedSubstream S;
  cv_sent : list (list byte);
  cv_received : list (list byte);
  cv_future : option SendFuture;
}.

Definition Conversation_new (id : SubstreamId) (type : SubstreamType) (s : S) (codec : ProtocolCodec) : Conversation :=
  mkConversation (FramedSubstream_new id type s codec) [] [] None.

Inductive conv_op (debug : bool) : Conversation → Conversation → Prop :=
| Cv_wait fuel ss sent received ss' : fs_poll_next debug fuel ss = Done (Some (ss', Prelude.Pending)) →
    conv_op debug (mkConversation ss sent received None) (mkConversation ss' sent received None)
| Cv_receive fuel ss sent received ss' f : fs_poll_next debug fuel ss = Done (Some (ss', Ready (Some (Ok f)))) →
    conv_op debug (mkConversation ss sent received None) (mkConversation ss' sent (received ++ [f]) None)
| Cv_not_ready ss sent received ss' : fs_poll_ready ss = Some (ss', Prelude.Pending) →
    conv_op debug (mkConversation ss sent received None) (mkConversation ss' sent received None)
| Cv_feed ss sent received ss1 item ss' : fs_poll_ready ss = Some (ss1, Ready (Ok tt)) →
    fs_start_send ss1 item = Done (ss', Ok tt) →
    conv_op debug (mkConversation ss sent received None) (mkConversation ss' (sent ++ [item]) received None)
| Cv_flush ss sent received ss' r : fs_poll_flush ss = Some (ss', r) → (∀ e, r ≠ Ready (Err e)) →
    conv_op debug (mkConversation ss sent received None) (mkConversation ss' sent received None)
| Cv_close ss sent received ss' r : fs_poll_close ss = (ss', r) →
    conv_op debug (mkConversation ss sent received None) (mkConversation ss' sent received None)
| Cv_send_framed ss sent received item f : out_frames ss = [] → fs_send_framed ss item = Done (Ok f) →
    conv_op debug (mkConversation ss sent received None) (mkConversation ss (sent ++ [item]) received (Some f))
| Cv_sending fuel ss sent received f f' ss' : sf_poll fuel f ss = Some (f', ss', Prelude.Pending) →
    conv_op debug (mkConversation ss sent received (Some f)) (mkConversation ss' sent received (Some f'))
| Cv_sent_framed fuel ss sent received f f' ss' : sf_poll fuel f ss = Some (f', ss', Ready (Ok tt)) →
    conv_op debug (mkConversation ss sent received (Some f)) (mkConversation ss' sent received None).

Inductive conv_step (debug : bool) : Conversation → Conversation → Prop :=
| Cv_op c c' : conv_op debug c c' → conv_step debug c c'
| Cv_transport ss sent received fut s : io_input s = io_input (fs_substream ss) → io_output s = io_output (fs_substream ss) →
    conv_step debug (mkConversation ss sent received fut) (mkConversation (fs_set_io ss s) sent received fut).

(** The bytes that wait to be written. *)
Definition cv_pending (c : Conversation) : list byte :=
  concat (out_frames (cv_substream c)) ++ concat (from_option sf_rest [] (cv_future c)).

(** The longest frame on the wire. *)
Definition frame_limit (codec : ProtocolCodec) : nat :=
  match codec with
  | Identity n => N.to_nat n
  | ProtocolSet.UnsignedVarint (Some max) => 10 + N.to_nat max
  | _ => 0
  end.

Definition frames_on_wire (codec : ProtocolCodec) (frames : list (list byte)) : list byte := concat (wire codec <$> frames).

Record conv_inv (codec : ProtocolCodec) (c : Conversation) : Prop := {
  ci_codec : fs_codec (cv_substream c) = codec;
  ci_wf : reading_wf (cv_substream c);
  ci_in : io_input (fs_substream (cv_substream c)) = frames_on_wire codec (cv_received c) ++ partial (cv_substream c);
  ci_fits_in : Forall (fits codec) (cv_received c);
  ci_out : io_output (fs_substream (cv_substream c)) ++ cv_pending c = frames_on_wire codec (cv_sent c);
  ci_fits_out : Forall (fits codec) (cv_sent c);
  ci_counted : counted (cv_substream c);
  ci_future : cv_future c ≠ None → out_frames (cv_substream c) = [];
  ci_bound : length (concat (out_frames (cv_substream c))) < N.to_nat BACKPRESSURE_BOUNDARY + frame_limit codec;
}.

Lemma frames_on_wire_snoc codec fs f : frames_on_wire codec (fs ++ [f]) = frames_on_wire codec fs ++ wire codec f.
Proof. unfold frames_on_wire. rewrite fmap_app, concat_app. cbn. by rewrite app_nil_r. Qed.

Lemma wire_length codec f : fits codec f → length (wire codec f) ≤ frame_limit codec.
Proof.
  destruct codec as [n|[max|]|]; try done; cbn; intros Hf; [lia|]. rewrite length_app.
  pose proof (leb128_length (N.of_nat (length f))). lia.
Qed.

Lemma conv_inv_new codec id type s : codec_ok codec → io_input s = [] → io_output s = [] →
  conv_inv codec (Conversation_new id type s codec).
Proof.
  intros Hok Hi Ho. split; cbn; try done.
  - unfold reading_wf. cbn. split; [done|]. split; [done|]. destruct codec as [n|[max|]|]; try done; cbn in *.
    + unfold zeroes. rewrite length_replicate. lia.
    + unfold USIZE_BUFFER. split_and!; [done|lia|constructor].
  - rewrite Hi. unfold partial. cbn. destruct codec as [|[]|]; done.
  - unfold cv_pending. cbn. by rewrite Ho.
  - unfold BACKPRESSURE_BOUNDARY. lia.
Qed.

(** Steps that only send and steps that only receive. *)
Lemma inv_receive codec ss sent received ss' d received' :
  conv_inv codec (mkConversation ss sent received None) → same_sending ss ss' → reading_wf ss' →
  io_input (fs_substream ss') = io_input (fs_substream ss) ++ d →
  frames_on_wire codec received' ++ partial ss' = frames_on_wire codec received ++ partial ss ++ d →
  Forall (fits codec) received' → conv_inv codec (mkConversation ss' sent received' None).
Proof.
  intros [Hc Hwf Hin Hfi Hout Hfo Hn Hfut Hb] (Hc' & _ & _ & Hf & Hbytes & Hfr & Ho) Hwf' Hin' Hw Hfi'. cbn in *.
  assert (out_frames ss' = out_frames ss) as Hof by (unfold out_frames; by rewrite Hf, Hfr).
  split; cbn; try done; rewrite ?Hof; try done.
  - congruence.
  - by rewrite Hin', Hin, <- app_assoc.
  - unfold cv_pending in *. cbn in *. by rewrite Hof, Ho.
  - unfold counted in *. by rewrite Hof, Hbytes.
Qed.

Lemma inv_send codec ss sent received fut ss' sent' fut' :
  conv_inv codec (mkConversation ss sent received fut) → same_reading ss ss' →
  io_output (fs_substream ss') ++ cv_pending (mkConversation ss' sent' received fut') = frames_on_wire codec sent' →
  Forall (fits codec) sent' → counted ss' → (fut' ≠ None → out_frames ss' = []) →
  length (concat (out_frames ss')) < N.to_nat BACKPRESSURE_BOUNDARY + frame_limit codec →
  conv_inv codec (mkConversation ss' sent' received fut').
Proof.
  intros [Hc Hwf Hin Hfi Hout Hfo Hn Hfut Hb] Hsame Hout' Hfo' Hn' Hfut' Hb'. cbn in *.
  destruct (same_reading_wf _ _ Hsame Hwf) as [Hwf' Hpart]. destruct Hsame as (Hc' & _ & _ & _ & _ & _ & _ & _ & Hi).
  split; cbn; try done; congruence.
Qed.

Lemma stream_out_pending ss sent received : io_output (fs_substream ss) ++ cv_pending (mkConversation ss sent received None) = stream_out ss.
Proof. unfold cv_pending, stream_out. cbn. by rewrite app_nil_r. Qed.

Lemma conv_op_inv debug codec c c' : conv_op debug c c' → conv_inv codec c → conv_inv codec c'.
Proof using Laws ULaws.
  intros Hstep Hinv. pose proof Hinv as [Hc Hwf Hin Hfi Hout Hfo Hn Hfut Hb]. destruct Hstep as
    [fuel ss sent received ss' Hp|fuel ss sent received ss' f Hp|ss sent received ss' Hp|ss sent received ss1 item ss' Hr Hs
    |ss sent received ss' r Hp Hne|ss sent received ss' r Hp|ss sent received item f Hq Hs|fuel ss sent received f f' ss' Hp
    |fuel ss sent received f f' ss' Hp];
    cbn [cv_substream cv_sent cv_received cv_future] in *; rewrite ?stream_out_pending in Hout.
  - apply poll_next_post in Hp as (d & Hsame & Hd & Hwf' & Hpart); [|done].
    eapply inv_receive; try done. by rewrite Hpart.
  - apply poll_next_post in Hp as (d & Hsame & Hd & Hwf' & Hfit & Hpart & Hnil); [|done]. rewrite Hc in *.
    eapply inv_receive; try done.
    + by rewrite Hnil, app_nil_r, frames_on_wire_snoc, Hpart.
    + apply Forall_app. split; [done|by constructor].
  - destruct (poll_ready_ok ss Hn) as (ss2 & r & He & Hsame & Hpost). rewrite Hp in He. simplify_eq.
    destruct Hpost as (Hso & Hn' & _ & Hlen). eapply inv_send; try done; [|lia]. by rewrite stream_out_pending, Hso.
  - destruct (poll_ready_ok ss Hn) as (ss2 & r & He & Hsame & Hpost). rewrite Hr in He. simplify_eq.
    destruct Hpost as (Hso & Hn' & Hlt & _). assert (fs_codec ss2 = fs_codec ss) as Hc2 by apply Hsame.
    destruct (start_send_ok ss2 item) as (ss3 & r & He & Hsame3 & Hpost); [rewrite Hc2; apply Hwf|].
    rewrite Hs in He. simplify_eq. destruct Hpost as (Hfit & Hso3 & Hn3 & Hl3). rewrite Hc2 in *.
    specialize (Hlt eq_refl). pose proof (wire_length _ _ Hfit).
    eapply inv_send; [done|by eapply same_reading_trans|..]; try done; [|by apply Forall_app_2, Forall_singleton|auto|lia].
    by rewrite stream_out_pending, Hso3, Hso, frames_on_wire_snoc, Hout.
  - destruct (poll_flush_ok ss) as (ss2 & r2 & He & Hsame & Hpost). rewrite Hp in He. simplify_eq.
    destruct r2 as [|[[]|e]]; [| |by destruct (Hne e)]; destruct Hpost as (Hso & Hn' & Hlen & _);
      (eapply inv_send; try done; [|auto|lia]); by rewrite stream_out_pending, Hso.
  - unfold fs_poll_close in Hp. destruct (io_poll_shutdown _) as [s r1] eqn:E. apply io_shutdown_law in E as [Hi Ho]. simplify_eq.
    eapply inv_send; [done|by split_and!|..]; try done. rewrite stream_out_pending. unfold stream_out in *. cbn. by rewrite Ho.
  - pose proof (send_framed_ok ss item) as Hok. rewrite Hs in Hok. destruct Hok as [Hfit Hcat]; [apply Hwf|].
    rewrite Hc in *. eapply inv_send; [done|by split_and!|..]; try done; [|by apply Forall_app_2, Forall_singleton].
    unfold cv_pending, stream_out in *. cbn. rewrite Hq in *. cbn in *. by rewrite Hcat, frames_on_wire_snoc, <- Hout, app_nil_r.
  - apply sf_poll_post in Hp as (Hsame & Hof & Hbytes & Hout' & _). specialize (Hfut ltac:(done)).
    eapply inv_send; try done; rewrite ?Hof; try done.
    + unfold cv_pending in *. cbn in *. rewrite Hof, Hfut in *. cbn in *. by rewrite Hout'.
    + unfold counted. by rewrite Hof, Hbytes.
  - apply sf_poll_post in Hp as (Hsame & Hof & Hbytes & Hout' & Hnil). specialize (Hfut ltac:(done)).
    eapply inv_send; try done; rewrite ?Hof; try done.
    + unfold cv_pending in *. cbn in *. rewrite Hof, Hfut in *. cbn in *. rewrite Hnil in Hout' by done. by rewrite <- Hout, <- Hout'.
    + unfold counted. by rewrite Hof, Hbytes.
Qed.

Lemma conv_step_inv debug codec c c' : conv_step debug c c' → conv_inv codec c → conv_inv codec c'.
Proof using Laws ULaws.
  intros [? ? Hop|ss sent received fut s Hi Ho] Hinv; [by eapply conv_op_inv|]. pose proof Hinv as [_ _ _ _ Hout Hfo Hn Hfut Hb].
  eapply inv_send; [done|by split_and!|..]; try done. cbn in *. by rewrite Ho.
Qed.

(** ** What the operations do to the stream *)

Lemma on_size_io debug ss max ss' r : fs_on_size debug ss max = Done (ss', r) →
  fs_substream ss' = fs_substream ss ∧ r ≠ Some (Ready None).
Proof. unfold fs_on_size, debug_assert, zeroed. intros Heq. repeat (case_match; cbn in Heq); by simplify_eq. Qed.

(** A turn of the loop reads once. *)
Lemma read_turn_io debug ss ss' r : reading_wf ss → fs_read_turn debug ss = Done (ss', r) →
  ∃ n a, 0 < n ∧ io_poll_read n (fs_substream ss) = (fs_substream ss', a) ∧
    (r = Some (Ready None) → a = Ready (Ok []) ∨ ∃ kind, a = Ready (Err kind)).
Proof.
  intros (Hp & Hok & Hwf) Heq. unfold fs_read_turn, fs_read_identity, fs_read_varint in Heq.
  destruct (fs_codec ss) as [n|[max|]|]; try done; [|rewrite Hp in Heq; destruct (fs_current_frame_size ss)].
  - destruct (_ && _) in Heq; [|done]. destruct (io_poll_read _ _) as [s a] eqn:E.
    exists (N.to_nat n - fs_offset ss), a. split; [lia|]. unfold zeroed in Heq.
    destruct a as [|[[|]|]]; [..|destruct (decide _) in Heq; [destruct (_ <? _)%N in Heq; cbn in Heq|]|]; simplify_eq; (split; [exact E|intros; simplify_eq; eauto]).
  - destruct (_ <=? _) in Heq; [|done]. destruct (io_poll_read _ _) as [s a] eqn:E.
    exists (length (fs_read_buffer ss) - fs_offset ss), a. split; [lia|].
    destruct a as [|[[|]|]]; [..|destruct (decide _) in Heq|]; simplify_eq; (split; [exact E|intros; simplify_eq; eauto]).
  - destruct (_ <=? _) in Heq; [|done]. destruct (io_poll_read _ _) as [s a] eqn:E. exists 1, a. split; [lia|].
    destruct a as [|[[|]|]]; [..|apply on_size_io in Heq as [-> Hr]; by split|]; simplify_eq; (split; [exact E|intros; simplify_eq; eauto]).
Qed.

Lemma poll_next_io debug fuel ss ss' r : reading_wf ss → fs_poll_next debug fuel ss = Done (Some (ss', r)) →
  ∃ s n a, rtc io_op (fs_substream ss) s ∧ 0 < n ∧ io_poll_read n s = (fs_substream ss', a) ∧
    (r = Ready None → a = Ready (Ok []) ∨ ∃ kind, a = Ready (Err kind)).
Proof using Laws ULaws.
  revert ss. induction fuel as [|fuel IH]; intros ss Hwf Heq; cbn in Heq; [done|].
  destruct (read_turn_ok debug ss Hwf) as (ss1 & r1 & He & _ & d & _ & Hpost). rewrite He in Heq. cbn in Heq.
  apply read_turn_io in He as (n & a & Hn & Hio & Hend); [|done]. destruct r1 as [r1|].
  - simplify_eq. exists (fs_substream ss), n, a. split; [done|]. split; [done|]. split; [done|]. intros ->. auto.
  - destruct (IH ss1) as (s & m & a' & Hrun & Hm & Hio' & Hend'); [apply Hpost|done|].
    exists s, m, a'. split; [|done]. eapply rtc_l; [by eapply Io_read|done].
Qed.

Lemma flush_io fuel ss ss' r : fs_flush_loop fuel ss = Some (ss', r) → rtc io_op (fs_substream ss) (fs_substream ss').
Proof.
  revert ss. induction fuel as [|fuel IH]; intros ss Heq; cbn in Heq; [done|].
  destruct (fs_next_out ss) as [[[|b frame] frames]|].
  - by apply IH in Heq.
  - destruct (io_poll_write _ _) as [s a] eqn:E. apply Io_write in E.
    destruct a as [|[[|]|]]; simplify_eq; try (by apply rtc_once). apply IH in Heq. by eapply rtc_l.
  - destruct (io_poll_flush _) as [s a] eqn:E. apply Io_flush in E. simplify_eq. by apply rtc_once.
Qed.

Lemma sf_poll_io fuel f ss f' ss' r : sf_poll fuel f ss = Some (f', ss', r) → rtc io_op (fs_substream ss) (fs_substream ss').
Proof.
  revert f ss. induction fuel as [|fuel IH]; intros f ss Heq; cbn in Heq; [done|].
  destruct (sf_rest f) as [|[|b part] parts].
  - destruct (sf_flush f); [|by simplify_eq]. destruct (io_poll_flush _) as [s a] eqn:E. apply Io_flush in E. simplify_eq.
    by apply rtc_once.
  - by apply IH in Heq.
  - destruct (io_poll_write _ _) as [s a] eqn:E. apply Io_write in E.
    destruct a as [|[[|]|]]; simplify_eq; try (by apply rtc_once). apply IH in Heq. by eapply rtc_l.
Qed.

(** An operation of the protocol reaches the stream through its operations only. *)
Lemma conv_op_io debug codec c c' : conv_inv codec c → conv_op debug c c' →
  rtc io_op (fs_substream (cv_substream c)) (fs_substream (cv_substream c')).
Proof using Laws ULaws.
  intros [_ Hwf _ _ _ _ _ _ _] Hop. destruct Hop as
    [fuel ss sent received ss' Hp|fuel ss sent received ss' f Hp|ss sent received ss' Hp|ss sent received ss1 item ss' Hr Hs
    |ss sent received ss' r Hp Hne|ss sent received ss' r Hp|ss sent received item f Hq Hs|fuel ss sent received f f' ss' Hp
    |fuel ss sent received f f' ss' Hp]; cbn [cv_substream] in *.
  1,2: apply poll_next_io in Hp as (s & n & a & Hrun & _ & Hio & _); [|done]; eapply rtc_r; [done|by eapply Io_read].
  - unfold fs_poll_ready in Hp. case_match; [by apply flush_io in Hp|done].
  - assert (fs_substream ss' = fs_substream ss1) as ->.
    { unfold fs_start_send in Hs. repeat case_match; by simplify_eq. }
    unfold fs_poll_ready in Hr. case_match; [by apply flush_io in Hr|by simplify_eq].
  - by apply flush_io in Hp.
  - unfold fs_poll_close in Hp. destruct (io_poll_shutdown _) as [s a] eqn:E. apply Io_shutdown in E. simplify_eq. by apply rtc_once.
  - done.
  - by apply sf_poll_io in Hp.
  - by apply sf_poll_io in Hp.
Qed.

(** ** Frames from bytes *)

Lemma wire_inj codec f g x y : codec_ok codec → fits codec f → fits codec g → wire codec f ++ x = wire codec g ++ y → f = g ∧ x = y.
Proof using ULaws.
  destruct codec as [n|[max|]|]; try done; cbn; intros Hok Hf Hg Heq; [apply app_inj_1 in Heq; [done|lia]|].
  rewrite <- !app_assoc in Heq. apply leb128_app_inj in Heq as [Hl Heq]; [|by apply isize_u64; lia..].
  apply app_inj_1 in Heq; [done|lia].
Qed.

Lemma wire_not_nil codec f : codec_ok codec → fits codec f → wire codec f ≠ [].
Proof.
  destruct codec as [n|[max|]|]; try done; cbn; intros Hok Hf Heq; [subst; cbn in Hok; lia|].
  apply app_eq_nil in Heq as [Heq _]. by apply leb128_not_nil in Heq.
Qed.

Lemma wire_frames_prefix codec fs gs p : codec_ok codec → Forall (fits codec) fs → Forall (fits codec) gs →
  frames_on_wire codec fs ++ p `prefix_of` frames_on_wire codec gs → fs `prefix_of` gs.
Proof using ULaws.
  intros Hok Hfs. revert gs. induction Hfs as [|f fs Hf Hfs IH]; intros gs Hgs [x Hx]; [apply prefix_nil|].
  unfold frames_on_wire in Hx. rewrite fmap_cons in Hx. cbn [concat] in Hx. rewrite <- !app_assoc in Hx.
  destruct Hgs as [|g gs Hg Hgs].
  - cbn in Hx. symmetry in Hx. apply app_eq_nil in Hx as [Hx _]. by apply wire_not_nil in Hx.
  - rewrite fmap_cons in Hx. cbn [concat] in Hx. apply wire_inj in Hx as [-> Hx]; [|done..].
    apply prefix_cons, IH; [done|]. exists x. by rewrite <- app_assoc.
Qed.

Lemma frames_equal codec fs gs p : codec_ok codec → Forall (fits codec) fs → Forall (fits codec) gs →
  (∀ f, fits codec f → ¬ wire codec f `prefix_of` p) →
  frames_on_wire codec fs ++ p = frames_on_wire codec gs → fs = gs.
Proof using ULaws.
  intros Hok Hfs Hgs Hp Heq. destruct (wire_frames_prefix codec fs gs p) as [[|g rest] ->]; try done; [by rewrite Heq|by rewrite app_nil_r|].
  unfold frames_on_wire in Heq. rewrite fmap_app, concat_app in Heq. apply app_inv_head in Heq as ->.
  apply Forall_app in Hgs as [_ Hgs]. apply Forall_cons in Hgs as [Hg _]. destruct (Hp g Hg). cbn. by apply prefix_app_r.
Qed.

Lemma some_frame codec : codec_ok codec → ∃ f, fits codec f.
Proof.
  destruct codec as [n|[max|]|]; try done; intros _; [|exists []; cbn; lia]. exists (zeroes (N.to_nat n)). cbn.
  unfold zeroes. rewrite length_replicate. lia.
Qed.

(** What follows the frames that were read is the beginning of a frame. *)
Lemma next_frame codec fs gs p : codec_ok codec → Forall (fits codec) fs → Forall (fits codec) gs →
  frames_on_wire codec fs ++ p `prefix_of` frames_on_wire codec gs → ∃ f rest, fits codec f ∧ p `prefix_of` wire codec f ++ rest.
Proof using ULaws.
  intros Hok Hfs Hgs Hpre. destruct (wire_frames_prefix codec fs gs p Hok Hfs Hgs Hpre) as [more ->].
  unfold frames_on_wire in Hpre. rewrite fmap_app, concat_app in Hpre. apply prefix_app_inv in Hpre.
  apply Forall_app in Hgs as [_ Hgs]. destruct Hgs as [|g more Hg _].
  - destruct (some_frame codec Hok) as [f Hf]. exists f, []. split; [done|]. apply prefix_nil_inv in Hpre as ->. apply prefix_nil.
  - exists g, (concat (wire codec <$> more)). done.
Qed.

Lemma conversation_inv debug codec id type s c : codec_ok codec → io_input s = [] → io_output s = [] →
  rtc (conv_step debug) (Conversation_new id type s codec) c → conv_inv codec c.
Proof using Laws ULaws.
  intros Hok Hi Ho Hrun. by apply (rtc_invariant (conv_step debug) (conv_inv codec) (conv_step_inv debug codec) _ _ Hrun (conv_inv_new _ _ _ _ Hok Hi Ho)).
Qed.

(** Two substreams, of which [b] has read the beginning of what [a] has written. *)
Lemma conv_delivers debug codec a b : codec_ok codec → conv_inv codec a → conv_inv codec b →
  let written := io_output (fs_substream (cv_substream a)) in
  let read := io_input (fs_substream (cv_substream b)) in
  read `prefix_of` written →
  cv_received b `prefix_of` cv_sent a ∧
  (read = written → cv_pending a = [] → cv_received b = cv_sent a) ∧
  ∀ fuel, io_ready (fs_substream (cv_substream b)) < fuel →
    ∃ ss' r, fs_poll_next debug fuel (cv_substream b) = Done (Some (ss', r)) ∧
      (io_input (fs_substream ss') `prefix_of` written → ∀ e, r = Ready (Some (Err e)) → ∃ kind, e = SeIo kind).
Proof using Laws ULaws.
  intros Hok Ha Hb written read Hpre.
  pose proof Ha as [_ _ _ _ Houta Hfa _ _ _]. pose proof Hb as [Hcb Hwb Hinb Hfb _ _ _ _ _].
  fold written in Houta. fold read in Hinb. split_and!.
  - eapply wire_frames_prefix; [done|done|done|]. rewrite <- Hinb, <- Houta. by apply prefix_app_r.
  - intros Heq Hpend. rewrite Hpend, app_nil_r in Houta. eapply frames_equal; [done|done|done| |by rewrite <- Hinb, Heq].
    intros f Hf. rewrite <- Hcb in *. by apply partial_strict.
  - intros fuel Hfuel. destruct (poll_next_total debug fuel _ Hwb Hfuel) as (ss' & r & He). exists ss', r. split; [done|].
    intros Hpre' e ->. apply poll_next_post in He as (d & _ & Hd & Hpost); [|done]. cbn in Hpost.
    destruct e; try (by destruct Hpost); [by eexists|]. destruct Hpost as [_ Hno]. exfalso.
    rewrite Hd in Hpre'. fold read in Hpre'. rewrite Hinb, <- app_assoc in Hpre'.
    destruct (next_frame codec (cv_received b) (cv_sent a) (partial (cv_substream b) ++ d)) as (f & rest & Hf & Hnext); try done.
    { etrans; [exact Hpre'|]. rewrite <- Houta. by apply prefix_app_r. }
    rewrite Hcb in Hno. by apply (Hno f rest).
Qed.

(** C12. Frames arrive as they were sent, for the codecs with which polling is safe ([codec_ok]):
    the identity codec with frames of 1 to 1024 bytes, or the varint codec with a limit. A
    protocol reads, feeds the sink, flushes, closes, and sends with [send_framed] when no frame
    waits in the sink, and goes on until an operation fails or the end of the stream is
    reported. Take such runs of two substreams with the same codec. If one of them has read the beginning of what the other one has written, then the frames it
    has returned are the first ones that were sent, and all of them once everything is written and
    read. Its next poll returns without panicking, and as long as what that poll reads is
    still the beginning of what was written, it reports no other error than one of the transport. *)
Theorem frames_delivered debug codec ida idb ta tb sa sb a b :
  codec_ok codec → io_input sa = [] → io_output sa = [] → io_input sb = [] → io_output sb = [] →
  rtc (conv_step debug) (Conversation_new ida ta sa codec) a → rtc (conv_step debug) (Conversation_new idb tb sb codec) b →
  let written := io_output (fs_substream (cv_substream a)) in
  let read := io_input (fs_substream (cv_substream b)) in
  read `prefix_of` written →
  cv_received b `prefix_of` cv_sent a ∧
  (read = written → cv_pending a = [] → cv_received b = cv_sent a) ∧
  ∀ fuel, io_ready (fs_substream (cv_substream b)) < fuel →
    ∃ ss' r, fs_poll_next debug fuel (cv_substream b) = Done (Some (ss', r)) ∧
      (io_input (fs_substream ss') `prefix_of` written → ∀ e, r = Ready (Some (Err e)) → ∃ kind, e = SeIo kind).
Proof using Laws ULaws.
  intros Hok Hia Hoa Hib Hob Ha Hb. apply conversation_inv in Ha; [|done..]. apply conversation_inv in Hb; [|done..].
  by apply (conv_delivers debug codec).
Qed.

(** The sink holds back, for the same codecs: at no time do more bytes wait to be written than the boundary and one frame, and
    their number is known exactly. *)
Theorem pending_bytes_bounded debug codec id type s c : codec_ok codec → io_input s = [] → io_output s = [] →
  rtc (conv_step debug) (Conversation_new id type s codec) c →
  length (concat (out_frames (cv_substream c))) < N.to_nat BACKPRESSURE_BOUNDARY + frame_limit codec ∧
  fs_pending_out_bytes (cv_substream c) = N.of_nat (length (concat (out_frames (cv_substream c)))).
Proof using Laws ULaws. intros Hok Hi Ho Hrun. apply conversation_inv in Hrun as [_ _ _ _ _ _ Hn _ Hb]; done. Qed.
(** ** Operations, for concrete runs *)

Definition cv_feed (c : Conversation) (item : list byte) : option Conversation :=
  match fs_poll_ready (cv_substream c) with
  | Some (ss, Ready (Ok tt)) =>
      match fs_start_send ss item with
      | Done (ss, Ok tt) => Some (mkConversation ss (cv_sent c ++ [item]) (cv_received c) None)
      | _ => None
      end
  | _ => None
  end.
Definition cv_flush (c : Conversation) : option Conversation :=
  match fs_poll_flush (cv_substream c) with
  | Some (ss, Ready (Ok tt)) => Some (mkConversation ss (cv_sent c) (cv_received c) None)
  | _ => None
  end.
Definition cv_receive (c : Conversation) : option Conversation :=
  match fs_poll_next true 9 (cv_substream c) with
  | Done (Some (ss, Ready (Some (Ok f)))) => Some (mkConversation ss (cv_sent c) (cv_received c ++ [f]) None)
  | _ => None
  end.

Lemma cv_feed_step c item c' : cv_future c = None → cv_feed c item = Some c' → conv_op true c c' ∧ cv_future c' = None.
Proof.
  destruct c as [ss st re fu]. cbn. intros -> Hf. unfold cv_feed in Hf. cbn [cv_substream cv_sent cv_received] in Hf.
  repeat case_match; simplify_eq. split; [by eapply Cv_feed|done].
Qed.
Lemma cv_flush_step c c' : cv_future c = None → cv_flush c = Some c' → conv_op true c c' ∧ cv_future c' = None.
Proof.
  destruct c as [ss st re fu]. cbn. intros -> Hf. unfold cv_flush in Hf. cbn [cv_substream cv_sent cv_received] in Hf.
  repeat case_match; simplify_eq. split; [by eapply Cv_flush|done].
Qed.
Lemma cv_receive_step c c' : cv_future c = None → cv_receive c = Some c' → conv_op true c c' ∧ cv_future c' = None.
Proof.
  destruct c as [ss st re fu]. cbn. intros -> Hf. unfold cv_receive in Hf. cbn [cv_substream cv_sent cv_received] in Hf.
  repeat case_match; simplify_eq. split; [by eapply Cv_receive|done].
Qed.

End reading.
End facts.

(** A codec with frames larger than the first buffer cannot be used: the first poll panics. *)
Lemma large_identity_panics {S : Type} {IO : AsyncIo S} {U : Varint.UnsignedVarint} debug fuel id type (s : S) n : (1024 < n)%N →
  fs_poll_next debug (Datatypes.S fuel) (FramedSubstream_new id type s (Identity n)) = Panic.
Proof.
  intros Hn. cbn. unfold fs_read_identity. cbn [FramedSubstream_new fs_offset fs_read_buffer].
  unfold zeroes. rewrite length_replicate, (proj2 (Nat.leb_gt (N.to_nat n) 1024)); [by rewrite andb_false_r|].
  change 1024 with (N.to_nat 1024). lia.
Qed.

(** ** A run *)
Module FramedRun.

#[local] Existing Instance leb128_codec.
#[local] Existing Instance leb128_codec_laws.

Definition codec := ProtocolSet.UnsignedVarint (Some 8%N).
Definition frames : list (list byte) := [[x61; x62]; []].
Definition on_wire : list byte := [x02; x61; x62; x00].

Definition start (bytes : list byte) : Conversation (S := Pipe) := Conversation_new 0%N StTcp (mkPipe bytes 1 [] []) codec.

Definition sent : option (Conversation (S := Pipe)) :=
  cv_feed (start []) [x61; x62] ≫= λ c, cv_feed c [] ≫= cv_flush.
Definition received : option (Conversation (S := Pipe)) := cv_receive (start on_wire) ≫= cv_receive.

Lemma sent_run c : sent = Some c → rtc (conv_step true) (start []) c.
Proof.
  unfold sent. destruct (cv_feed (start []) _) as [c1|] eqn:E1; [|done]. cbn [mbind option_bind]. destruct (cv_feed c1 _) as [c2|] eqn:E2; [|done].
  cbn [mbind option_bind]. intros E3. apply cv_feed_step in E1 as [H1 F1]; [|done]. apply cv_feed_step in E2 as [H2 F2]; [|done].
  apply cv_flush_step in E3 as [H3 _]; [|done]. do 2 (eapply rtc_l; [by apply Cv_op|]). by apply rtc_once, Cv_op.
Qed.
Lemma received_run c : received = Some c → rtc (conv_step true) (start on_wire) c.
Proof.
  unfold received. destruct (cv_receive (start on_wire)) as [c1|] eqn:E1; [|done]. cbn [mbind option_bind]. intros E2.
  apply cv_receive_step in E1 as [H1 F1]; [|done]. apply cv_receive_step in E2 as [H2 _]; [|done].
  eapply rtc_l; [by apply Cv_op|]. by apply rtc_once, Cv_op.
Qed.

(** The two ends, as far as they are observed. *)
Lemma sent_state : (λ c, (cv_sent c, io_output (fs_substream (cv_substream c)), cv_pending c)) <$> sent = Some (frames, on_wire, []).
Proof. by vm_compute. Qed.
Lemma received_state : (λ c, io_input (fs_substream (cv_substream c))) <$> received = Some on_wire.
Proof. by vm_compute. Qed.
End FramedRun.

Lemma frames_delivered_witness : cv_received <$> FramedRun.received = Some FramedRun.frames.
Proof.
  pose proof FramedRun.sent_state as Hs. pose proof FramedRun.received_state as Hr.
  destruct FramedRun.sent as [a|] eqn:Ea; [|done]. destruct FramedRun.received as [b|] eqn:Eb; [|done].
  apply FramedRun.sent_run in Ea. apply FramedRun.received_run in Eb. cbn [fmap option_fmap option_map] in *.
  injection Hs as Hs Ho Hp. injection Hr as Hr. rewrite <- Hs. f_equal.
  apply (frames_delivered (ULaws := leb128_codec_laws) (Laws := pipe_laws) true FramedRun.codec 0%N 0%N StTcp StTcp
    (mkPipe [] 1 [] []) (mkPipe FramedRun.on_wire 1 [] [])); try done.
  - exists []. rewrite app_nil_r. exact (eq_trans Ho (eq_sym Hr)).
  - exact (eq_trans Hr (eq_sym Ho)).
Defined.

Lemma pending_bytes_bounded_witness : bool_decide (is_Some FramedRun.sent) = true ∧
  ∀ c, FramedRun.sent = Some c →
    length (concat (out_frames (cv_substream c))) < N.to_nat BACKPRESSURE_BOUNDARY + frame_limit FramedRun.codec.
Proof.
  split; [by vm_compute|]. intros c Hc. apply FramedRun.sent_run in Hc.
  by apply (pending_bytes_bounded (ULaws := leb128_codec_laws) (Laws := pipe_laws) true FramedRun.codec 0%N StTcp
    (mkPipe [] 1 [] [])).
Defined.
