(* ===== verification/FramedWebRtc.v ===== *)
(** * Frames over WebRTC

    The substreams of protocols at the two ends of a WebRTC data channel: [substream/mod.rs] over
    [transport/webrtc/substream.rs], from the frames a protocol sends to the messages on the wire
    and back. *)

From stdpp Require Import base tactics option list gmap relations.
From Stdlib Require Import NArith Lia Init.Byte.
From S2P Require Import Prelude ProtocolTypes AsyncIo ProtocolSet Varint WebRtcSubstream WebRtcFraming WebRtcStream.
From S2P Require Import FramedSubstream FramedSubstreamFacts.

Local Open Scope litep2p_scope.
#[local] Arguments data : simpl never.

(** ** An end of a data channel as a stream

    A substream that its protocol has dropped cannot be used. *)
#[export] Instance side_io : AsyncIo Side := {|
  io_poll_read n s :=
    if sd_sub s then
      let '(e, r) := ws_poll_read n (sd_end s) in
      (mkSide e (sd_handle s) true (sd_written s) (sd_read s ++ match r with Ready (Ok bs) => bs | _ => [] end), r)
    else (s, Ready (Err IoOther));
  io_poll_write buf s :=
    if sd_sub s then
      let '(e, r) := ws_poll_write buf (sd_end s) in
      (mkSide e (sd_handle s) true (sd_written s ++ match r with Ready (Ok n) => take n buf | _ => [] end) (sd_read s), r)
    else (s, Ready (Err IoOther));
  io_poll_flush s := (s, Ready (if sd_sub s then ws_poll_flush (sd_end s) else Err IoOther));
  io_poll_shutdown s :=
    if sd_sub s then
      let '(e, r) := ws_poll_shutdown (sd_end s) in (mkSide e (sd_handle s) true (sd_written s) (sd_read s), r)
    else (s, Ready (Err IoOther));
|}.

(** The bytes that have arrived and are not read. *)
Definition unread_bytes (e : WsEndpoint) : nat := length (ws_read_buffer e) + length (data (chan_queue (ws_inbound e))).

Lemma ws_read_some n e e' bs : ws_poll_read n e = (e', Ready (Ok bs)) →
  length bs ≤ n ∧ unread_bytes e' + length bs ≤ unread_bytes e.
Proof.
  unfold ws_poll_read, unread_bytes, poll_recv. intros Heq. destruct (ws_read_buffer e) as [|b buf] eqn:Eb.
  2: { injection Heq as <- <-. cbn [ws_set_read_buffer ws_read_buffer ws_inbound]. rewrite length_take, length_drop.
       destruct n; cbn [length]; lia. }
  destruct (chan_queue (ws_inbound e)) as [|m q] eqn:Eq.
  { destruct (chan_tx _ && chan_rx _); [done|]. destruct (decide _); [done|]. injection Heq as <- <-. cbn. rewrite Eb, Eq. cbn. lia. }
  unfold data at 2. rewrite fmap_cons. cbn [concat]. rewrite length_app. fold (data q).
  destruct (_ <? length (msg_payload m)); [done|]. destruct (length (msg_payload m) <=? n) eqn:En; injection Heq as <- <-;
    cbn [ws_set_read_buffer ws_set_inbound ws_read_buffer ws_inbound chan_queue]; rewrite Eb; cbn [app length].
  - apply Nat.leb_le in En. lia.
  - apply Nat.leb_gt in En. rewrite length_take, length_drop. lia.
Qed.

Lemma ws_write_some bs e e' n : ws_poll_write bs e = (e', Ready (Ok n)) → n ≤ length bs.
Proof.
  unfold ws_poll_write. pose proof (Nat.le_min_r WEBRTC_MAX_FRAME_SIZE (length bs)) as Hle.
  remember (Nat.min WEBRTC_MAX_FRAME_SIZE (length bs)) as k eqn:Hk. clear Hk.
  destruct (chan_tx _); [|done]. destruct (try_send _ _) as [c [|[]]]; [|done..]. by intros [= _ <-].
Qed.

#[export] Instance side_laws : AsyncIoLaws Side.
Proof.
  refine {| io_input := sd_read; io_output := sd_written; io_ready s := unread_bytes (sd_end s) |}.
  - intros n [e h [] w rd] s' r; cbn; [|by intros [= <- <-]]. destruct (ws_poll_read n e) as [e' a] eqn:E. intros [= <- <-].
    split; [done|]. destruct a as [|[bs|]]; cbn; [by rewrite app_nil_r| |by rewrite app_nil_r].
    by destruct (ws_read_some _ _ _ _ E).
  - intros bs [e h [] w rd] s' r; cbn; [|by intros [= <- <-]]. destruct (ws_poll_write bs e) as [e' a] eqn:E. intros [= <- <-].
    split; [done|]. destruct a as [|[n|]]; cbn; [by rewrite app_nil_r| |by rewrite app_nil_r]. split; [|done].
    by eapply ws_write_some.
  - by intros s s' r [= <- <-].
  - intros [e h [] w rd] s' r; cbn; [|by intros [= <- <-]]. destruct (ws_poll_shutdown e). by intros [= <- <-].
Defined.

Section system.
Context `{U : Varint.UnsignedVarint} `{I : VarintInsufficient} `{P : WebRtcSchema}.

(** What the stream's operations do at an end, without the wire. *)
Lemma io_op_side s s' : io_op s s' → s' = s ∨ ∀ wire, side_step s wire s' wire [].
Proof.
  intros [n [e h [] w rd] ? r Heq|bs [e h [] w rd] ? r Heq|? ? r Heq|[e h [] w rd] ? r Heq]; cbn in Heq; simplify_eq; auto.
  - destruct (ws_poll_read n e) eqn:E. simplify_eq. right. intros wire. by eapply St_read.
  - destruct (ws_poll_write bs e) eqn:E. simplify_eq. right. intros wire. by eapply St_write.
  - destruct (ws_poll_shutdown e) eqn:E. simplify_eq. right. intros wire. by eapply St_shutdown.
Qed.

(** Two protocols and the messages under way between them. *)
Record FramedEnds := mkFramedEnds {
  fe_left : Conversation (S := Side);
  fe_right : Conversation (S := Side);
  fe_to_right : list WsMessage;
  fe_to_left : list WsMessage;
}.

Definition cv_side (c : Conversation (S := Side)) : Side := fs_substream (cv_substream c).
Definition cv_set_side (c : Conversation (S := Side)) (s : Side) : Conversation :=
  mkConversation (fs_set_io (cv_substream c) s) (cv_sent c) (cv_received c) (cv_future c).

Definition fe_ends (p : FramedEnds) : Ends := mkEnds (cv_side (fe_left p)) (cv_side (fe_right p)) (fe_to_right p) (fe_to_left p).

Definition FramedEnds_new (id1 id2 : SubstreamId) (codec : ProtocolCodec) : FramedEnds :=
  mkFramedEnds (Conversation_new id1 StWebRtc Side_new codec) (Conversation_new id2 StWebRtc Side_new codec) [] [].

(** The protocols use their substreams; the connections poll the handles and deliver what arrives. *)
Inductive framed_step (debug : bool) : FramedEnds → FramedEnds → Prop :=
| Fe_left c c' d lr rl : conv_op debug c c' → framed_step debug (mkFramedEnds c d lr rl) (mkFramedEnds c' d lr rl)
| Fe_right c d d' lr rl : conv_op debug d d' → framed_step debug (mkFramedEnds c d lr rl) (mkFramedEnds c d' lr rl)
| Fe_connection p p' s1 s2 : ends_step (fe_ends p) (fe_ends p') →
    p' = mkFramedEnds (cv_set_side (fe_left p) s1) (cv_set_side (fe_right p) s2) (fe_to_right p') (fe_to_left p') →
    sd_read s1 = sd_read (cv_side (fe_left p)) → sd_written s1 = sd_written (cv_side (fe_left p)) →
    sd_read s2 = sd_read (cv_side (fe_right p)) → sd_written s2 = sd_written (cv_side (fe_right p)) →
    framed_step debug p p'.

Definition framed_inv (codec : ProtocolCodec) (p : FramedEnds) : Prop :=
  conv_inv codec (fe_left p) ∧ conv_inv codec (fe_right p) ∧ rtc ends_step Ends_new (fe_ends p).

Lemma left_ops s s' r lr rl : rtc io_op s s' → rtc ends_step (mkEnds s r lr rl) (mkEnds s' r lr rl).
Proof.
  induction 1 as [s|s s1 s' Hop _ IH]; [done|]. destruct (io_op_side _ _ Hop) as [->|Hs]; [done|].
  eapply rtc_l; [by apply (E_left s r lr rl s1 rl [])|]. by rewrite app_nil_r.
Qed.

Lemma right_ops s s' l lr rl : rtc io_op s s' → rtc ends_step (mkEnds l s lr rl) (mkEnds l s' lr rl).
Proof.
  induction 1 as [s|s s1 s' Hop _ IH]; [done|]. destruct (io_op_side _ _ Hop) as [->|Hs]; [done|].
  eapply rtc_l; [by apply (E_right l s lr rl s1 lr [])|]. by rewrite app_nil_r.
Qed.

Context `{!UnsignedVarintLaws U} `{!VarintInsufficientLaws U I} `{!WebRtcSchemaLaws P}.

Lemma conv_set_side codec c s : sd_read s = sd_read (cv_side c) → sd_written s = sd_written (cv_side c) →
  conv_inv codec c → conv_inv codec (cv_set_side c s).
Proof using UnsignedVarintLaws0. intros Hr Hw. destruct c. by apply (conv_step_inv true), Cv_transport. Qed.

Lemma framed_step_inv debug codec p p' : framed_step debug p p' → framed_inv codec p → framed_inv codec p'.
Proof using UnsignedVarintLaws0.
  intros [c c' d lr rl Hop|c d d' lr rl Hop|p1 p2 s1 s2 Hstep Hp' Hr1 Hw1 Hr2 Hw2] (Hl & Hr & Hrun); cbn in *.
  - pose proof (conv_op_io _ _ _ _ Hl Hop) as Hio. split; [by eapply conv_op_inv|]. split; [done|].
    etrans; [exact Hrun|]. by apply left_ops.
  - pose proof (conv_op_io _ _ _ _ Hr Hop) as Hio. split; [done|]. split; [by eapply conv_op_inv|].
    etrans; [exact Hrun|]. by apply right_ops.
  - split_and!; [rewrite Hp'; by apply conv_set_side..|]. by eapply rtc_r.
Qed.

(** From one protocol to the other: the frames that were received are the first ones that were
    sent, and they are all of them when nothing waits to be written at the sender and the receiver
    has read as many bytes as were written; a poll returns, without panicking, and reports nothing
    but errors of the transport; and when it reports the end of the stream, the channel was not
    reset and nothing waits to be written at the sender, then every frame that was sent has
    been received. *)
Definition frames_arrive (debug : bool) (a b : Conversation (S := Side)) : Prop :=
  cv_received b `prefix_of` cv_sent a ∧
  (length (sd_read (cv_side b)) = length (sd_written (cv_side a)) → cv_pending a = [] → cv_received b = cv_sent a) ∧
  ∀ fuel, unread_bytes (sd_end (cv_side b)) < fuel →
    ∃ ss' r, fs_poll_next debug fuel (cv_substream b) = Done (Some (ss', r)) ∧
      (∀ e, r = Ready (Some (Err e)) → ∃ kind, e = SeIo kind) ∧
      (r = Ready None → shared_get (ws_channel (sd_end (fs_substream ss'))) ≠ ChReset → cv_pending a = [] →
       cv_received b = cv_sent a).

Lemma io_op_sub s s' : io_op s s' → sd_sub s' = sd_sub s.
Proof.
  intros [n [e h [] w rd] ? r Heq|bs [e h [] w rd] ? r Heq|? ? r Heq|[e h [] w rd] ? r Heq]; cbn in Heq; simplify_eq; try done;
    case_match; by simplify_eq.
Qed.

Lemma io_ops_sub s s' : rtc io_op s s' → sd_sub s' = sd_sub s.
Proof. induction 1 as [|s s1 s' Hop _ IH]; [done|]. by rewrite IH, (io_op_sub _ _ Hop). Qed.

Lemma reached_inv p : rtc ends_step Ends_new p → ends_inv p.
Proof using UnsignedVarintLaws0 WebRtcSchemaLaws0.
  intros Hrun. apply (rtc_invariant ends_step ends_inv ends_step_inv _ _ Hrun ends_inv_init).
Qed.

(** A read fails on a channel that was reset only. *)
Lemma ws_read_error n e e' kind : Forall (λ m, plain m ∧ msg_payload m ≠ []) (chan_queue (ws_inbound e)) →
  ws_poll_read n e = (e', Ready (Err kind)) → shared_get (ws_channel e') = ChReset.
Proof.
  intros Hq Heq. unfold ws_poll_read, poll_recv in Heq. destruct (ws_read_buffer e); [|done].
  destruct (chan_queue (ws_inbound e)) as [|m q].
  - destruct (chan_tx _ && chan_rx _); [done|]. destruct (decide _); [|done]. by injection Heq as <- _.
  - apply Forall_cons in Hq as [[[_ Hlen] _] _]. rewrite (proj2 (Nat.ltb_ge _ _)) in Heq by done.
    by destruct (_ <=? n).
Qed.

Section arrive.
Context (debug : bool) (codec : ProtocolCodec) (a b : Conversation (S := Side)) (lr rl : list WsMessage).
Context (Hok : codec_ok codec) (Ha : conv_inv codec a) (Hb : conv_inv codec b).
Context (Hrun : rtc ends_step Ends_new (mkEnds (cv_side a) (cv_side b) lr rl)) (Hsub : sd_sub (cv_side b) = true).

(** Every stage of an operation at one end is a state of the two ends. *)
Lemma stage_inv s : rtc io_op (cv_side b) s → ends_inv (mkEnds (cv_side a) s lr rl) ∧ sd_sub s = true.
Proof using Hrun Hsub UnsignedVarintLaws0 WebRtcSchemaLaws0.
  intros Hs. split; [|by rewrite (io_ops_sub _ _ Hs)]. apply reached_inv. etrans; [exact Hrun|]. by apply right_ops.
Qed.

Lemma stage_prefix s : rtc io_op (cv_side b) s → io_input s `prefix_of` sd_written (cv_side a).
Proof using Hrun Hsub UnsignedVarintLaws0 WebRtcSchemaLaws0.
  intros [Hinv Hs]%stage_inv. apply inv_transfers in Hinv as (Harr & _). specialize (Harr Hs). cbn in Harr.
  etrans; [|exact Harr]. unfold arrived. by apply prefix_app_r.
Qed.

(** The end of the stream. *)
Lemma end_complete fuel ss' : fs_poll_next debug fuel (cv_substream b) = Done (Some (ss', Ready None)) →
  shared_get (ws_channel (sd_end (fs_substream ss'))) ≠ ChReset → io_input (fs_substream ss') = sd_written (cv_side a).
Proof using Hb Hrun Hsub UnsignedVarintLaws0 WebRtcSchemaLaws0.
  intros Hp Hnr. apply poll_next_io in Hp as (s & n & r & Hs & Hn & Hread & Hend); [|apply Hb].
  destruct (stage_inv s Hs) as [Hinv Hsubs]. cbn in Hread. rewrite Hsubs in Hread.
  destruct (ws_poll_read n (sd_end s)) as [e' r'] eqn:E. injection Hread as Hss <-. rewrite <- Hss in *. cbn in *.
  destruct (Hend eq_refl) as [->|[kind ->]].
  - apply inv_transfers in Hinv as (_ & Hall & _). rewrite app_nil_r. by eapply Hall.
  - destruct Hnr. destruct Hinv as (sl & sr & Hl & _). by eapply ws_read_error; [apply (d_inbound _ _ _ _ _ Hl)|].
Qed.

Lemma inv_arrive : frames_arrive debug a b.
Proof using Hok Ha Hb Hrun Hsub UnsignedVarintLaws0 WebRtcSchemaLaws0.
  destruct (conv_delivers debug codec a b Hok Ha Hb (stage_prefix _ (rtc_refl _ _))) as (Hp & Hdone & Hpoll).
  split; [done|]. split.
  { intros Hlen. apply Hdone. eapply prefix_length_eq; [apply (stage_prefix _ (rtc_refl _ _))|].
    change (length (sd_written (cv_side a)) ≤ length (sd_read (cv_side b))). by rewrite Hlen. }
  intros fuel Hf. destruct (Hpoll fuel Hf) as (ss' & r & He & Herr). exists ss', r. split; [done|]. split.
  - apply Herr. pose proof He as He'. apply poll_next_io in He' as (s & n & x & Hs & _ & Hread & _); [|apply Hb].
    apply stage_prefix. eapply rtc_r; [exact Hs|by eapply Io_read].
  - intros -> Hnr Hpend. pose proof (end_complete _ _ He Hnr) as Hall.
    apply poll_next_post in He as (d & _ & Hd & Hstrict); [|apply Hb]. cbn in Hstrict. rewrite (ci_codec _ _ Hb) in Hstrict.
    eapply frames_equal; [exact Hok|apply Hb|apply Ha|exact Hstrict|].
    rewrite app_assoc, <- (ci_in _ _ Hb), <- Hd, Hall, <- (ci_out _ _ Ha), Hpend. by rewrite app_nil_r.
Qed.
End arrive.

Lemma framed_inv_new id1 id2 codec : codec_ok codec → framed_inv codec (FramedEnds_new id1 id2 codec).
Proof. intros Hok. split_and!; [by apply conv_inv_new..|]. apply rtc_refl. Qed.

Lemma swap_run p p' : rtc ends_step p p' → rtc ends_step (swap p) (swap p').
Proof. induction 1 as [|? ? ? Hs]; [done|]. eapply rtc_l; [by apply swap_step|done]. Qed.

End system.

(** ** A run *)
Module FramedWebRtcRun.
#[local] Existing Instance leb128_codec.
#[local] Existing Instance leb128_codec_laws.
#[local] Existing Instance leb128_insufficient.
#[local] Existing Instance pb_codec.
#[local] Existing Instance pb_codec_laws.

Definition codec := ProtocolSet.UnsignedVarint (Some 8%N).

(** The protocol at the left end does something. *)
Definition at_left (op : Conversation (S := Side) → option (Conversation (S := Side))) (p : FramedEnds) : option FramedEnds :=
  c ← match cv_future (fe_left p) with None => op (fe_left p) | Some _ => None end;
  Some (mkFramedEnds c (fe_right p) (fe_to_right p) (fe_to_left p)).
Definition at_right (op : Conversation (S := Side) → option (Conversation (S := Side))) (p : FramedEnds) : option FramedEnds :=
  c ← match cv_future (fe_right p) with None => op (fe_right p) | Some _ => None end;
  Some (mkFramedEnds (fe_left p) c (fe_to_right p) (fe_to_left p)).

(** The connection at the left end takes a message from the handle; the one at the right end delivers it. *)
Definition send_left (p : FramedEnds) : option FramedEnds :=
  let s := cv_side (fe_left p) in
  match sd_handle s, ws_poll_progress 0 true (sd_end s) with
  | true, (e, Ready (Some m)) =>
      Some (mkFramedEnds (cv_set_side (fe_left p) (mkSide e true (sd_sub s) (sd_written s) (sd_read s)))
              (cv_set_side (fe_right p) (cv_side (fe_right p))) (fe_to_right p ++ [m]) (fe_to_left p))
  | _, _ => None
  end.
Definition deliver_right (p : FramedEnds) : option FramedEnds :=
  let s := cv_side (fe_right p) in
  match sd_handle s, fe_to_right p with
  | true, m :: wire =>
      wm ← transmit m;
      Some (mkFramedEnds (cv_set_side (fe_left p) (cv_side (fe_left p)))
              (cv_set_side (fe_right p) (mkSide (ws_on_message (sd_end s) wm).1 true (sd_sub s) (sd_written s) (sd_read s)))
              wire (fe_to_left p))
  | _, _ => None
  end.

Lemma send_left_step p p' : send_left p = Some p' → framed_step true p p'.
Proof.
  unfold send_left. destruct (sd_handle (cv_side (fe_left p))) eqn:Hh; [|done].
  destruct (ws_poll_progress 0 true (sd_end (cv_side (fe_left p)))) as [e [|[m|]]] eqn:E; try done. intros [= <-].
  eapply Fe_connection; [|reflexivity|done..]. unfold fe_ends. cbn [fe_left fe_right fe_to_right fe_to_left].
  apply E_left with (sent := [m]). destruct (cv_side (fe_left p)) as [e0 h s w r] eqn:Es. cbn in *. subst h.
  apply (St_poll e0 s w r 0 true e _ (fe_to_left p) E).
Qed.

Lemma deliver_right_step p p' : deliver_right p = Some p' → framed_step true p p'.
Proof.
  unfold deliver_right. destruct (sd_handle (cv_side (fe_right p))) eqn:Hh; [|done].
  destruct (fe_to_right p) as [|m wire] eqn:Ew; [done|]. destruct (transmit m) as [wm|] eqn:Et; [|done]. intros [= <-].
  eapply Fe_connection; [|reflexivity|done..]. unfold fe_ends. cbn [fe_left fe_right fe_to_right fe_to_left]. rewrite Ew.
  rewrite <- (app_nil_r (fe_to_left p)) at 2. apply E_right. destruct (cv_side (fe_right p)) as [e h s w r] eqn:Es. cbn in *. subst h.
  destruct (ws_on_message e wm) as [e' res] eqn:E. by eapply St_message.
Qed.

Lemma at_left_step op p p' : (∀ c c', cv_future c = None → op c = Some c' → conv_op true c c' ∧ cv_future c' = None) →
  at_left op p = Some p' → framed_step true p p'.
Proof.
  intros Hop Heq. unfold at_left in Heq. destruct (cv_future (fe_left p)) eqn:Hf; [done|].
  destruct (op (fe_left p)) as [c|] eqn:E; [|done]. injection Heq as <-. destruct (Hop _ _ Hf E). destruct p. by apply Fe_left.
Qed.
Lemma at_right_step op p p' : (∀ c c', cv_future c = None → op c = Some c' → conv_op true c c' ∧ cv_future c' = None) →
  at_right op p = Some p' → framed_step true p p'.
Proof.
  intros Hop Heq. unfold at_right in Heq. destruct (cv_future (fe_right p)) eqn:Hf; [done|].
  destruct (op (fe_right p)) as [c|] eqn:E; [|done]. injection Heq as <-. destruct (Hop _ _ Hf E). destruct p. by apply Fe_right.
Qed.

(** A frame is sent; length and payload are two messages on the wire. *)
Definition start : FramedEnds := FramedEnds_new 0%N 1%N codec.
Definition script : list (FramedEnds → option FramedEnds) :=
  [at_left (λ c, cv_feed c [x61; x62]); at_left cv_flush; send_left; send_left; deliver_right; deliver_right; at_right cv_receive].

Fixpoint exec (fs : list (FramedEnds → option FramedEnds)) (p : FramedEnds) : option FramedEnds :=
  match fs with [] => Some p | f :: fs => p' ← f p; exec fs p' end.

Lemma exec_run fs : Forall (λ f, ∀ p p', f p = Some p' → framed_step true p p') fs →
  ∀ p p', exec fs p = Some p' → rtc (framed_step true) p p'.
Proof.
  induction 1 as [|f fs Hf _ IH]; intros p p' Heq; cbn in Heq; [by simplify_eq|].
  destruct (f p) as [p1|] eqn:E; [|done]. eapply rtc_l; [by apply Hf|by apply IH].
Qed.

Lemma script_run p : exec script start = Some p → rtc (framed_step true) start p.
Proof.
  apply exec_run. repeat constructor; [| |apply send_left_step..|apply deliver_right_step|apply deliver_right_step|].
  - intros p1 p2. apply at_left_step. intros. by eapply cv_feed_step.
  - intros p1 p2. apply at_left_step. intros. by eapply cv_flush_step.
  - intros p1 p2. apply at_right_step. intros. by eapply cv_receive_step.
Qed.

Lemma script_state : (λ p, (cv_received (fe_right p), sd_sub (cv_side (fe_right p)))) <$> exec script start = Some ([[x61; x62]], true).
Proof. by vm_compute. Qed.
End FramedWebRtcRun.

