(* ===== verification/NoiseSocket.v ===== *)
(** * Noise sockets

    [src/src/crypto/noise/mod.rs], the socket after the handshake: what is written is cut into chunks, each
    of which is encrypted and sent behind its length; what arrives is collected in a buffer from
    which one frame at a time is decrypted. Of the buffers, the model holds the bytes that were
    put into them, and their capacity: an access to anything else is a panic. *)

From stdpp Require Import base tactics option list.
From Stdlib Require Import NArith Lia Init.Byte.
From S2P Require Import Prelude ProtocolTypes AsyncIo Varint.

Local Open Scope litep2p_scope.

(** ** Constants *)

Definition MAX_NOISE_MSG_LEN : nat := N.to_nat 65536.
Definition NOISE_EXTRA_ENCRYPT_SPACE : nat := 16.
Definition MAX_READ_AHEAD_FACTOR : nat := 5.
Definition MAX_WRITE_BUFFER_SIZE : nat := 2.
Definition MAX_FRAME_LEN : nat := MAX_NOISE_MSG_LEN - NOISE_EXTRA_ENCRYPT_SPACE.

#[global] Arguments MAX_NOISE_MSG_LEN : simpl never.
#[global] Arguments MAX_FRAME_LEN : simpl never.
#[global] Arguments NOISE_EXTRA_ENCRYPT_SPACE : simpl never.

(** ** The [snow] package

    The state of a Noise session after the handshake encrypts and decrypts messages; a call that
    fails has no message. *)
Class NoiseTransport : Type := {
  TransportState : Type;
  ts_write_message : TransportState → list byte → TransportState * option (list byte);
  ts_read_message : TransportState → list byte → TransportState * option (list byte);
}.

(** What its documentation says: a message has a tag of 16 bytes, and is no longer than 65535 bytes;
    writing and reading are independent; a message is read by a state whose receiving direction is
    where the sending direction of the writer was. *)
Class NoiseTransportLaws (T : NoiseTransport) : Type := {
  ts_direction : Type;
  ts_sending : TransportState → ts_direction;
  ts_receiving : TransportState → ts_direction;
  ts_write_law ts payload ts' message : ts_write_message ts payload = (ts', Some message) →
    length message = length payload + 16 ∧ (N.of_nat (length message) ≤ 65535)%N;
  ts_write_limit ts payload : (65535 < N.of_nat (length payload) + 16)%N → snd (ts_write_message ts payload) = None;
  ts_read_law ts message ts' payload : ts_read_message ts message = (ts', Some payload) →
    length message = length payload + 16;
  ts_write_receiving ts payload : ts_receiving (fst (ts_write_message ts payload)) = ts_receiving ts;
  ts_read_sending ts message : ts_sending (fst (ts_read_message ts message)) = ts_sending ts;
  ts_read_written w payload w' message r : ts_write_message w payload = (w', Some message) → ts_receiving r = ts_sending w →
    ∃ r', ts_read_message r message = (r', Some payload) ∧ ts_receiving r' = ts_sending w';
}.

Section noise.
Context {T : NoiseTransport}.

(** ** The socket *)

Inductive NoiseReadState :=
| ReadData (max_read : nat)
| ReadFrameLen
| ProcessNextFrame (pending : option (list byte)) (offset size frame_size : nat).

Inductive NoiseWriteState :=
| WriteIdle
| Writing (offset encrypted_len : nat).

Record NoiseSocket (S : Type) := mkNoiseSocket {
  ns_io : S;
  ns_noise : TransportState;
  ns_current_frame_size : option nat;
  ns_write_state : NoiseWriteState;
  ns_encrypt_buffer : list byte;
  ns_encrypt_capacity : nat;
  ns_offset : nat;
  ns_read_state : NoiseReadState;
  ns_read_buffer : list byte;
  ns_read_capacity : nat;
  ns_canonical_max_read : nat;
  ns_decrypt_buffer : bool;
}.
#[global] Arguments mkNoiseSocket {S}.
#[global] Arguments ns_io {S}.
#[global] Arguments ns_noise {S}.
#[global] Arguments ns_current_frame_size {S}.
#[global] Arguments ns_write_state {S}.
#[global] Arguments ns_encrypt_buffer {S}.
#[global] Arguments ns_encrypt_capacity {S}.
#[global] Arguments ns_offset {S}.
#[global] Arguments ns_read_state {S}.
#[global] Arguments ns_read_buffer {S}.
#[global] Arguments ns_read_capacity {S}.
#[global] Arguments ns_canonical_max_read {S}.
#[global] Arguments ns_decrypt_buffer {S}.

(** [NoiseSocket::new] *)
Definition NoiseSocket_new {S} (io : S) (noise : TransportState) (max_read_ahead_factor max_write_buffer_size : nat) :
    NoiseSocket S :=
  mkNoiseSocket io noise None WriteIdle [] (max_write_buffer_size * (MAX_NOISE_MSG_LEN + 2)) 0
    (ReadData (max_read_ahead_factor * MAX_NOISE_MSG_LEN)) []
    (max_read_ahead_factor * MAX_NOISE_MSG_LEN + (2 + MAX_NOISE_MSG_LEN))
    (max_read_ahead_factor * MAX_NOISE_MSG_LEN) true.

Context {S : Type} `{IO : AsyncIo S}.
Implicit Types (ns : NoiseSocket S).

(** The number of bytes in the read buffer. *)
Definition ns_nread ns : nat := length (ns_read_buffer ns).

Definition ns_set_read ns (io : S) (noise : TransportState) (size : option nat) (offset : nat) (st : NoiseReadState)
    (buffer : list byte) (decrypt : bool) : NoiseSocket S :=
  mkNoiseSocket io noise size (ns_write_state ns) (ns_encrypt_buffer ns) (ns_encrypt_capacity ns) offset st buffer
    (ns_read_capacity ns) (ns_canonical_max_read ns) decrypt.
Definition ns_set_state ns (size : option nat) (offset : nat) (st : NoiseReadState) : NoiseSocket S :=
  ns_set_read ns (ns_io ns) (ns_noise ns) size offset st (ns_read_buffer ns) (ns_decrypt_buffer ns).
Definition ns_set_write ns (io : S) (noise : TransportState) (st : NoiseWriteState) (buffer : list byte) : NoiseSocket S :=
  mkNoiseSocket io noise (ns_current_frame_size ns) st buffer (ns_encrypt_capacity ns) (ns_offset ns) (ns_read_state ns)
    (ns_read_buffer ns) (ns_read_capacity ns) (ns_canonical_max_read ns) (ns_decrypt_buffer ns).

(** ** Reading *)

(** [NoiseSocket::reset_read_state] *)
Definition reset_read_state ns (remaining : nat) : outcome (NoiseSocket S) :=
  let reset buffer :=
    Done (ns_set_read ns (ns_io ns) (ns_noise ns) (ns_current_frame_size ns) 0 (ReadData (ns_canonical_max_read ns))
            buffer (ns_decrypt_buffer ns)) in
  match remaining with
  | 0 => reset []
  | 1 => match last (ns_read_buffer ns) with Some b => reset [b] | None => Panic end
  | _ => Panic
  end.

(** What [poll_read] returns: the bytes that were put into the buffer of the caller. *)
Notation ReadAnswer := (Poll (result IoKind (list byte))) (only parsing).

(** [ReadState::ReadData]; [None] is another turn of the loop *)
Definition ns_read_data ns (max_read : nat) : outcome (NoiseSocket S * option ReadAnswer) :=
  if (ns_nread ns <=? max_read) && (max_read <=? ns_read_capacity ns) then
    let '(io, r) := io_poll_read (max_read - ns_nread ns) (ns_io ns) in
    let after buffer st := ns_set_read ns io (ns_noise ns) (ns_current_frame_size ns) (ns_offset ns) st buffer (ns_decrypt_buffer ns) in
    match r with
    | Prelude.Pending => Done (after (ns_read_buffer ns) (ns_read_state ns), Some Prelude.Pending)
    | Ready (Err error) => Done (after (ns_read_buffer ns) (ns_read_state ns), Some (Ready (Err error)))
    | Ready (Ok []) => Done (after (ns_read_buffer ns) (ns_read_state ns), Some (Ready (Err IoUnexpectedEof)))
    | Ready (Ok bs) => Done (after (ns_read_buffer ns ++ bs) ReadFrameLen, None)
    end
  else Panic.

(** The length of the next frame, big-endian *)
Definition be16 (b0 b1 : byte) : nat := N.to_nat (Byte.to_N b0 * 256 + Byte.to_N b1).

(** The frame of the given size: read more of it, or process it. *)
Definition ns_on_frame_size ns (frame_size remaining : nat) : NoiseSocket S * option ReadAnswer :=
  if remaining <? frame_size then
    let max_read :=
      if ns_nread ns + frame_size <? ns_canonical_max_read ns then ns_canonical_max_read ns
      else ns_nread ns + frame_size - remaining in
    (ns_set_state ns (Some frame_size) (ns_offset ns) (ReadData max_read), None)
  else if frame_size <=? NOISE_EXTRA_ENCRYPT_SPACE then (ns, Some (Ready (Err IoInvalidData)))
  else (ns_set_state ns (Some frame_size) (ns_offset ns) (ProcessNextFrame None 0 0 0), None).

(** [ReadState::ReadFrameLen] *)
Definition ns_read_frame_len ns : outcome (NoiseSocket S * option ReadAnswer) :=
  if ns_nread ns <? ns_offset ns then Done (ns, Some (Ready (Err IoPermissionDenied)))
  else
    let remaining := ns_nread ns - ns_offset ns in
    if remaining <? 2 then
      run ns <- reset_read_state ns remaining ;;
      Done (ns, None)
    else
      let taken := ns_set_state ns None (ns_offset ns) ReadFrameLen in
      match ns_current_frame_size ns with
      | Some frame_size => Done (ns_on_frame_size taken frame_size remaining)
      | None =>
          match ns_read_buffer ns !! ns_offset ns, ns_read_buffer ns !! (ns_offset ns + 1) with
          | Some b0, Some b1 =>
              Done (ns_on_frame_size (ns_set_state ns None (ns_offset ns + 2) ReadFrameLen) (be16 b0 b1) (remaining - 2))
          | _, _ => Panic
          end
      end.

(** The bytes [from..to] of a list, if they are there *)
Definition slice (l : list byte) (from to : nat) : outcome (list byte) :=
  if (from <=? to) && (to <=? length l) then Done (take (to - from) (drop from l)) else Panic.

(** [ReadState::ProcessNextFrame] with a decrypted frame: the rest of it, or as much as the caller takes *)
Definition ns_read_pending ns (buf_len : nat) (pending : list byte) (offset size frame_size : nat) :
    outcome (NoiseSocket S * option ReadAnswer) :=
  run rest <- slice pending offset size ;;
  if length rest <=? buf_len then
    Done (ns_set_read ns (ns_io ns) (ns_noise ns) (ns_current_frame_size ns) (ns_offset ns + frame_size) ReadFrameLen
            (ns_read_buffer ns) true, Some (Ready (Ok rest)))
  else
    Done (ns_set_state ns (ns_current_frame_size ns) (ns_offset ns)
            (ProcessNextFrame (Some pending) (offset + buf_len) size frame_size), Some (Ready (Ok (take buf_len rest)))).

(** [ReadState::ProcessNextFrame] with a frame to decrypt: into the buffer of the caller, or, if that is too small, into
    the decryption buffer *)
Definition ns_decrypt ns (buf_len : nat) : outcome (NoiseSocket S * option ReadAnswer) :=
  match ns_current_frame_size ns with
  | None => Panic
  | Some frame_size =>
      run message <- slice (ns_read_buffer ns) (ns_offset ns) (ns_offset ns + frame_size) ;;
      let after noise offset st decrypt := ns_set_read ns (ns_io ns) noise None offset st (ns_read_buffer ns) decrypt in
      if frame_size - NOISE_EXTRA_ENCRYPT_SPACE <=? buf_len then
        match ts_read_message (ns_noise ns) message with
        | (noise, None) => Done (after noise (ns_offset ns) (ns_read_state ns) (ns_decrypt_buffer ns), Some (Ready (Err IoInvalidData)))
        | (noise, Some payload) =>
            Done (after noise (ns_offset ns + frame_size) ReadFrameLen (ns_decrypt_buffer ns), Some (Ready (Ok payload)))
        end
      else if ns_decrypt_buffer ns then
        match ts_read_message (ns_noise ns) message with
        | (noise, None) => Done (after noise (ns_offset ns) (ns_read_state ns) false, Some (Ready (Err IoInvalidData)))
        | (noise, Some payload) =>
            run head <- slice payload 0 buf_len ;;
            Done (after noise (ns_offset ns) (ProcessNextFrame (Some payload) buf_len (length payload) frame_size) false,
                  Some (Ready (Ok head)))
        end
      else Panic
  end.

Definition ns_read_turn (buf_len : nat) ns : outcome (NoiseSocket S * option ReadAnswer) :=
  match ns_read_state ns with
  | ReadData max_read => ns_read_data ns max_read
  | ReadFrameLen => ns_read_frame_len ns
  | ProcessNextFrame (Some pending) offset size frame_size => ns_read_pending ns buf_len pending offset size frame_size
  | ProcessNextFrame None _ _ _ => ns_decrypt ns buf_len
  end.

(** [AsyncRead::poll_read] into a buffer of the given length; [None] is a loop that goes on *)
Fixpoint ns_poll_read (fuel : nat) (buf_len : nat) ns : outcome (option (NoiseSocket S * ReadAnswer)) :=
  match fuel with
  | 0 => Done None
  | Datatypes.S fuel =>
      run (ns, r) <- ns_read_turn buf_len ns ;;
      match r with
      | Some r => Done (Some (ns, r))
      | None => ns_poll_read fuel buf_len ns
      end
  end.

(** ** Writing *)

(** The end of an attempt to drain the buffer *)
Inductive Drained := DrIdle | DrPending | DrError (kind : IoKind).

(** The loops of [poll_write] and [poll_flush]: a turn that does not end the loop writes at least a byte *)
Fixpoint ns_drain (fuel : nat) ns (offset encrypted_len : nat) : outcome (option (NoiseSocket S * Drained)) :=
  match fuel with
  | 0 => Done None
  | Datatypes.S fuel =>
      run bytes <- slice (ns_encrypt_buffer ns) offset encrypted_len ;;
      let '(io, r) := io_poll_write bytes (ns_io ns) in
      let ns := ns_set_write ns io (ns_noise ns) (Writing offset encrypted_len) (ns_encrypt_buffer ns) in
      match r with
      | Ready (Ok 0) => Done (Some (ns, DrError IoWriteZero))
      | Ready (Ok n) =>
          if decide (offset + n = encrypted_len) then Done (Some (ns_set_write ns io (ns_noise ns) WriteIdle [], DrIdle))
          else ns_drain fuel (ns_set_write ns io (ns_noise ns) (Writing (offset + n) encrypted_len) (ns_encrypt_buffer ns))
                 (offset + n) encrypted_len
      | Ready (Err error) => Done (Some (ns, DrError error))
      | Prelude.Pending => Done (Some (ns, DrPending))
      end
  end.

Definition ns_drain_all ns : outcome (option (NoiseSocket S * Drained)) :=
  match ns_write_state ns with
  | WriteIdle => Done (Some (ns, DrIdle))
  | Writing offset encrypted_len => ns_drain (Datatypes.S (encrypted_len - offset)) ns offset encrypted_len
  end.

(** [slice::chunks] *)
Fixpoint chunks (fuel n : nat) (l : list byte) : list (list byte) :=
  match fuel, l with
  | Datatypes.S fuel, _ :: _ => take n l :: chunks fuel n (drop n l)
  | _, _ => []
  end.

(** The length of a frame as two bytes *)
Definition len16 (n : nat) : list byte := [byte_of (N.of_nat n / 256 mod 256); byte_of (N.of_nat n mod 256)].

(** The loop that encrypts as many chunks as fit: the buffer and the number of bytes that were encrypted *)
Fixpoint ns_encrypt (noise : TransportState) (capacity : nat) (buffer : list byte) (total_plaintext : nat)
    (parts : list (list byte)) : TransportState * option (list byte * nat) :=
  match parts with
  | [] => (noise, Some (buffer, total_plaintext))
  | chunk :: parts =>
      if capacity <? length buffer + length chunk + (2 + NOISE_EXTRA_ENCRYPT_SPACE) then (noise, Some (buffer, total_plaintext))
      else match ts_write_message noise chunk with
           | (noise, None) => (noise, None)
           | (noise, Some message) =>
               ns_encrypt noise capacity (buffer ++ len16 (length message) ++ message) (total_plaintext + length chunk) parts
           end
  end.

(** [AsyncWrite::poll_write] *)
Definition ns_poll_write ns (buf : list byte) : outcome (option (NoiseSocket S * Poll (result IoKind nat))) :=
  run drained <- ns_drain_all ns ;;
  match drained with
  | None => Done None
  | Some (ns, DrError error) => Done (Some (ns, Ready (Err error)))
  | Some (ns, _) =>
      match buf with
      | [] => Done (Some (ns, Ready (Ok 0)))
      | _ =>
          match ns_encrypt (ns_noise ns) (ns_encrypt_capacity ns) (ns_encrypt_buffer ns) 0 (chunks (length buf) MAX_FRAME_LEN buf) with
          | (noise, None) => Done (Some (ns_set_write ns (ns_io ns) noise (ns_write_state ns) (ns_encrypt_buffer ns), Ready (Err IoInvalidData)))
          | (noise, Some (_, 0)) => Done (Some (ns_set_write ns (ns_io ns) noise (ns_write_state ns) (ns_encrypt_buffer ns), Prelude.Pending))
          | (noise, Some (buffer, total_plaintext)) =>
              let offset := match ns_write_state ns with WriteIdle => 0 | Writing offset _ => offset end in
              Done (Some (ns_set_write ns (ns_io ns) noise (Writing offset (length buffer)) buffer, Ready (Ok total_plaintext)))
          end
      end
  end.

(** [AsyncWrite::poll_flush] *)
Definition ns_poll_flush ns : outcome (option (NoiseSocket S * Poll (result IoKind unit))) :=
  run drained <- ns_drain_all ns ;;
  match drained with
  | None => Done None
  | Some (ns, DrError error) => Done (Some (ns, Ready (Err error)))
  | Some (ns, DrPending) => Done (Some (ns, Prelude.Pending))
  | Some (ns, DrIdle) =>
      let '(io, r) := io_poll_flush (ns_io ns) in
      Done (Some (ns_set_write ns io (ns_noise ns) (ns_write_state ns) (ns_encrypt_buffer ns), r))
  end.

(** [AsyncWrite::poll_close] *)
Definition ns_poll_close ns : outcome (option (NoiseSocket S * Poll (result IoKind unit))) :=
  run flushed <- ns_poll_flush ns ;;
  match flushed with
  | None => Done None
  | Some (ns, Ready (Ok tt)) =>
      let '(io, r) := io_poll_shutdown (ns_io ns) in
      Done (Some (ns_set_write ns io (ns_noise ns) (ns_write_state ns) (ns_encrypt_buffer ns), r))
  | Some (ns, r) => Done (Some (ns, r))
  end.
End noise.
