(* ===== verification/NoiseSocketFacts.v ===== *)
(** * What a Noise socket writes is what the other one reads

    The buffers of the socket: no sequence of bytes from the remote makes a read panic, and between
    two sockets with the same keys bytes arrive in order and without a gap, however the stream
    below splits them. *)

From stdpp Require Import base tactics option list relations.
From Stdlib Require Import NArith Lia Init.Byte.
From S2P Require Import Prelude ProtocolTypes AsyncIo Varint NoiseSocket.

Local Open Scope litep2p_scope.

(** ** Sizes *)

Lemma noise_sizes : N.of_nat MAX_NOISE_MSG_LEN = 65536%N ∧ N.of_nat MAX_FRAME_LEN = 65520%N ∧
  NOISE_EXTRA_ENCRYPT_SPACE = 16.
Proof.
  unfold MAX_FRAME_LEN, MAX_NOISE_MSG_LEN, NOISE_EXTRA_ENCRYPT_SPACE. split_and!; [lia..|done].
Qed.

#[local] Opaque MAX_NOISE_MSG_LEN MAX_FRAME_LEN.
#[local] Arguments len16 : simpl never.

Lemma be16_bound b0 b1 : (N.of_nat (be16 b0 b1) ≤ 65535)%N.
Proof. unfold be16. pose proof (byte_to_N_lt b0). pose proof (byte_to_N_lt b1). lia. Qed.

Lemma len16_be16 b0 b1 : len16 (be16 b0 b1) = [b0; b1].
Proof.
  unfold len16, be16. rewrite N2Nat.id. pose proof (byte_to_N_lt b0) as H0. pose proof (byte_to_N_lt b1) as H1.
  rewrite N.div_add_l by done. rewrite (N.div_small (Byte.to_N b1)) by done.
  rewrite N.add_0_r, N.mod_small by done. rewrite N.add_comm, N.Div0.mod_add, N.mod_small by done. by rewrite !byte_of_of_to.
Qed.

Lemma be16_len16 n : (N.of_nat n ≤ 65535)%N → ∃ b0 b1, len16 n = [b0; b1] ∧ be16 b0 b1 = n.
Proof.
  intros Hn. eexists _, _. split; [done|]. unfold be16.
  assert (N.of_nat n / 256 < 256)%N as Hq by (apply N.Div0.div_lt_upper_bound; lia).
  rewrite (N.mod_small (N.of_nat n / 256)) by done.
  pose proof (N.mod_lt (N.of_nat n) 256 ltac:(done)) as Hm. rewrite !byte_of_to_N by done.
  pose proof (N.div_mod' (N.of_nat n) 256). lia.
Qed.

Lemma slice_ok l from to : from ≤ to → to ≤ length l → slice l from to = Done (take (to - from) (drop from l)).
Proof. intros ? ?. unfold slice. by rewrite (proj2 (Nat.leb_le _ _)), (proj2 (Nat.leb_le _ _)). Qed.

(** A frame on the wire *)
Definition noise_wire (frame : list byte) : list byte := len16 (length frame) ++ frame.
Definition noise_frame (frame : list byte) : Prop := (16 < N.of_nat (length frame) ≤ 65535)%N.

Lemma len16_inj n m x y : (N.of_nat n ≤ 65535)%N → (N.of_nat m ≤ 65535)%N → len16 n ++ x = len16 m ++ y → n = m ∧ x = y.
Proof.
  intros Hn Hm Heq. destruct (be16_len16 n Hn) as (a & b & Ha & <-), (be16_len16 m Hm) as (c & d & Hc & <-).
  rewrite Ha, Hc in Heq. cbn in Heq. by simplify_eq.
Qed.

Lemma noise_wire_inj f g x y : noise_frame f → noise_frame g → noise_wire f ++ x = noise_wire g ++ y → f = g ∧ x = y.
Proof.
  unfold noise_wire, noise_frame. intros Hf Hg Heq. rewrite <- !app_assoc in Heq. apply len16_inj in Heq as [Hl Heq]; [|lia..].
  by apply app_inj_1 in Heq.
Qed.

Section reading.
Context {T : NoiseTransport} {TLaws : NoiseTransportLaws T} {S : Type} {IO : AsyncIo S} {Laws : AsyncIoLaws S}.
Implicit Types (ns : NoiseSocket S).

(** ** The read buffer *)

(** The frame whose size is known, while it is being read. *)
Definition frame_known ns (f : nat) : Prop := (N.of_nat f ≤ 65535)%N ∧ ns_offset ns ≤ ns_canonical_max_read ns.

(** The buffer is filled behind the frames, up to its end or to the end of a frame. *)
Definition filled ns (last_frame : nat) : Prop :=
  ns_nread ns ≤ ns_canonical_max_read ns ∨ ns_nread ns ≤ ns_offset ns + last_frame.

Definition read_wf ns : Prop :=
  ns_read_capacity ns = ns_canonical_max_read ns + (2 + MAX_NOISE_MSG_LEN) ∧ MAX_NOISE_MSG_LEN ≤ ns_canonical_max_read ns ∧
  ns_offset ns ≤ ns_nread ns ∧
  match ns_read_state ns with
  | ReadData max_read => ns_decrypt_buffer ns = true ∧ ns_nread ns < max_read ∧
      match ns_current_frame_size ns with
      | None => ns_nread ns - ns_offset ns < 2 ∧ max_read = ns_canonical_max_read ns
      | Some f => frame_known ns f ∧ (ns_nread ns - ns_offset ns < 2 ∨ ns_nread ns - ns_offset ns < f) ∧
          (max_read = ns_canonical_max_read ns ∨ max_read = ns_offset ns + f)
      end
  | ReadFrameLen => ns_decrypt_buffer ns = true ∧
      match ns_current_frame_size ns with
      | None => filled ns 0
      | Some f => frame_known ns f ∧ filled ns f
      end
  | ProcessNextFrame None _ _ _ => ns_decrypt_buffer ns = true ∧
      ∃ f, ns_current_frame_size ns = Some f ∧ (16 < N.of_nat f ≤ 65535)%N ∧ ns_offset ns + f ≤ ns_nread ns ∧ filled ns f
  | ProcessNextFrame (Some pending) offset size f => ns_current_frame_size ns = None ∧ size = length pending ∧
      offset < size ∧ ns_offset ns + f ≤ ns_nread ns ∧ filled ns f
  end.

(** What was read from the stream and is not decrypted, with the size of its first frame put back, and
    what is decrypted and not read. *)
Definition rest ns : list byte :=
  match ns_read_state ns with
  | ProcessNextFrame (Some _) _ _ f => drop (ns_offset ns + f) (ns_read_buffer ns)
  | _ => from_option len16 [] (ns_current_frame_size ns) ++ drop (ns_offset ns) (ns_read_buffer ns)
  end.
Definition unread ns : list byte :=
  match ns_read_state ns with ProcessNextFrame (Some pending) offset _ _ => drop offset pending | _ => [] end.

(** The other half of the socket is the same. *)
Definition same_writing ns ns' : Prop :=
  ns_write_state ns' = ns_write_state ns ∧ ns_encrypt_buffer ns' = ns_encrypt_buffer ns ∧
  ns_encrypt_capacity ns' = ns_encrypt_capacity ns ∧ io_output (ns_io ns') = io_output (ns_io ns) ∧
  ts_sending (ns_noise ns') = ts_sending (ns_noise ns).

(** The turns that are left before the loop has to read. *)
Definition read_measure ns : nat :=
  3 * io_ready (ns_io ns) +
  match ns_read_state ns with ReadData _ => 0 | ReadFrameLen => 2 | ProcessNextFrame _ _ _ _ => 1 end.

(** No frame is complete. *)
Definition incomplete (bs : list byte) : Prop := ∀ frame x, noise_frame frame → bs ≠ noise_wire frame ++ x.

(** What a poll that reads [d] from the stream does, for each answer: it hands out decrypted bytes, or
    decrypts one more frame, or waits for one, or reports a frame that cannot be decrypted. *)
Definition read_post (buf_len : nat) ns ns' (d : list byte) (r : Poll (result IoKind (list byte))) : Prop :=
  match r with
  | Prelude.Pending => read_wf ns' ∧ rest ns' = rest ns ++ d ∧ unread ns = [] ∧ unread ns' = [] ∧
      ns_noise ns' = ns_noise ns ∧ incomplete (rest ns')
  | Ready (Ok bs) => read_wf ns' ∧ length bs ≤ buf_len ∧ (0 < buf_len → bs ≠ []) ∧
      (unread ns = bs ++ unread ns' ∧ rest ns' = rest ns ++ d ∧ ns_noise ns' = ns_noise ns ∨
       ∃ frame payload, noise_frame frame ∧ rest ns ++ d = noise_wire frame ++ rest ns' ∧ unread ns = [] ∧
         payload = bs ++ unread ns' ∧ ts_read_message (ns_noise ns) frame = (ns_noise ns', Some payload))
  | Ready (Err e) => (∃ n s, io_poll_read n s = (ns_io ns', Ready (Err e))) ∨
      e = IoUnexpectedEof ∧ (∃ n s, 0 < n ∧ io_poll_read n s = (ns_io ns', Ready (Ok []))) ∨
      e = IoInvalidData ∧ ∃ frame x, (N.of_nat (length frame) ≤ 65535)%N ∧ rest ns ++ d = noise_wire frame ++ x ∧
        (length frame ≤ 16 ∨ snd (ts_read_message (ns_noise ns) frame) = None)
  end.

Definition turn_post (buf_len : nat) ns ns' (r : option (Poll (result IoKind (list byte)))) : Prop :=
  same_writing ns ns' ∧ ∃ d, io_input (ns_io ns') = io_input (ns_io ns) ++ d ∧
  match r with
  | Some r => read_post buf_len ns ns' d r
  | None => read_wf ns' ∧ rest ns' = rest ns ++ d ∧ unread ns = [] ∧ unread ns' = [] ∧ ns_noise ns' = ns_noise ns ∧
      read_measure ns' < read_measure ns
  end.

Ltac sizes := pose proof noise_sizes as (?HM & ?HF & ?HE).

(** The stream is read into the buffer. *)
Lemma data_turn buf_len ns max_read : ns_read_state ns = ReadData max_read → read_wf ns →
  ∃ ns' r, ns_read_data ns max_read = Done (ns', r) ∧ turn_post buf_len ns ns' r.
Proof using Laws.
  intros Hst Hall. pose proof Hall as (Hcap & Hcan & Hoff & Hwf). rewrite Hst in Hwf. destruct Hwf as (Hdec & Hlt & Hcfs).
  unfold ns_read_data. rewrite (proj2 (Nat.leb_le _ _)) by lia. rewrite (proj2 (Nat.leb_le _ _)).
  2: { sizes. destruct (ns_current_frame_size ns) as [f|]; [|lia]. unfold frame_known in Hcfs. lia. }
  cbn [andb]. destruct (io_poll_read _ _) as [io r] eqn:E. pose proof E as Hread. apply io_read_law in E as [Hout Hr].
  assert (unread ns = []) as Hun by (unfold unread; by rewrite Hst).
  assert (rest ns = from_option len16 [] (ns_current_frame_size ns) ++ drop (ns_offset ns) (ns_read_buffer ns)) as Hrest
    by (unfold rest; by rewrite Hst).
  destruct r as [|[[|b bs]|k]]; eexists _, _; (split; [done|]); (split; [by split_and!|]).
  - exists []. rewrite app_nil_r. split; [done|]. cbn.
    assert (read_wf (ns_set_read ns io (ns_noise ns) (ns_current_frame_size ns) (ns_offset ns) (ns_read_state ns) (ns_read_buffer ns)
      (ns_decrypt_buffer ns))) as Hwf' by exact Hall. split; [exact Hwf'|].
    unfold rest, unread. cbn. rewrite Hst, app_nil_r. split_and!; [done..|].
    intros frame x Hf. unfold noise_wire. rewrite <- app_assoc. destruct (ns_current_frame_size ns) as [f|]; cbn [from_option app].
    + destruct Hcfs as ((Hf' & _) & Hinc & _). intros Heq. apply len16_inj in Heq as [-> Heq]; [|unfold noise_frame in Hf; lia..].
      apply (f_equal length) in Heq. rewrite length_drop, length_app in Heq. unfold noise_frame, ns_nread in *. lia.
    + intros Heq. apply (f_equal length) in Heq. rewrite length_drop, !length_app in Heq. unfold noise_frame, ns_nread in *. cbn in Heq. lia.
  - exists []. rewrite app_nil_r. destruct Hr as (_ & Hr & _). rewrite app_nil_r in Hr. split; [exact Hr|]. cbn. right. left. split; [done|].
    eexists _, _. split; [|exact Hread]. lia.
  - destruct Hr as (Hlen & Hin & Hready). exists (b :: bs). split; [exact Hin|].
    remember (b :: bs) as d eqn:Ed. assert (0 < length d) as Hd by (subst; cbn; lia).
    assert (drop (ns_offset ns) (ns_read_buffer ns ++ d) = drop (ns_offset ns) (ns_read_buffer ns) ++ d) as Hdrop
      by (by apply drop_app_le).
    rewrite Hrest, Hun. unfold read_measure, rest, unread. rewrite Hst. cbn. rewrite Hdrop, <- app_assoc.
    split; [|split_and!; [done..|lia]].
    unfold read_wf, filled, frame_known, ns_nread in *. cbn. rewrite length_app. split_and!; try first [lia|done].
    destruct (ns_current_frame_size ns) as [f|]; [|lia]. destruct Hcfs as (Hk & _ & Hm). split; [exact Hk|lia].
  - exists []. rewrite app_nil_r. split; [exact Hr|]. cbn. left. eexists _, _. exact Hread.
Qed.

(** The size of the next frame is known. *)
Lemma frame_size_turn ns f remaining : ns_read_state ns = ReadFrameLen → ns_current_frame_size ns = None → remaining = ns_nread ns - ns_offset ns →
  ns_read_capacity ns = ns_canonical_max_read ns + (2 + MAX_NOISE_MSG_LEN) → MAX_NOISE_MSG_LEN ≤ ns_canonical_max_read ns →
  ns_offset ns ≤ ns_nread ns → ns_decrypt_buffer ns = true → frame_known ns f → filled ns f →
  let '(ns', r) := ns_on_frame_size ns f remaining in
  same_writing ns ns' ∧ ns_io ns' = ns_io ns ∧
  match r with
  | Some r => r = Ready (Err IoInvalidData) ∧ ∃ frame x, (N.of_nat (length frame) ≤ 65535)%N ∧
      len16 f ++ drop (ns_offset ns) (ns_read_buffer ns) = noise_wire frame ++ x ∧ length frame ≤ 16
  | None => read_wf ns' ∧ rest ns' = len16 f ++ drop (ns_offset ns) (ns_read_buffer ns) ∧ unread ns' = [] ∧
      ns_noise ns' = ns_noise ns ∧ read_measure ns' < read_measure ns
  end.
Proof.
  intros Hst Hcfs -> Hcap Hcan Hoff Hdec [Hf Hfo] Hfill. unfold ns_on_frame_size. sizes.
  destruct (Nat.ltb_spec (ns_nread ns - ns_offset ns) f) as [Hlt|Hge].
  - split; [by split_and!|]. split; [done|]. unfold read_wf, rest, unread, read_measure, frame_known, filled, ns_nread in *.
    destruct (Nat.ltb_spec (length (ns_read_buffer ns) + f) (ns_canonical_max_read ns)); cbn [ns_set_state ns_set_read
      ns_read_state ns_read_capacity ns_canonical_max_read ns_offset ns_read_buffer ns_decrypt_buffer ns_current_frame_size
      ns_noise ns_io from_option]; rewrite Hst; split_and!; first [lia|done|by left|right; lia].
  - destruct (Nat.leb_spec f NOISE_EXTRA_ENCRYPT_SPACE) as [Hsmall|Hbig].
    + split; [by split_and!|]. split; [done|]. split; [done|].
      exists (take f (drop (ns_offset ns) (ns_read_buffer ns))), (drop f (drop (ns_offset ns) (ns_read_buffer ns))).
      assert (length (take f (drop (ns_offset ns) (ns_read_buffer ns))) = f) as Hl
        by (rewrite length_take, length_drop; unfold ns_nread in *; lia).
      unfold noise_wire. rewrite <- app_assoc, Hl, take_drop. split_and!; [lia|done|lia].
    + split; [by split_and!|]. split; [done|]. unfold read_wf, rest, unread, read_measure, filled, ns_nread in *. cbn [ns_set_state ns_set_read
        ns_read_state ns_read_capacity ns_canonical_max_read ns_offset ns_read_buffer ns_decrypt_buffer ns_current_frame_size
        ns_noise ns_io from_option]. rewrite Hst. split_and!; [done|done|done|done| |done|done|done|lia].
      exists f. split_and!; [done|lia|lia|lia|done].
Qed.

Lemma last_drop (l : list byte) n : length l - n = 1 → ∃ b, last l = Some b ∧ drop n l = [b].
Proof.
  intros Hl. destruct (drop n l) as [|b [|]] eqn:E; apply (f_equal length) in E as El; rewrite length_drop in El; cbn in El; try lia.
  exists b. split; [|done]. rewrite <- (take_drop n l), E. by rewrite last_snoc.
Qed.

Lemma frame_len_states ns : ns_read_state ns = ReadFrameLen → unread ns = [] ∧
  rest ns = from_option len16 [] (ns_current_frame_size ns) ++ drop (ns_offset ns) (ns_read_buffer ns).
Proof. intros Hst. unfold unread, rest. by rewrite Hst. Qed.

(** Less than a length is left: it is moved to the front. *)
Lemma reset_turn buf_len ns : ns_read_state ns = ReadFrameLen → read_wf ns → ns_nread ns - ns_offset ns < 2 →
  ∃ ns', reset_read_state ns (ns_nread ns - ns_offset ns) = Done ns' ∧ turn_post buf_len ns ns' None.
Proof.
  intros Hst (Hcap & Hcan & Hoff & Hwf) Hless. rewrite Hst in Hwf. destruct Hwf as (Hdec & Hcfs).
  destruct (frame_len_states ns Hst) as [Hun Hrest].
  assert (∃ buffer, reset_read_state ns (ns_nread ns - ns_offset ns) =
    Done (ns_set_read ns (ns_io ns) (ns_noise ns) (ns_current_frame_size ns) 0 (ReadData (ns_canonical_max_read ns)) buffer
            (ns_decrypt_buffer ns)) ∧ buffer = drop (ns_offset ns) (ns_read_buffer ns)) as (buffer & -> & Hb).
  { unfold reset_read_state, ns_nread. destruct (length (ns_read_buffer ns) - ns_offset ns) as [|[|]] eqn:En.
    - eexists. split; [done|]. symmetry. apply nil_length_inv. by rewrite length_drop.
    - destruct (last_drop _ _ En) as (b & -> & ->). eauto.
    - unfold ns_nread in Hless. lia. }
  eexists. split; [done|]. split; [by split_and!|]. exists []. rewrite !app_nil_r. split; [done|]. cbn.
  assert (length (drop (ns_offset ns) (ns_read_buffer ns)) = ns_nread ns - ns_offset ns) as Hl by (by rewrite length_drop).
  unfold rest, unread, read_measure. cbn. rewrite Hst, drop_0, Hb. split; [|split_and!; [done..|lia]].
  unfold read_wf, frame_known in *. sizes. unfold ns_nread in *. cbn. split_and!; [lia|lia|lia|done|lia|].
  destruct (ns_current_frame_size ns) as [f|]; [|lia]. destruct Hcfs as ((Hf & _) & _). split_and!; first [lia|done].
Qed.

(** The size of the frame, [f], is known, and was taken out of [ns]. *)
Lemma known_turn buf_len ns offset f : ns_read_state ns = ReadFrameLen → read_wf ns → ns_offset ns ≤ offset ≤ ns_nread ns →
  rest ns = len16 f ++ drop offset (ns_read_buffer ns) → (N.of_nat f ≤ 65535)%N → offset ≤ ns_canonical_max_read ns →
  (ns_nread ns ≤ ns_canonical_max_read ns ∨ ns_nread ns ≤ offset + f) →
  let '(ns', r) := ns_on_frame_size (ns_set_state ns None offset ReadFrameLen) f (ns_nread ns - offset) in turn_post buf_len ns ns' r.
Proof.
  intros Hst (Hcap & Hcan & Hoff & Hwf) Ho Hrest Hf Hcan' Hfill. rewrite Hst in Hwf. destruct Hwf as (Hdec & _).
  destruct (frame_len_states ns Hst) as [Hun _]. set (ns1 := ns_set_state ns None offset ReadFrameLen).
  assert (frame_known ns1 f) as Hk by by split.
  pose proof (frame_size_turn ns1 f (ns_nread ns - offset) eq_refl eq_refl eq_refl Hcap Hcan (proj2 Ho) Hdec Hk Hfill) as Hturn.
  destruct (ns_on_frame_size ns1 f _) as [ns' r]. destruct Hturn as (Hsame & Hio & Hpost).
  split; [exact Hsame|]. exists []. rewrite !app_nil_r, Hio. split; [done|]. cbn [ns1 ns_set_state ns_set_read ns_offset ns_read_buffer] in Hpost. rewrite <- Hrest in Hpost.
  destruct r as [r|].
  - destruct Hpost as [-> (frame & x & ? & ? & ?)]. right. right. split; [done|]. exists frame, x. rewrite app_nil_r. auto.
  - assert (read_measure ns1 = read_measure ns) as Hm by (unfold read_measure; cbn; by rewrite Hst).
    destruct Hpost as (? & ? & ? & ? & ?). rewrite Hm in *. by split_and!.
Qed.

Lemma frame_len_turn buf_len ns : ns_read_state ns = ReadFrameLen → read_wf ns →
  ∃ ns' r, ns_read_frame_len ns = Done (ns', r) ∧ turn_post buf_len ns ns' r.
Proof.
  intros Hst Hall. pose proof Hall as (Hcap & Hcan & Hoff & Hwf). rewrite Hst in Hwf. destruct Hwf as (Hdec & Hcfs).
  destruct (frame_len_states ns Hst) as [Hun Hrest]. unfold ns_read_frame_len. rewrite (proj2 (Nat.ltb_ge _ _)) by done.
  destruct (Nat.ltb_spec (ns_nread ns - ns_offset ns) 2) as [Hless|Hmore].
  { destruct (reset_turn buf_len ns Hst Hall Hless) as (ns' & -> & Hpost). cbn. eauto. }
  destruct (ns_current_frame_size ns) as [f|] eqn:Ef.
  - destruct Hcfs as [[Hf Hfo] Hfill]. pose proof (known_turn buf_len ns (ns_offset ns) f Hst Hall ltac:(lia) Hrest Hf Hfo Hfill) as Hturn.
    destruct (ns_on_frame_size _ f _) as [ns' r]. eauto.
  - assert (length (drop (ns_offset ns) (ns_read_buffer ns)) = ns_nread ns - ns_offset ns) as Hl by (by rewrite length_drop).
    destruct (drop (ns_offset ns) (ns_read_buffer ns)) as [|b0 [|b1 tail]] eqn:Ed; [cbn in Hl; lia..|].
    assert (ns_read_buffer ns !! ns_offset ns = Some b0 ∧ ns_read_buffer ns !! (ns_offset ns + 1) = Some b1) as [-> ->].
    { rewrite <- (Nat.add_0_r (ns_offset ns)) at 1. by rewrite <- !lookup_drop, Ed. }
    assert (ns_nread ns ≤ ns_canonical_max_read ns) as Hle by (unfold filled in Hcfs; lia).
    pose proof (known_turn buf_len ns (ns_offset ns + 2) (be16 b0 b1) Hst Hall ltac:(lia)) as Hturn.
    rewrite len16_be16, <- drop_drop, Ed, Nat.sub_add_distr in Hturn. specialize (Hturn Hrest (be16_bound _ _) ltac:(lia) (or_introl Hle)).
    destruct (ns_on_frame_size _ _ _) as [ns' r]. eauto.
Qed.

(** A decrypted frame is handed out. *)
Lemma pending_turn ns buf_len pending offset size f : ns_read_state ns = ProcessNextFrame (Some pending) offset size f → read_wf ns →
  ∃ ns' r, ns_read_pending ns buf_len pending offset size f = Done (ns', r) ∧ turn_post buf_len ns ns' r.
Proof.
  intros Hst (Hcap & Hcan & Hoff & Hwf). rewrite Hst in Hwf. destruct Hwf as (Hcfs & -> & Ho & Hf & Hfill).
  unfold ns_read_pending. rewrite slice_ok by lia. rewrite take_ge by (by rewrite length_drop). cbn [outcome_bind].
  destruct (Nat.leb_spec (length (drop offset pending)) buf_len) as [Hall|Hsome]; eexists _, _; (split; [done|]); (split; [by split_and!|]);
    exists []; rewrite app_nil_r; (split; [done|]); unfold read_post, read_wf, rest, unread, filled, ns_nread in *; cbn; rewrite Hst, Hcfs, app_nil_r.
  - rewrite length_drop in Hall. split; [split_and!; [done|done|lia|done|lia]|]. split; [by rewrite length_drop|]. split.
    { intros _ Hnil. apply (f_equal length) in Hnil. rewrite length_drop in Hnil. cbn in Hnil. lia. }
    left. by rewrite app_nil_r.
  - rewrite length_drop in Hsome. split; [split_and!; [done|done|lia|done|done|lia|lia|lia]|].
    split; [rewrite length_take; lia|]. split.
    { intros ? Hnil. apply (f_equal length) in Hnil. rewrite length_take, length_drop in Hnil. cbn in Hnil. lia. }
    left. by rewrite <- drop_drop, take_drop.
Qed.

(** A frame is decrypted. *)
Lemma decrypt_turn ns buf_len a b c : ns_read_state ns = ProcessNextFrame None a b c → read_wf ns →
  ∃ ns' r, ns_decrypt ns buf_len = Done (ns', r) ∧ turn_post buf_len ns ns' r.
Proof using TLaws.
  intros Hst (Hcap & Hcan & Hoff & Hwf). rewrite Hst in Hwf. destruct Hwf as (Hdec & f & Hcfs & Hf & Hin & Hfill).
  unfold ns_decrypt. unfold ns_nread in Hin. rewrite Hcfs, slice_ok by lia. replace (ns_offset ns + f - ns_offset ns) with f by lia. cbn [outcome_bind].
  set (frame := take f (drop (ns_offset ns) (ns_read_buffer ns))).
  assert (length frame = f) as Hlen by (unfold frame; rewrite length_take, length_drop; lia).
  assert (noise_frame frame) as Hframe by (unfold noise_frame; by rewrite Hlen).
  assert (rest ns = noise_wire frame ++ drop (ns_offset ns + f) (ns_read_buffer ns)) as Hrest.
  { unfold rest, noise_wire. rewrite Hst, Hcfs, Hlen. cbn. rewrite <- app_assoc. f_equal. unfold frame. by rewrite <- drop_drop, take_drop. }
  assert (unread ns = []) as Hun by (unfold unread; by rewrite Hst).
  pose proof (ts_read_sending (ns_noise ns) frame) as Hsend.
  destruct (ts_read_message (ns_noise ns) frame) as [noise [payload|]] eqn:Em; cbn [fst] in Hsend.
  - pose proof (ts_read_law _ _ _ _ Em) as Hp. sizes.
    destruct (Nat.leb_spec (f - NOISE_EXTRA_ENCRYPT_SPACE) buf_len) as [Hbig|Hsmall].
    + eexists _, _. split; [done|]. split; [by split_and!|]. exists []. rewrite app_nil_r. split; [done|].
      unfold read_post. split; [|split_and!; [lia|by intros _ ->; cbn in *; lia|]].
      * unfold read_wf, filled, ns_nread in *. cbn. split_and!; first [lia|done].
      * right. exists frame, payload. rewrite app_nil_r, Hrest, Hun. unfold rest, unread. cbn. rewrite app_nil_r. by split_and!.
    + rewrite Hdec, slice_ok by lia. cbn. eexists _, _. split; [done|]. split; [by split_and!|]. exists []. rewrite app_nil_r. split; [done|].
      unfold read_post. rewrite Nat.sub_0_r, drop_0.
      assert (length (take buf_len payload) = buf_len) as Hbl by (rewrite length_take; lia).
      split; [|split_and!; [lia|by intros ? Hnil; rewrite Hnil in Hbl; cbn in Hbl; lia|]].
      * unfold read_wf, filled, ns_nread in *. cbn. split_and!; first [lia|done].
      * right. exists frame, payload. rewrite app_nil_r, Hrest, Hun. unfold rest, unread. cbn. rewrite take_drop. by split_and!.
  - assert (∃ ns', (if f - NOISE_EXTRA_ENCRYPT_SPACE <=? buf_len then Done (ns_set_read ns (ns_io ns) noise None (ns_offset ns)
        (ns_read_state ns) (ns_read_buffer ns) (ns_decrypt_buffer ns), Some (Ready (Err IoInvalidData)))
      else if ns_decrypt_buffer ns then Done (ns_set_read ns (ns_io ns) noise None (ns_offset ns) (ns_read_state ns)
        (ns_read_buffer ns) false, Some (Ready (Err IoInvalidData))) else Panic) =
      Done (ns', Some (Ready (A := result IoKind (list byte)) (Err IoInvalidData))) ∧ ns_io ns' = ns_io ns ∧ same_writing ns ns') as (ns' & He & Hio & Hsame).
    { rewrite Hdec. case_match; eexists; (split; [done|]); (split; [done|]); by split_and!. }
    exists ns', (Some (Ready (Err IoInvalidData))). split; [exact He|]. split; [exact Hsame|]. exists []. rewrite Hio, app_nil_r. split; [done|].
    right. right. split; [done|]. exists frame, (drop (ns_offset ns + f) (ns_read_buffer ns)). rewrite app_nil_r, Em.
    split_and!; [lia|exact Hrest|by right].
Qed.

Lemma noise_turn_ok buf_len ns : read_wf ns → ∃ ns' r, ns_read_turn buf_len ns = Done (ns', r) ∧ turn_post buf_len ns ns' r.
Proof using Laws TLaws.
  intros Hwf. unfold ns_read_turn. destruct (ns_read_state ns) as [max_read| |[pending|] offset size f] eqn:Hst;
    [by apply data_turn|by apply frame_len_turn|by apply pending_turn|by eapply decrypt_turn].
Qed.

Lemma same_writing_trans ns1 ns2 ns3 : same_writing ns1 ns2 → same_writing ns2 ns3 → same_writing ns1 ns3.
Proof. intros (? & ? & ? & ? & ?) (? & ? & ? & ? & ?). split_and!; congruence. Qed.

(** A poll returns, whatever it reads. *)
Lemma noise_read_total buf_len fuel ns : read_wf ns → read_measure ns < fuel →
  ∃ ns' r, ns_poll_read fuel buf_len ns = Done (Some (ns', r)).
Proof using Laws TLaws.
  revert ns. induction fuel as [|fuel IH]; intros ns Hwf Hf; [lia|]. cbn.
  destruct (noise_turn_ok buf_len ns Hwf) as (ns1 & [r|] & -> & _ & d & _ & Hpost); cbn; [by eauto|].
  apply IH; [apply Hpost|]. destruct Hpost as (_ & _ & _ & _ & _ & Hm). lia.
Qed.

Lemma noise_read_post buf_len fuel ns ns' r : read_wf ns → ns_poll_read fuel buf_len ns = Done (Some (ns', r)) →
  ∃ d, same_writing ns ns' ∧ io_input (ns_io ns') = io_input (ns_io ns) ++ d ∧ read_post buf_len ns ns' d r.
Proof using Laws TLaws.
  revert ns. induction fuel as [|fuel IH]; intros ns Hwf Heq; cbn in Heq; [done|].
  destruct (noise_turn_ok buf_len ns Hwf) as (ns1 & [r1|] & He & Hsame & d & Hin & Hpost); rewrite He in Heq; cbn in Heq;
    [simplify_eq; eauto|].
  destruct Hpost as (Hwf1 & Hrest & Hun & Hun1 & Hn & _). destruct (IH ns1 Hwf1 Heq) as (d' & Hsame' & Hin' & Hpost').
  exists (d ++ d'). split; [by eapply same_writing_trans|]. split; [by rewrite Hin', Hin, app_assoc|].
  unfold read_post in *. rewrite Hrest, Hun1, Hn, <- app_assoc in Hpost'. by rewrite Hun.
Qed.

(** ** The write buffer *)

Definition write_wf ns : Prop :=
  match ns_write_state ns with
  | WriteIdle => ns_encrypt_buffer ns = []
  | Writing offset len => offset < len ∧ len = length (ns_encrypt_buffer ns)
  end.

(** What is encrypted and not written. *)
Definition unsent ns : list byte :=
  match ns_write_state ns with WriteIdle => [] | Writing offset _ => drop offset (ns_encrypt_buffer ns) end.

(** The other half of the socket is the same. *)
Definition keeps_reading ns ns' : Prop :=
  ns_current_frame_size ns' = ns_current_frame_size ns ∧ ns_offset ns' = ns_offset ns ∧ ns_read_state ns' = ns_read_state ns ∧
  ns_read_buffer ns' = ns_read_buffer ns ∧ ns_read_capacity ns' = ns_read_capacity ns ∧
  ns_canonical_max_read ns' = ns_canonical_max_read ns ∧ ns_decrypt_buffer ns' = ns_decrypt_buffer ns ∧
  io_input (ns_io ns') = io_input (ns_io ns) ∧ ts_receiving (ns_noise ns') = ts_receiving (ns_noise ns).

Lemma keeps_reading_trans ns1 ns2 ns3 : keeps_reading ns1 ns2 → keeps_reading ns2 ns3 → keeps_reading ns1 ns3.
Proof.
  intros (? & ? & ? & ? & ? & ? & ? & ? & ?) (? & ? & ? & ? & ? & ? & ? & ? & ?). split_and!; congruence.
Qed.

Lemma keeps_reading_wf ns ns' : keeps_reading ns ns' → read_wf ns → read_wf ns' ∧ rest ns' = rest ns ∧ unread ns' = unread ns.
Proof.
  intros (H1 & H2 & H3 & H4 & H5 & H6 & H7 & _) Hwf. unfold read_wf, rest, unread, frame_known, filled, ns_nread in *.
  by rewrite H1, H2, H3, H4, H5, H6, H7.
Qed.

Lemma same_writing_wf ns ns' : same_writing ns ns' → write_wf ns → write_wf ns' ∧ unsent ns' = unsent ns.
Proof. intros (H1 & H2 & _) Hwf. unfold write_wf, unsent in *. by rewrite H1, H2. Qed.

(** Nothing is lost, whether the stream takes everything, has to wait or fails. *)
Definition drain_post ns ns' (r : Drained) : Prop :=
  keeps_reading ns ns' ∧ ns_noise ns' = ns_noise ns ∧ write_wf ns' ∧
  io_output (ns_io ns') ++ unsent ns' = io_output (ns_io ns) ++ unsent ns ∧
  ns_encrypt_capacity ns' = ns_encrypt_capacity ns ∧
  (r = DrIdle → ns_write_state ns' = WriteIdle).

Lemma noise_drain_ok fuel ns offset len : ns_write_state ns = Writing offset len → write_wf ns → len - offset < fuel →
  ∃ ns' r, ns_drain fuel ns offset len = Done (Some (ns', r)) ∧ drain_post ns ns' r.
Proof using Laws.
  revert ns offset. induction fuel as [|fuel IH]; intros ns offset Hst Hwf Hf; [lia|]. cbn.
  unfold write_wf in Hwf. rewrite Hst in Hwf. destruct Hwf as [Hlt Hlen]. rewrite slice_ok by lia. cbn.
  rewrite take_ge by (rewrite length_drop; lia).
  destruct (io_poll_write _ _) as [io r] eqn:E. apply io_write_law in E as [Hi Ho].
  assert (unsent ns = drop offset (ns_encrypt_buffer ns)) as Hun by (unfold unsent; by rewrite Hst).
  assert (∀ d, d ≠ DrIdle → io_output io = io_output (ns_io ns) →
    drain_post ns (ns_set_write ns io (ns_noise ns) (Writing offset len) (ns_encrypt_buffer ns)) d) as Hstop.
  { intros d Hd Hout. unfold drain_post, write_wf, unsent. cbn. rewrite Hst, Hout. by split_and!. }
  destruct r as [|[[|n]|k]].
  1, 4: eexists _, _; split; [done|]; by apply Hstop.
  { destruct Ho as [_ Ho]. eexists _, _. split; [done|]. apply Hstop; [done|]. by rewrite Ho, app_nil_r. }
  destruct Ho as [Hn Ho]. rewrite length_drop in Hn. destruct (decide (offset + Datatypes.S n = len)) as [Hd|Hd].
  - eexists _, _. split; [done|]. split; [by split_and!|]. split_and!; try done. rewrite Hun. unfold unsent. cbn.
    rewrite app_nil_r, Ho, take_ge; [done|]. rewrite length_drop. lia.
  - match goal with |- context [ns_drain fuel ?x _ _] => set (ns1 := x) end.
    destruct (IH ns1 (offset + Datatypes.S n) eq_refl) as (ns' & r & -> & Hsame & Hnoise & Hwf' & Hout & Hcap & Hidle); [split; cbn; lia|lia|].
    assert (keeps_reading ns ns1) as Hsame1 by by split_and!.
    assert (io_output (ns_io ns1) ++ unsent ns1 = io_output (ns_io ns) ++ unsent ns) as Hout1.
    { rewrite Hun. unfold unsent. cbn. by rewrite Ho, <- app_assoc, <- drop_drop, take_drop. }
    eexists _, _. split; [done|]. split; [by eapply keeps_reading_trans|]. rewrite <- Hout1. by split_and!.
Qed.

Lemma drain_all_ok ns : write_wf ns → ∃ ns' r, ns_drain_all ns = Done (Some (ns', r)) ∧ drain_post ns ns' r.
Proof using Laws.
  intros Hwf. unfold ns_drain_all. destruct (ns_write_state ns) as [|offset len] eqn:Hst.
  - eexists _, _. split; [done|]. by split_and!.
  - apply noise_drain_ok; [done|done|]. lia.
Qed.

(** ** Chunks *)

Lemma chunks_concat fuel n l : 0 < n → length l ≤ fuel → concat (chunks fuel n l) = l.
Proof.
  intros Hn. revert l. induction fuel as [|fuel IH]; intros [|b l] Hl; cbn in *; try done; [lia|].
  destruct n as [|n]; [lia|]. cbn [take drop]. rewrite IH; [cbn; by rewrite take_drop|]. rewrite length_drop. lia.
Qed.

Lemma chunks_size fuel n l : 0 < n → Forall (λ c, 0 < length c) (chunks fuel n l).
Proof.
  intros Hn. revert l. induction fuel as [|fuel IH]; intros [|b l]; cbn; try constructor; [|done].
  destruct n; [lia|]. cbn. lia.
Qed.

(** The messages into which chunks are encrypted, one after the other, and the place in the sequence of messages after them. *)
Inductive sealed : ts_direction → list (list byte) → list (list byte) → ts_direction → Prop :=
| Sealed_nil d : sealed d [] [] d
| Sealed_cons w c w' m cs ms d : ts_write_message w c = (w', Some m) → 0 < length c → sealed (ts_sending w') cs ms d →
    sealed (ts_sending w) (c :: cs) (m :: ms) d.

Lemma sealed_app d cs ms d' cs' ms' d'' : sealed d cs ms d' → sealed d' cs' ms' d'' → sealed d (cs ++ cs') (ms ++ ms') d''.
Proof. intros Hs Hs'. induction Hs; cbn; [done|]. econstructor; [done..|]. by apply IHHs. Qed.

Lemma sealed_frames d cs ms d' : sealed d cs ms d' → Forall noise_frame ms.
Proof using TLaws.
  induction 1 as [|w c w' m cs ms d Hw Hc _ IH]; constructor; [|done]. apply ts_write_law in Hw as [? ?].
  unfold noise_frame. lia.
Qed.

(** Frames that were decrypted, likewise. *)
Inductive opened : ts_direction → list (list byte) → list (list byte) → ts_direction → Prop :=
| Opened_nil d : opened d [] [] d
| Opened_cons r f r' p ps fs d : ts_read_message r f = (r', Some p) → opened (ts_receiving r') ps fs d →
    opened (ts_receiving r) (p :: ps) (f :: fs) d.

Lemma opened_app d ps fs d' ps' fs' d'' : opened d ps fs d' → opened d' ps' fs' d'' → opened d (ps ++ ps') (fs ++ fs') d''.
Proof. intros Hs Hs'. induction Hs; cbn; [done|]. econstructor; [done..|]. by apply IHHs. Qed.

(** Messages are decrypted to what was encrypted. *)
Lemma opened_sealed d ps fs e cs ms e' : opened d ps fs e → sealed d cs ms e' → fs `prefix_of` ms →
  ∃ cs' ms', cs = ps ++ cs' ∧ ms = fs ++ ms' ∧ sealed e cs' ms' e'.
Proof using TLaws.
  intros Hop. revert cs ms. induction Hop as [d|r f r' p ps fs d Hr _ IH]; intros cs ms Hs Hpre; [by eexists _, _|].
  destruct Hpre as [tail ->]. inversion Hs as [|w c w' m cs1 ms1 e1 Hw Hc Hs1 Hd]; subst.
  destruct (ts_read_written w c w' f r Hw (eq_sym Hd)) as (r1 & Hr1 & Hdir). rewrite Hr in Hr1. injection Hr1 as <- <-.
  rewrite <- Hdir in Hs1. destruct (IH _ _ Hs1) as (cs' & ms' & -> & Hms & Hs'); [by apply prefix_app_r|].
  exists cs', ms'. split_and!; [done| |done]. cbn. by rewrite Hms.
Qed.

Definition frames_wire (frames : list (list byte)) : list byte := concat (noise_wire <$> frames).

Lemma frames_wire_app fs gs : frames_wire (fs ++ gs) = frames_wire fs ++ frames_wire gs.
Proof. unfold frames_wire. by rewrite fmap_app, concat_app. Qed.

(** ** Writing *)

Lemma encrypt_ok noise capacity buffer total parts noise' buffer' total' : Forall (λ c, 0 < length c) parts →
  ns_encrypt noise capacity buffer total parts = (noise', Some (buffer', total')) →
  ∃ cs ms, cs `prefix_of` parts ∧ sealed (ts_sending noise) cs ms (ts_sending noise') ∧
    buffer' = buffer ++ frames_wire ms ∧ total' = total + length (concat cs) ∧ ts_receiving noise' = ts_receiving noise.
Proof using TLaws.
  revert noise buffer total. induction parts as [|c parts IH]; intros noise buffer total Hparts Heq; cbn in Heq.
  { simplify_eq. exists [], []. cbn. rewrite app_nil_r, Nat.add_0_r. split_and!; [done|constructor|done..]. }
  case_match. { simplify_eq. exists [], []. cbn. rewrite app_nil_r, Nat.add_0_r. split_and!; [apply prefix_nil|constructor|done..]. }
  pose proof (ts_write_receiving noise c) as Hrecv.
  destruct (ts_write_message noise c) as [noise1 [m|]] eqn:Hw; [|done]. cbn in Hrecv. apply Forall_cons in Hparts as [Hc Hparts].
  apply IH in Heq as (cs & ms & Hpre & Hs & -> & -> & Hr); [|done]. exists (c :: cs), (m :: ms). split_and!.
  - by apply prefix_cons.
  - by econstructor.
  - unfold frames_wire, noise_wire. cbn. by rewrite <- !app_assoc.
  - cbn. rewrite length_app. lia.
  - by rewrite Hr.
Qed.

(** What a write does, unless it fails: it encrypts the beginning of what it is given, or nothing. *)
Definition write_post ns ns' (buf : list byte) (r : Poll (result IoKind nat)) : Prop :=
  match r with
  | Ready (Err _) => True
  | Prelude.Pending => keeps_reading ns ns' ∧ write_wf ns' ∧ ts_sending (ns_noise ns') = ts_sending (ns_noise ns) ∧
      io_output (ns_io ns') ++ unsent ns' = io_output (ns_io ns) ++ unsent ns
  | Ready (Ok n) => keeps_reading ns ns' ∧ write_wf ns' ∧ n ≤ length buf ∧ (buf ≠ [] → 0 < n) ∧
      ∃ cs ms, concat cs = take n buf ∧ sealed (ts_sending (ns_noise ns)) cs ms (ts_sending (ns_noise ns')) ∧
        io_output (ns_io ns') ++ unsent ns' = (io_output (ns_io ns) ++ unsent ns) ++ frames_wire ms
  end.

Lemma concat_empty (cs : list (list byte)) : Forall (λ c, 0 < length c) cs → length (concat cs) = 0 → cs = [].
Proof. intros [|c cs' Hc _]; [done|]. cbn. rewrite length_app. lia. Qed.

Lemma append_ok ns noise frames : write_wf ns → frames ≠ [] →
  let offset := match ns_write_state ns with WriteIdle => 0 | Writing offset _ => offset end in
  let buffer := ns_encrypt_buffer ns ++ frames in
  let ns' := ns_set_write ns (ns_io ns) noise (Writing offset (length buffer)) buffer in
  write_wf ns' ∧ unsent ns' = unsent ns ++ frames.
Proof.
  intros Hwf Hf. unfold write_wf, unsent in *. cbn. destruct (ns_write_state ns) as [|offset len].
  - rewrite Hwf. cbn. split; [|done]. split; [|done]. destruct frames; [done|]. cbn. lia.
  - destruct Hwf as [Hlt ->]. rewrite length_app, drop_app_le by lia. split; [|done]. split; [lia|done].
Qed.

Lemma noise_write_ok ns buf : write_wf ns → ∃ ns' r, ns_poll_write ns buf = Done (Some (ns', r)) ∧ write_post ns ns' buf r.
Proof using Laws TLaws.
  intros Hwf. unfold ns_poll_write. destruct (drain_all_ok ns Hwf) as (ns1 & r & -> & Hsame & Hn & Hwf1 & Hout & _ & Hidle).
  cbn [outcome_bind]. enough (∃ ns' r, match buf with [] => Done (Some (ns1, Ready (Ok 0))) | _ =>
    match ns_encrypt (ns_noise ns1) (ns_encrypt_capacity ns1) (ns_encrypt_buffer ns1) 0 (chunks (length buf) MAX_FRAME_LEN buf) with
    | (noise, None) => Done (Some (ns_set_write ns1 (ns_io ns1) noise (ns_write_state ns1) (ns_encrypt_buffer ns1), Ready (Err IoInvalidData)))
    | (noise, Some (_, 0)) => Done (Some (ns_set_write ns1 (ns_io ns1) noise (ns_write_state ns1) (ns_encrypt_buffer ns1), Prelude.Pending))
    | (noise, Some (buffer, total_plaintext)) =>
        let offset := match ns_write_state ns1 with WriteIdle => 0 | Writing offset _ => offset end in
        Done (Some (ns_set_write ns1 (ns_io ns1) noise (Writing offset (length buffer)) buffer, Ready (Ok total_plaintext)))
    end end = Done (Some (ns', r)) ∧ write_post ns ns' buf r) as Hrest.
  { destruct r; [exact Hrest..|]. by eexists _, _. }
  destruct buf as [|b buf'] eqn:Eb.
  { eexists _, _. split; [done|]. cbn. split_and!; [done..|]. exists [], []. rewrite Hn, app_nil_r. split_and!; [done|constructor|done]. }
  rewrite <- Eb in *. assert (0 < MAX_FRAME_LEN) as Hpos by (sizes; lia).
  destruct (ns_encrypt _ _ _ _ _) as [noise [[buffer total]|]] eqn:He; [|by eexists _, _].
  apply encrypt_ok in He as (cs & ms & Hpre & Hs & Hb & Ht & Hrecv); [|by apply chunks_size].
  assert (Forall (λ c, 0 < length c) cs) as Hcs.
  { destruct Hpre as [tl Htl]. pose proof (chunks_size (length buf) MAX_FRAME_LEN buf Hpos) as Hall. rewrite Htl in Hall. by apply Forall_app in Hall as [? _]. }
  assert (concat cs `prefix_of` buf) as Hcat.
  { destruct Hpre as [tl Htl]. exists (concat tl). rewrite <- concat_app, <- Htl. symmetry. by apply chunks_concat. }
  destruct total as [|n].
  - rewrite (concat_empty cs) in Hs by (done || lia). inversion Hs as [d Hd|]; subst ms d. eexists _, _. split; [done|]. cbn.
    split; [|split_and!; [exact Hwf1|by rewrite <- Hn|exact Hout]].
    eapply keeps_reading_trans; [exact Hsame|]. by split_and!.
  - assert (frames_wire ms ≠ []) as Hms.
    { destruct Hs; [cbn in Ht; lia|]. unfold frames_wire, noise_wire, len16. by cbn. }
    destruct (append_ok ns1 noise (frames_wire ms) Hwf1 Hms) as [Hwf' Hun']. rewrite <- Hb in Hwf', Hun'.
    eexists _, _. split; [done|]. cbn [write_post]. destruct Hcat as [tl Htl]. cbn in Ht. split_and!.
    + eapply keeps_reading_trans; [exact Hsame|]. by split_and!.
    + exact Hwf'.
    + rewrite Htl, length_app. lia.
    + lia.
    + exists cs, ms. split_and!; [by rewrite Htl, Ht, take_app_length|by rewrite <- Hn|]. by rewrite <- Hout, Hun', app_assoc.
Qed.

(** A flush and a close lose nothing, whatever they answer; after a flush that is done everything is written. *)
Definition flush_post ns ns' (r : Poll (result IoKind unit)) : Prop :=
  keeps_reading ns ns' ∧ write_wf ns' ∧ ts_sending (ns_noise ns') = ts_sending (ns_noise ns) ∧
  io_output (ns_io ns') ++ unsent ns' = io_output (ns_io ns) ++ unsent ns ∧ (r = Ready (Ok tt) → unsent ns' = []).

Lemma unsent_idle ns : ns_write_state ns = WriteIdle → unsent ns = [].
Proof. intros Hst. unfold unsent. by rewrite Hst. Qed.

Lemma noise_flush_ok ns : write_wf ns → ∃ ns' r, ns_poll_flush ns = Done (Some (ns', r)) ∧ flush_post ns ns' r.
Proof using Laws.
  intros Hwf. unfold ns_poll_flush. destruct (drain_all_ok ns Hwf) as (ns1 & r & -> & Hsame & Hn & Hwf1 & Hout & _ & Hidle).
  cbn [outcome_bind]. destruct r as [| |k].
  2, 3: eexists _, _; split; [done|]; split_and!; [done|done|by rewrite Hn|done|done].
  destruct (io_poll_flush (ns_io ns1)) as [io r] eqn:E. apply io_flush_law in E as [Hi Ho].
  eexists _, _. split; [done|]. split; [eapply keeps_reading_trans; [exact Hsame|]; by split_and!|].
  split; [exact Hwf1|]. split; [by rewrite <- Hn|]. split; [cbn; by rewrite Ho, <- Hout|].
  intros _. apply unsent_idle. cbn. by apply Hidle.
Qed.

Lemma noise_close_ok ns : write_wf ns → ∃ ns' r, ns_poll_close ns = Done (Some (ns', r)) ∧ flush_post ns ns' r.
Proof using Laws.
  intros Hwf. unfold ns_poll_close. destruct (noise_flush_ok ns Hwf) as (ns1 & r & -> & Hpost). cbn [outcome_bind].
  destruct r as [|[[]|k]]; [by eexists _, _| |by eexists _, _].
  destruct Hpost as (Hsame & Hwf1 & Hs & Hout & Hun). destruct (io_poll_shutdown (ns_io ns1)) as [io r] eqn:E.
  apply io_shutdown_law in E as [Hi Ho]. eexists _, _. split; [done|].
  split; [eapply keeps_reading_trans; [exact Hsame|]; by split_and!|]. split; [exact Hwf1|]. split; [exact Hs|].
  split; [cbn; by rewrite Ho, <- Hout|]. intros _. by apply Hun.
Qed.
End reading.
