(* ===== verification/NoiseStream.v ===== *)
(** * Byte streams between Noise sockets

    Runs of a socket of [crypto/noise/mod.rs] and of the protocol above it: what is written at one
    end of a connection is what is read at the other end, and nothing the remote sends makes
    the socket panic. *)

From stdpp Require Import base tactics option list relations.
From Stdlib Require Import NArith Lia Init.Byte.
From S2P Require Import Prelude ProtocolTypes AsyncIo Varint NoiseSocket NoiseSocketFacts.

Local Open Scope litep2p_scope.

#[local] Opaque MAX_NOISE_MSG_LEN MAX_FRAME_LEN.
#[local] Arguments len16 : simpl never.

Section stream.
Context {T : NoiseTransport} {TLaws : NoiseTransportLaws T} {S : Type} {IO : AsyncIo S} {Laws : AsyncIoLaws S}.
Implicit Types (ns : NoiseSocket S).

(** A socket, with what was written to it and read from it so far. *)
Record NoiseStream := mkNoiseStream { nz_socket : NoiseSocket S; nz_written : list byte; nz_read : list byte }.

Definition NoiseStream_new (io : S) (noise : TransportState) (factor size : nat) : NoiseStream :=
  mkNoiseStream (NoiseSocket_new io noise factor size) [] [].

Definition ns_set_io ns (io : S) : NoiseSocket S := ns_set_write ns io (ns_noise ns) (ns_write_state ns) (ns_encrypt_buffer ns).

(** The calls of the protocol above the socket, which gives up when a read or a write fails, and the changes of the stream below. *)
Inductive noise_step : NoiseStream → NoiseStream → Prop :=
| Nz_wait fuel len ns written read ns' : ns_poll_read fuel len ns = Done (Some (ns', Prelude.Pending)) →
    noise_step (mkNoiseStream ns written read) (mkNoiseStream ns' written read)
| Nz_read fuel len ns written read ns' bs : ns_poll_read fuel len ns = Done (Some (ns', Ready (Ok bs))) →
    noise_step (mkNoiseStream ns written read) (mkNoiseStream ns' written (read ++ bs))
| Nz_full buf ns written read ns' : ns_poll_write ns buf = Done (Some (ns', Prelude.Pending)) →
    noise_step (mkNoiseStream ns written read) (mkNoiseStream ns' written read)
| Nz_write buf ns written read ns' n : ns_poll_write ns buf = Done (Some (ns', Ready (Ok n))) →
    noise_step (mkNoiseStream ns written read) (mkNoiseStream ns' (written ++ take n buf) read)
| Nz_flush ns written read ns' r : ns_poll_flush ns = Done (Some (ns', r)) →
    noise_step (mkNoiseStream ns written read) (mkNoiseStream ns' written read)
| Nz_close ns written read ns' r : ns_poll_close ns = Done (Some (ns', r)) →
    noise_step (mkNoiseStream ns written read) (mkNoiseStream ns' written read)
| Nz_transport ns written read io : io_input io = io_input (ns_io ns) → io_output io = io_output (ns_io ns) →
    noise_step (mkNoiseStream ns written read) (mkNoiseStream (ns_set_io ns io) written read).

(** ** The invariant *)

(** What is written is encrypted, from the direction [d] on. *)
Definition writer_ok (d : ts_direction) ns (written : list byte) : Prop := ∃ cs ms,
  sealed d cs ms (ts_sending (ns_noise ns)) ∧ concat cs = written ∧ io_output (ns_io ns) ++ unsent ns = frames_wire ms.

(** What is read is decrypted, from the direction [d] on. *)
Definition reader_ok (d : ts_direction) ns (read : list byte) : Prop := ∃ ps fs,
  opened d ps fs (ts_receiving (ns_noise ns)) ∧ Forall noise_frame fs ∧ concat ps = read ++ unread ns ∧
  io_input (ns_io ns) = frames_wire fs ++ rest ns.

Record stream_inv (ds dr : ts_direction) (z : NoiseStream) : Prop := {
  zi_read : read_wf (nz_socket z);
  zi_write : write_wf (nz_socket z);
  zi_writer : writer_ok ds (nz_socket z) (nz_written z);
  zi_reader : reader_ok dr (nz_socket z) (nz_read z);
}.

Lemma stream_inv_new io noise factor size : 0 < factor → io_input io = [] → io_output io = [] →
  stream_inv (ts_sending noise) (ts_receiving noise) (NoiseStream_new io noise factor size).
Proof.
  intros Hf Hi Ho. split; cbn.
  - pose proof noise_sizes as (HM & _). assert (MAX_NOISE_MSG_LEN ≤ factor * MAX_NOISE_MSG_LEN) as Hle by (destruct factor; cbn [Nat.mul]; lia).
    unfold read_wf, ns_nread, NoiseSocket_new. cbn -[Nat.mul Nat.add]. split_and!; first [reflexivity|lia].
  - done.
  - exists [], []. split_and!; [constructor|done|]. cbn. by rewrite Ho.
  - exists [], []. split_and!; [constructor|done|done|]. cbn. by rewrite Hi.
Qed.

(** A part of the socket that does not change *)
Lemma writer_same d ns ns' written : same_writing ns ns' → writer_ok d ns written → writer_ok d ns' written.
Proof.
  intros (Hst & Hb & _ & Ho & Hs) (cs & ms & ? & ? & ?). exists cs, ms. unfold unsent in *. by rewrite Hst, Hb, Ho, Hs.
Qed.

Lemma reader_same d ns ns' read : keeps_reading ns ns' → read_wf ns → reader_ok d ns read → reader_ok d ns' read.
Proof.
  intros Hk Hwf (ps & fs & ? & ? & ? & ?). destruct (keeps_reading_wf ns ns' Hk Hwf) as (_ & Hr & Hu).
  destruct Hk as (_ & _ & _ & _ & _ & _ & _ & Hi & Hd). exists ps, fs. by rewrite Hr, Hu, Hi, Hd.
Qed.

(** The frames that a poll has read, with what it returns *)
Lemma reader_read d ns ns' len r read delta : reader_ok d ns read → io_input (ns_io ns') = io_input (ns_io ns) ++ delta →
  read_post len ns ns' delta r →
  match r with
  | Prelude.Pending => reader_ok d ns' read
  | Ready (Ok bs) => reader_ok d ns' (read ++ bs)
  | Ready (Err _) => True
  end.
Proof.
  intros (ps & fs & Hop & Hfs & Hps & Hin) Hin' Hpost. destruct r as [|[bs|k]]; [| |done].
  - destruct Hpost as (_ & Hrest & Hu & Hu' & Hn & _). exists ps, fs. rewrite Hn, Hu', Hin', Hin, Hrest, <- app_assoc. by rewrite Hu in Hps.
  - destruct Hpost as (_ & _ & _ & [(Hu & Hrest & Hn)|(f & p & Hf & Hrest & Hu & -> & Hread)]).
    + exists ps, fs. rewrite Hn, Hin', Hin, Hrest, Hps, Hu, <- !app_assoc. by split_and!.
    + exists (ps ++ [bs ++ unread ns']), (fs ++ [f]). split_and!.
      * eapply opened_app; [exact Hop|]. econstructor; [exact Hread|constructor].
      * apply Forall_app_2; [done|]. by apply Forall_singleton.
      * rewrite concat_app, Hps, Hu. cbn. by rewrite !app_nil_r, app_assoc.
      * rewrite Hin', Hin, <- app_assoc, Hrest, frames_wire_app. unfold frames_wire at 3. cbn. by rewrite app_nil_r, <- app_assoc.
Qed.

Lemma stream_step_inv ds dr z z' : noise_step z z' → stream_inv ds dr z → stream_inv ds dr z'.
Proof using Laws TLaws.
  intros Hstep [Hr Hw Hwr Hrd]. destruct Hstep as [fuel len ns written read ns' Heq|fuel len ns written read ns' bs Heq|
    buf ns written read ns' Heq|buf ns written read ns' n Heq|ns written read ns' r Heq|ns written read ns' r Heq|
    ns written read io Hi Ho]; cbn in *.
  - apply noise_read_post in Heq as (d & Hsame & Hin & Hpost); [|done]. destruct (same_writing_wf _ _ Hsame Hw) as [? _].
    pose proof (reader_read dr _ _ _ _ _ _ Hrd Hin Hpost). split; [apply Hpost|done|by eapply writer_same|done].
  - apply noise_read_post in Heq as (d & Hsame & Hin & Hpost); [|done]. destruct (same_writing_wf _ _ Hsame Hw) as [? _].
    pose proof (reader_read dr _ _ _ _ _ _ Hrd Hin Hpost). split; [apply Hpost|done|by eapply writer_same|done].
  - destruct (noise_write_ok ns buf Hw) as (? & ? & Heq' & Hpost). rewrite Heq in Heq'. simplify_eq. destruct Hpost as (Hk & Hw' & Hs & Hout).
    split; cbn; [by eapply keeps_reading_wf|done| |by eapply reader_same]. destruct Hwr as (cs & ms & ? & ? & Hm).
    exists cs, ms. by rewrite Hs, Hout.
  - destruct (noise_write_ok ns buf Hw) as (? & ? & Heq' & Hpost). rewrite Heq in Heq'. simplify_eq.
    destruct Hpost as (Hk & Hw' & _ & _ & cs' & ms' & Hcs & Hs & Hout).
    split; cbn; [by eapply keeps_reading_wf|done| |by eapply reader_same]. destruct Hwr as (cs & ms & Hs0 & <- & Hm).
    exists (cs ++ cs'), (ms ++ ms'). rewrite concat_app, Hcs, Hout, Hm, frames_wire_app. split_and!; [by eapply sealed_app|done..].
  - destruct (noise_flush_ok ns Hw) as (? & ? & Heq' & Hk & Hw' & Hs & Hout & _). rewrite Heq in Heq'. simplify_eq.
    split; cbn; [by eapply keeps_reading_wf|done| |by eapply reader_same]. destruct Hwr as (cs & ms & ? & ? & Hm).
    exists cs, ms. by rewrite Hs, Hout.
  - destruct (noise_close_ok ns Hw) as (? & ? & Heq' & Hk & Hw' & Hs & Hout & _). rewrite Heq in Heq'. simplify_eq.
    split; cbn; [by eapply keeps_reading_wf|done| |by eapply reader_same]. destruct Hwr as (cs & ms & ? & ? & Hm).
    exists cs, ms. by rewrite Hs, Hout.
  - assert (keeps_reading ns (ns_set_io ns io)) as Hk by by split_and!.
    split; cbn; [by eapply keeps_reading_wf|done| |by eapply reader_same]. destruct Hwr as (cs & ms & ? & ? & Hm).
    exists cs, ms. split_and!; [done..|]. cbn. by rewrite Ho, <- Hm.
Qed.

(** ** From one end to the other *)

Lemma noise_frames_prefix fs ms tail : Forall noise_frame fs → Forall noise_frame ms → frames_wire fs ++ tail `prefix_of` frames_wire ms →
  ∃ ms', ms = fs ++ ms' ∧ tail `prefix_of` frames_wire ms'.
Proof.
  intros Hfs. revert ms. induction Hfs as [|f fs Hf _ IH]; intros ms Hms Hpre; [by exists ms|].
  unfold frames_wire in Hpre. cbn in Hpre. destruct Hpre as [k Hk], Hms as [|m ms Hm Hms].
  { apply (f_equal length) in Hk. unfold noise_wire, noise_frame in *. rewrite !length_app in Hk. cbn in Hk. lia. }
  cbn in Hk. rewrite <- !app_assoc in Hk. apply noise_wire_inj in Hk as [-> Hk]; [|done..].
  destruct (IH ms Hms) as (ms' & -> & Hp); [exists k; by rewrite <- app_assoc|]. by exists ms'.
Qed.

(** The frames that a reader has decrypted are the first ones of the writer, and the bytes it is at, with those it reads next,
    begin the next ones. *)
Lemma reader_behind d nsa nsb written read delta : writer_ok d nsa written → reader_ok d nsb read →
  io_input (ns_io nsb) ++ delta `prefix_of` io_output (ns_io nsa) →
  ∃ cs ms e, written = read ++ unread nsb ++ concat cs ∧ sealed (ts_receiving (ns_noise nsb)) cs ms e ∧
    rest nsb ++ delta `prefix_of` frames_wire ms ∧
    (io_input (ns_io nsb) ++ delta = io_output (ns_io nsa) → unsent nsa = [] → rest nsb ++ delta = frames_wire ms).
Proof using TLaws.
  intros (cs & ms & Hs & <- & Hout) (ps & fs & Hop & Hfs & Hps & Hin) Hpre. pose proof (sealed_frames _ _ _ _ Hs) as Hms.
  rewrite Hin, <- app_assoc in Hpre. destruct (noise_frames_prefix fs ms (rest nsb ++ delta) Hfs Hms) as (ms' & -> & Hrest).
  { rewrite <- Hout. by apply prefix_app_r. }
  destruct (opened_sealed _ _ _ _ _ _ _ Hop Hs) as (cs' & ms1 & -> & Hms1 & Hs'); [by apply prefix_app_r|].
  apply app_inv_head in Hms1 as <-. exists cs', ms', (ts_sending (ns_noise nsa)). split_and!; [|done|done|].
  - by rewrite concat_app, Hps, app_assoc.
  - intros Heq Hun. rewrite Hun, app_nil_r, frames_wire_app, <- Heq, Hin, <- app_assoc in Hout. by apply app_inv_head in Hout.
Qed.

(** What a poll may answer at the end [b], when it reads what the end [a] has written. *)
Definition read_answer (a b : NoiseStream) (len : nat) ns' (r : Poll (result IoKind (list byte))) : Prop :=
  match r with
  | Prelude.Pending => io_input (ns_io ns') = io_output (ns_io (nz_socket a)) → unsent (nz_socket a) = [] → nz_read b = nz_written a
  | Ready (Ok bs) => nz_read b ++ bs `prefix_of` nz_written a ∧ length bs ≤ len ∧ (0 < len → bs ≠ [])
  | Ready (Err e) => (∃ n s, io_poll_read n s = (ns_io ns', Ready (Err e))) ∨
      e = IoUnexpectedEof ∧ ∃ n s, 0 < n ∧ io_poll_read n s = (ns_io ns', Ready (Ok []))
  end.

(** The first frame of the bytes that are being read *)
Lemma first_frame ms frame x k : Forall noise_frame ms → (N.of_nat (length frame) ≤ 65535)%N → noise_wire frame ++ x ++ k = frames_wire ms →
  ∃ ms', ms = frame :: ms' ∧ x ++ k = frames_wire ms'.
Proof.
  intros Hms Hlen Heq. destruct Hms as [|m ms Hm Hms]; [done|]. unfold frames_wire in Heq. cbn in Heq.
  unfold noise_wire in Heq at 1 2. rewrite <- !app_assoc in Heq. apply len16_inj in Heq as [Hl Heq]; [|unfold noise_frame in Hm; lia..].
  apply app_inj_1 in Heq as [-> Heq]; [|done]. by exists ms.
Qed.

Lemma noise_answer d a b len fuel ns' r : writer_ok d (nz_socket a) (nz_written a) → read_wf (nz_socket b) →
  reader_ok d (nz_socket b) (nz_read b) → ns_poll_read fuel len (nz_socket b) = Done (Some (ns', r)) →
  io_input (ns_io ns') `prefix_of` io_output (ns_io (nz_socket a)) → read_answer a b len ns' r.
Proof using Laws TLaws.
  intros Hw Hwf Hr Heq Hpre. apply noise_read_post in Heq as (delta & _ & Hin & Hpost); [|done].
  pose proof (reader_read _ _ _ _ _ _ _ Hr Hin Hpost) as Hr'. pose proof Hpre as Hpre'. rewrite <- (app_nil_r (io_input _)) in Hpre'.
  destruct r as [|[bs|e]]; cbn.
  - intros Hall Hun. destruct Hpost as (_ & _ & _ & Hu & _ & Hinc).
    destruct (reader_behind _ _ _ _ _ _ Hw Hr' Hpre') as (cs & ms & e & -> & Hs & _ & Hrest). rewrite !app_nil_r in Hrest.
    specialize (Hrest Hall Hun). destruct Hs as [|w c w' m cs ms e' Hm Hc Hs]; [rewrite Hu; cbn; by rewrite app_nil_r|]. exfalso.
    assert (noise_frame m) as Hf by (apply ts_write_law in Hm as [? ?]; unfold noise_frame; lia).
    exact (Hinc m (frames_wire ms) Hf Hrest).
  - destruct Hpost as (_ & Hlen & Hne & _). destruct (reader_behind _ _ _ _ _ _ Hw Hr' Hpre') as (cs & ms & e & -> & _).
    split; [|done]. by apply prefix_app_r.
  - destruct Hpost as [Hio|[Heof|(-> & frame & x & Hl & Hrest & Hbad)]]; [by left|by right|]. exfalso.
    rewrite Hin in Hpre. destruct (reader_behind _ _ _ _ _ _ Hw Hr Hpre) as (cs & ms & e & _ & Hs & [k Hk] & _).
    rewrite Hrest, <- app_assoc in Hk. symmetry in Hk. apply first_frame in Hk as (ms' & -> & _); [|by eapply sealed_frames|done].
    pose proof (sealed_frames _ _ _ _ Hs) as Hf. apply Forall_cons in Hf as [Hf _]. inversion Hs as [|w c w' m cs1 ms1 e1 Hm Hc Hs1 Hd]; subst.
    destruct (ts_read_written w c w' frame (ns_noise (nz_socket b)) Hm (eq_sym Hd)) as (r' & Hread & _). rewrite Hread in Hbad.
    unfold noise_frame in Hf. destruct Hbad as [Hb|Hb]; [lia|done].
Qed.

Lemma stream_run_inv io noise factor size z : 0 < factor → io_input io = [] → io_output io = [] →
  rtc noise_step (NoiseStream_new io noise factor size) z → stream_inv (ts_sending noise) (ts_receiving noise) z.
Proof using Laws TLaws.
  intros Hf Hi Ho Hrun. apply (rtc_invariant noise_step (stream_inv _ _) (stream_step_inv _ _) _ _ Hrun). by apply stream_inv_new.
Qed.

(** C11. What is written to one Noise socket is what the other one reads, with read-ahead factors of at least one: if the ends of a session have finished the
    handshake, so that [b] receives what [a] sends, and [b] has read the beginning of what [a] has put on the wire, then
    the bytes that were read at [b] are the first ones that were written at [a], in any run of both ends. The next poll
    of [b] returns and does not panic; with what it reads it returns at least one further byte and at most as many as asked for;
    it waits only if everything written is read or is still to come; and it fails only if the stream below fails or ends. *)
Theorem noise_stream_delivers ioa na fa sa iob nb fb sb a b :
  0 < fa → 0 < fb → io_input ioa = [] → io_output ioa = [] → io_input iob = [] → io_output iob = [] →
  ts_receiving nb = ts_sending na →
  rtc noise_step (NoiseStream_new ioa na fa sa) a → rtc noise_step (NoiseStream_new iob nb fb sb) b →
  io_input (ns_io (nz_socket b)) `prefix_of` io_output (ns_io (nz_socket a)) →
  nz_read b `prefix_of` nz_written a ∧
  ∀ len fuel, read_measure (nz_socket b) < fuel → ∃ ns' r, ns_poll_read fuel len (nz_socket b) = Done (Some (ns', r)) ∧
    (io_input (ns_io ns') `prefix_of` io_output (ns_io (nz_socket a)) → read_answer a b len ns' r).
Proof using Laws TLaws.
  intros Hfa Hfb Hia Hoa Hib Hob Hdir Ha Hb Hpre. apply stream_run_inv in Ha as [_ _ Hwa _]; [|done..].
  apply stream_run_inv in Hb as [Hrb _ _ Hrdb]; [|done..]. rewrite Hdir in Hrdb. split.
  - rewrite <- (app_nil_r (io_input _)) in Hpre. destruct (reader_behind _ _ _ _ _ _ Hwa Hrdb Hpre) as (cs & ms & e & -> & _).
    by apply prefix_app_r.
  - intros len fuel Hfuel. destruct (noise_read_total len fuel _ Hrb Hfuel) as (ns' & r & He). exists ns', r. split; [done|].
    by eapply noise_answer.
Qed.

(** The stream below has taken [written], encrypted from the direction [d] on in one message after the other, and
    nothing else. *)
Definition on_wire (d : ts_direction) ns (written : list byte) : Prop := ∃ cs ms,
  sealed d cs ms (ts_sending (ns_noise ns)) ∧ concat cs = written ∧ io_output (ns_io ns) = frames_wire ms.

Lemma flushed_on_wire d ns ns' r written : writer_ok d ns written → flush_post ns ns' r → r = Ready (Ok tt) → on_wire d ns' written.
Proof.
  intros (cs & ms & Hs & Hcs & Hout) (_ & _ & Hd & Hout' & Hun) Hr. exists cs, ms. rewrite Hd. split_and!; [done..|].
  by rewrite (Hun Hr), app_nil_r, Hout in Hout'.
Qed.

(** C16. Whatever the remote sends, no call of a Noise socket with a read-ahead factor of at least one panics or hangs, as long as no
    read or write has failed; and when a flush or a close is done, the stream below has
    taken every byte that was written to the socket, encrypted in order. *)
Theorem noise_never_panics io noise factor size z : 0 < factor → io_input io = [] → io_output io = [] →
  rtc noise_step (NoiseStream_new io noise factor size) z →
  (∀ len fuel, read_measure (nz_socket z) < fuel → ∃ ns' r, ns_poll_read fuel len (nz_socket z) = Done (Some (ns', r))) ∧
  (∀ buf, ∃ ns' r, ns_poll_write (nz_socket z) buf = Done (Some (ns', r))) ∧
  (∃ ns' r, ns_poll_flush (nz_socket z) = Done (Some (ns', r)) ∧
    (r = Ready (Ok tt) → on_wire (ts_sending noise) ns' (nz_written z))) ∧
  (∃ ns' r, ns_poll_close (nz_socket z) = Done (Some (ns', r)) ∧
    (r = Ready (Ok tt) → on_wire (ts_sending noise) ns' (nz_written z))).
Proof using Laws TLaws.
  intros Hf Hi Ho Hrun. apply stream_run_inv in Hrun as [Hr Hw Hwr _]; [|done..]. split_and!.
  - intros len fuel Hfuel. by apply noise_read_total.
  - intros buf. destruct (noise_write_ok _ buf Hw) as (ns' & r & He & _). eauto.
  - destruct (noise_flush_ok _ Hw) as (ns' & r & He & Hpost). exists ns', r. split; [done|]. by apply (flushed_on_wire _ (nz_socket z)).
  - destruct (noise_close_ok _ Hw) as (ns' & r & He & Hpost). exists ns', r. split; [done|]. by apply (flushed_on_wire _ (nz_socket z)).
Qed.

(** A write of a whole chunk or more is refused: with its tag, a chunk of [MAX_FRAME_LEN] bytes is a byte longer than a
    Noise message can be. *)
Lemma large_write_fails io noise factor size buf : 0 < size → MAX_FRAME_LEN ≤ length buf →
  ∃ ns', ns_poll_write (NoiseSocket_new io noise factor size) buf = Done (Some (ns', Ready (Err IoInvalidData))).
Proof using TLaws.
  intros Hs Hl. pose proof noise_sizes as (HM & HF & HE). unfold ns_poll_write, ns_drain_all. cbn [NoiseSocket_new ns_write_state outcome_bind].
  destruct buf as [|b0 buf']; [cbn in Hl; lia|]. set (buf := b0 :: buf') in *.
  assert (chunks (length buf) MAX_FRAME_LEN buf = take MAX_FRAME_LEN buf :: chunks (length buf') MAX_FRAME_LEN (drop MAX_FRAME_LEN buf)) as -> by done.
  cbn [ns_encrypt NoiseSocket_new ns_noise ns_encrypt_capacity ns_encrypt_buffer]. rewrite length_take, Nat.min_l by done.
  rewrite (proj2 (Nat.ltb_ge _ _)).
  2: { rewrite HE. cbn [length]. destruct size as [|size]; [lia|]. cbn [Nat.mul]. lia. }
  pose proof (ts_write_limit noise (take MAX_FRAME_LEN buf)) as Hlim. rewrite length_take, Nat.min_l in Hlim by done.
  destruct (ts_write_message noise _) as [noise' [m|]]; [|by eexists]. by discriminate Hlim; lia.
Qed.

(** With a read-ahead factor of zero, which the configuration allows, the buffer that is passed to the stream below is
    empty: no read of a new socket ever returns data, and one for which the stream below is ready reports an end of the
    stream that is not there. *)
Lemma zero_read_ahead io noise size fuel len : 0 < fuel → ∃ ns' r,
  ns_poll_read fuel len (NoiseSocket_new io noise 0 size) = Done (Some (ns', r)) ∧ (∀ bs, r ≠ Ready (Ok bs)) ∧
  (∀ s' bs, io_poll_read 0 io = (s', Ready (Ok bs)) → r = Ready (Err IoUnexpectedEof)).
Proof using Laws.
  intros Hf. destruct fuel as [|fuel]; [lia|]. cbn [ns_poll_read ns_read_turn NoiseSocket_new ns_read_state Nat.mul].
  unfold ns_read_data. change (ns_nread _) with 0. cbn [Nat.leb andb Nat.sub].
  change (ns_io (NoiseSocket_new io noise 0 size)) with io.
  destruct (io_poll_read 0 io) as [s' r] eqn:E. pose proof (io_read_law _ _ _ _ E) as [_ Hl].
  destruct r as [|[[|b bs]|k]]; cbn [outcome_bind]; [| |cbn in Hl; lia|];
    (eexists _, _; split; [reflexivity|]; split; [discriminate|]); intros ? ? [=]; reflexivity.
Qed.
End stream.

(** ** A transport

    The place of a message in the sequence is its tag. *)
Module CountedNoise.
Definition tag (n : N) : list byte := replicate 16 (byte_of (n mod 256)).

#[export] Instance counted_noise : NoiseTransport := {|
  TransportState := N * N;
  ts_write_message ts payload :=
    if (N.of_nat (length payload) + 16 <=? 65535)%N then ((fst ts + 1, snd ts)%N, Some (payload ++ tag (fst ts))) else (ts, None);
  ts_read_message ts message :=
    let n := length message - 16 in
    if decide (16 ≤ length message ∧ drop n message = tag (snd ts)) then ((fst ts, snd ts + 1)%N, Some (take n message)) else (ts, None);
|}.

#[export] Instance counted_noise_laws : NoiseTransportLaws counted_noise.
Proof.
  refine {| ts_direction := N; ts_sending := fst; ts_receiving := snd |}.
  - intros [s r] payload ts' message. cbn. destruct (N.leb_spec (N.of_nat (length payload) + 16) 65535); [|done].
    intros [= <- <-]. rewrite length_app. cbn [length tag replicate]. split; [done|]. rewrite Nat2N.inj_add. cbn. lia.
  - intros [s r] payload Hl. cbn. by rewrite (proj2 (N.leb_gt _ _)).
  - intros [s r] message ts' payload. cbn. destruct (decide _) as [[Hl _]|]; [|done]. intros [= <- <-]. rewrite length_take. lia.
  - intros [s r] payload. cbn. by case_match.
  - intros [s r] message. cbn. by case_match.
  - intros [s r] payload w' message [s' r']. cbn. destruct (N.leb_spec (N.of_nat (length payload) + 16) 65535); [|done].
    intros [= <- <-] ->. rewrite length_app. cbn [length tag replicate]. rewrite Nat.add_sub, take_app_length, drop_app_length.
    rewrite decide_True; [by eexists|]. split; [lia|done].
Defined.
End CountedNoise.

(** ** A run of both ends

    Five bytes are written in two calls, and read three at a time, over streams that carry a few bytes at a time. *)
Module NoiseRun.
Import CountedNoise.
#[local] Transparent MAX_NOISE_MSG_LEN MAX_FRAME_LEN.
Notation Stream := (NoiseStream (S := Pipe)).

Definition hello : list byte := [x68; x65; x6c; x6c; x6f].
Definition wire : list byte := frames_wire [take 2 hello ++ tag 0; drop 2 hello ++ tag 1].
Definition start (bytes : list byte) : Stream := NoiseStream_new (mkPipe bytes 7 [] []) (0, 0)%N 1 1.

Definition write (bs : list byte) (z : Stream) : option Stream :=
  match ns_poll_write (nz_socket z) bs with
  | Done (Some (ns, Ready (Ok n))) => Some (mkNoiseStream ns (nz_written z ++ take n bs) (nz_read z))
  | _ => None
  end.
Definition flush (z : Stream) : option Stream :=
  match ns_poll_flush (nz_socket z) with
  | Done (Some (ns, Ready (Ok tt))) => Some (mkNoiseStream ns (nz_written z) (nz_read z))
  | _ => None
  end.
Definition read (len : nat) (z : Stream) : option Stream :=
  match ns_poll_read 200 len (nz_socket z) with
  | Done (Some (ns, Ready (Ok bs))) => Some (mkNoiseStream ns (nz_written z) (nz_read z ++ bs))
  | _ => None
  end.

Lemma write_step bs z z' : write bs z = Some z' → noise_step z z'.
Proof.
  unfold write. destruct z as [ns w r]. cbn [nz_socket nz_written nz_read].
  destruct (ns_poll_write ns bs) as [[[ns' [|[n|]]]|]|] eqn:E; try done. intros [= <-]. by eapply Nz_write.
Qed.
Lemma flush_step z z' : flush z = Some z' → noise_step z z'.
Proof.
  unfold flush. destruct z as [ns w r]. cbn [nz_socket nz_written nz_read].
  destruct (ns_poll_flush ns) as [[[ns' [|[[]|]]]|]|] eqn:E; try done. intros [= <-]. by eapply Nz_flush.
Qed.
Lemma read_step len z z' : read len z = Some z' → noise_step z z'.
Proof.
  unfold read. destruct z as [ns w r]. cbn [nz_socket nz_written nz_read].
  destruct (ns_poll_read 200 len ns) as [[[ns' [|[bs|]]]|]|] eqn:E; try done. intros [= <-]. by eapply Nz_read.
Qed.

Definition sender : option Stream := z ← write (take 2 hello) (start []); z ← write (drop 2 hello) z; flush z.
Definition receiver : option Stream := z ← read 3 (start wire); z ← read 2 z; read 1 z.

Lemma sender_run z : sender = Some z → rtc noise_step (start []) z.
Proof.
  unfold sender. destruct (write (take 2 hello) _) as [z1|] eqn:E1; [|done]. cbn [mbind option_bind].
  destruct (write _ z1) as [z2|] eqn:E2; [|done]. cbn [mbind option_bind]. intros E3.
  exact (rtc_l _ _ _ _ (write_step _ _ _ E1) (rtc_l _ _ _ _ (write_step _ _ _ E2) (rtc_once _ _ (flush_step _ _ E3)))).
Qed.
Lemma receiver_run z : receiver = Some z → rtc noise_step (start wire) z.
Proof.
  unfold receiver. destruct (read 3 _) as [z1|] eqn:E1; [|done]. cbn [mbind option_bind].
  destruct (read _ z1) as [z2|] eqn:E2; [|done]. cbn [mbind option_bind]. intros E3.
  exact (rtc_l _ _ _ _ (read_step _ _ _ E1) (rtc_l _ _ _ _ (read_step _ _ _ E2) (rtc_once _ _ (read_step _ _ _ E3)))).
Qed.

Lemma sender_state : (λ z, (nz_written z, io_output (ns_io (nz_socket z)))) <$> sender = Some (hello, wire).
Proof. by vm_compute. Qed.
Lemma receiver_state : (λ z, (nz_read z, io_input (ns_io (nz_socket z)))) <$> receiver = Some (hello, wire).
Proof. by vm_compute. Qed.

(** A frame that cannot be decrypted is an error, and to poll again after it is a panic: the size of the frame is gone. *)
Definition bad_wire : list byte := frames_wire [hello ++ tag 7].
Lemma poll_after_error_panics :
  match ns_poll_read 200 9 (nz_socket (start bad_wire)) with
  | Done (Some (ns, Ready (Err IoInvalidData))) => match ns_poll_read 200 9 ns with Panic => true | _ => false end
  | _ => false
  end = true.
Proof. by vm_compute. Qed.
End NoiseRun.

Lemma noise_stream_delivers_witness : ∃ a b, NoiseRun.sender = Some a ∧ NoiseRun.receiver = Some b ∧
  nz_read b `prefix_of` nz_written a ∧ nz_read b = NoiseRun.hello.
Proof.
  pose proof NoiseRun.sender_state as Hs. pose proof NoiseRun.receiver_state as Hr.
  destruct NoiseRun.sender as [a|] eqn:Ea; [|discriminate Hs]. destruct NoiseRun.receiver as [b|] eqn:Eb; [|discriminate Hr].
  apply NoiseRun.sender_run in Ea. apply NoiseRun.receiver_run in Eb. cbn [fmap option_fmap option_map] in *.
  injection Hs as Hs Ho. injection Hr as Hr Hi. exists a, b. split_and!; [done..| |done].
  apply (noise_stream_delivers (TLaws := CountedNoise.counted_noise_laws) (Laws := pipe_laws)
    (mkPipe [] 7 [] []) (0, 0)%N 1 1 (mkPipe NoiseRun.wire 7 [] []) (0, 0)%N 1 1); try done; [lia..|].
  exists []. rewrite app_nil_r. exact (eq_trans Ho (eq_sym Hi)).
Defined.

Lemma noise_never_panics_witness : ∃ a, NoiseRun.sender = Some a ∧ nz_written a = NoiseRun.hello ∧
  ∃ ns' r, ns_poll_flush (nz_socket a) = Done (Some (ns', r)) ∧ (r = Ready (Ok tt) → on_wire (TLaws := CountedNoise.counted_noise_laws) (Laws := pipe_laws) 0%N ns' NoiseRun.hello).
Proof.
  pose proof NoiseRun.sender_state as Hs. destruct NoiseRun.sender as [a|] eqn:Ea; [|discriminate Hs].
  apply NoiseRun.sender_run in Ea. cbn [fmap option_fmap option_map] in Hs. injection Hs as Hs _. exists a.
  split; [reflexivity|]. split; [exact Hs|]. rewrite <- Hs.
  apply (noise_never_panics (TLaws := CountedNoise.counted_noise_laws) (Laws := pipe_laws)
    (mkPipe [] 7 [] []) (0, 0)%N 1 1 a (Nat.lt_0_succ 0) eq_refl eq_refl Ea).
Defined.
